(* ===== verification/_CoqProject ===== *)
-Q . S2P
Prelude.v
Posix.v
Buffer.v
Logger.v
Decimal.v
Timestamp.v
FormattedTime.v
Basic.v
Channel.v
EPollPoller.v
Timer.v
EntrySet.v
TimerQueue.v
TimerQueueSpec.v
TimerQueueProps.v
EventLoop.v
EventLoopSpec.v
EventLoopRuns.v
EventLoopProps.v
EventLoopThread.v
EventLoopThreadProps.v
EventLoopThreadPool.v
TcpConnection.v
TcpConnectionSpec.v
ConnectionFrame.v
TcpConnectionProps.v
Echo.v
Reactor.v
ReactorSpec.v
ReactorAcceptor.v
ReactorProps.v
ReactorDrop.v
ReactorWakeup.v
ReactorTurns.v
InetAddress.v
Sockets.v
Acceptor.v
Blocking.v
TcpServer.v
TcpServerProps.v
Programs.v
Cluster.v
ServerSteps.v
ClusterSpec.v
ClusterTurns.v
ClusterProps.v
Tests.v
