(* ===== verification/Prelude.v ===== *)
(** * mini_muduo: the event loops, timers, buffers and connections of the library

    A model of the C++ network library mini_muduo (include/, src/ and examples/
    under src/)
    and the theorems that make it correct. The library is a reactor: an
    [EventLoop] per thread waits in an epoll [Poller] for its [Channel]s, runs
    their callbacks, and then the functors that any thread has queued; timers
    are one more channel, on a timerfd ([TimerQueue]). A [TcpServer] accepts
    connections in a base loop ([Acceptor]) and hands each to one of the loops of
    its [EventLoopThreadPool]; a [TcpConnection] reads and writes through two
    [Buffer]s.

    ** Files

    - Prelude.v: outcomes (a value, or the fault that ends the program: an
      abort, a failed assertion, an exception, undefined behaviour), the state
      and fault monad [M W A] of all single-threaded code, total correctness
      [wp] with its rules and tactics ([wp_step], [wp_apply]), partial
      correctness [wlp], [evolves] for code that stays in a preorder of states
      and [keeps] for what code leaves alone, machine integers ([u64], [i64],
      ...), slices of lists, strings, transition systems.
    - Posix.v: results and constants of system calls.
    - Buffer.v (Buffer.cc): the vector and its indices with arithmetic modulo
      2^64; [wf], the refinement to a queue of bytes, one specification per
      method.
    - Logger.v (Logger.cc), Decimal.v (decimal numerals read back, [std::stoi]),
      Timestamp.v (Timestamp.cc, with IEEE doubles), FormattedTime.v (its
      [toFormattedString]), Basic.v (examples/example_basic.cc, which uses
      the three).
    - Channel.v (Channel.cc, Poller.h): the channel, event dispatch, and the
      interface of pollers: class [Poller] for the methods, class [PollerSpec]
      for what a poller promises; the clients (Acceptor.v, TcpConnection.v)
      are proved against it.
    - EPollPoller.v (EPollPoller.cc, Poller.cc): the implementation, an instance
      of [PollerSpec] for every kernel with the documented [epoll_ctl] (class
      [EpollSpec]); a finite map is a concrete kernel.
    - Timer.v, EntrySet.v, TimerQueue.v (Timer.cc, TimerQueue.cc): timers as
      objects in a store, [std::set] as a sorted list, the methods of the
      queue. TimerQueueSpec.v: the invariant and what every method does to it;
      TimerQueueProps.v: the properties.
    - EventLoop.v (EventLoop.cc): threads that execute the loop's methods as
      sequences of instructions that interleave; EventLoopSpec.v: the program
      counter of the loop thread and the invariant; EventLoopRuns.v: what the
      loop thread does in the end, whatever [poll] reports and whatever the
      other threads do meanwhile ([inevitably]); EventLoopProps.v: the
      properties.
    - EventLoopThread.v, EventLoopThreadProps.v (EventLoopThread.cc): the owner
      and the thread that runs a loop on its stack.
    - EventLoopThreadPool.v (EventLoopThreadPool.cc): the round robin.
    - TcpConnection.v (TcpConnection.cc): the connection over any poller;
      TcpConnectionSpec.v: the invariant of state, mask, buffers and histories;
      ConnectionFrame.v: what the methods leave alone, with other channels on
      the same poller; TcpConnectionProps.v: the properties.
    - Echo.v (examples/echo_server.cc, examples/discard_server.cc): the message
      callbacks of the two servers as the user code of TcpConnection.v.
    - Reactor.v (EventLoop.cc, TimerQueue.cc, EPollPoller.cc, TcpConnection.cc,
      TcpServer.cc, Acceptor.cc): one loop with everything on it, composed of
      the parts above: constructors, the rounds of [loop] with the functors and
      channels one at a time, the other threads in between, destructors.
      ReactorSpec.v: what the kernel promises of descriptors, the invariant;
      ReactorAcceptor.v: the acceptor and the server's functors in the base
      loop; ReactorProps.v: the properties and a concrete loop;
      ReactorDrop.v: connections destroyed while their loop runs;
      ReactorWakeup.v: when the eventfd is readable; ReactorTurns.v: the place
      of a functor in the queue.
    - InetAddress.v, Sockets.v (SocketsOps.cc, Socket.cc), Acceptor.v: addresses,
      the wrappers of the socket calls over a trace of them, the acceptor.
    - Blocking.v (examples/blocking_echo_server.cc, examples/benchmark_client.cc):
      the echo server without a loop, and the client of the benchmark.
    - TcpServer.v, TcpServerProps.v (TcpServer.cc): names, the map of the
      connections, and their hand-over between the loops.
    - Programs.v (examples/echo_server.cc, examples/discard_server.cc): [main] of
      the servers.
    - Cluster.v (TcpServer.cc and all below it): the whole server, the server of
      TcpServer.v with its base loop and its io loops, each a loop of
      Reactor.v; ServerSteps.v: the server's own steps, executed;
      ClusterSpec.v: how the server's view and the loops' hang together, and
      that every step keeps it; ClusterTurns.v: what the server and each loop
      see of a step, and what becomes of a functor that waits;
      ClusterProps.v: the properties and a concrete server.
    - Tests.v (tests/): the unit tests of single components, run on the model
      with their assertions, and the message callback of the others.

    TcpServer.v sees a connection from the server's side (its phase and
    functors), TcpConnection.v from the inside, Reactor.v from its loop's side,
    and Cluster.v ties the three together ([cl_ids]: which connection of the
    server is at which address of which loop);
    EventLoop.v has the loop's instructions in all interleavings, with opaque
    callbacks, Reactor.v has the objects behind the callbacks, with the
    functors and channel handlers as steps.

    ** How the code is represented

    Records are the classes' members under their own names, and definitions
    have the methods' names (with the class as the file). A single-threaded
    method is a function in [M W], where [W] is what the method can reach; its
    parameters are the kernel, the clock, the allocator and the user's
    callbacks, as type classes ([Epoll], [TimerEnv], [ConnEnv], [Os],
    [Descriptors], [InetLib], [LocalTime], [BlockingIo]) with named laws that state their documented behaviour, and a
    concrete instance each. Where threads share state (EventLoop.v,
    EventLoopThread.v) a step of a thread is an instruction that others cannot
    observe half done, and all interleavings are considered; TcpConnection.v,
    TimerQueue.v and TcpServer.v interleave whole methods, which is what the
    loops do, and the calls of other threads; Reactor.v interleaves the
    handling of one channel or one functor with the other threads, and Cluster.v
    these steps of all loops. Histories (bytes accepted and
    retrieved, callbacks called, functors queued and started) are fields
    that the code does not read.

    ** What is shown

    - Buffer: any sequence of calls of the public methods is one of a queue of
      bytes and the free space behind it: the same replies, and the failing
      assertion exactly when a call breaks the contract of [hasWritten]
      (fifo_refinement); [readFd] (readFd_stream) and
      [ensureWritableBytes] (ensureWritableBytes_space) in detail; the
      wrap-around of [makeSpace] (ensureWritableBytes_overflow).
    - Dispatch and poller: the order of the callbacks (handleEvent_order), the
      kernel watches what the channels ask for (poller_watches_requests), what
      [poll] reports (poll_active).
    - Timers: every interleaving of calls, functors and expirations is safe and
      keeps the sets, the store and the timerfd consistent (queue_safe); what
      is scheduled ([runAt], [runAfter], [runEvery] of EventLoop.cc are in
      TimerQueue.v: run_schedules), which timers run, in which order, what is
      re-armed, what [cancel] does; the race in [addTimer] (addTimer_race).
    - Loops: functors in order and none lost (functors_fifo), no lost wakeup
      but for the functors that the loop's thread queues before [loop]
      (no_lost_wakeup), every queued functor is run (queued_functors_start) and
      [quit] ends a running loop (quit_terminates) in every run, without
      waiting for poll's timeout, a started loop stays alive
      (started_loop_alive); and the four ways in which start and stop go wrong
      (early_functor_waits, quit_before_loop_lost, destructor_hangs,
      destructor_races).
    - Connections: no event leads to a fault and the poller is told what the
      state needs (conn_safe), no byte is lost or reordered (byte_streams), what
      [send] does (send_branches), the output is written (output_drains) before
      the graceful shutdown (shutdown_after_output), the callbacks
      (connection_callback_calls); the state that a late [shutdown] brings
      back (late_shutdown_reopens), and a report that would close a connection
      twice (hangup_with_urgent_closes_twice).
    - One loop: with any connections, timers and the wakeup descriptor on one
      poller, every step succeeds, no freed object is used and every stream is
      intact (loop_safe), with or without an acceptor; the kernel watches
      exactly what it must
      (loop_watches); it never polls with a functor in its queue unless the
      eventfd is readable (loop_woken); descriptors are open, distinct, and closed on release
      (loop_descriptors); construction and destruction (loop_constructed,
      loop_destroyed); what the server's destructor leaves to a running loop
      (destructor_dangles), and the functor that outlives its connection
      (late_send_use_after_free).
    - Example servers: what the echo server sends is what it receives
      (echo_stream, echo_delivers), the discard server sends nothing
      (discard_silent), [main] gives every connection its callbacks and a loop
      in turn (echo_server_connections); the blocking server's sessions end
      (session_terminates) and leak nothing (blocking_server_no_leak), but
      writing may leave a gap (echo_gap); the client succeeds against a server
      that echoes (benchmark_succeeds), arguments included; the basic example
      prints the time it was given (example_basic_prints).
    - Unit tests: their assertions hold of the model (test_buffer_passes,
      test_socket_wrappers_passes, test_pool_passes, test_timer_queue_passes).
    - Server: no descriptor leaks in the acceptor (accept_no_leak) and its life
      (acceptor_lifecycle), endpoints as text (address_roundtrip), the life of
      all connections (server_lifecycle), their names and loops
      (newConnection_registers, getNextLoop_round_robin).
    - The whole server: every step of any loop succeeds and every state is
      composed of reachable states of the server and of the loops
      (cluster_safe), so what is shown of these holds in the whole, and the
      listening socket stays watched; the
      server's model is an abstraction of the objects in the loops
      (cluster_refines_server); what the server hands to a loop is done when
      the loop has made a turn, in all interleavings (done_in_turn), which the
      base loop can always make (cluster_map_cleaned); connections are not
      leaked (cluster_no_leak).

    ** Bounds and fuel

    Only the loops of Blocking.v take fuel, a bound on the iterations;
    [None] is a loop that is still running. session_terminates shows that some
    bound is enough for a session, benchmark_succeeds gives one for the client;
    the accept loop never returns. Sizes are bounded where the code relies on
    memory being finite: the bytes put into a buffer by [max_size], the timers
    by the allocator's capacity, the clock by [time_ok], the identifiers of
    connections by 2^31-1; the theorems carry the bounds as hypotheses or show
    what happens beyond them.

    ** What is not modelled

    - The text of most error messages, [LOG_INFO] lines, and that logging may
      change [errno].
    - Data races on plain members: [TcpConnection::state_] is read and written by
      several threads without a lock; the model has whole methods interleave,
      and late_shutdown_reopens shows what may happen when one is cut in two.
    - In a callback user code calls its own connection and the timers; what it
      calls of other connections is a step of its own, in the same thread, after
      the channel or functor that made it ([CallConnection] of Reactor.v).
    - Signals. A write to a connection that the peer has reset returns EPIPE
      here, in TcpConnection.v and in Blocking.v, as it does in a process that
      ignores SIGPIPE. Nothing in the repository ignores the signal or passes
      MSG_NOSIGNAL: unless the application does, such a write ends the process.
    - A hang-up of a watched socket is taken to come with EPOLLIN or without
      EPOLLPRI and EPOLLRDHUP ([revents_ok] of TcpConnectionSpec.v says why);
      hangup_with_urgent_closes_twice shows what the code would do otherwise.
    - In Cluster.v the kernel's descriptor table is split by loop, and the
      server, once it runs, is not destroyed: destructor_dangles shows, for
      one of its loops, what happens to the connections then.
    - [queueInLoop] is one step in Reactor.v and Cluster.v, the push and the
      wakeup together; EventLoop.v has the instructions and what may come
      between them.
    - Reactor.v keeps of the acceptor's socket calls only whether the
      constructor gets a socket; Acceptor.v has them all.
    - The kernel is assumed not to report a descriptor with an empty mask
      ([poll_ok]); epoll would still report errors and hang-ups for it, but the
      poller deletes such a registration.
    - The measured time and the printing of the client; the client threads of
      the tests, and the tests that only start and stop loops. *)
From stdpp Require Export base tactics list numbers gmap strings pretty relations.
From Stdlib Require Export ZArith Lia.
From Stdlib.Strings Require Export Byte.

#[global] Open Scope Z_scope.

(** ** Outcomes

    A C++ call either returns, or leaves the program through one of the
    faults below. [AbortFatal] is [LOG_FATAL] ([std::abort] in
    src/base/Logger.cc), [AbortAssert] a failed [assert], [LengthError] the
    [std::length_error] that [std::vector] throws, [InvalidArgument] and
    [OutOfRange] the exceptions of [std::stoi], and [UndefinedBehaviour] an
    access or an arithmetic operation the language gives no meaning to. *)
Inductive fault : Type :=
| AbortFatal
| AbortAssert
| LengthError
| InvalidArgument
| OutOfRange
| UndefinedBehaviour.

Inductive outcome (A : Type) : Type :=
| Ok (a : A)
| Fault (f : fault).
Arguments Ok {A} a.
Arguments Fault {A} f.

#[export] Instance fault_eq_dec : EqDecision fault.
Proof. solve_decision. Defined.

#[export] Instance outcome_ret : MRet outcome := λ A a, Ok a.
#[export] Instance outcome_bind : MBind outcome := λ A B f m,
  match m with Ok a => f a | Fault e => Fault e end.

(** ** The state and fault monad

    [M W A] is a piece of code that runs on a state [W], the objects it can
    reach, and returns an [A]. *)
Definition M (W A : Type) : Type := W → outcome (A * W).

#[export] Instance M_ret W : MRet (M W) := λ A a w, Ok (a, w).
#[export] Instance M_bind W : MBind (M W) := λ A B f m w,
  match m w with Ok (a, w') => f a w' | Fault e => Fault e end.

Section operations.
Context {W : Type}.

Definition gets {A} (f : W → A) : M W A := λ w, Ok (f w, w).
Definition modify (f : W → W) : M W unit := λ w, Ok (tt, f w).
Definition raise {A} (e : fault) : M W A := λ _, Fault e.

(** [if (b) m;] *)
Definition when (b : bool) (m : M W unit) : M W unit := if b then m else mret tt.

(** [assert(b)] and the side conditions of the language. *)
Definition require (e : fault) (b : bool) : M W unit :=
  if b then mret tt else raise e.

(** A pure computation that may fault. *)
Definition lift_outcome {A} (o : outcome A) : M W A := λ w,
  match o with Ok a => Ok (a, w) | Fault e => Fault e end.

(** Reading through a pointer: a null or dangling pointer is undefined
    behaviour. *)
Definition deref {A} (f : W → option A) : M W A := λ w,
  match f w with Some a => Ok (a, w) | None => Fault UndefinedBehaviour end.

(** [for (x : l) f(x);] *)
Fixpoint for_each {A} (l : list A) (f : A → M W unit) : M W unit :=
  match l with
  | [] => mret tt
  | x :: l' => f x ;; for_each l' f
  end.

(** Running a method of a member object: the state [V] is a part of [W]. *)
Definition zoom {V A} (get : W → V) (set : V → W → W) (m : M V A) : M W A := λ w,
  match m (get w) with
  | Ok (a, v) => Ok (a, set v w)
  | Fault e => Fault e
  end.
End operations.

(** ** Total correctness

    [wp m Q w]: run on [w], [m] returns normally (so it neither aborts nor
    throws nor reaches undefined behaviour) with a result and a state that
    satisfy [Q]. *)
Definition wp {W A} (m : M W A) (Q : A → W → Prop) (w : W) : Prop :=
  match m w with Ok (a, w') => Q a w' | Fault _ => False end.

Section wp_rules.
Context {W : Type}.

Lemma wp_run {A} (m : M W A) Q w :
  wp m Q w ↔ ∃ a w', m w = Ok (a, w') ∧ Q a w'.
Proof. unfold wp. destruct (m w) as [[a w']|]; naive_solver. Qed.

Lemma wp_of_run {A} (m : M W A) (Q : A → W → Prop) w a w' :
  m w = Ok (a, w') → Q a w' → wp m Q w.
Proof. intros Hm HQ. unfold wp. by rewrite Hm. Qed.

Lemma wp_mono {A} (m : M W A) (P Q : A → W → Prop) w :
  wp m P w → (∀ a w', P a w' → Q a w') → wp m Q w.
Proof. unfold wp. destruct (m w) as [[a w']|]; naive_solver. Qed.

Lemma wp_and {A} (m : M W A) (P Q : A → W → Prop) w :
  wp m P w → wp m Q w → wp m (λ a w', P a w' ∧ Q a w') w.
Proof. unfold wp. destruct (m w) as [[a w']|]; naive_solver. Qed.

Lemma wp_ret {A} (a : A) Q (w : W) : Q a w → wp (mret a) Q w.
Proof. done. Qed.

Lemma wp_bind {A B} (m : M W A) (f : A → M W B) Q w :
  wp m (λ a w', wp (f a) Q w') w → wp (m ≫= f) Q w.
Proof. unfold wp, mbind, M_bind. destruct (m w) as [[a w']|]; done. Qed.

Lemma wp_bind_inv {A B} (m : M W A) (f : A → M W B) Q w :
  wp (m ≫= f) Q w → wp m (λ a w', wp (f a) Q w') w.
Proof. unfold wp, mbind, M_bind. destruct (m w) as [[a w']|]; done. Qed.

Lemma wp_gets {A} (f : W → A) Q w : Q (f w) w → wp (gets f) Q w.
Proof. done. Qed.

Lemma wp_modify (f : W → W) Q w : Q tt (f w) → wp (modify f) Q w.
Proof. done. Qed.

Lemma wp_deref {A} (f : W → option A) Q w a :
  f w = Some a → Q a w → wp (deref f) Q w.
Proof. intros Hf HQ. unfold wp, deref. by rewrite Hf. Qed.

Lemma wp_require e b Q (w : W) : b = true → Q tt w → wp (require e b) Q w.
Proof. by intros ->. Qed.

Lemma wp_lift_outcome {A} (o : outcome A) Q (w : W) a :
  o = Ok a → Q a w → wp (lift_outcome o) Q w.
Proof. by intros ->. Qed.

Lemma wp_when (b : bool) m Q (w : W) :
  (b = true → wp m Q w) → (b = false → Q tt w) → wp (when b m) Q w.
Proof. destruct b; naive_solver. Qed.

Lemma wp_if {A} (b : bool) (m1 m2 : M W A) Q w :
  (b = true → wp m1 Q w) → (b = false → wp m2 Q w) →
  wp (if b then m1 else m2) Q w.
Proof. destruct b; naive_solver. Qed.

Lemma wp_zoom {V A} (get : W → V) (set : V → W → W) (m : M V A) Q w :
  wp m (λ a v, Q a (set v w)) (get w) → wp (zoom get set m) Q w.
Proof. unfold wp, zoom. destruct (m (get w)) as [[a v]|]; done. Qed.

(** The loop rule: the invariant relates the state to the elements already
    visited. *)
Lemma wp_for_each_aux {A} (f : A → M W unit) (I : list A → W → Prop) l done w :
  I done w →
  (∀ pre x post w', done ++ l = pre ++ x :: post → I pre w' →
     wp (f x) (λ _ w'', I (pre ++ [x]) w'') w') →
  wp (for_each l f) (λ _ w', I (done ++ l) w') w.
Proof.
  revert done w. induction l as [|x l IH]; intros done w HI Hstep; simpl.
  { apply wp_ret. by rewrite app_nil_r. }
  apply wp_bind. eapply wp_mono; [by eapply Hstep|].
  intros [] w' HI'. cbv beta in HI'.
  replace (done ++ x :: l) with ((done ++ [x]) ++ l) by by rewrite <-app_assoc.
  apply IH; [done|]. intros pre y post w'' Heq. apply (Hstep _ _ post).
  by rewrite <-Heq, <-app_assoc.
Qed.

Lemma wp_for_each {A} (f : A → M W unit) (I : list A → W → Prop) l Q w :
  I [] w →
  (∀ pre x post w', l = pre ++ x :: post → I pre w' →
     wp (f x) (λ _ w'', I (pre ++ [x]) w'') w') →
  (∀ w', I l w' → Q tt w') →
  wp (for_each l f) Q w.
Proof.
  intros HI Hstep HQ.
  eapply (wp_mono _ (λ _ w', I ([] ++ l) w')); [by apply wp_for_each_aux|].
  intros []. apply HQ.
Qed.
End wp_rules.

(** Running a sequence step by step, also towards a fault. *)
Lemma run_bind_ok {W A B} (m : M W A) (k : A → M W B) w a w' :
  m w = Ok (a, w') → (m ≫= k) w = k a w'.
Proof. intros Hm. unfold mbind, M_bind. by rewrite Hm. Qed.

Lemma run_bind_fault {W A B} (m : M W A) (k : A → M W B) w e :
  m w = Fault e → (m ≫= k) w = Fault e.
Proof. intros Hm. unfold mbind, M_bind. by rewrite Hm. Qed.

Lemma for_each_app {W A} (f : A → M W unit) l1 l2 (w : W) :
  for_each (l1 ++ l2) f w = (for_each l1 f ;; for_each l2 f) w.
Proof.
  revert w. induction l1 as [|x l1 IH]; intros w; [done|]. simpl.
  unfold mbind, M_bind. destruct (f x w) as [[[] w']|]; [|done]. apply IH.
Qed.

(** One step of symbolic execution. *)
Ltac wp_step :=
  lazymatch goal with
  | |- wp (_ ≫= _) _ _ => apply wp_bind
  | |- wp (mret _) _ _ => apply wp_ret
  | |- wp (gets _) _ _ => apply wp_gets
  | |- wp (modify _) _ _ => apply wp_modify
  | |- wp (zoom _ _ _) _ _ => apply wp_zoom
  | |- wp (when _ _) _ _ => apply wp_when; intros ?
  | |- wp (require _ _) _ _ => apply wp_require
  | |- wp (if _ then _ else _) _ _ => apply wp_if; intros ?
  | |- wp (lift_outcome (Ok _)) _ _ => eapply wp_lift_outcome; [reflexivity|]
  end; cbv beta.
Ltac wp_steps := repeat wp_step.

(** ** What holds if the code returns

    [wlp m Q w]: if [m] returns normally on [w], the result and the state
    satisfy [Q]. Together with [wp], which gives that it returns, frame
    properties can be shown without the side conditions of the calls. *)
Definition wlp {W A} (m : M W A) (Q : A → W → Prop) (w : W) : Prop :=
  ∀ a w', m w = Ok (a, w') → Q a w'.

Section wlp_rules.
Context {W : Type}.

Lemma wp_wlp {A} (m : M W A) (P Q : A → W → Prop) w :
  wp m P w → wlp m Q w → wp m (λ a w', P a w' ∧ Q a w') w.
Proof. intros (a & w' & Hm & HP)%wp_run HQ. by eapply wp_of_run; [|split; [|apply HQ]]. Qed.

Lemma wlp_mono {A} (m : M W A) (P Q : A → W → Prop) w :
  wlp m P w → (∀ a w', P a w' → Q a w') → wlp m Q w.
Proof. intros HP HPQ a w' Hm. auto. Qed.

Lemma wlp_and {A} (m : M W A) (P Q : A → W → Prop) w :
  wlp m P w → wlp m Q w → wlp m (λ a w', P a w' ∧ Q a w') w.
Proof. intros HP HQ a w' Hrun. split; eauto. Qed.
Lemma wlp_ret {A} (a : A) Q (w : W) : Q a w → wlp (mret a) Q w.
Proof. by intros HQ a' w' [= <- <-]. Qed.

Lemma wlp_bind {A B} (m : M W A) (f : A → M W B) Q w :
  wlp m (λ a w', wlp (f a) Q w') w → wlp (m ≫= f) Q w.
Proof.
  intros Hm b w'. unfold mbind, M_bind. destruct (m w) as [[a w1]|] eqn:Hrun; [|done].
  by apply Hm.
Qed.

Lemma wlp_gets {A} (f : W → A) Q w : Q (f w) w → wlp (gets f) Q w.
Proof. by intros HQ a' w' [= <- <-]. Qed.

Lemma wlp_modify (f : W → W) Q w : Q tt (f w) → wlp (modify f) Q w.
Proof. by intros HQ a' w' [= <- <-]. Qed.

Lemma wlp_raise {A} e (Q : A → W → Prop) w : wlp (raise e) Q w.
Proof. by intros a w'. Qed.

Lemma wlp_deref {A} (f : W → option A) Q w :
  (∀ a, f w = Some a → Q a w) → wlp (deref f) Q w.
Proof.
  intros HQ a w'. unfold deref. destruct (f w) as [a'|]; [|done]. intros [= <- <-]. by apply HQ.
Qed.

Lemma wlp_require e b Q (w : W) : (b = true → Q tt w) → wlp (require e b) Q w.
Proof. destruct b; intros HQ a w'; [intros [= <- <-]; auto|done]. Qed.

Lemma wlp_lift_outcome {A} (o : outcome A) Q (w : W) :
  (∀ a, o = Ok a → Q a w) → wlp (lift_outcome o) Q w.
Proof. destruct o; intros HQ a' w'; [intros [= <- <-]; auto|done]. Qed.

Lemma wlp_if {A} (b : bool) (m1 m2 : M W A) Q w :
  (b = true → wlp m1 Q w) → (b = false → wlp m2 Q w) → wlp (if b then m1 else m2) Q w.
Proof. destruct b; auto. Qed.

Lemma wlp_when (b : bool) m Q (w : W) :
  (b = true → wlp m Q w) → (b = false → Q tt w) → wlp (when b m) Q w.
Proof. intros. apply wlp_if; [done|]. intros. apply wlp_ret. auto. Qed.

Lemma wlp_zoom {V A} (get : W → V) (set : V → W → W) (m : M V A) Q w :
  (∀ a v, m (get w) = Ok (a, v) → Q a (set v w)) → wlp (zoom get set m) Q w.
Proof.
  intros HQ a w'. unfold zoom. destruct (m (get w)) as [[a' v]|] eqn:Hm; [|done].
  intros [= <- <-]. by apply HQ.
Qed.

Lemma wlp_for_each {A} (f : A → M W unit) (I : W → Prop) l w :
  I w → (∀ x w', x ∈ l → I w' → wlp (f x) (λ _, I) w') → wlp (for_each l f) (λ _, I) w.
Proof.
  revert w. induction l as [|x l IH]; intros w HI Hf; simpl; [by apply wlp_ret|].
  apply wlp_bind. eapply wlp_mono; [apply Hf; [apply list_elem_of_here|done]|].
  intros [] w' HI'. apply IH; [done|]. intros y w'' Hy. apply Hf. by apply list_elem_of_further.
Qed.
End wlp_rules.

Ltac wlp_step :=
  lazymatch goal with
  | |- wlp (_ ≫= _) _ _ => apply wlp_bind
  | |- wlp (mret _) _ _ => apply wlp_ret
  | |- wlp (gets _) _ _ => apply wlp_gets
  | |- wlp (modify _) _ _ => apply wlp_modify
  | |- wlp (raise _) _ _ => apply wlp_raise
  | |- wlp (deref _) _ _ => apply wlp_deref; intros ? ?
  | |- wlp (zoom _ _ _) _ _ => apply wlp_zoom; intros ? ? ?
  | |- wlp (when _ _) _ _ => apply wlp_when; intros ?
  | |- wlp (require _ _) _ _ => apply wlp_require; intros ?
  | |- wlp (if _ then _ else _) _ _ => apply wlp_if; intros ?
  | |- wlp (lift_outcome _) _ _ => apply wlp_lift_outcome; intros ? ?
  end; cbv beta.
Ltac wlp_steps := repeat wlp_step.

(** Up to the next branch. *)
Ltac wlp_run :=
  repeat lazymatch goal with
  | |- wlp (if _ then _ else _) _ _ => fail
  | |- wlp (when _ _) _ _ => fail
  | _ => wlp_step
  end.

(** What code may do to the state: a preorder that its steps stay in. *)
Section evolves.
Context {W : Type} (R : W → W → Prop) `{!PreOrder R}.

Definition evolves {A} (m : M W A) : Prop := ∀ w, wlp m (λ _, R w) w.

Lemma evolves_bind {A B} (m : M W A) (f : A → M W B) :
  evolves m → (∀ a, evolves (f a)) → evolves (m ≫= f).
Proof.
  intros Hm Hf w. apply wlp_bind. eapply wlp_mono; [apply Hm|]. intros a w1 H1.
  eapply wlp_mono; [apply Hf|]. intros b w2 H2. by transitivity w1.
Qed.
Lemma evolves_ret {A} (a : A) : evolves (mret a).
Proof. intros w. by apply wlp_ret. Qed.
Lemma evolves_gets {A} (f : W → A) : evolves (gets f).
Proof. intros w. by apply wlp_gets. Qed.
Lemma evolves_raise {A} e : evolves (raise e (A:=A)).
Proof. intros w. apply wlp_raise. Qed.
Lemma evolves_deref {A} (f : W → option A) : evolves (deref f).
Proof. intros w. by apply wlp_deref. Qed.
Lemma evolves_lift_outcome {A} (o : outcome A) : evolves (lift_outcome o).
Proof. intros w. by apply wlp_lift_outcome. Qed.
Lemma evolves_modify f : (∀ w, R w (f w)) → evolves (modify f).
Proof. intros Hf w. apply wlp_modify, Hf. Qed.
Lemma evolves_if {A} (b : bool) (m1 m2 : M W A) :
  evolves m1 → evolves m2 → evolves (if b then m1 else m2).
Proof. by destruct b. Qed.
Lemma evolves_when (b : bool) m : evolves m → evolves (when b m).
Proof. intros Hm. apply evolves_if; [done|apply evolves_ret]. Qed.
End evolves.

Lemma evolves_mono {W A} (R R' : W → W → Prop) (m : M W A) :
  (∀ w w', R w w' → R' w w') → evolves R m → evolves R' m.
Proof. intros HR Hm w. eapply wlp_mono; [apply Hm|]. intros ? w'. apply HR. Qed.

(** What code does not change: the part of the state that [view] shows. *)
Definition same_as {W T} (view : W → T) (w w' : W) : Prop := view w' = view w.
#[export] Instance same_as_preorder {W T} (view : W → T) : PreOrder (same_as view).
Proof. unfold same_as. split; [done|]. intros w1 w2 w3 H12 H23. congruence. Qed.
#[global] Typeclasses Opaque same_as.
Abbreviation keeps view m := (evolves (same_as view) m).

Create HintDb evolves.
#[export] Hint Resolve evolves_ret evolves_gets evolves_raise evolves_deref evolves_lift_outcome
  : evolves.

(** Up to what the hints do not know. *)
Ltac evolves :=
  repeat lazymatch goal with
  | |- evolves _ (_ ≫= _) => refine (evolves_bind _ _ _ _ _); [|intros ?]
  | |- evolves _ (when _ _) => refine (evolves_when _ _ _ _)
  | |- evolves _ (match ?x with _ => _ end) => destruct x
  | |- evolves _ _ => progress eauto 2 with evolves typeclass_instances
  end.

(** [wp_apply H]: use the specification [H] of a call. *)
Tactic Notation "wp_apply" uconstr(H) :=
  eapply wp_mono; [eapply H|cbv beta].

(** ** Machine integers

    Unsigned arithmetic wraps around; signed overflow is undefined
    behaviour, so it is checked where it is computed. *)
Definition u64 (z : Z) : Z := z `mod` 2 ^ 64.
Definition u32 (z : Z) : Z := z `mod` 2 ^ 32.
Definition u16 (z : Z) : Z := z `mod` 2 ^ 16.

Definition in_i64 (z : Z) : bool := bool_decide (- 2 ^ 63 ≤ z < 2 ^ 63).
Definition in_i32 (z : Z) : bool := bool_decide (- 2 ^ 31 ≤ z < 2 ^ 31).

(** The value of a signed operation whose mathematical result is [z]. *)
Definition i64 (z : Z) : outcome Z :=
  if in_i64 z then Ok z else Fault UndefinedBehaviour.
Definition i32 (z : Z) : outcome Z :=
  if in_i32 z then Ok z else Fault UndefinedBehaviour.

Lemma u64_small z : 0 ≤ z < 2 ^ 64 → u64 z = z.
Proof. apply Z.mod_small. Qed.
Lemma u32_small z : 0 ≤ z < 2 ^ 32 → u32 z = z.
Proof. apply Z.mod_small. Qed.
Lemma u64_range z : 0 ≤ u64 z < 2 ^ 64.
Proof. by apply Z.mod_pos_bound. Qed.
Lemma u32_range z : 0 ≤ u32 z < 2 ^ 32.
Proof. by apply Z.mod_pos_bound. Qed.
Lemma i64_ok z : - 2 ^ 63 ≤ z < 2 ^ 63 → i64 z = Ok z.
Proof. intros ?. unfold i64, in_i64. by rewrite bool_decide_eq_true_2. Qed.
Lemma i32_ok z : - 2 ^ 31 ≤ z < 2 ^ 31 → i32 z = Ok z.
Proof. intros ?. unfold i32, in_i32. by rewrite bool_decide_eq_true_2. Qed.
Lemma i64_Ok_inv z z' : i64 z = Ok z' → z' = z ∧ - 2 ^ 63 ≤ z < 2 ^ 63.
Proof. unfold i64, in_i64. case_bool_decide; naive_solver. Qed.
Lemma i32_Ok_inv z z' : i32 z = Ok z' → z' = z ∧ - 2 ^ 31 ≤ z < 2 ^ 31.
Proof. unfold i32, in_i32. case_bool_decide; naive_solver. Qed.

Create HintDb machine_int.
#[export] Hint Rewrite u64_small u32_small using lia : machine_int.
#[export] Hint Resolve u64_range u32_range : machine_int.

(** Compute away the wrap-around of expressions that provably stay in range. *)
Ltac unwrap := autorewrite with machine_int in *.

(** ** Byte strings *)
Abbreviation bytes := (list byte).

#[export] Instance byte_eq_dec : EqDecision byte := Byte.byte_eq_dec.

(** The size of a container, as the unsigned quantity the code computes with. *)
Abbreviation zlen l := (Z.of_nat (length l)).

(** [l[off .. off + n)] *)
Definition slice {A} (off n : Z) (l : list A) : list A :=
  take (Z.to_nat n) (drop (Z.to_nat off) l).

(** Overwriting [l] from [off] with [data]. *)
Definition splice {A} (off : Z) (data l : list A) : list A :=
  take (Z.to_nat off) l ++ data ++ drop (Z.to_nat off + length data) l.

Section slices.
Context {A : Type}.
Implicit Types l data : list A.

Lemma length_slice off n l :
  0 ≤ off → 0 ≤ n → off + n ≤ zlen l → zlen (slice off n l) = n.
Proof. intros. unfold slice. rewrite length_take, length_drop. lia. Qed.

Lemma length_splice off data l :
  0 ≤ off → off + zlen data ≤ zlen l → zlen (splice off data l) = zlen l.
Proof.
  intros. unfold splice.
  rewrite !length_app, length_take, length_drop. lia.
Qed.

Lemma slice_0 off l : slice off 0 l = [].
Proof. done. Qed.

Lemma slice_all l n : n = zlen l → slice 0 n l = l.
Proof. intros ->. unfold slice. simpl. by rewrite Nat2Z.id, take_ge. Qed.

Lemma slice_drop off n k l :
  0 ≤ off → 0 ≤ k ≤ n →
  drop (Z.to_nat k) (slice off n l) = slice (off + k) (n - k) l.
Proof.
  intros. unfold slice.
  replace (Z.to_nat n) with (Z.to_nat k + Z.to_nat (n - k))%nat by lia.
  rewrite <-take_drop_commute, drop_drop. do 2 f_equal. lia.
Qed.

Lemma slice_take off n k l :
  0 ≤ k ≤ n → take (Z.to_nat k) (slice off n l) = slice off k l.
Proof. intros. unfold slice. rewrite take_take. f_equal. lia. Qed.

Lemma slice_app_l off n l l' :
  0 ≤ off → 0 ≤ n → off + n ≤ zlen l → slice off n (l ++ l') = slice off n l.
Proof.
  intros. unfold slice. rewrite drop_app_le by lia.
  rewrite take_app_le; [done|]. rewrite length_drop. lia.
Qed.

(** Reading across the boundary of a region that has just been written. *)
Lemma slice_splice_after off n data l :
  0 ≤ off → 0 ≤ n → off + n + zlen data ≤ zlen l →
  slice off (n + zlen data) (splice (off + n) data l) = slice off n l ++ data.
Proof.
  intros Ho Hn Hl. unfold slice, splice.
  rewrite drop_app_le by (rewrite length_take; lia).
  replace (Z.to_nat (off + n)) with (Z.to_nat off + Z.to_nat n)%nat by lia.
  rewrite <-take_drop_commute.
  assert (length (take (Z.to_nat n) (drop (Z.to_nat off) l)) = Z.to_nat n) as Hlen
    by (rewrite length_take, length_drop; lia).
  rewrite app_assoc, take_app_le by (rewrite length_app, Hlen; lia).
  rewrite take_ge; [done|]. rewrite length_app, Hlen. lia.
Qed.

Lemma slice_splice_same off data l :
  0 ≤ off → off + zlen data ≤ zlen l →
  slice off (zlen data) (splice off data l) = data.
Proof.
  intros Ho Hl. pose proof (slice_splice_after off 0 data l) as H.
  rewrite Z.add_0_l, Z.add_0_r in H. apply H; lia.
Qed.
End slices.

(** ** Lists *)
Lemma filter_ext_in {A} (P Q : A → Prop) `{∀ x, Decision (P x), ∀ x, Decision (Q x)}
    (l : list A) :
  (∀ x, x ∈ l → P x ↔ Q x) → filter P l = filter Q l.
Proof.
  induction l as [|x l IH]; intros Heq; [done|]. rewrite !filter_cons.
  pose proof (Heq x (list_elem_of_here _ _)).
  rewrite IH by (intros; apply Heq; by apply list_elem_of_further).
  repeat case_decide; tauto.
Qed.

Lemma filter_tail {A} (P : A → Prop) `{∀ x, Decision (P x)} (x : A) (q : list A) :
  filter P (x :: q) = x :: q → filter P q = q.
Proof.
  rewrite filter_cons. case_decide; [congruence|]. intros Heq. apply (f_equal length) in Heq.
  pose proof (length_filter P q). simpl in Heq. lia.
Qed.

Lemma Forall2_impl_in {A B} (P Q : A → B → Prop) (l : list A) (k : list B) :
  Forall2 P l k → (∀ x y, x ∈ l → P x y → Q x y) → Forall2 Q l k.
Proof.
  induction 1 as [|x y l k Hxy _ IH]; intros Himpl; constructor.
  - apply Himpl; [apply list_elem_of_here|done].
  - apply IH. intros x' y' Hx'. apply Himpl. by apply list_elem_of_further.
Qed.

(** ** Strings *)
Lemma string_app_cons c (s1 s2 : string) : String c s1 +:+ s2 = String c (s1 +:+ s2).
Proof. done. Qed.

Lemma string_app_assoc (s1 s2 s3 : string) :
  (s1 +:+ s2) +:+ s3 = s1 +:+ (s2 +:+ s3).
Proof. induction s1 as [|c s1 IH]; [done|]. by rewrite !string_app_cons, IH. Qed.

Lemma length_string_app (s1 s2 : string) :
  String.length (s1 +:+ s2) = (String.length s1 + String.length s2)%nat.
Proof. induction s1 as [|c s1 IH]; [done|]. rewrite string_app_cons. simpl. by rewrite IH. Qed.

Lemma string_app_nil_r (s : string) : s +:+ "" = s.
Proof. induction s as [|c s IH]; [done|]. by rewrite string_app_cons, IH. Qed.

(** ** Maps *)
Lemma insert_as_alter `{Countable K} {A} (f : A → A) (k : K) (x : A) (m : gmap K A) :
  m !! k = Some x → <[k := f x]> m = alter f k m.
Proof.
  intros Hk. apply map_eq. intros k'. rewrite lookup_insert, lookup_alter.
  case_decide; [|done]. subst. by rewrite Hk.
Qed.

(** ** Transition systems *)
Lemma rtc_invariant {A} (R : A → A → Prop) (P : A → Prop) x y :
  (∀ x y, P x → R x y → P y) → P x → rtc R x y → P y.
Proof. intros Hstep Hx Hxy. induction Hxy; eauto. Qed.
