(* ===== verification/Posix.v ===== *)
(** * The operating system as the code sees it

    Results of system calls, the [errno] values and the flag constants that
    the code under src/ compares against (Linux, x86-64). The calls
    themselves are parameters of the components that make them. *)
From S2P Require Import Prelude.

(** The result of a call: a value, or [-1] with [errno]. *)
Inductive io_result (A : Type) : Type :=
| IoOk (a : A)
| IoErr (errno : Z).
Arguments IoOk {A} a.
Arguments IoErr {A} errno.

Definition EINTR : Z := 4.
Definition EAGAIN : Z := 11.
Definition EWOULDBLOCK : Z := EAGAIN.
Definition EINVAL : Z := 22.
Definition EPIPE : Z := 32.
Definition ENOSYS : Z := 38.
Definition ECONNRESET : Z := 104.

(** <sys/epoll.h> *)
Definition EPOLLIN : Z := 1.
Definition EPOLLPRI : Z := 2.
Definition EPOLLOUT : Z := 4.
Definition EPOLLERR : Z := 8.
Definition EPOLLHUP : Z := 16.
Definition EPOLLRDHUP : Z := 8192.

(** What [readv] is documented to do: it transfers at most the total
    capacity of the buffers it is given. *)
Definition readv_ok (readv : Z → io_result bytes) : Prop :=
  ∀ cap data, 0 ≤ cap → readv cap = IoOk data → zlen data ≤ cap.

(** Reading from a peer that has sent the bytes [s]. *)
Definition readv_stream (s : bytes) (cap : Z) : io_result bytes :=
  IoOk (take (Z.to_nat cap) s).

Lemma readv_stream_ok s : readv_ok (readv_stream s).
Proof. intros cap data ? [= <-]. rewrite length_take. lia. Qed.
