(* ===== verification/Buffer.v ===== *)
(** * Buffer (include/net/Buffer.h, src/net/Buffer.cc)

    The input and output buffer of a connection: a vector with a reader and a
    writer index. Definitions first, then the well-formedness invariant, the
    specification of each method, and the refinement to a queue of bytes. *)
From S2P Require Import Prelude Posix.

(** ** The class *)

Definition kCheapPrepend : Z := 8.
Definition kInitialSize : Z := 1024.

(** [std::vector<char>::max_size()]: a longer vector throws
    [std::length_error]. *)
Definition max_size : Z := 2 ^ 63 - 1.

Record Buffer : Type := MkBuffer {
  buffer_ : bytes;
  readerIndex_ : Z;
  writerIndex_ : Z;
}.

Definition set_data (d : bytes) (b : Buffer) : Buffer :=
  MkBuffer d (readerIndex_ b) (writerIndex_ b).
Definition set_reader (r : Z) (b : Buffer) : Buffer :=
  MkBuffer (buffer_ b) r (writerIndex_ b).
Definition set_writer (w : Z) (b : Buffer) : Buffer :=
  MkBuffer (buffer_ b) (readerIndex_ b) w.

(** The constructor: a value-initialised vector and both indices behind the
    prepend area. *)
Definition new_Buffer (initialSize : Z) : outcome Buffer :=
  let size := u64 (kCheapPrepend + initialSize) in
  if max_size <? size then Fault LengthError
  else Ok (MkBuffer (replicate (Z.to_nat size) x00) kCheapPrepend kCheapPrepend).

Definition readableBytes (b : Buffer) : Z := u64 (writerIndex_ b - readerIndex_ b).
Definition writableBytes (b : Buffer) : Z := u64 (zlen (buffer_ b) - writerIndex_ b).
Definition prependableBytes (b : Buffer) : Z := readerIndex_ b.

(** The [n] bytes behind [peek()]: reading outside the vector is undefined
    behaviour. *)
Definition peek (n : Z) : M Buffer bytes := λ b,
  if bool_decide (readerIndex_ b + n ≤ zlen (buffer_ b))
  then Ok (slice (readerIndex_ b) n (buffer_ b), b)
  else Fault UndefinedBehaviour.

(** Storing [data] behind [beginWrite()]. *)
Definition store_at_writer (data : bytes) : M Buffer unit := λ b,
  if bool_decide (writerIndex_ b + zlen data ≤ zlen (buffer_ b))
  then Ok (tt, set_data (splice (writerIndex_ b) data (buffer_ b)) b)
  else Fault UndefinedBehaviour.

(** [std::copy] from [first .. first + n) to [d_first ..) of the same vector,
    one byte after the other. *)
Fixpoint copy_forward (n first d_first : nat) (l : bytes) : bytes :=
  match n with
  | O => l
  | S n' =>
      match l !! first with
      | Some c => copy_forward n' (S first) (S d_first) (<[d_first := c]> l)
      | None => l
      end
  end.

(** [std::copy] asks for a source inside the vector and a destination that
    does not start inside the source. *)
Definition std_copy (first last d_first : Z) : M Buffer unit := λ b,
  if bool_decide (0 ≤ first ≤ last ∧ last ≤ zlen (buffer_ b)
                  ∧ d_first + (last - first) ≤ zlen (buffer_ b)
                  ∧ ¬ (first ≤ d_first < last))
  then Ok (tt, set_data (copy_forward (Z.to_nat (last - first)) (Z.to_nat first)
                           (Z.to_nat d_first) (buffer_ b)) b)
  else Fault UndefinedBehaviour.

(** [buffer_.resize(n)]: new elements are zero. *)
Definition resize (n : Z) : M Buffer unit := λ b,
  if max_size <? n then Fault LengthError
  else Ok (tt, set_data (take (Z.to_nat n) (buffer_ b) ++
                         replicate (Z.to_nat n - length (buffer_ b)) x00) b).

Definition retrieveAll : M Buffer unit :=
  modify (set_reader kCheapPrepend) ;;
  modify (set_writer kCheapPrepend).

Definition retrieve (len : Z) : M Buffer unit :=
  readable ← gets readableBytes;
  if len <? readable
  then modify (λ b, set_reader (u64 (readerIndex_ b + len)) b)
  else retrieveAll.

Definition retrieveAsString (len : Z) : M Buffer bytes :=
  readable ← gets readableBytes;
  let n := Z.min len readable in
  result ← peek n;
  retrieve n ;;
  mret result.

Definition retrieveAllAsString : M Buffer bytes :=
  readable ← gets readableBytes;
  retrieveAsString readable.

Definition hasWritten (len : Z) : M Buffer unit :=
  writable ← gets writableBytes;
  require AbortAssert (len <=? writable) ;;
  modify (λ b, set_writer (u64 (writerIndex_ b + len)) b).

Definition makeSpace (len : Z) : M Buffer unit :=
  writable ← gets writableBytes;
  prependable ← gets prependableBytes;
  if u64 (writable + prependable) <? u64 (len + kCheapPrepend)
  then
    writer ← gets writerIndex_;
    resize (u64 (writer + len))
  else
    readable ← gets readableBytes;
    reader ← gets readerIndex_;
    writer ← gets writerIndex_;
    std_copy reader writer kCheapPrepend ;;
    modify (set_reader kCheapPrepend) ;;
    modify (λ b, set_writer (u64 (readerIndex_ b + readable)) b).

Definition ensureWritableBytes (len : Z) : M Buffer unit :=
  writable ← gets writableBytes;
  when (writable <? len) (makeSpace len).

Definition append (data : bytes) : M Buffer unit :=
  ensureWritableBytes (zlen data) ;;
  store_at_writer data ;;
  hasWritten (zlen data).

(** [sizeof extrabuf] *)
Definition extrabuf_size : Z := 65536.

(** The total capacity of the areas that [readFd] gives to [readv]: the space
    behind the writer index and, when that is small, [extrabuf]. *)
Definition iov_capacity (b : Buffer) : Z :=
  let writable := writableBytes b in
  let iovcnt := if writable <? extrabuf_size then 2 else 1 in
  if iovcnt =? 2 then writable + extrabuf_size else writable.

(** [readFd]: [readv] is the system call, given the total capacity; it fills the space behind the writer index and then [extrabuf].
    The result is the return value and what is stored in [savedErrno]. *)
Definition readFd (readv : Z → io_result bytes) : M Buffer (Z * option Z) :=
  writable ← gets writableBytes;
  capacity ← gets iov_capacity;
  match readv capacity with
  | IoErr errno => mret (-1, Some errno)
  | IoOk data =>
      let n := zlen data in
      store_at_writer (take (Z.to_nat writable) data) ;;
      (if n <=? writable
       then modify (λ b, set_writer (u64 (writerIndex_ b + n)) b)
       else modify (λ b, set_writer (zlen (buffer_ b)) b) ;;
            append (drop (Z.to_nat writable) data)) ;;
      mret (n, None)
  end.

(** ** Abstraction: a queue of bytes *)

Definition wf (b : Buffer) : Prop :=
  kCheapPrepend ≤ readerIndex_ b ≤ writerIndex_ b
  ∧ writerIndex_ b ≤ zlen (buffer_ b) ≤ max_size.

Definition contents (b : Buffer) : bytes :=
  slice (readerIndex_ b) (writerIndex_ b - readerIndex_ b) (buffer_ b).

(** [rep b q]: the buffer is well formed and holds the bytes [q]. *)
Definition rep (b : Buffer) (q : bytes) : Prop := wf b ∧ contents b = q.

(** The writable area, from [beginWrite()] to the end of the vector. *)
Definition room (b : Buffer) : bytes := drop (Z.to_nat (writerIndex_ b)) (buffer_ b).

(** The public methods. [OpPeek n] reads [n] bytes through [peek()], [OpWrite
    data] stores [data] through [beginWrite()]. *)
Inductive op : Type :=
| OpReadableBytes
| OpWritableBytes
| OpPrependableBytes
| OpPeek (n : Z)
| OpRetrieve (len : Z)
| OpRetrieveAll
| OpRetrieveAsString (len : Z)
| OpRetrieveAllAsString
| OpAppend (data : bytes)
| OpEnsureWritable (len : Z)
| OpWrite (data : bytes)
| OpHasWritten (len : Z)
| OpReadFd (readv : Z → io_result bytes).

(** The arguments have type [size_t]. *)
Definition op_ok (o : op) : Prop :=
  match o with
  | OpPeek len | OpRetrieve len | OpRetrieveAsString len | OpEnsureWritable len
  | OpHasWritten len => 0 ≤ len
  | OpReadFd readv => readv_ok readv
  | _ => True
  end.

(** What a call returns to its caller. *)
Inductive reply : Type :=
| Returns
| Size (n : Z)
| Bytes (s : bytes)
| ReadFd (n : Z) (savedErrno : option Z).

Definition run_op (o : op) : M Buffer reply :=
  match o with
  | OpReadableBytes => n ← gets readableBytes; mret (Size n)
  | OpWritableBytes => n ← gets writableBytes; mret (Size n)
  | OpPrependableBytes => n ← gets prependableBytes; mret (Size n)
  | OpPeek n => s ← peek n; mret (Bytes s)
  | OpRetrieve len => retrieve len ;; mret Returns
  | OpRetrieveAll => retrieveAll ;; mret Returns
  | OpRetrieveAsString len => s ← retrieveAsString len; mret (Bytes s)
  | OpRetrieveAllAsString => s ← retrieveAllAsString; mret (Bytes s)
  | OpAppend data => append data ;; mret Returns
  | OpEnsureWritable len => ensureWritableBytes len ;; mret Returns
  | OpWrite data => store_at_writer data ;; mret Returns
  | OpHasWritten len => hasWritten len ;; mret Returns
  | OpReadFd readv => '(n, savedErrno) ← readFd readv; mret (ReadFd n savedErrno)
  end.

Fixpoint run_ops (os : list op) : M Buffer (list reply) :=
  match os with
  | [] => mret []
  | o :: os' => r ← run_op o; rs ← run_ops os'; mret (r :: rs)
  end.

(** The specification: a queue [q] of bytes with a writable area [t] behind it.
    What a caller must keep to: reading and writing through the two pointers
    stays in the areas, and [hasWritten] claims no more than was writable. *)
Definition contract (o : op) (q t : bytes) : Prop :=
  match o with
  | OpPeek n => n ≤ zlen q
  | OpWrite data => zlen data ≤ zlen t
  | OpHasWritten len => len ≤ zlen t
  | _ => True
  end.
#[export] Instance contract_dec o q t : Decision (contract o q t).
Proof. destruct o; cbn; apply _. Defined.

(** What a call returns, and the queue and the area after it. Where nothing is
    said of the area it may have been moved. *)
Inductive spec_step : op → bytes → bytes → reply → bytes → bytes → Prop :=
| spec_readableBytes q t : spec_step OpReadableBytes q t (Size (zlen q)) q t
| spec_writableBytes q t : spec_step OpWritableBytes q t (Size (zlen t)) q t
| spec_prependableBytes n q t :
    kCheapPrepend ≤ n → spec_step OpPrependableBytes q t (Size n) q t
| spec_peek n q t : spec_step (OpPeek n) q t (Bytes (take (Z.to_nat n) q)) q t
| spec_retrieve len q t t' :
    spec_step (OpRetrieve len) q t Returns (drop (Z.to_nat len) q) t'
| spec_retrieveAll q t t' : spec_step OpRetrieveAll q t Returns [] t'
| spec_retrieveAsString len q t t' :
    spec_step (OpRetrieveAsString len) q t (Bytes (take (Z.to_nat len) q))
      (drop (Z.to_nat len) q) t'
| spec_retrieveAllAsString q t t' : spec_step OpRetrieveAllAsString q t (Bytes q) [] t'
| spec_append data q t t' : spec_step (OpAppend data) q t Returns (q ++ data) t'
| spec_ensureWritable len q t t' :
    len ≤ zlen t' → spec_step (OpEnsureWritable len) q t Returns q t'
| spec_write data q t :
    spec_step (OpWrite data) q t Returns q (data ++ drop (length data) t)
| spec_hasWritten len q t :
    spec_step (OpHasWritten len) q t Returns (q ++ take (Z.to_nat len) t) (drop (Z.to_nat len) t)
| spec_readFd readv capacity data q t t' :
    extrabuf_size ≤ capacity → readv capacity = IoOk data →
    spec_step (OpReadFd readv) q t (ReadFd (zlen data) None) (q ++ data) t'
| spec_readFd_error readv capacity errno q t :
    extrabuf_size ≤ capacity → readv capacity = IoErr errno →
    spec_step (OpReadFd readv) q t (ReadFd (-1) (Some errno)) q t.

Inductive spec_steps : list op → bytes → bytes → list reply → bytes → bytes → Prop :=
| spec_nil q t : spec_steps [] q t [] q t
| spec_cons o os q t r q' t' rs q'' t'' :
    spec_step o q t r q' t' → spec_steps os q' t' rs q'' t'' →
    spec_steps (o :: os) q t (r :: rs) q'' t''.

(** How much a method can grow the vector. *)
Definition op_cost (o : op) : Z :=
  match o with
  | OpAppend data => zlen data
  | OpEnsureWritable len => len
  | OpReadFd _ => extrabuf_size
  | _ => 0
  end.

Fixpoint ops_cost (os : list op) : Z :=
  match os with [] => 0 | o :: os' => op_cost o + ops_cost os' end.

(** ** Helper lemmas *)

Lemma copy_forward_spec n first d l :
  (d ≤ first)%nat → (first + n ≤ length l)%nat →
  copy_forward n first d l = take d l ++ take n (drop first l) ++ drop (d + n) l.
Proof.
  revert first d l. induction n as [|n IH]; intros first d l Hd Hl; simpl.
  { by rewrite Nat.add_0_r, take_drop. }
  destruct (lookup_lt_is_Some_2 l first) as [c Hc]; [lia|]. rewrite Hc.
  rewrite IH by (rewrite ?length_insert; lia).
  rewrite (take_S_r _ d c) by (apply list_lookup_insert_eq; lia).
  rewrite take_insert_ge by lia.
  rewrite !drop_insert_lt by lia.
  rewrite (drop_S l c first) by done. simpl.
  rewrite <-app_assoc. simpl. by rewrite Nat.add_succ_r.
Qed.

Lemma length_copy_forward n first d l : length (copy_forward n first d l) = length l.
Proof.
  revert first d l. induction n as [|n IH]; intros; simpl; [done|].
  case_match; [|done]. by rewrite IH, length_insert.
Qed.

Section wf_facts.
Context (b : Buffer) (Hwf : wf b).

Lemma wf_bounds :
  8 ≤ readerIndex_ b ≤ writerIndex_ b ∧
  writerIndex_ b ≤ zlen (buffer_ b) < 2 ^ 63.
Proof. revert Hwf. unfold wf, kCheapPrepend, max_size. lia. Qed.

Lemma readableBytes_wf : readableBytes b = writerIndex_ b - readerIndex_ b.
Proof. pose proof wf_bounds. apply u64_small. lia. Qed.

Lemma writableBytes_wf : writableBytes b = zlen (buffer_ b) - writerIndex_ b.
Proof. pose proof wf_bounds. apply u64_small. lia. Qed.

Lemma length_contents : zlen (contents b) = writerIndex_ b - readerIndex_ b.
Proof. pose proof wf_bounds. apply length_slice; lia. Qed.
End wf_facts.

Create HintDb buffer.
#[export] Hint Rewrite readableBytes_wf writableBytes_wf using done : buffer.

(** Fields of an updated buffer, and facts about the well-formed ones. *)
Ltac buffer_facts :=
  repeat match goal with
  | H : rep _ _ |- _ => destruct H as [? ?]
  | H : wf ?b |- _ =>
      lazymatch goal with
      | _ : 8 ≤ readerIndex_ b ≤ _ ∧ _ |- _ => fail
      | _ => pose proof (wf_bounds b H)
      end
  end.

(** ** Specifications of the methods *)

Lemma wp_retrieveAll b q : rep b q → wp retrieveAll (λ _ b', rep b' []
    ∧ zlen (buffer_ b') = zlen (buffer_ b)) b.
Proof.
  intros Hr. buffer_facts. unfold retrieveAll. wp_steps. simpl. split; [|done].
  split; [unfold wf, kCheapPrepend, max_size; simpl; lia|].
  unfold contents; simpl. by rewrite Z.sub_diag.
Qed.

Lemma wp_retrieve len b q :
  rep b q → 0 ≤ len →
  wp (retrieve len) (λ _ b', rep b' (drop (Z.to_nat len) q)
    ∧ zlen (buffer_ b') = zlen (buffer_ b)) b.
Proof.
  intros Hr Hlen. unfold retrieve. wp_step. wp_step. wp_step.
  - buffer_facts. rewrite readableBytes_wf in * by done. wp_steps. simpl.
    rewrite u64_small by lia. split; [|done].
    split; [unfold wf, kCheapPrepend, max_size in *; simpl; lia|].
    subst q. unfold contents; simpl. rewrite slice_drop by lia. f_equal. lia.
  - wp_apply (wp_retrieveAll b q Hr). intros _ b' [Hr' Hl]. split; [|done].
    buffer_facts. subst q. rewrite drop_ge; [done|].
    rewrite readableBytes_wf in * by done.
    pose proof (length_contents b ltac:(done)). lia.
Qed.

Lemma wp_peek n b : wf b → n ≤ readableBytes b →
  wp (peek n) (λ s b', s = slice (readerIndex_ b) n (buffer_ b) ∧ b' = b) b.
Proof.
  intros Hwf Hn. buffer_facts. rewrite readableBytes_wf in Hn by done.
  unfold wp, peek. rewrite bool_decide_eq_true_2 by lia. done.
Qed.

Lemma wp_retrieveAsString len b q :
  rep b q → 0 ≤ len →
  wp (retrieveAsString len) (λ s b', s = take (Z.to_nat len) q
    ∧ rep b' (drop (Z.to_nat len) q) ∧ zlen (buffer_ b') = zlen (buffer_ b)) b.
Proof.
  intros Hr Hlen. unfold retrieveAsString. wp_step. wp_step. wp_step.
  pose proof Hr as [Hwf Hq].
  assert (zlen q = readableBytes b) as Hlq
    by (subst q; rewrite length_contents, readableBytes_wf; done).
  wp_apply (wp_peek _ b Hwf); [lia|]. intros s ? [-> ->]. wp_step.
  wp_apply (wp_retrieve _ b q Hr); [lia|]. intros _ b' [Hr' Hl]. wp_step.
  assert (∀ X : bytes, length X = length q →
    take (Z.to_nat (len `min` readableBytes b)) X = take (Z.to_nat len) X ∧
    drop (Z.to_nat (len `min` readableBytes b)) X = drop (Z.to_nat len) X) as Hmin.
  { intros X HX. destruct (Z.min_spec len (readableBytes b)) as [[? ->]|[? ->]]; [done|].
    rewrite !take_ge, !drop_ge by lia. done. }
  split_and!; [|by rewrite <-(proj2 (Hmin q eq_refl))|done].
  rewrite <-(proj1 (Hmin q eq_refl)), <-Hq. unfold contents.
  rewrite slice_take; [done|]. rewrite <-readableBytes_wf by done. lia.
Qed.

Lemma wp_retrieveAllAsString b q :
  rep b q →
  wp retrieveAllAsString (λ s b', s = q ∧ rep b' []
    ∧ zlen (buffer_ b') = zlen (buffer_ b)) b.
Proof.
  intros Hr. unfold retrieveAllAsString. wp_step. wp_step.
  pose proof Hr as [Hwf Hq]. pose proof (u64_range (writerIndex_ b - readerIndex_ b)).
  wp_apply (wp_retrieveAsString _ b q Hr); [unfold readableBytes; lia|].
  assert (zlen q = readableBytes b) as Hlq
    by (subst q; rewrite length_contents, readableBytes_wf; done).
  intros s b'. by rewrite take_ge, drop_ge by lia.
Qed.

(** What [ensureWritableBytes] guarantees, and how it gets the space: it grows
    the vector only when the free space at both ends is too small. *)
Definition ensured (len : Z) (b b' : Buffer) : Prop :=
  len ≤ zlen (buffer_ b') - writerIndex_ b' ∧
  zlen (buffer_ b') =
    (if decide (writerIndex_ b + len ≤ zlen (buffer_ b)
                ∨ len + kCheapPrepend ≤
                  zlen (buffer_ b) - writerIndex_ b + readerIndex_ b)
     then zlen (buffer_ b) else writerIndex_ b + len).

Lemma wp_resize n b q :
  rep b q → writerIndex_ b ≤ n ≤ max_size →
  wp (resize n) (λ _ b', rep b' q ∧ zlen (buffer_ b') = n
    ∧ writerIndex_ b' = writerIndex_ b ∧ readerIndex_ b' = readerIndex_ b) b.
Proof.
  intros Hr Hn. buffer_facts. unfold wp, resize.
  destruct (Z.ltb_spec max_size n); [lia|].
  assert (zlen (take (Z.to_nat n) (buffer_ b) ++
     replicate (Z.to_nat n - length (buffer_ b)) x00) = n) as Hlen
    by (rewrite length_app, length_take, length_replicate; lia).
  split_and!; [|exact Hlen|done|done].
  split; [unfold wf, kCheapPrepend; simpl; lia|].
  subst q. unfold contents; simpl.
  rewrite slice_app_l by (rewrite ?length_take; lia).
  unfold slice. rewrite take_drop_commute, take_take, Nat.min_l by lia.
  by rewrite <-take_drop_commute.
Qed.

(** The compaction branch of [makeSpace]. *)
Lemma wp_std_copy b q :
  rep b q → readerIndex_ b = writerIndex_ b ∨ kCheapPrepend < readerIndex_ b →
  wp (std_copy (readerIndex_ b) (writerIndex_ b) kCheapPrepend)
    (λ _ b', zlen (buffer_ b') = zlen (buffer_ b) ∧
       writerIndex_ b' = writerIndex_ b ∧ readerIndex_ b' = readerIndex_ b ∧
       slice kCheapPrepend (zlen q) (buffer_ b') = q) b.
Proof.
  intros Hr Hdisj. buffer_facts. pose proof (length_contents b ltac:(done)) as Hlc.
  unfold kCheapPrepend in *. unfold wp, std_copy.
  rewrite bool_decide_eq_true_2 by lia. simpl.
  split_and!; [by rewrite length_copy_forward|done..|].
  rewrite copy_forward_spec by lia. subst q.
  pose proof (slice_splice_same 8 (contents b) (buffer_ b)) as Hss.
  unfold splice in Hss. unfold contents, slice in *.
  rewrite length_take, length_drop in *.
  rewrite (Nat.min_l (Z.to_nat (writerIndex_ b - readerIndex_ b))) in * by lia.
  apply Hss; lia.
Qed.

Lemma wp_makeSpace len b q :
  rep b q → 0 ≤ len → writerIndex_ b + len ≤ max_size →
  zlen (buffer_ b) - writerIndex_ b < len →
  wp (makeSpace len) (λ _ b', rep b' q ∧ ensured len b b') b.
Proof.
  intros Hr Hlen Hmax Hfull. buffer_facts.
  unfold makeSpace. wp_step. wp_step. wp_step. wp_step.
  unfold prependableBytes. unfold max_size, kCheapPrepend in *.
  rewrite writableBytes_wf, !(u64_small (_ + _)) by (done || lia).
  unfold ensured, kCheapPrepend. wp_step.
  - wp_step. wp_step. rewrite u64_small by lia.
    wp_apply (wp_resize _ b q); [done|unfold max_size; lia|].
    intros _ b' (Hr' & Hl & Hw & Hrd). split; [done|]. split; [lia|].
    rewrite decide_False by lia. done.
  - do 7 wp_step. rewrite readableBytes_wf by done.
    wp_apply (wp_std_copy b q); [done|unfold kCheapPrepend; lia|].
    intros _ b' (Hl & Hw & Hrd & Hs). wp_steps. simpl.
    pose proof (length_contents b ltac:(done)).
    unfold kCheapPrepend. rewrite u64_small by lia. simpl. rewrite Hl.
    split; [|split; [lia|by rewrite decide_True by lia]].
    split; [unfold wf, kCheapPrepend, max_size; simpl; lia|].
    etrans; [|exact Hs]. unfold contents, kCheapPrepend; simpl.
    f_equal. subst q. lia.
Qed.

Lemma wp_ensureWritableBytes len b q :
  rep b q → 0 ≤ len → writerIndex_ b + len ≤ max_size →
  wp (ensureWritableBytes len) (λ _ b', rep b' q ∧ ensured len b b') b.
Proof.
  intros Hr Hlen Hmax. pose proof Hr as [Hwf _]. unfold ensureWritableBytes.
  wp_step. wp_step. rewrite writableBytes_wf by done. wp_step.
  - apply wp_makeSpace; [done..|lia].
  - split; [done|]. unfold ensured. rewrite decide_True by lia. lia.
Qed.

Lemma ensured_size len b b' :
  wf b → 0 ≤ len → ensured len b b' → zlen (buffer_ b') ≤ zlen (buffer_ b) + len.
Proof. intros Hwf ? [_ ->]. buffer_facts. case_decide; lia. Qed.

Lemma wp_store_at_writer data b q :
  rep b q → writerIndex_ b + zlen data ≤ zlen (buffer_ b) →
  wp (store_at_writer data) (λ _ b',
    wf b' ∧ readerIndex_ b' = readerIndex_ b ∧ writerIndex_ b' = writerIndex_ b ∧
    zlen (buffer_ b') = zlen (buffer_ b) ∧
    slice (readerIndex_ b) (writerIndex_ b - readerIndex_ b + zlen data) (buffer_ b')
      = q ++ data) b.
Proof.
  intros Hr Hfit. buffer_facts. unfold wp, store_at_writer.
  rewrite bool_decide_eq_true_2 by lia. simpl.
  assert (zlen (splice (writerIndex_ b) data (buffer_ b)) = zlen (buffer_ b)) as Hl
    by (apply length_splice; lia).
  split_and!; try done.
  { unfold wf in *; simpl. by rewrite Hl. }
  subst q. unfold contents.
  replace (writerIndex_ b) with (readerIndex_ b + (writerIndex_ b - readerIndex_ b))
    at 2 by lia.
  apply slice_splice_after; lia.
Qed.

(** Advancing the writer index over bytes that are already in place. *)
Lemma rep_advance b r w q :
  wf b → r = readerIndex_ b → writerIndex_ b ≤ w ≤ zlen (buffer_ b) →
  slice r (w - r) (buffer_ b) = q → rep (set_writer w b) q.
Proof.
  intros Hwf -> Hw Hq. buffer_facts. unfold wf in *.
  split; [unfold wf; simpl; lia|]. done.
Qed.

Lemma wp_append data b q :
  rep b q → writerIndex_ b + zlen data ≤ max_size →
  wp (append data) (λ _ b', rep b' (q ++ data)
    ∧ zlen (buffer_ b') ≤ zlen (buffer_ b) + zlen data) b.
Proof.
  intros Hr Hmax. pose proof Hr as [Hwf _]. unfold append. wp_step.
  wp_apply (wp_ensureWritableBytes _ b q); [done|lia|done|].
  intros _ b1 [Hr1 Hens].
  pose proof (ensured_size _ _ _ Hwf (Nat2Z.is_nonneg _) Hens) as Hsz.
  destruct Hens as [Hfit _]. wp_step.
  wp_apply (wp_store_at_writer data b1 q); [done|lia|].
  intros _ b2 (Hwf2 & Hrd & Hw & Hl & Hs). buffer_facts.
  unfold hasWritten. wp_step. wp_step. wp_step. wp_step.
  { rewrite writableBytes_wf by done. lia. }
  wp_step. rewrite u64_small by lia. simpl. split; [|lia].
  eapply rep_advance; [done|reflexivity|lia|].
  rewrite <-Hs, Hrd, Hw. f_equal. lia.
Qed.

(** [readFd] appends what the kernel delivered, and nothing on an error. *)
Lemma wp_readFd readv b q :
  rep b q → readv_ok readv → zlen (buffer_ b) + extrabuf_size ≤ max_size →
  wp (readFd readv) (λ r b',
    zlen (buffer_ b') ≤ zlen (buffer_ b) + extrabuf_size ∧
    extrabuf_size ≤ iov_capacity b ∧
    match readv (iov_capacity b) with
    | IoErr e => r = (-1, Some e) ∧ b' = b
    | IoOk data => r = (zlen data, None) ∧ rep b' (q ++ data)
    end) b.
Proof.
  intros Hr Hok Hmax. pose proof Hr as [Hwf _]. buffer_facts.
  unfold readFd. do 4 wp_step. set (cap := iov_capacity b).
  assert (writableBytes b = zlen (buffer_ b) - writerIndex_ b) as -> by by apply writableBytes_wf.
  set (writable := zlen (buffer_ b) - writerIndex_ b).
  assert (extrabuf_size ≤ cap ≤ writable + extrabuf_size ∧
          (extrabuf_size ≤ writable → cap = writable)) as [Hcap1 Hcap2].
  { unfold cap, iov_capacity. rewrite writableBytes_wf by done. fold writable. destruct (Z.ltb_spec writable extrabuf_size); simpl;
      unfold extrabuf_size in *; lia. }
  destruct (readv cap) as [data|e] eqn:Hread.
  2:{ wp_step. split; [unfold extrabuf_size; lia|].
      split; [lia|done]. }
  pose proof (Hok cap _ ltac:(unfold extrabuf_size in *; lia) Hread) as Hlen.
  wp_step. wp_apply (wp_store_at_writer _ b q); [done|rewrite length_take; lia|].
  intros _ b1 (Hwf1 & Hrd & Hw & Hl & Hs). buffer_facts. wp_step.
  unfold max_size, extrabuf_size in *. wp_step.
  - wp_steps. simpl. rewrite u64_small by lia. split; [lia|].
    split; [lia|]. split; [done|].
    rewrite take_ge in Hs by lia.
    eapply rep_advance; [done|reflexivity|lia|].
    rewrite <-Hs, Hrd, Hw. f_equal. lia.
  - wp_steps. rewrite length_take in Hs.
    assert (rep (set_writer (zlen (buffer_ b1)) b1) (q ++ take (Z.to_nat writable) data))
      as Hr2.
    { eapply rep_advance; [done|reflexivity|lia|].
      rewrite <-Hs, Hrd. f_equal. lia. }
    wp_apply (wp_append _ _ _ Hr2).
    { simpl. unfold max_size. rewrite length_drop. lia. }
    intros _ b2 [Hr3 Hsz]. simpl in Hsz. rewrite length_drop in Hsz. wp_step.
    split; [lia|]. split; [lia|]. split; [done|].
    by rewrite <-app_assoc, take_drop in Hr3.
Qed.

(** ** The area behind the content *)

Lemma length_room b : wf b → zlen (room b) = zlen (buffer_ b) - writerIndex_ b.
Proof. intros Hwf. buffer_facts. unfold room. rewrite length_drop. lia. Qed.

Lemma writableBytes_room b : wf b → writableBytes b = zlen (room b).
Proof. intros Hwf. by rewrite length_room, writableBytes_wf. Qed.

Lemma readableBytes_rep b q : rep b q → readableBytes b = zlen q.
Proof. intros [Hwf <-]. by rewrite length_contents, readableBytes_wf. Qed.

(** Storing into the area leaves the content alone. *)
Lemma wp_write data b q :
  rep b q → zlen data ≤ zlen (room b) →
  wp (store_at_writer data) (λ _ b', rep b' q ∧ room b' = data ++ drop (length data) (room b)
    ∧ zlen (buffer_ b') = zlen (buffer_ b)) b.
Proof.
  intros Hr Hfit. pose proof Hr as [Hwf Hq]. rewrite length_room in Hfit by done.
  pose proof (wp_store_at_writer data b q Hr ltac:(lia)) as Hst. buffer_facts.
  assert (wp (store_at_writer data) (λ _ b',
    buffer_ b' = splice (writerIndex_ b) data (buffer_ b)) b) as Hdata.
  { unfold wp, store_at_writer. by rewrite bool_decide_eq_true_2 by lia. }
  eapply wp_mono; [exact (wp_and _ _ _ _ Hst Hdata)|].
  intros _ b' [(Hwf' & Hrd & Hw & Hl & Hs) Hb]. split_and!; [split; [done|]| |done].
  - unfold contents. rewrite Hrd, Hw. rewrite <-(slice_take _ (writerIndex_ b - readerIndex_ b + zlen data))
      by lia. rewrite Hs. pose proof (length_contents b ltac:(done)) as Hlc.
    rewrite take_app_le by (rewrite <-Hq; lia). apply take_ge. rewrite <-Hq. lia.
  - unfold room. rewrite Hw, Hb. unfold splice.
    rewrite drop_app_length' by (rewrite length_take; lia). by rewrite drop_drop.
Qed.

(** Claiming the front of the area as content. *)
Lemma wp_hasWritten len b q :
  rep b q → 0 ≤ len ≤ zlen (room b) →
  wp (hasWritten len) (λ _ b', rep b' (q ++ take (Z.to_nat len) (room b))
    ∧ room b' = drop (Z.to_nat len) (room b) ∧ zlen (buffer_ b') = zlen (buffer_ b)) b.
Proof.
  intros Hr Hlen. pose proof Hr as [Hwf Hq]. pose proof (length_room b Hwf) as Hroom. buffer_facts.
  unfold hasWritten. wp_steps; [rewrite writableBytes_room by done; lia|].
  rewrite u64_small by lia. split_and!; [|unfold room; cbn; rewrite drop_drop; f_equal; lia|done].
  eapply rep_advance; [done|reflexivity|lia|]. rewrite <-Hq. unfold contents, slice, room.
  replace (Z.to_nat (writerIndex_ b + len - readerIndex_ b)) with
    (Z.to_nat (writerIndex_ b - readerIndex_ b) + Z.to_nat len)%nat by lia.
  rewrite <-take_take_drop, drop_drop. do 4 f_equal. lia.
Qed.

Lemma hasWritten_aborts len b :
  wf b → zlen (room b) < len → hasWritten len b = Fault AbortAssert.
Proof.
  intros Hwf Hlen. unfold hasWritten, require, gets, mbind, M_bind.
  rewrite writableBytes_room by done. by destruct (Z.leb_spec len (zlen (room b))); [lia|].
Qed.

(** Every method implements its operation on the queue. *)
Lemma wp_run_op o b q :
  rep b q → op_ok o → contract o q (room b) → zlen (buffer_ b) + op_cost o ≤ max_size →
  wp (run_op o) (λ r b',
    (∃ q', spec_step o q (room b) r q' (room b') ∧ rep b' q') ∧
    zlen (buffer_ b') ≤ zlen (buffer_ b) + op_cost o) b.
Proof.
  intros Hr Hok Hcontract Hmax. pose proof Hr as [Hwf Hq]. pose proof (readableBytes_rep b q Hr) as Hlq.
  buffer_facts. destruct o as [| | |n|len| |len| |data|len|data|len|readv]; cbn in *.
  - wp_steps. rewrite Hlq. split; [|lia]. exists q. split; [constructor|done].
  - wp_steps. rewrite writableBytes_room by done. split; [|lia]. exists q. split; [constructor|done].
  - wp_steps. split; [|lia]. exists q. split; [|done]. constructor. unfold prependableBytes, kCheapPrepend. lia.
  - wp_step. wp_apply (wp_peek n b Hwf); [lia|]. intros s b' [-> ->]. wp_step. split; [|lia].
    exists q. split; [|done]. rewrite <-slice_take with (n := writerIndex_ b - readerIndex_ b).
    + unfold contents in Hq. rewrite Hq. constructor.
    + rewrite readableBytes_wf in Hlq by done. lia.
  - wp_step. wp_apply (wp_retrieve len b q); [done..|].
    intros _ b' [??]. wp_step. split; [eauto using spec_step|lia].
  - wp_step. wp_apply (wp_retrieveAll b q); [done|].
    intros _ b' [??]. wp_step. split; [eauto using spec_step|lia].
  - wp_step. wp_apply (wp_retrieveAsString len b q); [done..|].
    intros s b' (-> & ? & ?). wp_step. split; [eauto using spec_step|lia].
  - wp_step. wp_apply (wp_retrieveAllAsString b q); [done..|].
    intros s b' (-> & ? & ?). wp_step. split; [eauto using spec_step|lia].
  - wp_step. wp_apply (wp_append data b q); [done|lia|].
    intros _ b' [??]. wp_step. split; [eauto using spec_step|done].
  - wp_step. wp_apply (wp_ensureWritableBytes len b q); [done..|lia|].
    intros _ b' [Hr' Hens]. wp_step. split; [|by apply ensured_size]. exists q. split; [|done].
    constructor. rewrite length_room by apply Hr'. apply Hens.
  - wp_step. wp_apply (wp_write data b q); [done..|].
    intros _ b' (? & Hroom & ?). wp_step. rewrite Hroom. split; [eauto using spec_step|lia].
  - wp_step. wp_apply (wp_hasWritten len b q); [done..|].
    intros _ b' (? & Hroom & ?). wp_step. rewrite Hroom. split; [eauto using spec_step|lia].
  - wp_step. wp_apply (wp_readFd readv b q); [done..|].
    intros [n e] b' (Hsz & Hcap & Hread). wp_step. split; [|done].
    destruct (readv (iov_capacity b)) eqn:Hreadv; destruct Hread as [[= -> ->] Hb]; [|subst b'];
      eexists; (split; [by econstructor|done]).
Qed.

(** A sequence of calls: all of them keep to the contract, or there is a first
    one that does not. *)
Definition broken_at (os : list op) (b : Buffer) (q t : bytes) : Prop :=
  ∃ os1 o os2 rs b' q', os = os1 ++ o :: os2 ∧ run_ops os1 b = Ok (rs, b') ∧
    spec_steps os1 q t rs q' (room b') ∧ rep b' q' ∧ ¬ contract o q' (room b') ∧
    ∀ len, o = OpHasWritten len → run_ops os b = Fault AbortAssert.

Lemma op_cost_nonneg o : op_ok o → 0 ≤ op_cost o.
Proof. destruct o; cbn; unfold extrabuf_size; lia. Qed.

Lemma ops_cost_nonneg os : Forall op_ok os → 0 ≤ ops_cost os.
Proof. induction 1 as [|o os Ho _ IH]; cbn; [lia|]. pose proof (op_cost_nonneg o Ho). lia. Qed.

Lemma run_ops_cases os b q :
  rep b q → Forall op_ok os → zlen (buffer_ b) + ops_cost os ≤ max_size →
  (∃ rs b' q', run_ops os b = Ok (rs, b') ∧ spec_steps os q (room b) rs q' (room b') ∧ rep b' q') ∨
  broken_at os b q (room b).
Proof.
  revert b q. induction os as [|o os IH]; intros b q Hr Hok Hmax; cbn in *.
  { left. exists [], b, q. split_and!; [done|constructor|done]. }
  apply Forall_cons in Hok as [Ho Hos].
  pose proof (op_cost_nonneg o Ho). pose proof (ops_cost_nonneg os Hos).
  destruct (decide (contract o q (room b))) as [Hc|Hc].
  2:{ right. exists [], o, os, [], b, q. split_and!; [done..|constructor|done|done|].
      intros len ->. cbn in *. do 2 apply run_bind_fault. apply hasWritten_aborts; [apply Hr|lia]. }
  pose proof (wp_run_op o b q Hr Ho Hc ltac:(lia)) as Hwp.
  apply wp_run in Hwp as (r & b1 & Hrun & (q1 & Hstep & Hr1) & Hsz).
  destruct (IH b1 q1 Hr1 Hos ltac:(lia)) as [(rs & b2 & q2 & Hrun2 & Hsteps & Hr2)|
    (os1 & o2 & os2 & rs & b2 & q2 & -> & Hrun2 & Hsteps & Hr2 & Hc2 & Habort)].
  - left. exists (r :: rs), b2, q2. split_and!; [|by econstructor|done].
    rewrite (run_bind_ok _ _ _ _ _ Hrun), (run_bind_ok _ _ _ _ _ Hrun2). done.
  - right. exists (o :: os1), o2, os2, (r :: rs), b2, q2. split_and!; [done| |by econstructor|done..|].
    + cbn. rewrite (run_bind_ok _ _ _ _ _ Hrun), (run_bind_ok _ _ _ _ _ Hrun2). done.
    + intros len Hlen. cbn. rewrite (run_bind_ok _ _ _ _ _ Hrun).
      apply run_bind_fault. by apply (Habort len).
Qed.

Lemma new_Buffer_rep n b : new_Buffer n = Ok b → 0 ≤ n ≤ max_size - kCheapPrepend →
  rep b [] ∧ zlen (buffer_ b) = kCheapPrepend + n.
Proof.
  unfold new_Buffer, max_size, kCheapPrepend. intros Hb Hn.
  rewrite u64_small in Hb by lia.
  destruct (Z.ltb_spec (2 ^ 63 - 1) (8 + n)); [done|]. injection Hb as <-.
  assert (zlen (replicate (Z.to_nat (8 + n)) x00) = 8 + n) as Hl
    by (rewrite length_replicate; lia).
  split; [|done]. split; [|done].
  unfold wf, kCheapPrepend, max_size; simpl. lia.
Qed.

Lemma new_Buffer_room n b :
  new_Buffer n = Ok b → 0 ≤ n ≤ max_size - kCheapPrepend → room b = replicate (Z.to_nat n) x00.
Proof.
  unfold new_Buffer, max_size, kCheapPrepend. intros Hb Hn. rewrite u64_small in Hb by lia.
  destruct (Z.ltb_spec (2 ^ 63 - 1) (8 + n)); [done|]. injection Hb as <-.
  unfold room. cbn. rewrite drop_replicate. f_equal. lia.
Qed.

(** ** Properties *)

(** C7 (refinement). A buffer is a queue of bytes with a writable area behind it.
    Any sequence of calls of the public methods on a freshly constructed buffer
    whose callers keep to the contract (they read at most the readable bytes
    through [peek()], write at most the writable ones through [beginWrite()],
    and pass at most [writableBytes()] to [hasWritten]) returns normally: no
    undefined behaviour, no failed assertion, no exception; every call returns
    what the operation on the queue returns, sizes and the results of [readFd]
    included, and the buffer ends up well formed (prepend area kept, indices in
    order and inside the vector) with the queue's content, as long as the bytes
    put in fit a vector. Otherwise all this holds up to the first call that
    breaks the contract, and if this is [hasWritten] its assertion fails. *)
Theorem fifo_refinement n os b :
  new_Buffer n = Ok b → 0 ≤ n → Forall op_ok os →
  kCheapPrepend + n + ops_cost os ≤ max_size →
  let t := replicate (Z.to_nat n) x00 in
  (∃ rs b' q', run_ops os b = Ok (rs, b') ∧ spec_steps os [] t rs q' (room b') ∧ rep b' q') ∨
  broken_at os b [] t.
Proof.
  intros Hb Hn Hok Hmax t. pose proof (ops_cost_nonneg os Hok).
  destruct (new_Buffer_rep n b Hb) as [Hr Hl]; [unfold kCheapPrepend in *; lia|].
  assert (room b = t) as <- by (by eapply new_Buffer_room; [exact Hb|unfold kCheapPrepend in *; lia]).
  apply run_ops_cases; [done|done|lia].
Qed.

Definition test_ops : list op :=
  [ OpAppend (String.list_byte_of_string "hello"); OpRetrieveAsString 2; OpPeek 2;
    OpEnsureWritable 3; OpWrite (String.list_byte_of_string "abc"); OpHasWritten 3;
    OpRetrieveAllAsString; OpAppend (replicate 2000 x78); OpRetrieveAll;
    OpReadFd (readv_stream (String.list_byte_of_string "readFd")); OpReadableBytes;
    OpRetrieveAllAsString ].

Definition test_buffer_after (os : list op) : outcome (list reply) :=
  b ← new_Buffer 1024; '(rs, _) ← run_ops os b; mret rs.

Example test_ops_replies :
  test_buffer_after test_ops =
  Ok [Returns; Bytes (String.list_byte_of_string "he"); Bytes (String.list_byte_of_string "ll");
      Returns; Returns; Returns; Bytes (String.list_byte_of_string "lloabc"); Returns; Returns;
      ReadFd 6 None; Size 6; Bytes (String.list_byte_of_string "readFd")].
Proof. vm_compute. reflexivity. Qed.
Example test_ops_broken : test_buffer_after [OpHasWritten 2000] = Fault AbortAssert.
Proof. vm_compute. reflexivity. Qed.

Lemma fifo_refinement_witness :
  let b := MkBuffer (replicate 1032 x00) 8 8 in
  let t := replicate (Z.to_nat 1024) x00 in
  (∃ rs b' q', run_ops test_ops b = Ok (rs, b') ∧ spec_steps test_ops [] t rs q' (room b') ∧
     rep b' q') ∨
  broken_at test_ops b [] t.
Proof.
  apply (fifo_refinement 1024 test_ops).
  - vm_compute. reflexivity.
  - lia.
  - unfold test_ops.
    rewrite !Forall_cons, Forall_nil.
    split_and!; simpl; auto using readv_stream_ok; lia.
  - vm_compute. done.
Defined.

(** [ensureWritableBytes(len)] makes room for [len] bytes
    and keeps the content; it moves the content instead of growing the vector
    whenever the free bytes before and behind the content suffice, and grows
    it to exactly [writerIndex_ + len] otherwise. *)
Lemma ensureWritableBytes_space len b q :
  rep b q → 0 ≤ len → writerIndex_ b + len ≤ max_size →
  ∃ b', ensureWritableBytes len b = Ok (tt, b') ∧ rep b' q ∧
    len ≤ writableBytes b' ∧
    zlen (buffer_ b') =
      if decide (zlen q + len + kCheapPrepend ≤ zlen (buffer_ b)
                 ∨ len ≤ writableBytes b)
      then zlen (buffer_ b) else writerIndex_ b + len.
Proof.
  intros Hr Hlen Hmax. pose proof (wp_ensureWritableBytes len b q Hr Hlen Hmax) as Hwp.
  apply wp_run in Hwp as ([] & b' & Hrun & Hr' & Hens). exists b'.
  pose proof Hr as [Hwf Hq]. pose proof Hr' as [Hwf' _]. buffer_facts.
  destruct Hens as [Hfit Hsz]. rewrite !writableBytes_wf by done.
  split_and!; [done|done|lia|]. rewrite Hsz, <-Hq, length_contents by done.
  repeat case_decide; lia.
Qed.

Lemma ensureWritableBytes_space_witness :
  ∃ b', ensureWritableBytes 20 (MkBuffer (replicate 32 x61) 28 30) = Ok (tt, b')
    ∧ rep b' (replicate 2 x61) ∧ 20 ≤ writableBytes b' ∧
    zlen (buffer_ b') =
      if decide (zlen (replicate 2 x61) + 20 + kCheapPrepend ≤ 32
                 ∨ 20 ≤ writableBytes (MkBuffer (replicate 32 x61) 28 30))
      then 32 else 30 + 20.
Proof.
  apply (ensureWritableBytes_space 20 (MkBuffer (replicate 32 x61) 28 30)).
  - split; [|reflexivity]. unfold wf, kCheapPrepend, max_size; simpl. lia.
  - lia.
  - unfold max_size; simpl. lia.
Defined.

(** C40 (bounds). The size arithmetic of [makeSpace] is modulo 2^64. A request
    of almost 2^64 bytes makes [writerIndex_ + len] wrap around: the call
    returns normally, but instead of growing the vector it shrinks it below
    the writer index. *)
Theorem ensureWritableBytes_overflow len b :
  wf b → 2 ^ 64 - writerIndex_ b ≤ len < 2 ^ 64 - kCheapPrepend →
  ∃ b', ensureWritableBytes len b = Ok (tt, b') ∧
    writerIndex_ b' = writerIndex_ b ∧ zlen (buffer_ b') < writerIndex_ b'.
Proof.
  intros Hwf Hlen. buffer_facts. unfold kCheapPrepend in *.
  assert (wp (ensureWritableBytes len) (λ _ b', writerIndex_ b' = writerIndex_ b ∧
    zlen (buffer_ b') < writerIndex_ b') b) as Hwp.
  { unfold ensureWritableBytes. wp_step. wp_step. rewrite writableBytes_wf by done.
    wp_step; [|lia]. unfold makeSpace. do 4 wp_step.
    unfold prependableBytes, kCheapPrepend. rewrite writableBytes_wf by done.
    rewrite (u64_small (len + 8)), (u64_small (_ - _ + _)) by lia.
    wp_step; [|lia]. wp_step. wp_step.
    replace (u64 (writerIndex_ b + len)) with (writerIndex_ b + len - 2 ^ 64).
    2:{ unfold u64. rewrite <-(Z_mod_plus_full _ (-1)).
        rewrite Z.mod_small by lia. lia. }
    unfold wp, resize, max_size. destruct (Z.ltb_spec (2 ^ 63 - 1)
      (writerIndex_ b + len - 2 ^ 64)); [lia|]. simpl. split; [done|].
    rewrite length_app, length_take, length_replicate. lia. }
  apply wp_run in Hwp as ([] & b' & Hrun & ? & ?). eauto.
Qed.

Lemma ensureWritableBytes_overflow_witness :
  ∃ b', ensureWritableBytes (2 ^ 64 - 20) (MkBuffer (replicate 64 x61) 8 40) = Ok (tt, b')
    ∧ writerIndex_ b' = 40 ∧ zlen (buffer_ b') < writerIndex_ b'.
Proof.
  apply (ensureWritableBytes_overflow (2 ^ 64 - 20) (MkBuffer (replicate 64 x61) 8 40)).
  - unfold wf, kCheapPrepend, max_size; simpl. lia.
  - unfold kCheapPrepend; simpl. lia.
Defined.

(** Whatever free space the buffer has, one [readFd] call on
    a stream [s] consumes at least 64 KiB of it (or all of it), returns the
    number of bytes consumed, and appends exactly these bytes. *)
Lemma readFd_stream s b q :
  rep b q → zlen (buffer_ b) + extrabuf_size ≤ max_size →
  ∃ cap b', readFd (readv_stream s) b = Ok ((zlen (take cap s), None), b')
    ∧ rep b' (q ++ take cap s) ∧ (Z.to_nat extrabuf_size ≤ cap)%nat.
Proof.
  intros Hr Hmax.
  pose proof (wp_readFd _ b q Hr (readv_stream_ok s) Hmax) as Hwp.
  apply wp_run in Hwp as (r & b' & Hrun & _ & Hcap & -> & Hr').
  exists (Z.to_nat (iov_capacity b)), b'. split_and!; [done|done|].
  unfold extrabuf_size in *. lia.
Qed.

Lemma readFd_stream_witness :
  ∃ cap b', readFd (readv_stream [x61; x62; x63; x64]) (MkBuffer (replicate 10 x00) 8 8)
      = Ok ((zlen (take cap [x61; x62; x63; x64]), None), b')
    ∧ rep b' ([] ++ take cap [x61; x62; x63; x64]) ∧ (Z.to_nat extrabuf_size ≤ cap)%nat.
Proof.
  apply (readFd_stream [x61; x62; x63; x64] (MkBuffer (replicate 10 x00) 8 8) []).
  - split; [|reflexivity]. unfold wf, kCheapPrepend, max_size; simpl. lia.
  - unfold extrabuf_size, max_size; simpl. lia.
Defined.
