(* ===== verification/Logger.v ===== *)
(** * Logger (include/base/Logger.h, src/base/Logger.cc)

    The synchronous console log. The state is what has been written to the
    two standard streams. *)
From S2P Require Import Prelude.
Open Scope string_scope.

Inductive LogLevel : Type := DEBUG | INFO | ERROR | FATAL.

#[export] Instance LogLevel_eq_dec : EqDecision LogLevel.
Proof. solve_decision. Defined.

Record Console : Type := MkConsole { cout : list string; cerr : list string }.

(** The enumeration is closed, so the [default] label is never taken. *)
Definition logLevelName (level : LogLevel) : string :=
  match level with
  | DEBUG => "DEBUG"
  | INFO => "INFO"
  | ERROR => "ERROR"
  | FATAL => "FATAL"
  end.

(** [stream << ... << std::endl] *)
Definition log_line (level : LogLevel) (file : string) (line : Z) (message : string) : string :=
  "[" +:+ logLevelName level +:+ "] " +:+ file +:+ ":" +:+ pretty line +:+ " " +:+ message.

Definition to_cerr (level : LogLevel) : bool :=
  bool_decide (level = ERROR) || bool_decide (level = FATAL).

Definition log (level : LogLevel) (file : string) (line : Z) (message : string)
    : M Console unit :=
  modify (λ c, let s := log_line level file line message in
    if to_cerr level then MkConsole (cout c) (cerr c ++ [s])
    else MkConsole (cout c ++ [s]) (cerr c)) ;;
  when (bool_decide (level = FATAL)) (raise AbortFatal).

(** Logging returns exactly for the levels below [FATAL], and then has
    appended one line to one of the two streams. *)
Lemma log_spec level file line message c :
  log level file line message c =
    match level with
    | FATAL => Fault AbortFatal
    | ERROR => Ok (tt, MkConsole (cout c) (cerr c ++ [log_line level file line message]))
    | _ => Ok (tt, MkConsole (cout c ++ [log_line level file line message]) (cerr c))
    end.
Proof. by destruct level. Qed.
