(* ===== verification/Decimal.v ===== *)
(** * Decimal numerals

    Reading back the numerals that stdpp's [pretty] prints, which is what
    [std::to_string] and [operator<<] print for a number. *)
From S2P Require Import Prelude.
From Stdlib Require Import Ascii.

Definition digit_of (c : Ascii.ascii) : option N :=
  let n := Ascii.N_of_ascii c in
  if ((48 <=? n) && (n <=? 57))%N then Some (n - 48)%N else None.

(** The digits at the front of a string, and the rest. *)
Fixpoint parse_digits (acc : N) (s : string) : N * string :=
  match s with
  | EmptyString => (acc, EmptyString)
  | String c s' =>
      match digit_of c with
      | Some d => parse_digits (acc * 10 + d)%N s'
      | None => (acc, s)
      end
  end.

Lemma pretty_N_go_app x s : pretty_N_go x s = pretty_N_go x "" +:+ s.
Proof.
  revert s. induction (N.lt_wf_0 x) as [x _ IH]; intros s.
  assert (x = 0 ∨ 0 < x)%N as [->|Hx] by lia; [done|].
  rewrite !(pretty_N_go_step x) by done.
  rewrite (IH _ (N.div_lt x 10 Hx eq_refl)).
  rewrite (IH _ (N.div_lt x 10 Hx eq_refl) (String _ "")).
  by rewrite string_app_assoc.
Qed.

Lemma digit_of_pretty_N_char d : (d < 10)%N → digit_of (pretty_N_char d) = Some d.
Proof.
  intros Hd. assert (d = 0 ∨ d = 1 ∨ d = 2 ∨ d = 3 ∨ d = 4 ∨ d = 5 ∨ d = 6 ∨ d = 7
    ∨ d = 8 ∨ d = 9)%N as H by lia.
  by destruct_or! H; subst d.
Qed.

Lemma parse_pretty_N_go x s : parse_digits 0 (pretty_N_go x s) = parse_digits x s.
Proof.
  revert s. induction (N.lt_wf_0 x) as [x _ IH]; intros s.
  assert (x = 0 ∨ 0 < x)%N as [->|Hx] by lia; [done|].
  rewrite pretty_N_go_step, IH by (done || by apply N.div_lt). simpl.
  rewrite digit_of_pretty_N_char by (apply N.mod_lt; done).
  f_equal. rewrite N.mul_comm. symmetry. by apply N.div_mod.
Qed.

Lemma parse_pretty x s :
  parse_digits 0 (pretty x +:+ s) = parse_digits x s.
Proof.
  unfold pretty, pretty_N. case_decide; [by subst|].
  by rewrite <-pretty_N_go_app, parse_pretty_N_go.
Qed.

Lemma length_pretty_N_go k x s :
  (x < 10 ^ N.of_nat k)%N →
  (String.length (pretty_N_go x s) ≤ k + String.length s)%nat.
Proof.
  revert x s. induction k as [|k IH]; intros x s Hx.
  { replace x with 0%N by (simpl in Hx; lia). done. }
  assert (x = 0 ∨ 0 < x)%N as [->|Hx0] by lia; [rewrite pretty_N_go_0; lia|].
  rewrite pretty_N_go_step by done. etrans; [apply IH|simpl; lia].
  apply N.Div0.div_lt_upper_bound. rewrite <-N.pow_succ_r'. by rewrite <-Nat2N.inj_succ.
Qed.

Lemma length_pretty_N k x :
  (x < 10 ^ N.of_nat k)%N → (0 < k)%nat → (String.length (pretty x) ≤ k)%nat.
Proof.
  intros Hx Hk. unfold pretty, pretty_N. case_decide; [simpl; lia|].
  pose proof (length_pretty_N_go k x "" Hx). simpl in *. lia.
Qed.

Lemma pretty_Z_nonneg n : 0 ≤ n → pretty n = pretty (Z.to_N n).
Proof. by destruct n. Qed.

Lemma parse_pretty_Z x s :
  0 ≤ x → parse_digits 0 (pretty x +:+ s) = parse_digits (Z.to_N x) s.
Proof. intros Hx. by rewrite pretty_Z_nonneg, parse_pretty. Qed.

(** ** [std::stoi] *)

(** [isspace] in the "C" locale. *)
Definition is_space (c : Ascii.ascii) : bool :=
  let n := Ascii.N_of_ascii c in ((n =? 32) || ((9 <=? n) && (n <=? 13)))%N.
Fixpoint skip_spaces (s : string) : string :=
  match s with
  | String c s' => if is_space c then skip_spaces s' else s
  | EmptyString => EmptyString
  end.
Definition take_sign (s : string) : bool * string :=
  match s with
  | String c s' =>
      if Ascii.eqb c "-" then (true, s') else if Ascii.eqb c "+" then (false, s') else (false, s)
  | EmptyString => (false, s)
  end.

(** What [strtol] with the base 10 reads must be a number, and an [int]; what
    follows the digits does not matter. *)
Definition stoi (s : string) : outcome Z :=
  let '(negative, digits) := take_sign (skip_spaces s) in
  let '(n, rest) := parse_digits 0 digits in
  if bool_decide (rest = digits) then Fault InvalidArgument
  else
    let value := if (negative : bool) then - Z.of_N n else Z.of_N n in
    if in_i32 value then Ok value else Fault OutOfRange.

Example stoi_signs :
  stoi <$> [" 42 requests"; "-7"; "+9001"; "port"; "2147483648"]%list =
  [Ok 42; Ok (-7); Ok 9001; Fault InvalidArgument; Fault OutOfRange]%list.
Proof. vm_compute. reflexivity. Qed.

(** A numeral begins with a digit. *)
Definition starts_with_digit (s : string) : Prop :=
  ∃ c s', s = String c s' ∧ is_Some (digit_of c).

Lemma pretty_N_go_starts x s : (0 < x)%N → starts_with_digit (pretty_N_go x s).
Proof.
  revert s. induction (N.lt_wf_0 x) as [x _ IH]; intros s Hx. rewrite pretty_N_go_step by done.
  destruct (N.eq_0_gt_0_cases (x / 10)) as [->|Hdiv].
  - rewrite pretty_N_go_0. eexists _, _. split; [done|].
    rewrite digit_of_pretty_N_char by (by apply N.mod_lt). eauto.
  - apply IH; [by apply N.div_lt|done].
Qed.

Lemma pretty_starts (x : N) : starts_with_digit (pretty x).
Proof.
  unfold pretty, pretty_N. case_decide; [|apply pretty_N_go_starts; lia].
  eexists _, _. split; [done|]. eauto.
Qed.

Lemma digit_no_sign c : is_Some (digit_of c) → is_space c = false ∧ c ≠ "-"%char ∧ c ≠ "+"%char.
Proof.
  unfold digit_of, is_space. intros [d Hd].
  destruct (N.leb_spec 48 (N_of_ascii c)), (N.leb_spec (N_of_ascii c) 57); try discriminate.
  split_and!; [|by intros ->..].
  destruct (N.eqb_spec (N_of_ascii c) 32), (N.leb_spec (N_of_ascii c) 13); try lia.
Qed.

Lemma take_sign_digit s : starts_with_digit s → take_sign (skip_spaces s) = (false, s).
Proof.
  intros (c & s' & -> & (Hsp & Hm & Hp)%digit_no_sign). cbn. rewrite Hsp. cbn.
  by rewrite (proj2 (Ascii.eqb_neq _ _) Hm), (proj2 (Ascii.eqb_neq _ _) Hp).
Qed.

(** The end of a numeral is not the numeral. *)
Lemma parse_pretty_end (x : N) :
  ∃ rest, parse_digits 0 (pretty x) = (x, rest) ∧ bool_decide (rest = pretty x) = false.
Proof.
  exists "". pose proof (parse_pretty x "") as Hp. rewrite string_app_nil_r in Hp. split; [done|].
  apply bool_decide_eq_false_2. destruct (pretty_starts x) as (c & s' & -> & _). done.
Qed.

(** [stoi] reads back what is printed for an [int]. *)
Lemma stoi_pretty n : in_i32 n = true → stoi (pretty n) = Ok n.
Proof.
  intros Hn. unfold stoi. assert (∃ negative digits x, take_sign (skip_spaces (pretty n)) =
    (negative, digits) ∧ digits = pretty x ∧ (if negative then - Z.of_N x else Z.of_N x) = n)
    as (negative & digits & x & -> & -> & Hx).
  { destruct n as [|q|q].
    - by exists false, "0", 0%N.
    - exists false, (pretty (N.pos q)), (N.pos q). split_and!; [|done..].
      apply take_sign_digit, pretty_starts.
    - exists true, (pretty (N.pos q)), (N.pos q). by split_and!. }
  destruct (parse_pretty_end x) as (rest & -> & ->). by rewrite Hx, Hn.
Qed.
