(* ===== verification/Timestamp.v ===== *)
(** * Timestamp (include/base/Timestamp.h, src/base/Timestamp.cc)

    Microseconds since the epoch in a signed 64-bit integer. The [double]
    arguments are IEEE 754 binary64 values, computed with the Standard
    Library's executable specification of floating point. *)
From S2P Require Import Prelude Decimal.
From Stdlib Require Import Ascii Floats.SpecFloat.

(** ** IEEE 754 doubles *)

Definition double : Type := spec_float.
Definition double_of_Z (z : Z) : double := binary_normalize 53 1024 z 0 false.
Definition double_mul (x y : double) : double := SFmul 53 1024 x y.
Definition double_div (x y : double) : double := SFdiv 53 1024 x y.
Definition double_gtb (x y : double) : bool := SFltb y x.

(** [static_cast<int64_t>(x)]: truncation towards zero, undefined when the
    truncated value does not fit. *)
Definition int64_of_double (x : double) : outcome Z :=
  match x with
  | S754_zero _ => Ok 0
  | S754_finite s m e =>
      let a := if 0 <=? e then Z.pos m * 2 ^ e else Z.pos m / 2 ^ (- e) in
      i64 (if s then - a else a)
  | _ => Fault UndefinedBehaviour
  end.

(** ** The class *)

Definition kMicroSecondsPerSecond : Z := 1000 * 1000.

Record Timestamp : Type := MkTimestamp { microSecondsSinceEpoch_ : Z }.

#[export] Instance Timestamp_eq_dec : EqDecision Timestamp.
Proof. solve_decision. Defined.

Definition valid (t : Timestamp) : bool := 0 <? microSecondsSinceEpoch_ t.
Definition microSecondsSinceEpoch (t : Timestamp) : Z := microSecondsSinceEpoch_ t.

(** C++ division of integers truncates towards zero. *)
Definition secondsSinceEpoch (t : Timestamp) : Z :=
  microSecondsSinceEpoch_ t `quot` kMicroSecondsPerSecond.

(** [printf("%0<w>lld", n)]: the sign counts for the width. *)
Fixpoint zeros (n : nat) : string :=
  match n with O => EmptyString | S n' => String "0"%char (zeros n') end.
Definition printf_0d (w : nat) (n : Z) : string :=
  let digits := pretty (Z.to_N (Z.abs n)) in
  if n <? 0
  then "-"%string +:+ zeros (w - 1 - String.length digits) +:+ digits
  else zeros (w - String.length digits) +:+ digits.

(** [snprintf(buf, size, ...)] keeps at most [size - 1] characters. *)
Definition snprintf (size : nat) (s : string) : string := String.substring 0 (size - 1) s.

Definition toString (t : Timestamp) : string :=
  let seconds := microSecondsSinceEpoch_ t `quot` kMicroSecondsPerSecond in
  let microseconds := microSecondsSinceEpoch_ t `rem` kMicroSecondsPerSecond in
  snprintf 32 (pretty seconds +:+ "."%string +:+ printf_0d 6 microseconds).

(** [now]: [tv] is what [gettimeofday] stores. *)
Definition now (tv_sec tv_usec : Z) : outcome Timestamp :=
  micro ← i64 (tv_sec * kMicroSecondsPerSecond);
  micro' ← i64 (micro + tv_usec);
  mret (MkTimestamp micro').

Definition invalid : Timestamp := MkTimestamp 0.

Definition ts_ltb (lhs rhs : Timestamp) : bool :=
  microSecondsSinceEpoch lhs <? microSecondsSinceEpoch rhs.
Definition ts_eqb (lhs rhs : Timestamp) : bool :=
  microSecondsSinceEpoch lhs =? microSecondsSinceEpoch rhs.

Definition addTime (timestamp : Timestamp) (seconds : double) : outcome Timestamp :=
  delta ← int64_of_double (double_mul seconds (double_of_Z 1000000));
  micro ← i64 (microSecondsSinceEpoch timestamp + delta);
  mret (MkTimestamp micro).

(** ** Reading a printed timestamp back *)

(** [sec.usec] *)
Definition parse (s : string) : option Timestamp :=
  let '(sec, rest) := parse_digits 0 s in
  match rest with
  | String c rest' =>
      let '(usec, rest'') := parse_digits 0 rest' in
      if bool_decide (c = "."%char) && bool_decide (rest'' = ""%string)
      then Some (MkTimestamp (Z.of_N sec * kMicroSecondsPerSecond + Z.of_N usec))
      else None
  | EmptyString => None
  end.

Example addTime_tenth :
  addTime (MkTimestamp 5) (double_div (double_of_Z 1) (double_of_Z 10))
  = Ok (MkTimestamp 100005).
Proof. vm_compute. reflexivity. Qed.
Example toString_zero_padded : toString (MkTimestamp 1700000000000042) = "1700000000.000042"%string.
Proof. vm_compute. reflexivity. Qed.
Example toString_negative : toString (MkTimestamp (-1)) = "0.-00001"%string.
Proof. vm_compute. reflexivity. Qed.

(** ** Helper lemmas *)

Lemma parse_zeros n s : parse_digits 0 (zeros n +:+ s) = parse_digits 0 s.
Proof. induction n as [|n IH]; simpl; [done|]. exact IH. Qed.

Lemma length_zeros n : String.length (zeros n) = n.
Proof. induction n; simpl; congruence. Qed.

Lemma substring_0_ge n s : (String.length s ≤ n)%nat → String.substring 0 n s = s.
Proof.
  revert n. induction s as [|c s IH]; intros [|n] Hn; simpl in *; try done; [lia|].
  f_equal. apply IH. lia.
Qed.

Lemma printf_0d_nonneg w n :
  0 ≤ n → ∃ k, printf_0d w n = zeros k +:+ pretty (Z.to_N n).
Proof.
  intros Hn. unfold printf_0d. destruct (Z.ltb_spec n 0); [lia|].
  rewrite Z.abs_eq by done. eauto.
Qed.

Lemma length_printf_0d w n :
  0 ≤ n < 10 ^ Z.of_nat w → (0 < w)%nat → String.length (printf_0d w n) = w.
Proof.
  intros Hn Hw. unfold printf_0d. destruct (Z.ltb_spec n 0); [lia|].
  rewrite length_string_app, length_zeros, Z.abs_eq by lia.
  assert (String.length (pretty (Z.to_N n)) ≤ w)%nat; [|lia].
  apply length_pretty_N; [|done]. apply N2Z.inj_lt.
  rewrite N2Z.inj_pow, Z2N.id, nat_N_Z by lia. simpl. lia.
Qed.

(** Reading back [<seconds>.<six digits>]. *)
Lemma parse_printed sec usec s :
  0 ≤ sec → 0 ≤ usec →
  s = pretty sec +:+ "." +:+ printf_0d 6 usec →
  parse s = Some (MkTimestamp (sec * kMicroSecondsPerSecond + usec)).
Proof.
  intros Hsec Husec ->. unfold parse. rewrite pretty_Z_nonneg by done.
  rewrite parse_pretty.
  replace (parse_digits _ _) with (Z.to_N sec, "." +:+ printf_0d 6 usec) by done.
  rewrite string_app_cons.
  replace (parse_digits 0 _) with (Z.to_N usec, "").
  2:{ change (String.append "" ?x) with x.
      destruct (printf_0d_nonneg 6 usec Husec) as [k ->].
      rewrite parse_zeros, <-(string_app_nil_r (pretty (Z.to_N usec))).
      by rewrite parse_pretty. }
  by rewrite !Z2N.id.
Qed.

(** The text [toString] prints for a valid timestamp fits the
    32-byte buffer untruncated, and reading it back gives the timestamp. *)
Lemma toString_roundtrip t :
  valid t = true → in_i64 (microSecondsSinceEpoch t) = true →
  parse (toString t) = Some t ∧ (String.length (toString t) < 32)%nat.
Proof.
  destruct t as [micro]. unfold valid, in_i64, toString. simpl.
  rewrite Z.ltb_lt, bool_decide_eq_true. intros Hpos Hmax.
  unfold kMicroSecondsPerSecond.
  pose proof (Z.quot_rem' micro (1000 * 1000)) as Hqr.
  pose proof (Z.rem_bound_pos micro (1000 * 1000) ltac:(lia) ltac:(lia)) as Hrem.
  pose proof (Z.quot_pos micro (1000 * 1000) ltac:(lia) ltac:(lia)) as Hquot.
  set (sec := micro `quot` (1000 * 1000)) in *.
  set (usec := micro `rem` (1000 * 1000)) in *.
  assert (String.length (pretty sec +:+ "." +:+ printf_0d 6 usec) ≤ 20)%nat as Hlen.
  { rewrite !length_string_app, (length_printf_0d 6) by (simpl; lia).
    rewrite pretty_Z_nonneg by done.
    pose proof (length_pretty_N 13 (Z.to_N sec) ltac:(simpl; lia) ltac:(lia)).
    simpl. lia. }
  unfold snprintf. rewrite substring_0_ge by (simpl; lia). split; [|lia].
  rewrite (parse_printed sec usec) by (done || lia).
  unfold kMicroSecondsPerSecond. do 2 f_equal. lia.
Qed.

Lemma toString_roundtrip_witness :
  parse (toString (MkTimestamp 1700000000000042)) = Some (MkTimestamp 1700000000000042)
  ∧ (String.length (toString (MkTimestamp 1700000000000042)) < 32)%nat.
Proof. apply (toString_roundtrip (MkTimestamp 1700000000000042)); reflexivity. Defined.
