(* ===== verification/FormattedTime.v ===== *)
(** * Timestamp::toFormattedString (src/base/Timestamp.cc)

    The local time of a timestamp as text. The time zone database behind
    [localtime_r] is a parameter. *)
From S2P Require Import Prelude Decimal Timestamp.
From Stdlib Require Import Ascii.
Open Scope string_scope.
Open Scope Z_scope.

(** The fields of [struct tm] that the format uses. *)
Record tm : Type := MkTm {
  tm_year : Z;  (* since 1900 *)
  tm_mon : Z;   (* from 0 *)
  tm_mday : Z;
  tm_hour : Z;
  tm_min : Z;
  tm_sec : Z;
}.
#[export] Instance tm_eq_dec : EqDecision tm.
Proof. solve_decision. Defined.

(** [None] is the null pointer: the year does not fit, and [tm_time] stays
    uninitialised. *)
Class LocalTime := { localtime_r : Z → option tm }.

(** ctime(3): the ranges of the fields. A year has at least 365 days and a
    time zone is less than a day away, which bounds the year. *)
Definition tm_ok (t : tm) : Prop :=
  0 ≤ tm_mon t ≤ 11 ∧ 1 ≤ tm_mday t ≤ 31 ∧ 0 ≤ tm_hour t ≤ 23 ∧ 0 ≤ tm_min t ≤ 59 ∧
  0 ≤ tm_sec t ≤ 60.
Class LocalTimeSpec `{!LocalTime} : Prop := {
  localtime_r_ok seconds t : localtime_r seconds = Some t → tm_ok t;
  localtime_r_year seconds t :
    0 ≤ seconds → localtime_r seconds = Some t →
    69 ≤ tm_year t ∧ 365 * 86400 * (tm_year t - 70) ≤ seconds + 86400;
}.

(** [strftime(buf, size, "%Y-%m-%d %H:%M:%S", &t)]: when the text and its
    terminator do not fit, the content of [buf] is undefined. *)
Definition tm_text (t : tm) : string :=
  pretty (tm_year t + 1900) +:+ "-" +:+ printf_0d 2 (tm_mon t + 1) +:+ "-" +:+
  printf_0d 2 (tm_mday t) +:+ " " +:+ printf_0d 2 (tm_hour t) +:+ ":" +:+
  printf_0d 2 (tm_min t) +:+ ":" +:+ printf_0d 2 (tm_sec t).
Definition strftime (size : nat) (t : tm) : outcome string :=
  if bool_decide (String.length (tm_text t) < size)%nat
  then Ok (tm_text t) else Fault UndefinedBehaviour.

Definition toFormattedString `{!LocalTime} (t : Timestamp) : outcome string :=
  let seconds := secondsSinceEpoch t in
  match localtime_r seconds with
  | Some tm_time => strftime 32 tm_time
  | None => Fault UndefinedBehaviour
  end.

(** ** Reading the text back *)

(** The fields of a text, each a numeral that ends in one of the separators;
    the last one ends with the text. *)
Fixpoint parse_fields (seps : list ascii) (s : string) : option (list Z) :=
  match seps with
  | [] =>
      let '(n, rest) := parse_digits 0 s in
      if bool_decide (rest = "") then Some [Z.of_N n] else None
  | c :: seps' =>
      let '(n, rest) := parse_digits 0 s in
      match rest with
      | String c' rest' =>
          if bool_decide (c' = c)
          then ns ← parse_fields seps' rest'; Some (Z.of_N n :: ns)
          else None
      | EmptyString => None
      end
  end%list.
Definition separators : list ascii := ["-"; "-"; " "; ":"; ":"]%char%list.
Definition parse_tm (s : string) : option tm :=
  match parse_fields separators s with
  | Some [year; mon; mday; hour; min; sec]%list =>
      Some (MkTm (year - 1900) (mon - 1) mday hour min sec)
  | _ => None
  end.

(** ** Proofs *)

(** A numeral [d] prints the number [n]. *)
Definition numeral (d : string) (n : Z) : Prop :=
  ∀ s, parse_digits 0 (d +:+ s) = parse_digits (Z.to_N n) s.

Lemma numeral_pretty n : 0 ≤ n → numeral (pretty n) n.
Proof. intros Hn s. by apply parse_pretty_Z. Qed.

Lemma numeral_printf w n : 0 ≤ n → numeral (printf_0d w n) n.
Proof.
  intros Hn s. destruct (printf_0d_nonneg w n Hn) as [k ->].
  rewrite string_app_assoc, parse_zeros. apply parse_pretty.
Qed.

Lemma parse_field d n c seps s :
  numeral d n → digit_of c = None → 0 ≤ n →
  parse_fields (c :: seps) (d +:+ String c s) =
    (ns ← parse_fields seps s; Some (n :: ns))%list.
Proof.
  intros Hd Hc Hn. cbn [parse_fields]. rewrite Hd. cbn [parse_digits]. rewrite Hc.
  by rewrite bool_decide_eq_true_2, Z2N.id.
Qed.

Lemma parse_last d n : numeral d n → 0 ≤ n → parse_fields [] d = Some [n]%list.
Proof.
  intros Hd Hn. cbn [parse_fields]. specialize (Hd ""). rewrite string_app_nil_r in Hd.
  rewrite Hd. cbn. by rewrite Z2N.id.
Qed.

Lemma parse_tm_text t : tm_ok t → 0 ≤ tm_year t + 1900 → parse_tm (tm_text t) = Some t.
Proof.
  intros (? & ? & ? & ? & ?) Hyear. unfold parse_tm, separators.
  assert (tm_text t = pretty (tm_year t + 1900) +:+ String "-" (
    printf_0d 2 (tm_mon t + 1) +:+ String "-" (printf_0d 2 (tm_mday t) +:+ String " " (
    printf_0d 2 (tm_hour t) +:+ String ":" (printf_0d 2 (tm_min t) +:+ String ":" (
    printf_0d 2 (tm_sec t))))))) as -> by done.
  erewrite (parse_field (pretty _)) by first [apply numeral_pretty; lia|done|lia].
  do 4 erewrite parse_field by first [apply numeral_printf; lia|done|lia].
  erewrite parse_last by first [apply numeral_printf; lia|done|lia].
  destruct t; cbn. do 2 f_equal; lia.
Qed.

Lemma length_tm_text t :
  tm_ok t → 0 ≤ tm_year t + 1900 < 10 ^ 7 → (String.length (tm_text t) ≤ 22)%nat.
Proof.
  intros (? & ? & ? & ? & ?) Hyear. unfold tm_text.
  rewrite !length_string_app, !(length_printf_0d 2) by (simpl; lia).
  rewrite pretty_Z_nonneg by lia.
  pose proof (length_pretty_N 7 (Z.to_N (tm_year t + 1900)) ltac:(simpl; lia) ltac:(lia)).
  simpl. lia.
Qed.

(** The text of a valid timestamp fits the 32-byte buffer and determines the
    local time, whatever the time zone. *)
Lemma toFormattedString_roundtrip `{!LocalTime, !LocalTimeSpec} t tm_time :
  valid t = true → in_i64 (microSecondsSinceEpoch t) = true →
  localtime_r (secondsSinceEpoch t) = Some tm_time →
  ∃ s, toFormattedString t = Ok s ∧ parse_tm s = Some tm_time ∧ (String.length s ≤ 22)%nat.
Proof.
  unfold valid, in_i64, microSecondsSinceEpoch. rewrite Z.ltb_lt, bool_decide_eq_true.
  intros Hpos Hmax Hlt. unfold toFormattedString. rewrite Hlt.
  assert (0 ≤ secondsSinceEpoch t ≤ 9223372036855) as [Hs Hm].
  { unfold secondsSinceEpoch, kMicroSecondsPerSecond. destruct t as [micro]. cbn in *.
    pose proof (Z.quot_rem' micro (1000 * 1000)).
    pose proof (Z.rem_bound_pos micro (1000 * 1000) ltac:(lia) ltac:(lia)). lia. }
  destruct (localtime_r_year _ _ Hs Hlt) as [Hy Hyear].
  assert (0 ≤ tm_year tm_time + 1900 < 10 ^ 7) as Hrange by lia.
  pose proof (localtime_r_ok _ _ Hlt) as Hok.
  pose proof (length_tm_text _ Hok Hrange). unfold strftime.
  rewrite bool_decide_eq_true_2 by lia. exists (tm_text tm_time).
  split_and!; [done| |done]. apply parse_tm_text; [done|lia].
Qed.

(** 2023-11-14 22:13:20 in UTC. *)
Example formatted_example :
  let _ := {| localtime_r _ := Some (MkTm 123 10 14 22 13 20) |} in
  toFormattedString (MkTimestamp 1700000000000042) = Ok "2023-11-14 22:13:20".
Proof. vm_compute. reflexivity. Qed.
