(* ===== verification/Basic.v ===== *)
(** * The basic example (examples/example_basic.cc)

    [main] logs a line and prints the current time in the two formats: the
    components Logger.v, Timestamp.v and FormattedTime.v together. *)
From S2P Require Import Prelude Decimal Logger Timestamp FormattedTime.
Open Scope string_scope.
Open Scope list_scope.
Open Scope Z_scope.

(** [std::cout << s << std::endl] *)
Definition print_line (s : string) (c : Console) : Console := MkConsole (cout c ++ [s]) (cerr c).

(** [file] is what the compiler puts for [__FILE__]; [tv_sec] and [tv_usec] are
    what [gettimeofday] stores. *)
Definition example_basic `{!LocalTime} (file : string) (tv_sec tv_usec : Z) : M Console Z :=
  log INFO file 8 "mini_muduo start" ;;
  t ← lift_outcome (now tv_sec tv_usec);
  modify (print_line ("current time: " +:+ toString t)) ;;
  formatted ← lift_outcome (toFormattedString t);
  modify (print_line ("formatted time: " +:+ formatted)) ;;
  mret 0.

(** What [gettimeofday] stores: a time of the epoch that is not its first
    instant, and that the counter of microseconds can hold. *)
Definition timeval_ok (tv_sec tv_usec : Z) : Prop :=
  0 ≤ tv_sec ∧ 0 ≤ tv_usec < kMicroSecondsPerSecond ∧
  0 < tv_sec * kMicroSecondsPerSecond + tv_usec ≤ 2 ^ 63 - 1.

Lemma in_i64_ok z : - 2 ^ 63 ≤ z < 2 ^ 63 → in_i64 z = true.
Proof. apply bool_decide_eq_true_2. Qed.

Lemma now_spec tv_sec tv_usec :
  timeval_ok tv_sec tv_usec →
  now tv_sec tv_usec = Ok (MkTimestamp (tv_sec * kMicroSecondsPerSecond + tv_usec)).
Proof.
  intros (Hs & Hu & Hb). unfold now, i64. set (micro := tv_sec * kMicroSecondsPerSecond) in *.
  assert (0 ≤ micro) by (unfold micro, kMicroSecondsPerSecond; lia).
  rewrite in_i64_ok by lia. cbn. by rewrite in_i64_ok by lia.
Qed.

(** The program logs its line and prints the time that
    [gettimeofday] has returned, and nothing else: the first number reads back
    as this very time, to the microsecond, and the second as its local time;
    nothing goes to the error stream. *)
Theorem example_basic_prints `{!LocalTime, !LocalTimeSpec} file tv_sec tv_usec tm_time c :
  timeval_ok tv_sec tv_usec → localtime_r tv_sec = Some tm_time →
  ∃ current formatted,
    example_basic file tv_sec tv_usec c =
      Ok (0, MkConsole (cout c ++ ["[INFO] " +:+ file +:+ ":8 mini_muduo start";
        "current time: " +:+ current; "formatted time: " +:+ formatted]) (cerr c)) ∧
    parse current = Some (MkTimestamp (tv_sec * kMicroSecondsPerSecond + tv_usec)) ∧
    parse_tm formatted = Some tm_time.
Proof.
  intros Htv Hlt. pose proof (now_spec _ _ Htv) as Hnow. pose proof Htv as (Hs & Hu & Hb).
  set (t := MkTimestamp (tv_sec * kMicroSecondsPerSecond + tv_usec)) in *.
  assert (valid t = true) as Hv by (apply Z.ltb_lt; exact (proj1 Hb)).
  assert (in_i64 (microSecondsSinceEpoch t) = true) as Hi by (apply in_i64_ok; cbn; lia).
  assert (secondsSinceEpoch t = tv_sec) as Hsec.
  { unfold secondsSinceEpoch. cbn. unfold kMicroSecondsPerSecond in *.
    rewrite Z.quot_div_nonneg, Z.div_add_l, Z.div_small by lia. lia. }
  destruct (toFormattedString_roundtrip t tm_time Hv Hi) as (s & Hf & Hp & _); [by rewrite Hsec|].
  exists (toString t), s. split_and!; [|by apply toString_roundtrip|done].
  unfold example_basic. rewrite Hnow. unfold mbind, M_bind at 1. rewrite log_spec.
  unfold modify, lift_outcome, M_bind, mret, M_ret. rewrite Hf. unfold print_line. cbn [cout cerr].
  rewrite <-!app_assoc. done.
Qed.

(** ** A concrete clock *)

#[local] Instance demo_localtime : LocalTime := {|
  localtime_r seconds := if seconds =? 1700000000 then Some (MkTm 123 10 14 22 13 20) else None;
|}.
#[local] Instance demo_localtime_spec : LocalTimeSpec.
Proof.
  split; cbn; intros seconds t; destruct (Z.eqb_spec seconds 1700000000) as [->|]; try done.
  - intros [= <-]. by split_and!.
  - intros _ [= <-]. done.
Qed.

Lemma example_basic_prints_witness :
  ∃ current formatted,
    example_basic "example_basic.cc" 1700000000 42 (MkConsole [] []) =
      Ok (0, MkConsole ["[INFO] example_basic.cc:8 mini_muduo start";
        "current time: " +:+ current; "formatted time: " +:+ formatted] []) ∧
    parse current = Some (MkTimestamp 1700000000000042) ∧
    parse_tm formatted = Some (MkTm 123 10 14 22 13 20).
Proof.
  assert (timeval_ok 1700000000 42) as Htv by (unfold timeval_ok, kMicroSecondsPerSecond; lia).
  exact (example_basic_prints "example_basic.cc" 1700000000 42 _ (MkConsole [] []) Htv eq_refl).
Defined.
