(* ===== verification/Channel.v ===== *)
(** * Channel (include/net/Channel.h, src/net/Channel.cc)

    A file descriptor with its event mask and its callbacks, the interface of
    the poller it reports to (include/net/Poller.h), and the dispatch of
    events. Callbacks are values of a type [CB]; what a callback does is the
    argument [run] of the dispatch. *)
From S2P Require Import Prelude Posix.

(** The address of an object; 0 is the null pointer. *)
Abbreviation ptr := Z.

Definition kNoneEvent : Z := 0.
Definition kReadEvent : Z := Z.lor EPOLLIN EPOLLPRI.
Definition kWriteEvent : Z := EPOLLOUT.
Definition kNew : Z := -1.

Section channel.
Context {CB : Type}.

Record Channel : Type := MkChannel {
  loop_ : ptr;
  fd_ : Z;
  events_ : Z;
  revents_ : Z;
  index_ : Z;
  readCallback_ : option CB;
  writeCallback_ : option CB;
  closeCallback_ : option CB;
  errorCallback_ : option CB;
}.

Definition new_Channel (loop : ptr) (fd : Z) : Channel :=
  MkChannel loop fd kNoneEvent kNoneEvent kNew None None None None.

Definition set_events (e : Z) (c : Channel) : Channel :=
  MkChannel (loop_ c) (fd_ c) e (revents_ c) (index_ c) (readCallback_ c)
    (writeCallback_ c) (closeCallback_ c) (errorCallback_ c).
Definition set_revents (revt : Z) (c : Channel) : Channel :=
  MkChannel (loop_ c) (fd_ c) (events_ c) revt (index_ c) (readCallback_ c)
    (writeCallback_ c) (closeCallback_ c) (errorCallback_ c).
Definition set_index (i : Z) (c : Channel) : Channel :=
  MkChannel (loop_ c) (fd_ c) (events_ c) (revents_ c) i (readCallback_ c)
    (writeCallback_ c) (closeCallback_ c) (errorCallback_ c).
Definition setReadCallback (cb : CB) (c : Channel) : Channel :=
  MkChannel (loop_ c) (fd_ c) (events_ c) (revents_ c) (index_ c) (Some cb)
    (writeCallback_ c) (closeCallback_ c) (errorCallback_ c).
Definition setWriteCallback (cb : CB) (c : Channel) : Channel :=
  MkChannel (loop_ c) (fd_ c) (events_ c) (revents_ c) (index_ c) (readCallback_ c)
    (Some cb) (closeCallback_ c) (errorCallback_ c).
Definition setCloseCallback (cb : CB) (c : Channel) : Channel :=
  MkChannel (loop_ c) (fd_ c) (events_ c) (revents_ c) (index_ c) (readCallback_ c)
    (writeCallback_ c) (Some cb) (errorCallback_ c).
Definition setErrorCallback (cb : CB) (c : Channel) : Channel :=
  MkChannel (loop_ c) (fd_ c) (events_ c) (revents_ c) (index_ c) (readCallback_ c)
    (writeCallback_ c) (closeCallback_ c) (Some cb).

Definition isNoneEvent (c : Channel) : bool := events_ c =? kNoneEvent.
Definition isWriting (c : Channel) : bool := negb (Z.land (events_ c) kWriteEvent =? 0).
Definition isReading (c : Channel) : bool := negb (Z.land (events_ c) kReadEvent =? 0).

(** The new mask of each of the five requests. *)
Inductive interest_change : Type :=
| EnableReading | DisableReading | EnableWriting | DisableWriting | DisableAll.

Definition new_mask (r : interest_change) (events : Z) : Z :=
  match r with
  | EnableReading => Z.lor events kReadEvent
  | DisableReading => Z.land events (u32 (Z.lnot kReadEvent))
  | EnableWriting => Z.lor events kWriteEvent
  | DisableWriting => Z.land events (u32 (Z.lnot kWriteEvent))
  | DisableAll => kNoneEvent
  end.
End channel.
Arguments Channel CB : clear implicits.

(** ** The poller's interface

    [W] is the state of the event loop the channels report to; [channels_of]
    are the channel objects that exist. [EventLoop::updateChannel] and
    [EventLoop::removeChannel] only forward to these two methods. *)
Class Poller (W CB : Type) := {
  channels_of : W → gmap ptr (Channel CB);
  with_channels : gmap ptr (Channel CB) → W → W;
  updateChannel : ptr → M W unit;
  removeChannel : ptr → M W unit;
}.

Section channel_methods.
Context {W CB : Type} `{!Poller W CB}.

Definition channel_at (p : ptr) (w : W) : option (Channel CB) := channels_of w !! p.
Definition put_channel (p : ptr) (c : Channel CB) (w : W) : W :=
  with_channels (<[p := c]> (channels_of w)) w.

Definition update (p : ptr) : M W unit :=
  c ← deref (channel_at p);
  when (negb (loop_ c =? 0)) (updateChannel p).

Definition change_interest (r : interest_change) (p : ptr) : M W unit :=
  c ← deref (channel_at p);
  modify (put_channel p (set_events (new_mask r (events_ c)) c)) ;;
  update p.

Definition enableReading : ptr → M W unit := change_interest EnableReading.
Definition disableReading : ptr → M W unit := change_interest DisableReading.
Definition enableWriting : ptr → M W unit := change_interest EnableWriting.
Definition disableWriting : ptr → M W unit := change_interest DisableWriting.
Definition disableAll : ptr → M W unit := change_interest DisableAll.

Definition remove (p : ptr) : M W unit :=
  c ← deref (channel_at p);
  when (negb (loop_ c =? 0)) (removeChannel p).
End channel_methods.

(** ** Event dispatch *)
Section dispatch.
Context {W CB : Type} (at_ : ptr → W → option (Channel CB)) (run : CB → M W unit).

(** [if (callback) callback();] *)
Definition fire (callback : Channel CB → option CB) (p : ptr) : M W unit :=
  c ← deref (at_ p);
  match callback c with Some cb => run cb | None => mret tt end.

(** [if (revents_ & test) { if (callback) callback(); }]: [revents_] is read
    again from the object before every test. *)
Definition on_revents (test : Z → bool) (callback : Channel CB → option CB) (p : ptr)
    : M W unit :=
  c ← deref (at_ p);
  when (test (revents_ c)) (fire callback p).

Definition has (mask revents : Z) : bool := negb (Z.land revents mask =? 0).

Definition handleEventWithGuard (p : ptr) : M W unit :=
  on_revents (λ r, has EPOLLHUP r && negb (has EPOLLIN r)) closeCallback_ p ;;
  on_revents (has EPOLLERR) errorCallback_ p ;;
  on_revents (has (Z.lor EPOLLIN (Z.lor EPOLLPRI EPOLLRDHUP))) readCallback_ p ;;
  on_revents (has EPOLLOUT) writeCallback_ p.

Definition handleEvent (p : ptr) : M W unit := handleEventWithGuard p.
End dispatch.

(** ** Callbacks of several objects

    The channels of a loop hold the callbacks of several classes; [H] are the
    methods that one of them binds, [CB] all callbacks of the loop. *)
Class Bound (H CB : Type) := {
  bind_ : H → CB;
  bound : CB → option H;
}.
Class BoundSpec (H CB : Type) `{!Bound H CB} : Prop := {
  bound_bind (h : H) : bound (bind_ h) = Some h;
}.

(** A callback that is known to be a method of [H]. *)
Definition run_bound {H CB W} `{!Bound H CB} (run : H → M W unit) (cb : CB) : M W unit :=
  h ← deref (λ _, bound cb); run h.

Lemma wp_run_bound {H CB W} `{!Bound H CB, !BoundSpec H CB} (run : H → M W unit) h Q (w : W) :
  wp (run h) Q w → wp (run_bound run (bind_ h : CB)) Q w.
Proof. intros Hwp. unfold run_bound. wp_step. eapply wp_deref; [apply bound_bind|done]. Qed.

(** A loop all of whose callbacks are methods of one class. *)
Definition bound_alone (H : Type) : Bound H H := {| bind_ h := h; bound := Some |}.
Lemma bound_alone_spec (H : Type) : @BoundSpec H H (bound_alone H).
Proof. by split. Qed.

(** ** The contract of a poller

    [synced]: what the poller watches is what the channels ask for;
    [desynced p]: the same, except that the mask of channel [p] has just been
    changed. [registrable]: a descriptor no channel is registered for.
    [watched]: the mask and the channel the poller watches a descriptor for. *)
Class PollerSpec (W CB : Type) `{!Poller W CB} := {
  synced : W → Prop;
  desynced : ptr → W → Prop;
  registrable : W → Z → Prop;
  watched : W → Z → option (Z * ptr);
  channels_of_with m (w : W) : channels_of (with_channels m w) = m;
  desync p c e (w : W) :
    synced w → channels_of w !! p = Some c →
    desynced p (with_channels (<[p := set_events e c]> (channels_of w)) w);
  revents_synced p c r (w : W) :
    synced w → channels_of w !! p = Some c →
    synced (with_channels (<[p := set_revents r c]> (channels_of w)) w);
  registrable_with m (w : W) fd : registrable (with_channels m w) fd ↔ registrable w fd;
  watched_with m (w : W) fd : watched (with_channels m w) fd = watched w fd;
  updateChannel_spec p c (w : W) :
    desynced p w → channels_of w !! p = Some c →
    (index_ c = kNew → registrable w (fd_ c)) →
    wp (updateChannel p) (λ _ w', synced w' ∧
      (∃ i, i ≠ kNew ∧ channels_of w' = <[p := set_index i c]> (channels_of w)) ∧
      ∀ fd, fd ≠ fd_ c →
        watched w' fd = watched w fd ∧ (registrable w fd → registrable w' fd)) w;
  removeChannel_spec p c (w : W) :
    synced w → channels_of w !! p = Some c →
    (index_ c = kNew → registrable w (fd_ c)) →
    wp (removeChannel p) (λ _ w', synced w' ∧
      channels_of w' = <[p := set_index kNew c]> (channels_of w) ∧
      watched w' (fd_ c) = None ∧ registrable w' (fd_ c) ∧
      ∀ fd, fd ≠ fd_ c →
        watched w' fd = watched w fd ∧ (registrable w fd → registrable w' fd)) w;
  synced_watched p c (w : W) :
    synced w → channels_of w !! p = Some c → index_ c ≠ kNew →
    events_ c ≠ kNoneEvent → watched w (fd_ c) = Some (events_ c, p);
  watched_synced fd m p (w : W) :
    synced w → watched w fd = Some (m, p) →
    ∃ c, channels_of w !! p = Some c ∧ fd_ c = fd ∧ events_ c = m ∧ index_ c ≠ kNew;
}.

Section channel_specs.
Context {W CB : Type} `{!Poller W CB, !PollerSpec W CB}.

(** Two channels never have the same descriptor; a channel that is not
    registered can be. *)
Record attached (w : W) : Prop := {
  attached_synced : synced w;
  attached_loop p c : channels_of w !! p = Some c → loop_ c ≠ 0;
  attached_inj p q c c' : channels_of w !! p = Some c → channels_of w !! q = Some c' →
    fd_ c = fd_ c' → p = q;
  attached_new p c : channels_of w !! p = Some c → index_ c = kNew →
    registrable w (fd_ c);
}.

Lemma wp_change_interest r p c (w : W) :
  synced w → channel_at p w = Some c → loop_ c ≠ 0 →
  (index_ c = kNew → registrable w (fd_ c)) →
  wp (change_interest r p) (λ _ w', synced w' ∧
    (∃ i, i ≠ kNew ∧ channels_of w' =
       <[p := set_index i (set_events (new_mask r (events_ c)) c)]> (channels_of w)) ∧
    ∀ fd, fd ≠ fd_ c →
      watched w' fd = watched w fd ∧ (registrable w fd → registrable w' fd)) w.
Proof.
  intros Hs Hc Hloop Hreg. unfold change_interest. wp_step.
  eapply wp_deref; [done|]. wp_step. wp_step. unfold update. wp_step.
  set (c1 := set_events (new_mask r (events_ c)) c).
  assert (channels_of (put_channel p c1 w) !! p = Some c1) as Hc1
    by (unfold put_channel; rewrite channels_of_with; apply lookup_insert_eq).
  eapply wp_deref; [done|].
  apply wp_when; [intros _|simpl; intros Hb; by destruct (Z.eqb_spec (loop_ c) 0)].
  wp_apply (updateChannel_spec p c1); [by apply desync|done| |].
  { intros ?. unfold put_channel. rewrite registrable_with. auto. }
  intros _ w' (Hs' & (i & Hi & Hch) & Hframe). split; [done|]. split.
  - exists i. split; [done|].
    rewrite Hch. unfold put_channel. rewrite channels_of_with. apply insert_insert_eq.
  - intros fd Hfd. destruct (Hframe fd Hfd) as [Hw Hr]. unfold put_channel in *.
    rewrite watched_with in Hw. rewrite registrable_with in Hr. done.
Qed.

Lemma wp_remove p c (w : W) :
  synced w → channel_at p w = Some c → loop_ c ≠ 0 →
  (index_ c = kNew → registrable w (fd_ c)) →
  wp (remove p) (λ _ w', synced w' ∧
    channels_of w' = <[p := set_index kNew c]> (channels_of w) ∧
    watched w' (fd_ c) = None ∧ registrable w' (fd_ c) ∧
    ∀ fd, fd ≠ fd_ c →
      watched w' fd = watched w fd ∧ (registrable w fd → registrable w' fd)) w.
Proof.
  intros Hs Hc Hloop Hreg. unfold remove. wp_step.
  eapply wp_deref; [done|].
  apply wp_when; [intros _|simpl; intros Hb; by destruct (Z.eqb_spec (loop_ c) 0)].
  by apply removeChannel_spec.
Qed.

Lemma attached_insert p c c' (w w' : W) :
  attached w → channels_of w !! p = Some c → synced w' →
  channels_of w' = <[p := c']> (channels_of w) →
  fd_ c' = fd_ c → loop_ c' = loop_ c →
  (index_ c' = kNew → registrable w' (fd_ c)) →
  (∀ fd, fd ≠ fd_ c → registrable w fd → registrable w' fd) → attached w'.
Proof.
  intros [_ Hloop Hinj Hnew] Hc Hs Hch Hfd Hl Hreg Hframe.
  assert (∀ q c2, q ≠ p → channels_of w !! q = Some c2 → fd_ c2 ≠ fd_ c) as Hother
    by naive_solver.
  split; [done|..]; rewrite Hch.
  - intros q c2. rewrite lookup_insert_Some.
    intros [[<- <-]|[? ?]]; [rewrite Hl|]; eauto.
  - intros q1 q2 c1 c2. rewrite !lookup_insert_Some.
    intros [[<- <-]|[? ?]] [[<- <-]|[? ?]] Heq; [done|..|by eapply Hinj].
    + exfalso. eapply Hother; [by apply not_eq_sym|done|congruence].
    + exfalso. eapply Hother; [by apply not_eq_sym|done|congruence].
  - intros q c2. rewrite lookup_insert_Some. intros [[<- <-]|[? ?]] Hidx.
    + rewrite Hfd. auto.
    + apply Hframe; [|by eapply Hnew]. by eapply Hother.
Qed.

(** Storing returned events in a channel. *)
Lemma attached_set_revents p c r (w : W) :
  attached w → channels_of w !! p = Some c → attached (put_channel p (set_revents r c) w).
Proof.
  intros Hatt Hc. pose proof Hatt as [Hs _ _ Hnew]. unfold put_channel.
  eapply (attached_insert p c (set_revents r c)); try done.
  - by apply revents_synced.
  - by rewrite channels_of_with.
  - intros Hidx. rewrite registrable_with. by eapply Hnew.
  - intros fd _. by rewrite registrable_with.
Qed.

(** ** Sequences of requests *)

Inductive request : Type :=
| Change (r : interest_change) (p : ptr)
| Remove (p : ptr).

Definition target (q : request) : ptr :=
  match q with Change _ p | Remove p => p end.

Definition run_request (q : request) : M W unit :=
  match q with Change r p => change_interest r p | Remove p => remove p end.

(** The abstract state of the channels: their masks, and whether they are
    registered. *)
Definition masks (w : W) : gmap ptr (Z * bool) :=
  (λ c, (events_ c, bool_decide (index_ c ≠ kNew))) <$> channels_of w.

Definition spec_request (m : gmap ptr (Z * bool)) (q : request) : gmap ptr (Z * bool) :=
  match q with
  | Change r p => alter (λ x, (new_mask r x.1, true)) p m
  | Remove p => alter (λ x, (x.1, false)) p m
  end.

Lemma masks_insert (w w' : W) p c c' f :
  channels_of w !! p = Some c → channels_of w' = <[p := c']> (channels_of w) →
  (events_ c', bool_decide (index_ c' ≠ kNew)) = f (events_ c, bool_decide (index_ c ≠ kNew)) →
  masks w' = alter f p (masks w).
Proof.
  intros Hc Hch Hf. unfold masks. rewrite Hch, fmap_insert, Hf.
  apply (insert_as_alter f). by rewrite lookup_fmap, Hc.
Qed.

Lemma wp_run_request q (w : W) :
  attached w → is_Some (channels_of w !! target q) →
  wp (run_request q) (λ _ w', attached w' ∧ masks w' = spec_request (masks w) q) w.
Proof.
  intros Hatt [c Hc]. pose proof Hatt as [Hs Hloop _ Hnew].
  destruct q as [r p|p]; simpl in *.
  - wp_apply (wp_change_interest r p c); eauto.
    intros _ w' (Hs' & (i & Hi & Hch) & Hframe). split.
    + eapply (attached_insert p c); try done; naive_solver.
    + eapply masks_insert; [done..|]. simpl. by rewrite bool_decide_eq_true_2.
  - wp_apply (wp_remove p c); eauto.
    intros _ w' (Hs' & Hch & _ & Hreg & Hframe). split.
    + eapply (attached_insert p c); try done; naive_solver.
    + eapply masks_insert; [done..|]. done.
Qed.

Lemma masks_is_Some (w : W) p : is_Some (masks w !! p) ↔ is_Some (channels_of w !! p).
Proof. unfold masks. by rewrite lookup_fmap, fmap_is_Some. Qed.

Lemma spec_request_is_Some m q p : is_Some (spec_request m q !! p) ↔ is_Some (m !! p).
Proof. destruct q; simpl; by rewrite lookup_alter_is_Some. Qed.

(** Any sequence of requests succeeds and does what the masks say. *)
Lemma wp_run_requests qs (w : W) :
  attached w → Forall (λ q, is_Some (channels_of w !! target q)) qs →
  wp (for_each qs run_request) (λ _ w', attached w' ∧
    masks w' = foldl spec_request (masks w) qs) w.
Proof.
  intros Hatt Hlive.
  apply (wp_for_each _ (λ pre w', attached w' ∧ masks w' = foldl spec_request (masks w) pre
    ∧ ∀ p, is_Some (channels_of w' !! p) ↔ is_Some (channels_of w !! p))).
  - done.
  - intros pre q post w' -> (Hatt' & Hm & Hdom).
    apply Forall_app in Hlive as [_ [Hq _]%Forall_cons].
    wp_apply wp_run_request; [done|by apply Hdom|].
    intros _ w'' [Hatt'' Hm'']. rewrite foldl_app, <-Hm. split_and!; [done..|].
    intros p. by rewrite <-masks_is_Some, Hm'', spec_request_is_Some, masks_is_Some, Hdom.
  - naive_solver.
Qed.
End channel_specs.

(** ** The same dispatch in a larger state *)
Section simulation.
Context {W V CB : Type} (at_ : ptr → W → option (Channel CB)) (run : CB → M W unit)
  (at' : ptr → V → option (Channel CB)) (run' : CB → M V unit) (R : V → W → Prop) (p : ptr).

(** When [m'] returns, so does [m], in a related state. *)
Definition simulates (m' : M V unit) (m : M W unit) : Prop :=
  ∀ v w v', R v w → m' v = Ok (tt, v') → ∃ w', m w = Ok (tt, w') ∧ R v' w'.

Context (R_at : ∀ v w, R v w → at_ p w = at' p v) (R_run : ∀ cb, simulates (run' cb) (run cb)).

Lemma simulates_bind m1' m2' m1 m2 :
  simulates m1' m1 → simulates m2' m2 → simulates (m1' ;; m2') (m1 ;; m2).
Proof.
  intros H1 H2 v w v' HR. unfold mbind, M_bind. destruct (m1' v) as [[[] v1]|] eqn:Hm; [|done].
  destruct (H1 v w v1 HR Hm) as (w1 & -> & HR1). by apply H2.
Qed.

Lemma simulates_on_revents test callback :
  simulates (on_revents at' run' test callback p) (on_revents at_ run test callback p).
Proof.
  intros v w v' HR. unfold on_revents, deref, mbind, M_bind. rewrite (R_at v w HR).
  destruct (at' p v) as [c|] eqn:Hc; [|done]. destruct (test (revents_ c)); cbn.
  - unfold fire, deref, mbind, M_bind. rewrite (R_at v w HR), Hc.
    destruct (callback c) as [cb|]; [by apply R_run|]. intros [= <-]. by exists w.
  - intros [= <-]. by exists w.
Qed.

Lemma handleEvent_simulates : simulates (handleEvent at' run' p) (handleEvent at_ run p).
Proof. repeat apply simulates_bind; apply simulates_on_revents. Qed.
End simulation.

(** ** The order of the callbacks *)
Section dispatch_facts.
Context {W CB : Type} (at_ : ptr → W → option (Channel CB)) (run : CB → M W unit).

(** The callbacks that [c] has for [test], if its returned events pass it. *)
Definition on_revents_list (test : Z → bool) (callback : Channel CB → option CB)
    (c : Channel CB) : list CB :=
  if test (revents_ c) then option_list (callback c) else [].

(** The callbacks an event calls, in the order of the calls: close, error,
    read, write. *)
Definition dispatch_list (c : Channel CB) : list CB :=
  on_revents_list (λ r, has EPOLLHUP r && negb (has EPOLLIN r)) closeCallback_ c ++
  on_revents_list (has EPOLLERR) errorCallback_ c ++
  on_revents_list (has (Z.lor EPOLLIN (Z.lor EPOLLPRI EPOLLRDHUP))) readCallback_ c ++
  on_revents_list (has EPOLLOUT) writeCallback_ c.

Definition same_dispatch (c c' : Channel CB) : Prop :=
  revents_ c' = revents_ c ∧ readCallback_ c' = readCallback_ c ∧
  writeCallback_ c' = writeCallback_ c ∧ closeCallback_ c' = closeCallback_ c ∧
  errorCallback_ c' = errorCallback_ c.

(** The callbacks leave the channel alive and do not touch its returned
    events or its callbacks. *)
Definition callbacks_keep (p : ptr) (c : Channel CB) : Prop :=
  ∀ cb w w' c0, at_ p w = Some c0 → same_dispatch c c0 → run cb w = Ok (tt, w') →
    ∃ c1, at_ p w' = Some c1 ∧ same_dispatch c c1.

Context (p : ptr) (c : Channel CB) (Hkeep : callbacks_keep p c).

Definition intact (w : W) : Prop := ∃ c0, at_ p w = Some c0 ∧ same_dispatch c c0.

Lemma for_each_intact l w w' :
  intact w → for_each l run w = Ok (tt, w') → intact w'.
Proof.
  revert w. induction l as [|cb l IH]; intros w Hw; [by intros [= <-]|].
  simpl. unfold mbind, M_bind. destruct (run cb w) as [[[] w1]|] eqn:Hrun; [|done].
  apply IH. destruct Hw as (c0 & ? & ?). by eapply Hkeep.
Qed.

Lemma on_revents_run test callback w :
  (∀ c', same_dispatch c c' → callback c' = callback c) → intact w →
  on_revents at_ run test callback p w = for_each (on_revents_list test callback c) run w.
Proof.
  intros Hcb (c0 & Hc0 & Hs). pose proof Hs as [Hrev _].
  unfold on_revents, on_revents_list, deref, mbind, M_bind. rewrite Hc0, Hrev.
  destruct (test (revents_ c)); [|done]. simpl.
  unfold fire, deref, mbind, M_bind. rewrite Hc0, (Hcb _ Hs).
  destruct (callback c) as [cb|]; [|done]. simpl. unfold mbind, M_bind.
  by destruct (run cb w) as [[[] w']|].
Qed.

Lemma on_revents_then test callback l (m : M W unit) w :
  (∀ c', same_dispatch c c' → callback c' = callback c) → intact w →
  (∀ w', intact w' → m w' = for_each l run w') →
  (on_revents at_ run test callback p ;; m) w =
  for_each (on_revents_list test callback c ++ l) run w.
Proof.
  intros Hcb Hw Hm. rewrite for_each_app. unfold mbind at 1 2, M_bind at 1 2.
  rewrite on_revents_run by done.
  destruct (for_each _ run w) as [[[] w']|] eqn:Hrun; [|done].
  eapply Hm, for_each_intact; done.
Qed.

Lemma handleEvent_list w :
  intact w → handleEvent at_ run p w = for_each (dispatch_list c) run w.
Proof.
  intros Hw. unfold handleEvent, handleEventWithGuard, dispatch_list.
  assert (∀ c', same_dispatch c c' →
    closeCallback_ c' = closeCallback_ c ∧ errorCallback_ c' = errorCallback_ c ∧
    readCallback_ c' = readCallback_ c ∧ writeCallback_ c' = writeCallback_ c) as Hcb
    by (unfold same_dispatch; naive_solver).
  apply on_revents_then; [by apply Hcb|done|]. clear w Hw. intros w Hw.
  apply on_revents_then; [by apply Hcb|done|]. clear w Hw. intros w Hw.
  apply on_revents_then; [by apply Hcb|done|]. clear w Hw. intros w Hw.
  apply on_revents_run; [by apply Hcb|done].
Qed.
End dispatch_facts.

(** C36 (equivalence). Dispatching an event is running, in the order close,
    error, read, write, exactly the callbacks that are set and selected by the
    returned events, and it stops where one of them faults, provided that the
    callbacks leave the channel alive with the same callbacks and returned
    events. In particular a hang-up with unread input goes to the read
    callback and not to the close callback. *)
Theorem handleEvent_order {W CB : Type} (at_ : ptr → W → option (Channel CB))
    (run : CB → M W unit) p c w :
  callbacks_keep at_ run p c → at_ p w = Some c →
  handleEvent at_ run p w = for_each (dispatch_list c) run w.
Proof. intros Hkeep Hc. apply handleEvent_list; [done|]. exists c. by repeat split. Qed.

(** A world with one channel, at address 7, and a trace of the callbacks. *)
Definition trace_world : Type := Channel nat * list nat.
Definition trace_at (p : ptr) (w : trace_world) : option (Channel nat) :=
  if p =? 7 then Some w.1 else None.
Definition trace_run (cb : nat) : M trace_world unit := modify (λ w, (w.1, w.2 ++ [cb])).
Definition trace_channel : Channel nat :=
  MkChannel 1 5 kReadEvent (EPOLLIN + EPOLLERR + EPOLLHUP) 1 (Some 3%nat) (Some 4%nat)
    (Some 1%nat) (Some 2%nat).

Lemma handleEvent_order_witness :
  handleEvent trace_at trace_run 7 (trace_channel, []) =
    for_each (dispatch_list trace_channel) trace_run (trace_channel, []) ∧
  handleEvent trace_at trace_run 7 (trace_channel, []) = Ok (tt, (trace_channel, [2; 3]%nat)).
Proof.
  split; [|vm_compute; reflexivity].
  apply (handleEvent_order trace_at trace_run 7 trace_channel (trace_channel, []));
    [|reflexivity].
  intros cb [c0 l] w' c1 Hc Hs [= <-]. exists c1. done.
Defined.
