(* ===== verification/EPollPoller.v ===== *)
(** * EPollPoller (include/net/Poller.h, include/net/EPollPoller.h,
      src/net/Poller.cc, src/net/EPollPoller.cc)

    The epoll implementation of the poller's interface: the map from
    descriptors to channels, the [index] protocol (new, added, deleted) and the
    result array of [epoll_wait]. The kernel's epoll instance is a parameter,
    a type [K] with the documented behaviour of [epoll_ctl]. *)
From S2P Require Import Prelude Posix Channel.

(** ** The kernel's side *)
Inductive epoll_op : Type := EPOLL_CTL_ADD | EPOLL_CTL_MOD | EPOLL_CTL_DEL.

#[export] Instance epoll_op_eq_dec : EqDecision epoll_op.
Proof. solve_decision. Defined.

(** An epoll instance: [interest] is the mask and the user data of every
    registered descriptor, [pollable] the descriptors that are open and
    support epoll. *)
Class Epoll (K : Type) := {
  epoll_ctl : K → epoll_op → Z → Z → ptr → io_result K;
  interest : K → gmap Z (Z * ptr);
  pollable : K → Z → bool;
}.

(** epoll_ctl(2): adding an open descriptor that is not registered, and
    changing or removing one that is, succeed. *)
Class EpollSpec (K : Type) `{!Epoll K} : Prop := {
  ctl_add k fd ev p :
    pollable k fd = true → interest k !! fd = None →
    ∃ k', epoll_ctl k EPOLL_CTL_ADD fd ev p = IoOk k' ∧
      interest k' = <[fd := (ev, p)]> (interest k) ∧ pollable k' = pollable k;
  ctl_mod k fd ev p r :
    interest k !! fd = Some r →
    ∃ k', epoll_ctl k EPOLL_CTL_MOD fd ev p = IoOk k' ∧
      interest k' = <[fd := (ev, p)]> (interest k) ∧ pollable k' = pollable k;
  ctl_del k fd ev p r :
    interest k !! fd = Some r →
    ∃ k', epoll_ctl k EPOLL_CTL_DEL fd ev p = IoOk k' ∧
      interest k' = delete fd (interest k) ∧ pollable k' = pollable k;
}.

(** ** The class *)

Definition kAdded : Z := 1.
Definition kDeleted : Z := 2.
Definition kInitEventListSize : Z := 16.

(** [struct epoll_event] *)
Abbreviation epoll_event := (Z * ptr)%type.

Definition operationToString (operation : epoll_op) : string :=
  match operation with
  | EPOLL_CTL_ADD => "ADD"
  | EPOLL_CTL_DEL => "DEL"
  | EPOLL_CTL_MOD => "MOD"
  end.

Section poller.
Context {K CB : Type} `{!Epoll K}.

(** The poller, the channel objects of its loop and the messages logged. *)
Record PollWorld : Type := MkPollWorld {
  pw_channels : gmap ptr (Channel CB);
  channels_ : gmap Z ptr;
  epollfd_ : K;
  events_list : list epoll_event;
  pw_log : list string;
}.

Definition set_pw_channels m (w : PollWorld) : PollWorld :=
  MkPollWorld m (channels_ w) (epollfd_ w) (events_list w) (pw_log w).
Definition set_channels_ m (w : PollWorld) : PollWorld :=
  MkPollWorld (pw_channels w) m (epollfd_ w) (events_list w) (pw_log w).
Definition set_epollfd k (w : PollWorld) : PollWorld :=
  MkPollWorld (pw_channels w) (channels_ w) k (events_list w) (pw_log w).
Definition set_events_list l (w : PollWorld) : PollWorld :=
  MkPollWorld (pw_channels w) (channels_ w) (epollfd_ w) l (pw_log w).
Definition log_message (s : string) (w : PollWorld) : PollWorld :=
  MkPollWorld (pw_channels w) (channels_ w) (epollfd_ w) (events_list w) (pw_log w ++ [s]).

(** The constructor, given the result of [epoll_create1]. *)
Definition new_EPollPoller (created : io_result K) : outcome PollWorld :=
  match created with
  | IoOk k => Ok (MkPollWorld ∅ ∅ k
                    (replicate (Z.to_nat kInitEventListSize) (0, 0)) [])
  | IoErr _ => Fault AbortFatal
  end.

Definition pw_at (p : ptr) (w : PollWorld) : option (Channel CB) := pw_channels w !! p.
Definition pw_put (p : ptr) (c : Channel CB) (w : PollWorld) : PollWorld :=
  set_pw_channels (<[p := c]> (pw_channels w)) w.

(** [Poller::hasChannel] *)
Definition hasChannel (channel : ptr) : M PollWorld bool :=
  c ← deref (pw_at channel);
  m ← gets channels_;
  mret (match m !! fd_ c with
        | Some p => bool_decide (p = channel)
        | None => false
        end).

(** [EPollPoller::update] *)
Definition epoll_update (operation : epoll_op) (channel : ptr) : M PollWorld unit :=
  c ← deref (pw_at channel);
  k ← gets epollfd_;
  match epoll_ctl k operation (fd_ c) (events_ c) channel with
  | IoOk k' => modify (set_epollfd k')
  | IoErr _ =>
      let message := "epoll_ctl " +:+ operationToString operation +:+ " fd "
                     +:+ pretty (fd_ c) in
      if decide (operation = EPOLL_CTL_DEL)
      then modify (log_message message)
      else raise AbortFatal
  end.

Definition pw_set_index (channel : ptr) (i : Z) : M PollWorld unit :=
  c ← deref (pw_at channel);
  modify (pw_put channel (set_index i c)).

Definition epoll_updateChannel (channel : ptr) : M PollWorld unit :=
  c ← deref (pw_at channel);
  let index := index_ c in
  let fd := fd_ c in
  if (index =? kNew) || (index =? kDeleted)
  then
    when (index =? kNew) (modify (λ w, set_channels_ (<[fd := channel]> (channels_ w)) w)) ;;
    epoll_update EPOLL_CTL_ADD channel ;;
    pw_set_index channel kAdded
  else
    when (index =? kAdded)
      (if isNoneEvent c
       then epoll_update EPOLL_CTL_DEL channel ;; pw_set_index channel kDeleted
       else epoll_update EPOLL_CTL_MOD channel).

Definition epoll_removeChannel (channel : ptr) : M PollWorld unit :=
  c ← deref (pw_at channel);
  modify (λ w, set_channels_ (delete (fd_ c) (channels_ w)) w) ;;
  when (index_ c =? kAdded) (epoll_update EPOLL_CTL_DEL channel) ;;
  pw_set_index channel kNew.

#[export] Instance EPollPoller : Poller PollWorld CB := {|
  channels_of := pw_channels;
  with_channels := set_pw_channels;
  updateChannel := epoll_updateChannel;
  removeChannel := epoll_removeChannel;
|}.

(** [fillActiveChannels]: stores the returned events in the channels and
    collects these, in the order of the array. *)
Fixpoint fill_from (i n : nat) (active : list ptr) : M PollWorld (list ptr) :=
  match n with
  | O => mret active
  | S n' =>
      e ← deref (λ w, events_list w !! i);
      c ← deref (pw_at e.2);
      modify (pw_put e.2 (set_revents e.1 c)) ;;
      fill_from (S i) n' (active ++ [e.2])
  end.
Definition fillActiveChannels (numEvents : Z) (activeChannels : list ptr)
    : M PollWorld (list ptr) :=
  fill_from 0 (Z.to_nat numEvents) activeChannels.

(** [poll]: [epoll_wait], given the size of the array, returns the events it
    stored at the front of the array. *)
Definition poll (epoll_wait : Z → io_result (list epoll_event)) (activeChannels : list ptr)
    : M PollWorld (list ptr) :=
  maxevents ← gets (λ w, zlen (events_list w));
  match epoll_wait maxevents with
  | IoOk evs =>
      let numEvents := zlen evs in
      modify (λ w, set_events_list (evs ++ drop (length evs) (events_list w)) w) ;;
      if 0 <? numEvents
      then
        active ← fillActiveChannels numEvents activeChannels;
        size ← gets (λ w, zlen (events_list w));
        when (numEvents =? size)
          (modify (λ w, set_events_list
             (events_list w ++ replicate (length (events_list w)) (0, 0)) w)) ;;
        mret active
      else
        modify (log_message "epoll_wait timeout") ;; mret activeChannels
  | IoErr errno =>
      when (negb (errno =? EINTR)) (modify (log_message "epoll_wait failed")) ;;
      mret activeChannels
  end.
End poller.
Arguments PollWorld K CB : clear implicits.

(** ** Consistency of the poller with the kernel *)
Section proofs.
Context {K CB : Type} `{!Epoll K, !EpollSpec K}.
Abbreviation PW := (PollWorld K CB).
Implicit Types (w : PW) (c : Channel CB).

(** The index of every channel says how it is registered; with [d = Some p]
    the mask of [p] may differ from the one the kernel has. *)
Record consistent (d : option ptr) (w : PW) : Prop := {
  co_index p c : pw_channels w !! p = Some c →
    index_ c = kNew ∨ index_ c = kAdded ∨ index_ c = kDeleted;
  co_added p c : pw_channels w !! p = Some c → index_ c = kAdded →
    channels_ w !! fd_ c = Some p ∧
    ∃ m, interest (epollfd_ w) !! fd_ c = Some (m, p) ∧ (d ≠ Some p → m = events_ c);
  co_deleted p c : pw_channels w !! p = Some c → index_ c = kDeleted →
    channels_ w !! fd_ c = Some p ∧ interest (epollfd_ w) !! fd_ c = None ∧
    (d ≠ Some p → events_ c = kNoneEvent);
  co_map fd p : channels_ w !! fd = Some p →
    pollable (epollfd_ w) fd = true ∧
    ∃ c, pw_channels w !! p = Some c ∧ fd_ c = fd ∧ index_ c ≠ kNew;
  co_interest fd m p : interest (epollfd_ w) !! fd = Some (m, p) →
    channels_ w !! fd = Some p;
}.

Definition pw_registrable (w : PW) (fd : Z) : Prop :=
  channels_ w !! fd = None ∧ pollable (epollfd_ w) fd = true.

(** The registration of channel [p] in the state [i]. *)
Definition registered (i : Z) (p : ptr) (c : Channel CB) (w : PW) : Prop :=
  (i = kAdded ∧ channels_ w !! fd_ c = Some p ∧ pollable (epollfd_ w) (fd_ c) = true ∧
     interest (epollfd_ w) !! fd_ c = Some (events_ c, p)) ∨
  (i = kDeleted ∧ channels_ w !! fd_ c = Some p ∧ pollable (epollfd_ w) (fd_ c) = true ∧
     interest (epollfd_ w) !! fd_ c = None ∧ events_ c = kNoneEvent) ∨
  (i = kNew ∧ channels_ w !! fd_ c = None ∧ interest (epollfd_ w) !! fd_ c = None).

(** Moving one channel to another registration state keeps the rest. *)
Lemma consistent_reindex d w w' p c i :
  consistent d w → d = None ∨ d = Some p → pw_channels w !! p = Some c →
  (∀ q, channels_ w !! fd_ c = Some q → q = p) →
  pw_channels w' = <[p := set_index i c]> (pw_channels w) →
  (∀ fd, fd ≠ fd_ c → channels_ w' !! fd = channels_ w !! fd ∧
     interest (epollfd_ w') !! fd = interest (epollfd_ w) !! fd) →
  pollable (epollfd_ w') = pollable (epollfd_ w) →
  registered i p c w' → consistent None w'.
Proof.
  intros [Hi Ha Hd Hm Hint] Hdp Hc Hown Hch Hframe Hpoll Hreg.
  assert (∀ q, q ≠ p → d ≠ Some q) as Hdq by (destruct Hdp; naive_solver).
  assert (∀ q c', q ≠ p → pw_channels w !! q = Some c' → index_ c' ≠ kNew →
    fd_ c' ≠ fd_ c) as Hother.
  { intros q c' Hq Hc' Hnew Heq. apply Hq, Hown. rewrite <-Heq.
    destruct (Hi _ _ Hc') as [?|[?|?]]; [done|by eapply Ha|by eapply Hd]. }
  assert (kNew ≠ kAdded ∧ kNew ≠ kDeleted ∧ kAdded ≠ kDeleted) as (?&?&?) by done.
  split; rewrite ?Hch, ?Hpoll.
  - intros q c'. rewrite lookup_insert_Some. intros [[<- <-]|[? ?]]; [|eauto].
    unfold registered in Hreg. simpl. naive_solver.
  - intros q c'. rewrite lookup_insert_Some. intros [[<- <-]|[Hq Hc']] Hidx; simpl in *.
    + unfold registered in Hreg. naive_solver.
    + destruct (Hframe (fd_ c')) as [-> ->]; [by eapply Hother; eauto; congruence|].
      destruct (Ha _ _ Hc' Hidx) as (? & m & ? & ?). naive_solver.
  - intros q c'. rewrite lookup_insert_Some. intros [[<- <-]|[Hq Hc']] Hidx; simpl in *.
    + unfold registered in Hreg. naive_solver.
    + destruct (Hframe (fd_ c')) as [-> ->]; [by eapply Hother; eauto; congruence|].
      destruct (Hd _ _ Hc' Hidx) as (? & ? & ?). naive_solver.
  - intros fd q Hq. destruct (decide (fd = fd_ c)) as [->|Hfd].
    + unfold registered in Hreg. rewrite Hpoll in Hreg.
      assert (q = p) as -> by naive_solver. split; [naive_solver|].
      eexists; split; [apply lookup_insert_eq|]. simpl. naive_solver.
    + rewrite (proj1 (Hframe fd Hfd)) in Hq. destruct (Hm _ _ Hq) as (? & c' & ? & ? & ?).
      split; [done|]. exists c'. rewrite lookup_insert_ne; [done|]. naive_solver.
  - intros fd m q Hq. destruct (decide (fd = fd_ c)) as [->|Hfd].
    + unfold registered in Hreg. naive_solver.
    + destruct (Hframe fd Hfd) as [-> Hw]. rewrite Hw in Hq. eauto.
Qed.

(** A successful [epoll_ctl], followed by the new index. *)
Lemma wp_epoll_update op p c k' (w : PW) :
  pw_at p w = Some c → epoll_ctl (epollfd_ w) op (fd_ c) (events_ c) p = IoOk k' →
  wp (epoll_update op p) (λ _ w', w' = set_epollfd k' w) w.
Proof.
  intros Hc Hctl. unfold epoll_update. wp_step. eapply wp_deref; [done|].
  wp_step. wp_step. rewrite Hctl. by wp_step.
Qed.

Lemma wp_pw_set_index p c i (w : PW) :
  pw_at p w = Some c → wp (pw_set_index p i) (λ _ w', w' = pw_put p (set_index i c) w) w.
Proof.
  intros Hc. unfold pw_set_index. wp_step. eapply wp_deref; [done|]. by wp_step.
Qed.

Lemma wp_ctl_index op p c k' i (w : PW) :
  pw_at p w = Some c → epoll_ctl (epollfd_ w) op (fd_ c) (events_ c) p = IoOk k' →
  wp (epoll_update op p ;; pw_set_index p i)
    (λ _ w', w' = pw_put p (set_index i c) (set_epollfd k' w)) w.
Proof.
  intros Hc Hctl. wp_step. wp_apply (wp_epoll_update _ _ c k'); [done..|].
  intros _ w' ->. by apply wp_pw_set_index.
Qed.

(** The owner of a channel's descriptor. *)
Lemma consistent_owner d w p c :
  consistent d w → pw_channels w !! p = Some c →
  (index_ c = kNew → channels_ w !! fd_ c = None) →
  ∀ q, channels_ w !! fd_ c = Some q → q = p.
Proof.
  intros [Hi Ha Hd Hm Hint] Hc Hnew q Hq.
  destruct (Hi _ _ Hc) as [?|[?|?]]; [naive_solver| |].
  - destruct (Ha _ _ Hc) as [? _]; [done|congruence].
  - destruct (Hd _ _ Hc) as [? _]; [done|congruence].
Qed.

(** What a change of the registration of one descriptor leaves alone. *)
Definition only_fd (fd : Z) (w w' : PW) : Prop :=
  (∀ fd', fd' ≠ fd → channels_ w' !! fd' = channels_ w !! fd' ∧
    interest (epollfd_ w') !! fd' = interest (epollfd_ w) !! fd') ∧
  pollable (epollfd_ w') = pollable (epollfd_ w).

(** The outcome of a change of the registration of [p]. *)
Definition reregistered (p : ptr) (c : Channel CB) (i : Z) (w w' : PW) : Prop :=
  consistent None w' ∧ only_fd (fd_ c) w w' ∧
  pw_channels w' = <[p := set_index i c]> (pw_channels w).

Lemma reindexed d w m k' p c i :
  consistent d w → d = None ∨ d = Some p → pw_channels w !! p = Some c →
  (∀ q, channels_ w !! fd_ c = Some q → q = p) →
  (∀ fd, fd ≠ fd_ c → m !! fd = channels_ w !! fd ∧
     interest k' !! fd = interest (epollfd_ w) !! fd) →
  pollable k' = pollable (epollfd_ w) →
  let w' := pw_put p (set_index i c) (set_epollfd k' (set_channels_ m w)) in
  registered i p c w' → reregistered p c i w w'.
Proof.
  intros Hcons Hd Hc Hown Hm Hp w' Hreg. split; [|done].
  by eapply (consistent_reindex d w w' p c i).
Qed.

Lemma set_channels_same w : set_channels_ (channels_ w) w = w.
Proof. by destruct w. Qed.

Lemma pw_put_same p c w : pw_channels w !! p = Some c → pw_put p (set_index (index_ c) c) w = w.
Proof.
  intros Hc. destruct w, c. unfold pw_put, set_pw_channels, set_index in *; simpl in *.
  by rewrite insert_id.
Qed.

(** The three registration changes of [updateChannel]. *)
Lemma wp_add p c m w :
  consistent (Some p) w → pw_channels w !! p = Some c →
  (∀ q, channels_ w !! fd_ c = Some q → q = p) →
  interest (epollfd_ w) !! fd_ c = None → pollable (epollfd_ w) (fd_ c) = true →
  m !! fd_ c = Some p → (∀ fd, fd ≠ fd_ c → m !! fd = channels_ w !! fd) →
  wp (epoll_update EPOLL_CTL_ADD p ;; pw_set_index p kAdded)
    (λ _ w', reregistered p c kAdded w w') (set_channels_ m w).
Proof.
  intros Hcons Hc Hown Hnot Hpoll Hmp Hm.
  destruct (ctl_add _ _ (events_ c) p Hpoll Hnot) as (k' & Hctl & Hi' & Hp').
  wp_apply (wp_ctl_index _ _ c k'); [done..|]. intros _ w' ->.
  eapply reindexed; [done|by right|done..| |done|].
  - intros fd ?. by rewrite Hi', lookup_insert_ne, Hm.
  - left. simpl. by rewrite Hi', Hp', lookup_insert_eq.
Qed.

Lemma wp_del p c w :
  consistent (Some p) w → pw_channels w !! p = Some c →
  index_ c = kAdded → events_ c = kNoneEvent →
  wp (epoll_update EPOLL_CTL_DEL p ;; pw_set_index p kDeleted)
    (λ _ w', reregistered p c kDeleted w w') w.
Proof.
  intros Hcons Hc Hidx Hev. pose proof (co_added _ _ Hcons _ _ Hc Hidx) as (Hown & m & Hm & _).
  destruct (ctl_del _ _ (events_ c) p _ Hm) as (k' & Hctl & Hi' & Hp').
  wp_apply (wp_ctl_index _ _ c k'); [done..|]. intros _ w' ->.
  rewrite <-(set_channels_same w) at 2.
  eapply reindexed; [done|by right|done|congruence| |done|].
  - intros fd ?. by rewrite Hi', lookup_delete_ne.
  - right; left. simpl. rewrite Hi', Hp', lookup_delete_eq.
    split_and!; try done. by eapply co_map.
Qed.

Lemma wp_mod p c w :
  consistent (Some p) w → pw_channels w !! p = Some c → index_ c = kAdded →
  wp (epoll_update EPOLL_CTL_MOD p) (λ _ w', reregistered p c kAdded w w') w.
Proof.
  intros Hcons Hc Hidx. pose proof (co_added _ _ Hcons _ _ Hc Hidx) as (Hown & m & Hm & _).
  destruct (ctl_mod _ _ (events_ c) p _ Hm) as (k' & Hctl & Hi' & Hp').
  wp_apply (wp_epoll_update _ _ c k'); [done..|]. intros _ w' ->.
  rewrite <-(pw_put_same p c (set_epollfd k' w)) by done. rewrite Hidx.
  rewrite <-(set_channels_same w) at 2.
  eapply reindexed; [done|by right|done|congruence| |done|].
  - intros fd ?. by rewrite Hi', lookup_insert_ne.
  - left. simpl. rewrite Hi', Hp', lookup_insert_eq.
    split_and!; try done. by eapply co_map.
Qed.

(** The index after [updateChannel]: an added channel that wants no event
    any more is deleted, every other one is added. *)
Definition updated_index (c : Channel CB) : Z :=
  if (index_ c =? kAdded) && isNoneEvent c then kDeleted else kAdded.

Lemma wp_epoll_updateChannel p c w :
  consistent (Some p) w → pw_channels w !! p = Some c →
  (index_ c = kNew → pw_registrable w (fd_ c)) →
  wp (epoll_updateChannel p) (λ _ w', reregistered p c (updated_index c) w w') w.
Proof.
  intros Hcons Hc Hreg.
  pose proof (consistent_owner _ _ _ _ Hcons Hc (λ H, proj1 (Hreg H))) as Hown.
  unfold epoll_updateChannel, updated_index. wp_step. eapply wp_deref; [done|].
  destruct (co_index _ _ Hcons _ _ Hc) as [Hidx|[Hidx|Hidx]]; rewrite Hidx; simpl.
  - destruct (Hreg Hidx) as [Hnone Hpoll]. wp_step. wp_step.
    apply (wp_add p c); [done..| |done|apply lookup_insert_eq|].
    + destruct (interest (epollfd_ w) !! fd_ c) as [[m q]|] eqn:Hq; [|done].
      apply (co_interest _ _ Hcons) in Hq. congruence.
    + intros fd ?. by rewrite lookup_insert_ne.
  - destruct (isNoneEvent c) eqn:Hnone.
    + apply wp_del; auto. by apply Z.eqb_eq.
    + by apply wp_mod.
  - destruct (co_deleted _ _ Hcons _ _ Hc Hidx) as (Hown' & Hnot & _).
    wp_step. wp_step. pose proof (wp_add p c (channels_ w) w) as Hadd.
    rewrite set_channels_same in Hadd. apply Hadd; auto. by eapply co_map.
Qed.

Lemma wp_epoll_removeChannel p c w :
  consistent None w → pw_channels w !! p = Some c →
  (index_ c = kNew → pw_registrable w (fd_ c)) →
  wp (epoll_removeChannel p) (λ _ w', reregistered p c kNew w w' ∧
    pw_registrable w' (fd_ c) ∧ interest (epollfd_ w') !! fd_ c = None) w.
Proof.
  intros Hcons Hc Hreg.
  pose proof (consistent_owner _ _ _ _ Hcons Hc (λ H, proj1 (Hreg H))) as Hown.
  assert (pollable (epollfd_ w) (fd_ c) = true) as Hpoll.
  { destruct (co_index _ _ Hcons _ _ Hc) as [Hidx|[Hidx|Hidx]]; [by apply Hreg| |].
    - destruct (co_added _ _ Hcons _ _ Hc Hidx) as [? _]. by eapply co_map.
    - destruct (co_deleted _ _ Hcons _ _ Hc Hidx) as [? _]. by eapply co_map. }
  assert (∀ k', pollable k' = pollable (epollfd_ w) → interest k' !! fd_ c = None →
    (∀ fd, fd ≠ fd_ c → interest k' !! fd = interest (epollfd_ w) !! fd) →
    let w' := pw_put p (set_index kNew c)
                (set_epollfd k' (set_channels_ (delete (fd_ c) (channels_ w)) w)) in
    reregistered p c kNew w w' ∧ pw_registrable w' (fd_ c) ∧
    interest (epollfd_ w') !! fd_ c = None) as Hdone.
  { intros k' Hp Hnone Hframe w'. split; [|by repeat split; simpl; rewrite ?Hp, ?lookup_delete_eq].
    eapply reindexed; [done|by left|done..| |done|].
    - intros fd ?. by rewrite lookup_delete_ne, Hframe.
    - right; right. simpl. by rewrite lookup_delete_eq. }
  unfold epoll_removeChannel. wp_step. eapply wp_deref; [done|]. wp_step. wp_step. wp_step.
  apply wp_when; intros Hidx.
  - apply Z.eqb_eq in Hidx.
    destruct (co_added _ _ Hcons _ _ Hc Hidx) as (_ & m & Hm & _).
    destruct (ctl_del _ _ (events_ c) p _ Hm) as (k' & Hctl & Hi' & Hp').
    wp_apply (wp_epoll_update _ _ c k'); [done..|]. intros _ w' ->.
    wp_apply (wp_pw_set_index _ c); [done|]. intros _ w' ->.
    apply Hdone; [done|by rewrite Hi', lookup_delete_eq|].
    intros. by rewrite Hi', lookup_delete_ne.
  - wp_apply (wp_pw_set_index _ c); [done|]. intros _ w' ->.
    apply (Hdone (epollfd_ w)); [done| |done]. apply Z.eqb_neq in Hidx.
    destruct (interest (epollfd_ w) !! fd_ c) as [[m q]|] eqn:Hq; [|done].
    pose proof (co_interest _ _ Hcons _ _ _ Hq) as Hq'.
    destruct (co_map _ _ Hcons _ _ Hq') as (_ & c' & Hc' & _ & Hnew).
    rewrite (Hown _ Hq') in *. assert (c' = c) as -> by congruence.
    destruct (co_index _ _ Hcons _ _ Hc) as [?|[?|Hdel]]; [done..|].
    destruct (co_deleted _ _ Hcons _ _ Hc Hdel) as (_ & ? & _). congruence.
Qed.

Lemma consistent_desync p c e w :
  consistent None w → pw_channels w !! p = Some c →
  consistent (Some p) (set_pw_channels (<[p := set_events e c]> (pw_channels w)) w).
Proof.
  intros [Hi Ha Hd Hm Hint] Hc.
  split; simpl; [| | | |done]; try intros q c'; rewrite ?lookup_insert_Some.
  - intros [[<- <-]|[? ?]]; simpl; eauto.
  - intros [[<- <-]|[? ?]] Hidx; simpl in *.
    + destruct (Ha _ _ Hc Hidx) as (? & m & ? & _). naive_solver.
    + destruct (Ha q c') as (? & m & ? & ?); naive_solver.
  - intros [[<- <-]|[? ?]] Hidx; simpl in *.
    + destruct (Hd _ _ Hc Hidx) as (? & ? & _). naive_solver.
    + destruct (Hd q c') as (? & ? & ?); naive_solver.
  - intros Hq. destruct (Hm _ _ Hq) as (? & c2 & Hc2 & ? & ?). split; [done|].
    destruct (decide (c' = p)) as [->|Hne].
    + eexists; split; [apply lookup_insert_eq|]. simpl. naive_solver.
    + exists c2. by rewrite lookup_insert_ne.
Qed.

Lemma consistent_watched p c w :
  consistent None w → pw_channels w !! p = Some c → index_ c ≠ kNew →
  events_ c ≠ kNoneEvent → interest (epollfd_ w) !! fd_ c = Some (events_ c, p).
Proof.
  intros [Hi Ha Hd Hm Hint] Hc Hnew Hev.
  destruct (Hi _ _ Hc) as [?|[Hidx|Hidx]]; [done| |].
  - destruct (Ha _ _ Hc Hidx) as (_ & m & ? & <-); done.
  - destruct (Hd _ _ Hc Hidx) as (_ & _ & ?). naive_solver.
Qed.

Lemma consistent_entry fd m p w :
  consistent None w → interest (epollfd_ w) !! fd = Some (m, p) →
  ∃ c, pw_channels w !! p = Some c ∧ fd_ c = fd ∧ events_ c = m ∧ index_ c ≠ kNew.
Proof.
  intros [Hi Ha Hd Hm Hint] Hfd. pose proof (Hint _ _ _ Hfd) as Hq.
  destruct (Hm _ _ Hq) as (_ & c & Hc & Hfdc & Hnew). exists c. subst fd.
  destruct (Hi _ _ Hc) as [?|[Hidx|Hidx]]; [done| |].
  - destruct (Ha _ _ Hc Hidx) as (_ & m' & ? & <-); naive_solver.
  - destruct (Hd _ _ Hc Hidx) as (_ & ? & _). congruence.
Qed.

Lemma only_fd_frame fd w w' fd' :
  only_fd fd w w' → fd' ≠ fd →
  interest (epollfd_ w') !! fd' = interest (epollfd_ w) !! fd' ∧
  (pw_registrable w fd' → pw_registrable w' fd').
Proof.
  intros [Hf Hp] Hfd. destruct (Hf fd' Hfd) as [Hc Hi].
  unfold pw_registrable. by rewrite Hc, Hi, Hp.
Qed.

Lemma consistent_revents r p w :
  consistent None w → consistent None (set_pw_channels (alter (set_revents r) p (pw_channels w)) w).
Proof.
  intros [Hi Ha Hd Hm Hint]. split; simpl; [| | | |done].
  - intros q c. rewrite lookup_alter_Some. naive_solver.
  - intros q c. rewrite lookup_alter_Some. intros [(<- & c' & Hc & ->)|[? ?]]; simpl; eauto.
  - intros q c. rewrite lookup_alter_Some. intros [(<- & c' & Hc & ->)|[? ?]]; simpl; eauto.
  - intros fd q Hq. destruct (Hm _ _ Hq) as (? & c & Hc & ? & ?). split; [done|].
    destruct (decide (p = q)) as [->|Hne].
    + exists (set_revents r c). by rewrite lookup_alter_eq, Hc.
    + exists c. by rewrite lookup_alter_ne.
Qed.

(** The epoll poller keeps the contract of the interface. *)
#[export] Program Instance EPollPoller_spec : PollerSpec PW CB := {|
  synced := consistent None;
  desynced p := consistent (Some p);
  registrable := pw_registrable;
  watched w fd := interest (epollfd_ w) !! fd;
|}.
Next Obligation. done. Qed.
Next Obligation. intros. by apply consistent_desync. Qed.
Next Obligation.
  intros p c r w Hs Hc. unfold channels_of, with_channels, EPollPoller in *.
  rewrite (insert_as_alter (set_revents r) p c) by done. by apply consistent_revents.
Qed.
Next Obligation. done. Qed.
Next Obligation. done. Qed.
Next Obligation.
  intros p c w Hd Hc Hr. wp_apply (wp_epoll_updateChannel p c); [done..|].
  intros _ w' (Hcons & Hfd & Hch). split_and!; [done| |by intros; eapply only_fd_frame].
  exists (updated_index c). split; [|done]. unfold updated_index. by case_match.
Qed.
Next Obligation.
  intros p c w Hd Hc Hr. wp_apply (wp_epoll_removeChannel p c); [done..|].
  intros _ w' ((Hcons & Hfd & Hch) & Hreg & Hnone).
  split_and!; [done..|]. by intros; eapply only_fd_frame.
Qed.
Next Obligation. intros. by apply consistent_watched. Qed.
Next Obligation. intros. by eapply consistent_entry. Qed.

(** ** poll *)

(** Storing the returned events in the channels. *)
Definition apply_revents (evs : list epoll_event) (m : gmap ptr (Channel CB))
    : gmap ptr (Channel CB) :=
  foldl (λ m e, alter (set_revents e.1) e.2 m) m evs.

Lemma wp_fill_from n i active w :
  (∀ j, (i ≤ j < i + n)%nat → ∃ e, events_list w !! j = Some e ∧
     is_Some (pw_channels w !! e.2)) →
  wp (fill_from i n active) (λ res w',
    res = active ++ (take n (drop i (events_list w))).*2 ∧
    w' = set_pw_channels (apply_revents (take n (drop i (events_list w)))
                            (pw_channels w)) w) w.
Proof.
  revert i active w. induction n as [|n IH]; intros i active w Hlive; simpl.
  { wp_step. split; [by rewrite app_nil_r|]. by destruct w. }
  destruct (Hlive i) as (e & He & c & Hc); [lia|].
  wp_step. eapply wp_deref; [done|]. wp_step. eapply wp_deref; [done|].
  wp_step. wp_step. rewrite (drop_S _ _ _ He). simpl.
  wp_apply IH.
  - intros j Hj. destruct (Hlive j) as (e' & He' & Hlive'); [lia|].
    exists e'. split; [done|]. simpl. rewrite lookup_insert_is_Some'. by right.
  - intros res w' [-> ->]. simpl. split; [by rewrite <-app_assoc|].
    unfold pw_put, set_pw_channels; simpl. by rewrite (insert_as_alter _ _ c).
Qed.

Lemma consistent_apply_revents evs w :
  consistent None w →
  consistent None (set_pw_channels (apply_revents evs (pw_channels w)) w).
Proof.
  revert w. induction evs as [|e evs IH]; intros w Hcons; [by destruct w|].
  by apply (IH (set_pw_channels (alter (set_revents e.1) e.2 (pw_channels w)) w)),
    consistent_revents.
Qed.

Lemma lookup_apply_revents_ne evs m p :
  p ∉ evs.*2 → apply_revents evs m !! p = m !! p.
Proof.
  revert m. induction evs as [|e evs IH]; intros m Hp; [done|].
  simpl in Hp. apply not_elem_of_cons in Hp as [Hne Hp].
  unfold apply_revents in *. simpl. by rewrite IH, lookup_alter_ne.
Qed.

Lemma lookup_apply_revents evs m e c :
  NoDup (evs.*2) → e ∈ evs → m !! e.2 = Some c →
  apply_revents evs m !! e.2 = Some (set_revents e.1 c).
Proof.
  revert m. induction evs as [|e' evs IH]; intros m Hnd He Hc; simpl in Hnd.
  { by apply elem_of_nil in He. }
  apply NoDup_cons in Hnd as [Hnot Hnd]. apply elem_of_cons in He as [<-|He].
  - change (apply_revents evs (alter (set_revents e.1) e.2 m) !! e.2
            = Some (set_revents e.1 c)).
    by rewrite lookup_apply_revents_ne, lookup_alter_eq, Hc.
  - apply (IH (alter (set_revents e'.1) e'.2 m)); [done..|].
    rewrite lookup_alter_ne; [done|]. intros Heq. apply Hnot. rewrite Heq.
    by apply list_elem_of_fmap_2.
Qed.

(** What [epoll_wait] is documented to return: events for registered
    descriptors, at most as many as the array holds. *)
Definition wait_ok (w : PW) (epoll_wait : Z → io_result (list epoll_event)) : Prop :=
  ∀ n evs, 0 ≤ n → epoll_wait n = IoOk evs → zlen evs ≤ n ∧
    ∀ e, e ∈ evs → ∃ fd m, interest (epollfd_ w) !! fd = Some (m, e.2).

Lemma wait_ok_live w epoll_wait n evs e :
  consistent None w → wait_ok w epoll_wait → 0 ≤ n → epoll_wait n = IoOk evs → e ∈ evs →
  is_Some (pw_channels w !! e.2).
Proof.
  intros Hcons Hok Hn Hevs He. destruct (Hok n evs Hn Hevs) as [_ Hreg].
  destruct (Hreg e He) as (fd & m & Hint). apply (co_interest _ _ Hcons) in Hint.
  apply (co_map _ _ Hcons) in Hint as (_ & c & ? & _). eauto.
Qed.

(** The world after [poll] has stored the events [evs]. *)
Definition polled (evs : list epoll_event) (w : PW) : PW :=
  let l := evs ++ drop (length evs) (events_list w) in
  set_pw_channels (apply_revents evs (pw_channels w))
    (set_events_list
       (if bool_decide (zlen evs = zlen (events_list w))
        then l ++ replicate (length l) (0, 0) else l) w).

Lemma wp_poll_events epoll_wait active evs w :
  consistent None w → wait_ok w epoll_wait → evs ≠ [] →
  epoll_wait (zlen (events_list w)) = IoOk evs →
  wp (poll epoll_wait active) (λ res w', res = active ++ evs.*2 ∧ w' = polled evs w) w.
Proof.
  intros Hcons Hok Hne Hevs. unfold poll. wp_step. wp_step. rewrite Hevs.
  destruct (Hok _ _ (Nat2Z.is_nonneg _) Hevs) as [Hlen _].
  wp_step. wp_step. set (w1 := set_events_list _ w).
  assert (length (events_list w1) = length (events_list w)) as Hl1
    by (simpl; rewrite length_app, length_drop; lia).
  assert (length evs ≠ 0)%nat by by destruct evs.
  wp_step; [|lia]. wp_step.
  unfold fillActiveChannels. rewrite Nat2Z.id.
  wp_apply (wp_fill_from _ _ _ w1).
  { intros j [_ Hj]. destruct (lookup_lt_is_Some_2 evs j) as [e He]; [lia|].
    exists e. simpl. rewrite lookup_app_l by lia. split; [done|].
    eapply (wait_ok_live _ _ _ _ e Hcons Hok (Nat2Z.is_nonneg _) Hevs).
    apply list_elem_of_lookup. eauto. }
  intros res w2 [-> ->]. simpl. rewrite drop_0, take_app_length.
  wp_step. wp_step. wp_step. subst w1. simpl in *. unfold polled.
  apply wp_when; simpl; rewrite Hl1; intros Hfull; wp_steps; (split; [done|]).
  - apply Z.eqb_eq in Hfull. rewrite bool_decide_eq_true_2 by done. simpl. by rewrite Hl1.
  - apply Z.eqb_neq in Hfull. by rewrite bool_decide_eq_false_2.
Qed.
End proofs.

(** ** A concrete kernel

    The epoll instance as a finite map, with the documented errors EEXIST,
    ENOENT and EBADF; it meets the specification. *)
Record kernel : Type := MkKernel { k_interest : gmap Z (Z * ptr); k_open : gset Z }.

#[export] Instance kernel_epoll : Epoll kernel := {|
  epoll_ctl k op fd ev p :=
    let k' m := IoOk (MkKernel m (k_open k)) in
    match op, k_interest k !! fd with
    | EPOLL_CTL_ADD, Some _ => IoErr 17
    | EPOLL_CTL_ADD, None =>
        if bool_decide (fd ∈ k_open k) then k' (<[fd := (ev, p)]> (k_interest k)) else IoErr 9
    | EPOLL_CTL_MOD, Some _ => k' (<[fd := (ev, p)]> (k_interest k))
    | EPOLL_CTL_DEL, Some _ => k' (delete fd (k_interest k))
    | _, None => IoErr 2
    end;
  interest := k_interest;
  pollable k fd := bool_decide (fd ∈ k_open k);
|}.

#[export] Instance kernel_epoll_spec : EpollSpec kernel.
Proof.
  split.
  - intros k fd ev p Hp Hn. simpl in *. rewrite Hn, Hp. eauto.
  - intros k fd ev p r Hr. simpl in *. rewrite Hr. eauto.
  - intros k fd ev p r Hr. simpl in *. rewrite Hr. eauto.
Qed.

(** ** Properties *)
Section properties.
Context {K CB : Type} `{!Epoll K, !EpollSpec K}.

(** C18 (refinement). For channels with descriptors of their own, every
    sequence of interest changes and removals succeeds: no [epoll_ctl] fails,
    so [LOG_FATAL] is never reached. The masks end up as the abstract
    specification says, every registered channel with a non-empty mask is
    watched with exactly this mask, and everything the kernel watches is a
    live registered channel with its current mask. *)
Theorem poller_watches_requests (qs : list request) (w : PollWorld K CB) :
  attached w → Forall (λ q, is_Some (channels_of w !! target q)) qs →
  ∃ w', for_each qs run_request w = Ok (tt, w') ∧
    masks w' = foldl spec_request (masks w) qs ∧
    (∀ p c, pw_channels w' !! p = Some c → index_ c ≠ kNew → events_ c ≠ kNoneEvent →
       interest (epollfd_ w') !! fd_ c = Some (events_ c, p)) ∧
    (∀ fd m p, interest (epollfd_ w') !! fd = Some (m, p) →
       ∃ c, pw_channels w' !! p = Some c ∧ fd_ c = fd ∧ events_ c = m ∧ index_ c ≠ kNew).
Proof.
  intros Hatt Hlive. pose proof (wp_run_requests qs w Hatt Hlive) as Hwp.
  apply wp_run in Hwp as ([] & w' & Hrun & Hatt' & Hm). exists w'.
  pose proof (attached_synced _ Hatt') as Hs. split_and!; [done..| |].
  - intros p c. exact (consistent_watched p c w' Hs).
  - intros fd m p. exact (consistent_entry fd m p w' Hs).
Qed.

(** When [epoll_wait] returns events, [poll] appends their
    channels to the active list in the order of the array, every one of them
    is alive and holds its returned events, nothing else about the channels
    changes, and the array doubles exactly when it was filled. *)
Lemma poll_active epoll_wait active evs (w : PollWorld K CB) :
  consistent None w → wait_ok w epoll_wait → evs ≠ [] → NoDup (evs.*2) →
  epoll_wait (zlen (events_list w)) = IoOk evs →
  ∃ w', poll epoll_wait active w = Ok (active ++ evs.*2, w') ∧ consistent None w' ∧
    (∀ e, e ∈ evs → ∃ c, pw_channels w !! e.2 = Some c ∧
       pw_channels w' !! e.2 = Some (set_revents e.1 c)) ∧
    (∀ p, p ∉ evs.*2 → pw_channels w' !! p = pw_channels w !! p) ∧
    zlen (events_list w') =
      (if bool_decide (zlen evs = zlen (events_list w)) then 2 else 1) * zlen (events_list w).
Proof.
  intros Hcons Hok Hne Hnd Hevs.
  pose proof (wp_poll_events epoll_wait active evs w Hcons Hok Hne Hevs) as Hwp.
  apply wp_run in Hwp as (res & w' & Hrun & -> & ->). exists (polled evs w).
  destruct (Hok _ _ (Nat2Z.is_nonneg _) Hevs) as [Hlen _].
  split_and!; [done| | | |].
  - pose proof (consistent_apply_revents evs w Hcons) as [Hi Ha Hd Hm Hint]. by split.
  - intros e He. pose proof (wait_ok_live _ _ _ _ e Hcons Hok (Nat2Z.is_nonneg _) Hevs He)
      as [c Hc]. exists c. split; [done|]. simpl. by apply lookup_apply_revents.
  - intros p Hp. simpl. by apply lookup_apply_revents_ne.
  - unfold polled. simpl. case_bool_decide; rewrite ?length_app, ?length_replicate,
      ?length_app, length_drop; lia.
Qed.
End properties.

(** Two channels, on descriptors 5 and 6 of a kernel where both are open. *)
Definition two_channels : PollWorld kernel nat :=
  MkPollWorld {[ 100 := new_Channel 1 5; 200 := new_Channel 1 6 ]} ∅
    (MkKernel ∅ {[ 5; 6 ]}) (replicate 2 (0, 0)) [].

Lemma two_channels_attached : attached two_channels.
Proof.
  assert (∀ p c, pw_channels two_channels !! p = Some c →
    (p = 100 ∧ c = new_Channel 1 5) ∨ (p = 200 ∧ c = new_Channel 1 6)) as Hch.
  { intros p c. simpl. rewrite lookup_insert_Some, lookup_singleton_Some. naive_solver. }
  split.
  - split; simpl; try (intros; by simplify_map_eq); intros p c Hc; apply Hch in Hc;
      naive_solver.
  - intros p c Hc. apply Hch in Hc. naive_solver.
  - intros p q c c' Hc Hc'. apply Hch in Hc, Hc'. naive_solver.
  - intros p c Hc _. apply Hch in Hc. destruct Hc as [[-> ->]|[-> ->]]; done.
Qed.

Definition test_requests : list request :=
  [ Change EnableReading 100; Change EnableWriting 200; Change DisableAll 100;
    Change EnableReading 100; Remove 200 ].

Lemma poller_watches_requests_witness :
  ∃ w', for_each test_requests run_request two_channels = Ok (tt, w') ∧
    masks w' = foldl spec_request (masks two_channels) test_requests ∧
    (∀ p c, pw_channels w' !! p = Some c → index_ c ≠ kNew → events_ c ≠ kNoneEvent →
       interest (epollfd_ w') !! fd_ c = Some (events_ c, p)) ∧
    (∀ fd m p, interest (epollfd_ w') !! fd = Some (m, p) →
       ∃ c, pw_channels w' !! p = Some c ∧ fd_ c = fd ∧ events_ c = m ∧ index_ c ≠ kNew).
Proof.
  apply (poller_watches_requests test_requests two_channels two_channels_attached).
  unfold test_requests. rewrite !Forall_cons, Forall_nil.
  split_and!; simpl; try done; eexists; reflexivity.
Defined.

(** One channel, registered for reading on descriptor 5; room for one event. *)
Definition reading_channel : Channel nat := set_index kAdded (set_events kReadEvent (new_Channel 1 5)).
Definition one_registered : PollWorld kernel nat :=
  MkPollWorld {[ 100 := reading_channel ]} {[ 5 := 100 ]}
    (MkKernel {[ 5 := (kReadEvent, 100) ]} {[ 5 ]}) [(0, 0)] [].

Lemma one_registered_consistent : consistent None one_registered.
Proof.
  split; simpl.
  - intros p c [<- <-]%lookup_singleton_Some. right; left. done.
  - intros p c [<- <-]%lookup_singleton_Some _. split; [done|]. by exists kReadEvent.
  - by intros p c [<- <-]%lookup_singleton_Some ?.
  - intros fd p [<- <-]%lookup_singleton_Some. split; [done|]. by exists reading_channel.
  - by intros fd m p [<- [= <- <-]]%lookup_singleton_Some.
Qed.

Lemma poll_active_witness :
  ∃ w', poll (λ n, IoOk (take (Z.to_nat n) [(EPOLLIN, 100)])) [] one_registered = Ok ([] ++ [(EPOLLIN, 100)].*2, w')
    ∧ consistent None w' ∧
    (∀ e, e ∈ [(EPOLLIN, 100)] → ∃ c, pw_channels one_registered !! e.2 = Some c ∧
       pw_channels w' !! e.2 = Some (set_revents e.1 c)) ∧
    (∀ p, p ∉ [(EPOLLIN, 100)].*2 → pw_channels w' !! p = pw_channels one_registered !! p) ∧
    zlen (events_list w') = (if bool_decide (zlen [(EPOLLIN, 100)] = 1) then 2 else 1) * 1.
Proof.
  apply (poll_active (λ n, IoOk (take (Z.to_nat n) [(EPOLLIN, 100)])) [] [(EPOLLIN, 100)]
    one_registered one_registered_consistent).
  - intros n evs Hn [= <-]. rewrite length_take. split; [simpl; lia|].
    intros e He. apply subseteq_take in He. apply list_elem_of_singleton in He as ->.
    by exists 5, kReadEvent.
  - done.
  - apply NoDup_singleton.
  - reflexivity.
Defined.
