(* ===== verification/Timer.v ===== *)
(** * Timer and TimerId (include/net/Timer.h, include/net/TimerId.h,
      src/net/Timer.cc)

    A timer object: its callback, expiration, interval and sequence number. *)
From S2P Require Import Prelude Channel Timestamp.
From Stdlib Require Import Floats.SpecFloat.

Section timer.
Context {CB : Type}.

Record Timer : Type := MkTimer {
  callback_ : CB;
  expiration_ : Timestamp;
  interval_ : double;
  repeat_ : bool;
  sequence_ : Z;
}.

(** A signed 64-bit atomic counter wraps around. *)
Definition wrap_i64 (z : Z) : Z := (z + 2 ^ 63) `mod` 2 ^ 64 - 2 ^ 63.

(** The constructor, with the value of [s_numCreated_] before it: the new
    timer takes the incremented value as its sequence number. *)
Definition new_Timer (cb : CB) (when : Timestamp) (interval : double) (numCreated : Z)
    : Timer * Z :=
  let sequence := wrap_i64 (numCreated + 1) in
  (MkTimer cb when interval (double_gtb interval (double_of_Z 0)) sequence, sequence).

Definition expiration (t : Timer) : Timestamp := expiration_ t.
Definition sequence (t : Timer) : Z := sequence_ t.

Definition set_expiration (e : Timestamp) (t : Timer) : Timer :=
  MkTimer (callback_ t) e (interval_ t) (repeat_ t) (sequence_ t).

Definition restart (now : Timestamp) (t : Timer) : outcome Timer :=
  if repeat_ t
  then e ← addTime now (interval_ t); mret (set_expiration e t)
  else mret (set_expiration invalid t).
End timer.
Arguments Timer CB : clear implicits.

(** The handle of a timer. *)
Record TimerId : Type := MkTimerId { timer_ : ptr; id_sequence_ : Z }.
Definition null_TimerId : TimerId := MkTimerId 0 0.

#[export] Instance TimerId_eq_dec : EqDecision TimerId.
Proof. solve_decision. Defined.

Lemma wrap_i64_small z : - 2 ^ 63 ≤ z < 2 ^ 63 → wrap_i64 z = z.
Proof. intros. unfold wrap_i64. rewrite Z.mod_small; lia. Qed.

