(* ===== verification/EntrySet.v ===== *)
(** * The ordered set of a timer queue (include/net/TimerQueue.h)

    [std::set<std::pair<Timestamp, Timer*>>]: a list kept in strictly
    increasing order of (expiration, address), with the operations of
    [std::set] that src/net/TimerQueue.cc uses, and what they compute. *)
From stdpp Require Import sorting.
From S2P Require Import Prelude Channel Timestamp.

Abbreviation Entry := (Timestamp * ptr)%type.

(** [operator<] of [std::pair] *)
Definition entry_ltb (x y : Entry) : bool :=
  ts_ltb x.1 y.1 || (negb (ts_ltb y.1 x.1) && (x.2 <? y.2)).

Fixpoint set_insert (e : Entry) (l : list Entry) : list Entry :=
  match l with
  | [] => [e]
  | x :: l' =>
      if entry_ltb e x then e :: l
      else if entry_ltb x e then x :: set_insert e l'
      else l
  end.

Fixpoint set_erase (e : Entry) (l : list Entry) : list Entry :=
  match l with
  | [] => []
  | x :: l' => if entry_ltb x e || entry_ltb e x then x :: set_erase e l' else l'
  end.

(** [[begin, lower_bound(e))] and [[lower_bound(e), end)] *)
Fixpoint before_bound (e : Entry) (l : list Entry) : list Entry :=
  match l with
  | [] => []
  | x :: l' => if entry_ltb x e then x :: before_bound e l' else []
  end.
Fixpoint from_bound (e : Entry) (l : list Entry) : list Entry :=
  match l with
  | [] => []
  | x :: l' => if entry_ltb x e then from_bound e l' else l
  end.

(** ** The order *)

Definition entry_lt (x y : Entry) : Prop :=
  microSecondsSinceEpoch x.1 < microSecondsSinceEpoch y.1
  ∨ (microSecondsSinceEpoch x.1 = microSecondsSinceEpoch y.1 ∧ x.2 < y.2).

Abbreviation sorted := (StronglySorted entry_lt).

Lemma Timestamp_eq s t : microSecondsSinceEpoch s = microSecondsSinceEpoch t → s = t.
Proof. destruct s, t. simpl. congruence. Qed.

Lemma entry_ltb_reflect x y : BoolSpec (entry_lt x y) (¬ entry_lt x y) (entry_ltb x y).
Proof.
  unfold entry_ltb, ts_ltb, entry_lt.
  destruct (Z.ltb_spec (microSecondsSinceEpoch x.1) (microSecondsSinceEpoch y.1)),
    (Z.ltb_spec (microSecondsSinceEpoch y.1) (microSecondsSinceEpoch x.1)),
    (Z.ltb_spec x.2 y.2); simpl; constructor; lia.
Qed.

#[export] Instance entry_lt_trans : Transitive entry_lt.
Proof. unfold entry_lt. intros x y z. lia. Qed.
#[export] Instance entry_lt_irrefl : Irreflexive entry_lt.
Proof. unfold entry_lt. intros x. unfold complement. lia. Qed.
Lemma entry_lt_total x y : ¬ entry_lt x y → ¬ entry_lt y x → x = y.
Proof.
  destruct x as [s p], y as [t q]. unfold entry_lt. simpl. intros.
  f_equal; [apply Timestamp_eq|]; lia.
Qed.
Lemma entry_lt_neq x y : entry_lt x y → x ≠ y.
Proof. intros H ->. by apply (irreflexivity entry_lt y). Qed.

Ltac entry_case x y := destruct (entry_ltb_reflect x y).

(** ** The operations *)

Lemma elem_of_set_insert x e l : x ∈ set_insert e l ↔ x = e ∨ x ∈ l.
Proof.
  induction l as [|y l IH]; simpl; [set_solver|].
  entry_case e y; [set_solver|]. entry_case y e; [set_solver|].
  assert (e = y) as -> by by apply entry_lt_total. set_solver.
Qed.

Lemma sorted_set_insert e l : sorted l → sorted (set_insert e l).
Proof.
  induction 1 as [|y l Hl IH Hy]; simpl; [by repeat constructor|].
  entry_case e y.
  - constructor; [by constructor|]. constructor; [done|].
    eapply Forall_impl; [exact Hy|]. intros z Hz. by transitivity y.
  - entry_case y e; [|by constructor]. constructor; [done|].
    apply Forall_forall. intros z [->|Hz]%elem_of_set_insert; [done|].
    by eapply Forall_forall in Hy.
Qed.

Lemma sorted_not_elem_of x l : Forall (entry_lt x) l → x ∉ l.
Proof. intros H Hx. eapply Forall_forall in H; [|done]. by apply entry_lt_neq in H. Qed.

Lemma elem_of_set_erase x e l : sorted l → x ∈ set_erase e l ↔ x ∈ l ∧ x ≠ e.
Proof.
  induction 1 as [|y l Hl IH Hy]; simpl; [set_solver|].
  pose proof (sorted_not_elem_of _ _ Hy).
  entry_case y e; simpl.
  { rewrite !elem_of_cons, IH. pose proof (entry_lt_neq y e). set_solver. }
  entry_case e y.
  { rewrite !elem_of_cons, IH. pose proof (entry_lt_neq e y). set_solver. }
  assert (y = e) as -> by by apply entry_lt_total. set_solver.
Qed.

Lemma sorted_set_erase e l : sorted l → sorted (set_erase e l).
Proof.
  induction 1 as [|y l Hl IH Hy]; simpl; [constructor|].
  destruct (entry_ltb y e || entry_ltb e y); [|done].
  constructor; [done|]. apply Forall_forall. intros z Hz.
  apply elem_of_set_erase in Hz as [Hz _]; [|done]. by eapply Forall_forall in Hy.
Qed.

Lemma before_from_bound e l : before_bound e l ++ from_bound e l = l.
Proof. induction l as [|y l IH]; simpl; [done|]. case_match; simpl; congruence. Qed.

Lemma before_bound_filter e l : sorted l → before_bound e l = filter (λ x, entry_ltb x e) l.
Proof.
  induction 1 as [|y l Hl IH Hy]; simpl; [done|]. rewrite filter_cons.
  entry_case y e; case_decide as Hd; try done; [by rewrite IH|].
  symmetry. clear IH Hl. induction Hy as [|z l Hyz _ IH]; [done|].
  rewrite filter_cons. case_decide as Hz; [|done].
  exfalso. entry_case z e; [|done]. match goal with H : ¬ entry_lt y e |- _ => apply H end. by transitivity z.
Qed.

Lemma elem_of_before_bound x e l : sorted l → x ∈ before_bound e l ↔ x ∈ l ∧ entry_lt x e.
Proof.
  intros Hl. rewrite before_bound_filter, list_elem_of_filter by done.
  entry_case x e; simpl; naive_solver.
Qed.

Lemma sorted_app_inv l1 l2 :
  sorted (l1 ++ l2) → sorted l1 ∧ sorted l2 ∧ ∀ x y, x ∈ l1 → y ∈ l2 → entry_lt x y.
Proof.
  induction l1 as [|z l1 IH]; simpl; [set_solver by constructor|].
  inversion_clear 1 as [|? ? Hs Hz]. apply Forall_app in Hz as [Hz1 Hz2].
  destruct (IH Hs) as (H1 & H2 & H12). split_and!; [by constructor|done|].
  intros x y [->|Hx]%elem_of_cons Hy; [by eapply Forall_forall in Hz2|eauto].
Qed.

Lemma sorted_before_bound e l : sorted l → sorted (before_bound e l).
Proof. rewrite <-(before_from_bound e l) at 1. intros H%sorted_app_inv. tauto. Qed.
Lemma sorted_from_bound e l : sorted l → sorted (from_bound e l).
Proof. rewrite <-(before_from_bound e l) at 1. intros H%sorted_app_inv. tauto. Qed.

Lemma elem_of_from_bound x e l : sorted l → x ∈ from_bound e l ↔ x ∈ l ∧ ¬ entry_lt x e.
Proof.
  intros Hl. pose proof (elem_of_before_bound x e l Hl) as Hb.
  assert (x ∈ l ↔ x ∈ before_bound e l ∨ x ∈ from_bound e l) as Hx
    by by rewrite <-elem_of_app, before_from_bound.
  rewrite <-(before_from_bound e l) in Hl. apply sorted_app_inv in Hl as (_ & _ & Hlt).
  split; [|tauto]. intros Hin. split; [tauto|]. intros Hxe.
  apply (irreflexivity entry_lt x). apply Hlt; tauto.
Qed.

Lemma sorted_NoDup l : sorted l → NoDup l.
Proof. induction 1; constructor; [by apply sorted_not_elem_of|done]. Qed.

(** The first entry is the earliest. *)
Lemma sorted_head x y l : sorted (x :: l) → y ∈ x :: l → x = y ∨ entry_lt x y.
Proof.
  inversion_clear 1 as [|? ? _ Hx]. intros [->|Hy]%elem_of_cons; [by left|].
  right. by eapply Forall_forall in Hx.
Qed.

Lemma sorted_head_le x y l :
  sorted (x :: l) → y ∈ x :: l → microSecondsSinceEpoch x.1 ≤ microSecondsSinceEpoch y.1.
Proof. intros Hl Hy. destruct (sorted_head _ _ _ Hl Hy) as [->|[]]; lia. Qed.

Lemma set_erase_insert e l : sorted l → e ∉ l → set_erase e (set_insert e l) = l.
Proof.
  induction 1 as [|y l Hl IH Hy]; intros He; simpl.
  { entry_case e e; [|done]. by destruct (irreflexivity entry_lt e). }
  apply not_elem_of_cons in He as [Hne He].
  entry_case e y; simpl.
  { entry_case e e; [|done]. by destruct (irreflexivity entry_lt e). }
  entry_case y e; simpl; [|by destruct Hne; apply entry_lt_total].
  entry_case y e; simpl; [|done]. by rewrite IH.
Qed.

Create HintDb timers.
#[export] Hint Resolve sorted_set_insert sorted_set_erase sorted_before_bound
  sorted_from_bound sorted_NoDup : timers.
