(* ===== verification/TimerQueue.v ===== *)
(** * TimerQueue (include/net/TimerQueue.h, src/net/TimerQueue.cc)

    The timers of an event loop, kept in an ordered set of (expiration,
    address) pairs and in a set of (address, sequence) pairs, and driven by
    one timerfd. Timer objects live in a store, so that a dangling pointer is
    visible. The clock, the allocator, the timerfd calls and what the timer
    callbacks do to the queue are parameters (class [TimerEnv]). *)
From S2P Require Import Prelude Posix Channel Timestamp Timer EntrySet.
From Stdlib Require Import Floats.SpecFloat.

(** ** The class *)

Definition UINTPTR_MAX : Z := 2 ^ 64 - 1.

Abbreviation ActiveTimer := (ptr * Z)%type.
Abbreviation timespec := (Z * Z)%type.

(** What is handed to [loop_->runInLoop]. *)
Inductive tq_functor : Type :=
| AddTimerInLoop (timer : ptr)
| CancelInLoop (timerId : TimerId).

Section timer_queue.
Context {CB : Type}.

(** The queue with the timer objects ([tq_heap]), the counter
    [Timer::s_numCreated_], the number of clock readings so far, the last
    programmed timerfd value with the reading it was computed from, the
    functors queued from outside the loop thread, whether the running thread
    is the loop's, and the history of [Timer::run] calls. *)
Record TQ : Type := MkTQ {
  tq_heap : gmap ptr (Timer CB);
  s_numCreated_ : Z;
  timers_ : list Entry;
  activeTimers_ : gset ActiveTimer;
  cancelingTimers_ : gset ActiveTimer;
  callingExpiredTimers_ : bool;
  tq_armed : option (Timestamp * timespec);
  tq_ticks : nat;
  tq_queued : list tq_functor;
  tq_in_loop : bool;
  tq_runs : list ActiveTimer;
}.

(** A call a callback makes on the queue. *)
Inductive command : Type :=
| CmdAdd (cb : CB) (when : Timestamp) (interval : double)
| CmdCancel (timerId : TimerId).
End timer_queue.
Arguments TQ CB : clear implicits.
Arguments command CB : clear implicits.

(** The parameters of the component: the n-th reading of the clock, the
    address [operator new] returns and the number of timers the memory holds,
    the results of [timerfd_settime] and of reading the timerfd, and the calls
    a callback makes on the queue. *)
Class TimerEnv (CB : Type) := {
  clock : nat → Timestamp;
  alloc : gmap ptr (Timer CB) → ptr;
  capacity : nat;
  timerfd_settime : timespec → io_result unit;
  timerfd_read : nat → io_result Z;
  behaviour : CB → TQ CB → list (command CB);
}.

Section methods.
Context {CB : Type}.
Implicit Types w : TQ CB.

Definition set_heap h w : TQ CB :=
  MkTQ h (s_numCreated_ w) (timers_ w) (activeTimers_ w) (cancelingTimers_ w)
    (callingExpiredTimers_ w) (tq_armed w) (tq_ticks w) (tq_queued w) (tq_in_loop w) (tq_runs w).
Definition set_numCreated n w : TQ CB :=
  MkTQ (tq_heap w) n (timers_ w) (activeTimers_ w) (cancelingTimers_ w)
    (callingExpiredTimers_ w) (tq_armed w) (tq_ticks w) (tq_queued w) (tq_in_loop w) (tq_runs w).
Definition set_timers l w : TQ CB :=
  MkTQ (tq_heap w) (s_numCreated_ w) l (activeTimers_ w) (cancelingTimers_ w)
    (callingExpiredTimers_ w) (tq_armed w) (tq_ticks w) (tq_queued w) (tq_in_loop w) (tq_runs w).
Definition set_active s w : TQ CB :=
  MkTQ (tq_heap w) (s_numCreated_ w) (timers_ w) s (cancelingTimers_ w)
    (callingExpiredTimers_ w) (tq_armed w) (tq_ticks w) (tq_queued w) (tq_in_loop w) (tq_runs w).
Definition set_canceling s w : TQ CB :=
  MkTQ (tq_heap w) (s_numCreated_ w) (timers_ w) (activeTimers_ w) s
    (callingExpiredTimers_ w) (tq_armed w) (tq_ticks w) (tq_queued w) (tq_in_loop w) (tq_runs w).
Definition set_calling b w : TQ CB :=
  MkTQ (tq_heap w) (s_numCreated_ w) (timers_ w) (activeTimers_ w) (cancelingTimers_ w)
    b (tq_armed w) (tq_ticks w) (tq_queued w) (tq_in_loop w) (tq_runs w).
Definition set_armed a w : TQ CB :=
  MkTQ (tq_heap w) (s_numCreated_ w) (timers_ w) (activeTimers_ w) (cancelingTimers_ w)
    (callingExpiredTimers_ w) a (tq_ticks w) (tq_queued w) (tq_in_loop w) (tq_runs w).
Definition tick w : TQ CB :=
  MkTQ (tq_heap w) (s_numCreated_ w) (timers_ w) (activeTimers_ w) (cancelingTimers_ w)
    (callingExpiredTimers_ w) (tq_armed w) (S (tq_ticks w)) (tq_queued w) (tq_in_loop w)
    (tq_runs w).
Definition enqueue f w : TQ CB :=
  MkTQ (tq_heap w) (s_numCreated_ w) (timers_ w) (activeTimers_ w) (cancelingTimers_ w)
    (callingExpiredTimers_ w) (tq_armed w) (tq_ticks w) (tq_queued w ++ [f]) (tq_in_loop w)
    (tq_runs w).
Definition record_run r w : TQ CB :=
  MkTQ (tq_heap w) (s_numCreated_ w) (timers_ w) (activeTimers_ w) (cancelingTimers_ w)
    (callingExpiredTimers_ w) (tq_armed w) (tq_ticks w) (tq_queued w) (tq_in_loop w)
    (tq_runs w ++ [r]).

Context `{!TimerEnv CB}.

Definition timer_at (p : ptr) w : option (Timer CB) := tq_heap w !! p.

(** [Timestamp::now()] *)
Definition read_clock : M (TQ CB) Timestamp :=
  n ← gets tq_ticks; modify tick ;; mret (clock (CB:=CB) n).

(** [howMuchTimeFromNow]: at least 100 microseconds. *)
Definition timespec_of (micro : Z) : timespec :=
  let micro' := if micro <? 100 then 100 else micro in
  (micro' `quot` 1000000, (micro' `rem` 1000000) * 1000).
Definition howMuchTimeFromNow (when : Timestamp) : M (TQ CB) (Timestamp * timespec) :=
  now ← read_clock;
  micro ← lift_outcome (i64 (microSecondsSinceEpoch when - microSecondsSinceEpoch now));
  mret (now, timespec_of micro).

(** [readTimerfd]: the one-shot timer that has fired is disarmed by reading
    it; a failing read is logged. *)
Definition readTimerfd : M (TQ CB) unit :=
  n ← gets tq_ticks;
  match timerfd_read (CB:=CB) n with
  | IoOk _ => modify (set_armed None)
  | IoErr _ => mret tt
  end.

(** [resetTimerfd]: a failing [timerfd_settime] is logged, and the timerfd
    stays as it was. *)
Definition resetTimerfd (expiration : Timestamp) : M (TQ CB) unit :=
  newValue ← howMuchTimeFromNow expiration;
  match timerfd_settime (CB:=CB) newValue.2 with
  | IoOk _ => modify (set_armed (Some newValue))
  | IoErr _ => mret tt
  end.

(** [new Timer(cb, when, interval)] *)
Definition allocate_timer (cb : CB) (when : Timestamp) (interval : double)
    : M (TQ CB) ptr :=
  p ← gets (λ w, alloc (tq_heap w));
  modify (λ w, let '(t, n) := new_Timer cb when interval (s_numCreated_ w) in
    set_heap (<[p := t]> (tq_heap w)) (set_numCreated n w)) ;;
  mret p.

(** [delete timer] *)
Definition delete_timer (p : ptr) : M (TQ CB) unit :=
  deref (timer_at p) ;;
  modify (λ w, set_heap (delete p (tq_heap w)) w).

(** [loop_->assertInLoopThread()] *)
Definition assertInLoopThread : M (TQ CB) unit :=
  b ← gets tq_in_loop; require AbortFatal b.

(** [loop_->runInLoop(f)], where [m] is what calling [f] does. *)
Definition runInLoop (f : tq_functor) (m : M (TQ CB) unit) : M (TQ CB) unit :=
  b ← gets tq_in_loop;
  if (b : bool) then m else modify (enqueue f).

Definition insert (timer : ptr) : M (TQ CB) bool :=
  t ← deref (timer_at timer);
  let when := expiration t in
  l ← gets timers_;
  let earliestChanged := match l with [] => true | it :: _ => ts_ltb when it.1 end in
  modify (λ w, set_timers (set_insert (when, timer) (timers_ w)) w) ;;
  modify (λ w, set_active ({[ (timer, sequence t) ]} ∪ activeTimers_ w) w) ;;
  mret earliestChanged.

Definition addTimerInLoop (timer : ptr) : M (TQ CB) unit :=
  assertInLoopThread ;;
  earliestChanged ← insert timer;
  if (earliestChanged : bool)
  then t ← deref (timer_at timer); resetTimerfd (expiration t)
  else mret tt.

(** [return TimerId(timer, timer->sequence())] *)
Definition make_TimerId (timer : ptr) : M (TQ CB) TimerId :=
  t ← deref (timer_at timer); mret (MkTimerId timer (sequence t)).

Definition addTimer (cb : CB) (when : Timestamp) (interval : double) : M (TQ CB) TimerId :=
  timer ← allocate_timer cb when interval;
  runInLoop (AddTimerInLoop timer) (addTimerInLoop timer) ;;
  make_TimerId timer.

Definition cancelInLoop (timerId : TimerId) : M (TQ CB) unit :=
  assertInLoopThread ;;
  let timer := (timer_ timerId, id_sequence_ timerId) in
  active ← gets activeTimers_;
  calling ← gets callingExpiredTimers_;
  if decide (timer ∈ active)
  then
    t ← deref (timer_at timer.1);
    modify (λ w, set_timers (set_erase (expiration t, timer.1) (timers_ w)) w) ;;
    delete_timer timer.1 ;;
    modify (λ w, set_active (activeTimers_ w ∖ {[ timer ]}) w)
  else
    when calling (modify (λ w, set_canceling ({[ timer ]} ∪ cancelingTimers_ w) w)).

Definition cancel (timerId : TimerId) : M (TQ CB) unit :=
  runInLoop (CancelInLoop timerId) (cancelInLoop timerId).

Definition getExpired (now : Timestamp) : M (TQ CB) (list Entry) :=
  let sentry := (now, UINTPTR_MAX) in
  l ← gets timers_;
  let expired := before_bound sentry l in
  modify (set_timers (from_bound sentry l)) ;;
  for_each expired (λ it,
    t ← deref (timer_at it.2);
    modify (λ w, set_active (activeTimers_ w ∖ {[ (it.2, sequence t) ]}) w)) ;;
  mret expired.

Definition reset_one (now : Timestamp) (it : Entry) : M (TQ CB) unit :=
  t ← deref (timer_at it.2);
  canceling ← gets cancelingTimers_;
  if repeat_ t && bool_decide ((it.2, sequence t) ∉ canceling)
  then
    t' ← lift_outcome (restart now t);
    modify (λ w, set_heap (<[it.2 := t']> (tq_heap w)) w) ;;
    insert it.2 ;;
    mret tt
  else delete_timer it.2.

Definition reset (expired : list Entry) (now : Timestamp) : M (TQ CB) unit :=
  for_each expired (reset_one now) ;;
  l ← gets timers_;
  match l with
  | [] => mret tt
  | it :: _ => t ← deref (timer_at it.2); resetTimerfd (expiration t)
  end.

(** [EventLoop::cancel] *)
Definition loop_cancel (timerId : TimerId) : M (TQ CB) unit := cancel timerId.

Definition run_command (c : command CB) : M (TQ CB) unit :=
  match c with
  | CmdAdd cb when interval => addTimer cb when interval ;; mret tt
  | CmdCancel timerId => loop_cancel timerId
  end.

(** [it.second->run()]: the callback makes its calls on the queue. *)
Definition run_timer (it : Entry) : M (TQ CB) unit :=
  t ← deref (timer_at it.2);
  modify (record_run (it.2, sequence t)) ;;
  cs ← gets (behaviour (callback_ t));
  for_each cs run_command.

Definition handleRead : M (TQ CB) unit :=
  assertInLoopThread ;;
  now ← read_clock;
  readTimerfd ;;
  expired ← getExpired now;
  modify (set_calling true) ;;
  modify (set_canceling ∅) ;;
  for_each expired run_timer ;;
  modify (set_calling false) ;;
  reset expired now.

(** [EventLoop::runAt], [runAfter], [runEvery] (src/net/EventLoop.cc). *)
Definition runAt (time : Timestamp) (cb : CB) : M (TQ CB) TimerId :=
  addTimer cb time (double_of_Z 0).
Definition runAfter (delay : double) (cb : CB) : M (TQ CB) TimerId :=
  now ← read_clock;
  time ← lift_outcome (addTime now delay);
  runAt time cb.
Definition runEvery (interval : double) (cb : CB) : M (TQ CB) TimerId :=
  now ← read_clock;
  time ← lift_outcome (addTime now interval);
  addTimer cb time interval.

(** The functors the loop runs later. *)
Definition run_tq_functor (f : tq_functor) : M (TQ CB) unit :=
  match f with
  | AddTimerInLoop timer => addTimerInLoop timer
  | CancelInLoop timerId => cancelInLoop timerId
  end.

(** The destructor's loop over the remaining timers. *)
Definition destroy : M (TQ CB) unit :=
  l ← gets timers_;
  for_each l (λ it, delete_timer it.2).
End methods.

Definition empty_queue (CB : Type) (in_loop : bool) : TQ CB :=
  MkTQ ∅ 0 [] ∅ ∅ false None 0 [] in_loop [].
