(* ===== verification/TimerQueueSpec.v ===== *)
(** * What the timer queue guarantees (src/net/TimerQueue.cc)

    The invariant that ties the two sets of a timer queue to the timer objects
    in the store, the specification of each operation, and the properties of
    the queue under any sequence of calls and expirations. *)
From stdpp Require Import sorting.
From S2P Require Import Prelude Posix Channel Timestamp Timer EntrySet TimerQueue.
From Stdlib Require Import Floats.SpecFloat.

(** ** What is relied on *)

Definition valid_ptr (p : ptr) : Prop := 0 < p < UINTPTR_MAX.
Definition time_ok (t : Timestamp) : Prop := - 2 ^ 62 < microSecondsSinceEpoch t < 2 ^ 62.

Section relied_on.
Context {CB : Type} `{!TimerEnv CB}.

(** Re-arming at any clock reading gives a representable time. *)
Definition interval_ok (interval : double) : Prop :=
  ∀ n, ∃ e, addTime (clock (CB:=CB) n) interval = Ok e ∧ time_ok e.

Definition timer_ok (t : Timer CB) : Prop :=
  time_ok (expiration t) ∧ (repeat_ t = true → interval_ok (interval_ t)).

Definition command_ok (c : command CB) : Prop :=
  match c with
  | CmdAdd _ when interval =>
      time_ok when ∧ (double_gtb interval (double_of_Z 0) = true → interval_ok interval)
  | CmdCancel _ => True
  end.

(** The number of timers a command allocates. *)
Definition adds (c : command CB) : nat := match c with CmdAdd _ _ _ => 1 | CmdCancel _ => 0 end.
Definition total_adds (cs : list (command CB)) : nat := sum_list_with adds cs.
End relied_on.

(** The allocator returns fresh storage while there is room, the clock stays
    in range, [timerfd_settime] accepts a well-formed value, and callbacks
    make well-formed calls and do not exhaust the memory. *)
Class TimerEnvSpec (CB : Type) `{!TimerEnv CB} := {
  clock_ok n : time_ok (clock (CB:=CB) n);
  alloc_ok (h : gmap ptr (Timer CB)) :
    (size h < capacity (CB:=CB))%nat → h !! alloc h = None ∧ valid_ptr (alloc h);
  settime_ok sec nsec :
    0 ≤ sec → 0 ≤ nsec < 1000000000 → timerfd_settime (CB:=CB) (sec, nsec) = IoOk tt;
  behaviour_ok (cb : CB) (w : TQ CB) :
    (size (tq_heap w) ≤ capacity (CB:=CB))%nat →
    Forall command_ok (behaviour cb w) ∧
    (size (tq_heap w) + total_adds (behaviour cb w) ≤ capacity (CB:=CB))%nat;
}.

(** ** The invariant *)

Section invariant.
Context {CB : Type} `{!TimerEnv CB}.
Implicit Types (h : gmap ptr (Timer CB)) (l : list Entry) (a : gset ActiveTimer)
  (L : gset ptr).

(** [L] holds the live timers that are in neither set: those whose
    callbacks are being run, and those still on their way into the queue. *)
Record wf L h l a : Prop := {
  wf_sorted : sorted l;
  wf_timers when p : (when, p) ∈ l ↔ ∃ t, h !! p = Some t ∧ p ∉ L ∧ expiration t = when;
  wf_active p s : (p, s) ∈ a ↔ ∃ t, h !! p = Some t ∧ p ∉ L ∧ sequence t = s;
  wf_loose p : p ∈ L → is_Some (h !! p);
  wf_heap p t : h !! p = Some t → valid_ptr p ∧ timer_ok t;
}.

Lemma wf_empty : wf ∅ ∅ [] ∅.
Proof.
  split; [constructor| | | |]; intros *; rewrite ?lookup_empty; try done; set_solver.
Qed.

Lemma wf_insert L h l a p t :
  wf L h l a → p ∈ L → h !! p = Some t →
  wf (L ∖ {[p]}) h (set_insert (expiration t, p) l) ({[(p, sequence t)]} ∪ a).
Proof.
  intros [Hs Ht Ha Hl Hh] Hp Hpt. split; [auto with timers| | |set_solver|done].
  - intros when q. rewrite elem_of_set_insert, Ht.
    destruct (decide (q = p)) as [->|Hq]; [rewrite Hpt|]; set_solver.
  - intros q s. rewrite elem_of_union, elem_of_singleton, Ha.
    destruct (decide (q = p)) as [->|Hq]; [rewrite Hpt|]; set_solver.
Qed.

Lemma wf_alloc L h l a p t :
  wf L h l a → h !! p = None → valid_ptr p → timer_ok t →
  wf ({[p]} ∪ L) (<[p:=t]> h) l a.
Proof.
  intros [Hs Ht Ha Hl Hh] Hp Hv Hok. split; [done| | | |].
  - intros when q. rewrite Ht.
    destruct (decide (q = p)) as [->|]; simplify_map_eq; set_solver.
  - intros q s. rewrite Ha.
    destruct (decide (q = p)) as [->|]; simplify_map_eq; set_solver.
  - intros q [->%elem_of_singleton|Hq]%elem_of_union; [by rewrite lookup_insert_eq|].
    rewrite lookup_insert_is_Some'. auto.
  - intros q u [[-> ->]|[? ?]]%lookup_insert_Some; eauto.
Qed.

Lemma wf_free L h l a p :
  wf L h l a → p ∈ L → wf (L ∖ {[p]}) (delete p h) l a.
Proof.
  intros [Hs Ht Ha Hl Hh] Hp. split; [done| | | |].
  - intros when q. rewrite Ht.
    destruct (decide (q = p)) as [->|]; simplify_map_eq; set_solver.
  - intros q s. rewrite Ha.
    destruct (decide (q = p)) as [->|]; simplify_map_eq; set_solver.
  - intros q [Hq Hne]%elem_of_difference. rewrite lookup_delete_ne by set_solver. auto.
  - intros q u [? ?]%lookup_delete_Some. eauto.
Qed.

Lemma wf_update L h l a p t :
  wf L h l a → p ∈ L → timer_ok t → wf L (<[p:=t]> h) l a.
Proof.
  intros [Hs Ht Ha Hl Hh] Hp Hok. split; [done| | | |].
  - intros when q. rewrite Ht.
    destruct (decide (q = p)) as [->|]; simplify_map_eq; set_solver.
  - intros q s. rewrite Ha.
    destruct (decide (q = p)) as [->|]; simplify_map_eq; set_solver.
  - intros q Hq. rewrite lookup_insert_is_Some'. auto.
  - intros q u [[-> ->]|[? ?]]%lookup_insert_Some; [|eauto].
    destruct (Hl _ Hp) as [v Hv]. by destruct (Hh _ _ Hv).
Qed.

Lemma wf_unlink L h l a p t :
  wf L h l a → p ∉ L → h !! p = Some t →
  wf ({[p]} ∪ L) h (set_erase (expiration t, p) l) (a ∖ {[(p, sequence t)]}).
Proof.
  intros [Hs Ht Ha Hl Hh] Hp Hpt. split; [auto with timers| | | |done].
  - intros when q. rewrite elem_of_set_erase, Ht by done.
    destruct (decide (q = p)) as [->|]; [rewrite Hpt|]; set_solver.
  - intros q s. rewrite elem_of_difference, Ha, elem_of_singleton.
    destruct (decide (q = p)) as [->|]; [rewrite Hpt|]; set_solver.
  - intros q [->%elem_of_singleton|Hq]%elem_of_union; eauto.
Qed.

(** The active pairs of the entries [es]. *)
Definition active_of h (es : list Entry) : list ActiveTimer :=
  omap (λ e, (λ t, (e.2, sequence t)) <$> h !! e.2) es.

Lemma elem_of_active_of h es p s :
  (p, s) ∈ active_of h es ↔ ∃ when t, (when, p) ∈ es ∧ h !! p = Some t ∧ sequence t = s.
Proof.
  unfold active_of. rewrite list_elem_of_omap. split.
  - intros ([when q] & Hin & Hq). simpl in Hq.
    destruct (h !! q) as [t|] eqn:Ht; simpl in Hq; naive_solver.
  - intros (when & t & Hin & Ht & <-). exists (when, p). simpl. by rewrite Ht.
Qed.

Lemma wf_expire L h l a e :
  wf L h l a →
  wf (list_to_set (before_bound e l).*2 ∪ L) h (from_bound e l)
    (a ∖ list_to_set (active_of h (before_bound e l))).
Proof.
  intros Hwf. pose proof Hwf as [Hs Ht Ha Hl Hh].
  assert (∀ p, p ∈ (before_bound e l).*2 ↔
    ∃ t, h !! p = Some t ∧ p ∉ L ∧ entry_lt (expiration t, p) e) as Hb.
  { intros p. rewrite list_elem_of_fmap. split.
    - intros ([when q] & -> & (Hin & Hlt)%elem_of_before_bound); [|done].
      apply Ht in Hin as (t & ? & ? & <-). eauto.
    - intros (t & Hpt & HpL & Hlt). exists (expiration t, p).
      split; [done|]. apply elem_of_before_bound; [done|]. rewrite Ht. eauto. }
  assert (∀ p, p ∉ (list_to_set (before_bound e l).*2 ∪ L : gset ptr) ↔
    ¬ (∃ t, h !! p = Some t ∧ p ∉ L ∧ entry_lt (expiration t, p) e) ∧ p ∉ L) as HL
    by (intros p; by rewrite not_elem_of_union, elem_of_list_to_set, Hb).
  split; [auto with timers| | | |done].
  - intros when p. rewrite elem_of_from_bound, Ht by done. setoid_rewrite HL.
    split; [intros [(t & Hpt & HpL & <-) Hlt]|intros (t & Hpt & [Hnb HpL] & <-)].
    + exists t. split_and!; [done| |done|done]. intros (t' & ? & _ & ?). naive_solver.
    + split; [eauto|]. intros Hlt. apply Hnb. eauto.
  - intros p s. rewrite elem_of_difference, Ha, elem_of_list_to_set, elem_of_active_of.
    setoid_rewrite HL.
    split; [intros [(t & Hpt & HpL & <-) Hn]|intros (t & Hpt & [Hnb HpL] & <-)].
    + exists t. split_and!; [done| |done|done]. intros (t' & Ht' & _ & Hlt). apply Hn.
      exists (expiration t), t. split_and!; [|done..].
      apply elem_of_before_bound; [done|]. rewrite Ht. naive_solver.
    + split; [eauto|]. intros (when & t' & Hin & ? & _). apply Hnb.
      apply elem_of_before_bound in Hin as [Hin Hlt]; [|done].
      apply Ht in Hin as (t'' & ? & ? & <-). naive_solver.
  - intros p [Hp%elem_of_list_to_set|Hp]%elem_of_union; [|auto].
    apply Hb in Hp as (t & ? & _). eauto.
Qed.
End invariant.

Abbreviation wf_queue L w := (wf L (tq_heap w) (timers_ w) (activeTimers_ w)).

(** ** The timerfd *)

(** The time a programmed timerfd fires, in microseconds. *)
Definition fire_time (a : Timestamp * timespec) : Z :=
  microSecondsSinceEpoch a.1 + a.2.1 * 1000000 + a.2.2 / 1000.

(** The programmed value is well formed, does not disarm the timerfd, and
    fires no later than the time [when] (or 100 microseconds after it was
    programmed, when that time had come). *)
Definition armed_for (when : Timestamp) (a : Timestamp * timespec) : Prop :=
  0 ≤ a.2.1 ∧ 0 ≤ a.2.2 < 1000000000 ∧ a.2 ≠ (0, 0) ∧
  fire_time a ≤ Z.max (microSecondsSinceEpoch when) (microSecondsSinceEpoch a.1 + 100).

(** No timer waits for longer than until its expiration. *)
Definition armed_in_time {CB} (w : TQ CB) : Prop :=
  match timers_ w with
  | [] => True
  | e :: _ => ∃ a, tq_armed w = Some a ∧ armed_for e.1 a
  end.

Lemma timespec_of_spec micro :
  let ts := timespec_of micro in
  0 ≤ ts.1 ∧ 0 ≤ ts.2 < 1000000000 ∧ ts ≠ (0, 0) ∧
  ts.1 * 1000000 + ts.2 / 1000 = Z.max micro 100.
Proof.
  unfold timespec_of. destruct (Z.ltb_spec micro 100); cbv zeta.
  { change (100 `quot` 1000000) with 0. change (100 `rem` 1000000 * 1000) with 100000.
    cbn [fst snd]. change (100000 / 1000) with 100. split_and!; try lia. by intros [=]. }
  cbn [fst snd].
  rewrite Z.div_mul by lia.
  pose proof (Z.quot_rem' micro 1000000).
  pose proof (Z.rem_bound_pos micro 1000000).
  pose proof (Z.quot_pos micro 1000000). split_and!; try lia.
  intros [= ? ?]. lia.
Qed.

Lemma armed_for_later when when' a :
  microSecondsSinceEpoch when ≤ microSecondsSinceEpoch when' →
  armed_for when a → armed_for when' a.
Proof. unfold armed_for. intros ? (? & ? & ? & ?). split_and!; [lia..|done|lia]. Qed.

Section operations.
Context {CB : Type} `{!TimerEnv CB, !TimerEnvSpec CB}.
Implicit Types w : TQ CB.

Definition arming (when : Timestamp) w : Timestamp * timespec :=
  let now := clock (CB:=CB) (tq_ticks w) in
  (now, timespec_of (microSecondsSinceEpoch when - microSecondsSinceEpoch now)).

Lemma arming_armed_for when w : armed_for when (arming when w).
Proof.
  unfold armed_for, fire_time, arming. cbn [fst snd].
  destruct (timespec_of_spec (microSecondsSinceEpoch when
    - microSecondsSinceEpoch (clock (CB:=CB) (tq_ticks w)))) as (? & ? & ? & Hsum).
  rewrite <-Z.add_assoc, Hsum. split_and!; [lia..|done|lia].
Qed.

Lemma wp_resetTimerfd when Q w :
  time_ok when → Q tt (set_armed (Some (arming when w)) (tick w)) →
  wp (resetTimerfd when) Q w.
Proof.
  intros Hwhen HQ. pose proof (clock_ok (CB:=CB) (tq_ticks w)) as Hclock.
  unfold resetTimerfd, howMuchTimeFromNow, read_clock. wp_steps.
  eapply wp_lift_outcome; [apply i64_ok; unfold time_ok in *; lia|]. wp_steps.
  destruct (timespec_of_spec (microSecondsSinceEpoch when
    - microSecondsSinceEpoch (clock (CB:=CB) (tq_ticks w)))) as (? & ? & _ & _).
  simpl. rewrite (surjective_pairing (timespec_of _)), settime_ok by done.
  rewrite <-surjective_pairing. wp_steps. exact HQ.
Qed.

(** ** Adding and cancelling *)

(** What the calls made on the queue by callbacks leave alone: the timers
    in [L], the history, the functors; cancellations accumulate, and the
    timerfd stays armed in time. *)
Record frame (L : gset ptr) w w' : Prop := {
  fr_in_loop : tq_in_loop w' = tq_in_loop w;
  fr_queued : tq_queued w' = tq_queued w;
  fr_calling : callingExpiredTimers_ w' = callingExpiredTimers_ w;
  fr_heap p : p ∈ L → tq_heap w' !! p = tq_heap w !! p;
  fr_canceling : cancelingTimers_ w ⊆ cancelingTimers_ w';
  fr_armed : armed_in_time w → armed_in_time w';
}.

#[export] Instance frame_preorder L : PreOrder (frame L).
Proof.
  split; [by split|]. intros w1 w2 w3 [] []. split; try congruence; auto.
  - intros p Hp. rewrite <-fr_heap0 by done. auto.
  - by etrans.
Qed.

(** Inserting keeps the head, unless the new timer is the earliest. *)
Lemma set_insert_head e x l :
  sorted (x :: l) → ts_ltb e.1 x.1 = false →
  ∃ y l', set_insert e (x :: l) = y :: l' ∧
    microSecondsSinceEpoch x.1 = microSecondsSinceEpoch y.1.
Proof.
  unfold ts_ltb. rewrite Z.ltb_ge. intros Hs Hle. simpl.
  entry_case e x; [|by entry_case x e; eauto].
  exists e, (x :: l). unfold entry_lt in *. split; [done|lia].
Qed.

(** The queue after [insert]. *)
Definition linked (p : ptr) (t : Timer CB) w : TQ CB :=
  set_active ({[(p, sequence t)]} ∪ activeTimers_ w)
    (set_timers (set_insert (expiration t, p) (timers_ w)) w).

Lemma wp_insert p t Q w :
  tq_heap w !! p = Some t →
  Q (match timers_ w with [] => true | x :: _ => ts_ltb (expiration t) x.1 end) (linked p t w) →
  wp (insert p) Q w.
Proof. intros Hp HQ. unfold insert. wp_steps. eapply wp_deref; [done|]. by wp_steps. Qed.

Lemma linked_wf L p t w :
  wf_queue L w → p ∈ L → tq_heap w !! p = Some t →
  wf_queue (L ∖ {[p]}) (linked p t w).
Proof. intros. by apply wf_insert. Qed.

Lemma linked_head_armed p t w :
  sorted (timers_ w) →
  (match timers_ w with [] => true | x :: _ => ts_ltb (expiration t) x.1 end) = false →
  armed_in_time w → armed_in_time (linked p t w).
Proof.
  unfold armed_in_time. destruct (timers_ w) as [|x l] eqn:Hl; [done|].
  intros Hs Hlt (a & Ha & Hfor). cbn [linked set_active set_timers timers_ tq_armed].
  rewrite Hl. destruct (set_insert_head (expiration t, p) x l) as (y & l' & -> & Hxy); [done..|].
  exists a. split; [done|]. eapply armed_for_later; [|done]. lia.
Qed.

(** [insert] and, when the new timer is the earliest, [resetTimerfd]. *)
Lemma wp_addTimerInLoop L p t w :
  tq_in_loop w = true → wf_queue L w → p ∈ L → tq_heap w !! p = Some t →
  wp (addTimerInLoop p) (λ _ w',
    wf_queue (L ∖ {[p]}) w' ∧ frame L w w' ∧ tq_heap w' = tq_heap w ∧
    timers_ w' = timers_ (linked p t w) ∧ activeTimers_ w' = activeTimers_ (linked p t w) ∧
    tq_runs w' = tq_runs w) w.
Proof.
  intros Hin Hwf Hp Ht. pose proof (linked_wf _ _ _ _ Hwf Hp Ht) as Hwf'.
  unfold addTimerInLoop, assertInLoopThread. wp_steps; [done|].
  eapply wp_insert; [done|]. destruct (wf_heap _ _ _ _ Hwf _ _ Ht) as [_ [Htime _]].
  apply wp_if; intros Hearly.
  - wp_steps. eapply wp_deref; [done|]. apply wp_resetTimerfd; [done|].
    split_and!; try done. split; try done. intros _. unfold armed_in_time.
    cbn. destruct (timers_ w) as [|x l] eqn:Hl; simpl.
    + eexists. split; [done|]. apply arming_armed_for.
    + unfold ts_ltb in Hearly. apply Z.ltb_lt in Hearly.
      entry_case (expiration t, p) x; [|by exfalso; unfold entry_lt in *; simpl in *; lia].
      eexists. split; [done|]. apply arming_armed_for.
  - wp_steps. split_and!; try done. split; try done.
    apply linked_head_armed; [|done]. apply (wf_sorted _ _ _ _ Hwf).
Qed.

(** The timer a call of [addTimer] creates. *)
Definition fresh_timer (cb : CB) (when : Timestamp) (interval : double) w : Timer CB :=
  (new_Timer cb when interval (s_numCreated_ w)).1.
Definition allocated (cb : CB) (when : Timestamp) (interval : double) w : TQ CB :=
  set_heap (<[alloc (tq_heap w) := fresh_timer cb when interval w]> (tq_heap w))
    (set_numCreated (wrap_i64 (s_numCreated_ w + 1)) w).

Lemma fresh_timer_ok cb when interval w :
  command_ok (CmdAdd cb when interval) → timer_ok (fresh_timer cb when interval w).
Proof. intros [? ?]. by split. Qed.

Lemma allocated_wf L cb when interval w :
  wf_queue L w → command_ok (CmdAdd cb when interval) →
  (size (tq_heap w) < capacity (CB:=CB))%nat →
  wf_queue ({[alloc (tq_heap w)]} ∪ L) (allocated cb when interval w).
Proof.
  intros Hwf Hok Hsize. destruct (alloc_ok (tq_heap w) Hsize).
  apply wf_alloc; [done..|]. by apply fresh_timer_ok.
Qed.

Lemma wp_addTimer L cb when interval w :
  tq_in_loop w = true → wf_queue L w → command_ok (CmdAdd cb when interval) →
  (size (tq_heap w) < capacity (CB:=CB))%nat →
  let p := alloc (tq_heap w) in
  let t := fresh_timer cb when interval w in
  wp (addTimer cb when interval) (λ id w',
    id = MkTimerId p (sequence t) ∧ wf_queue L w' ∧ frame L w w' ∧
    tq_heap w' = <[p := t]> (tq_heap w) ∧
    timers_ w' = timers_ (linked p t w) ∧ activeTimers_ w' = activeTimers_ (linked p t w) ∧
    tq_runs w' = tq_runs w) w.
Proof.
  intros Hin Hwf Hok Hsize p t. destruct (alloc_ok (tq_heap w) Hsize) as [Hp _].
  assert (p ∉ L) as HpL.
  { intros HpL. destruct (wf_loose _ _ _ _ Hwf _ HpL). subst p; congruence. }
  unfold addTimer, allocate_timer, runInLoop, make_TimerId. wp_steps; [|cbn in *; congruence].
  wp_apply (wp_addTimerInLoop ({[p]} ∪ L) p t);
    [done|by apply allocated_wf|set_solver|apply lookup_insert_eq|].
  intros [] w' (Hwf' & Hframe & Hheap & Hti & Hac & Hruns). wp_steps.
  eapply wp_deref; [unfold timer_at; rewrite Hheap; apply lookup_insert_eq|]. wp_steps.
  split_and!; [done| | |done..].
  - replace L with (({[p]} ∪ L) ∖ {[p]}) by set_solver. done.
  - destruct Hframe. split; try done.
    intros q Hq. rewrite fr_heap0 by set_solver. cbn.
    apply lookup_insert_ne. intros <-. done.
Qed.

(** The queue after [cancelInLoop] has found the timer. *)
Definition unlinked (p : ptr) (t : Timer CB) w : TQ CB :=
  set_active (activeTimers_ w ∖ {[(p, sequence t)]})
    (set_heap (delete p (tq_heap w))
      (set_timers (set_erase (expiration t, p) (timers_ w)) w)).

Lemma unlinked_wf L p t w :
  wf_queue L w → p ∉ L → tq_heap w !! p = Some t → wf_queue L (unlinked p t w).
Proof.
  intros Hwf HpL Hp. replace L with (({[p]} ∪ L) ∖ {[p]}) by set_solver.
  apply wf_free; [|set_solver]. by apply wf_unlink.
Qed.

Lemma unlinked_armed L p t w :
  wf_queue L w → armed_in_time w → armed_in_time (unlinked p t w).
Proof.
  intros Hwf. pose proof (wf_sorted _ _ _ _ Hwf) as Hs. unfold armed_in_time. cbn.
  destruct (set_erase _ _) as [|y l'] eqn:Hy; [done|].
  assert (y ∈ timers_ w) as Hin.
  { eapply elem_of_set_erase; [done|]. rewrite Hy. set_solver. }
  destruct (timers_ w) as [|x l]; [set_solver|]. intros (a & Ha & Hfor).
  exists a. split; [done|]. eapply armed_for_later; [|done]. by eapply sorted_head_le.
Qed.

Lemma wp_cancelInLoop L p s w :
  tq_in_loop w = true → wf_queue L w →
  wp (cancelInLoop (MkTimerId p s)) (λ _ w',
    wf_queue L w' ∧ frame L w w' ∧
    ((∃ t, tq_heap w !! p = Some t ∧ p ∉ L ∧ sequence t = s ∧ w' = unlinked p t w) ∨
     ((p, s) ∉ activeTimers_ w ∧
      w' = if callingExpiredTimers_ w
           then set_canceling ({[(p, s)]} ∪ cancelingTimers_ w) w else w))) w.
Proof.
  intros Hin Hwf. unfold cancelInLoop, assertInLoopThread. wp_steps; [done|]. cbn.
  case_decide as Hact; cbn.
  - apply (wf_active _ _ _ _ Hwf) in Hact as (t & Hp & HpL & <-).
    wp_steps. eapply wp_deref; [exact Hp|]. unfold delete_timer. wp_steps.
    eapply wp_deref; [exact Hp|]. wp_steps.
    change (wf_queue L (unlinked p t w) ∧ frame L w (unlinked p t w) ∧
      ((∃ t', tq_heap w !! p = Some t' ∧ p ∉ L ∧ sequence t' = sequence t ∧
          unlinked p t w = unlinked p t' w) ∨
        (p, sequence t) ∉ activeTimers_ w ∧ unlinked p t w = if callingExpiredTimers_ w
           then set_canceling ({[(p, sequence t)]} ∪ cancelingTimers_ w) w else w)).
    split_and!; [by apply unlinked_wf| |left; eauto].
    split; try done; [|by eapply unlinked_armed].
    intros q Hq. cbn. apply lookup_delete_ne. intros ->. done.
  - destruct (callingExpiredTimers_ w) eqn:Hcalling; cbn; wp_steps; split_and!; try done;
      [|by right..]. split; try done. cbn. set_solver.
Qed.

(** ** Running callbacks *)

(** The cancellations in [cs] of timers in [L] are noted in [w']. *)
Definition cancels_noted (L : gset ptr) (cs : list (command CB)) w' : Prop :=
  ∀ p s, CmdCancel (MkTimerId p s) ∈ cs → p ∈ L → (p, s) ∈ cancelingTimers_ w'.

Lemma cancels_noted_mono L cs w w' :
  frame L w w' → cancels_noted L cs w → cancels_noted L cs w'.
Proof. intros Hf Hc p s Hin HpL. apply (fr_canceling _ _ _ Hf). by apply Hc. Qed.

Lemma wp_run_command L c w :
  tq_in_loop w = true → wf_queue L w → command_ok c →
  (size (tq_heap w) + adds c ≤ capacity (CB:=CB))%nat →
  wp (run_command c) (λ _ w',
    wf_queue L w' ∧ frame L w w' ∧ tq_runs w' = tq_runs w ∧
    (size (tq_heap w') ≤ size (tq_heap w) + adds c)%nat ∧
    (callingExpiredTimers_ w = true → cancels_noted L [c] w')) w.
Proof.
  intros Hin Hwf Hok Hsize. destruct c as [cb when interval|[p s]]; cbn [run_command adds] in *.
  - wp_steps. wp_apply (wp_addTimer L); [done..|lia|].
    intros id w' (_ & ? & ? & Hheap & _ & _ & ?). wp_steps. split_and!; [done..| |].
    + rewrite Hheap, map_size_insert. case_match; unfold Datatypes.id; lia.
    + intros _ q s' Hq. set_solver.
  - unfold loop_cancel, cancel, runInLoop. wp_steps; [|congruence].
    wp_apply (wp_cancelInLoop L); [done..|].
    intros [] w' (? & ? & [(t & Hp & HpL & <- & ->)|[Hact ->]]).
    + split_and!; [done..| |].
      * cbn. rewrite map_size_delete. case_match; unfold Datatypes.id; lia.
      * intros _ q s' [= -> ->]%list_elem_of_singleton HqL. done.
    + destruct (callingExpiredTimers_ w) eqn:Hcalling; split_and!; try done; [cbn; lia| |lia].
      intros _ q s' [= -> ->]%list_elem_of_singleton HqL. cbn. set_solver.
Qed.

Lemma wp_run_commands L cs w :
  tq_in_loop w = true → wf_queue L w → Forall command_ok cs →
  (size (tq_heap w) + total_adds cs ≤ capacity (CB:=CB))%nat →
  wp (for_each cs run_command) (λ _ w',
    wf_queue L w' ∧ frame L w w' ∧ tq_runs w' = tq_runs w ∧
    (size (tq_heap w') ≤ capacity (CB:=CB))%nat ∧
    (callingExpiredTimers_ w = true → cancels_noted L cs w')) w.
Proof.
  revert w. induction cs as [|c cs IH]; intros w Hin Hwf Hok Hsize; cbn in Hsize |- *.
  - wp_steps. split_and!; [done..|lia|]. intros _ p s Hp. set_solver.
  - inversion_clear Hok as [|? ? Hc Hcs]. wp_steps.
    wp_apply (wp_run_command L c); [done..|lia|].
    intros [] w1 (Hwf1 & Hf1 & Hr1 & Hs1 & Hn1).
    wp_apply IH; [by rewrite (fr_in_loop _ _ _ Hf1)|done..|unfold total_adds; lia|].
    intros [] w2 (Hwf2 & Hf2 & Hr2 & Hs2 & Hn2).
    split_and!; [done|by etrans|congruence|done|]. intros Hcalling p s Hp HpL.
    apply elem_of_cons in Hp as [Hp|Hp].
    + eapply cancels_noted_mono; [done|by apply Hn1| |done]. rewrite <-Hp. set_solver.
    + apply Hn2; [|done..]. by rewrite (fr_calling _ _ _ Hf1).
Qed.

(** A callback whose calls include [c] whenever it is run. *)
Definition always_calls (cb : CB) (c : command CB) : Prop := ∀ w, c ∈ behaviour cb w.

Lemma wp_run_timer L e t w :
  tq_in_loop w = true → wf_queue L w → (size (tq_heap w) ≤ capacity (CB:=CB))%nat →
  tq_heap w !! e.2 = Some t →
  wp (run_timer e) (λ _ w',
    wf_queue L w' ∧ frame L w w' ∧ (size (tq_heap w') ≤ capacity (CB:=CB))%nat ∧
    tq_runs w' = tq_runs w ++ [(e.2, sequence t)] ∧
    (callingExpiredTimers_ w = true → ∀ p s, always_calls (callback_ t) (CmdCancel (MkTimerId p s)) →
      p ∈ L → (p, s) ∈ cancelingTimers_ w')) w.
Proof.
  intros Hin Hwf Hsize He. unfold run_timer. wp_steps. eapply wp_deref; [exact He|]. wp_steps.
  set (w1 := record_run (e.2, sequence t) w).
  destruct (behaviour_ok (callback_ t) w1 Hsize) as [Hok Hadds].
  wp_apply (wp_run_commands L _ w1); [done..|].
  intros [] w2 (? & Hf & Hr & ? & Hn). split_and!; [done| |done..|].
  - destruct Hf. by split.
  - intros Hcalling p s Hcalls HpL. by apply Hn.
Qed.

Lemma wp_run_timers L es w :
  tq_in_loop w = true → wf_queue L w → (size (tq_heap w) ≤ capacity (CB:=CB))%nat →
  (∀ e, e ∈ es → e.2 ∈ L) →
  wp (for_each es run_timer) (λ _ w',
    wf_queue L w' ∧ frame L w w' ∧ (size (tq_heap w') ≤ capacity (CB:=CB))%nat ∧
    tq_runs w' = tq_runs w ++ active_of (tq_heap w) es ∧
    (callingExpiredTimers_ w = true → ∀ e t p s, e ∈ es → tq_heap w !! e.2 = Some t →
      always_calls (callback_ t) (CmdCancel (MkTimerId p s)) → p ∈ L →
      (p, s) ∈ cancelingTimers_ w')) w.
Proof.
  revert w. induction es as [|e es IH]; intros w Hin Hwf Hsize HL; cbn [for_each].
  - wp_steps. split_and!; [done..|by rewrite app_nil_r|set_solver].
  - assert (e.2 ∈ L) as HeL by set_solver.
    destruct (wf_loose _ _ _ _ Hwf _ HeL) as [t He]. wp_steps.
    wp_apply (wp_run_timer L e t); [done..|].
    intros [] w1 (Hwf1 & Hf1 & Hs1 & Hr1 & Hn1). destruct Hf1 as [? ? ? Hheap ? ?] eqn:Hf1'.
    clear Hf1'. wp_apply IH; [congruence|done..|set_solver|].
    intros [] w2 (Hwf2 & Hf2 & Hs2 & Hr2 & Hn2). split_and!; [done|by etrans|done| |].
    + rewrite Hr2, Hr1, <-app_assoc. f_equal. unfold active_of. simpl. rewrite He. simpl.
      f_equal. apply list_omap_ext. apply Forall2_same_length_lookup_2; [done|].
      intros i x y Hx Hy. simplify_eq. rewrite Hheap; [done|].
      apply HL. apply elem_of_cons. right. by eapply list_elem_of_lookup_2.
    + intros Hcalling e' t' p s He' Ht' Hcalls HpL.
      apply elem_of_cons in He' as [->|He'].
      * simplify_eq. apply (fr_canceling _ _ _ Hf2). by apply Hn1.
      * eapply Hn2; [congruence|done| |done..]. rewrite Hheap; [done|set_solver].
Qed.

(** ** Re-arming *)

(** What becomes of the expired timer [t] at [p] when the queue is reset at
    [now]: it is restarted if it repeats and has not been cancelled by a
    callback, and freed otherwise. *)
Definition after_run (now : Timestamp) (canceling : gset ActiveTimer) (p : ptr) (t : Timer CB)
    : option (Timer CB) :=
  if repeat_ t && bool_decide ((p, sequence t) ∉ canceling)
  then match addTime now (interval_ t) with
       | Ok when => Some (set_expiration when t)
       | Fault _ => None
       end
  else None.

(** The state [reset] leaves alone. *)
Definition same_env w w' : Prop :=
  tq_in_loop w' = tq_in_loop w ∧ tq_runs w' = tq_runs w ∧ tq_queued w' = tq_queued w ∧
  callingExpiredTimers_ w' = callingExpiredTimers_ w ∧
  cancelingTimers_ w' = cancelingTimers_ w.

#[export] Instance same_env_preorder : PreOrder same_env.
Proof. unfold same_env. split; [done|]. intros w1 w2 w3. naive_solver congruence. Qed.

Lemma wp_reset_one L n e t w :
  let now := clock (CB:=CB) n in
  wf_queue L w → e.2 ∈ L → tq_heap w !! e.2 = Some t →
  wp (reset_one now e) (λ _ w',
    wf_queue (L ∖ {[e.2]}) w' ∧ same_env w w' ∧
    (size (tq_heap w') ≤ size (tq_heap w))%nat ∧
    tq_heap w' !! e.2 = after_run now (cancelingTimers_ w) e.2 t ∧
    (∀ q, q ≠ e.2 → tq_heap w' !! q = tq_heap w !! q)) w.
Proof.
  intros now Hwf HeL He. destruct (wf_heap _ _ _ _ Hwf _ _ He) as [_ [_ Hinterval]].
  unfold reset_one, after_run, now. wp_steps. eapply wp_deref; [exact He|].
  apply wp_bind, wp_gets. apply wp_if.
  - intros [Hrep Hcancel]%andb_true_iff. destruct (Hinterval Hrep n) as (when & Hwhen & Hok).
    wp_steps. eapply wp_lift_outcome.
    { unfold restart. rewrite Hrep, Hwhen. reflexivity. }
    set (t' := set_expiration when t). set (h := <[e.2:=t']> (tq_heap w)).
    wp_steps. apply (wp_insert _ t'); [apply lookup_insert_eq|]. wp_steps.
    assert (wf_queue L (set_heap h w)) as Hwf' by (apply wf_update; [done..|by split]).
    pose proof (linked_wf L e.2 t' _ Hwf' HeL (lookup_insert_eq _ _ _)).
    rewrite Hrep, Hcancel, Hwhen. split_and!; [done|done| | |].
    + cbn. unfold h. rewrite map_size_insert, He. done.
    + apply lookup_insert_eq.
    + intros q Hq. by apply lookup_insert_ne.
  - intros Hfalse. rewrite Hfalse. unfold delete_timer. wp_steps.
    eapply wp_deref; [exact He|]. wp_steps. split_and!; [by apply wf_free|done| | |].
    + cbn. rewrite map_size_delete. case_match; unfold Datatypes.id; lia.
    + apply lookup_delete_eq.
    + intros q Hq. by apply lookup_delete_ne.
Qed.

Lemma wp_reset_each L n es w :
  let now := clock (CB:=CB) n in
  wf_queue L w → NoDup es.*2 → (∀ e, e ∈ es → e.2 ∈ L) →
  wp (for_each es (reset_one now)) (λ _ w',
    wf_queue (L ∖ list_to_set es.*2) w' ∧ same_env w w' ∧
    (size (tq_heap w') ≤ size (tq_heap w))%nat ∧
    (∀ p t, p ∈ es.*2 → tq_heap w !! p = Some t →
      tq_heap w' !! p = after_run now (cancelingTimers_ w) p t) ∧
    (∀ q, q ∉ es.*2 → tq_heap w' !! q = tq_heap w !! q)) w.
Proof.
  intros now. revert L w. induction es as [|e es IH]; intros L w Hwf Hnd HL; cbn [for_each].
  - wp_steps. split_and!; [|done|lia|set_solver|done].
    simpl. by rewrite difference_empty_L.
  - assert (e.2 ∈ L) as HeL by set_solver.
    destruct (wf_loose _ _ _ _ Hwf _ HeL) as [t He].
    apply NoDup_cons in Hnd as [Hne Hnd]. wp_steps.
    wp_apply (wp_reset_one L n e t); [done..|].
    intros [] w1 (Hwf1 & Henv1 & Hs1 & He1 & Hq1).
    wp_apply (IH (L ∖ {[e.2]}) w1); [done|done| |].
    { intros e' He'. apply elem_of_difference. split; [set_solver|].
      intros Heq%elem_of_singleton. apply Hne. rewrite <-Heq. by apply list_elem_of_fmap_2. }
    intros [] w2 (Hwf2 & Henv2 & Hs2 & He2 & Hq2).
    assert (cancelingTimers_ w1 = cancelingTimers_ w) as Hcanc by apply Henv1.
    split_and!; [|by etrans|lia| |].
    + rewrite difference_difference_l_L in Hwf2. simpl. done.
    + intros p u Hp Hu. rewrite fmap_cons in Hp. apply elem_of_cons in Hp as [->|Hp].
      * simplify_eq. by rewrite Hq2.
      * rewrite (He2 p u), Hcanc; [done..|]. rewrite Hq1; [done|]. by intros ->.
    + intros q Hq. rewrite fmap_cons, not_elem_of_cons in Hq. destruct Hq.
      by rewrite Hq2, Hq1.
Qed.

(** The timerfd is programmed for the earliest remaining timer. *)
Lemma wp_reset L n es w :
  let now := clock (CB:=CB) n in
  wf_queue L w → NoDup es.*2 → (∀ e, e ∈ es → e.2 ∈ L) →
  wp (reset es now) (λ _ w',
    wf_queue (L ∖ list_to_set es.*2) w' ∧ same_env w w' ∧
    (size (tq_heap w') ≤ size (tq_heap w))%nat ∧
    (∀ p t, p ∈ es.*2 → tq_heap w !! p = Some t →
      tq_heap w' !! p = after_run now (cancelingTimers_ w) p t) ∧
    armed_in_time w') w.
Proof.
  intros now Hwf Hnd HL. unfold reset. wp_steps.
  wp_apply (wp_reset_each L n es); [done..|].
  intros [] w1 (Hwf1 & Henv1 & Hs1 & He1 & _). wp_steps.
  destruct (timers_ w1) as [|[when p] l] eqn:Hl.
  { wp_steps. rewrite <-Hl in Hwf1. split_and!; try done. unfold armed_in_time. by rewrite Hl. }
  assert ((when, p) ∈ (when, p) :: l) as Hin by set_solver.
  apply (wf_timers _ _ _ _ Hwf1) in Hin as (t & Hp & HpL & Hwhen).
  destruct (wf_heap _ _ _ _ Hwf1 _ _ Hp) as [_ [Htime _]].
  wp_steps. eapply wp_deref; [exact Hp|]. apply wp_resetTimerfd; [done|].
  rewrite <-Hl in Hwf1. split_and!; try done. unfold armed_in_time. cbn. rewrite Hl.
  eexists. split; [done|]. rewrite <-Hwhen. apply arming_armed_for.
Qed.

(** ** [handleRead] *)

(** The entries whose time has come at [now]. *)
Definition expired_at (now : Timestamp) w : list Entry :=
  filter (λ e, microSecondsSinceEpoch e.1 ≤ microSecondsSinceEpoch now) (timers_ w).

Lemma expired_at_bound L now w :
  wf_queue L w → before_bound (now, UINTPTR_MAX) (timers_ w) = expired_at now w.
Proof.
  intros Hwf. rewrite before_bound_filter by apply (wf_sorted _ _ _ _ Hwf).
  unfold expired_at. apply filter_ext_in. intros [when p] Hin.
  apply (wf_timers _ _ _ _ Hwf) in Hin as (t & Hp & _ & _).
  destruct (wf_heap _ _ _ _ Hwf _ _ Hp) as [[_ Hmax] _].
  entry_case (when, p) (now, UINTPTR_MAX); unfold entry_lt in *; simpl in *; naive_solver lia.
Qed.

Lemma wf_NoDup_ptrs L w es :
  wf_queue L w → NoDup es → es ⊆ timers_ w → NoDup es.*2.
Proof.
  intros Hwf Hnd Hsub. apply NoDup_fmap_2_strong; [|done].
  intros [when p] [when' p'] Hx Hy. simpl. intros <-.
  apply Hsub, (wf_timers _ _ _ _ Hwf) in Hx as (t & Hp & _ & <-).
  apply Hsub, (wf_timers _ _ _ _ Hwf) in Hy as (t' & Hp' & _ & <-). congruence.
Qed.

Lemma wp_getExpired L now w :
  wf_queue L w →
  wp (getExpired now) (λ es w',
    es = expired_at now w ∧ wf_queue (list_to_set es.*2 ∪ L) w' ∧
    tq_heap w' = tq_heap w ∧ same_env w w') w.
Proof.
  intros Hwf. unfold getExpired. wp_steps. set (sentry := (now, UINTPTR_MAX)).
  set (es := before_bound sentry (timers_ w)).
  assert (∀ e, e ∈ es → is_Some (tq_heap w !! e.2)) as Hlive.
  { intros [when p] [Hin _]%elem_of_before_bound; [|apply (wf_sorted _ _ _ _ Hwf)].
    apply (wf_timers _ _ _ _ Hwf) in Hin as (t & Hp & _).
    simpl. eauto. }
  eapply (wp_for_each _ (λ done w', w' = set_active
    (activeTimers_ w ∖ list_to_set (active_of (tq_heap w) done))
    (set_timers (from_bound sentry (timers_ w)) w))).
  - unfold active_of. simpl. rewrite difference_empty_L. by destruct w.
  - intros pre e post w' Hes ->. destruct (Hlive e) as [t He]; [rewrite Hes; set_solver|].
    wp_steps. eapply wp_deref; [exact He|]. wp_steps. unfold set_active. cbn. f_equal.
    unfold active_of. rewrite omap_app, list_to_set_app_L. simpl. rewrite He. simpl.
    rewrite union_empty_r_L, difference_difference_l_L. done.
  - intros w' ->. wp_steps. split_and!; [by eapply expired_at_bound| |done|done].
    by apply wf_expire.
Qed.

Record handled w w' : Prop := {
  hd_runs : let now := clock (CB:=CB) (tq_ticks w) in
    tq_runs w' = tq_runs w ++ active_of (tq_heap w) (expired_at now w);
  hd_after e t : let now := clock (CB:=CB) (tq_ticks w) in
    e ∈ expired_at now w → tq_heap w !! e.2 = Some t →
    tq_heap w' !! e.2 = after_run now (cancelingTimers_ w') e.2 t;
  hd_cancels e t e' t' : let now := clock (CB:=CB) (tq_ticks w) in
    e ∈ expired_at now w → tq_heap w !! e.2 = Some t →
    e' ∈ expired_at now w → tq_heap w !! e'.2 = Some t' →
    always_calls (callback_ t) (CmdCancel (MkTimerId e'.2 (sequence t'))) →
    (e'.2, sequence t') ∈ cancelingTimers_ w';
  hd_armed : armed_in_time w';
  hd_calling : callingExpiredTimers_ w' = false;
  hd_in_loop : tq_in_loop w' = true;
  hd_queued : tq_queued w' = tq_queued w;
  hd_size : (size (tq_heap w') ≤ capacity (CB:=CB))%nat;
}.

Lemma wp_queue_handleRead L w :
  tq_in_loop w = true → wf_queue L w → (size (tq_heap w) ≤ capacity (CB:=CB))%nat →
  wp handleRead (λ _ w', wf_queue L w' ∧ handled w w') w.
Proof.
  intros Hin Hwf Hsize. unfold handleRead, assertInLoopThread, read_clock. wp_steps; [done|].
  set (now := clock (tq_ticks w)). unfold readTimerfd. wp_steps.
  assert (∀ Q : unit → TQ CB → Prop, (∀ a, Q tt (set_armed a (tick w))) →
    wp (match timerfd_read (CB:=CB) (tq_ticks (tick w)) with
        | IoOk _ => modify (set_armed None) | IoErr _ => mret tt end) Q (tick w)) as Hread.
  { intros Q HQ. case_match; wp_steps; [apply HQ|]. by specialize (HQ (tq_armed w)). }
  apply Hread. intros arm. clear Hread. wp_steps.
  wp_apply (wp_getExpired L now (set_armed arm (tick w))); [done|].
  intros es w1 (-> & Hwf1 & Hheap1 & Hin1 & Hr1 & Hq1 & _). wp_steps.
  set (es := expired_at now w). change (expired_at now (set_armed arm (tick w))) with es in *.
  set (L1 := list_to_set es.*2 ∪ L) in *.
  set (w2 := set_canceling ∅ (set_calling true w1)).
  assert (∀ e, e ∈ es → e.2 ∈ L1) as HesL.
  { intros e He. unfold L1. apply elem_of_union_l, elem_of_list_to_set.
    by apply list_elem_of_fmap_2. }
  assert (∀ p, p ∈ es.*2 → p ∉ L) as Hdisj.
  { intros p ([when q] & -> & [_ He]%list_elem_of_filter)%list_elem_of_fmap.
    apply (wf_timers _ _ _ _ Hwf) in He as (t & _ & ? & _). done. }
  assert (NoDup es.*2) as Hnd.
  { apply (wf_NoDup_ptrs L w); [done| |].
    - apply NoDup_filter, sorted_NoDup, (wf_sorted _ _ _ _ Hwf).
    - intros e [_ He]%list_elem_of_filter. done. }
  assert (tq_heap w2 = tq_heap w) as Hheap2 by exact Hheap1.
  wp_apply (wp_run_timers L1 es w2); [by cbn; rewrite Hin1|done|by rewrite Hheap2|done|].
  intros [] w3 (Hwf3 & Hf3 & Hs3 & Hr3 & Hn3). wp_steps.
  set (w4 := set_calling false w3).
  wp_apply (wp_reset L1 (tq_ticks w) es w4); [done..|].
  intros [] w5 (Hwf5 & (Hin5 & Hr5 & Hq5 & Hc5 & Hcanc5) & Hs5 & He5 & Harm5).
  split.
  { replace L with (L1 ∖ list_to_set es.*2); [done|]. apply set_eq. intros p.
    specialize (Hdisj p). unfold L1. rewrite elem_of_difference, elem_of_union.
    rewrite elem_of_list_to_set. tauto. }
  assert (∀ e, e ∈ es → tq_heap w3 !! e.2 = tq_heap w !! e.2) as Hheap3.
  { intros e He. rewrite (fr_heap _ _ _ Hf3), Hheap2 by auto. done. }
  split; cbv zeta.
  - rewrite Hr5. change (tq_runs w4) with (tq_runs w3). rewrite Hr3, Hheap2. cbn. by rewrite Hr1.
  - intros e t He Ht. rewrite Hcanc5. apply He5; [by apply list_elem_of_fmap_2|].
    cbn. by rewrite Hheap3.
  - intros e t e' t' He Ht He' Ht' Hcalls. rewrite Hcanc5. cbn.
    eapply Hn3; [done|exact He|by rewrite Hheap2|done|by apply HesL].
  - done.
  - by rewrite Hc5.
  - rewrite Hin5. cbn. rewrite (fr_in_loop _ _ _ Hf3). cbn. by rewrite Hin1.
  - rewrite Hq5. cbn. rewrite (fr_queued _ _ _ Hf3). cbn. by rewrite Hq1.
  - etrans; [exact Hs5|done].
Qed.

(** ** The queue among the threads that use it *)

Definition set_in_loop (b : bool) w : TQ CB :=
  MkTQ (tq_heap w) (s_numCreated_ w) (timers_ w) (activeTimers_ w) (cancelingTimers_ w)
    (callingExpiredTimers_ w) (tq_armed w) (tq_ticks w) (tq_queued w) b (tq_runs w).
Definition set_queued (q : list tq_functor) w : TQ CB :=
  MkTQ (tq_heap w) (s_numCreated_ w) (timers_ w) (activeTimers_ w) (cancelingTimers_ w)
    (callingExpiredTimers_ w) (tq_armed w) (tq_ticks w) q (tq_in_loop w) (tq_runs w).

(** A call from the loop thread or from another one, the loop running the
    oldest functor, and the timerfd becoming readable. *)
Inductive tq_event : Type :=
| Call (in_loop : bool) (c : command CB)
| RunQueued
| TimerReadable.

Definition run_event (ev : tq_event) : M (TQ CB) unit :=
  match ev with
  | Call b c => modify (set_in_loop b) ;; run_command c
  | RunQueued =>
      modify (set_in_loop true) ;;
      q ← gets tq_queued;
      match q with
      | [] => mret tt
      | f :: q' => modify (set_queued q') ;; run_tq_functor f
      end
  | TimerReadable => modify (set_in_loop true) ;; handleRead
  end.

Definition event_ok (ev : tq_event) w : Prop :=
  match ev with
  | Call _ c => command_ok c ∧ (size (tq_heap w) + adds c ≤ capacity (CB:=CB))%nat
  | _ => True
  end.

Definition tq_step w w' : Prop := ∃ ev, event_ok ev w ∧ run_event ev w = Ok (tt, w').

(** The timers on their way into the queue. *)
Definition arriving (q : list tq_functor) : list ptr :=
  omap (λ f, match f with AddTimerInLoop p => Some p | CancelInLoop _ => None end) q.

Record queue_inv w : Prop := {
  qi_wf : wf_queue (list_to_set (arriving (tq_queued w))) w;
  qi_arriving : NoDup (arriving (tq_queued w));
  qi_calling : callingExpiredTimers_ w = false;
  qi_armed : armed_in_time w;
  qi_size : (size (tq_heap w) ≤ capacity (CB:=CB))%nat;
}.

Lemma queue_inv_in_loop b w : queue_inv w → queue_inv (set_in_loop b w).
Proof. intros []. by split. Qed.

Lemma arriving_snoc q f : arriving (q ++ [f]) = arriving q ++ arriving [f].
Proof. apply omap_app. Qed.

(** A timer handed over by another thread. *)
Lemma enqueue_add_inv cb when interval w :
  queue_inv w → command_ok (CmdAdd cb when interval) →
  (size (tq_heap w) < capacity (CB:=CB))%nat →
  queue_inv (enqueue (AddTimerInLoop (alloc (tq_heap w))) (allocated cb when interval w)).
Proof.
  intros [Hwf Hnd Hcall Harm Hsize] Hok Hlt. set (p := alloc (tq_heap w)).
  destruct (alloc_ok (tq_heap w) Hlt) as [Hp _].
  pose proof (allocated_wf _ cb when interval w Hwf Hok Hlt) as Hwf'.
  assert (p ∉ arriving (tq_queued w)) as Hfresh.
  { intros Hpa%(elem_of_list_to_set (C:=gset ptr)). apply (wf_loose _ _ _ _ Hwf) in Hpa.
    unfold p in Hpa. rewrite Hp in Hpa. by destruct Hpa. }
  split; cbn; rewrite ?arriving_snoc; cbn [arriving omap list_omap]; try done.
  - rewrite list_to_set_app_L. simpl. rewrite union_empty_r_L, union_comm_L. done.
  - apply NoDup_app. split_and!; [done|set_solver|apply NoDup_singleton].
  - rewrite map_size_insert, Hp. simpl. lia.
Qed.

Lemma wp_command_other_thread c w :
  queue_inv w → tq_in_loop w = false → command_ok c →
  (size (tq_heap w) + adds c ≤ capacity (CB:=CB))%nat →
  wp (run_command c) (λ _ w', queue_inv w') w.
Proof.
  intros Hinv Hin Hok Hs. destruct c as [cb when interval|[p s]]; cbn [run_command adds] in *.
  - unfold addTimer, allocate_timer, runInLoop, make_TimerId.
    wp_steps; [cbn in *; congruence|]. eapply wp_deref; [apply lookup_insert_eq|]. wp_steps.
    apply enqueue_add_inv; [done..|lia].
  - unfold loop_cancel, cancel, runInLoop. wp_steps; [congruence|]. destruct Hinv.
    split; cbn; rewrite ?arriving_snoc; cbn [arriving omap list_omap]; rewrite ?app_nil_r; done.
Qed.

Lemma wp_command_loop_thread c w :
  queue_inv w → tq_in_loop w = true → command_ok c →
  (size (tq_heap w) + adds c ≤ capacity (CB:=CB))%nat →
  wp (run_command c) (λ _ w', queue_inv w') w.
Proof.
  intros [Hwf Hnd Hcall Harm Hsize] Hin Hok Hs.
  wp_apply (wp_run_command (list_to_set (arriving (tq_queued w)))); [done..|].
  intros [] w' (Hwf' & Hf & _ & Hs' & _). destruct Hf as [_ Hq Hc _ _ Harmed].
  split; rewrite ?Hq; [done..|congruence|auto|lia].
Qed.

Lemma wp_run_queue_functor f q w :
  queue_inv w → tq_in_loop w = true → tq_queued w = f :: q →
  wp (run_tq_functor f) (λ _ w', queue_inv w') (set_queued q w).
Proof.
  intros [Hwf Hnd Hcall Harm Hsize] Hin Hq. rewrite Hq in Hwf, Hnd.
  destruct f as [p|[p s]]; cbn [run_tq_functor]; cbn in Hwf, Hnd.
  - apply NoDup_cons in Hnd as [Hp Hnd]. set (L := list_to_set (arriving q) : gset ptr).
    destruct (wf_loose _ _ _ _ Hwf p) as [t Ht]; [set_solver|].
    wp_apply (wp_addTimerInLoop ({[p]} ∪ L) p t); [done|done|set_solver|done|].
    intros [] w' (Hwf' & Hf & Hheap & _). destruct Hf as [_ Hq' Hc _ _ Harmed].
    split; rewrite ?Hq'; [|done|by rewrite Hc|auto|by rewrite Hheap].
    replace (list_to_set _) with (({[p]} ∪ L) ∖ {[p]}); [done|].
    assert (p ∉ L) by (unfold L; by rewrite elem_of_list_to_set). set_solver.
  - wp_apply (wp_cancelInLoop (list_to_set (arriving q))); [done..|].
    intros [] w' (Hwf' & Hf & Hcases). destruct Hf as [_ Hq' Hc _ _ Harmed].
    split; rewrite ?Hq'; [done..|by rewrite Hc|auto|].
    destruct Hcases as [(t & _ & _ & _ & ->)|[_ ->]]; cbn.
    + rewrite map_size_delete. case_match; unfold Datatypes.id; lia.
    + rewrite Hcall. done.
Qed.

Lemma wp_run_event ev w :
  queue_inv w → event_ok ev w → wp (run_event ev) (λ _ w', queue_inv w') w.
Proof.
  intros Hinv Hok. pose proof (queue_inv_in_loop true w Hinv) as Hinv'.
  destruct ev as [b c| |]; cbn [run_event]; wp_steps.
  - destruct Hok as [Hc Hs]. destruct b.
    + by apply wp_command_loop_thread.
    + apply wp_command_other_thread; try done. by apply queue_inv_in_loop.
  - cbn. destruct (tq_queued w) as [|f q] eqn:Hq; wp_steps; [done|].
    by apply (wp_run_queue_functor f q (set_in_loop true w)).
  - destruct Hinv as [Hwf Hnd Hcall Harm Hsize].
    wp_apply (wp_queue_handleRead (list_to_set (arriving (tq_queued w))) (set_in_loop true w));
      [done..|].
    intros [] w' [Hwf' [_ _ _ ? ? _ Hq ?]]. cbn in *. split; by rewrite ?Hq.
Qed.

Lemma empty_queue_inv b : queue_inv (empty_queue CB b).
Proof. split; cbn; [apply wf_empty|constructor|done|done|]. rewrite map_size_empty. lia. Qed.

Lemma queue_reachable_inv b w : rtc tq_step (empty_queue CB b) w → queue_inv w.
Proof.
  apply rtc_invariant; [|apply empty_queue_inv].
  intros w1 w2 Hinv (ev & Hok & Hrun). pose proof (wp_run_event ev w1 Hinv Hok) as Hwp.
  unfold wp in Hwp. by rewrite Hrun in Hwp.
Qed.
End operations.
