(* ===== verification/TimerQueueProps.v ===== *)
(** * The properties of the timer queue (src/net/TimerQueue.cc)

    What [TimerQueueSpec] establishes, stated for the users of the queue, with
    a concrete environment in which every statement is run. *)
From stdpp Require Import sorting.
From S2P Require Import Prelude Posix Channel Timestamp Timer EntrySet TimerQueue TimerQueueSpec.
From Stdlib Require Import Floats.SpecFloat.

(** ** A concrete environment

    The clock advances by a second per reading, memory holds 100 timers, and
    a callback is the list of the timers it cancels. *)
Definition demo_addresses : list ptr := Z.of_nat <$> seq 1 100.

#[export] Instance demo_env : TimerEnv (list TimerId) := {
  clock n := MkTimestamp (1000000 * Z.of_nat (n `min` 1000));
  alloc h := default 1 (head (filter (λ p, h !! p = None) demo_addresses));
  capacity := 100;
  timerfd_settime _ := IoOk tt;
  timerfd_read _ := IoOk 1;
  behaviour cb _ := CmdCancel <$> cb;
}.

Lemma demo_alloc_ok (h : gmap ptr (Timer (list TimerId))) :
  (size h < 100)%nat → h !! alloc h = None ∧ valid_ptr (alloc h).
Proof.
  intros Hsize. cbn [alloc demo_env].
  destruct (filter _ _) as [|p l] eqn:Hfilter; simpl.
  - exfalso. assert (list_to_set demo_addresses ⊆ dom h) as Hsub.
    { intros p Hp%elem_of_list_to_set. apply elem_of_dom.
      destruct (h !! p) eqn:Hhp; [eauto|].
      by destruct (filter_nil_not_elem_of _ demo_addresses p Hfilter Hhp). }
    apply subseteq_size in Hsub. rewrite size_dom, size_list_to_set in Hsub.
    + change (length demo_addresses) with 100%nat in Hsub. lia.
    + apply NoDup_fmap_2; [apply Nat2Z.inj'|apply NoDup_seq].
  - assert (p ∈ filter (λ p, h !! p = None) demo_addresses) as Hp by (rewrite Hfilter; set_solver).
    apply list_elem_of_filter in Hp as [Hhp Hp]. split; [done|].
    apply list_elem_of_fmap in Hp as (n & -> & Hn%elem_of_seq).
    unfold valid_ptr, UINTPTR_MAX. lia.
Qed.

#[export] Instance demo_env_spec : TimerEnvSpec (list TimerId).
Proof.
  split.
  - intros n. unfold time_ok. cbn. lia.
  - apply demo_alloc_ok.
  - done.
  - intros cb w Hsize. cbn [behaviour demo_env]. split.
    + apply Forall_fmap, Forall_forall. done.
    + assert (total_adds (CmdCancel <$> cb : list (command (list TimerId))) = 0)%nat as ->; [|lia].
      unfold total_adds. induction cb; done.
Defined.

(** A queue with two one-shot timers for 3 s, a repeating timer for 2 s that
    cancels the one with sequence number 4, and a repeating timer for 2 s. *)
Definition ts (seconds : Z) : Timestamp := MkTimestamp (1000000 * seconds).
Definition exec (ev : tq_event (CB:=list TimerId)) (w : TQ (list TimerId)) : TQ (list TimerId) :=
  match run_event ev w with Ok (_, w') => w' | Fault _ => w end.
Definition demo_calls : list (command (list TimerId)) :=
  [CmdAdd [] (ts 3) (double_of_Z 0); CmdAdd [] (ts 3) (double_of_Z 0);
   CmdAdd [MkTimerId 4 4] (ts 2) (double_of_Z 5); CmdAdd [] (ts 2) (double_of_Z 1)].
Definition demo_queue : TQ (list TimerId) :=
  foldl (λ w c, exec (Call true c) w) (empty_queue _ true) demo_calls.

Example demo_timers : timers_ demo_queue = [(ts 2, 3); (ts 2, 4); (ts 3, 1); (ts 3, 2)].
Proof. vm_compute. reflexivity. Qed.

Lemma exec_inv ev w : queue_inv w → event_ok ev w → queue_inv (exec ev w).
Proof.
  intros Hinv Hok. pose proof (wp_run_event ev w Hinv Hok) as Hwp.
  unfold wp in Hwp. unfold exec. by destruct (run_event ev w) as [[[] w']|].
Qed.

Lemma demo_interval_ok i :
  In i [1; 5] → interval_ok (double_of_Z i).
Proof.
  intros Hi n. unfold addTime.
  replace (int64_of_double _) with (Ok (i * 1000000) : outcome Z)
    by (destruct Hi as [<-|[<-|[]]]; vm_compute; reflexivity).
  assert (i = 1 ∨ i = 5) by (destruct Hi as [<-|[<-|[]]]; auto).
  cbn [mbind outcome_bind]. cbn [clock demo_env microSecondsSinceEpoch microSecondsSinceEpoch_].
  rewrite i64_ok by lia. eexists. split; [done|]. unfold time_ok. cbn. lia.
Qed.

Lemma demo_calls_ok : Forall command_ok demo_calls.
Proof.
  unfold demo_calls, command_ok, ts, time_ok.
  repeat (apply Forall_cons_2; [split; [cbn; lia|intros Hgtb]|]); [..|apply Forall_nil_2];
    (by vm_compute in Hgtb) || (apply demo_interval_ok; simpl; tauto).
Qed.

Lemma exec_step ev w : queue_inv w → event_ok ev w → tq_step w (exec ev w).
Proof.
  intros Hinv Hok. exists ev. split; [done|]. pose proof (wp_run_event ev w Hinv Hok) as Hwp.
  unfold wp in Hwp. unfold exec. by destruct (run_event ev w) as [[[] w']|].
Qed.

Lemma demo_queue_steps : queue_inv demo_queue ∧ rtc tq_step (empty_queue _ true) demo_queue.
Proof.
  assert (∀ cs w, Forall command_ok cs → queue_inv w →
    (size (tq_heap w) + length cs ≤ 100)%nat →
    queue_inv (foldl (λ w c, exec (Call true c) w) w cs) ∧
    rtc tq_step w (foldl (λ w c, exec (Call true c) w) w cs)).
  { induction cs as [|c cs IH]; intros w Hok Hinv Hsize; [done|]. simpl.
    inversion_clear Hok as [|? ? Hc Hcs].
    assert (event_ok (Call true c) w) as Hok.
    { split; [done|]. cbn in *. destruct c; cbn; lia. }
    destruct (IH (exec (Call true c) w)) as [? Hrtc]; [done|by apply exec_inv| |].
    2:{ split; [done|]. eapply rtc_l; [by apply exec_step|done]. }
    pose proof (wp_run_command (list_to_set (arriving (tq_queued w))) c (set_in_loop true w)
      eq_refl (qi_wf _ Hinv) Hc (proj2 Hok)) as Hwp.
    unfold exec, run_event, mbind, M_bind, modify. unfold wp in Hwp.
    destruct (run_command c (set_in_loop true w)) as [[[] w']|]; [|done].
    destruct Hwp as (_ & _ & _ & Hs & _). cbn in Hs, Hsize. destruct c; cbn in Hs; lia. }
  apply H; [apply demo_calls_ok|apply empty_queue_inv|]. cbn. rewrite map_size_empty. lia.
Qed.
Lemma demo_queue_inv : queue_inv demo_queue.
Proof. apply demo_queue_steps. Qed.

(** ** The properties *)

Section properties.
Context {CB : Type} `{!TimerEnv CB, !TimerEnvSpec CB}.
Implicit Types w : TQ CB.

(** C8 (invariant). However the calls of the loop thread and of other
    threads, the functors queued by the latter and the expirations of the
    timerfd interleave, every one of these steps succeeds (no access to a
    freed timer, no overflow), the two sets describe exactly the live timers
    that are not still on their way into the queue, and the timerfd is
    programmed, with a valid non-zero value, to fire no later than the
    earliest expiration. *)
Theorem queue_safe b w :
  rtc tq_step (empty_queue CB b) w →
  wf_queue (list_to_set (arriving (tq_queued w))) w ∧ armed_in_time w ∧
  ∀ ev, event_ok ev w → ∃ w', run_event ev w = Ok (tt, w').
Proof.
  intros Hinv%queue_reachable_inv. split_and!; [apply Hinv..|].
  intros ev Hok. pose proof (wp_run_event ev w Hinv Hok) as Hwp. apply wp_run in Hwp.
  destruct Hwp as ([] & w' & Hrun & _). eauto.
Qed.

Lemma active_of_runs L w es :
  wf_queue L w → es ⊆ timers_ w →
  Forall2 (λ e r, r.1 = e.2 ∧ r ∈ activeTimers_ w) es (active_of (tq_heap w) es).
Proof.
  intros Hwf. induction es as [|[when p] es IH]; intros Hsub; [constructor|].
  assert ((when, p) ∈ timers_ w) as Hin by (apply Hsub; set_solver).
  apply (wf_timers _ _ _ _ Hwf) in Hin as (t & Ht & HpL & Hwhen).
  unfold active_of. simpl. rewrite Ht. simpl. constructor; [|apply IH; set_solver].
  split; [done|]. apply (wf_active _ _ _ _ Hwf). eauto.
Qed.

(** C19 (functional). When the timerfd becomes readable, [handleRead] runs
    exactly the timers whose expiration is not after the current time, each
    once, in the order of their expirations (and of their addresses where
    these are equal). *)
Theorem handleRead_runs_expired w :
  queue_inv w → tq_in_loop w = true →
  let now := clock (CB:=CB) (tq_ticks w) in
  let expired := filter
    (λ e, microSecondsSinceEpoch e.1 ≤ microSecondsSinceEpoch now) (timers_ w) in
  wp handleRead (λ _ w', ∃ runs,
    tq_runs w' = tq_runs w ++ runs ∧
    Forall2 (λ e r, r.1 = e.2 ∧ r ∈ activeTimers_ w) expired runs ∧
    NoDup expired.*2 ∧ sorted expired) w.
Proof.
  intros [Hwf _ _ _ Hsize] Hin now expired.
  wp_apply (wp_queue_handleRead _ w Hin Hwf Hsize). intros [] w' [_ Hh].
  assert (expired ⊆ timers_ w) as Hsub by (intros e [_ ?]%list_elem_of_filter; done).
  pose proof (wf_sorted _ _ _ _ Hwf) as Hs.
  exists (active_of (tq_heap w) expired). split_and!.
  - apply (hd_runs _ _ Hh).
  - by eapply active_of_runs.
  - eapply wf_NoDup_ptrs; [done| |done]. by apply NoDup_filter, sorted_NoDup.
  - change expired with (expired_at now w). erewrite <-expired_at_bound by done.
    by apply sorted_before_bound.
Qed.

(** C31 (functional). After the callbacks have run, a timer that expired is
    back in both sets, due an interval after the current time, when it
    repeats and no callback has cancelled it; otherwise it is freed and in
    neither set. The timerfd is programmed for the earliest timer left. *)
Theorem handleRead_rearms w e t :
  queue_inv w → tq_in_loop w = true →
  let now := clock (CB:=CB) (tq_ticks w) in
  e ∈ timers_ w → microSecondsSinceEpoch e.1 ≤ microSecondsSinceEpoch now →
  tq_heap w !! e.2 = Some t →
  wp handleRead (λ _ w',
    armed_in_time w' ∧
    if repeat_ t && bool_decide ((e.2, sequence t) ∉ cancelingTimers_ w')
    then ∃ when, addTime now (interval_ t) = Ok when ∧
           tq_heap w' !! e.2 = Some (set_expiration when t) ∧
           (when, e.2) ∈ timers_ w' ∧ (e.2, sequence t) ∈ activeTimers_ w'
    else tq_heap w' !! e.2 = None ∧
         ∀ when s, (when, e.2) ∉ timers_ w' ∧ (e.2, s) ∉ activeTimers_ w') w.
Proof.
  intros [Hwf _ _ _ Hsize] Hin now He Hle Ht.
  wp_apply (wp_queue_handleRead _ w Hin Hwf Hsize). intros [] w' [Hwf' Hh].
  assert (e ∈ expired_at now w) as Hexp by by apply list_elem_of_filter.
  pose proof (hd_after _ _ Hh e t Hexp Ht) as Hafter. fold now in Hafter.
  split; [apply (hd_armed _ _ Hh)|]. unfold after_run in Hafter.
  destruct (wf_heap _ _ _ _ Hwf _ _ Ht) as [_ [_ Hinterval]].
  destruct e as [when0 p]. cbn [fst snd] in *.
  assert (p ∉ (list_to_set (arriving (tq_queued w)) : gset ptr)) as HpL.
  { apply (wf_timers _ _ _ _ Hwf) in He as (? & _ & ? & _). done. }
  destruct (repeat_ t && _) eqn:Hcond.
  - apply andb_true_iff in Hcond as [Hrep _].
    destruct (Hinterval Hrep (tq_ticks w)) as (when & Hwhen & _). fold now in Hwhen.
    rewrite Hwhen in Hafter. exists when. split_and!; [done..| |].
    + apply (wf_timers _ _ _ _ Hwf'). eauto.
    + apply (wf_active _ _ _ _ Hwf'). eauto.
  - split; [done|]. intros when s. split; intros Hbad.
    + apply (wf_timers _ _ _ _ Hwf') in Hbad as (? & ? & _). congruence.
    + apply (wf_active _ _ _ _ Hwf') in Hbad as (? & ? & _). congruence.
Qed.

(** A callback that cancels a timer that expired together with
    its own, or its own, keeps it from being re-armed: the timer is freed
    and in neither set when [handleRead] returns. *)
Lemma cancel_in_callback w e t e' t' :
  queue_inv w → tq_in_loop w = true →
  let now := clock (CB:=CB) (tq_ticks w) in
  e ∈ timers_ w → microSecondsSinceEpoch e.1 ≤ microSecondsSinceEpoch now →
  e' ∈ timers_ w → microSecondsSinceEpoch e'.1 ≤ microSecondsSinceEpoch now →
  tq_heap w !! e.2 = Some t → tq_heap w !! e'.2 = Some t' →
  (∀ w', CmdCancel (MkTimerId e'.2 (sequence t')) ∈ behaviour (callback_ t) w') →
  wp handleRead (λ _ w',
    tq_heap w' !! e'.2 = None ∧ ∀ when s, (when, e'.2) ∉ timers_ w' ∧
    (e'.2, s) ∉ activeTimers_ w') w.
Proof.
  intros [Hwf _ _ _ Hsize] Hin now He Hle He' Hle' Ht Ht' Hcalls.
  wp_apply (wp_queue_handleRead _ w Hin Hwf Hsize). intros [] w' [Hwf' Hh].
  assert (e ∈ expired_at now w) as Hexp by by apply list_elem_of_filter.
  assert (e' ∈ expired_at now w) as Hexp' by by apply list_elem_of_filter.
  pose proof (hd_cancels _ _ Hh e t e' t' Hexp Ht Hexp' Ht' Hcalls) as Hcanc.
  pose proof (hd_after _ _ Hh e' t' Hexp' Ht') as Hafter. unfold after_run in Hafter.
  rewrite bool_decide_eq_false_2, andb_false_r in Hafter by tauto.
  split; [done|]. intros when s. split; intros Hbad.
  - apply (wf_timers _ _ _ _ Hwf') in Hbad as (? & ? & _). congruence.
  - apply (wf_active _ _ _ _ Hwf') in Hbad as (? & ? & _). congruence.
Qed.

(** C32 (functional). Outside the callbacks, [cancel] with the handle of a
    timer that is in the queue frees exactly this timer and takes it out of
    both sets; a stale handle (the timer has been freed, even when its
    address is in use again) changes nothing. *)
Theorem cancel_exact w p s :
  queue_inv w → tq_in_loop w = true →
  wp (cancel (MkTimerId p s)) (λ _ w',
    if decide ((p, s) ∈ activeTimers_ w)
    then tq_heap w' = delete p (tq_heap w) ∧
         activeTimers_ w' = activeTimers_ w ∖ {[(p, s)]} ∧
         ∀ e, e ∈ timers_ w' ↔ e ∈ timers_ w ∧ e.2 ≠ p
    else w' = w) w.
Proof.
  intros [Hwf _ Hcall _ _] Hin. unfold cancel, runInLoop. wp_steps; [|congruence].
  wp_apply (wp_cancelInLoop _ p s w Hin Hwf).
  intros [] w' (_ & _ & [(t & Ht & HpL & <- & ->)|[Hna ->]]).
  - rewrite decide_True by (apply (wf_active _ _ _ _ Hwf); eauto).
    split_and!; [done..|]. intros [when q]. cbn.
    rewrite elem_of_set_erase, (wf_timers _ _ _ _ Hwf) by apply (wf_sorted _ _ _ _ Hwf).
    split; intros [Hq Hne]; (split; [done|]); [|congruence].
    intros ->. destruct Hq as (u & Hu & _ & <-). congruence.
  - rewrite decide_False by done. by rewrite Hcall.
Qed.

(** Cancelling a timer that has just been added leaves the
    timers and both sets as they were before it was added. *)
Lemma addTimer_cancel w cb when interval :
  queue_inv w → tq_in_loop w = true → command_ok (CmdAdd cb when interval) →
  (size (tq_heap w) < capacity (CB:=CB))%nat →
  wp (id ← addTimer cb when interval; cancel id) (λ _ w',
    tq_heap w' = tq_heap w ∧ timers_ w' = timers_ w ∧ activeTimers_ w' = activeTimers_ w) w.
Proof.
  intros [Hwf _ _ _ _] Hin Hok Hsize. destruct (alloc_ok _ Hsize) as [Hfresh _].
  wp_steps. wp_apply (wp_addTimer _ cb when interval w Hin Hwf Hok Hsize).
  set (p := alloc (tq_heap w)) in *. set (t := fresh_timer cb when interval w).
  intros id w1 (-> & Hwf1 & Hf1 & Hheap & Hti & Hac & _).
  unfold cancel, runInLoop. pose proof (fr_in_loop _ _ _ Hf1) as Hin1.
  wp_steps; [|congruence]. wp_apply (wp_cancelInLoop _ p (sequence t) w1); [congruence|done|].
  assert (∀ e, (e, p) ∉ timers_ w ∧ ∀ s, (p, s) ∉ activeTimers_ w) as Hnew.
  { intros e. split; [intros Hin'%(wf_timers _ _ _ _ Hwf)|
      intros s Hin'%(wf_active _ _ _ _ Hwf)]; destruct Hin' as (? & ? & _); congruence. }
  intros [] w' (_ & _ & [(u & Hu & _ & _ & ->)|[Hna _]]).
  - rewrite Hheap, lookup_insert_eq in Hu. injection Hu as <-. cbn.
    rewrite Hheap, Hti, Hac, delete_insert_id by done. cbn. split_and!; [done| |].
    + apply set_erase_insert; [apply (wf_sorted _ _ _ _ Hwf)|apply Hnew].
    + apply set_eq. intros [q s]. destruct (Hnew when) as [_ Hnew'].
      specialize (Hnew' s). set_solver.
  - exfalso. apply Hna. rewrite Hac. cbn. set_solver.
Qed.

(** The timer [id] is in the queue: its callback, expiration and interval. *)
Definition scheduled (id : TimerId) (cb : CB) (when : Timestamp) (interval : double) w : Prop :=
  ∃ t, tq_heap w !! timer_ id = Some t ∧ sequence t = id_sequence_ id ∧ callback_ t = cb ∧
    expiration t = when ∧ interval_ t = interval ∧
    repeat_ t = double_gtb interval (double_of_Z 0) ∧
    (when, timer_ id) ∈ timers_ w ∧ (timer_ id, sequence t) ∈ activeTimers_ w.

Lemma wp_addTimer_scheduled cb when interval w :
  wf_queue (list_to_set (arriving (tq_queued w))) w → tq_in_loop w = true → armed_in_time w →
  command_ok (CmdAdd cb when interval) → (size (tq_heap w) < capacity (CB:=CB))%nat →
  wp (addTimer cb when interval) (λ id w',
    scheduled id cb when interval w' ∧ tq_heap w !! timer_ id = None ∧ armed_in_time w' ∧
    ∀ e, e ∈ timers_ w → e ∈ timers_ w') w.
Proof.
  intros Hwf Hin Harm Hok Hsize. destruct (alloc_ok _ Hsize) as [Hfresh _].
  wp_apply (wp_addTimer _ cb when interval w Hin Hwf Hok Hsize).
  set (p := alloc (tq_heap w)) in *. set (t := fresh_timer cb when interval w).
  intros id w' (-> & _ & Hf & Hheap & Hti & Hac & _). cbn [timer_].
  split_and!; [|done|by apply (fr_armed _ _ _ Hf)|].
  - exists t. rewrite Hheap, Hti, Hac, lookup_insert_eq. split_and!; try done.
    + apply elem_of_set_insert. by left.
    + cbn. set_solver.
  - intros e He. rewrite Hti. apply elem_of_set_insert. by right.
Qed.

(** In the loop thread, [runAt], [runAfter] and [runEvery] put
    a new timer with the given callback into the queue: for the given time and
    once, for [delay] after the current time and once, for [interval] after
    the current time and again every [interval]. The timers that were in the
    queue stay, and the timerfd fires in time for all of them. *)
Lemma run_schedules w cb when delay :
  queue_inv w → tq_in_loop w = true → time_ok when → interval_ok (CB:=CB) delay →
  (size (tq_heap w) < capacity (CB:=CB))%nat →
  let now := clock (CB:=CB) (tq_ticks w) in
  let added id time interval w' :=
    scheduled id cb time interval w' ∧ tq_heap w !! timer_ id = None ∧ armed_in_time w' ∧
    ∀ e, e ∈ timers_ w → e ∈ timers_ w' in
  wp (runAt when cb) (λ id w', added id when (double_of_Z 0) w') w ∧
  wp (runAfter delay cb) (λ id w', ∃ time,
    addTime now delay = Ok time ∧ added id time (double_of_Z 0) w') w ∧
  wp (runEvery delay cb) (λ id w', ∃ time,
    addTime now delay = Ok time ∧ added id time delay w') w.
Proof.
  intros [Hwf _ _ Harm _] Hin Hwhen Hdelay Hsize now added.
  destruct (Hdelay (tq_ticks w)) as (time & Htime & Htok).
  assert (∀ t, time_ok t → command_ok (CmdAdd cb t (double_of_Z 0))) as Honce
    by (intros t Ht; split; [done|intros Hgtb; by vm_compute in Hgtb]).
  split_and!.
  - exact (wp_addTimer_scheduled cb when (double_of_Z 0) w Hwf Hin Harm (Honce _ Hwhen) Hsize).
  - unfold runAfter, runAt, read_clock. wp_steps. eapply wp_lift_outcome; [exact Htime|].
    eapply wp_mono;
      [exact (wp_addTimer_scheduled cb time (double_of_Z 0) (tick w) Hwf Hin Harm
                (Honce _ Htok) Hsize)|].
    intros id w' Hadded. by exists time.
  - unfold runEvery, read_clock. wp_steps. eapply wp_lift_outcome; [exact Htime|].
    eapply wp_mono;
      [exact (wp_addTimer_scheduled cb time delay (tick w) Hwf Hin Harm
                (conj Htok (λ _, Hdelay)) Hsize)|].
    intros id w' Hadded. by exists time.
Qed.

Lemma wp_delete_timer p t Q w :
  tq_heap w !! p = Some t → Q tt (set_heap (delete p (tq_heap w)) w) →
  wp (delete_timer p) Q w.
Proof. intros Hp HQ. unfold delete_timer. wp_steps. eapply wp_deref; [exact Hp|]. by wp_steps. Qed.

Lemma wp_destroy_each (es : list Entry) w :
  NoDup es.*2 → (∀ e, e ∈ es → is_Some (tq_heap w !! e.2)) →
  wp (for_each es (λ it, delete_timer it.2)) (λ _ w',
    ∀ p, tq_heap w' !! p = if decide (p ∈ es.*2) then None else tq_heap w !! p) w.
Proof.
  revert w. induction es as [|e es IH]; intros w Hnd Hlive; cbn [for_each]; [by wp_steps|].
  rewrite fmap_cons in Hnd. apply NoDup_cons in Hnd as [Hne Hnd].
  destruct (Hlive e) as [t Ht]; [set_solver|].
  wp_steps. apply (wp_delete_timer _ t); [done|]. wp_apply IH; [done| |].
  - intros e' He'. cbn. rewrite lookup_delete_ne; [apply Hlive; set_solver|].
    intros Heq. apply Hne. rewrite Heq. by apply list_elem_of_fmap_2.
  - intros [] w' Hp p. rewrite Hp. cbn. destruct (decide (p = e.2)) as [->|Hpe].
    + rewrite decide_False, lookup_delete_eq, decide_True by set_solver. done.
    + rewrite lookup_delete_ne by done.
      destruct (decide (p ∈ es.*2)); [rewrite decide_True|rewrite decide_False]; set_solver.
Qed.

(** The destructor frees every timer of the queue exactly
    once; what is left in memory are the timers that were still on their way
    into the queue. *)
Lemma destroy_frees w :
  queue_inv w →
  wp destroy (λ _ w', ∀ p, is_Some (tq_heap w' !! p) ↔ p ∈ arriving (tq_queued w)) w.
Proof.
  intros [Hwf _ _ _ _]. unfold destroy. wp_steps. wp_apply wp_destroy_each.
  - eapply wf_NoDup_ptrs; [done| |done]. apply sorted_NoDup, (wf_sorted _ _ _ _ Hwf).
  - intros [when p] Hin. apply (wf_timers _ _ _ _ Hwf) in Hin as (t & Ht & _). eauto.
  - intros [] w' Hw' p. rewrite Hw', <-(elem_of_list_to_set (C:=gset ptr) p (arriving _)).
    case_decide as Hp.
    + apply list_elem_of_fmap in Hp as ([when q] & -> & Hin).
      apply (wf_timers _ _ _ _ Hwf) in Hin as (t & _ & HL & _).
      split; [by intros []|done].
    + split; [|apply (wf_loose _ _ _ _ Hwf)]. intros [t Ht].
      destruct (decide (p ∈ (list_to_set (arriving (tq_queued w)) : gset ptr))); [done|].
      destruct Hp. apply list_elem_of_fmap. exists (expiration t, p). split; [done|].
      apply (wf_timers _ _ _ _ Hwf). eauto.
Qed.

Lemma run_queued_add w p t :
  queue_inv w → tq_queued w = [AddTimerInLoop p] → tq_heap w !! p = Some t →
  wp (run_event RunQueued) (λ _ w',
    queue_inv w' ∧ tq_heap w' !! p = Some t ∧ (expiration t, p) ∈ timers_ w') w.
Proof.
  intros Hinv Hq Ht. apply wp_and; [by apply wp_run_event|].
  destruct Hinv as [Hwf _ _ _ _]. cbn [run_event]. wp_steps. cbn. rewrite Hq. wp_steps.
  rewrite Hq in Hwf. cbn in Hwf.
  wp_apply (wp_addTimerInLoop ({[p]} ∪ ∅) p t); [done|done|set_solver|done|].
  intros [] w' (_ & _ & Hheap & Hti & _). rewrite Hheap, Hti. cbn. split; [done|].
  apply elem_of_set_insert. by left.
Qed.

Lemma run_expired_frees w e t :
  queue_inv w → (∀ n, microSecondsSinceEpoch e.1 ≤ microSecondsSinceEpoch (clock (CB:=CB) n)) →
  e ∈ timers_ w → tq_heap w !! e.2 = Some t → repeat_ t = false →
  wp (run_event TimerReadable) (λ _ w', tq_heap w' !! e.2 = None) w.
Proof.
  intros [Hwf _ _ _ Hsize] Hle He Ht Hrep. cbn [run_event]. wp_steps.
  wp_apply (wp_queue_handleRead _ (set_in_loop true w) eq_refl Hwf Hsize).
  intros [] w' [_ Hh]. rewrite (hd_after _ _ Hh e t) by
    (done || by apply list_elem_of_filter).
  unfold after_run. by rewrite Hrep.
Qed.

(** [addTimer] called from another thread reads the sequence
    number of the new timer after handing the timer over: when the loop
    thread is quick enough to insert, run and free a one-shot timer that is
    due before the caller goes on, this read is a use after free. *)
Lemma addTimer_race w cb when :
  queue_inv w → tq_queued w = [] → command_ok (CmdAdd cb when (double_of_Z 0)) →
  (size (tq_heap w) < capacity (CB:=CB))%nat →
  (∀ n, microSecondsSinceEpoch when ≤ microSecondsSinceEpoch (clock (CB:=CB) n)) →
  wp (timer ← allocate_timer cb when (double_of_Z 0);
      runInLoop (AddTimerInLoop timer) (addTimerInLoop timer) ;;
      mret timer)
    (λ timer w', ∃ w'', rtc tq_step w' w'' ∧ make_TimerId timer w'' = Fault UndefinedBehaviour)
    (set_in_loop false w).
Proof.
  intros Hinv Hq Hok Hsize Hdue. destruct (alloc_ok _ Hsize) as [Hfresh _].
  set (w0 := set_in_loop false w). set (p := alloc (tq_heap w)).
  set (t := fresh_timer cb when (double_of_Z 0) w).
  set (w1 := enqueue (AddTimerInLoop p) (allocated cb when (double_of_Z 0) w0)).
  assert (tq_heap w1 !! p = Some t) as Ht by apply lookup_insert_eq.
  assert (queue_inv w1) as Hinv1
    by (apply (enqueue_add_inv cb when (double_of_Z 0) w0); [by apply queue_inv_in_loop|done..]).
  unfold allocate_timer, runInLoop. wp_steps; [done|]. change (∃ w'',
    rtc tq_step w1 w'' ∧ make_TimerId p w'' = Fault UndefinedBehaviour).
  assert (tq_queued w1 = [AddTimerInLoop p]) as Hq1 by (cbn; by rewrite Hq).
  pose proof (run_queued_add w1 p t Hinv1 Hq1 Ht) as Hadd. apply wp_run in Hadd.
  destruct Hadd as ([] & w2 & Hrun2 & Hinv2 & Ht2 & Hin2).
  pose proof (run_expired_frees w2 (when, p) t Hinv2 Hdue Hin2 Ht2 eq_refl) as Hfree.
  apply wp_run in Hfree. destruct Hfree as ([] & w3 & Hrun3 & Hgone).
  exists w3. split.
  - eapply rtc_l; [by exists RunQueued|]. eapply rtc_l; [by exists TimerReadable|]. done.
  - unfold make_TimerId, mbind, M_bind, deref, timer_at. cbn in Hgone. by rewrite Hgone.
Qed.
End properties.

Definition demo_timer (p : ptr) : Timer (list TimerId) :=
  default (MkTimer [] invalid (double_of_Z 0) false 0) (tq_heap demo_queue !! p).

Lemma queue_safe_witness :
  wf_queue (list_to_set (arriving (tq_queued demo_queue))) demo_queue ∧ armed_in_time demo_queue ∧
  ∀ ev, event_ok ev demo_queue → ∃ w', run_event ev demo_queue = Ok (tt, w').
Proof. exact (queue_safe true demo_queue (proj2 demo_queue_steps)). Defined.

Lemma demo_expired :
  tq_in_loop demo_queue = true ∧
  clock (CB:=list TimerId) (tq_ticks demo_queue) = ts 2 ∧
  (ts 2, 3) ∈ timers_ demo_queue ∧ (ts 2, 4) ∈ timers_ demo_queue ∧
  tq_heap demo_queue !! 3 = Some (demo_timer 3) ∧ tq_heap demo_queue !! 4 = Some (demo_timer 4).
Proof.
  rewrite demo_timers. split_and!; try (vm_compute; reflexivity).
  - apply list_elem_of_here.
  - apply list_elem_of_further, list_elem_of_here.
Qed.

Lemma demo_cancels w' :
  CmdCancel (MkTimerId 4 (sequence (demo_timer 4))) ∈ behaviour (callback_ (demo_timer 3)) w'.
Proof.
  replace (callback_ (demo_timer 3)) with [MkTimerId 4 4] by (vm_compute; reflexivity).
  replace (sequence (demo_timer 4)) with 4 by (vm_compute; reflexivity).
  apply list_elem_of_here.
Qed.

Lemma handleRead_runs_expired_witness :
  let expired := filter (λ e, microSecondsSinceEpoch e.1 ≤ microSecondsSinceEpoch (ts 2))
    [(ts 2, 3); (ts 2, 4); (ts 3, 1); (ts 3, 2)] in
  wp handleRead (λ _ w', ∃ runs,
    tq_runs w' = tq_runs demo_queue ++ runs ∧
    Forall2 (λ e r, r.1 = e.2 ∧ r ∈ activeTimers_ demo_queue) expired runs ∧
    NoDup expired.*2 ∧ sorted expired) demo_queue.
Proof.
  destruct demo_expired as (Hin & Hclock & _).
  pose proof (handleRead_runs_expired demo_queue demo_queue_inv Hin) as H.
  rewrite Hclock, demo_timers in H. exact H.
Defined.

Lemma handleRead_rearms_witness :
  wp handleRead (λ _ w', armed_in_time w') demo_queue.
Proof.
  destruct demo_expired as (Hin & Hclock & H3 & _ & Ht3 & _).
  pose proof (handleRead_rearms demo_queue (ts 2, 3) (demo_timer 3) demo_queue_inv Hin H3) as H.
  rewrite Hclock in H. eapply wp_mono; [exact (H (Z.le_refl _) Ht3)|].
  intros a w' [Harm _]. exact Harm.
Defined.

Lemma cancel_in_callback_witness :
  wp handleRead (λ _ w', tq_heap w' !! 4 = None) demo_queue.
Proof.
  destruct demo_expired as (Hin & Hclock & H3 & H4 & Ht3 & Ht4).
  pose proof (cancel_in_callback demo_queue (ts 2, 3) (demo_timer 3) (ts 2, 4) (demo_timer 4)
    demo_queue_inv Hin H3) as H.
  rewrite Hclock in H.
  eapply wp_mono; [exact (H (Z.le_refl _) H4 (Z.le_refl _) Ht3 Ht4 demo_cancels)|].
  intros a w' [Hfreed _]. exact Hfreed.
Defined.

Lemma demo_add_ok : command_ok (CmdAdd (CB:=list TimerId) [] (ts 3) (double_of_Z 0)).
Proof. split; [unfold time_ok; cbn; lia|]. intros Hgtb. by vm_compute in Hgtb. Qed.
Lemma demo_size : size (tq_heap demo_queue) = 4%nat.
Proof. vm_compute. reflexivity. Qed.

Lemma cancel_exact_witness :
  wp (cancel (MkTimerId 3 7)) (λ _ w', w' = demo_queue) demo_queue.
Proof.
  destruct demo_expired as (Hin & _).
  pose proof (cancel_exact demo_queue 3 7 demo_queue_inv Hin) as H.
  eapply wp_mono; [exact H|]. intros a w'. cbv beta.
  rewrite decide_False; [tauto|]. intros Ha.
  apply (wf_active _ _ _ _ (qi_wf _ demo_queue_inv)) in Ha as (t & Ht & _ & Hs).
  destruct demo_expired as (_ & _ & _ & _ & H3 & _).
  assert (t = demo_timer 3) as -> by congruence. vm_compute in Hs. discriminate Hs.
Defined.

Lemma run_schedules_witness :
  wp (runAt (CB:=list TimerId) (ts 3) []) (λ id w', scheduled id [] (ts 3) (double_of_Z 0) w') demo_queue ∧
  wp (runEvery (double_of_Z 5) []) (λ id w', ∃ time, scheduled id [] time (double_of_Z 5) w')
    demo_queue.
Proof.
  destruct demo_expired as (Hin & _). destruct demo_add_ok as [Hwhen _].
  assert (size (tq_heap demo_queue) < capacity (CB:=list TimerId))%nat as Hsize
    by (rewrite demo_size; cbn; lia).
  assert (interval_ok (CB:=list TimerId) (double_of_Z 5)) as Hdelay
    by (apply demo_interval_ok; simpl; tauto).
  destruct (run_schedules demo_queue [] (ts 3) (double_of_Z 5) demo_queue_inv Hin Hwhen Hdelay Hsize)
    as (Hat & _ & Hevery).
  split; (eapply wp_mono; [eassumption|]); cbv beta.
  - intros id w' (H & _). exact H.
  - intros id w' (time & _ & H & _). by exists time.
Defined.

Lemma addTimer_cancel_witness :
  wp (id ← addTimer [] (ts 3) (double_of_Z 0); cancel id) (λ _ w',
    tq_heap w' = tq_heap demo_queue ∧ timers_ w' = timers_ demo_queue ∧
    activeTimers_ w' = activeTimers_ demo_queue) demo_queue.
Proof.
  destruct demo_expired as (Hin & _).
  assert (size (tq_heap demo_queue) < capacity (CB:=list TimerId))%nat as Hsize
    by (rewrite demo_size; cbn; lia).
  exact (addTimer_cancel demo_queue [] (ts 3) (double_of_Z 0) demo_queue_inv Hin demo_add_ok Hsize).
Defined.

Lemma destroy_frees_witness :
  wp destroy (λ _ w', ∀ p, is_Some (tq_heap w' !! p) ↔ p ∈ arriving (tq_queued demo_queue))
    demo_queue.
Proof. apply (destroy_frees demo_queue). apply demo_queue_inv. Defined.

Lemma addTimer_race_witness :
  wp (timer ← allocate_timer [] (ts 0) (double_of_Z 0);
      runInLoop (AddTimerInLoop timer) (addTimerInLoop timer) ;;
      mret timer)
    (λ timer w', ∃ w'', rtc tq_step w' w'' ∧ make_TimerId timer w'' = Fault UndefinedBehaviour)
    (set_in_loop false (empty_queue (list TimerId) true)).
Proof.
  apply (addTimer_race (empty_queue (list TimerId) true) [] (ts 0)).
  - apply empty_queue_inv.
  - reflexivity.
  - split; [unfold time_ok; cbn; lia|]. intros Hgtb. vm_compute in Hgtb. discriminate Hgtb.
  - vm_compute. lia.
  - intros n. cbn. lia.
Defined.
