(* ===== verification/EventLoop.v ===== *)
(** * EventLoop (include/net/EventLoop.h, src/net/EventLoop.cc)

    The loop thread and the other threads that hand it functors, as threads
    that execute instructions on the shared state of the loop. An instruction
    is a part of a method that other threads cannot observe half done: a
    critical section, the access to an atomic flag, or a system call. Executing
    one yields the instructions the thread executes next. *)
From S2P Require Import Prelude.

Definition kPollTimeMs : Z := 10000.
(** The largest value of an eventfd counter. *)
Definition EVENTFD_MAX : Z := 2 ^ 64 - 2.

Section event_loop.
Context {F : Type}.

(** The calls that client code makes on a loop. *)
Inductive action : Type :=
| QueueInLoop (cb : F)
| RunInLoop (cb : F)
| Quit.

(** A channel that [poll] reports: the wakeup channel or another one, with
    the client code its callbacks run. *)
Inductive active_channel : Type :=
| WakeupChannel
| OtherChannel (callback : F).

(** The next instruction of a thread. *)
Inductive instr : Type :=
| Do (a : action)              (* enter the method *)
| WakeupUnlessLoop             (* the end of queueInLoop *)
| WakeupFromOther              (* the end of quit *)
| Run (cb : F)                 (* cb() *)
| SetLooping (b : bool)
| SetQuit (b : bool)
| While                        (* while (!quit_) *)
| Poll                         (* poller_->poll *)
| HandleEvent (c : active_channel)
| SetCalling (b : bool)
| SwapPending                  (* functors.swap(pendingFunctors_) *)
| RunFunctor (cb : F).         (* functor() in doPendingFunctors *)

(** The members that threads share, the counter of the eventfd, and the
    functors queued and started so far, in order. *)
Record Loop : Type := MkLoop {
  looping_ : bool;
  quit_ : bool;
  callingPendingFunctors_ : bool;
  pendingFunctors_ : list F;
  wakeupFd_ : Z;
  queued : list F;
  started : list F;
}.

Definition new_Loop : Loop := MkLoop false false false [] 0 [] [].

Definition set_looping b (l : Loop) : Loop :=
  MkLoop b (quit_ l) (callingPendingFunctors_ l) (pendingFunctors_ l) (wakeupFd_ l)
    (queued l) (started l).
Definition set_quit b (l : Loop) : Loop :=
  MkLoop (looping_ l) b (callingPendingFunctors_ l) (pendingFunctors_ l) (wakeupFd_ l)
    (queued l) (started l).
Definition set_calling b (l : Loop) : Loop :=
  MkLoop (looping_ l) (quit_ l) b (pendingFunctors_ l) (wakeupFd_ l) (queued l) (started l).
Definition push_functor f (l : Loop) : Loop :=
  MkLoop (looping_ l) (quit_ l) (callingPendingFunctors_ l) (pendingFunctors_ l ++ [f])
    (wakeupFd_ l) (queued l ++ [f]) (started l).
Definition clear_pending (l : Loop) : Loop :=
  MkLoop (looping_ l) (quit_ l) (callingPendingFunctors_ l) [] (wakeupFd_ l)
    (queued l) (started l).
Definition set_wakeupFd n (l : Loop) : Loop :=
  MkLoop (looping_ l) (quit_ l) (callingPendingFunctors_ l) (pendingFunctors_ l) n
    (queued l) (started l).
Definition note_started f (l : Loop) : Loop :=
  MkLoop (looping_ l) (quit_ l) (callingPendingFunctors_ l) (pendingFunctors_ l) (wakeupFd_ l)
    (queued l) (started l ++ [f]).

(** [wakeup] adds one to the eventfd; a full counter is logged. *)
Definition wakeup (l : Loop) : Loop :=
  if wakeupFd_ l <? EVENTFD_MAX then set_wakeupFd (wakeupFd_ l + 1) l else l.

(** [handleRead] empties the eventfd; an empty one is logged. *)
Definition handleRead (l : Loop) : Loop := set_wakeupFd 0 l.

(** What client code calls, as a function of the functor it is run from. *)
Context (behaviour : F → list action).

Definition queueInLoop (cb : F) (l : Loop) : Loop * list instr :=
  (push_functor cb l, [WakeupUnlessLoop]).
Definition runInLoop (isInLoopThread : bool) (cb : F) (l : Loop) : Loop * list instr :=
  if isInLoopThread then (l, [Run cb]) else (l, [Do (QueueInLoop cb)]).
Definition quit (l : Loop) : Loop * list instr := (set_quit true l, [WakeupFromOther]).

Definition doPendingFunctors : list instr := [SetCalling true; SwapPending; SetCalling false].
Definition loop : list instr := [SetLooping true; SetQuit false; While].

(** One instruction of a thread. [active] is what [poll] finds ready. *)
Definition exec (isInLoopThread : bool) (active : list active_channel) (i : instr) (l : Loop)
    : Loop * list instr :=
  match i with
  | Do (QueueInLoop cb) => queueInLoop cb l
  | Do (RunInLoop cb) => runInLoop isInLoopThread cb l
  | Do Quit => quit l
  | WakeupUnlessLoop =>
      (if negb isInLoopThread || callingPendingFunctors_ l then wakeup l else l, [])
  | WakeupFromOther => (if negb isInLoopThread then wakeup l else l, [])
  | Run cb => (l, Do <$> behaviour cb)
  | SetLooping b => (set_looping b l, [])
  | SetQuit b => (set_quit b l, [])
  | While =>
      (l, if negb (quit_ l) then Poll :: doPendingFunctors ++ [While] else [SetLooping false])
  | Poll => (l, HandleEvent <$> active)
  | HandleEvent WakeupChannel => (handleRead l, [])
  | HandleEvent (OtherChannel cb) => (l, [Run cb])
  | SetCalling b => (set_calling b l, [])
  | SwapPending => (clear_pending l, RunFunctor <$> pendingFunctors_ l)
  | RunFunctor cb => (note_started cb l, Do <$> behaviour cb)
  end.

(** The instructions that only the loop thread reaches. *)
Definition client_instr (i : instr) : bool :=
  match i with Do _ | WakeupUnlessLoop | WakeupFromOther | Run _ => true | _ => false end.

(** ** All threads *)

(** Thread 0 is the loop thread. *)
Record System : Type := MkSystem { sys_loop : Loop; threads : gmap nat (list instr) }.

(** The wakeup channel is reported only when the eventfd is readable. *)
Definition poll_ok (l : Loop) (active : list active_channel) : Prop :=
  WakeupChannel ∈ active → 0 < wakeupFd_ l.

(** One instruction of thread [tid]. *)
Inductive thread_step (tid : nat) : System → System → Prop :=
| thread_step_intro s i rest active l k :
    threads s !! tid = Some (i :: rest) → poll_ok (sys_loop s) active →
    exec (tid =? 0)%nat active i (sys_loop s) = (l, k) →
    thread_step tid s (MkSystem l (<[tid := k ++ rest]> (threads s))).

(** Any thread makes its next step, or a thread other than the loop thread
    begins a call on the loop. *)
Inductive sys_step : System → System → Prop :=
| sys_thread tid s s' : thread_step tid s s' → sys_step s s'
| sys_call tid a s :
    tid ≠ 0%nat → default [] (threads s !! tid) = [] →
    sys_step s (MkSystem (sys_loop s) (<[tid := [Do a]]> (threads s))).

(** The loop thread makes the calls [pre] before it enters [loop]. *)
Definition init (pre : list action) : System :=
  MkSystem new_Loop {[ 0%nat := (Do <$> pre) ++ loop ]}.
End event_loop.
Arguments Loop F : clear implicits.
Arguments System F : clear implicits.
Arguments action F : clear implicits.
Arguments instr F : clear implicits.
