(* ===== verification/EventLoopSpec.v ===== *)
(** * The invariant of an event loop and its threads (src/net/EventLoop.cc)

    Where the loop thread is in [loop], what the queue of functors holds, and
    why the loop thread cannot sleep while there is something to do. *)
From S2P Require Import Prelude EventLoop.

Section spec.
Context {F : Type} (behaviour : F → list (action F)).
Implicit Types (l : Loop F) (s : System F).

(** ** Control points of the loop thread *)

Inductive pc : Type :=
| PEnter (k : list (instr F))    (* before [loop] *)
| PLooping                       (* [looping_] is set *)
| PWhile
| PPoll
| PEvents (k : list (instr F))   (* handling events *)
| PSwap
| PFunctors (k : list (instr F)) (* running functors *)
| PEnd
| PDone.

Definition stack_of (p : pc) : list (instr F) :=
  match p with
  | PEnter k => k ++ loop
  | PLooping => [SetQuit false; While]
  | PWhile => [While]
  | PPoll => Poll :: doPendingFunctors ++ [While]
  | PEvents k => k ++ doPendingFunctors ++ [While]
  | PSwap => [SwapPending; SetCalling false; While]
  | PFunctors k => k ++ [SetCalling false; While]
  | PEnd => [SetLooping false]
  | PDone => []
  end.

Definition is_event (i : instr F) : bool := match i with HandleEvent _ => true | _ => false end.
Definition is_functor (i : instr F) : bool := match i with RunFunctor _ => true | _ => false end.

Definition pc_ok (p : pc) : Prop :=
  match p with
  | PEnter k => Forall (λ i, client_instr i) k
  | PEvents k => Forall (λ i, client_instr i || is_event i) k
  | PFunctors k => Forall (λ i, client_instr i || is_functor i) k
  | _ => True
  end.

(** The functors taken from the queue that have not been started. *)
Definition taken (k : list (instr F)) : list F :=
  omap (λ i, match i with RunFunctor f => Some f | _ => None end) k.
Definition pc_taken (p : pc) : list F := match p with PFunctors k => taken k | _ => [] end.
Definition pc_calling (p : pc) : bool :=
  match p with PSwap | PFunctors _ => true | _ => false end.
(** The queue is emptied before the next [poll]. *)
Definition swap_ahead (p : pc) : bool :=
  match p with PPoll | PWhile | PLooping | PEnter _ | PFunctors _ => false | _ => true end.

(** ** Calls before [loop] *)

(** The calls a thread makes that makes the calls [acts]: these, and those of
    the functors it runs at once. *)
Inductive calls : list (action F) → action F → Prop :=
| calls_here acts a : a ∈ acts → calls acts a
| calls_in_functor acts f a : RunInLoop f ∈ acts → calls (behaviour f) a → calls acts a.

Lemma calls_trans acts f a :
  calls acts (RunInLoop f) → calls (behaviour f) a → calls acts a.
Proof.
  intros Hf Ha. remember (RunInLoop f) as b eqn:Hb.
  induction Hf as [acts b Hin|acts g b Hin Hg IH]; subst; [by eapply calls_in_functor|].
  eapply calls_in_functor; [done|]. auto.
Qed.

(** No functor has been run yet, and those in the queue are from calls the loop
    thread has made before [loop]. *)
Definition early (pre : list (action F)) s : Prop :=
  started (sys_loop s) = [] ∧
  ∀ f, f ∈ pendingFunctors_ (sys_loop s) → calls pre (QueueInLoop f).

(** An instruction that belongs to the calls [pre]. *)
Definition early_instr (pre : list (action F)) (i : instr F) : Prop :=
  match i with
  | Do a => calls pre a
  | Run f => ∀ a, calls (behaviour f) a → calls pre a
  | _ => True
  end.

(** Before the functors run for the first time, or again. *)
Definition entering (p : pc) : bool :=
  match p with PEnter _ | PLooping | PWhile | PPoll => true | _ => false end.

(** ** Wakeups *)

Definition waker (i : instr F) : bool :=
  match i with WakeupUnlessLoop | WakeupFromOther => true | _ => false end.

(** The eventfd is readable, or another thread is about to write it. *)
Definition awake s : Prop :=
  0 < wakeupFd_ (sys_loop s) ∨
  ∃ tid k i, tid ≠ 0%nat ∧ threads s !! tid = Some k ∧ i ∈ k ∧ waker i = true.

(** The loop thread has itself a wakeup to do. *)
Definition will_wake (p : pc) : Prop :=
  match p with PFunctors k => WakeupUnlessLoop ∈ k | _ => False end.

Record inv (p : pc) s : Prop := {
  inv_stack : threads s !! 0%nat = Some (stack_of p);
  inv_pc : pc_ok p;
  inv_others tid k : tid ≠ 0%nat → threads s !! tid = Some k → Forall (λ i, client_instr i) k;
  inv_wakeupFd : 0 ≤ wakeupFd_ (sys_loop s);
  inv_fifo : queued (sys_loop s)
    = started (sys_loop s) ++ pc_taken p ++ pendingFunctors_ (sys_loop s);
  inv_calling : callingPendingFunctors_ (sys_loop s) = pc_calling p;
}.

(** The wakeup protocol, when the loop thread makes the calls [pre] before it
    enters [loop]. *)
Record wakes (pre : list (action F)) (p : pc) s : Prop := {
  wk_enter k : p = PEnter k → started (sys_loop s) = [] ∧ Forall (early_instr pre) k;
  wk_pending : pendingFunctors_ (sys_loop s) ≠ [] →
    swap_ahead p = true ∨ awake s ∨ will_wake p ∨ entering p = true ∧ early pre s;
  wk_quit : quit_ (sys_loop s) = true → p = PPoll → awake s;
}.

(** ** Client instructions *)

Lemma client_actions f : Forall (λ i, client_instr i) (Do <$> behaviour f).
Proof. by apply Forall_fmap, Forall_true. Qed.

Lemma taken_client k : Forall (λ i, client_instr i) k → taken k = [].
Proof. induction 1 as [|[] k Hi _ IH]; done || (by destruct Hi) || exact IH. Qed.

Lemma taken_app k1 k2 : taken (k1 ++ k2) = taken k1 ++ taken k2.
Proof. apply omap_app. Qed.

Lemma wakeup_pos l : 0 ≤ wakeupFd_ l → 0 < wakeupFd_ (wakeup l).
Proof.
  unfold wakeup, EVENTFD_MAX. destruct (Z.ltb_spec (wakeupFd_ l) (2 ^ 64 - 2)); cbn; lia.
Qed.

Lemma wakeup_fields l :
  looping_ (wakeup l) = looping_ l ∧ quit_ (wakeup l) = quit_ l ∧
  callingPendingFunctors_ (wakeup l) = callingPendingFunctors_ l ∧
  pendingFunctors_ (wakeup l) = pendingFunctors_ l ∧ queued (wakeup l) = queued l ∧
  started (wakeup l) = started l ∧ wakeupFd_ l ≤ wakeupFd_ (wakeup l).
Proof. unfold wakeup. case_match; cbn; split_and!; try done; lia. Qed.

(** What a client instruction of thread [b] does: it may append to the queue
    or set [quit_], and then owes a wakeup; a wakeup is made unless the
    thread is the loop thread outside [doPendingFunctors]. *)
Record client_effect (b : bool) (i : instr F) l l' (k : list (instr F)) : Prop := {
  ce_client : Forall (λ i, client_instr i) k;
  ce_started : started l' = started l;
  ce_calling : callingPendingFunctors_ l' = callingPendingFunctors_ l;
  ce_wakeupFd : wakeupFd_ l ≤ wakeupFd_ l';
  ce_queue : ∃ d, pendingFunctors_ l' = pendingFunctors_ l ++ d ∧
    queued l' = queued l ++ d ∧ (d = [] ∨ WakeupUnlessLoop ∈ k) ∧
    ∀ f, f ∈ d → i = Do (QueueInLoop f);
  ce_quit : quit_ l' = quit_ l ∨ WakeupFromOther ∈ k;
  ce_waker : waker i = true → b = false ∨ i = WakeupUnlessLoop ∧ callingPendingFunctors_ l = true →
    0 ≤ wakeupFd_ l → 0 < wakeupFd_ l';
}.

Lemma no_push (i : instr F) (k : list (instr F)) l l' :
  pendingFunctors_ l' = pendingFunctors_ l → queued l' = queued l →
  ∃ d, pendingFunctors_ l' = pendingFunctors_ l ++ d ∧ queued l' = queued l ++ d ∧
    (d = [] ∨ WakeupUnlessLoop ∈ k) ∧ ∀ f, f ∈ d → i = Do (QueueInLoop f).
Proof.
  intros -> ->. exists []. rewrite !app_nil_r. split_and!; auto. by intros f ?%not_elem_of_nil.
Qed.

Lemma exec_client b active i l l' k :
  client_instr i = true → exec behaviour b active i l = (l', k) → client_effect b i l l' k.
Proof.
  pose proof (wakeup_fields l) as (? & Hq & ? & Hp & Hqu & ? & ?).
  pose proof (wakeup_pos l) as Hpos.
  destruct i as [[f|f|]| | |f| | | | | | | |]; try done; intros _; cbn.
  - intros [= <- <-]. split; cbn; try done; [by repeat constructor| |by left].
    exists [f]. split_and!; [done..|right; set_solver|]. intros g ->%list_elem_of_singleton. done.
  - destruct b; intros [= <- <-]; (split; cbn; try done;
      [by repeat constructor|by apply no_push|by left]).
  - intros [= <- <-]. split; cbn; try done; [by repeat constructor|by apply no_push|right; set_solver].
  - intros [= <- <-]. destruct (negb b || _) eqn:Hb; split; try done;
      try (by left || by constructor); try (by apply no_push).
    + intros _ [->|[_ Hc]]; [done|]. rewrite Hc, orb_true_r in Hb. done.
  - intros [= <- <-]. destruct b; split; try done;
      try (by left || by constructor); try (by apply no_push).
    intros _ [|[]]; done.
  - intros [= <- <-]. split; try done; [apply client_actions|by apply no_push|by left].
Qed.

(** ** Steps of the other threads *)

Lemma inv_other p s tid i rest active l k :
  inv p s → tid ≠ 0%nat → threads s !! tid = Some (i :: rest) →
  exec behaviour false active i (sys_loop s) = (l, k) →
  inv p (MkSystem l (<[tid := k ++ rest]> (threads s))).
Proof.
  intros [Hst Hpc Hoth Hwf Hfifo Hcall] Htid Hth Hexec.
  pose proof (Hoth _ _ Htid Hth) as Hcl. apply Forall_cons in Hcl as [Hi Hrest].
  apply Is_true_true in Hi. destruct (exec_client _ _ _ _ _ _ Hi Hexec)
    as [Hk Hs Hc Hw (d & Hp & Hq & _) _ _].
  split; cbn; [|done| |lia| |congruence].
  - by rewrite lookup_insert_ne.
  - intros tid' k'. rewrite lookup_insert_Some. intros Htid' [[<- <-]|[_ ?]]; [|eauto].
    by apply Forall_app.
  - rewrite Hq, Hs, Hp, Hfifo, <-!app_assoc. done.
Qed.

Lemma awake_other p s tid i rest active l k :
  inv p s → tid ≠ 0%nat → threads s !! tid = Some (i :: rest) →
  exec behaviour false active i (sys_loop s) = (l, k) →
  awake s → awake (MkSystem l (<[tid := k ++ rest]> (threads s))).
Proof.
  intros [Hst Hpc Hoth Hwf Hfifo Hcall] Htid Hth Hexec.
  pose proof (Hoth _ _ Htid Hth) as Hcl. apply Forall_cons in Hcl as [Hi Hrest].
  apply Is_true_true in Hi. destruct (exec_client _ _ _ _ _ _ Hi Hexec)
    as [_ _ _ Hw _ _ Hwake].
  intros [Hpos|(tid' & k' & j & Htid' & Hth' & Hj & Hwaker)]; [left; cbn; lia|].
  destruct (decide (tid' = tid)) as [->|Hne].
  - simplify_eq. apply elem_of_cons in Hj as [->|Hj].
    + left. apply Hwake; auto.
    + right. exists tid, (k ++ rest), j. cbn. rewrite lookup_insert_eq, elem_of_app. auto.
  - right. exists tid', k', j. cbn. by rewrite lookup_insert_ne.
Qed.

Lemma owes_wakeup tid (k rest : list (instr F)) i l th :
  tid ≠ 0%nat → i ∈ k → waker i = true → awake (MkSystem l (<[tid := k ++ rest]> th)).
Proof.
  intros. right. exists tid, (k ++ rest), i. cbn. rewrite lookup_insert_eq, elem_of_app. auto.
Qed.

Lemma early_same pre s s' :
  pendingFunctors_ (sys_loop s') = pendingFunctors_ (sys_loop s) →
  started (sys_loop s') = started (sys_loop s) → early pre s → early pre s'.
Proof. unfold early. by intros -> ->. Qed.

Lemma wakes_other pre p s tid i rest active l k :
  inv p s → tid ≠ 0%nat → threads s !! tid = Some (i :: rest) →
  exec behaviour false active i (sys_loop s) = (l, k) →
  wakes pre p s → wakes pre p (MkSystem l (<[tid := k ++ rest]> (threads s))).
Proof.
  intros Hinv Htid Hth Hexec [Henter Hpend Hquit].
  pose proof (awake_other _ _ _ _ _ _ _ _ Hinv Htid Hth Hexec) as Hawake.
  pose proof (inv_others _ _ Hinv _ _ Htid Hth) as Hcl. apply Forall_cons in Hcl as [Hi _].
  apply Is_true_true in Hi. destruct (exec_client _ _ _ _ _ _ Hi Hexec)
    as [_ Hst _ _ (d & Hp & _ & Hd & _) Hq _].
  split; cbn; [by rewrite Hst| |].
  - rewrite Hp. intros Hne. destruct Hd as [->|Hd].
    + rewrite app_nil_r in *. destruct (Hpend Hne) as [?|[?|[?|[? He]]]]; auto.
      do 3 right. split; [done|]. by eapply (early_same _ s).
    + right. left. by eapply owes_wakeup.
  - intros Hq' ->. destruct Hq as [Hq|Hq].
    + apply Hawake, Hquit; [congruence|done].
    + by eapply owes_wakeup.
Qed.

Lemma inv_call pre p s tid a :
  inv p s → tid ≠ 0%nat → default [] (threads s !! tid) = [] →
  inv p (MkSystem (sys_loop s) (<[tid := [Do a]]> (threads s))) ∧
  (wakes pre p s → wakes pre p (MkSystem (sys_loop s) (<[tid := [Do a]]> (threads s)))).
Proof.
  intros [Hst Hpc Hoth Hwf Hfifo Hcall] Htid Hidle. split; [split; cbn; try done|].
  - by rewrite lookup_insert_ne.
  - intros tid' k'. rewrite lookup_insert_Some. intros ? [[<- <-]|[_ ?]]; [|eauto].
    by repeat constructor.
  - assert (awake s → awake (MkSystem (sys_loop s) (<[tid := [Do a]]> (threads s)))) as Hawake.
    { intros [?|(tid' & k & j & Htid' & Hth & Hj & Hwaker)]; [by left|].
      right. exists tid', k, j. cbn. rewrite lookup_insert_ne; [done|].
      intros <-. rewrite Hth in Hidle. simpl in Hidle. subst k. set_solver. }
    intros [Henter Hpend Hquit]. split; cbn; [done| |auto].
    intros Hne. destruct (Hpend Hne) as [?|[?|[?|?]]]; auto.
Qed.

(** ** Steps of the loop thread *)

Lemma awake_loop s l k :
  wakeupFd_ (sys_loop s) ≤ wakeupFd_ l →
  awake s → awake (MkSystem l (<[0%nat := k]> (threads s))).
Proof.
  intros Hw [?|(tid & k' & j & ? & ? & ? & ?)]; [left; cbn; lia|].
  right. exists tid, k', j. cbn. by rewrite lookup_insert_ne.
Qed.

(** The loop thread moves on from [p] to [p']. *)
Lemma inv_move p p' s l k :
  inv p s → k = stack_of p' → pc_ok p' → 0 ≤ wakeupFd_ l →
  queued l = started l ++ pc_taken p' ++ pendingFunctors_ l →
  callingPendingFunctors_ l = pc_calling p' →
  inv p' (MkSystem l (<[0%nat := k]> (threads s))).
Proof.
  intros [Hst Hpc Hoth Hwf Hfifo Hcall] -> Hpc' ? ? ?. split; cbn; try done.
  - apply lookup_insert_eq.
  - intros tid k' ?. rewrite lookup_insert_ne by done. eauto.
Qed.

(** The control points at which the loop thread runs client code. *)
Definition client_point (P : list (instr F) → pc) : Prop :=
  P = PEnter ∨ P = PEvents ∨ P = PFunctors.

Lemma client_point_stack P k k' :
  client_point P → stack_of (P (k ++ k')) = k ++ stack_of (P k').
Proof. intros [->|[->| ->]]; simpl; by rewrite app_assoc. Qed.

Lemma client_point_ok P k k' :
  client_point P → Forall (λ i, client_instr i) k → pc_ok (P k') → pc_ok (P (k ++ k')).
Proof.
  intros [->|[->| ->]] Hk Hk'; apply Forall_app; (split; [|done]); [done|..];
    (eapply Forall_impl; [exact Hk|]); intros i Hi; apply orb_True; by left.
Qed.

Lemma client_point_ok_tail P i k : client_point P → pc_ok (P (i :: k)) → pc_ok (P k).
Proof. by intros [->|[->| ->]] [_ ?]%Forall_cons. Qed.

Lemma client_point_taken P k k' :
  client_point P → Forall (λ i, client_instr i) k → pc_taken (P (k ++ k')) = pc_taken (P k').
Proof. intros [->|[->| ->]] Hk; simpl; [done..|]. by rewrite taken_app, taken_client. Qed.

Lemma client_point_calling P k k' : client_point P → pc_calling (P k) = pc_calling (P k').
Proof. by intros [->|[->| ->]]. Qed.

Lemma inv_loop_client P s i k0 active l k :
  client_point P → client_instr i = true → inv (P (i :: k0)) s →
  exec behaviour true active i (sys_loop s) = (l, k) →
  inv (P (k ++ k0)) (MkSystem l (<[0%nat := k ++ stack_of (P k0)]> (threads s))).
Proof.
  intros HP Hi Hinv Hexec.
  destruct (exec_client _ _ _ _ _ _ Hi Hexec) as [Hk Hs Hc Hw (d & Hp & Hq & _) _ _].
  pose proof (inv_wakeupFd _ _ Hinv). pose proof (inv_fifo _ _ Hinv) as Hfifo.
  pose proof (client_point_ok_tail _ _ _ HP (inv_pc _ _ Hinv)) as Hok.
  change (i :: k0) with ([i] ++ k0) in Hfifo.
  eapply inv_move; [exact Hinv|by rewrite client_point_stack|by apply client_point_ok|lia| |].
  - rewrite Hq, Hs, Hp, Hfifo, !client_point_taken by (done || by repeat constructor; rewrite Hi).
    by rewrite <-!app_assoc.
  - rewrite Hc, (inv_calling _ _ Hinv). by apply client_point_calling.
Qed.

(** What the loop thread does before [loop] belongs to the calls [pre]. *)
Lemma exec_early pre active i l l' k :
  client_instr i = true → early_instr pre i → exec behaviour true active i l = (l', k) →
  Forall (early_instr pre) k.
Proof.
  destruct i as [[f|f|]| | |f| | | | | | | |]; try done; intros _ Hi; cbn; intros [= <- <-].
  - by repeat constructor.
  - apply Forall_singleton. intros b Hb. by eapply calls_trans.
  - by repeat constructor.
  - constructor.
  - constructor.
  - apply Forall_fmap, Forall_forall. intros a Ha. by apply Hi, calls_here.
Qed.

Lemma wakes_loop_client pre P s i k0 active l k th :
  client_point P → client_instr i = true → inv (P (i :: k0)) s →
  exec behaviour true active i (sys_loop s) = (l, k) →
  wakes pre (P (i :: k0)) s → wakes pre (P (k ++ k0)) (MkSystem l (<[0%nat := th]> (threads s))).
Proof.
  intros HP Hi Hinv Hexec [Henter Hpend Hquit].
  destruct (exec_client _ _ _ _ _ _ Hi Hexec) as [Hk Hs Hc Hw (d & Hp & Hq & Hd & Hpush) _ Hwake].
  destruct HP as [->|[->| ->]].
  - destruct (Henter _ eq_refl) as [Hst [Hei Hek0]%Forall_cons]. split; [|cbn|done].
    + intros k' [= <-]. split; [by cbn; rewrite Hs|]. apply Forall_app. by eauto using exec_early.
    + intros _. destruct (decide (pendingFunctors_ (sys_loop s) = [])) as [Hnil|Hne].
      * do 3 right. split; [done|]. split; [cbn; by rewrite Hs|]. cbn. rewrite Hp, Hnil.
        intros f Hf. specialize (Hpush f Hf). by subst i.
      * destruct (Hpend Hne) as [?|[Hawake|[?|[_ [_ He]]]]]; [done|right; left|done|do 3 right].
        { by apply awake_loop. }
        split; [done|]. split; [cbn; by rewrite Hs|]. cbn. rewrite Hp.
        intros f [Hf|Hf]%elem_of_app; [auto|]. specialize (Hpush f Hf). by subst i.
  - split; [done|by left|done].
  - split; [done| |done]. cbn. rewrite Hp. intros Hne. right.
    destruct Hd as [->|Hd]; [|right; left; apply elem_of_app; by left].
    rewrite app_nil_r in Hne. destruct (Hpend Hne) as [?|[?|[Hwill|[? _]]]]; [done|..|done].
    + left. by apply awake_loop.
    + cbn in Hwill. apply elem_of_cons in Hwill as [<-|Hwill].
      * left. left. cbn. apply Hwake; [done| |apply (inv_wakeupFd _ _ Hinv)].
        right. by rewrite (inv_calling _ _ Hinv).
      * right. left. apply elem_of_app. by right.
Qed.

Lemma taken_functors fs : taken (RunFunctor <$> fs) = fs.
Proof. induction fs as [|f fs IH]; simpl; [done|]. f_equal. exact IH. Qed.

(** A step whose target has nothing pending to wake up for. *)
Lemma wakes_ahead pre p s : swap_ahead p = true → wakes pre p s.
Proof. intros Hp. split; [by intros k ->|by left|by intros _ ->]. Qed.

(** A step after which the protocol stands as before. *)
Lemma wakes_stay pre p p' s l k :
  swap_ahead p = false → ¬ will_wake p → (∀ k', p' ≠ PEnter k') → entering p' = true →
  (p' = PPoll → quit_ l = false) → started l = started (sys_loop s) →
  pendingFunctors_ l = pendingFunctors_ (sys_loop s) → wakeupFd_ (sys_loop s) ≤ wakeupFd_ l →
  wakes pre p s → wakes pre p' (MkSystem l (<[0%nat := k]> (threads s))).
Proof.
  intros Hsw Hww Hne Hent Hq Hst Hpend Hfd [_ Hp _]. split; cbn.
  - intros k' ->. by destruct (Hne k').
  - rewrite Hpend. intros Hpend'. destruct (Hp Hpend') as [?|[?|[?|[_ ?]]]]; [congruence| |done|].
    + right. left. by apply awake_loop.
    + do 3 right. split; [done|]. by eapply (early_same _ s).
  - intros Hq' Hp'. rewrite Hq in Hq' by done. done.
Qed.

(** The loop thread begins a functor. *)
Lemma run_functor_step pre cb k0 s
    (s' := MkSystem (note_started cb (sys_loop s))
      (<[0%nat := (Do <$> behaviour cb) ++ stack_of (PFunctors k0)]> (threads s))) :
  inv (PFunctors (RunFunctor cb :: k0)) s →
  ∃ p', inv p' s' ∧ (wakes pre (PFunctors (RunFunctor cb :: k0)) s → wakes pre p' s').
Proof.
  intros Hinv. pose proof Hinv as [_ Hpc _ _ Hfifo _]. apply Forall_cons in Hpc as [_ Hk0].
  exists (PFunctors ((Do <$> behaviour cb) ++ k0)). split.
  - eapply inv_move; [done|by rewrite client_point_stack by (right; right; done)| |apply Hinv| |apply Hinv].
    + apply client_point_ok; [right; right; done|apply client_actions|done].
    + cbn. rewrite taken_app, taken_client by apply client_actions.
      rewrite Hfifo, <-!app_assoc. done.
  - intros [_ Hp _]. split; [done| |done]. cbn. intros Hne. right.
    destruct (Hp Hne) as [?|[?|[Hw|[? _]]]]; [done|left; by apply awake_loop|right; left|done].
    cbn in Hw. apply elem_of_cons in Hw as [?|Hw]; [done|]. apply elem_of_app. by right.
Qed.

Lemma loop_step_inv pre p s i rest active l k :
  inv p s → threads s !! 0%nat = Some (i :: rest) →
  exec behaviour true active i (sys_loop s) = (l, k) →
  ∃ p', inv p' (MkSystem l (<[0%nat := k ++ rest]> (threads s))) ∧
    (wakes pre p s → wakes pre p' (MkSystem l (<[0%nat := k ++ rest]> (threads s)))).
Proof.
  intros Hinv Hth Hexec. pose proof Hinv as [Hst Hpc Hoth Hwf Hfifo Hcall].
  rewrite Hth in Hst. injection Hst as Hst.
  assert (∀ P j k0, p = P (j :: k0) → client_point P → client_instr j = true →
    ∃ p', inv p' (MkSystem l (<[0%nat := k ++ rest]> (threads s))) ∧
      (wakes pre p s → wakes pre p' (MkSystem l (<[0%nat := k ++ rest]> (threads s))))) as Hclient.
  { intros P j k0 -> HP Hj. change (j :: k0) with ([j] ++ k0) in Hst.
    rewrite client_point_stack in Hst by done. injection Hst as -> ->.
    exists (P (k ++ k0)). split; [by eapply inv_loop_client|by eapply wakes_loop_client]. }
  destruct p as [[|j k0]| | | |[|j k0]| |[|j k0]| |]; simpl in Hst; try (injection Hst as -> ->).
  - (* PEnter *) injection Hexec as <- <-. exists PLooping. split; [by eapply inv_move|].
    apply wakes_stay; first [done|by intros []|by apply not_elem_of_nil].
  - apply (Hclient PEnter j k0); [done|by left|]. apply Forall_cons in Hpc as [Hj _].
    by apply Is_true_true.
  - (* PLooping *) injection Hexec as <- <-. exists PWhile. split; [by eapply inv_move|].
    apply wakes_stay; first [done|by intros []|by apply not_elem_of_nil].
  - (* PWhile *) cbn in Hexec. destruct (quit_ (sys_loop s)) eqn:Hq; injection Hexec as <- <-.
    + exists PEnd. split; [by eapply inv_move|]. intros _. by apply wakes_ahead.
    + exists PPoll. split; [by eapply inv_move|]. apply wakes_stay; first [done|by intros []|by apply not_elem_of_nil].
  - (* PPoll *) injection Hexec as <- <-. exists (PEvents (HandleEvent <$> active)).
    split; [|intros _; by apply wakes_ahead]. eapply inv_move; [done..| |done|done|done].
    cbn. apply Forall_fmap, Forall_true. done.
  - (* PEvents *) injection Hexec as <- <-. exists PSwap.
    split; [by eapply inv_move|intros _; by apply wakes_ahead].
  - cbn in Hpc. apply Forall_cons in Hpc as [Hj Hk0]. destruct j; try done;
      try (by eapply (Hclient PEvents); [done|right; left|]).
    destruct c as [|cb]; injection Hexec as <- <-.
    + exists (PEvents k0). split; [by eapply inv_move|intros _; by apply wakes_ahead].
    + exists (PEvents (Run cb :: k0)).
      split; [|intros _; by apply wakes_ahead].
      eapply inv_move; [done..| |done|done|done]. by constructor.
  - (* PSwap *) injection Hexec as <- <-.
    exists (PFunctors (RunFunctor <$> pendingFunctors_ (sys_loop s))). split; [|done].
    eapply inv_move; [done..| |done| |done].
    + apply Forall_fmap, Forall_true. done.
    + cbn. rewrite taken_functors, app_nil_r. exact Hfifo.
  - (* PFunctors *) injection Hexec as <- <-. exists PWhile. split; [by eapply inv_move|].
    apply wakes_stay; try done. apply not_elem_of_nil.
  - cbn in Hpc. apply Forall_cons in Hpc as [Hj Hk0]. destruct j; try done;
      try (by eapply (Hclient PFunctors); [done|right; right|]).
    injection Hexec as <- <-. by apply run_functor_step.
  - (* PEnd *) injection Hexec as <- <-. exists PDone.
    split; [by eapply inv_move|intros _; by apply wakes_ahead].
  - (* PDone *) done.
Qed.

Lemma sys_step_inv pre s s' :
  sys_step behaviour s s' → ∀ p, inv p s → ∃ p', inv p' s' ∧ (wakes pre p s → wakes pre p' s').
Proof.
  intros [tid ? ? Hstep|tid a s0 Htid Hidle] p Hinv.
  - destruct Hstep as [s0 i rest active l k Hth _ Hexec].
    destruct (Nat.eqb_spec tid 0) as [->|Hne]; [by eapply loop_step_inv|].
    exists p. split; [by eapply inv_other|by eapply wakes_other].
  - exists p. by apply inv_call.
Qed.

Lemma inv_init pre : inv (PEnter (Do <$> pre)) (init pre).
Proof.
  split; try done; cbn.
  - by apply Forall_fmap, Forall_true.
  - intros tid k ?. by rewrite lookup_singleton_ne.
Qed.

Lemma loop_reachable_inv pre s : rtc (sys_step behaviour) (init pre) s → ∃ p, inv p s.
Proof.
  apply (rtc_invariant _ (λ s, ∃ p, inv p s)); [|exists (PEnter (Do <$> pre)); apply inv_init].
  intros s1 s2 [p Hp] Hstep. destruct (sys_step_inv pre _ _ Hstep p Hp) as (p' & ? & _). eauto.
Qed.

Lemma reachable_wakes pre s :
  rtc (sys_step behaviour) (init pre) s → ∃ p, inv p s ∧ wakes pre p s.
Proof.
  apply (rtc_invariant _ (λ s, ∃ p, inv p s ∧ wakes pre p s)).
  - intros s1 s2 (p & Hp & Hw) Hstep. destruct (sys_step_inv pre _ _ Hstep p Hp) as (p' & ? & ?). eauto.
  - exists (PEnter (Do <$> pre)). split; [apply inv_init|]. split; [|done|done].
    intros k [= <-]. split; [done|]. apply Forall_fmap, Forall_forall. intros a Ha. by apply calls_here.
Qed.
Lemma taken_stack_of p : pc_ok p → taken (stack_of p) = pc_taken p.
Proof.
  assert (∀ k : list (instr F), Forall (λ i, client_instr i || is_event i) k → taken k = []) as Hev.
  { induction 1 as [|i k Hi _ IH]; [done|]. destruct i; done || exact IH. }
  destruct p; simpl; intros Hp; rewrite ?taken_app; try done.
  - by rewrite taken_client.
  - by rewrite Hev.
  - by rewrite app_nil_r.
Qed.

End spec.
