(* ===== verification/EventLoopRuns.v ===== *)
(** * The progress of the loop thread (src/net/EventLoop.cc)

    What the loop thread does inevitably: whatever [poll] reports, however many
    steps the other threads make between two of its own, and without ever
    waiting in [poll] for its timeout unless the property says so. *)
From S2P Require Import Prelude EventLoop EventLoopSpec.

Section runs.
Context {F : Type} (behaviour : F → list (action F)).
Implicit Types (l : Loop F) (s : System F) (up Q : System F → Prop).

(** A step that is not the loop thread's. *)
Inductive other_step : System F → System F → Prop :=
| other_thread tid s s' : tid ≠ 0%nat → thread_step behaviour tid s s' → other_step s s'
| other_call tid a s :
    tid ≠ 0%nat → default [] (threads s !! tid) = [] →
    other_step s (MkSystem (sys_loop s) (<[tid := [Do a]]> (threads s))).

(** The loop thread can go on: it has an instruction left, and when it is about
    to poll, [up] holds, which says why [poll] does not wait. *)
Definition moves up s : Prop :=
  ∃ i rest, threads s !! 0%nat = Some (i :: rest) ∧ (i = Poll → up s).

(** After finitely many steps of the loop thread [Q] holds, for all results of
    [poll] and all steps of the others in between. *)
Inductive inevitably up Q s : Prop :=
| inevitably_now : Q s → inevitably up Q s
| inevitably_step :
    (∀ s1, rtc other_step s s1 → moves up s1) →
    (∀ s1 s2, rtc other_step s s1 → thread_step behaviour 0 s1 s2 → inevitably up Q s2) →
    inevitably up Q s.

Lemma other_sys s s' : other_step s s' → sys_step behaviour s s'.
Proof. intros [tid ? ? ? Hstep|]; [by eapply sys_thread|by apply sys_call]. Qed.

Lemma others_sys s s' : rtc other_step s s' → rtc (sys_step behaviour) s s'.
Proof. apply rtc_subrel, other_sys. Qed.

Lemma others_loop_thread s s' :
  rtc other_step s s' → threads s' !! 0%nat = threads s !! 0%nat.
Proof.
  induction 1 as [|s s1 s2 Hstep _ IH]; [done|]. rewrite IH.
  destruct Hstep as [tid s s' Hne []|]; cbn; by rewrite lookup_insert_ne.
Qed.

(** ** Getting through instructions *)
Section through.
Context (up Q : System F → Prop).
Abbreviation inev := (inevitably up Q).

(** One instruction. *)
Lemma inevitably_instr i rest s :
  threads s !! 0%nat = Some (i :: rest) → (i = Poll → ∀ s1, rtc other_step s s1 → up s1) →
  (∀ s1 s2 active l k, rtc other_step s s1 → exec behaviour true active i (sys_loop s1) = (l, k) →
     s2 = MkSystem l (<[0%nat := k ++ rest]> (threads s1)) → rtc (sys_step behaviour) s s2 →
     inev s2) →
  inev s.
Proof.
  intros Hth Hup Hnext. apply inevitably_step.
  - intros s1 Hs1. exists i, rest. rewrite (others_loop_thread _ _ Hs1). auto.
  - intros s1 s2 Hs1 Hstep.
    assert (rtc (sys_step behaviour) s s2) as Hs2
      by (etrans; [by apply others_sys|by eapply rtc_once, sys_thread]).
    destruct Hstep as [s1 j rest' active l k Hth1 _ He].
    rewrite (others_loop_thread _ _ Hs1), Hth in Hth1. injection Hth1 as <- <-.
    by eapply Hnext.
Qed.

(** The loop thread gets through [k], whatever comes after it. *)
Definition runs (k : list (instr F)) : Prop := ∀ s tail,
  threads s !! 0%nat = Some (k ++ tail) →
  (∀ s', rtc (sys_step behaviour) s s' → threads s' !! 0%nat = Some tail → inev s') →
  inev s.

Lemma runs_nil : runs [].
Proof. intros s tail Hth Hk. by apply Hk. Qed.

Lemma runs_app k1 k2 : runs k1 → runs k2 → runs (k1 ++ k2).
Proof.
  intros H1 H2 s tail Hth Hk. rewrite <-app_assoc in Hth. apply (H1 _ _ Hth).
  intros s1 Hs1 Hth1. apply (H2 _ _ Hth1). intros s2 Hs2. apply Hk. by etrans.
Qed.

Lemma runs_exec i :
  i ≠ Poll → (∀ active l l' k, exec behaviour true active i l = (l', k) → runs k) → runs [i].
Proof.
  intros Hi Hexec s tail Hth Hk. apply (inevitably_instr i tail); [done|done|].
  intros s1 s2 active l k Hs1 He -> Hs2. eapply (Hexec _ _ _ _ He); [apply lookup_insert_eq|].
  intros s3 Hs3. apply Hk. by etrans.
Qed.

Ltac run_simple := apply runs_exec; [done|]; intros ? ? ? ?; cbn; intros [= <- <-];
  try apply runs_nil.

Lemma runs_list {A} (f : A → instr F) (xs : list A) :
  (∀ x, x ∈ xs → runs [f x]) → runs (f <$> xs).
Proof.
  induction xs as [|x xs IH]; intros Hf; [apply runs_nil|].
  apply (runs_app [f x]); [apply Hf, list_elem_of_here|]. apply IH. set_solver.
Qed.

(** A functor that does not call itself without end through [runInLoop]. *)
Inductive finishes : F → Prop :=
| finishes_intro f : (∀ g, RunInLoop g ∈ behaviour f → finishes g) → finishes f.

Lemma runs_Do a : (∀ f, a = RunInLoop f → runs [Run f]) → runs [Do a].
Proof.
  intros Ha. destruct a as [f|f|]; run_simple; [run_simple|by apply Ha|run_simple].
Qed.

Lemma runs_behaviour f : finishes f → runs (Do <$> behaviour f).
Proof.
  induction 1 as [f _ IH]. apply runs_list. intros a Ha. apply runs_Do. intros g ->.
  run_simple. by apply IH.
Qed.

Lemma runs_Run f : finishes f → runs [Run f].
Proof. intros Hf. run_simple. by apply runs_behaviour. Qed.

Lemma runs_RunFunctor f : finishes f → runs [RunFunctor f].
Proof. intros Hf. run_simple. by apply runs_behaviour. Qed.

Lemma runs_SetLooping b : runs [SetLooping b].
Proof. run_simple. Qed.

Lemma runs_SetCalling b : runs [SetCalling b].
Proof. run_simple. Qed.

Context (Hfinishes : ∀ f, finishes f).

Lemma runs_instr i :
  client_instr i || is_event i || is_functor i = true → runs [i].
Proof.
  destruct i as [a| | |f| | | | |[|f]| | |f]; try done; intros _.
  - apply runs_Do. intros g _. by apply runs_Run.
  - run_simple.
  - run_simple.
  - by apply runs_Run.
  - run_simple.
  - run_simple. by apply runs_Run.
  - by apply runs_RunFunctor.
Qed.

Lemma runs_point k :
  Forall (λ i, client_instr i || is_event i || is_functor i) k → runs k.
Proof.
  induction 1 as [|i k Hi _ IH]; [apply runs_nil|]. apply (runs_app [i]); [|done].
  apply runs_instr. by apply Is_true_true.
Qed.

(** The end of a round, from the swap on. *)
Lemma runs_swap : runs [SwapPending; SetCalling false].
Proof.
  apply (runs_app [SwapPending]); [|apply runs_SetCalling]. run_simple.
  apply runs_list. intros f _. by apply runs_RunFunctor.
Qed.

(** [poll] and the handling of what it reports. *)
Lemma inevitably_poll s rest :
  threads s !! 0%nat = Some (Poll :: rest) → (∀ s1, rtc other_step s s1 → up s1) →
  (∀ s', rtc (sys_step behaviour) s s' → threads s' !! 0%nat = Some rest → inev s') → inev s.
Proof.
  intros Hth Hup Hk. apply (inevitably_instr Poll rest); [done|done|].
  intros s1 s2 active l k Hs1 [= <- <-] Heq Hs2.
  apply (runs_list HandleEvent active (λ c _, runs_instr (HandleEvent c) eq_refl) s2 rest);
    [by rewrite Heq; apply lookup_insert_eq|].
  intros s3 Hs3. apply Hk. by etrans.
Qed.

(** From anywhere in [loop], or before it, the loop thread gets back to the
    condition of the loop, if it need not wait in [poll]. *)
Lemma inevitably_While p s :
  inv p s → p ≠ PEnd → p ≠ PDone → (p = PPoll → ∀ s1, rtc other_step s s1 → up s1) →
  (∀ s', rtc (sys_step behaviour) s s' → threads s' !! 0%nat = Some [While] → inev s') → inev s.
Proof.
  intros Hinv Hend Hdone Hup Hk. pose proof (inv_stack _ _ Hinv) as Hth.
  pose proof (inv_pc _ _ Hinv) as Hpc.
  assert (∀ k, pc_ok (PEnter k) ∨ pc_ok (PEvents k) ∨ pc_ok (PFunctors k) → runs k) as Hpoint.
  { intros k Hk0. apply runs_point. destruct Hk0 as [H|[H|H]];
      (eapply Forall_impl; [exact H|]); by intros []. }
  assert (runs [SetQuit false]) as Hquit by run_simple.
  assert (runs doPendingFunctors) as Hpending
    by (apply (runs_app [SetCalling true]); [apply runs_SetCalling|apply runs_swap]).
  destruct p as [k| | | |k| |k| |]; try done; cbn in Hth.
  - refine (runs_app _ _ (Hpoint k _) (runs_app _ _ (runs_SetLooping true) Hquit) s [While] _ Hk); [by left|].
    by rewrite <-app_assoc.
  - exact (Hquit s [While] Hth Hk).
  - by apply Hk.
  - apply (inevitably_poll s (doPendingFunctors ++ [While])); [done|auto|].
    intros s1 Hs1 Hth1. apply (Hpending s1 [While] Hth1). intros s2 Hs2. apply Hk. by etrans.
  - refine (runs_app _ _ (Hpoint k _) Hpending s [While] _ Hk); [by right; left|].
    by rewrite <-app_assoc.
  - exact (runs_swap s [While] Hth Hk).
  - refine (runs_app _ _ (Hpoint k _) (runs_SetCalling false) s [While] _ Hk); [by right; right|].
    by rewrite <-app_assoc.
Qed.
End through.

(** ** What stays in the meantime *)

Lemma queued_exec b active i l l' k :
  exec behaviour b active i l = (l', k) →
  queued l `prefix_of` queued l'.
Proof.
  pose proof (wakeup_fields l) as (_ & _ & _ & _ & Hqu & _).
  destruct i as [[f|f|]| | |f| | | | |[]| | |]; cbn; try (intros [= <- <-]; done).
  - intros [= <- <-]. by apply prefix_app_r.
  - by destruct b; intros [= <- <-].
  - destruct (_ || _); intros [= <- <-]; by rewrite ?Hqu.
  - destruct b; intros [= <- <-]; by rewrite ?Hqu.
Qed.

Lemma queued_steps s s' :
  rtc (sys_step behaviour) s s' → queued (sys_loop s) `prefix_of` queued (sys_loop s').
Proof.
  induction 1 as [|s s1 s2 Hstep _ IH]; [done|]. etrans; [|exact IH].
  destruct Hstep as [tid s s' []|]; [by eapply queued_exec|done].
Qed.

(** The functors that have been started or taken to be started. *)
Definition begun s : list F :=
  started (sys_loop s) ++ taken (default [] (threads s !! 0%nat)).

Lemma begun_pc p s : inv p s → begun s = started (sys_loop s) ++ pc_taken p.
Proof.
  intros Hp. unfold begun. rewrite (inv_stack _ _ Hp). cbn. f_equal.
  apply taken_stack_of, (inv_pc _ _ Hp).
Qed.

Lemma taken_exec active i l l' k :
  exec behaviour true active i l = (l', k) →
  started l ++ taken [i] = started l' ++ taken k ∨
  i = SwapPending ∧ started l ++ taken [i] `prefix_of` started l' ++ taken k.
Proof.
  pose proof (wakeup_fields l) as (_ & _ & _ & _ & _ & Hst & _).
  assert (∀ f, taken (Do <$> behaviour f) = []) as Hact
    by (intros f; apply taken_client, client_actions).
  assert (taken (F:=F) (HandleEvent <$> active) = []) as Hev by (by induction active).
  destruct i as [[f|f|]| | |f| | | | |[]| | |]; cbn; try (intros [= <- <-]; left; done).
  - destruct (callingPendingFunctors_ l); intros [= <- <-]; left; by rewrite ?Hst.
  - intros [= <- <-]. left. by rewrite Hact.
  - intros [= <- <-]. left. by destruct (quit_ l).
  - intros [= <- <-]. left. by rewrite Hev.
  - intros [= <- <-]. right. split; [done|]. apply prefix_app, prefix_nil.
  - intros [= <- <-]. left. cbn. by rewrite Hact, app_nil_r.
Qed.

Lemma begun_step s s' p :
  sys_step behaviour s s' → inv p s → begun s `prefix_of` begun s'.
Proof.
  intros [tid s0 s1 [s2 i rest active l k Hth _ He]|tid a s0 Hne _] Hinv.
  2:{ unfold begun. cbn. by rewrite lookup_insert_ne. }
  unfold begun. cbn. destruct (Nat.eqb_spec tid 0) as [->|Hne].
  - rewrite Hth, lookup_insert_eq. cbn [from_option id]. rewrite taken_app.
    change (taken (i :: rest)) with (taken ([i] ++ rest)). rewrite taken_app, !app_assoc.
    destruct (taken_exec _ _ _ _ _ He) as [<-|[-> Hk]]; [done|].
    assert (taken rest = []) as ->.
    { pose proof (inv_stack _ _ Hinv) as Hst. rewrite Hth in Hst. injection Hst as Hst.
      pose proof (inv_pc _ _ Hinv) as Hpc.
      destruct p as [[|j k0]| | | |[|j k0]| |[|j k0]| |]; simplify_eq/=; try done;
        by apply Forall_cons in Hpc as [? _]. }
    rewrite (app_nil_r (started (sys_loop s2) ++ _)), (app_nil_r (started l ++ _)). exact Hk.
  - pose proof (inv_others _ _ Hinv _ _ Hne Hth) as [Hi%Is_true_true _]%Forall_cons.
    destruct (exec_client _ _ _ _ _ _ _ Hi He) as [_ -> _ _ _ _ _].
    by rewrite lookup_insert_ne.
Qed.

Lemma pending_exec_client b active i l l' k :
  client_instr i = true → exec behaviour b active i l = (l', k) →
  pendingFunctors_ l `prefix_of` pendingFunctors_ l'.
Proof.
  intros Hi He. destruct (exec_client _ _ _ _ _ _ _ Hi He) as [_ _ _ _ (d & -> & _) _ _].
  by apply prefix_app_r.
Qed.

Lemma quit_exec_client b active i l l' k :
  client_instr i = true → exec behaviour b active i l = (l', k) →
  quit_ l = true → quit_ l' = true.
Proof.
  pose proof (wakeup_fields l) as (_ & Hq & _).
  destruct i as [[f|f|]| | |f| | | | | | | |]; try done; intros _; cbn.
  - by intros [= <- <-].
  - by destruct b; intros [= <- <-].
  - by intros [= <- <-].
  - by destruct (_ || _); intros [= <- <-]; rewrite ?Hq.
  - by destruct b; intros [= <- <-]; rewrite ?Hq.
  - by intros [= <- <-].
Qed.

Section reachable.
Context (pre : list (action F)).
Abbreviation reachable := (rtc (sys_step behaviour) (init pre)).

(** The other threads only add to the queue, and do not reset [quit_]. *)
Lemma others_keep s s' :
  reachable s → rtc other_step s s' →
  pendingFunctors_ (sys_loop s) `prefix_of` pendingFunctors_ (sys_loop s') ∧
  (quit_ (sys_loop s) = true → quit_ (sys_loop s') = true).
Proof.
  intros Hs Hsteps. revert Hs. induction Hsteps as [|s s1 s2 Hstep _ IH]; [done|]. intros Hs.
  destruct IH as [Hp Hq]; [by eapply rtc_r; [exact Hs|apply other_sys]|].
  destruct Hstep as [tid s s1 Hne [s0 i rest active l k Hth _ He]|]; [|done]. cbn in *.
  destruct (loop_reachable_inv _ _ _ Hs) as [p Hinv].
  pose proof (inv_others _ _ Hinv _ _ Hne Hth) as [Hi%Is_true_true _]%Forall_cons.
  split; [etrans; [by eapply pending_exec_client|exact Hp]|].
  intros Hquit. apply Hq. by eapply quit_exec_client.
Qed.

(** What the loop thread finds in the queue when it swaps it, it has run when
    it gets back to the condition of the loop. *)
Lemma swap_starts s s' rest :
  reachable s → threads s !! 0%nat = Some (SwapPending :: rest) →
  rtc (sys_step behaviour) s s' → threads s' !! 0%nat = Some [While] →
  queued (sys_loop s) `prefix_of` started (sys_loop s').
Proof.
  intros Hs Hth Hsteps Hth'.
  assert (queued (sys_loop s) `prefix_of` begun s' ∨
    ∃ rest, threads s' !! 0%nat = Some (SwapPending :: rest)) as [Hb|[? Hsw]]; [| |congruence].
  2:{ unfold begun in Hb. rewrite Hth' in Hb. by rewrite app_nil_r in Hb. }
  clear Hth'. revert s' Hsteps. refine (rtc_ind_r _ s _ _); [eauto|]. intros s' s1 Hss' Hstep IH.
  assert (reachable s') as Hs' by (by etrans).
  destruct (loop_reachable_inv _ _ _ Hs') as [p Hinv].
  destruct IH as [Hb|[rest' Hsw]]; [left; etrans; [exact Hb|by eapply begun_step]|].
  pose proof (queued_steps _ _ Hss') as Hqs. clear Hth Hs Hss' Hs'.
  destruct Hstep as [tid s' s1 [s2 i rest1 active l k Hth1 _ He]|tid a s' Hne _].
  2:{ right. cbn. rewrite lookup_insert_ne by done. eauto. }
  destruct (Nat.eqb_spec tid 0) as [->|Hne].
  2:{ right. cbn. rewrite lookup_insert_ne by done. eauto. }
  left. assert (i = SwapPending) as -> by congruence. injection He as <- <-.
  pose proof (inv_fifo _ _ Hinv) as Hf. etrans; [exact Hqs|]. rewrite Hf.
  assert (pc_taken p = []) as ->.
  { pose proof (inv_stack _ _ Hinv) as Hst. rewrite Hsw in Hst. injection Hst as Hst.
    pose proof (inv_pc _ _ Hinv) as Hpc.
    destruct p as [[|j k0]| | | |[|j k0]| |[|j k0]| |]; simplify_eq/=; try done;
      by apply Forall_cons in Hpc as [? _]. }
  unfold begun. cbn. rewrite lookup_insert_eq. cbn [from_option id].
  rewrite taken_app, taken_functors. cbn. apply prefix_app, prefix_app_r. done.
Qed.

(** The loop thread is about to poll. *)
Lemma poll_point p s rest :
  inv p s → threads s !! 0%nat = Some (Poll :: rest) → p = PPoll.
Proof.
  intros Hp Hth. rewrite (inv_stack _ _ Hp) in Hth. pose proof (inv_pc _ _ Hp) as Hpc.
  destruct p as [[|j k0]| | | |[|j k0]| |[|j k0]| |]; simplify_eq/=; try done;
    apply Forall_cons in Hpc as [Hj _]; done.
Qed.

(** Why it does not wait there. *)
Lemma poll_up s rest :
  reachable s → threads s !! 0%nat = Some (Poll :: rest) →
  (quit_ (sys_loop s) = true → awake s) ∧
  (pendingFunctors_ (sys_loop s) ≠ [] → awake s ∨ early behaviour pre s).
Proof.
  intros (p & Hp & Hw)%reachable_wakes Hth. pose proof (poll_point _ _ _ Hp Hth) as ->. split.
  - intros Hq. by apply (wk_quit _ _ _ _ Hw).
  - intros Hne. destruct (wk_pending _ _ _ _ Hw Hne) as [?|[?|[?|[_ ?]]]]; auto; done.
Qed.
End reachable.
End runs.
