(* ===== verification/EventLoopProps.v ===== *)
(** * The properties of the event loop (src/net/EventLoop.cc)

    Functors run exactly once and in the order they are queued, wakeups are
    not lost, [loop] returns after [quit]; and the two ways in which a call
    made before [loop] is entered goes unnoticed. *)
From S2P Require Import Prelude EventLoop EventLoopSpec EventLoopRuns.

Section properties.
Context {F : Type} (behaviour : F → list (action F)).
Implicit Types (l : Loop F) (s : System F).

(** C11 (invariant). Whatever the loop thread and the other threads do, the
    functors queued so far are, in this order, those that have been started,
    those the loop thread has taken from the queue and not started yet, and
    those in the queue: none is lost, run twice or overtaken. *)
Theorem functors_fifo pre s :
  rtc (sys_step behaviour) (init pre) s →
  queued (sys_loop s) = started (sys_loop s) ++ taken (default [] (threads s !! 0%nat)) ++
    pendingFunctors_ (sys_loop s).
Proof.
  intros [p Hp]%loop_reachable_inv. rewrite (inv_stack _ _ Hp). simpl.
  rewrite taken_stack_of by apply (inv_pc _ _ Hp). apply (inv_fifo _ _ Hp).
Qed.

(** C9 (safety). No wakeup is lost, whatever the loop thread has called before
    [loop]: when it is about to wait in [poll] and a functor is in the queue, or
    [quit] has been called, the eventfd is readable, or another thread is still
    on its way to write it. The one exception are functors that the loop
    thread has itself queued before it entered [loop], for which [queueInLoop]
    wakes nobody: before the first functor has been run, they may be all there
    is in the queue. *)
Theorem no_lost_wakeup pre s rest :
  rtc (sys_step behaviour) (init pre) s →
  threads s !! 0%nat = Some (Poll :: rest) →
  pendingFunctors_ (sys_loop s) ≠ [] ∨ quit_ (sys_loop s) = true →
  0 < wakeupFd_ (sys_loop s) ∨
  (∃ tid k i, tid ≠ 0%nat ∧ threads s !! tid = Some k ∧ i ∈ k ∧
    (i = WakeupUnlessLoop ∨ i = WakeupFromOther)) ∨
  quit_ (sys_loop s) = false ∧ started (sys_loop s) = [] ∧
    ∀ f, f ∈ pendingFunctors_ (sys_loop s) → calls behaviour pre (QueueInLoop f).
Proof.
  intros Hs Hth Hwork. destruct (poll_up behaviour pre s rest Hs Hth) as [Hquit Hpend].
  assert (awake s ∨ quit_ (sys_loop s) = false ∧ early behaviour pre s)
    as [[?|(tid & k & i & ? & ? & ? & Hi)]|(? & ? & ?)].
  { destruct (quit_ (sys_loop s)); [auto|]. destruct Hwork as [Hne|]; [|done].
    destruct (Hpend Hne); auto. }
  - by left.
  - right; left. exists tid, k, i. destruct i; naive_solver.
  - by right; right.
Qed.

(** ** Progress of the loop thread *)

Context (Hfinishes : ∀ f, finishes behaviour f).

(** C29 (liveness). Every functor gets run, if every functor ends when it is run.
    From any state, after finitely many
    steps of the loop thread every functor queued so far has been started, or
    the loop thread has left [loop]: whatever [poll] reports each time, however
    many steps the other threads make in between, and without [poll] ever
    having to wait for its timeout, because the eventfd is readable or
    another thread is about to write it whenever the loop thread polls on the
    way; the exception are, as above, functors that the loop thread has queued
    before [loop]. *)
Theorem queued_functors_start pre s :
  rtc (sys_step behaviour) (init pre) s →
  inevitably behaviour (λ s1, awake s1 ∨ early behaviour pre s1)
    (λ s', queued (sys_loop s) `prefix_of` started (sys_loop s') ∨
       threads s' !! 0%nat = Some []) s.
Proof.
  intros Hs. set (up := λ s1, _). set (Q := λ s', _).
  assert (∀ s1 rest, rtc (sys_step behaviour) s s1 → threads s1 !! 0%nat = Some (Poll :: rest) →
    Q s1 ∨ ∀ s2, rtc (other_step behaviour) s1 s2 → up s2) as Hpoll.
  { intros s1 rest Hs1 Hth. assert (rtc (sys_step behaviour) (init pre) s1) as Hr by by etrans.
    destruct (decide (pendingFunctors_ (sys_loop s1) = [])) as [Hnil|Hne]; [left; left|right].
    - destruct (loop_reachable_inv _ _ _ Hr) as [p Hinv].
      pose proof (inv_fifo _ _ Hinv) as Hf. rewrite (poll_point _ _ _ Hinv Hth), Hnil, !app_nil_r in Hf.
      rewrite <-Hf. by eapply queued_steps.
    - intros s2 Hs2. destruct (others_keep _ _ _ _ Hr Hs2) as [Hp _].
      apply (poll_up _ pre s2 rest); [by etrans; [|apply others_sys]|by rewrite (others_loop_thread _ _ _ Hs2)|].
      intros Hnil. rewrite Hnil in Hp. by apply prefix_nil_inv in Hp. }
  destruct (loop_reachable_inv _ _ _ Hs) as [p Hinv]. pose proof (inv_stack _ _ Hinv) as Hth.
  assert (p = PDone ∨ p = PEnd ∨ p ≠ PEnd ∧ p ≠ PDone) as [->|[->|[Hend Hdone]]]
    by (destruct p; naive_solver).
  { apply inevitably_now. by right. }
  { apply (runs_SetLooping behaviour up Q false s []); [done|]. intros. apply inevitably_now. by right. }
  assert (Q s ∨ (p = PPoll → ∀ s1, rtc (other_step behaviour) s s1 → up s1)) as [?|Hup].
  { destruct p; try (by right). destruct (Hpoll s _ (rtc_refl _ _) Hth); auto. }
  { by apply inevitably_now. }
  apply (inevitably_While behaviour up Q Hfinishes p s); [done..|].
  intros s1 Hs1 Hth1. apply (inevitably_instr _ _ _ While [] s1); [done|done|].
  intros s2 s3 active l k _ He Heq Hs3. cbn in He. destruct (quit_ (sys_loop s2)); cbn in He;
    injection He as <- <-; (assert (threads s3 !! 0%nat = _) as Hth3 by (rewrite Heq; apply lookup_insert_eq)).
  { apply (runs_SetLooping behaviour up Q false s3 []); [done|]. intros. apply inevitably_now. by right. }
  assert (rtc (sys_step behaviour) s s3) as Hss3 by by etrans.
  destruct (Hpoll s3 _ Hss3 Hth3) as [?|Hup3]; [by apply inevitably_now|].
  apply (inevitably_poll behaviour up Q Hfinishes s3 _ Hth3 Hup3). intros s4 Hs4 Hth4.
  apply (runs_SetCalling behaviour up Q true s4 [SwapPending; SetCalling false; While] Hth4). intros s5 Hs5 Hth5.
  apply (runs_swap behaviour up Q Hfinishes s5 [While] Hth5). intros s6 Hs6 Hth6.
  assert (rtc (sys_step behaviour) s s5) as Hss5 by (etrans; [exact Hss3|by etrans]).
  apply inevitably_now. left. etrans; [by eapply queued_steps|].
  eapply (swap_starts _ pre); [by etrans|exact Hth5|done..].
Qed.

(** Inside [loop], nothing resets [quit_]. *)
Definition quitting s : Prop :=
  quit_ (sys_loop s) = true ∧ ∀ k, threads s !! 0%nat = Some k → SetQuit false ∉ k.

Lemma SetQuit_not_client b k : Forall (λ i : instr F, client_instr i) k → SetQuit b ∉ k.
Proof. intros Hk Hin. eapply Forall_forall in Hin; [|exact Hk]. done. Qed.

Lemma quitting_loop_step s s' : thread_step behaviour 0 s s' → quitting s → quitting s'.
Proof.
  intros [s0 i rest active l k Hth _ He] [Hq Hno]. specialize (Hno _ Hth).
  apply not_elem_of_cons in Hno as [Hi Hrest].
  assert (quit_ l = true ∧ SetQuit false ∉ k) as [Hq' Hk].
  { destruct i as [[| |]| | | | |b| | |[]| | |]; injection He as <- <-; split;
      rewrite ?Hq; try done; try (apply not_elem_of_nil);
      try (by apply SetQuit_not_client, client_actions);
      try (intros Hin; apply list_elem_of_fmap in Hin as (? & ? & _); done);
      try (intros Hin; repeat (apply elem_of_cons in Hin as [?|Hin]; [done|]);
           by apply not_elem_of_nil in Hin).
    - cbn. destruct (callingPendingFunctors_ _); [|done].
      by destruct (wakeup_fields (sys_loop s0)) as (_ & -> & _).
    - destruct b; [done|]. by destruct Hi. }
  split; [done|]. intros k'. cbn. rewrite lookup_insert_eq. intros [= <-].
  rewrite elem_of_app. tauto.
Qed.

Lemma quitting_step pre s s' :
  rtc (sys_step behaviour) (init pre) s → sys_step behaviour s s' → quitting s → quitting s'.
Proof.
  intros Hs Hstep Hq.
  assert (thread_step behaviour 0 s s' ∨ other_step behaviour s s') as [Hl|Ho].
  { destruct Hstep as [tid s s' Hstep|tid a s]; [|right; by apply other_call].
    destruct (decide (tid = 0%nat)) as [->|]; [by left|right; by eapply other_thread]. }
  { by eapply quitting_loop_step. }
  apply rtc_once in Ho. destruct Hq as [Hq Hno].
  destruct (others_keep _ _ _ _ Hs Ho) as [_ Hq']. split; [auto|].
  by rewrite (others_loop_thread _ _ _ Ho).
Qed.

Lemma quitting_steps pre s s' :
  rtc (sys_step behaviour) (init pre) s → rtc (sys_step behaviour) s s' → quitting s → quitting s'.
Proof.
  intros Hs Hsteps. revert Hs. induction Hsteps as [|s s1 s2 Hstep _ IH]; [done|].
  intros Hs Hq. apply IH; [by eapply rtc_r|by eapply quitting_step].
Qed.

(** C34 (liveness). Once [quit] has been called on a running loop, all of whose
    functors end when they are run, the loop
    thread leaves [loop] after finitely many of its steps: whatever [poll]
    reports, however many steps the other threads make in between, and without
    [poll] ever having to wait for its timeout. *)
Theorem quit_terminates pre s k :
  rtc (sys_step behaviour) (init pre) s → quit_ (sys_loop s) = true →
  threads s !! 0%nat = Some k → SetQuit false ∉ k →
  inevitably behaviour awake (λ s', threads s' !! 0%nat = Some []) s.
Proof.
  intros Hs Hq Hth Hk.
  assert (∀ s1, rtc (sys_step behaviour) s s1 → quit_ (sys_loop s1) = true) as Hquit.
  { intros s1 Hs1. apply (quitting_steps pre s s1 Hs Hs1). split; [done|]. naive_solver. }
  destruct (loop_reachable_inv _ _ _ Hs) as [p Hinv]. pose proof (inv_stack _ _ Hinv) as Hst.
  assert (p = PDone ∨ p = PEnd ∨ p ≠ PEnd ∧ p ≠ PDone) as [->|[->|[Hend Hdone]]]
    by (destruct p; naive_solver).
  { by apply inevitably_now. }
  { apply (runs_SetLooping behaviour _ _ false s []); [done|]. intros. by apply inevitably_now. }
  apply (inevitably_While behaviour _ _ Hfinishes p s); [done..| |].
  { intros -> s1 Hs1. assert (rtc (sys_step behaviour) s s1) as Hss1 by by apply others_sys.
    eapply (poll_up _ pre s1); [by etrans|by rewrite (others_loop_thread _ _ _ Hs1)|auto]. }
  intros s1 Hs1 Hth1. apply (inevitably_instr _ _ _ While [] s1); [done|done|].
  intros s2 s3 active l k' Hs2 He Heq Hs3. cbn in He.
  rewrite (Hquit s2) in He by (etrans; [exact Hs1|by apply others_sys]). injection He as <- <-.
  apply (runs_SetLooping behaviour _ _ false s3 []); [by rewrite Heq; apply lookup_insert_eq|].
  intros. by apply inevitably_now.
Qed.
End properties.

Section early_calls.
Context {F : Type} (behaviour : F → list (action F)).

(** Steps of one thread, computed. *)
Fixpoint run_thread (n tid : nat) (s : System F) : System F :=
  match n with
  | O => s
  | S n' =>
      match threads s !! tid with
      | Some (i :: rest) =>
          let active :=
            match i with Poll => if 0 <? wakeupFd_ (sys_loop s) then [WakeupChannel] else []
            | _ => [] end in
          let '(l, k) := exec behaviour (tid =? 0)%nat active i (sys_loop s) in
          run_thread n' tid (MkSystem l (<[tid := k ++ rest]> (threads s)))
      | _ => s
      end
  end.

Lemma run_thread_steps n tid s : rtc (sys_step behaviour) s (run_thread n tid s).
Proof.
  revert s. induction n as [|n IH]; intros s; cbn; [done|].
  destruct (threads s !! tid) as [[|i rest]|] eqn:Hth; try done.
  destruct (exec _ _ _ _ _) as [l k] eqn:He. eapply rtc_l; [|apply IH].
  apply (sys_thread _ tid). econstructor; [done| |done].
  intros Hw. destruct i; try (by apply not_elem_of_nil in Hw).
  destruct (Z.ltb_spec 0 (wakeupFd_ (sys_loop s))); [done|]. by apply not_elem_of_nil in Hw.
Qed.

(** A functor that the loop thread queues before it enters
    [loop] wakes nobody: the loop thread can wait in [poll] with the functor
    in its queue, the eventfd at 0 and no other thread at work. *)
Lemma early_functor_waits cb :
  ∃ s rest, rtc (sys_step behaviour) (init [QueueInLoop cb]) s ∧
    threads s = {[0%nat := Poll :: rest]} ∧
    pendingFunctors_ (sys_loop s) = [cb] ∧ wakeupFd_ (sys_loop s) = 0.
Proof.
  exists (run_thread 5 0 (init [QueueInLoop cb])). eexists.
  split; [apply run_thread_steps|]. split_and!; reflexivity.
Qed.

(** The loop has been told to quit by thread 1, which has nothing left to do,
    before the loop thread executes [quit_ = false]. *)
Definition quit_too_early : System F :=
  let s1 := run_thread 1 0 (init []) in
  let s2 := MkSystem (sys_loop s1) (<[1%nat := [Do Quit]]> (threads s1)) in
  run_thread 8 0 (run_thread 2 1 s2).

(** The loop thread keeps going round the loop. *)
Definition keeps_looping (s : System F) : Prop :=
  quit_ (sys_loop s) = false ∧ ∃ k, threads s !! 0%nat = Some (k ++ [While]) ∧
    Forall (λ i, match i with Do Quit | SetQuit _ | SetLooping _ => False | _ => True end) k.

Lemma keeps_looping_step s s' :
  (∀ f, Quit ∉ behaviour f) →
  thread_step behaviour 0 s s' → keeps_looping s → keeps_looping s'.
Proof.
  intros Hno [s0 i rest active l k Hth _ He] [Hq (k0 & Hk0 & Hok)].
  assert (∀ f, Forall (λ i : instr F, match i with Do Quit | SetQuit _ | SetLooping _ => False
    | _ => True end) (Do <$> behaviour f)) as Hbeh.
  { intros f. apply Forall_fmap, Forall_forall. intros [] Ha; try done. by apply (Hno f). }
  unfold keeps_looping. cbn. rewrite lookup_insert_eq. rewrite Hth in Hk0. injection Hk0 as Hk0.
  destruct k0 as [|j k0]; simpl in Hk0; injection Hk0 as -> ->.
  - cbn in He. rewrite Hq in He. injection He as <- <-. split; [done|].
    exists (Poll :: doPendingFunctors). split; [done|]. by repeat constructor.
  - apply Forall_cons in Hok as [Hj Hok].
    assert (quit_ l = false ∧ Forall (λ i : instr F, match i with Do Quit | SetQuit _
      | SetLooping _ => False | _ => True end) k) as [Hq' Hk].
    { destruct j as [[| |]| | | | | | | |[]| | |]; try done; injection He as <- <-;
        rewrite ?Hq; (split; [try done|try (by repeat constructor); try done]);
        try (by apply Forall_fmap, Forall_true).
      - cbn. destruct (callingPendingFunctors_ _); [|done].
        by destruct (wakeup_fields (sys_loop s0)) as (_ & -> & _). }
    split; [done|]. exists (k ++ k0). rewrite <-app_assoc. split; [done|]. by apply Forall_app.
Qed.

(** A call of [quit] that comes before the loop thread has
    executed [quit_ = false] in [loop] is lost: the loop thread can then wait
    in [poll] with [quit_] unset and the eventfd at 0, and unless client code
    calls [quit] again it never leaves [loop]. *)
Lemma quit_before_loop_lost :
  (∀ f, Quit ∉ behaviour f) →
  rtc (sys_step behaviour) (init []) quit_too_early ∧
  (∃ rest, threads quit_too_early = {[0%nat := Poll :: rest; 1%nat := []]}) ∧
  wakeupFd_ (sys_loop quit_too_early) = 0 ∧
  ∀ s, rtc (thread_step behaviour 0) quit_too_early s → threads s !! 0%nat ≠ Some [].
Proof.
  intros Hnoquit. split_and!.
  - etrans; [apply (run_thread_steps 1 0)|]. eapply rtc_l.
    { apply (sys_call behaviour 1 Quit); done. }
    etrans; [apply (run_thread_steps 2 1)|]. apply run_thread_steps.
  - eexists. reflexivity.
  - reflexivity.
  - intros s Hs. assert (keeps_looping s) as [_ (k & -> & _)].
    { refine (rtc_invariant _ keeps_looping quit_too_early s _ _ Hs).
      - intros s1 s2 Hk Hstep. by eapply keeps_looping_step.
      - split; [reflexivity|]. exists (Poll :: doPendingFunctors). split; [reflexivity|]. by repeat constructor. }
    intros Hnil. injection Hnil as Hnil. by destruct k.
Qed.
End early_calls.

(** ** Witnesses *)

Definition demo_behaviour (f : nat) : list (action nat) :=
  match f with O => [QueueInLoop 7%nat] | S n => [RunInLoop n] end.

Lemma demo_finishes f : finishes demo_behaviour f.
Proof.
  induction f as [|f IH]; constructor; intros g Hg.
  - apply list_elem_of_singleton in Hg. done.
  - apply list_elem_of_singleton in Hg. injection Hg as ->. done.
Qed.

(** Thread 1 has queued functor 3, the loop thread is in [poll]. *)
Definition demo_system : System nat :=
  let s1 := run_thread demo_behaviour 3 0 (init []) in
  run_thread demo_behaviour 1 1 (MkSystem (sys_loop s1) (<[1%nat := [Do (QueueInLoop 3%nat)]]> (threads s1))).

Lemma demo_system_reachable : rtc (sys_step demo_behaviour) (init []) demo_system.
Proof.
  etrans; [apply (run_thread_steps _ 3 0)|]. eapply rtc_l.
  { apply (sys_call _ 1 (QueueInLoop 3%nat)); done. }
  apply run_thread_steps.
Qed.

Lemma functors_fifo_witness : queued (sys_loop demo_system) = [3%nat].
Proof.
  rewrite (functors_fifo demo_behaviour [] demo_system demo_system_reachable). reflexivity.
Defined.

Lemma no_lost_wakeup_witness :
  0 < wakeupFd_ (sys_loop demo_system) ∨
  (∃ tid k i, tid ≠ 0%nat ∧ threads demo_system !! tid = Some k ∧ i ∈ k ∧
    (i = WakeupUnlessLoop ∨ i = WakeupFromOther)) ∨
  quit_ (sys_loop demo_system) = false ∧ started (sys_loop demo_system) = [] ∧
    ∀ f, f ∈ pendingFunctors_ (sys_loop demo_system) → calls demo_behaviour [] (QueueInLoop f).
Proof.
  apply (no_lost_wakeup demo_behaviour [] demo_system (doPendingFunctors ++ [While])).
  - exact demo_system_reachable.
  - reflexivity.
  - left. discriminate.
Defined.

Lemma queued_functors_start_witness :
  inevitably demo_behaviour (λ s1, awake s1 ∨ early demo_behaviour [] s1)
    (λ s', [3%nat] `prefix_of` started (sys_loop s') ∨ threads s' !! 0%nat = Some []) demo_system.
Proof.
  exact (queued_functors_start demo_behaviour demo_finishes [] demo_system demo_system_reachable).
Defined.

(** Thread 1 has called [quit] as well. *)
Definition demo_quit : System nat :=
  let s1 := run_thread demo_behaviour 1 1 demo_system in
  run_thread demo_behaviour 1 1 (MkSystem (sys_loop s1) (<[1%nat := [Do Quit]]> (threads s1))).

Lemma quit_terminates_witness :
  inevitably demo_behaviour awake (λ s', threads s' !! 0%nat = Some []) demo_quit.
Proof.
  eapply (quit_terminates demo_behaviour demo_finishes []).
  - etrans; [exact demo_system_reachable|].
    etrans; [apply (run_thread_steps demo_behaviour 1 1)|]. eapply rtc_l.
    + apply (sys_call demo_behaviour 1 Quit); [discriminate|reflexivity].
    + apply run_thread_steps.
  - reflexivity.
  - reflexivity.
  - intros Hin. repeat (apply elem_of_cons in Hin as [?|Hin]; [discriminate|]).
    by apply not_elem_of_nil in Hin.
Defined.

Lemma quit_before_loop_lost_witness :
  rtc (sys_step demo_behaviour) (init []) (quit_too_early demo_behaviour) ∧
  (∃ rest, threads (quit_too_early demo_behaviour) = {[0%nat := Poll :: rest; 1%nat := []]}) ∧
  wakeupFd_ (sys_loop (quit_too_early demo_behaviour)) = 0 ∧
  ∀ s, rtc (thread_step demo_behaviour 0) (quit_too_early demo_behaviour) s →
    threads s !! 0%nat ≠ Some [].
Proof.
  apply (quit_before_loop_lost demo_behaviour).
  intros [|f] Hin; apply list_elem_of_singleton in Hin; discriminate.
Defined.
