(* ===== verification/EventLoopThread.v ===== *)
(** * EventLoopThread (include/net/EventLoopThread.h, src/net/EventLoopThread.cc)

    The owner of the object and the thread it starts, which runs an event loop
    that lives on its stack. The steps of the loop itself are those of
    EventLoop.v; the accesses through [loop_] fail once the loop is gone. *)
From S2P Require Import Prelude EventLoop.

Section event_loop_thread.
Context {F : Type} (behaviour : F → list (action F)).
(** What [callback_] calls on the new loop, when there is a callback. *)
Context (callback_ : option (list (action F))).

Inductive tinstr : Type :=
(* the owner *)
| Spawn                   (* thread_ = std::thread(&threadFunc, this) *)
| WaitLoop                (* cond_.wait(lock, loop_ != nullptr); loop = loop_ *)
| SetExiting              (* exiting_ = true *)
| ReadLoop                (* loop = loop_, under the mutex *)
| Join                    (* if (thread_.joinable()) thread_.join() *)
(* the new thread *)
| Construct               (* EventLoop loop; *)
| Callback                (* if (callback_) callback_(&loop) *)
| Publish                 (* loop_ = &loop; cond_.notify_one() *)
| Unpublish               (* loop_ = nullptr *)
| Destruct                (* the end of the scope of loop *)
(* either *)
| OnLoop (i : instr F).   (* a step of a method of the loop *)

(** [loop_] is either null or the address of [event_loop], which is [None]
    before its construction and after its destruction. [thread_] is the rest
    of the code of the new thread, [None] when there is none to join. *)
Record TState : Type := MkTState {
  loop_ : bool;
  exiting_ : bool;
  event_loop : option (Loop F);
  owner : list tinstr;
  thread_ : option (list tinstr);
}.

Definition set_owner k (s : TState) : TState :=
  MkTState (loop_ s) (exiting_ s) (event_loop s) k (thread_ s).
Definition set_thread k (s : TState) : TState :=
  MkTState (loop_ s) (exiting_ s) (event_loop s) (owner s) k.
Definition set_loop_ b (s : TState) : TState :=
  MkTState b (exiting_ s) (event_loop s) (owner s) (thread_ s).
Definition set_event_loop l (s : TState) : TState :=
  MkTState (loop_ s) (exiting_ s) l (owner s) (thread_ s).
Definition set_exiting (s : TState) : TState :=
  MkTState (loop_ s) true (event_loop s) (owner s) (thread_ s).

Definition startLoop : list tinstr := [Spawn; WaitLoop].
Definition destructor : list tinstr := [SetExiting; ReadLoop; Join].
Definition threadFunc : list tinstr :=
  [Construct; Callback; Publish] ++ (OnLoop <$> loop) ++ [Unpublish; Destruct].

(** One instruction of the owner or of the new thread: [None] when it has to
    wait. *)
Definition exec_owner (i : tinstr) (s : TState) : option (outcome (TState * list tinstr)) :=
  match i with
  | Spawn =>
      match thread_ s with
      | None => Some (Ok (set_thread (Some threadFunc) s, []))
      | Some _ => Some (Fault AbortFatal)
      end
  | WaitLoop => if loop_ s then Some (Ok (s, [])) else None
  | SetExiting => Some (Ok (set_exiting s, []))
  | ReadLoop => Some (Ok (s, if loop_ s then [OnLoop (Do Quit)] else []))
  | Join =>
      match thread_ s with
      | None => Some (Ok (s, []))
      | Some [] => Some (Ok (set_thread None s, []))
      | Some _ => None
      end
  | OnLoop i =>
      match event_loop s with
      | Some l => let '(l', k) := exec behaviour false [] i l in
                  Some (Ok (set_event_loop (Some l') s, OnLoop <$> k))
      | None => Some (Fault UndefinedBehaviour)
      end
  | _ => None
  end.

Definition exec_thread (active : list (active_channel (F:=F))) (i : tinstr) (s : TState)
    : option (outcome (TState * list tinstr)) :=
  match i with
  | Construct => Some (Ok (set_event_loop (Some new_Loop) s, []))
  | Callback =>
      Some (Ok (s, match callback_ with
                   | Some acts => OnLoop <$> (Do <$> acts)
                   | None => []
                   end))
  | Publish => Some (Ok (set_loop_ true s, []))
  | Unpublish => Some (Ok (set_loop_ false s, []))
  | Destruct => Some (Ok (set_event_loop None s, []))
  | OnLoop i =>
      match event_loop s with
      | Some l => let '(l', k) := exec behaviour true active i l in
                  Some (Ok (set_event_loop (Some l') s, OnLoop <$> k))
      | None => Some (Fault UndefinedBehaviour)
      end
  | _ => None
  end.

Definition continue_with (put : list tinstr → TState → TState) (rest : list tinstr)
    (o : outcome (TState * list tinstr)) : outcome TState :=
  '(s, k) ← o; mret (put (k ++ rest) s).

(** A step of the new thread, and of the owner. *)
Inductive new_thread_step : TState → outcome TState → Prop :=
| new_thread_step_intro s i rest active o :
    thread_ s = Some (i :: rest) →
    (∀ l, event_loop s = Some l → poll_ok l active) →
    exec_thread active i s = Some o →
    new_thread_step s (continue_with (λ k, set_thread (Some k)) rest o).
Inductive owner_step : TState → outcome TState → Prop :=
| owner_step_intro s i rest o :
    owner s = i :: rest → exec_owner i s = Some o →
    owner_step s (continue_with set_owner rest o).

Definition t_step (s : TState) (o : outcome TState) : Prop :=
  new_thread_step s o ∨ owner_step s o.
Definition t_step_ok (s s' : TState) : Prop := t_step s (Ok s').
Definition new_thread_ok (s s' : TState) : Prop := new_thread_step s (Ok s').

(** The owner runs [code] on a new object. *)
Definition t_init (code : list tinstr) : TState := MkTState false false None code None.
End event_loop_thread.
