(* ===== verification/EventLoopThreadProps.v ===== *)
(** * The properties of EventLoopThread (src/net/EventLoopThread.cc)

    The loop that [startLoop] returns exists and can be used as long as nobody
    makes it quit; and what can go wrong in the destructor. *)
From S2P Require Import Prelude EventLoop EventLoopSpec EventLoopProps EventLoopThread.

Section properties.
Context {F : Type} (behaviour : F → list (action F)).
Context (callback_ : option (list (action F))).
Abbreviation TState := (TState (F:=F)).
Implicit Types t : TState.

(** ** The loop is there, and stays *)

(** Instructions that neither enter [quit] nor belong to [loop] itself. *)
Definition no_quit (i : instr F) : Prop :=
  match i with Do Quit | SetQuit _ | SetLooping _ => False | _ => True end.
Definition safe_call (i : instr F) : Prop := client_instr i ∧ no_quit i.

Definition the_end : list (tinstr (F:=F)) := [Unpublish; Destruct].

(** What the new thread has left to do. *)
Inductive thread_at : option (list (tinstr (F:=F))) → bool → option (Loop F) → Prop :=
| at_start : thread_at None false None
| at_construct : thread_at (Some threadFunc) false None
| at_callback l :
    thread_at (Some ([Callback; Publish] ++ (OnLoop <$> loop) ++ the_end)) false (Some l)
| at_calls l k : Forall (λ i, client_instr i) k →
    thread_at (Some ((OnLoop <$> k) ++ [Publish] ++ (OnLoop <$> loop) ++ the_end)) false (Some l)
| at_loop l : thread_at (Some ((OnLoop <$> loop) ++ the_end)) true (Some l)
| at_reset l : thread_at (Some ((OnLoop <$> [SetQuit false; While]) ++ the_end)) true (Some l)
| at_run l k : Forall no_quit k → quit_ l = false →
    thread_at (Some ((OnLoop <$> (k ++ [While])) ++ the_end)) true (Some l).

(** What the owner has left to do. *)
Inductive owner_at : list (tinstr (F:=F)) → option (list (tinstr (F:=F))) → bool → Prop :=
| owner_new k : Forall safe_call k → owner_at (startLoop ++ (OnLoop <$> k)) None false
| owner_waits k c b : Forall safe_call k → owner_at (WaitLoop :: (OnLoop <$> k)) (Some c) b
| owner_calls k c : Forall safe_call k → owner_at (OnLoop <$> k) (Some c) true.

Record thread_inv t : Prop := {
  ti_thread : thread_at (thread_ t) (loop_ t) (event_loop t);
  ti_owner : owner_at (owner t) (thread_ t) (loop_ t);
}.

Context (Hno : ∀ f, Quit ∉ behaviour f).

Lemma behaviour_no_quit f : Forall safe_call (Do <$> behaviour f).
Proof. apply Forall_fmap, Forall_forall. intros [] Ha; try done. by destruct (Hno f). Qed.

Lemma safe_call_exec b active i l l' k :
  safe_call i → exec behaviour b active i l = (l', k) →
  Forall safe_call k ∧ quit_ l' = quit_ l.
Proof.
  intros [Hc Hq] He. pose proof (wakeup_fields l) as (_ & Hw & _).
  destruct i as [[f|f|]| | |f| | | | | | | |]; try done; cbn in He.
  - injection He as <- <-. split; [by repeat constructor|done].
  - destruct b; injection He as <- <-; (split; [by repeat constructor|done]).
  - injection He as <- <-. split; [done|]. by destruct (negb b || _).
  - injection He as <- <-. split; [done|]. by destruct (negb b).
  - injection He as <- <-. split; [apply behaviour_no_quit|done].
Qed.

Lemma run_exec active i l l' k :
  no_quit i → quit_ l = false → exec behaviour true active i l = (l', k) →
  (i = While ∧ k = Poll :: doPendingFunctors ++ [While] ∨ Forall no_quit k) ∧ quit_ l' = false.
Proof.
  intros Hi Hq He.
  assert (∀ k, Forall safe_call k → Forall no_quit k) as Hsafe.
  { intros k' Hk. eapply Forall_impl; [exact Hk|]. by intros j []. }
  destruct (client_instr i) eqn:Hc.
  { destruct (safe_call_exec true active i l l' k) as [? ?]; [by split; [rewrite Hc|]|done|].
    split; [right; auto|congruence]. }
  destruct i as [| | | | | | | |[]| | |]; try done; cbn in He; rewrite ?Hq in He;
    injection He as <- <-; split; try done; try (right; by repeat constructor); try (by left).
  - right. by apply Forall_fmap, Forall_true.
  - right. by apply Forall_fmap, Forall_true.
  - right. apply Hsafe, behaviour_no_quit.
Qed.

Lemma thread_inv_init acts :
  Quit ∉ acts → thread_inv (t_init (startLoop ++ (OnLoop <$> (Do <$> acts)))).
Proof.
  intros Ha. split; constructor. apply Forall_fmap, Forall_forall. intros [] Hin; by split.
Qed.

Lemma app_OnLoop_inv (k : list (instr F)) (i : tinstr) rest tail :
  (OnLoop <$> k) ++ tail = i :: rest →
  (k = [] ∧ tail = i :: rest) ∨
  ∃ j k', k = j :: k' ∧ i = OnLoop j ∧ rest = (OnLoop <$> k') ++ tail.
Proof. destruct k as [|j k']; cbn; [auto|]. intros [= <- <-]. right. eauto. Qed.

Ltac first_instr Heq Hexec :=
  unfold threadFunc in Heq; cbn in Heq; injection Heq as <- <-; cbn in Hexec;
  injection Hexec as <-.

(** A step of the new thread leaves the owner alone and succeeds. *)
Lemma thread_at_step t o :
  thread_at (thread_ t) (loop_ t) (event_loop t) →
  new_thread_step behaviour callback_ t o →
  ∃ t', o = Ok t' ∧ thread_at (thread_ t') (loop_ t') (event_loop t') ∧
    owner t' = owner t ∧ is_Some (thread_ t) ∧ is_Some (thread_ t') ∧
    (loop_ t = true → loop_ t' = true).
Proof.
  intros Hth Hstep. destruct Hstep as [t i rest active o Hi _ Hexec].
  destruct t as [lp ex el ow th]; cbn in *.
  inversion Hth as [|Heq|l Heq|l k Hk Heq|l Heq|l Heq|l k Hk Hq Heq]; subst; [done|..].
  - first_instr Heq Hexec. eexists; split; [done|]. split_and!; eauto. constructor.
  - first_instr Heq Hexec. eexists; split; [done|]. split_and!; eauto. cbn.
    destruct callback_ as [acts|].
    + constructor. by apply Forall_fmap, Forall_true.
    + by apply (at_calls l []).
  - injection Heq as Heq. apply app_OnLoop_inv in Heq as [[-> Heq]|(j & k' & -> & -> & ->)].
    + first_instr Heq Hexec. eexists; split; [done|]. split_and!; eauto. constructor.
    + cbn in Hexec. destruct (exec _ _ _ _ _) as [l' kk] eqn:He. simplify_eq/=.
      apply Forall_cons in Hk as [Hj Hk]. apply Is_true_true in Hj.
      destruct (exec_client _ _ _ _ _ _ _ Hj He) as [Hkk _ _ _ _ _ _].
      eexists; split; [done|]. split_and!; eauto. cbn.
      rewrite app_assoc, <-fmap_app. constructor. by apply Forall_app.
  - first_instr Heq Hexec. eexists; split; [done|]. split_and!; eauto. constructor.
  - first_instr Heq Hexec. eexists; split; [done|]. split_and!; eauto. by apply (at_run _ []).
  - injection Heq as Heq. apply app_OnLoop_inv in Heq as [[? _]|(j & k' & Hk' & -> & ->)].
    { by destruct k. }
    cbn in Hexec. destruct (exec _ _ _ _ _) as [l' kk] eqn:He. simplify_eq/=.
    destruct k as [|j0 k0]; injection Hk' as <- <-.
    + cbn in He. rewrite Hq in He. injection He as <- <-.
      eexists; split; [done|]. split_and!; eauto. cbn.
      apply (at_run _ (Poll :: doPendingFunctors)); [by repeat constructor|done].
    + apply Forall_cons in Hk as [Hj Hk].
      destruct (run_exec _ _ _ _ _ Hj Hq He) as [Hkk Hq'].
      eexists; split; [done|]. split_and!; eauto. cbn.
      rewrite app_assoc, <-fmap_app, app_assoc. constructor; [|done].
      apply Forall_app. split; [|done].
      destruct Hkk as [[-> ->]|?]; [by repeat constructor|done].
Qed.

Lemma new_thread_step_inv t o :
  thread_inv t → new_thread_step behaviour callback_ t o → ∃ t', o = Ok t' ∧ thread_inv t'.
Proof.
  intros [Hth Hown] Hstep.
  destruct (thread_at_step _ _ Hth Hstep) as (t' & -> & Hth' & Ho & [c Hc] & [c' Hc'] & Hb).
  exists t'. split; [done|]. split; [done|]. rewrite Ho, Hc'. rewrite Hc in Hown.
  inversion Hown as [|k c0 b Hk|k c0 Hk Heq Hc0 Hlp]; subst; [by constructor|].
  rewrite Hb by done. by constructor.
Qed.

Lemma thread_at_loop c el : thread_at c true el → ∃ l, el = Some l.
Proof. inversion 1; eauto. Qed.

(** A call of another thread leaves the new thread where it is. *)
Lemma thread_at_call c b l l' :
  thread_at c b (Some l) → b = true → quit_ l' = quit_ l → thread_at c b (Some l').
Proof. intros Hth -> Hq. inversion Hth; subst; constructor; congruence. Qed.

Lemma owner_step_inv t o :
  thread_inv t → owner_step behaviour t o → ∃ t', o = Ok t' ∧ thread_inv t'.
Proof.
  intros [Hth Hown] Hstep. destruct Hstep as [t i rest o Ho Hexec].
  destruct t as [lp ex el ow th]; cbn in *. subst ow.
  inversion Hown as [k Hk Heq|k c b Hk Heq|k c Hk Heq]; subst.
  - injection Hexec as <-. eexists; split; [done|].
    inversion Hth; subst. split; cbn; [constructor|by constructor].
  - cbn in Hexec. destruct lp; [|done]. injection Hexec as <-. eexists; split; [done|].
    split; cbn; [done|by constructor].
  - destruct k as [|j k]; [done|]. injection Heq as <- <-.
    destruct (thread_at_loop _ _ Hth) as [l ->].
    apply Forall_cons in Hk as [Hj Hk].
    cbn in Hexec. destruct (exec _ _ _ _ _) as [l' kk] eqn:He. injection Hexec as <-.
    destruct (safe_call_exec _ _ _ _ _ _ Hj He) as [Hkk Hq].
    eexists; split; [done|]. split; cbn; [by eapply thread_at_call|].
    rewrite <-fmap_app. constructor. by apply Forall_app.
Qed.

Lemma t_step_inv t o :
  thread_inv t → t_step behaviour callback_ t o → ∃ t', o = Ok t' ∧ thread_inv t'.
Proof. intros ? [?|?]; [by eapply new_thread_step_inv|by eapply owner_step_inv]. Qed.

(** C33 (safety). However the two threads interleave, no step of either goes
    wrong, and once [startLoop] has returned, the loop it returned exists and
    stays, so the owner can make any calls on it, as long as no client code
    calls [quit]. *)
Theorem started_loop_alive acts t :
  Quit ∉ acts →
  rtc (t_step_ok behaviour callback_) (t_init (startLoop ++ (OnLoop <$> (Do <$> acts)))) t →
  (∀ o, t_step behaviour callback_ t o → ∃ t', o = Ok t') ∧
  (Spawn ∉ owner t → WaitLoop ∉ owner t → loop_ t = true ∧ ∃ l, event_loop t = Some l).
Proof.
  intros Hacts Hsteps.
  assert (thread_inv t) as Hinv.
  { refine (rtc_invariant _ thread_inv _ t _ (thread_inv_init acts Hacts) Hsteps).
    intros t1 t2 Hinv Hstep. destruct (t_step_inv _ _ Hinv Hstep) as (t' & [= ->] & ?). done. }
  split.
  - intros o Hstep. destruct (t_step_inv _ _ Hinv Hstep) as (t' & -> & _). eauto.
  - intros Hspawn Hwait. destruct Hinv as [Hth Hown].
    assert (loop_ t = true) as Hl.
    { inversion Hown as [k Hk Heq|k c b Hk Heq|k c Hk Heq]; [..|done];
        rewrite <-Heq in Hspawn, Hwait; [destruct Hspawn|destruct Hwait]; apply list_elem_of_here. }
    split; [done|]. rewrite Hl in Hth. by eapply thread_at_loop.
Qed.
End properties.

(** ** Executions *)
Section executions.
Context {F : Type} (behaviour : F → list (action F)).
Abbreviation TState := (TState (F:=F)).

(** The threads take turns as the list says ([true]: the new thread), and
    [poll] reports the wakeup channel when the eventfd is readable. *)
Definition run_turn (turn : bool) (t : TState) : outcome TState :=
  if turn
  then
    match thread_ t with
    | Some (i :: rest) =>
        let active := match event_loop t with
          | Some l => if 0 <? wakeupFd_ l then [WakeupChannel] else [] | None => [] end in
        match exec_thread behaviour None active i t with
        | Some o => continue_with (λ k, set_thread (Some k)) rest o
        | None => Ok t
        end
    | _ => Ok t
    end
  else
    match owner t with
    | i :: rest =>
        match exec_owner behaviour i t with
        | Some o => continue_with set_owner rest o
        | None => Ok t
        end
    | [] => Ok t
    end.

Definition run_turns (turns : list bool) (t : TState) : outcome TState :=
  foldl (λ o turn, t ← o; run_turn turn t) (Ok t) turns.

Lemma run_turn_step turn t t' :
  run_turn turn t = Ok t' → rtc (t_step_ok behaviour None) t t'.
Proof.
  unfold run_turn. destruct turn.
  - destruct (thread_ t) as [[|i rest]|] eqn:Hth; try (intros [= <-]; done).
    destruct (exec_thread _ _ _ _ _) as [o|] eqn:He; [|intros [= <-]; done].
    intros Ho. apply rtc_once. left. rewrite <-Ho. econstructor; [done| |exact He].
    intros l ->. intros Hw. destruct (Z.ltb_spec 0 (wakeupFd_ l)); [done|].
    by apply not_elem_of_nil in Hw.
  - destruct (owner t) as [|i rest] eqn:Hth; [intros [= <-]; done|].
    destruct (exec_owner _ _ _) as [o|] eqn:He; [|intros [= <-]; done].
    intros Ho. apply rtc_once. right. rewrite <-Ho. by econstructor.
Qed.

Lemma run_turns_steps turns t t' :
  run_turns turns t = Ok t' → rtc (t_step_ok behaviour None) t t'.
Proof.
  unfold run_turns. revert t'. induction turns as [|turn turns IH] using rev_ind; intros t'.
  { by intros [= <-]. }
  rewrite foldl_app. cbn. destruct (foldl _ _ _) as [t1|] eqn:Hf; [|done]. cbn. intros Hlast.
  etrans; [by apply IH|]. by eapply run_turn_step.
Qed.

(** The owner starts the loop and destroys the object. *)
Definition lifetime : TState := t_init (startLoop ++ destructor).

(** The loop thread waits in [poll], the owner is about to destroy. *)
Definition polling : TState :=
  MkTState true false (Some (MkLoop true false false [] 0 [] [])) destructor
    (Some ((OnLoop <$> (Poll :: doPendingFunctors ++ [While])) ++ the_end)).

(** The loop thread waits in [poll], the owner in [join]. *)
Definition hanging : TState :=
  MkTState true true (Some (MkLoop true false false [] 1 [] [])) [Join]
    (Some ((OnLoop <$> (Poll :: doPendingFunctors ++ [While])) ++ the_end)).

(** The thread is at its end, the owner inside [quit]. *)
Definition racing : TState :=
  MkTState false true None [OnLoop WakeupFromOther; Join] (Some []).

(** The thread can be started and its object destroyed: when
    the loop thread has got as far as [poll] before the destructor begins,
    both threads run to their ends, the thread is joined and its loop
    destroyed. *)
Theorem start_and_destroy_completes :
  ∃ t t', rtc (t_step_ok behaviour None) lifetime t ∧
    (∃ rest, thread_ t = Some (OnLoop Poll :: rest)) ∧ owner t = destructor ∧
    rtc (t_step_ok behaviour None) t t' ∧
    owner t' = [] ∧ thread_ t' = None ∧ event_loop t' = None ∧ loop_ t' = false.
Proof.
  exists polling, (MkTState false true None [] None).
  split_and!; [|by eexists|done| |done..].
  - apply (run_turns_steps [false; true; true; true; true; true; true; false]).
    vm_compute. reflexivity.
  - apply (run_turns_steps (replicate 4 false ++ replicate 10 true ++ [false])).
    vm_compute. reflexivity.
Qed.

(** C39 (error). When the destructor calls [quit] before the new thread has
    executed [quit_ = false] in [loop], it waits for ever in [join]: the
    owner then waits for a thread that, whatever it does, never finishes,
    unless client code calls [quit]. *)
Theorem destructor_hangs :
  (∀ f, Quit ∉ behaviour f) →
  ∃ t, rtc (t_step_ok behaviour None) lifetime t ∧ owner t = [Join] ∧
    ∀ t', rtc (new_thread_ok behaviour None) t t' →
      exec_owner behaviour Join t' = None ∧ owner t' = [Join].
Proof.
  intros Hno. exists hanging. split_and!; [|done|].
  { apply (run_turns_steps [false; true; true; true; false; false; false; false; false;
      true; true; true]). vm_compute. reflexivity. }
  intros t' Hsteps.
  assert (owner t' = [Join] ∧ is_Some (thread_ t') ∧
    thread_at (thread_ t') (loop_ t') (event_loop t')) as (Ho & [c Hc] & Hth).
  { refine (rtc_invariant _ (λ t, owner t = [Join] ∧ is_Some (thread_ t) ∧
      thread_at (thread_ t) (loop_ t) (event_loop t)) _ t' _ _ Hsteps).
    - intros t1 t2 (Ho & Hs & Hth) Hstep.
      destruct (thread_at_step behaviour None Hno _ _ Hth Hstep)
        as (t2' & [= <-] & Hth' & Ho' & _ & ? & _). split_and!; [congruence|done..].
    - split_and!; [done|by eexists|].
      apply (at_run _ (Poll :: doPendingFunctors)); [by repeat constructor|done]. }
  split; [|done]. cbn. rewrite Hc. rewrite Hc in Hth. inversion Hth; subst; try done;
    by destruct k.
Qed.

(** Even when the loop runs, the destructor races with the end of
    the thread: [quit] sets [quit_] and then calls [wakeup], and when the loop
    thread sees [quit_] in between and returns from [loop], the loop on its
    stack is destroyed before [wakeup] uses it. *)
Lemma destructor_races :
  ∃ t, rtc (t_step_ok behaviour None) lifetime t ∧
    owner_step behaviour t (Fault UndefinedBehaviour).
Proof.
  exists racing. split.
  - apply (run_turns_steps ([false; true; true; true; true; true; false; false; false; false] ++
      replicate 4 true)). vm_compute. reflexivity.
  - by eapply (owner_step_intro behaviour _ (OnLoop WakeupFromOther) [Join]
      (Fault UndefinedBehaviour)).
Qed.
End executions.

(** ** Witnesses *)

Lemma demo_no_quit f : Quit ∉ demo_behaviour f.
Proof. destruct f; intros Hin; apply list_elem_of_singleton in Hin; discriminate. Qed.

Definition demo_started : TState (F:=nat) :=
  MkTState true false (Some (MkLoop true false false [] 0 [] []))
    [OnLoop (Do (QueueInLoop 1%nat))]
    (Some ((OnLoop <$> (Poll :: doPendingFunctors ++ [While])) ++ the_end)).

Lemma started_loop_alive_witness :
  ∃ l, event_loop demo_started = Some l.
Proof.
  apply (started_loop_alive demo_behaviour None demo_no_quit [QueueInLoop 1%nat] demo_started).
  - intros Hin. apply list_elem_of_singleton in Hin. discriminate.
  - apply (run_turns_steps demo_behaviour [false; true; true; true; true; true; true; false]).
    vm_compute. reflexivity.
  - intros Hin. apply list_elem_of_singleton in Hin. discriminate.
  - intros Hin. apply list_elem_of_singleton in Hin. discriminate.
Defined.

Lemma destructor_hangs_witness :
  ∃ t, rtc (t_step_ok demo_behaviour None) lifetime t ∧ owner t = [Join] ∧
    ∀ t', rtc (new_thread_ok demo_behaviour None) t t' →
      exec_owner demo_behaviour Join t' = None ∧ owner t' = [Join].
Proof. exact (destructor_hangs demo_behaviour demo_no_quit). Defined.
