(* ===== verification/EventLoopThreadPool.v ===== *)
(** * EventLoopThreadPool (include/net/EventLoopThreadPool.h,
      src/net/EventLoopThreadPool.cc)

    The io loops of a server and the round-robin choice among them. What
    [EventLoopThread::startLoop] returns for the i-th thread is a parameter
    (EventLoopThreadProps.v shows that it is a live loop). *)
From S2P Require Import Prelude Channel.

Section pool.
(** The loop the i-th new thread runs, and whether the thread is the base
    loop's. *)
Context (startLoop : nat → ptr) (in_base_loop : bool).

(** [pool_called]: the loops that [start] itself calls the callback on. *)
Record Pool : Type := MkPool {
  baseLoop_ : ptr;
  pool_name_ : string;
  started_ : bool;
  numThreads_ : Z;
  next_ : Z;
  threads_ : list nat;
  loops_ : list ptr;
  pool_called : list ptr;
}.

Definition new_Pool (baseLoop : ptr) (name : string) : Pool :=
  MkPool baseLoop name false 0 0 [] [] [].

Definition set_started b (p : Pool) : Pool :=
  MkPool (baseLoop_ p) (pool_name_ p) b (numThreads_ p) (next_ p) (threads_ p) (loops_ p)
    (pool_called p).
Definition set_numThreads n (p : Pool) : Pool :=
  MkPool (baseLoop_ p) (pool_name_ p) (started_ p) n (next_ p) (threads_ p) (loops_ p)
    (pool_called p).
Definition set_next n (p : Pool) : Pool :=
  MkPool (baseLoop_ p) (pool_name_ p) (started_ p) (numThreads_ p) n (threads_ p) (loops_ p)
    (pool_called p).
Definition push_thread i loop (p : Pool) : Pool :=
  MkPool (baseLoop_ p) (pool_name_ p) (started_ p) (numThreads_ p) (next_ p)
    (threads_ p ++ [i]) (loops_ p ++ [loop]) (pool_called p).
Definition note_call loop (p : Pool) : Pool :=
  MkPool (baseLoop_ p) (pool_name_ p) (started_ p) (numThreads_ p) (next_ p)
    (threads_ p) (loops_ p) (pool_called p ++ [loop]).

Definition setThreadNum (numThreads : Z) : M Pool unit :=
  require AbortAssert (0 <=? numThreads) ;;
  modify (set_numThreads numThreads).

(** [baseLoop_->assertInLoopThread()] *)
Definition assertInBaseLoop : M Pool unit := require AbortFatal in_base_loop.

(** [start]: [cb] tells whether there is a callback. *)
Definition start (cb : bool) : M Pool unit :=
  started ← gets started_;
  require AbortAssert (negb started) ;;
  assertInBaseLoop ;;
  modify (set_started true) ;;
  numThreads ← gets numThreads_;
  for_each (seq 0 (Z.to_nat numThreads)) (λ i, modify (push_thread i (startLoop i))) ;;
  when ((numThreads =? 0) && cb) (modify (λ p, note_call (baseLoop_ p) p)).

Definition getNextLoop : M Pool ptr :=
  assertInBaseLoop ;;
  loop ← gets baseLoop_;
  loops ← gets loops_;
  if bool_decide (loops = [])
  then mret loop
  else
    next ← gets next_;
    loop ← deref (λ p, if 0 <=? next then loops_ p !! Z.to_nat next else None);
    next' ← lift_outcome (i32 (next + 1));
    modify (set_next next') ;;
    when (zlen loops <=? next') (modify (set_next 0)) ;;
    mret loop.

Definition pool_started (p : Pool) : bool := started_ p.
Definition pool_name (p : Pool) : string := pool_name_ p.

(** ** The invariant *)

(** The index is in range and the loops are those of the threads. *)
Record pool_ok (p : Pool) : Prop := {
  po_next : 0 ≤ next_ p ∧ (loops_ p = [] ∧ next_ p = 0 ∨ next_ p < zlen (loops_ p));
  po_loops : loops_ p = startLoop <$> threads_ p;
  po_size : zlen (loops_ p) < 2 ^ 31;
  po_fresh : started_ p = false → loops_ p = [];
  po_num : 0 ≤ numThreads_ p < 2 ^ 31;
}.

Lemma new_Pool_ok base name : pool_ok (new_Pool base name).
Proof. split; cbn; [auto with lia|done|lia|done|lia]. Qed.

Context (Hin : in_base_loop = true).

Lemma wp_setThreadNum n p :
  pool_ok p → 0 ≤ n < 2 ^ 31 →
  wp (setThreadNum n) (λ _ p', pool_ok p' ∧ p' = set_numThreads n p) p.
Proof.
  intros [] ?. unfold setThreadNum. wp_steps; [apply Z.leb_le; lia|]. split; [by split|done].
Qed.

Lemma wp_pool_start cb p :
  pool_ok p → started_ p = false →
  wp (start cb) (λ _ p', pool_ok p' ∧ started_ p' = true ∧ baseLoop_ p' = baseLoop_ p ∧
    loops_ p' = startLoop <$> seq 0 (Z.to_nat (numThreads_ p)) ∧
    next_ p' = next_ p ∧
    pool_called p' = pool_called p ++
      if (numThreads_ p =? 0) && cb then [baseLoop_ p] else []) p.
Proof.
  intros [Hnext Hloops Hsize Hfresh Hnum] Hst. pose proof (Hfresh Hst) as Hnil.
  assert (threads_ p = []) as Hth.
  { rewrite Hloops in Hnil. by apply fmap_nil_inv in Hnil. }
  unfold start, assertInBaseLoop. wp_steps; [by rewrite Hst|done|].
  set (p1 := set_started true p).
  eapply (wp_for_each _ (λ done p', p' = MkPool (baseLoop_ p) (pool_name_ p) true
    (numThreads_ p) (next_ p) done (startLoop <$> done) (pool_called p))).
  { unfold p1, set_started. by rewrite Hth, Hnil. }
  { intros pre i post p' _ ->. wp_steps. unfold push_thread. cbn. by rewrite fmap_app. }
  intros p' ->. cbn [numThreads_ p1 set_started].
  assert (zlen (startLoop <$> seq 0 (Z.to_nat (numThreads_ p))) = numThreads_ p) as Hlen
    by (rewrite length_fmap, length_seq; lia).
  assert (pool_ok (MkPool (baseLoop_ p) (pool_name_ p) true (numThreads_ p) (next_ p)
    (seq 0 (Z.to_nat (numThreads_ p))) (startLoop <$> seq 0 (Z.to_nat (numThreads_ p)))
    (pool_called p))) as Hok.
  { split; cbn [next_ loops_ threads_ started_ numThreads_]; rewrite ?Hlen; try done; [|lia].
    destruct Hnext as [Hn [[_ Hn0]|Hlt]]; [|rewrite Hnil in Hlt; simpl in Hlt; lia].
    split; [done|]. destruct (decide (numThreads_ p = 0)) as [->|]; [by left|right; lia]. }
  apply wp_when; intros Hc; wp_steps; cbn; rewrite Hc, ?app_nil_r; split_and!; try done.
  destruct Hok. by split.
Qed.

Lemma wp_getNextLoop p :
  pool_ok p →
  wp getNextLoop (λ loop p', pool_ok p' ∧ loops_ p' = loops_ p ∧ baseLoop_ p' = baseLoop_ p ∧
    started_ p' = started_ p ∧
    (loops_ p = [] → loop = baseLoop_ p) ∧
    (loops_ p ≠ [] → loops_ p !! Z.to_nat (next_ p) = Some loop ∧
       next_ p' = (next_ p + 1) `mod` zlen (loops_ p))) p.
Proof.
  intros [[Hn Hlt] Hloops Hsize Hfresh Hnum]. unfold getNextLoop, assertInBaseLoop.
  wp_steps; [done|..].
  - match goal with H : bool_decide _ = true |- _ => apply bool_decide_eq_true in H as Hnil end.
    split_and!; done.
  - match goal with H : bool_decide _ = false |- _ => apply bool_decide_eq_false in H as Hne end.
    destruct Hlt as [[? _]|Hlt]; [done|].
    destruct (lookup_lt_is_Some_2 (loops_ p) (Z.to_nat (next_ p))) as [loop Hloop]; [lia|].
    eapply wp_deref. { destruct (Z.leb_spec 0 (next_ p)); [exact Hloop|lia]. }
    wp_step. eapply wp_lift_outcome; [apply i32_ok; lia|]. wp_steps;
      match goal with H : (_ <=? _) = _ |- _ => rename H into Hwrap end.
    + apply Z.leb_le in Hwrap. assert (next_ p + 1 = zlen (loops_ p)) as Heq by lia.
      rewrite Heq, Z.mod_same by lia. split_and!; try done.
      split; cbn; try done. split; [lia|]. right. lia.
    + apply Z.leb_gt in Hwrap. rewrite Z.mod_small by lia. split_and!; try done.
      split; cbn; try done. split; [lia|]. right. lia.
Qed.

(** ** Round robin *)

(** [n] calls of [getNextLoop], with what they return. *)
Fixpoint next_loops (n : nat) : M Pool (list ptr) :=
  match n with
  | O => mret []
  | S n' => loop ← getNextLoop; rest ← next_loops n'; mret (loop :: rest)
  end.

(** The loop the k-th call after [start] returns. *)
Definition round_robin (loops : list ptr) (base : ptr) (k : nat) : ptr :=
  nth (k mod length loops) loops base.

Lemma wp_next_loops n k p :
  pool_ok p → (loops_ p ≠ [] → next_ p = Z.of_nat k `mod` zlen (loops_ p)) →
  wp (next_loops n) (λ ls p', ls = round_robin (loops_ p) (baseLoop_ p) <$> seq k n) p.
Proof.
  revert k p. induction n as [|n IH]; intros k p Hok Hk; cbn; [done|]. wp_step.
  wp_apply (wp_getNextLoop p Hok).
  intros loop p' (Hok' & Hl & Hb & _ & Hbase & Hnext). wp_step.
  destruct (decide (loops_ p = [])) as [Hnil|Hne].
  - wp_apply (IH (S k) p'); [done|by rewrite Hl|].
    intros ls p'' ->. wp_steps. rewrite Hl, Hb, Hbase by done. f_equal.
    unfold round_robin. rewrite Hnil. by destruct (k mod _)%nat.
  - destruct (Hnext Hne) as [Hloop Hn'].
    assert (0 < zlen (loops_ p)) as Hpos by (destruct (loops_ p); [done|simpl; lia]).
    wp_apply (IH (S k) p'); [done| |].
    { intros _. rewrite Hn', Hl, Hk, Zplus_mod_idemp_l by done. f_equal. lia. }
    intros ls p'' ->. wp_steps. rewrite Hl, Hb. f_equal.
    unfold round_robin. rewrite Hk, <-Nat2Z.inj_mod, Nat2Z.id in Hloop by done.
    symmetry. by apply nth_lookup_Some.
Qed.
End pool.

(** A pool started with [n] threads hands out their loops in
    turn: the k-th call of [getNextLoop] returns the loop of thread
    [k mod n], and the base loop when there are no threads; no call reads out
    of the range of [loops_], however many are made. *)
Lemma getNextLoop_round_robin startLoop n cb m base name :
  0 ≤ n < 2 ^ 31 →
  wp (setThreadNum n ;; start startLoop true cb ;; next_loops true m)
    (λ ls _, length ls = m ∧ ∀ k, (k < m)%nat →
       ls !! k = Some (if decide (n = 0) then base else startLoop (k mod Z.to_nat n)%nat))
    (new_Pool base name).
Proof.
  intros Hn. wp_step. wp_apply (wp_setThreadNum startLoop n (new_Pool base name));
    [apply new_Pool_ok|done|]. intros [] p1 [Hok1 ->]. wp_step.
  wp_apply (wp_pool_start startLoop true eq_refl cb); [done|done|].
  intros [] p2 (Hok2 & _ & Hbase & Hloops & Hnext & _).
  wp_apply (wp_next_loops startLoop true eq_refl m 0 p2); [done|by rewrite Hnext|].
  intros ls p3 ->. rewrite length_fmap, length_seq. split; [done|]. intros k Hk.
  rewrite list_lookup_fmap, lookup_seq_lt by done. simpl. f_equal.
  rewrite Hbase, Hloops. unfold round_robin. rewrite length_fmap, length_seq. cbn.
  case_decide as Hz; [by rewrite Hz; destruct (k mod _)%nat|].
  apply nth_lookup_Some. rewrite list_lookup_fmap, lookup_seq_lt; [done|].
  apply Nat.mod_upper_bound. lia.
Qed.

Lemma getNextLoop_round_robin_witness :
  wp (setThreadNum 3 ;; start (λ i, 100 + Z.of_nat i) true false ;; next_loops true 7)
    (λ ls _, length ls = 7%nat ∧ ∀ k, (k < 7)%nat →
       ls !! k = Some (if decide (3 = 0) then 1 else 100 + Z.of_nat (k mod Z.to_nat 3)))
    (new_Pool 1 "pool").
Proof. apply (getNextLoop_round_robin (λ i, 100 + Z.of_nat i)). lia. Defined.
