(* ===== verification/TcpConnection.v ===== *)
(** * TcpConnection (include/net/TcpConnection.h, src/net/TcpConnection.cc)

    One connection with its two buffers and its channel, the io loop it runs
    in (any poller that implements the interface of Channel.v, and the queue of
    functors), the socket and the user's callbacks. What the kernel answers to
    [write] and [readv] and what the user's callbacks call on the connection
    are parameters (class [ConnEnv]). *)
From S2P Require Import Prelude Posix Buffer Channel.

Inductive StateE : Type := kDisconnected | kConnecting | kConnected | kDisconnecting.
#[export] Instance StateE_eq_dec : EqDecision StateE.
Proof. solve_decision. Defined.

(** The methods bound to the channel's events, the functors that are handed
    to the loop, and the user's callbacks ([closeCallback_] is the server's). *)
Inductive handler : Type := HandleRead | HandleWrite | HandleClose | HandleError.
Inductive functor : Type :=
| SendInLoop (message : bytes)
| ShutdownInLoop
| ConnectEstablished
| ConnectDestroyed
| WriteComplete.
Inductive upcall : Type :=
| ConnectionCallback (connected : bool)
| MessageCallback
| CloseCallback
| WriteCompleteCallback.
#[export] Instance functor_eq_dec : EqDecision functor.
Proof. solve_decision. Defined.
#[export] Instance upcall_eq_dec : EqDecision upcall.
Proof. solve_decision. Defined.

(** What user code calls on the connection and on its input buffer. *)
Inductive user_call : Type :=
| Send (data : bytes)
| Shutdown
| Retrieve (len : Z).

(** What happens on the socket: bytes taken by the kernel, bytes delivered,
    and the shutdown of the sending direction. *)
Inductive sock_event : Type :=
| SockWrite (data : bytes)
| SockRead (data : bytes)
| SockShutdown.
#[export] Instance sock_event_eq_dec : EqDecision sock_event.
Proof. solve_decision. Defined.

(** Which callbacks are set. *)
Record CallbacksSet : Type := MkCallbacksSet {
  connectionCallback_ : bool;
  messageCallback_ : bool;
  tcpCloseCallback_ : bool;
  writeCompleteCallback_ : bool;
}.

Section world.
Context {P : Type}.

(** The connection [channel_] at the address [channel] for the socket [sockfd];
    [in_loop] tells whether the running thread is the io loop's, [pending] are the functors in the
    loop's queue that belong to the connection. The last four fields are
    histories: the socket's events, the callbacks called, the bytes that
    [sendInLoop] has accepted, and those the user has retrieved. *)
Record ConnW : Type := MkConnW {
  poller : P;
  channel : ptr;
  sockfd : Z;
  callbacks : CallbacksSet;
  state_ : StateE;
  inputBuffer_ : Buffer;
  outputBuffer_ : Buffer;
  in_loop : bool;
  pending : list functor;
  socket_events : list sock_event;
  upcalls : list upcall;
  accepted : bytes;
  retrieved : bytes;
}.

Implicit Types w : ConnW.

Definition set_poller p w : ConnW :=
  MkConnW p (channel w) (sockfd w) (callbacks w) (state_ w) (inputBuffer_ w) (outputBuffer_ w)
    (in_loop w) (pending w) (socket_events w) (upcalls w) (accepted w) (retrieved w).
Definition set_state s w : ConnW :=
  MkConnW (poller w) (channel w) (sockfd w) (callbacks w) s (inputBuffer_ w) (outputBuffer_ w)
    (in_loop w) (pending w) (socket_events w) (upcalls w) (accepted w) (retrieved w).
Definition set_input b w : ConnW :=
  MkConnW (poller w) (channel w) (sockfd w) (callbacks w) (state_ w) b (outputBuffer_ w)
    (in_loop w) (pending w) (socket_events w) (upcalls w) (accepted w) (retrieved w).
Definition set_callbacks (f : CallbacksSet → CallbacksSet) w : ConnW :=
  MkConnW (poller w) (channel w) (sockfd w) (f (callbacks w)) (state_ w) (inputBuffer_ w)
    (outputBuffer_ w) (in_loop w) (pending w) (socket_events w) (upcalls w) (accepted w)
    (retrieved w).
Definition set_output b w : ConnW :=
  MkConnW (poller w) (channel w) (sockfd w) (callbacks w) (state_ w) (inputBuffer_ w) b
    (in_loop w) (pending w) (socket_events w) (upcalls w) (accepted w) (retrieved w).
Definition set_in_loop b w : ConnW :=
  MkConnW (poller w) (channel w) (sockfd w) (callbacks w) (state_ w) (inputBuffer_ w)
    (outputBuffer_ w) b (pending w) (socket_events w) (upcalls w) (accepted w)
    (retrieved w).
Definition set_pending q w : ConnW :=
  MkConnW (poller w) (channel w) (sockfd w) (callbacks w) (state_ w) (inputBuffer_ w)
    (outputBuffer_ w) (in_loop w) q (socket_events w) (upcalls w) (accepted w)
    (retrieved w).
Definition note_socket e w : ConnW :=
  MkConnW (poller w) (channel w) (sockfd w) (callbacks w) (state_ w) (inputBuffer_ w)
    (outputBuffer_ w) (in_loop w) (pending w) (socket_events w ++ [e]) (upcalls w)
    (accepted w) (retrieved w).
Definition note_upcall u w : ConnW :=
  MkConnW (poller w) (channel w) (sockfd w) (callbacks w) (state_ w) (inputBuffer_ w)
    (outputBuffer_ w) (in_loop w) (pending w) (socket_events w) (upcalls w ++ [u])
    (accepted w) (retrieved w).
Definition note_accepted data w : ConnW :=
  MkConnW (poller w) (channel w) (sockfd w) (callbacks w) (state_ w) (inputBuffer_ w)
    (outputBuffer_ w) (in_loop w) (pending w) (socket_events w) (upcalls w)
    (accepted w ++ data) (retrieved w).
Definition note_retrieved data w : ConnW :=
  MkConnW (poller w) (channel w) (sockfd w) (callbacks w) (state_ w) (inputBuffer_ w)
    (outputBuffer_ w) (in_loop w) (pending w) (socket_events w) (upcalls w)
    (accepted w) (retrieved w ++ data).
Definition push_functor f w : ConnW := set_pending (pending w ++ [f]) w.
End world.
Arguments ConnW P : clear implicits.

(** The kernel's answers, given what has happened on the socket, and the calls
    that the user's callbacks make. *)
Class ConnEnv (P : Type) := {
  sock_write : list sock_event → bytes → io_result Z;
  sock_readv : list sock_event → Z → io_result bytes;
  user : upcall → ConnW P → list user_call;
}.

Section methods.
Context {P CB : Type} `{!Poller P CB, !Bound handler CB, !ConnEnv P}.
Abbreviation W := (ConnW P).
Implicit Types w : W.

Definition on_poller {A} (m : M P A) : M W A := zoom poller set_poller m.
Definition on_input {A} (m : M Buffer A) : M W A := zoom inputBuffer_ set_input m.
Definition on_output {A} (m : M Buffer A) : M W A := zoom outputBuffer_ set_output m.

Definition conn_channel w : option (Channel CB) := channels_of (poller w) !! channel w.

(** [channel_->isWriting()] and the requests to the channel. *)
Definition channel_isWriting : M W bool := c ← deref conn_channel; mret (isWriting c).
Definition channel_request (request : ptr → M P unit) : M W unit :=
  p ← gets channel; on_poller (request p).

Definition assertInLoopThread : M W unit := b ← gets in_loop; require AbortFatal b.
Definition queueInLoop (f : functor) : M W unit := modify (push_functor f).
Definition setState (s : StateE) : M W unit := modify (set_state s).

(** [sendInLoop(data, len)]. That a write to a connection which the peer has
    reset returns EPIPE is what write(2) says of a process that ignores
    SIGPIPE: the library neither ignores the signal nor passes MSG_NOSIGNAL, so
    that the application has to; with the default disposition the process ends
    here. *)
Definition sendInLoop (data : bytes) : M W unit :=
  assertInLoopThread ;;
  state ← gets state_;
  if decide (state = kDisconnected) then mret tt
  else
    writing ← channel_isWriting;
    readable ← gets (λ w, readableBytes (outputBuffer_ w));
    has_complete ← gets (λ w, writeCompleteCallback_ (callbacks w));
    let len := zlen data in
    '(nwrote, remaining, faultError) ←
      (if negb writing && (readable =? 0)
       then
         tr ← gets socket_events;
         match sock_write (P:=P) tr data with
         | IoOk n =>
             modify (note_socket (SockWrite (take (Z.to_nat n) data))) ;;
             let remaining := u64 (len - n) in
             when ((remaining =? 0) && has_complete) (queueInLoop WriteComplete) ;;
             mret (n, remaining, false)
         | IoErr errno =>
             mret (0, len, negb (errno =? EWOULDBLOCK) && negb (errno =? EAGAIN)
                           && ((errno =? EPIPE) || (errno =? ECONNRESET)))
         end
       else mret (0, len, false));
    if negb faultError
    then
      modify (note_accepted data) ;;
      when (0 <? remaining)
        (on_output (append (slice nwrote remaining data)) ;;
         writing ← channel_isWriting;
         when (negb writing) (channel_request enableWriting))
    else mret tt.

Definition shutdownInLoop : M W unit :=
  assertInLoopThread ;;
  writing ← channel_isWriting;
  when (negb writing) (modify (note_socket SockShutdown)).

(** [send] and [shutdown], from any thread. *)
Definition send (data : bytes) : M W unit :=
  state ← gets state_;
  if negb (bool_decide (state = kConnected)) then mret tt
  else
    isInLoopThread ← gets in_loop;
    if (isInLoopThread : bool) then sendInLoop data else queueInLoop (SendInLoop data).

Definition shutdown : M W unit :=
  state ← gets state_;
  when (bool_decide (state = kConnected))
    (setState kDisconnecting ;;
     isInLoopThread ← gets in_loop;
     if (isInLoopThread : bool) then shutdownInLoop else queueInLoop ShutdownInLoop).

Definition connected w : bool := bool_decide (state_ w = kConnected).

(** User code. *)
Definition run_user_call (c : user_call) : M W unit :=
  match c with
  | Send data => send data
  | Shutdown => shutdown
  | Retrieve len =>
      q ← gets (λ w, contents (inputBuffer_ w));
      modify (note_retrieved (take (Z.to_nat len) q)) ;;
      on_input (retrieve len)
  end.

(** [if (callback) callback(...)]. *)
Definition call (has : CallbacksSet → bool) (u : upcall) : M W unit :=
  set ← gets (λ w, has (callbacks w));
  when set
    (modify (note_upcall u) ;;
     cs ← gets (user u);
     for_each cs run_user_call).

Definition connection_callback : M W unit :=
  up ← gets connected; call connectionCallback_ (ConnectionCallback up).

Definition connectEstablished : M W unit :=
  assertInLoopThread ;;
  setState kConnected ;;
  channel_request enableReading ;;
  connection_callback.

Definition connectDestroyed : M W unit :=
  assertInLoopThread ;;
  state ← gets state_;
  when (bool_decide (state = kConnected))
    (setState kDisconnected ;;
     channel_request disableAll ;;
     connection_callback) ;;
  channel_request remove.

Definition handleClose : M W unit :=
  assertInLoopThread ;;
  setState kDisconnected ;;
  channel_request disableAll ;;
  connection_callback ;;
  call tcpCloseCallback_ CloseCallback.

(** [handleError] only logs. *)
Definition handleError : M W unit := mret tt.

(** The bytes of a successful [readv]. *)
Definition delivered (r : io_result bytes) : bytes :=
  match r with IoOk data => data | IoErr _ => [] end.

Definition handleRead : M W unit :=
  tr ← gets socket_events;
  capacity ← gets (λ w, iov_capacity (inputBuffer_ w));
  '(n, savedErrno) ← on_input (readFd (sock_readv (P:=P) tr));
  modify (note_socket (SockRead (delivered (sock_readv (P:=P) tr capacity)))) ;;
  if 0 <? n then call messageCallback_ MessageCallback
  else if n =? 0 then handleClose
  else handleError.

Definition handleWrite : M W unit :=
  assertInLoopThread ;;
  writing ← channel_isWriting;
  if (writing : bool)
  then
    tr ← gets socket_events;
    readable ← gets (λ w, readableBytes (outputBuffer_ w));
    data ← on_output (peek readable);
    match sock_write (P:=P) tr data with
    | IoOk n =>
        when (0 <? n)
          (modify (note_socket (SockWrite (take (Z.to_nat n) data))) ;;
           on_output (retrieve n) ;;
           readable ← gets (λ w, readableBytes (outputBuffer_ w));
           when (readable =? 0)
             (channel_request disableWriting ;;
              has_complete ← gets (λ w, writeCompleteCallback_ (callbacks w));
              when has_complete (queueInLoop WriteComplete) ;;
              state ← gets state_;
              when (bool_decide (state = kDisconnecting)) shutdownInLoop))
    | IoErr _ => mret tt
    end
  else mret tt.

Definition run_handler (h : handler) : M W unit :=
  match h with
  | HandleRead => handleRead
  | HandleWrite => handleWrite
  | HandleClose => handleClose
  | HandleError => handleError
  end.

Definition run_callback : CB → M W unit := run_bound run_handler.

(** A functor runs on the object it was bound to, by [this] or by a
    [shared_ptr]; whether the object still exists is a matter of Reactor.v,
    which has the store of the connections. *)
Definition run_functor (f : functor) : M W unit :=
  match f with
  | SendInLoop message => sendInLoop message
  | ShutdownInLoop => shutdownInLoop
  | ConnectEstablished => connectEstablished
  | ConnectDestroyed => connectDestroyed
  | WriteComplete => call writeCompleteCallback_ WriteCompleteCallback
  end.

(** The constructor (the socket's keep-alive option is left out), and the
    setters of the callbacks: which are set is all that matters here.
    [setTcpCloseCallback] is [TcpConnection::setCloseCallback]. *)
Definition connection_channel (loop : ptr) (fd : Z) : Channel CB :=
  setErrorCallback (bind_ HandleError) (setCloseCallback (bind_ HandleClose)
    (setWriteCallback (bind_ HandleWrite) (setReadCallback (bind_ HandleRead)
      (new_Channel loop fd)))).

Definition constructor (loop : ptr) (chan : ptr) (fd : Z) (p : P) : outcome W :=
  inputBuffer ← new_Buffer kInitialSize;
  outputBuffer ← new_Buffer kInitialSize;
  mret (MkConnW (with_channels (<[chan := connection_channel loop fd]> (channels_of p)) p)
    chan fd (MkCallbacksSet false false false false) kConnecting inputBuffer outputBuffer
    true [] [] [] [] []).

Definition setConnectionCallback (cb : bool) (w : W) : W :=
  set_callbacks (λ c, MkCallbacksSet cb (messageCallback_ c) (tcpCloseCallback_ c)
    (writeCompleteCallback_ c)) w.
Definition setMessageCallback (cb : bool) (w : W) : W :=
  set_callbacks (λ c, MkCallbacksSet (connectionCallback_ c) cb (tcpCloseCallback_ c)
    (writeCompleteCallback_ c)) w.
Definition setTcpCloseCallback (cb : bool) (w : W) : W :=
  set_callbacks (λ c, MkCallbacksSet (connectionCallback_ c) (messageCallback_ c) cb
    (writeCompleteCallback_ c)) w.
Definition setWriteCompleteCallback (cb : bool) (w : W) : W :=
  set_callbacks (λ c, MkCallbacksSet (connectionCallback_ c) (messageCallback_ c)
    (tcpCloseCallback_ c) cb) w.

(** The connection once the server has set its callbacks and handed
    [connectEstablished] to the io loop ([TcpServer::newConnection]). *)
Definition new_TcpConnection (loop : ptr) (chan : ptr) (fd : Z) (cbs : CallbacksSet) (p : P)
    : outcome W :=
  conn ← constructor loop chan fd p;
  mret (push_functor ConnectEstablished
    (setTcpCloseCallback (tcpCloseCallback_ cbs)
      (setWriteCompleteCallback (writeCompleteCallback_ cbs)
        (setMessageCallback (messageCallback_ cbs)
          (setConnectionCallback (connectionCallback_ cbs) conn))))).

(** ** What happens to a connection

    These are the events of its lifetime; the destructor is
    [release_connection] of Reactor.v. *)

Inductive conn_event : Type :=
| Dispatch (revents : Z)          (* the poller has reported the channel *)
| RunFunctor                      (* the loop runs the oldest functor *)
| CallInLoop (c : user_call)      (* user code in the io loop *)
| CallFromOther (c : user_call)   (* user code in another thread *)
| QueueDestroy.                   (* the server queues connectDestroyed *)

Definition run_conn_event (ev : conn_event) : M W unit :=
  match ev with
  | Dispatch revents =>
      modify (set_in_loop true) ;;
      p ← gets channel;
      c ← deref conn_channel;
      on_poller (modify (put_channel p (set_revents revents c))) ;;
      handleEvent (λ p w, channels_of (poller w) !! p) run_callback p
  | RunFunctor =>
      modify (set_in_loop true) ;;
      q ← gets pending;
      match q with
      | [] => mret tt
      | f :: q' => modify (set_pending q') ;; run_functor f
      end
  | CallInLoop c => modify (set_in_loop true) ;; run_user_call c
  | CallFromOther c => modify (set_in_loop false) ;; run_user_call c
  | QueueDestroy => queueInLoop ConnectDestroyed
  end.
End methods.
