(* ===== verification/TcpConnectionSpec.v ===== *)
(** * The invariant of a connection (src/net/TcpConnection.cc)

    How the state, the event mask, the output buffer and the histories of a
    connection hang together, and that every method keeps it so. The proofs use
    the poller only through its contract ([PollerSpec]). *)
From S2P Require Import Prelude Posix Buffer Channel TcpConnection.

(** ** What is relied on *)

Definition call_cost (c : user_call) : Z := match c with Send data => zlen data | _ => 0 end.
Definition calls_cost (cs : list user_call) : Z := foldr (λ c n, call_cost c + n) 0 cs.
Definition call_ok (c : user_call) : Prop := match c with Retrieve len => 0 ≤ len | _ => True end.

(** The size of the output buffer's vector. *)
Definition out_size {P} (w : ConnW P) : Z := zlen (buffer_ (outputBuffer_ w)).

(** The bytes the message callback finds in the input buffer. *)
Definition unread {P} (u : upcall) (w : ConnW P) : Z :=
  match u with MessageCallback => zlen (contents (inputBuffer_ w)) | _ => 0 end.

(** [write] takes at most what it is given, and fails once the sending
    direction has been shut down; [readv] fills at most the space it is given;
    the user's callbacks do not send more than memory can hold, the message
    callback as long as it can hold what has arrived as well. *)
Class ConnEnvSpec (P : Type) `{!ConnEnv P} := {
  write_ok tr data n : sock_write (P:=P) tr data = IoOk n → 0 ≤ n ≤ zlen data;
  write_after_shutdown tr data :
    SockShutdown ∈ tr → sock_write (P:=P) tr data = IoErr EPIPE;
  sock_readv_ok tr : readv_ok (sock_readv (P:=P) tr);
  user_ok u (w : ConnW P) :
    out_size w + unread u w ≤ max_size →
    Forall call_ok (user u w) ∧ out_size w + calls_cost (user u w) ≤ max_size;
}.

(** ** Histories *)

(** The bytes the kernel has taken, and those it has delivered. *)
Definition wire (tr : list sock_event) : bytes :=
  concat (omap (λ e, match e with SockWrite d => Some d | _ => None end) tr).
Definition received (tr : list sock_event) : bytes :=
  concat (omap (λ e, match e with SockRead d => Some d | _ => None end) tr).

(** The calls of the connection callback, by what [connected()] was. *)
Definition connection_calls (us : list upcall) : list bool :=
  omap (λ u, match u with ConnectionCallback up => Some up | _ => None end) us.

#[global] Arguments wire : simpl never.
#[global] Arguments received : simpl never.

Lemma wire_app tr1 tr2 : wire (tr1 ++ tr2) = wire tr1 ++ wire tr2.
Proof. unfold wire. by rewrite omap_app, concat_app. Qed.
Lemma received_app tr1 tr2 : received (tr1 ++ tr2) = received tr1 ++ received tr2.
Proof. unfold received. by rewrite omap_app, concat_app. Qed.
Lemma connection_calls_app us1 us2 :
  connection_calls (us1 ++ us2) = connection_calls us1 ++ connection_calls us2.
Proof. apply omap_app. Qed.

(** ** The invariant *)

(** The event mask of the channel. *)
Definition mask_of (s : StateE) (out : bytes) : Z :=
  match s with
  | kConnecting | kDisconnected => kNoneEvent
  | kConnected | kDisconnecting =>
      match out with [] => kReadEvent | _ => Z.lor kReadEvent kWriteEvent end
  end.

Definition expected_calls (s : StateE) : list bool :=
  match s with
  | kConnecting => []
  | kConnected | kDisconnecting => [true]
  | kDisconnected => [true; false]
  end.

Section spec.
Context {P CB : Type} `{!Poller P CB, !PollerSpec P CB, !Bound handler CB, !BoundSpec handler CB,
  !ConnEnv P, !ConnEnvSpec P}.
Abbreviation W := (ConnW P).
Implicit Types (w : W) (c : Channel CB).

Definition out w : bytes := contents (outputBuffer_ w).
Definition input w : bytes := contents (inputBuffer_ w).

(** The channel is the connection's, with mask [m], and registered when this
    mask is not empty. *)
Definition channel_is (m : Z) w : Prop :=
  ∃ c, conn_channel w = Some c ∧ events_ c = m ∧ fd_ c = sockfd w ∧ loop_ c ≠ 0 ∧
    readCallback_ c = Some (bind_ HandleRead) ∧ writeCallback_ c = Some (bind_ HandleWrite) ∧
    closeCallback_ c = Some (bind_ HandleClose) ∧ errorCallback_ c = Some (bind_ HandleError) ∧
    (m ≠ kNoneEvent → index_ c ≠ kNew).

(** The poller does not know the channel. *)
Definition unregistered w : Prop := ∃ c, conn_channel w = Some c ∧ index_ c = kNew.

(** The events the poller has stored in the channel. *)
Definition revents_of w : option Z := revents_ <$> conn_channel w.

(** What is not the connection's to change: the events stored in its channel,
    and the other channels of its loop. *)
Definition outside w : option Z * gmap ptr (Channel CB) :=
  (revents_of w, delete (channel w) (channels_of (poller w))).

(** The parts of the invariant that hold throughout every method. *)
Record core w : Prop := {
  co_attached : attached (poller w);
  co_in : wf (inputBuffer_ w);
  co_out : wf (outputBuffer_ w);
  co_stream : wire (socket_events w) ++ out w = accepted w;
  co_received : received (socket_events w) = retrieved w ++ input w;
  co_pending : state_ w = kConnecting ∨ ConnectEstablished ∉ pending w;
  co_destroy : ConnectDestroyed ∈ pending w → state_ w = kDisconnected;
  co_closed : CloseCallback ∈ upcalls w → state_ w = kDisconnected;
  co_shut : SockShutdown ∈ socket_events w →
    state_ w = kDisconnected ∨ state_ w = kDisconnecting ∧ out w = [];
  co_calls : connectionCallback_ (callbacks w) = true →
    connection_calls (upcalls w) = expected_calls (state_ w);
  co_new : state_ w = kConnecting →
    pending w = [ConnectEstablished] ∧ upcalls w = [] ∧ socket_events w = [] ∧ out w = [];
  co_shutting : ShutdownInLoop ∈ pending w →
    state_ w = kDisconnecting ∨ state_ w = kDisconnected;
}.

Record conn_inv w : Prop := {
  ci_core : core w;
  ci_channel : channel_is (mask_of (state_ w) (out w)) w;
  ci_shutting : state_ w = kDisconnecting →
    ShutdownInLoop ∈ pending w ∨ SockShutdown ∈ socket_events w ∨ out w ≠ [];
}.

(** ** The channel *)

Lemma isWriting_mask c s q :
  events_ c = mask_of s q →
  isWriting c = bool_decide (q ≠ [] ∧ (s = kConnected ∨ s = kDisconnecting)).
Proof.
  unfold isWriting. intros ->. destruct s, q; try reflexivity;
    by rewrite bool_decide_eq_false_2 by naive_solver || rewrite bool_decide_eq_true_2 by naive_solver.
Qed.

Lemma wp_channel_isWriting m Q w :
  channel_is m w → (∀ c, events_ c = m → Q (isWriting c) w) → wp channel_isWriting Q w.
Proof.
  intros (c & Hc & Hm & _) HQ. unfold channel_isWriting. wp_step.
  eapply wp_deref; [exact Hc|]. wp_step. by apply HQ.
Qed.

Lemma outside_insert c c' p' w :
  conn_channel w = Some c → channels_of p' = <[channel w := c']> (channels_of (poller w)) →
  revents_ c' = revents_ c → outside (set_poller p' w) = outside w.
Proof.
  intros Hc Hch Hr. unfold outside, revents_of. rewrite Hc. unfold conn_channel. cbn.
  by rewrite Hch, lookup_insert_eq, delete_insert_eq, <-Hr.
Qed.

(** A request to the channel changes its mask and nothing else of the
    connection. *)
Lemma wp_channel_change r m Q w :
  attached (poller w) → channel_is m w →
  (∀ p', attached p' → channel_is (new_mask r m) (set_poller p' w) →
     outside (set_poller p' w) = outside w → Q tt (set_poller p' w)) →
  wp (channel_request (change_interest r)) Q w.
Proof.
  intros Hatt (c & Hc & Hm & Hfd & Hloop & Hcbs) HQ. unfold channel_request, on_poller.
  wp_step. wp_step. wp_step. pose proof Hatt as [Hs _ _ Hnew].
  wp_apply (wp_change_interest r (channel w) c); [done..|by eapply Hnew|].
  intros [] p' (Hs' & (i & Hi & Hch) & Hframe). apply HQ.
  - eapply (attached_insert (channel w) c); [done|exact Hc|done|exact Hch|done|done|done|].
    intros fd Hne Hr. by apply Hframe.
  - eexists. split; [unfold conn_channel; cbn; rewrite Hch; apply lookup_insert_eq|].
    cbn. rewrite Hm. by destruct Hcbs as (? & ? & ? & ? & _).
  - by eapply outside_insert.
Qed.

Lemma wp_channel_remove Q w :
  attached (poller w) → channel_is kNoneEvent w →
  (∀ p', attached p' → channel_is kNoneEvent (set_poller p' w) →
     outside (set_poller p' w) = outside w → watched p' (sockfd w) = None →
     unregistered (set_poller p' w) → Q tt (set_poller p' w)) →
  wp (channel_request remove) Q w.
Proof.
  intros Hatt (c & Hc & Hm & Hfd & Hloop & Hcbs) HQ. unfold channel_request, on_poller.
  wp_step. wp_step. wp_step. pose proof Hatt as [Hs _ _ Hnew].
  wp_apply (wp_remove (channel w) c); [done..|by eapply Hnew|].
  intros [] p' (Hs' & Hch & Hwat & Hreg & Hframe). apply HQ.
  - eapply (attached_insert (channel w) c); [done|exact Hc|done|exact Hch|done|done|done|].
    intros fd Hne Hr. by apply Hframe.
  - eexists. split; [unfold conn_channel; cbn; rewrite Hch; apply lookup_insert_eq|].
    by destruct Hcbs as (? & ? & ? & ? & _).
  - by eapply outside_insert.
  - by rewrite <-Hfd.
  - eexists. split; [unfold conn_channel; cbn; rewrite Hch; apply lookup_insert_eq|done].
Qed.

(** The masks the requests produce. *)
Lemma mask_enable_reading : new_mask EnableReading kNoneEvent = kReadEvent.
Proof. reflexivity. Qed.
Lemma mask_enable_writing : new_mask EnableWriting kReadEvent = Z.lor kReadEvent kWriteEvent.
Proof. reflexivity. Qed.
Lemma mask_disable_writing :
  new_mask DisableWriting (Z.lor kReadEvent kWriteEvent) = kReadEvent.
Proof. reflexivity. Qed.

(** ** Sending *)

Lemma readable_out w : wf (outputBuffer_ w) → readableBytes (outputBuffer_ w) = zlen (out w).
Proof. intros Hwf. by rewrite readableBytes_wf, <-length_contents. Qed.

Lemma nil_length {A} (l : list A) : zlen l = 0 → l = [].
Proof. destruct l; [done|simpl; lia]. Qed.

(** The end of [sendInLoop]: the bytes [rest] go to the output buffer, and
    the channel waits for writability. *)
Lemma wp_enqueue rest w nwrote remaining data Q :
  attached (poller w) → channel_is (mask_of (state_ w) (out w)) w → wf (outputBuffer_ w) →
  state_ w = kConnected ∨ state_ w = kDisconnecting →
  rest = slice nwrote remaining data → remaining = zlen rest →
  out_size w + zlen rest ≤ max_size →
  (∀ p b, let w' := set_poller p (set_output b w) in
     attached p → wf b → out w' = out w ++ rest → out_size w' ≤ out_size w + zlen rest →
     channel_is (mask_of (state_ w) (out w ++ rest)) w' → outside w' = outside w →
     Q tt w') →
  wp (when (0 <? remaining)
        (on_output (append (slice nwrote remaining data)) ;;
         writing ← channel_isWriting;
         when (negb writing) (channel_request enableWriting))) Q w.
Proof.
  intros Hatt Hch Hwf Hst Hrest Hrem Hsize HQ. apply wp_when; intros Hpos.
  2:{ apply Z.ltb_ge in Hpos. assert (rest = []) as Hnil by (apply nil_length; lia).
      specialize (HQ (poller w) (outputBuffer_ w)). rewrite Hnil, app_nil_r in HQ.
      destruct w. apply HQ; try done. unfold out_size; cbn. lia. }
  apply Z.ltb_lt in Hpos. pose proof Hwf as Hwf'. rewrite <-Hrest. wp_step.
  unfold on_output. wp_step.
  wp_apply (wp_append rest (outputBuffer_ w) (out w)).
  { by split. }
  { buffer_facts. unfold out_size in Hsize. lia. }
  intros [] b [[Hwfb Hcb] Hszb]. wp_step.
  assert (rest ≠ []) as Hne by (intros ->; simpl in Hrem; lia).
  assert (out w ++ rest ≠ []) as Hne' by (intros [_ ?]%app_nil; done).
  eapply wp_channel_isWriting; [exact Hch|]. intros c Hc.
  rewrite (isWriting_mask _ _ _ Hc). apply wp_when; intros Hw.
  - apply negb_true_iff, bool_decide_eq_false in Hw.
    assert (out w = []) as Hout by (destruct (out w); [done|]; exfalso; by apply Hw).
    unfold enableWriting. eapply wp_channel_change; [done|exact Hch|].
    intros p' Hatt' Hch' Hrev'. specialize (HQ p' b). apply HQ; try done.
    assert (new_mask EnableWriting (mask_of (state_ w) (out w))
      = mask_of (state_ w) (out w ++ rest)) as <-; [|exact Hch'].
    rewrite Hout. simpl. destruct rest; [done|]. destruct Hst as [-> | ->]; reflexivity.
  - apply negb_false_iff, bool_decide_eq_true in Hw as [Hout _].
    assert (mask_of (state_ w) (out w ++ rest) = mask_of (state_ w) (out w)) as Hmask
      by (destruct (out w); [done|]; by destruct (state_ w)).
    specialize (HQ (poller w) b). rewrite Hmask in HQ.
    assert (set_poller (poller w) (set_output b w) = set_output b w) as Heq by by destruct w.
    rewrite Heq in HQ. by apply HQ.
Qed.

(** What user code leaves alone. *)
Record user_frame w w' : Prop := {
  uf_in_loop : in_loop w' = in_loop w;
  uf_callbacks : callbacks w' = callbacks w;
  uf_channel : channel w' = channel w;
  uf_sockfd : sockfd w' = sockfd w;
  uf_upcalls : upcalls w' = upcalls w;
  uf_outside : outside w' = outside w;
  uf_state : state_ w' = state_ w ∨ state_ w = kConnected ∧ state_ w' = kDisconnecting;
  uf_pending : ∃ fs, pending w' = pending w ++ fs ∧
    Forall (λ f, f ≠ ConnectEstablished ∧ f ≠ ConnectDestroyed) fs;
}.

#[export] Instance user_frame_preorder : PreOrder user_frame.
Proof.
  split.
  - intros w. split; auto. exists []. by rewrite app_nil_r.
  - intros w1 w2 w3 [? ? ? ? ? ? Hs1 (fs1 & Hp1 & Hf1)] [? ? ? ? ? ? Hs2 (fs2 & Hp2 & Hf2)].
    split; try congruence.
    + destruct Hs1 as [Hs1|[? Hs1]], Hs2 as [Hs2|[? Hs2]]; rewrite ?Hs2, ?Hs1 in *; auto; congruence.
    + exists (fs1 ++ fs2). rewrite Hp2, Hp1, <-app_assoc. split; [done|]. by apply Forall_app.
Qed.

(** Accepting [data]: the kernel has taken [taken], the rest is buffered. *)
Lemma accept_inv w w' taken rest data fs :
  conn_inv w → state_ w = kConnected ∨ state_ w = kDisconnecting →
  SockShutdown ∉ socket_events w → data = taken ++ rest → (taken ≠ [] → out w = []) →
  attached (poller w') → wf (outputBuffer_ w') → out w' = out w ++ rest →
  channel_is (mask_of (state_ w) (out w ++ rest)) w' →
  state_ w' = state_ w → inputBuffer_ w' = inputBuffer_ w → retrieved w' = retrieved w →
  upcalls w' = upcalls w → callbacks w' = callbacks w →
  accepted w' = accepted w ++ data →
  (∃ tr, socket_events w' = socket_events w ++ tr ∧ wire tr = taken ∧ received tr = [] ∧
     SockShutdown ∉ tr) →
  pending w' = pending w ++ fs → fs = [] ∨ fs = [WriteComplete] → conn_inv w'.
Proof.
  intros [[? Hin Hout Hstream Hrecv Hpend Hdes Hclosed Hshut Hcalls Hnew Hsf] Hch Hshutting] Hst Hno
    Hdata Htaken Hatt' Hwf' Hout' Hch' Hs' Hi' Hr' Hu' Hcb' Hacc' (tr & Htr & Hwire & Hrec & Hnotr)
    Hp' Hfs.
  assert (∀ f, f ≠ WriteComplete → f ∉ fs) as Hfs'.
  { intros f Hf. destruct Hfs as [-> | ->]; [apply not_elem_of_nil|].
    by rewrite list_elem_of_singleton. }
  split; [split|..]; rewrite ?Hs', ?Hi', ?Hr', ?Hu', ?Hcb', ?Htr, ?Hp', ?Hout'; try done.
  - rewrite wire_app, Hwire, Hacc', Hdata, <-Hstream, <-!app_assoc. f_equal.
    destruct taken as [|x taken]; [done|]. by rewrite Htaken.
  - unfold input. rewrite received_app, Hrec, app_nil_r, Hi'. done.
  - right. rewrite not_elem_of_app. split; [|auto]. destruct Hpend as [Hc|?]; [|done].
    destruct Hst; congruence.
  - rewrite elem_of_app. intros [?|Hbad]; [auto|]. by apply Hfs' in Hbad.
  - rewrite elem_of_app. tauto.
  - intros Hc. destruct Hst; congruence.
  - rewrite elem_of_app. intros [?|Hbad]; [auto|]. by apply Hfs' in Hbad.
  - intros Hd. rewrite !elem_of_app. destruct (Hshutting Hd) as [?|[?|Hne]]; [auto|done|].
    right. right. intros [? _]%app_nil. done.
Qed.

(** The outcome of code that runs on a connection: the invariant, and the
    output buffer has grown by at most [n]. *)
Definition kept (n : Z) w w' : Prop :=
  conn_inv w' ∧ user_frame w w' ∧ out_size w' ≤ out_size w + n.

Lemma kept_refl n w : conn_inv w → 0 ≤ n → kept n w w.
Proof. intros. split_and!; [done|done|lia]. Qed.

Lemma kept_trans n1 n2 w1 w2 w3 : kept n1 w1 w2 → kept n2 w2 w3 → kept (n1 + n2) w1 w3.
Proof. intros (? & ? & ?) (? & ? & ?). split_and!; [done|by etrans|lia]. Qed.

Lemma shutdown_in_writing w :
  conn_inv w → state_ w ≠ kDisconnected → out w ≠ [] → SockShutdown ∉ socket_events w.
Proof. intros Hinv Hd Hne Hin. by apply (co_shut _ (ci_core _ Hinv)) in Hin as [?|[_ ?]]. Qed.

(** The bytes given to the kernel, those that go to the output buffer, and
    the functors queued; [None] when the kernel has reported that the
    connection is gone, which drops the data. *)
Definition send_spec (data : bytes) w : option (list sock_event * bytes * list functor) :=
  if bool_decide (out w = [])
  then
    match sock_write (P:=P) (socket_events w) data with
    | IoOk n =>
        Some ([SockWrite (take (Z.to_nat n) data)], drop (Z.to_nat n) data,
          if (n =? zlen data) && writeCompleteCallback_ (callbacks w)
          then [WriteComplete] else [])
    | IoErr errno =>
        if (errno =? EPIPE) || (errno =? ECONNRESET) then None else Some ([], data, [])
    end
  else Some ([], data, []).

(** What comes of the bytes that the kernel has not taken. *)
Definition accept_rest (data : bytes) (nwrote remaining : Z) : M W unit :=
  modify (note_accepted data) ;;
  when (0 <? remaining)
    (on_output (append (slice nwrote remaining data)) ;;
     writing ← channel_isWriting;
     when (negb writing) (channel_request enableWriting)).

Definition noted (tr : list sock_event) (fs : list functor) w : W :=
  MkConnW (poller w) (channel w) (sockfd w) (callbacks w) (state_ w) (inputBuffer_ w)
    (outputBuffer_ w) (in_loop w) (pending w ++ fs) (socket_events w ++ tr)
    (upcalls w) (accepted w) (retrieved w).

Lemma noted_nil w : noted [] [] w = w.
Proof. destruct w. unfold noted. cbn. by rewrite !app_nil_r. Qed.

(** [sendInLoop] writes what [send_spec] says, and then accepts the rest. *)
Lemma wp_sendInLoop_cases data Q w :
  conn_inv w → in_loop w = true → state_ w = kConnected ∨ state_ w = kDisconnecting →
  out_size w + zlen data ≤ max_size →
  match send_spec data w with
  | Some (tr, rest, fs) => ∀ n, rest = slice n (zlen rest) data →
      wp (accept_rest data n (zlen rest)) Q (noted tr fs w)
  | None => Q tt w
  end → wp (sendInLoop data) Q w.
Proof.
  intros Hinv Hin Hopen Hsize. pose proof Hinv as [Hcore Hch _].
  unfold sendInLoop, assertInLoopThread, send_spec. fold (accept_rest data). intros HQ.
  wp_step. wp_step. wp_step. wp_step; [done|].
  wp_step. wp_step. case_decide as Hdisc; [destruct Hopen; congruence|].
  wp_step. eapply wp_channel_isWriting; [exact Hch|]. intros c Hc.
  rewrite (isWriting_mask _ _ _ Hc). do 5 wp_step. rewrite readable_out by apply Hcore.
  assert (data = slice 0 (zlen data) data) as Hall by by rewrite slice_all.
  destruct (bool_decide (out w = [])) eqn:Hnil.
  - apply bool_decide_eq_true in Hnil. rewrite Hnil.
    rewrite (bool_decide_eq_false_2 ([] ≠ [] ∧ _)) by naive_solver. cbn [negb andb].
    change (zlen [] =? 0) with true. cbv iota.
    wp_step. wp_step. destruct (sock_write (socket_events w) data) as [n|errno] eqn:Hwr.
    + destruct (write_ok _ _ _ Hwr) as [Hn0 Hn].
      rewrite u64_small by (unfold out_size, max_size in *; lia).
      assert (zlen data - n = zlen (drop (Z.to_nat n) data)) as Hrem by (rewrite length_drop; lia).
      assert (drop (Z.to_nat n) data = slice n (zlen data - n) data) as Hr.
      { unfold slice. rewrite take_ge; [done|]. rewrite length_drop. lia. }
      assert ((n =? zlen data) = (zlen data - n =? 0)) as Heq.
      { apply eq_true_iff_eq. rewrite !Z.eqb_eq. lia. }
      specialize (HQ n). rewrite <-Hrem, Heq in HQ. specialize (HQ Hr).
      wp_step. wp_step. wp_step. apply wp_when; intros Hcomplete; rewrite Hcomplete in HQ.
      * unfold queueInLoop. by do 2 wp_step.
      * wp_step. cbn [fst snd negb]. unfold noted in HQ. by rewrite app_nil_r in HQ.
    + wp_step. destruct (_ || _) eqn:Hfault.
      * assert (negb (errno =? EWOULDBLOCK) && negb (errno =? EAGAIN) = true) as ->.
        { by apply orb_true_iff in Hfault as [->%Z.eqb_eq | ->%Z.eqb_eq]. }
        by wp_step.
      * rewrite andb_false_r. cbn [fst snd negb]. specialize (HQ 0 Hall). by rewrite noted_nil in HQ.
  - apply bool_decide_eq_false in Hnil.
    rewrite (bool_decide_eq_true_2 (out w ≠ [] ∧ _)) by done. cbn [negb andb].
    wp_step. cbn [fst snd negb]. specialize (HQ 0 Hall). by rewrite noted_nil in HQ.
Qed.

Lemma send_spec_parts data w tr rest fs :
  conn_inv w → state_ w = kConnected ∨ state_ w = kDisconnecting →
  send_spec data w = Some (tr, rest, fs) →
  ∃ taken, data = taken ++ rest ∧ (taken ≠ [] → out w = []) ∧ wire tr = taken ∧ received tr = [] ∧
    SockShutdown ∉ tr ∧ (fs = [] ∨ fs = [WriteComplete]) ∧ SockShutdown ∉ socket_events w.
Proof.
  intros Hinv Hopen. unfold send_spec. case_bool_decide as Hnil.
  2:{ intros [= <- <- <-]. exists []. split_and!; try done; [apply not_elem_of_nil|by left|].
      apply shutdown_in_writing; [done| |done]. by destruct Hopen as [-> | ->]. }
  assert (∀ r, sock_write (socket_events w) data = r → r ≠ IoErr EPIPE → SockShutdown ∉ socket_events w)
    as Hno by (intros r <- Hr Hs; by apply Hr, write_after_shutdown).
  destruct (sock_write (socket_events w) data) as [n|errno] eqn:Hwr.
  - intros [= <- <- <-]. exists (take (Z.to_nat n) data).
    split_and!; [by rewrite take_drop|done| |done| | |by apply (Hno _ eq_refl)].
    + unfold wire. simpl. apply app_nil_r.
    + by rewrite list_elem_of_singleton.
    + case_match; auto.
  - destruct (_ || _) eqn:Hfault; [done|]. intros [= <- <- <-]. exists [].
    split_and!; try done; [apply not_elem_of_nil|by left|]. apply (Hno _ eq_refl). by intros [= ->].
Qed.

Lemma wp_accept_rest data n rest tr fs Q w (w0 := note_accepted data (noted tr fs w)) :
  conn_inv w → state_ w = kConnected ∨ state_ w = kDisconnecting →
  rest = slice n (zlen rest) data → out_size w + zlen rest ≤ max_size →
  (∀ p b, let w' := set_poller p (set_output b w0) in
     attached p → wf b → out w' = out w ++ rest → out_size w' ≤ out_size w + zlen rest →
     channel_is (mask_of (state_ w) (out w ++ rest)) w' → outside w' = outside w0 → Q tt w') →
  wp (accept_rest data n (zlen rest)) Q (noted tr fs w).
Proof.
  intros [Hcore Hch _] Hopen Hr Hsize HQ. unfold accept_rest. wp_step. wp_step.
  apply (wp_enqueue rest); try done; [apply (co_attached _ Hcore)|apply (co_out _ Hcore)].
Qed.

Lemma wp_sendInLoop data w :
  conn_inv w → in_loop w = true → state_ w ≠ kConnecting →
  out_size w + zlen data ≤ max_size →
  wp (sendInLoop data) (λ _ w', kept (zlen data) w w') w.
Proof.
  intros Hinv Hin Hst Hsize. destruct (decide (state_ w = kDisconnected)) as [Hdisc|Hdisc].
  { unfold sendInLoop, assertInLoopThread. do 4 wp_step; [done|]. do 2 wp_step.
    rewrite decide_True by done. apply wp_ret, kept_refl; [done|lia]. }
  assert (state_ w = kConnected ∨ state_ w = kDisconnecting) as Hopen by (destruct (state_ w); auto; done).
  apply wp_sendInLoop_cases; [done..|].
  destruct (send_spec data w) as [[[tr rest] fs]|] eqn:Hspec; [|apply kept_refl; [done|lia]].
  destruct (send_spec_parts data w tr rest fs Hinv Hopen Hspec)
    as (taken & Hdata & Htaken & Hw & Hrec & Hnotr & Hfs & Hno).
  assert (zlen rest ≤ zlen data) as Hle by (rewrite Hdata, length_app; lia).
  intros n Hr. apply wp_accept_rest; [done..|lia|].
  intros p b w' Hatt' Hwf' Hout' Hsz' Hch' Hrev'. split_and!.
  - eapply (accept_inv w w' taken rest data fs); try done. by exists tr.
  - split; try done; [by left|]. exists fs. split; [done|]. destruct Hfs as [-> | ->]; by repeat constructor.
  - unfold out_size in *. lia.
Qed.

(** ** Shutting down *)

Lemma wp_shutdownInLoop Q w :
  in_loop w = true → channel_is (mask_of (state_ w) (out w)) w →
  (out w ≠ [] → Q tt w) →
  (out w = [] ∨ state_ w = kDisconnected ∨ state_ w = kConnecting →
   Q tt (note_socket SockShutdown w)) →
  wp shutdownInLoop Q w.
Proof.
  intros Hin Hch Hno Hyes. unfold shutdownInLoop, assertInLoopThread.
  wp_step. wp_step. wp_step. wp_step; [done|]. wp_step.
  eapply wp_channel_isWriting; [exact Hch|]. intros c Hc. rewrite (isWriting_mask _ _ _ Hc).
  apply wp_when; intros Hw; [wp_step|].
  - apply Hyes. apply negb_true_iff, bool_decide_eq_false in Hw.
    destruct (decide (out w = [])) as [|Hne]; [by left|]. right.
    destruct (state_ w); auto; exfalso; auto.
  - apply Hno. by apply negb_false_iff, bool_decide_eq_true in Hw as [? _].
Qed.

(** The sending direction is shut down when all output has been written. *)
Lemma note_shutdown_inv w :
  core w → channel_is (mask_of (state_ w) (out w)) w →
  state_ w = kDisconnected ∨ state_ w = kDisconnecting ∧ out w = [] →
  conn_inv (note_socket SockShutdown w).
Proof.
  intros [? ? ? Hstream Hrecv ? ? ? ? ? Hnew Hsf] Hch Hst. split; [split|..]; cbn; try done.
  - by rewrite wire_app, app_nil_r.
  - by rewrite received_app, app_nil_r.
  - intros Hc. destruct Hst as [?|[? _]]; congruence.
  - intros _. right. left. apply elem_of_app. right. apply list_elem_of_here.
Qed.

Lemma push_functor_inv f w :
  conn_inv w → state_ w ≠ kConnecting → f ≠ ConnectEstablished → f ≠ ShutdownInLoop →
  (f = ConnectDestroyed → state_ w = kDisconnected) → conn_inv (push_functor f w).
Proof.
  intros [[? ? ? ? ? Hpend Hdes ? ? ? Hnew Hsf] Hch Hshut] Hst Hf Hsh Hd.
  split; [split|..]; cbn; try done.
  - right. rewrite not_elem_of_app, list_elem_of_singleton. split; [tauto|done].
  - rewrite elem_of_app, list_elem_of_singleton. intros [?|<-]; auto.
  - rewrite elem_of_app, list_elem_of_singleton. intros [?|<-]; auto; done.
  - intros Hs. destruct (Hshut Hs) as [?|?]; [left; apply elem_of_app; by left|by right].
Qed.

Lemma push_functor_frame f w :
  f ≠ ConnectEstablished → f ≠ ConnectDestroyed → user_frame w (push_functor f w).
Proof. intros. split; try done; [by left|]. exists [f]. split; [done|]. by repeat constructor. Qed.

Lemma wp_shutdown w : conn_inv w → wp shutdown (λ _ w', kept 0 w w') w.
Proof.
  intros Hinv. pose proof Hinv as [Hcore Hch _]. unfold shutdown, setState, queueInLoop.
  wp_step. wp_step. apply wp_when; [intros Hst%bool_decide_eq_true|intros _; by apply kept_refl].
  set (w1 := set_state kDisconnecting w).
  assert (core w1) as Hcore1.
  { destruct Hcore as [? ? ? ? ? Hpend Hdes Hclosed Hshut Hcalls Hnew Hsf]. split; cbn; try done.
    - right. destruct Hpend; [congruence|done].
    - intros ?. specialize (Hdes ltac:(done)). congruence.
    - intros ?. specialize (Hclosed ltac:(done)). congruence.
    - intros Hin. destruct (Hshut Hin) as [?|[? _]]; congruence.
    - by rewrite Hst in Hcalls.
    - by left. }
  assert (channel_is (mask_of (state_ w1) (out w1)) w1) as Hch1 by (by rewrite Hst in Hch).
  assert (user_frame w w1) as Hf1.
  { split; try done; [by right|]. exists []. by rewrite app_nil_r. }
  wp_step. wp_step. wp_step. wp_step. apply wp_if; intros Hin; [|wp_step].
  - apply wp_shutdownInLoop; [done|done| |].
    + intros Hne. split_and!; [|done|unfold out_size; cbn; lia]. split; [done|done|]. auto.
    + intros Hnil. assert (out w1 = []) as Hnil' by (destruct Hnil as [?|[?|?]]; done).
      split_and!; [|by destruct Hf1; split|unfold out_size; cbn; lia].
      apply note_shutdown_inv; [done|done|]. by right.
  - split_and!; [|by etrans; [exact Hf1|apply push_functor_frame]|unfold out_size; cbn; lia].
    destruct Hcore1 as [? ? ? ? ? Hpend Hdes Hclosed Hshut Hcalls Hnew Hsf].
    split; [split|..]; cbn; try done.
    + right. rewrite not_elem_of_app, list_elem_of_singleton. split; [|done].
      by destruct Hpend.
    + rewrite elem_of_app, list_elem_of_singleton. intros [?|?]; auto; done.
    + by left.
    + intros _. left. apply elem_of_app. right. apply list_elem_of_here.
Qed.

(** ** User code *)

Lemma wp_send data w :
  conn_inv w → out_size w + zlen data ≤ max_size →
  wp (send data) (λ _ w', kept (zlen data) w w') w.
Proof.
  intros Hinv Hsize. unfold send, queueInLoop. wp_step. wp_step.
  apply wp_if; [intros _; apply wp_ret, kept_refl; [done|lia]|].
  intros Hst%negb_false_iff%bool_decide_eq_true. wp_step. wp_step.
  apply wp_if; intros Hin; [apply wp_sendInLoop; [done..|congruence|done]|wp_step].
  split_and!; [|by apply push_functor_frame|unfold out_size; cbn; lia].
  apply push_functor_inv; [done|congruence|done..].
Qed.

Lemma call_cost_nonneg (c : user_call) : 0 ≤ call_cost c.
Proof. destruct c; simpl; lia. Qed.

Lemma calls_cost_nonneg cs : 0 ≤ calls_cost cs.
Proof.
  induction cs as [|c cs IH]; [done|].
  change (0 ≤ call_cost c + calls_cost cs). pose proof (call_cost_nonneg c). lia.
Qed.

Lemma wp_run_user_call (c : user_call) w :
  conn_inv w → call_ok c → out_size w + call_cost c ≤ max_size →
  wp (run_user_call c) (λ _ w', kept (call_cost c) w w') w.
Proof.
  intros Hinv Hok Hsize. destruct c as [data| |len]; cbn [run_user_call call_cost] in *.
  - by apply wp_send.
  - by apply wp_shutdown.
  - pose proof Hinv as [[? Hin ? ? Hrecv ? ? ? ? ? ? ?] ? ?]. wp_steps. unfold on_input. wp_step.
    wp_apply (wp_retrieve len (inputBuffer_ w) (input w)); [by split|done|].
    intros [] b [[Hwfb Hcb] _]. split_and!; [|by split; auto; exists []; rewrite app_nil_r|].
    + split; [split|..]; try done. unfold input. cbn. by rewrite Hcb, <-app_assoc, take_drop.
    + unfold out_size; cbn; lia.
Qed.

Lemma wp_run_user_calls cs w :
  conn_inv w → Forall call_ok cs → out_size w + calls_cost cs ≤ max_size →
  wp (for_each cs run_user_call) (λ _ w', kept (calls_cost cs) w w') w.
Proof.
  revert w. induction cs as [|c cs IH]; intros w Hinv Hok Hsize; cbn [for_each].
  { apply wp_ret, kept_refl; [done|simpl; lia]. }
  apply Forall_cons in Hok as [Hc Hcs].
  change (calls_cost (c :: cs)) with (call_cost c + calls_cost cs) in *.
  pose proof (calls_cost_nonneg cs).
  pose proof (call_cost_nonneg c).
  wp_step. wp_apply (wp_run_user_call c w); [done|done|lia|].
  intros [] w1 Hk1. pose proof Hk1 as (Hinv1 & _ & Hs1).
  wp_apply (IH w1); [done|done|lia|]. intros [] w2 Hk2. by eapply kept_trans.
Qed.

Lemma out_size_ok w : conn_inv w → out_size w ≤ max_size.
Proof. intros Hinv. destruct (co_out _ (ci_core _ Hinv)) as [_ ?]. unfold out_size. lia. Qed.

(** A callback, if it is set, keeps the invariant. *)
Lemma wp_call has u w :
  out_size w ≤ max_size → (u = MessageCallback → out_size w + zlen (input w) ≤ max_size) →
  (has (callbacks w) = true → conn_inv (note_upcall u w)) →
  (has (callbacks w) = false → conn_inv w) →
  wp (call has u) (λ _ w', conn_inv w' ∧ out_size w' ≤ max_size ∧
    user_frame (if has (callbacks w) then note_upcall u w else w) w') w.
Proof.
  intros Hsize Hread Hyes Hno. unfold call. wp_step. wp_step. apply wp_when; intros Hhas.
  - assert (out_size (note_upcall u w) + unread u (note_upcall u w) ≤ max_size) as Hroom
      by (unfold out_size in *; destruct u; simpl; [lia|by apply Hread|lia|lia]).
    wp_steps. destruct (user_ok u (note_upcall u w) Hroom) as [Hok Hcost].
    wp_apply (wp_run_user_calls _ (note_upcall u w)); [by apply Hyes|done|done|].
    intros [] w' (? & ? & ?). rewrite Hhas. split_and!; [done|lia|done].
  - rewrite Hhas. split_and!; [auto|done|done].
Qed.

(** ** The handlers *)

(** What any event leaves alone. *)
Record event_frame w w' : Prop := {
  ef_in_loop : in_loop w' = in_loop w;
  ef_callbacks : callbacks w' = callbacks w;
  ef_channel : channel w' = channel w;
  ef_sockfd : sockfd w' = sockfd w;
  ef_outside : outside w' = outside w;
  ef_state : state_ w ≠ kConnecting → state_ w' ≠ kConnecting;
}.

Lemma event_revents w w' : event_frame w w' → revents_of w' = revents_of w.
Proof. intros Hef. exact (f_equal fst (ef_outside _ _ Hef)). Qed.

#[export] Instance event_frame_preorder : PreOrder event_frame.
Proof.
  split; [by split|]. intros w1 w2 w3 [] []. split; try congruence; auto.
Qed.

Lemma user_event_frame w w' : user_frame w w' → event_frame w w'.
Proof.
  intros [? ? ? ? ? ? Hst ?]. split; try done.
  destruct Hst as [-> |[_ ->]]; done.
Qed.

Lemma user_frame_disconnected w w' :
  user_frame w w' → state_ w = kDisconnected → state_ w' = kDisconnected.
Proof. intros [? ? ? ? ? ? [-> |[? _]] _]; [done|congruence]. Qed.

(** The connection has been closed, and its callback is about to be told. *)
Lemma closed_inv p w :
  conn_inv w → state_ w = kConnected ∨ state_ w = kDisconnecting →
  attached p → channel_is kNoneEvent (set_poller p (set_state kDisconnected w)) →
  let w1 := set_poller p (set_state kDisconnected w) in
  (connectionCallback_ (callbacks w) = true → conn_inv (note_upcall (ConnectionCallback false) w1)) ∧
  (connectionCallback_ (callbacks w) = false → conn_inv w1).
Proof.
  intros [[? ? ? ? ? Hpend ? ? Hshut Hcalls Hnew Hsf] Hch ?] Hst Hatt Hch' w1.
  assert (ConnectEstablished ∉ pending w) by (destruct Hpend; [destruct Hst; congruence|done]).
  split; intros Hcb; (split; [split|..]); cbn; try done; auto; try congruence.
  intros _. rewrite connection_calls_app, Hcalls by done. by destruct Hst as [-> | ->].
Qed.

Lemma note_close_inv w :
  conn_inv w → state_ w = kDisconnected → conn_inv (note_upcall CloseCallback w).
Proof.
  intros [[? ? ? ? ? ? ? ? ? Hcalls Hnew Hsf] Hch Hs] Hst. split; [split|..]; cbn; try done.
  - rewrite connection_calls_app. simpl. by rewrite app_nil_r.
  - congruence.
Qed.

Lemma wp_handleClose w :
  conn_inv w → in_loop w = true → state_ w = kConnected ∨ state_ w = kDisconnecting →
  wp handleClose (λ _ w', conn_inv w' ∧ event_frame w w' ∧ state_ w' = kDisconnected) w.
Proof.
  intros Hinv Hin Hst. pose proof (out_size_ok _ Hinv) as Hsize.
  pose proof Hinv as [Hcore Hch _]. unfold handleClose, assertInLoopThread, setState.
  do 4 wp_step; [done|]. do 3 wp_step. unfold disableAll.
  eapply (wp_channel_change DisableAll (mask_of (state_ w) (out w)));
    [apply (co_attached _ Hcore)|exact Hch|].
  intros p' Hatt' Hch' Hrev'. set (w1 := set_poller p' (set_state kDisconnected w)) in *.
  destruct (closed_inv p' w Hinv Hst Hatt' Hch') as [Hyes Hno].
  wp_step. unfold connection_callback. wp_step. wp_step.
  wp_apply (wp_call connectionCallback_ (ConnectionCallback false) w1); [done..|].
  intros [] w2 (Hinv2 & Hsize2 & Hf2). set (w1' := if connectionCallback_ _ then _ else _) in Hf2.
  assert (state_ w1' = kDisconnected ∧ event_frame w w1') as [Hst1 Hef1]
    by (unfold w1'; destruct (connectionCallback_ _); split; done || by split).
  pose proof (user_frame_disconnected _ _ Hf2 Hst1) as Hst2.
  wp_apply (wp_call tcpCloseCallback_ CloseCallback w2); [done|done|by intros; apply note_close_inv|done|].
  intros [] w3 (Hinv3 & _ & Hf3). set (w2' := if tcpCloseCallback_ _ then _ else _) in Hf3.
  assert (state_ w2' = kDisconnected ∧ event_frame w2 w2') as [Hst2' Hef2']
    by (unfold w2'; destruct (tcpCloseCallback_ _); split; done || by split).
  split_and!; [done| |by eapply user_frame_disconnected].
  etrans; [exact Hef1|]. etrans; [by apply user_event_frame|].
  etrans; [exact Hef2'|]. by apply user_event_frame.
Qed.

Lemma note_message_inv u w :
  conn_inv w → state_ w ≠ kConnecting → connection_calls [u] = [] → u ≠ CloseCallback →
  conn_inv (note_upcall u w).
Proof.
  intros [[? ? ? ? ? ? ? Hclosed ? Hcalls Hnew Hsf] Hch Hs] Hst Hu Hne. split; [split|..]; cbn; try done.
  - rewrite elem_of_app, list_elem_of_singleton. intros [?|?]; [auto|congruence].
  - by rewrite connection_calls_app, Hu, app_nil_r.
Qed.

Lemma read_inv b data w :
  conn_inv w → state_ w ≠ kConnecting → wf b → contents b = input w ++ data →
  conn_inv (note_socket (SockRead data) (set_input b w)).
Proof.
  intros [[? ? ? Hstream Hrecv ? ? ? Hshut ? Hnew Hsf] Hch Hs] Hst Hwf Hb.
  assert (∀ tr, SockShutdown ∈ tr ++ [SockRead data] → SockShutdown ∈ tr) as Hin
    by (intros tr; rewrite elem_of_app, list_elem_of_singleton; naive_solver).
  split; [split|..]; cbn; try done.
  - by rewrite wire_app, app_nil_r.
  - rewrite received_app, Hrecv, <-app_assoc. f_equal. unfold input. cbn. rewrite Hb.
    unfold received. simpl. by rewrite app_nil_r.
  - intros ?. by apply Hshut, Hin.
  - intros Hd. destruct (Hs Hd) as [?|[?|?]]; auto. right. left. apply elem_of_app. by left.
Qed.

(** Memory can hold the output and what one more [readFd] takes. *)
Definition read_room w : Prop :=
  out_size w + zlen (buffer_ (inputBuffer_ w)) + extrabuf_size ≤ max_size.

Lemma wp_conn_handleRead w :
  conn_inv w → in_loop w = true → state_ w = kConnected ∨ state_ w = kDisconnecting →
  read_room w →
  wp handleRead (λ _ w', conn_inv w' ∧ event_frame w w') w.
Proof.
  intros Hinv Hin Hst Hroom. assert (state_ w ≠ kConnecting) as Hne by (destruct Hst; congruence).
  unfold handleRead, on_input. do 6 wp_step.
  set (cap := iov_capacity (inputBuffer_ w)).
  wp_apply (wp_readFd _ (inputBuffer_ w) (input w));
    [split; [apply (co_in _ (ci_core _ Hinv))|done]|apply sock_readv_ok| |].
  { unfold read_room, out_size in Hroom. lia. }
  intros [n e] b (Hsz & _ & Hr). fold cap in Hr.
  set (data := delivered (sock_readv (socket_events w) cap)).
  assert ((n = zlen data ∨ n = -1) ∧ wf b ∧ contents b = input w ++ data) as (Hn & Hwf & Hb).
  { unfold data. destruct (sock_readv _ cap) as [d|errno]; cbn [delivered].
    - destruct Hr as [[= -> ->] [? ?]]. auto.
    - destruct Hr as [[= -> ->] ->].
      rewrite app_nil_r. split_and!; [auto|apply (co_in _ (ci_core _ Hinv))|done]. }
  do 2 wp_step. set (w1 := note_socket _ _).
  assert (conn_inv w1) as Hinv1 by by apply read_inv.
  assert (event_frame w w1) as Hef1 by by split.
  assert (state_ w1 = state_ w) as Hst1 by done.
  apply wp_if; intros _; [|apply wp_if; intros _].
  - wp_apply (wp_call messageCallback_ MessageCallback w1);
      [by apply out_size_ok| |intros _; by apply note_message_inv|done|].
    { intros _. unfold read_room, out_size in *. pose proof (length_contents b Hwf).
      pose proof (wf_bounds b Hwf). unfold input. cbn. lia. }
    intros [] w2 (? & _ & Hf). split; [done|]. etrans; [exact Hef1|].
    etrans; [|by apply user_event_frame]. by destruct (messageCallback_ _).
  - wp_apply (wp_handleClose w1); [done|done|by rewrite Hst1|].
    intros [] w2 (? & ? & _). split; [done|by etrans].
  - unfold handleError. wp_step. done.
Qed.

(** The kernel has taken [taken] from the front of the output buffer. *)
Lemma write_core p b taken rest w :
  conn_inv w → state_ w = kConnected ∨ state_ w = kDisconnecting → out w ≠ [] →
  out w = taken ++ rest → wf b → contents b = rest → attached p →
  core (set_poller p (set_output b (note_socket (SockWrite taken) w))).
Proof.
  intros Hinv Hst Hne Hout Hwf Hb Hatt.
  assert (SockShutdown ∉ socket_events w) as Hno
    by (apply (shutdown_in_writing _ Hinv); [destruct Hst; congruence|done]).
  destruct Hinv as [[? ? ? Hstream Hrecv ? ? ? Hshut ? Hnew Hsf] Hch Hs]. split; cbn; try done.
  - rewrite wire_app, <-Hstream, Hout, <-app_assoc. unfold wire at 2, out. simpl.
    by rewrite app_nil_r, Hb.
  - by rewrite received_app, app_nil_r.
  - rewrite elem_of_app, list_elem_of_singleton. intros [?|?]; done.
  - intros Hc. destruct Hst; congruence.
Qed.

Lemma core_push_complete w :
  core w → state_ w ≠ kConnecting → core (push_functor WriteComplete w).
Proof.
  intros [? ? ? ? ? Hpend Hdes ? ? ? Hnew Hsf] Hst. split; cbn; try done.
  - right. rewrite not_elem_of_app, list_elem_of_singleton. split; [by destruct Hpend|done].
  - rewrite elem_of_app, list_elem_of_singleton. intros [?|?]; auto; done.
  - rewrite elem_of_app, list_elem_of_singleton. intros [?|?]; auto; done.
Qed.

(** What a write that succeeds leaves: the output [rest]; and once there is
    none the end of the sending direction, if that has been asked for. *)
Record written (rest : bytes) w w' : Prop := {
  wr_out : out w' = rest;
  wr_state : state_ w' = state_ w;
  wr_accepted : accepted w' = accepted w;
  wr_shutdown : rest = [] → state_ w = kDisconnecting → SockShutdown ∈ socket_events w';
}.

(** All output has been written. *)
Lemma wp_drained w :
  core w → in_loop w = true → state_ w = kConnected ∨ state_ w = kDisconnecting →
  out w = [] → channel_is (Z.lor kReadEvent kWriteEvent) w →
  wp (channel_request disableWriting ;;
      has_complete ← gets (λ w, writeCompleteCallback_ (callbacks w));
      when has_complete (queueInLoop WriteComplete) ;;
      state ← gets state_;
      when (bool_decide (state = kDisconnecting)) shutdownInLoop)
    (λ _ w', conn_inv w' ∧ event_frame w w' ∧ written [] w w') w.
Proof.
  intros Hcore Hin Hst Hnil Hch. wp_step. unfold disableWriting.
  eapply (wp_channel_change DisableWriting); [apply (co_attached _ Hcore)|exact Hch|].
  intros p' Hatt' Hch' Hrev'. set (w1 := set_poller p' w) in *. rewrite mask_disable_writing in Hch'.
  assert (core w1) as Hcore1 by (destruct Hcore; by split).
  assert (event_frame w w1) as Hef1 by by split.
  assert (∀ w2, core w2 → event_frame w1 w2 → state_ w2 = state_ w → out w2 = [] →
    accepted w2 = accepted w → channel_is kReadEvent w2 →
    wp (state ← gets state_; when (bool_decide (state = kDisconnecting)) shutdownInLoop)
      (λ _ w', conn_inv w' ∧ event_frame w w' ∧ written [] w w') w2) as Hend.
  { intros w2 Hcore2 Hef2 Hst2 Hout2 Hacc2 Hch2. wp_step. wp_step.
    assert (channel_is (mask_of (state_ w2) (out w2)) w2) as Hmask
      by (rewrite Hst2, Hout2; by destruct Hst as [-> | ->]).
    apply wp_when.
    - intros Hd%bool_decide_eq_true. apply wp_shutdownInLoop; [|exact Hmask|done|].
      { rewrite (ef_in_loop _ _ Hef2). done. }
      intros _. split_and!; [apply note_shutdown_inv; auto| |].
      + etrans; [exact Hef1|]. by destruct Hef2; split.
      + split; try done. intros _ _. apply elem_of_app. right. apply list_elem_of_here.
    - intros Hd%bool_decide_eq_false. split_and!; [by split|by etrans|].
      split; try done. congruence. }
  do 3 wp_step. apply wp_when; intros _; [unfold queueInLoop; wp_step|]; apply Hend; try done.
  apply core_push_complete; [done|]. cbn. destruct Hst; congruence.
Qed.

Lemma wp_handleWrite w :
  conn_inv w → in_loop w = true →
  wp handleWrite (λ _ w', conn_inv w' ∧ event_frame w w' ∧
    ∀ n, out w ≠ [] → state_ w = kConnected ∨ state_ w = kDisconnecting →
      sock_write (P:=P) (socket_events w) (out w) = IoOk n → 0 < n →
      written (drop (Z.to_nat n) (out w)) w w') w.
Proof.
  intros Hinv Hin. pose proof Hinv as [Hcore Hch Hshutting].
  pose proof (co_out _ Hcore) as Hwf. unfold handleWrite, assertInLoopThread, on_output.
  do 4 wp_step; [done|]. wp_step. eapply wp_channel_isWriting; [exact Hch|].
  intros c Hc. rewrite (isWriting_mask _ _ _ Hc).
  apply wp_if; intros Hw; [apply bool_decide_eq_true in Hw as [Hne Hst]|].
  2:{ apply bool_decide_eq_false in Hw. wp_step. split_and!; [done..|].
      intros n Hne Hst. by destruct Hw. }
  do 6 wp_step. wp_apply (wp_peek _ (outputBuffer_ w) Hwf); [lia|]. intros data b0 [-> ->].
  assert (slice (readerIndex_ (outputBuffer_ w)) (readableBytes (outputBuffer_ w))
    (buffer_ (outputBuffer_ w)) = out w) as -> by (by rewrite readableBytes_wf).
  assert (set_output (outputBuffer_ w) w = w) as -> by by destruct w.
  destruct (sock_write (socket_events w) (out w)) as [n|errno] eqn:Hwr; [|by wp_step].
  destruct (write_ok _ _ _ Hwr) as [Hn0 Hn].
  apply wp_when; intros Hpos.
  2:{ split_and!; [done..|]. intros n' _ _ [= <-] ?. apply Z.ltb_ge in Hpos. lia. }
  do 4 wp_step.
  wp_apply (wp_retrieve n (outputBuffer_ w) (out w)); [by split|done|].
  intros [] b [[Hwfb Hcb] _]. wp_step. wp_step.
  assert (core (set_poller (poller w) (set_output b
    (note_socket (SockWrite (take (Z.to_nat n) (out w))) w)))) as Hcore'.
  { apply (write_core _ _ _ (drop (Z.to_nat n) (out w))); try done;
      [by rewrite take_drop|apply (co_attached _ Hcore)]. }
  set (w1 := set_output b (note_socket (SockWrite (take (Z.to_nat n) (out w))) w)).
  assert (set_poller (poller w) w1 = w1) as Heq by by destruct w.
  unfold w1 in Heq. rewrite Heq in Hcore'. fold w1 in Hcore'.
  assert (channel_is (Z.lor kReadEvent kWriteEvent) w1) as Hch1.
  { unfold mask_of in Hch. destruct (out w); [done|]. by destruct Hst as [Hs|Hs]; rewrite Hs in Hch. }
  assert (event_frame w w1) as Hef1 by by split.
  change (outputBuffer_ (set_output b _)) with (outputBuffer_ w1).
  rewrite (readable_out w1) by done. apply wp_when; intros Hempty.
  - apply Z.eqb_eq, nil_length in Hempty.
    wp_apply (wp_drained w1); [done..|]. intros [] w2 (? & ? & Hwr2).
    split_and!; [done|by etrans|]. intros n' _ _ [= <-] _.
    assert (drop (Z.to_nat n) (out w) = []) as -> by (rewrite <-Hcb; exact Hempty).
    by destruct Hwr2.
  - apply Z.eqb_neq in Hempty.
    assert (out w1 ≠ []) as Hne1 by (intros Hnil; rewrite Hnil in Hempty; done).
    split_and!; [|done|].
    { split; [done| |auto]. unfold mask_of. destruct (out w1); [done|].
      by destruct Hst as [Hs|Hs]; cbn; rewrite Hs. }
    intros n' _ _ [= <-] _. split; try done. intros Hnil. by rewrite <-Hcb in Hnil.
Qed.

(** ** The life of a connection *)

(** The first functor. *)
Lemma wp_connectEstablished w :
  conn_inv w → state_ w = kConnecting → in_loop w = true →
  wp connectEstablished (λ _ w', conn_inv w' ∧ event_frame w w' ∧ state_ w' ≠ kConnecting)
    (set_pending [] w).
Proof.
  intros Hinv Hst Hin. pose proof (out_size_ok _ Hinv) as Hsize.
  destruct Hinv as [[Hatt Hwfi Hwfo Hstream Hrecv Hpend Hdes Hclosed Hshut Hcalls Hnew Hsf] Hch _].
  destruct (Hnew Hst) as (Hp & Hu & Hse & Ho). rewrite Hst in Hch, Hcalls.
  unfold connectEstablished, assertInLoopThread, setState, enableReading.
  do 4 wp_step; [done|]. do 3 wp_step.
  eapply (wp_channel_change EnableReading kNoneEvent); [done|exact Hch|].
  intros p' Hatt' Hch' Hrev'. rewrite mask_enable_reading in Hch'.
  set (w1 := set_poller p' (set_state kConnected (set_pending [] w))) in *.
  assert (∀ us, (connectionCallback_ (callbacks w) = true → connection_calls us = [true]) →
    CloseCallback ∉ us →
    conn_inv (MkConnW (poller w1) (channel w1) (sockfd w1) (callbacks w1) (state_ w1)
      (inputBuffer_ w1) (outputBuffer_ w1) (in_loop w1) (pending w1)
      (socket_events w1) us (accepted w1) (retrieved w1))) as Hinv1.
  { intros us Hus Hnc. split; [split|..]; cbn; try done.
    - right. apply not_elem_of_nil.
    - intros []%not_elem_of_nil.
    - rewrite Hse. intros []%not_elem_of_nil.
    - intros []%not_elem_of_nil.
    - change (channel_is (mask_of kConnected (out w)) w1). by rewrite Ho. }
  unfold connection_callback. wp_step. wp_step.
  wp_apply (wp_call connectionCallback_ (ConnectionCallback true) w1); [done|done| | |].
  - intros Hcb. unfold note_upcall, w1. cbn. rewrite Hu. apply Hinv1; [done|].
    intros Hin'. by apply list_elem_of_singleton in Hin'.
  - intros Hcb. specialize (Hinv1 []). unfold w1 in *. cbn in *. rewrite <-Hu in Hinv1.
    apply Hinv1; [|rewrite Hu; apply not_elem_of_nil]. cbn in Hcb. congruence.
  - intros [] w2 (Hinv2 & _ & Hf). set (w1' := if connectionCallback_ _ then _ else _) in Hf.
    assert (state_ w1' = kConnected ∧ event_frame w w1') as [Hst1 Hef1]
      by (unfold w1'; destruct (connectionCallback_ _); split; done || by split).
    split_and!; [done|etrans; [exact Hef1|by apply user_event_frame]|].
    destruct Hf as [? ? ? ? ? ? [-> |[_ ->]] _]; congruence.
Qed.

(** The last functor: the poller forgets the channel. *)
Lemma wp_connectDestroyed w :
  conn_inv w → state_ w = kDisconnected → in_loop w = true →
  wp connectDestroyed (λ _ w', conn_inv w' ∧ event_frame w w' ∧ state_ w' = kDisconnected ∧
    watched (poller w') (sockfd w') = None ∧ unregistered w') w.
Proof.
  intros [[? ? ? ? ? ? ? ? ? ? ? ?] Hch Hs] Hst Hin.
  unfold connectDestroyed, assertInLoopThread. do 4 wp_step; [done|]. do 3 wp_step.
  rewrite Hst. apply wp_when; [intros Hb; by apply bool_decide_eq_true in Hb|intros _].
  rewrite Hst in Hch.
  eapply wp_channel_remove; [done|exact Hch|]. intros p' Hatt' Hch' Hrev' Hwat Hun.
  split_and!; [|by split|done|done|done]. split; [by split| |done]. cbn. by rewrite Hst.
Qed.

(** Taking a functor from the queue. *)
Lemma pop_core f q w :
  core w → state_ w ≠ kConnecting → pending w = f :: q → core (set_pending q w).
Proof.
  intros [? ? ? ? ? Hpend Hdes ? ? ? Hnew Hsf] Hst Hq.
  assert (∀ g, g ∈ q → g ∈ pending w) as Hin by (intros; rewrite Hq; by apply elem_of_cons; right).
  split; cbn; try done; auto. right. destruct Hpend; [done|auto].
Qed.

Lemma pop_functor_inv f q w :
  conn_inv w → state_ w ≠ kConnecting → pending w = f :: q → f ≠ ShutdownInLoop →
  conn_inv (set_pending q w).
Proof.
  intros [Hcore Hch Hs] Hst Hq Hf. split; [by eapply pop_core|done|]. cbn.
  intros Hd. destruct (Hs Hd) as [Hin|?]; [left|by right].
  rewrite Hq in Hin. by apply elem_of_cons in Hin as [?|?].
Qed.

Definition functor_room (f : functor) w : Prop :=
  match f with SendInLoop d => out_size w + zlen d ≤ max_size | _ => True end.

Lemma wp_run_conn_functor f q w :
  conn_inv w → in_loop w = true → pending w = f :: q → functor_room f w →
  wp (run_functor f) (λ _ w', conn_inv w' ∧ event_frame w w' ∧ state_ w' ≠ kConnecting)
    (set_pending q w).
Proof.
  intros Hinv Hin Hq Hroom. unfold run_functor.
  pose proof Hinv as [Hcore Hch Hshutting].
  assert (state_ w = kConnecting ∨ state_ w ≠ kConnecting) as [Hst|Hst] by (destruct (state_ w); auto).
  { destruct (co_new _ Hcore Hst) as (Hp & _). rewrite Hp in Hq. injection Hq as <- <-.
    by wp_apply (wp_connectEstablished w). }
  apply (wp_mono _ (λ _ w', conn_inv w' ∧ event_frame w w'));
    [|intros [] w' [? Hef]; split_and!; [done|done|by apply (ef_state _ _ Hef)]].
  assert (event_frame w (set_pending q w)) as Hef0 by by split.
  destruct f as [d| | | |]; try (pose proof (pop_functor_inv _ _ _ Hinv Hst Hq ltac:(done)) as Hinv').
  - wp_apply (wp_sendInLoop d (set_pending q w)); [done..|].
    intros [] w' (? & ? & _). split; [done|]. etrans; [exact Hef0|by apply user_event_frame].
  - apply wp_shutdownInLoop; [done|done| |].
    + intros Hne. split; [|done]. split; [by eapply pop_core|done|auto].
    + intros Hnil. split; [|by split].
      assert (state_ w = kDisconnecting ∨ state_ w = kDisconnected) as Hnc
        by (apply (co_shutting _ Hcore); rewrite Hq; apply list_elem_of_here).
      apply note_shutdown_inv; [by eapply pop_core|done|]. cbn.
      change (out (set_pending q w)) with (out w) in *.
      destruct Hnc as [?|?]; [right|by left]. split; [done|].
      destruct Hnil as [?|[Hx|Hx]]; [done|cbn in Hx; congruence..].
  - exfalso. destruct (co_pending _ Hcore) as [?|Hp]; [done|]. apply Hp. rewrite Hq.
    apply list_elem_of_here.
  - assert (state_ w = kDisconnected) as Hd
      by (apply (co_destroy _ Hcore); rewrite Hq; apply list_elem_of_here).
    wp_apply (wp_connectDestroyed (set_pending q w)); [done..|].
    intros [] w' (? & ? & _). split; [done|by etrans].
  - wp_apply (wp_call writeCompleteCallback_ WriteCompleteCallback (set_pending q w));
      [by apply out_size_ok|done|intros _; by apply note_message_inv|done|].
    intros [] w' (? & _ & Hf). split; [done|]. etrans; [exact Hef0|].
    etrans; [|by apply user_event_frame]. by destruct (writeCompleteCallback_ _).
Qed.

(** ** Events *)

(** The poller watches the connection's channel. *)
Definition is_watched w : Prop :=
  ∃ m, m ≠ kNoneEvent ∧ watched (poller w) (sockfd w) = Some (m, channel w).

(** What the kernel is taken to report: a hang-up without EPOLLIN comes without
    EPOLLPRI and EPOLLRDHUP, so that the close and the read callback are not
    both called.  epoll_ctl(2) reports, apart from EPOLLERR and EPOLLHUP, only
    what was asked for, and a channel never asks for EPOLLRDHUP; that a TCP
    socket which is hung up is readable too, so that EPOLLHUP comes with
    EPOLLIN while reading is watched, is what Linux does and not what epoll(7)
    says.  Without it [Channel::handleEventWithGuard] closes the connection
    twice: [hangup_with_urgent_closes_twice] of TcpConnectionProps.v. *)
Definition revents_ok (revents : Z) : Prop :=
  has EPOLLHUP revents && negb (has EPOLLIN revents) = true →
  has (Z.lor EPOLLIN (Z.lor EPOLLPRI EPOLLRDHUP)) revents = false.

Definition event_ok (ev : conn_event) w : Prop :=
  match ev with
  | Dispatch revents =>
      is_watched w ∧ revents_ok revents ∧ read_room w
  | RunFunctor =>
      match pending w with f :: _ => functor_room f w | [] => True end
  | CallInLoop c | CallFromOther c =>
      call_ok c ∧ out_size w + call_cost c ≤ max_size
  | QueueDestroy => CloseCallback ∈ upcalls w
  end.

Lemma watched_open w :
  conn_inv w → is_watched w → state_ w = kConnected ∨ state_ w = kDisconnecting.
Proof.
  intros [Hcore (c & Hc & Hm & _) _] (m & Hne & Hw).
  pose proof (attached_synced _ (co_attached _ Hcore)) as Hs.
  destruct (watched_synced _ _ _ _ Hs Hw) as (c' & Hc' & _ & Hm' & _).
  unfold conn_channel in Hc. assert (c' = c) as -> by congruence.
  rewrite Hm' in Hm. subst m. destruct (state_ w); auto; done.
Qed.

(** One test of [handleEventWithGuard]. *)
Lemma wp_on_revents test callback h r p Q w :
  conn_inv w → p = channel w → revents_of w = Some r →
  (∀ m, channel_is m w → ∀ c, conn_channel w = Some c → callback c = Some (bind_ h)) →
  (test r = true → wp (run_handler h) Q w) → (test r = false → Q tt w) →
  wp (on_revents (λ p w, channels_of (poller w) !! p) run_callback test callback p) Q w.
Proof.
  intros [_ Hch _] -> Hr Hcb Hyes Hno. pose proof Hch as (c & Hc & _).
  unfold revents_of in Hr. rewrite Hc in Hr. injection Hr as <-.
  unfold on_revents. wp_step. eapply wp_deref; [exact Hc|].
  apply wp_when; [|exact Hno]. intros Ht. unfold fire. wp_step. eapply wp_deref; [exact Hc|].
  rewrite (Hcb _ Hch c Hc). by apply wp_run_bound, Hyes.
Qed.

Lemma channel_is_callbacks m w c :
  channel_is m w → conn_channel w = Some c →
  readCallback_ c = Some (bind_ HandleRead) ∧ writeCallback_ c = Some (bind_ HandleWrite) ∧
  closeCallback_ c = Some (bind_ HandleClose) ∧ errorCallback_ c = Some (bind_ HandleError).
Proof.
  intros (c' & Hc' & _ & _ & _ & ? & ? & ? & ? & _) Hc. by assert (c' = c) as -> by congruence.
Qed.

(** When the dispatch runs a handler. *)
Definition handler_ok (h : handler) w : Prop :=
  in_loop w = true ∧
  match h with
  | HandleRead => (state_ w = kConnected ∨ state_ w = kDisconnecting) ∧ read_room w
  | HandleClose => state_ w = kConnected ∨ state_ w = kDisconnecting
  | _ => True
  end.

(** An additional property [J] that every handler keeps. *)
Definition handlers_keep (J : W → Prop) : Prop :=
  ∀ h w, conn_inv w → handler_ok h w → J w →
    wlp (run_handler h) (λ _ w', conn_inv w' → J w') w.

Section dispatching.
Context (J : W → Prop) (J_kept : handlers_keep J) (w : W) (r : Z).
Context (Hr : revents_of w = Some r) (Hin : in_loop w = true).

Definition dispatched w' : Prop := conn_inv w' ∧ event_frame w w' ∧ J w'.
Abbreviation test_of test callback :=
  (on_revents (λ p w, channels_of (poller w) !! p) run_callback test callback (channel w)).

Lemma wp_test test callback h w0 :
  dispatched w0 →
  (∀ m, channel_is m w0 → ∀ c, conn_channel w0 = Some c → callback c = Some (bind_ h)) →
  (test r = true → handler_ok h w0 ∧
     wp (run_handler h) (λ _ w', conn_inv w' ∧ event_frame w0 w') w0) →
  wp (test_of test callback) (λ _ w', dispatched w' ∧ (test r = false → w' = w0)) w0.
Proof.
  intros (Hinv & Hef & HJ) Hcb Hrun.
  eapply (wp_on_revents _ _ h r); [done|by rewrite (ef_channel _ _ Hef)|
    by rewrite (event_revents _ _ Hef)|exact Hcb| |done].
  intros Ht. destruct (Hrun Ht) as [Hok Hwp].
  eapply wp_mono; [exact (wp_wlp _ _ _ _ Hwp (J_kept h w0 Hinv Hok HJ))|].
  intros [] w1 [[Hinv1 Hef1] HJ1]. rewrite Ht. split; [|done]. split_and!; [done|by etrans|auto].
Qed.

Lemma wp_test_error w0 :
  dispatched w0 → wp (test_of (has EPOLLERR) errorCallback_) (λ _ w', w' = w0) w0.
Proof.
  intros (Hinv & Hef & _).
  eapply (wp_on_revents _ _ HandleError r); [done|by rewrite (ef_channel _ _ Hef)|
    by rewrite (event_revents _ _ Hef)| |done|done].
  intros m Hch c Hc. by apply (channel_is_callbacks _ _ _ Hch) in Hc as (_ & _ & _ & ?).
Qed.

Lemma wp_dispatch :
  conn_inv w → J w → state_ w = kConnected ∨ state_ w = kDisconnecting →
  revents_ok r → read_room w →
  wp (handleEvent (λ p w, channels_of (poller w) !! p) run_callback (channel w))
    (λ _ w', dispatched w') w.
Proof.
  intros Hinv HJ Hst Hok Hroom. unfold handleEvent, handleEventWithGuard. wp_step.
  wp_apply (wp_test _ closeCallback_ HandleClose w); [done| | |].
  { intros m Hch c Hc. by apply (channel_is_callbacks _ _ _ Hch) in Hc as (_ & _ & ? & _). }
  { intros _. split; [done|].
    wp_apply (wp_handleClose w); [done..|]. by intros [] w1 (? & ? & _). }
  intros [] w1 [Hd1 Hsame]. wp_step. wp_apply (wp_test_error w1); [done|].
  intros [] w2 ->. wp_step. wp_apply (wp_test _ readCallback_ HandleRead w1); [done| | |].
  { intros m Hch c Hc. by apply (channel_is_callbacks _ _ _ Hch) in Hc as (? & _). }
  { intros Hread. destruct (has EPOLLHUP r && negb (has EPOLLIN r)) eqn:Hhup.
    { by rewrite (Hok Hhup) in Hread. }
    rewrite (Hsame eq_refl). split; [done|]. by apply wp_conn_handleRead. }
  intros [] w2 [Hd2 _]. wp_apply (wp_test _ writeCallback_ HandleWrite w2); [done| | |].
  { intros m Hch c Hc. by apply (channel_is_callbacks _ _ _ Hch) in Hc as (_ & ? & _). }
  { intros _. destruct Hd2 as (Hinv2 & Hef2 & _).
    assert (in_loop w2 = true) as Hin2 by by rewrite (ef_in_loop _ _ Hef2).
    split; [done|]. wp_apply (wp_handleWrite w2); [done..|].
    by intros [] w3 (? & ? & _). }
  by intros [] w3 [? _].
Qed.
End dispatching.

Lemma set_in_loop_inv b w : conn_inv w → conn_inv (set_in_loop b w).
Proof. intros [[] ? ?]. by split. Qed.

Lemma set_revents_inv r c w :
  conn_inv w → conn_channel w = Some c →
  conn_inv (set_poller (put_channel (channel w) (set_revents r c) (poller w)) w) ∧
  revents_of (set_poller (put_channel (channel w) (set_revents r c) (poller w)) w) = Some r.
Proof.
  intros [[Hatt] (c' & Hc' & Hm & Hrest) Hs] Hc. assert (c' = c) as -> by congruence.
  assert (conn_channel (set_poller (put_channel (channel w) (set_revents r c) (poller w)) w)
    = Some (set_revents r c)) as Hput.
  { unfold conn_channel, put_channel. cbn. by rewrite channels_of_with, lookup_insert_eq. }
  split; [|unfold revents_of; by rewrite Hput].
  split; [split|exists (set_revents r c)|]; try done. by apply attached_set_revents.
Qed.

(** What no event changes: the identity of the connection, and the other
    channels of its loop. *)
Record conn_frame w w' : Prop := {
  cf_callbacks : callbacks w' = callbacks w;
  cf_channel : channel w' = channel w;
  cf_sockfd : sockfd w' = sockfd w;
  cf_others : delete (channel w) (channels_of (poller w')) =
    delete (channel w) (channels_of (poller w));
}.

#[export] Instance conn_frame_preorder : PreOrder conn_frame.
Proof.
  split; [by split|]. intros w1 w2 w3 [Hc1 Hch1 Hs1 Ho1] [Hc2 Hch2 Hs2 Ho2].
  split; [congruence..|]. rewrite Hch1 in Ho2. congruence.
Qed.

Lemma event_conn_frame w w' : event_frame w w' → conn_frame w w'.
Proof.
  intros Hef. pose proof (f_equal snd (ef_outside _ _ Hef)) as Ho. unfold outside in Ho. cbn in Ho.
  rewrite (ef_channel _ _ Hef) in Ho. by destruct Hef.
Qed.

(** The poller has stored the events in the channel. *)
Lemma wp_store_revents r w (k : ptr → M W unit) Q :
  conn_inv w →
  (∀ w', conn_inv w' → conn_frame w w' → revents_of w' = Some r → in_loop w' = in_loop w →
     state_ w' = state_ w → out_size w' = out_size w → inputBuffer_ w' = inputBuffer_ w →
     w' = set_poller (poller w') w → wp (k (channel w)) Q w') →
  wp (p ← gets channel; c ← deref conn_channel;
      on_poller (modify (put_channel p (set_revents r c))) ;;
      k p) Q w.
Proof.
  intros Hinv HQ. pose proof (ci_channel _ Hinv) as (c & Hc & _).
  destruct (set_revents_inv r c w Hinv Hc) as [Hinv' Hr'].
  do 3 wp_step. eapply wp_deref; [exact Hc|]. unfold on_poller. do 3 wp_step.
  apply HQ; try done. split; try done. cbn. unfold put_channel.
  by rewrite channels_of_with, delete_insert_eq.
Qed.

Lemma wp_dispatch_event J r w :
  handlers_keep J → conn_inv w → event_ok (Dispatch r) w →
  (∀ p, J (set_poller p (set_in_loop true w))) →
  wp (run_conn_event (Dispatch r)) (λ _ w', conn_inv w' ∧ conn_frame w w' ∧ J w') w.
Proof.
  intros HJ Hinv (Hw & Hr & Hroom) Hstore. pose proof (watched_open _ Hinv Hw) as Hst.
  cbn [run_conn_event]. do 2 wp_step.
  apply (wp_store_revents r (set_in_loop true w)); [by apply set_in_loop_inv|].
  intros w1 Hinv1 Hf1 Hr1 Hin1 Hst1 Ho1 Hi1 Heq. rewrite <-(cf_channel _ _ Hf1).
  wp_apply (wp_dispatch J HJ w1 r); try done.
  { rewrite Heq. apply Hstore. }
  { by rewrite Hst1. }
  { unfold read_room in *. by rewrite Ho1, Hi1. }
  intros [] w2 (? & Hef & ?). split_and!; [done| |done].
  assert (conn_frame (set_in_loop true w) w2) as [] by (etrans; [exact Hf1|by apply event_conn_frame]).
  by split.
Qed.

Lemma wp_run_conn_event ev w :
  conn_inv w → event_ok ev w →
  wp (run_conn_event ev) (λ _ w', conn_inv w' ∧ conn_frame w w') w.
Proof.
  intros Hinv Hok. destruct ev as [r| |c|c|]; cbn [run_conn_event event_ok] in *.
  - wp_apply (wp_dispatch_event (λ _, True) r w); [done..|]. by intros [] w' (? & ? & _).
  - do 4 wp_step. cbn. destruct (pending w) as [|f q] eqn:Hq; [split; [by apply set_in_loop_inv|done]|].
    wp_step. wp_step.
    wp_apply (wp_run_conn_functor f q (set_in_loop true w)); [by apply set_in_loop_inv|done..|].
    intros [] w' (? & Hef & _). split; [done|]. by apply event_conn_frame in Hef as [].
  - destruct Hok as (Hc & Hroom). wp_step. wp_step.
    wp_apply (wp_run_user_call c (set_in_loop true w)); [by apply set_in_loop_inv|done..|].
    intros [] w' (? & Hf%user_event_frame%event_conn_frame & _). split; [done|by destruct Hf].
  - destruct Hok as (Hc & Hroom). wp_step. wp_step.
    wp_apply (wp_run_user_call c (set_in_loop false w)); [by apply set_in_loop_inv|done..|].
    intros [] w' (? & Hf%user_event_frame%event_conn_frame & _). split; [done|by destruct Hf].
  - pose proof (co_closed _ (ci_core _ Hinv) Hok) as Hd. unfold queueInLoop. wp_step.
    split; [apply push_functor_inv; [done|congruence|done..]|by split].
Qed.

(** ** Reachable states *)

Definition conn_step w w' : Prop :=
  ∃ ev, event_ok ev w ∧ run_conn_event ev w = Ok (tt, w').

Lemma conn_steps_inv w w' : conn_inv w → rtc conn_step w w' → conn_inv w'.
Proof.
  apply rtc_invariant. intros w1 w2 Hinv (ev & Hok & Hrun).
  pose proof (wp_run_conn_event ev w1 Hinv Hok) as Hwp. unfold wp in Hwp. rewrite Hrun in Hwp.
  apply Hwp.
Qed.

(** A new connection: its channel is not registered yet. *)
Lemma new_TcpConnection_inv loop chan fd cbs p w :
  attached (with_channels (<[chan := connection_channel loop fd]> (channels_of p)) p) →
  loop ≠ 0 → new_TcpConnection loop chan fd cbs p = Ok w → conn_inv w.
Proof.
  intros Hatt Hloop. unfold new_TcpConnection, constructor.
  destruct (new_Buffer kInitialSize) as [b|] eqn:Hb; [|done].
  destruct (new_Buffer_rep kInitialSize b Hb) as [[Hwf Hcon] _]; [done|].
  cbn. intros [= <-]. split; [split|..]; cbn; try done.
  - by left.
  - intros Hin. by apply list_elem_of_singleton in Hin.
  - intros []%not_elem_of_nil.
  - intros []%not_elem_of_nil.
  - intros Hin. by apply list_elem_of_singleton in Hin.
  - exists (connection_channel loop fd). split; [|done].
    unfold conn_channel. cbn. by rewrite channels_of_with, lookup_insert_eq.
Qed.
End spec.
