(* ===== verification/ConnectionFrame.v ===== *)
(** * What the methods of a connection leave alone
      (src/net/TcpConnection.cc)

    Two frame properties that the composition of a loop's parts (Reactor.v)
    needs: the functors of a connection are only appended to, and a connection
    that has been destroyed asks nothing of the poller any more. And a
    connection keeps its invariant when the loop's poller changes elsewhere. *)
From S2P Require Import Prelude Posix Buffer Channel TcpConnection TcpConnectionSpec.

(** A method that has been shown to keep a predicate, within another one. *)
Ltac wlp_apply H := eapply wlp_mono; [eapply H|cbv beta].

Section frame.
Context {P CB : Type} `{!Poller P CB, !Bound handler CB, !ConnEnv P}.
Abbreviation W := (ConnW P).
Implicit Types w : W.

(** The functors that the connection itself hands to its loop; the other two
    are the server's. *)
Definition own_functor (f : functor) : Prop := f ≠ ConnectEstablished ∧ f ≠ ConnectDestroyed.
#[export] Instance own_functor_dec f : Decision (own_functor f).
Proof. unfold own_functor. apply _. Defined.

(** ** Predicates that no assignment to a member changes *)

(** [C] allows the connection to close as well. *)
Record stable (C : Prop) (J : W → Prop) : Prop := {
  st_poller p w : J w → J (set_poller p w);
  st_state s w : (s = kDisconnected → C) → J w → J (set_state s w);
  st_input b w : J w → J (set_input b w);
  st_output b w : J w → J (set_output b w);
  st_push f w : own_functor f → J w → J (push_functor f w);
  st_socket e w : J w → J (note_socket e w);
  st_upcall u w : (u = CloseCallback → C) → J w → J (note_upcall u w);
  st_accepted d w : J w → J (note_accepted d w);
  st_retrieved d w : J w → J (note_retrieved d w);
}.

Section stable_methods.
Context (C : Prop) (J : W → Prop) (HJ : stable C J).

Ltac stay :=
  repeat first
    [ assumption
    | apply (st_poller C J HJ) | apply (st_state C J HJ); [done|] | apply (st_input C J HJ)
    | apply (st_output C J HJ) | apply (st_push C J HJ); [by split|] | apply (st_socket C J HJ)
    | apply (st_upcall C J HJ); [done|] | apply (st_accepted C J HJ) | apply (st_retrieved C J HJ) ].
Ltac keep :=
  repeat first
    [ wlp_step
    | lazymatch goal with |- wlp (match ?x with _ => _ end) _ _ => destruct x end ];
  stay.

Lemma keep_request request w :
  J w → wlp (channel_request request) (λ _, J) w.
Proof. intros Hw. unfold channel_request, on_poller. keep. Qed.

Lemma keep_queueInLoop f w : own_functor f → J w → wlp (queueInLoop f) (λ _, J) w.
Proof. intros Hf Hw. unfold queueInLoop. wlp_run. by apply (st_push C J HJ). Qed.

Lemma keep_shutdownInLoop w : J w → wlp shutdownInLoop (λ _, J) w.
Proof. intros Hw. unfold shutdownInLoop, assertInLoopThread, channel_isWriting. keep. Qed.

(** The end of [sendInLoop]. *)
Lemma keep_enqueue data (n remaining : Z) (fault : bool) w :
  J w → wlp (if negb fault
    then
      modify (note_accepted data) ;;
      when (0 <? remaining)
        (on_output (append (slice n remaining data)) ;;
         writing ← channel_isWriting;
         when (negb writing) (channel_request enableWriting))
    else mret tt) (λ _, J) w.
Proof.
  intros Hw. unfold on_output, channel_isWriting. keep. apply keep_request. stay.
Qed.

Lemma keep_sendInLoop data w : J w → wlp (sendInLoop data) (λ _, J) w.
Proof.
  intros Hw. unfold sendInLoop, assertInLoopThread, channel_isWriting.
  wlp_run. case_decide; [by wlp_step|]. wlp_run.
  assert (∀ n remaining fault w', J w' → wlp ((λ '(nwrote, remaining, faultError),
    if negb faultError
    then
      modify (note_accepted data) ;;
      when (0 <? remaining)
        (on_output (append (slice nwrote remaining data)) ;;
         writing ← channel_isWriting;
         when (negb writing) (channel_request enableWriting))
    else mret tt) (n, remaining, fault)) (λ _, J) w') as Hend by (intros; by apply keep_enqueue).
  wlp_step; [|wlp_step; by apply Hend]. wlp_run.
  destruct (sock_write _ _) as [n|e]; [|wlp_step; by apply Hend].
  wlp_run. apply wlp_when; intros _; [|wlp_run; apply Hend; stay].
  wlp_apply keep_queueInLoop; [by split|stay|]. intros [] w' Hw'. wlp_step. by apply Hend.
Qed.

Lemma keep_user_call c w : J w → wlp (run_user_call c) (λ _, J) w.
Proof.
  intros Hw. destruct c as [data| |len]; cbn [run_user_call].
  - unfold send. keep; [by apply keep_sendInLoop|by apply keep_queueInLoop; [split|]].
  - unfold shutdown, setState. keep; [apply keep_shutdownInLoop|apply keep_queueInLoop; [by split|]]; stay.
  - unfold on_input. keep.
Qed.

Lemma keep_call has u w : (u = CloseCallback → C) → J w → wlp (call has u) (λ _, J) w.
Proof.
  intros Hu Hw. unfold call. wlp_run. wlp_step; [|done]. wlp_run.
  apply wlp_for_each; [by apply (st_upcall C J HJ)|]. intros c w' _. apply keep_user_call.
Qed.

Lemma keep_connection_callback w : J w → wlp connection_callback (λ _, J) w.
Proof. intros Hw. unfold connection_callback. wlp_run. by apply keep_call. Qed.

Lemma keep_handleClose w : C → J w → wlp handleClose (λ _, J) w.
Proof.
  intros HC Hw. unfold handleClose, assertInLoopThread, setState. wlp_run.
  wlp_apply keep_request; [stay|]. intros [] w1 Hw1. wlp_run.
  wlp_apply keep_connection_callback; [done|]. intros [] w2 Hw2. by apply keep_call.
Qed.

Lemma keep_handleRead w : C → J w → wlp handleRead (λ _, J) w.
Proof.
  intros HC Hw. unfold handleRead, on_input. wlp_run. destruct a as [n e]. wlp_run.
  wlp_step; [apply keep_call; [done|stay]|].
  wlp_step; [apply keep_handleClose; [done|stay]|apply wlp_ret; stay].
Qed.

Lemma keep_handleWrite w : J w → wlp handleWrite (λ _, J) w.
Proof.
  intros Hw. unfold handleWrite, assertInLoopThread, channel_isWriting, on_output. wlp_run.
  wlp_step; [|by wlp_step]. wlp_run. destruct (sock_write _ _) as [n|e]; [|wlp_step; stay].
  wlp_step; [|stay]. wlp_run. wlp_step; [|stay]. wlp_run.
  wlp_apply keep_request; [stay|]. intros [] w1 Hw1. wlp_run.
  apply wlp_when; intros _.
  - wlp_apply keep_queueInLoop; [by split|done|]. intros [] w2 Hw2. wlp_run. wlp_step; [|done].
    by apply keep_shutdownInLoop.
  - wlp_run. wlp_step; [|done]. by apply keep_shutdownInLoop.
Qed.

Lemma keep_handler h w : C → J w → wlp (run_handler h) (λ _, J) w.
Proof.
  intros HC Hw. destruct h; cbn [run_handler];
    [by apply keep_handleRead|by apply keep_handleWrite|by apply keep_handleClose|by apply wlp_ret].
Qed.

Lemma keep_functor f w :
  (f = ConnectDestroyed → state_ w = kConnected → C) → J w → wlp (run_functor f) (λ _, J) w.
Proof.
  intros HC Hw. unfold run_functor. wlp_run.
  destruct f; [by apply keep_sendInLoop|by apply keep_shutdownInLoop| | |by apply keep_call].
  - unfold connectEstablished, assertInLoopThread, setState. wlp_run.
    wlp_apply keep_request; [stay|]. intros [] w1 Hw1. by apply keep_connection_callback.
  - unfold connectDestroyed, assertInLoopThread, setState. wlp_run.
    apply wlp_when; intros Hst; [|by apply keep_request]. wlp_run.
    wlp_apply keep_request.
    { apply (st_state C J HJ); [intros _|done]. apply HC; [done|].
      by apply bool_decide_eq_true in Hst. }
    intros [] w1 Hw1. wlp_run.
    wlp_apply keep_connection_callback; [done|]. intros [] w2 Hw2. by apply keep_request.
Qed.
End stable_methods.

(** The functors of a connection are only appended to, by its own ones. *)
Definition appended (q : list functor) w : Prop :=
  ∃ fs, pending w = q ++ fs ∧ Forall own_functor fs.

Lemma appended_refl w : appended (pending w) w.
Proof. exists []. by rewrite app_nil_r. Qed.

Lemma appended_stable q : stable True (appended q).
Proof.
  split; try (intros ? ? Hw; exact Hw); try (intros ? ? _ Hw; exact Hw).
  intros f w Hf (fs & Hfs & Hown). exists (fs ++ [f]). cbn. rewrite Hfs, <-app_assoc.
  split; [done|]. by apply Forall_app_2; [|apply Forall_singleton].
Qed.

(** ** The close callback *)

Definition closes (us : list upcall) : nat := length (filter (λ u, u = CloseCallback) us).
#[global] Arguments closes : simpl never.

Lemma closes_snoc us u :
  closes (us ++ [u]) = (closes us + if decide (u = CloseCallback) then 1 else 0)%nat.
Proof. unfold closes. rewrite filter_app, length_app, filter_cons. by case_decide. Qed.

(** A connection whose close callback is set has called it once it is closed,
    and only then. *)
Definition closed_once w : Prop :=
  tcpCloseCallback_ (callbacks w) = true ∧
  closes (upcalls w) = if decide (state_ w = kDisconnected) then 1%nat else 0%nat.

(** Code that neither closes the connection nor calls the callback. *)
Definition uncalled (cbs : CallbacksSet) (n : nat) w : Prop :=
  callbacks w = cbs ∧ closes (upcalls w) = n ∧ (state_ w = kDisconnected → n = 1%nat).

Lemma uncalled_stable cbs n : stable False (uncalled cbs n).
Proof.
  split; try (intros ? ? (Hcb & Hn & Hst); by split_and!).
  - intros s w Hs (Hcb & Hn & Hst). by split_and!.
  - by intros f w _ Hw.
  - intros u w Hu (Hcb & Hn & Hst). split_and!; [done| |done]. cbn. rewrite closes_snoc.
    case_decide; [by destruct (Hu ltac:(done))|lia].
Qed.

Lemma closed_uncalled w : closed_once w → uncalled (callbacks w) (closes (upcalls w)) w.
Proof. intros [Hcb Hn]. split_and!; [done|done|]. intros Hst. by rewrite Hn, decide_True. Qed.

(** [handleClose] calls it. *)
Lemma handleClose_calls w :
  tcpCloseCallback_ (callbacks w) = true → closes (upcalls w) = 0%nat →
  wlp handleClose (λ _ w', callbacks w' = callbacks w ∧ closes (upcalls w') = 1%nat) w.
Proof.
  intros Hcb Hn. unfold handleClose, assertInLoopThread, setState. wlp_run.
  set (J := λ n w', callbacks w' = callbacks w ∧ closes (upcalls w') = n).
  assert (∀ n, stable False (J n)) as HJ.
  { intros n. split; try done. intros u w' Hu [? Hc]. split; [done|]. cbn. rewrite closes_snoc.
    case_decide; [by destruct (Hu ltac:(done))|lia]. }
  wlp_apply (keep_request False (J 0%nat) (HJ _)); [by split|]. intros [] w1 Hw1. wlp_run.
  wlp_apply (keep_connection_callback False (J 0%nat) (HJ _)); [done|]. intros [] w2 [Hc2 Hn2].
  unfold call. wlp_run. rewrite Hc2, Hcb. cbn [when]. wlp_run.
  apply (wlp_for_each _ (J 1%nat)).
  - split; [done|]. cbn. by rewrite closes_snoc, Hn2.
  - intros c w' _ Hw'. by apply (keep_user_call False (J 1%nat) (HJ _)).
Qed.
End frame.

Section destroyed.
Context {P CB : Type} `{!Poller P CB, !PollerSpec P CB, !Bound handler CB, !BoundSpec handler CB,
  !ConnEnv P, !ConnEnvSpec P}.
Abbreviation W := (ConnW P).
Implicit Types w : W.

(** ** Closed and destroyed connections *)

(** User code finds the connection closed. *)
Definition untouched w w' : Prop :=
  poller w' = poller w ∧ channel w' = channel w ∧ state_ w' = state_ w.

Lemma user_call_closed c w :
  state_ w = kDisconnected → wlp (run_user_call c) (λ _, untouched w) w.
Proof.
  intros Hst. destruct c as [data| |len]; cbn [run_user_call].
  - unfold send. wlp_run. rewrite Hst. cbn. by apply wlp_ret.
  - unfold shutdown. wlp_run. rewrite Hst. cbn. by apply wlp_ret.
  - unfold on_input. by wlp_run.
Qed.

Lemma call_closed has u w :
  state_ w = kDisconnected → wlp (call has u) (λ _, untouched w) w.
Proof.
  intros Hst. unfold call. wlp_run. wlp_step; [|done]. wlp_run.
  apply wlp_for_each; [done|]. intros c w' _ (Hp & Hc & Hs).
  wlp_apply user_call_closed; [congruence|]. intros [] w'' (? & ? & ?).
  unfold untouched. split_and!; congruence.
Qed.

(** [connectDestroyed] has run. *)
Definition destroyed w : Prop := state_ w = kDisconnected ∧ unregistered w.

Lemma destroyed_untouched w w' : untouched w w' → destroyed w → destroyed w'.
Proof.
  intros (Hp & Hc & Hs) [Hst (c & Hch & Hi)]. split; [congruence|]. exists c.
  unfold conn_channel in *. by rewrite Hp, Hc.
Qed.

Lemma destroyed_user_call c w : destroyed w → wlp (run_user_call c) (λ _, destroyed) w.
Proof.
  intros Hd. wlp_apply user_call_closed; [apply Hd|]. intros [] w' Hu.
  by eapply destroyed_untouched.
Qed.

(** The functors that a closed connection still has to run. *)
Lemma closed_functor f q w :
  conn_inv w → in_loop w = true → pending w = f :: q → functor_room f w →
  state_ w = kDisconnected → destroyed w ∨ f = ConnectDestroyed →
  wlp (run_functor f) (λ _, destroyed) (set_pending q w).
Proof.
  intros Hinv Hin Hq Hroom Hst Hd.
  assert (destroyed w → destroyed (set_pending q w)) as Hpop by (by apply destroyed_untouched).
  unfold run_functor. destruct f as [d| | | |]; try (destruct Hd as [Hd|?]; [|done]).
  - unfold sendInLoop, assertInLoopThread. wlp_run. rewrite decide_True by done.
    apply wlp_ret. auto.
  - unfold shutdownInLoop, assertInLoopThread, channel_isWriting. wlp_run.
    wlp_step; [|auto]. wlp_step. apply Hpop in Hd. by apply (destroyed_untouched (set_pending q w)).
  - destruct (co_pending _ (ci_core _ Hinv)) as [?|Hno]; [congruence|].
    rewrite Hq in Hno. set_solver.
  - intros [] w' Hrun.
    assert (conn_inv (set_pending q w)) as Hinv'
      by (eapply pop_functor_inv; [done|congruence|done|done]).
    pose proof (wp_connectDestroyed (set_pending q w) Hinv' Hst Hin) as Hwp.
    unfold wp in Hwp. rewrite Hrun in Hwp. destruct Hwp as (_ & _ & ? & _ & ?). by split.
  - wlp_apply call_closed; [done|]. intros [] w' Hu. eapply destroyed_untouched; [done|auto].
Qed.

(** ** The close callback is called once *)

Lemma closes_member us : closes us ≠ 0%nat → CloseCallback ∈ us.
Proof.
  unfold closes. intros Hne. destruct (filter _ us) as [|u l] eqn:Hf; [done|].
  assert (u ∈ filter (λ u, u = CloseCallback) us) as Hu by (rewrite Hf; apply list_elem_of_here).
  by apply list_elem_of_filter in Hu as [-> Hu].
Qed.

Lemma closed_once_intro w :
  conn_inv w → tcpCloseCallback_ (callbacks w) = true →
  (state_ w = kDisconnected → closes (upcalls w) = 1%nat) → closed_once w.
Proof.
  intros Hinv Hcb Hst. split; [done|]. case_decide as Hd; [auto|].
  destruct (decide (closes (upcalls w) = 0%nat)) as [?|Hne]; [done|].
  by apply closes_member, (co_closed _ (ci_core _ Hinv)) in Hne.
Qed.

Lemma uncalled_closed cbs n w :
  conn_inv w → tcpCloseCallback_ cbs = true → uncalled cbs n w → closed_once w.
Proof.
  intros Hinv Hcb (Hc & Hn & Hst). apply closed_once_intro; [done|by rewrite Hc|].
  intros Hd. by rewrite Hn; apply Hst.
Qed.

Lemma handlers_close_once : handlers_keep closed_once.
Proof.
  intros h w Hinv [_ Hok] Hw. pose proof (closed_uncalled w Hw) as Hun. destruct Hw as [Hcb Hn].
  pose proof (uncalled_stable (P:=P) (callbacks w) (closes (upcalls w))) as HJ.
  assert (∀ m, wlp m (λ _, uncalled (callbacks w) (closes (upcalls w))) w →
    wlp m (λ (_ : unit) w', conn_inv w' → closed_once w') w) as Hquiet.
  { intros m Hm. eapply wlp_mono; [exact Hm|]. intros [] w' Hw' Hinv'. by eapply uncalled_closed. }
  assert (∀ w1, callbacks w1 = callbacks w → closes (upcalls w1) = 0%nat →
    wlp handleClose (λ _ w', conn_inv w' → closed_once w') w1) as Hclose.
  { intros w1 Hcb1 Hn1. wlp_apply handleClose_calls; [congruence|done|].
    intros [] w' [Hcb' Hn'] Hinv'. by apply closed_once_intro; [|congruence|]. }
  destruct h; cbn [run_handler].
  - assert (state_ w ≠ kDisconnected) as Hst by (destruct Hok as [[?|?] _]; congruence).
    rewrite decide_False in Hn by done. unfold handleRead, on_input. wlp_run. destruct a as [n e].
    wlp_run. wlp_step.
    + set (w1 := note_socket _ _). eapply wlp_mono.
      * apply (keep_call False _ HJ messageCallback_ MessageCallback w1); [done|].
        destruct Hun as (? & ? & ?). by split_and!.
      * intros [] w' Hw' Hinv'. by eapply uncalled_closed.
    + wlp_step; [by apply Hclose|]. apply wlp_ret. intros Hinv'. apply closed_once_intro; done.
  - apply Hquiet. by apply (keep_handleWrite False _ HJ).
  - apply Hclose; [done|]. rewrite Hn. destruct Hok as [-> | ->]; done.
  - apply Hquiet. by apply wlp_ret.
Qed.

(** Functors and user code do not close a connection. *)
Definition close_kept w w' : Prop :=
  closes (upcalls w') = closes (upcalls w) ∧ (conn_inv w' → closed_once w').

Lemma uncalled_kept w w' :
  closed_once w → uncalled (callbacks w) (closes (upcalls w)) w' → close_kept w w'.
Proof.
  intros [Hcb _] Hw'. split; [apply Hw'|]. intros Hinv'. by eapply uncalled_closed.
Qed.

Lemma functor_closes f q w :
  conn_inv w → pending w = f :: q → closed_once w →
  wlp (run_functor f) (λ _, close_kept w) (set_pending q w).
Proof.
  intros Hinv Hq Hw. apply (wlp_mono _ (λ _, uncalled (callbacks w) (closes (upcalls w))));
    [|intros [] w' ?; by apply uncalled_kept].
  apply (keep_functor False _ (uncalled_stable _ _)).
  - intros -> Hst. pose proof (co_destroy _ (ci_core _ Hinv)) as Hd. cbn in Hst.
    rewrite Hd in Hst; [done|]. rewrite Hq. apply list_elem_of_here.
  - destruct (closed_uncalled w Hw) as (? & ? & ?). by split_and!.
Qed.

Lemma user_call_closes c w : closed_once w → wlp (run_user_call c) (λ _, close_kept w) w.
Proof.
  intros Hw. apply (wlp_mono _ (λ _, uncalled (callbacks w) (closes (upcalls w))));
    [|intros [] w' ?; by apply uncalled_kept].
  apply (keep_user_call False _ (uncalled_stable _ _)). by apply closed_uncalled.
Qed.

Lemma closed_once_states w w' :
  closed_once w → closed_once w' → closes (upcalls w') = closes (upcalls w) →
  state_ w' = kDisconnected ↔ state_ w = kDisconnected.
Proof. intros [_ Hn] [_ Hn']. rewrite Hn, Hn'. by repeat case_decide. Qed.

Lemma closed_once_same w w' :
  upcalls w' = upcalls w → callbacks w' = callbacks w → state_ w' = state_ w →
  closed_once w → closed_once w'.
Proof. unfold closed_once. by intros -> -> ->. Qed.

(** ** Changes of the poller elsewhere *)

Lemma repoller_inv p p' w :
  conn_inv (set_poller p w) → attached p' →
  channels_of p' !! channel w = channels_of p !! channel w → conn_inv (set_poller p' w).
Proof.
  intros [[] Hch ?] Hatt Heq. split; [by split| |done].
  destruct Hch as (c & Hc & Hrest). exists c. split; [|done].
  unfold conn_channel in *. cbn in *. by rewrite Heq.
Qed.

(** The poller has stored returned events in the channel. *)
Lemma repoller_revents p p' r c w :
  conn_inv (set_poller p w) → attached p' → channels_of p !! channel w = Some c →
  channels_of p' !! channel w = Some (set_revents r c) → conn_inv (set_poller p' w).
Proof.
  intros [[] Hch ?] Hatt Hc Heq. split; [by split| |done].
  destruct Hch as (c' & Hc' & Hrest). unfold conn_channel in Hc'. cbn in Hc'.
  assert (c' = c) as -> by congruence. exists (set_revents r c). split; [exact Heq|exact Hrest].
Qed.
End destroyed.
