(* ===== verification/TcpConnectionProps.v ===== *)
(** * The properties of a connection (src/net/TcpConnection.cc)

    What the invariant of TcpConnectionSpec.v means for the users of a
    connection, with a concrete kernel and an echo server's callbacks in which
    every statement is run. *)
From S2P Require Import Prelude Posix Buffer Channel EPollPoller TcpConnection TcpConnectionSpec.

Section lemmas.
Context {P CB : Type} `{!Poller P CB, !PollerSpec P CB, !Bound handler CB, !BoundSpec handler CB,
  !ConnEnv P, !ConnEnvSpec P}.
Abbreviation W := (ConnW P).
Implicit Types w : W.

(** A connection as the server hands it to its loop, and what it becomes. *)
Definition started w : Prop :=
  ∃ loop chan fd cbs p,
    attached (with_channels (<[chan := connection_channel loop fd]> (channels_of p)) p) ∧
    loop ≠ 0 ∧ new_TcpConnection loop chan fd cbs p = Ok w.

Definition conn_reachable w : Prop := ∃ w0, started w0 ∧ rtc conn_step w0 w.

Lemma conn_reachable_inv w : conn_reachable w → conn_inv w.
Proof.
  intros (w0 & (loop & chan & fd & cbs & p & Hatt & Hloop & Hnew) & Hsteps).
  eapply conn_steps_inv; [by eapply new_TcpConnection_inv|done].
Qed.

Lemma open_watched w :
  conn_inv w → state_ w = kConnected ∨ state_ w = kDisconnecting →
  watched (poller w) (sockfd w) = Some (mask_of (state_ w) (out w), channel w).
Proof.
  intros [Hcore (c & Hc & Hm & Hfd & _ & _ & _ & _ & _ & Hidx) _] Hst.
  assert (mask_of (state_ w) (out w) ≠ kNoneEvent) as Hne
    by (unfold mask_of; destruct Hst as [-> | ->]; by destruct (out w)).
  rewrite <-Hm, <-Hfd. apply synced_watched; [|done|by apply Hidx|by rewrite Hm].
  apply attached_synced, Hcore.
Qed.

(** ** What [send] does in the io loop *)

Record sent (tr : list sock_event) (rest data : bytes) (fs : list functor) w w' : Prop := {
  se_socket : socket_events w' = socket_events w ++ tr;
  se_out : out w' = out w ++ rest;
  se_accepted : accepted w' = accepted w ++ data;
  se_pending : pending w' = pending w ++ fs;
  se_state : state_ w' = state_ w;
  se_channel : channel_is (mask_of (state_ w) (out w ++ rest)) w';
}.

Definition send_outcome (data : bytes) w w' : Prop :=
  match send_spec data w with
  | Some (tr, rest, fs) => sent tr rest data fs w w'
  | None => w' = w
  end.

Lemma wp_sendInLoop_effect data w :
  conn_inv w → in_loop w = true → state_ w = kConnected ∨ state_ w = kDisconnecting →
  out_size w + zlen data ≤ max_size →
  wp (sendInLoop data) (λ _ w', send_outcome data w w') w.
Proof.
  intros Hinv Hin Hopen Hsize. apply wp_sendInLoop_cases; [done..|]. unfold send_outcome.
  destruct (send_spec data w) as [[[tr rest] fs]|] eqn:Hspec; [|done]. intros n Hr.
  destruct (send_spec_parts data w tr rest fs Hinv Hopen Hspec) as (taken & Hdata & _).
  apply wp_accept_rest; [done..| |].
  { rewrite Hdata, length_app in Hsize. lia. }
  by intros p b w' Hatt' Hwf' Hout' _ Hch' _.
Qed.

(** ** Draining the output buffer *)

(** The poller reports that the socket is writable. *)
Lemma wp_dispatch_writable w Q :
  conn_inv w →
  (∀ w1, conn_inv w1 → in_loop w1 = true → out w1 = out w → state_ w1 = state_ w →
     accepted w1 = accepted w → socket_events w1 = socket_events w →
     wp handleWrite Q w1) →
  wp (run_conn_event (Dispatch EPOLLOUT)) Q w.
Proof.
  intros Hinv HQ. cbn [run_conn_event]. unfold on_poller.
  pose proof (ci_channel _ Hinv) as (c & Hc & _).
  do 5 wp_step. eapply wp_deref; [exact Hc|]. do 3 wp_step.
  destruct (set_revents_inv EPOLLOUT c (set_in_loop true w)) as [Hinv1 Hr1];
    [by apply set_in_loop_inv|exact Hc|].
  set (w1 := set_poller _ (set_in_loop true w)) in *.
  unfold handleEvent, handleEventWithGuard.
  wp_step. eapply (wp_on_revents _ _ HandleClose EPOLLOUT); [done..| |done|intros _].
  { intros m Hm c' Hc'. by apply (channel_is_callbacks _ _ _ Hm) in Hc' as (_ & _ & ? & _). }
  wp_step. eapply (wp_on_revents _ _ HandleError EPOLLOUT); [done..| |done|intros _].
  { intros m Hm c' Hc'. by apply (channel_is_callbacks _ _ _ Hm) in Hc' as (_ & _ & _ & ?). }
  wp_step. eapply (wp_on_revents _ _ HandleRead EPOLLOUT); [done..| |done|intros _].
  { intros m Hm c' Hc'. by apply (channel_is_callbacks _ _ _ Hm) in Hc' as (? & _). }
  eapply (wp_on_revents _ _ HandleWrite EPOLLOUT); [done..| | |done].
  { intros m Hm c' Hc'. by apply (channel_is_callbacks _ _ _ Hm) in Hc' as (_ & ? & _). }
  intros _. by apply HQ.
Qed.

(** A kernel that always takes something. *)
Definition writes_progress : Prop :=
  ∀ tr data, SockShutdown ∉ tr → data ≠ [] →
    ∃ n, sock_write (P:=P) tr data = IoOk n ∧ 0 < n.

Lemma wp_drain w :
  writes_progress → conn_inv w → out w ≠ [] →
  state_ w = kConnected ∨ state_ w = kDisconnecting →
  wp (run_conn_event (Dispatch EPOLLOUT)) (λ _ w', conn_inv w' ∧
    ∃ n, 0 < n ∧ written (drop (Z.to_nat n) (out w)) w w') w.
Proof.
  intros Hprog Hinv Hne Hst. apply wp_dispatch_writable; [done..|].
  intros w1 Hinv1 Hin1 Hout1 Hst1 Hacc1 Hse1.
  assert (SockShutdown ∉ socket_events w) as Hno
    by (apply shutdown_in_writing; [done|destruct Hst; congruence|done]).
  destruct (Hprog _ _ Hno Hne) as (n & Hn & Hpos).
  wp_apply (wp_handleWrite w1); [done..|]. intros [] w' (Hinv' & Hef & Hw').
  split; [done|]. exists n. split; [done|].
  destruct (Hw' n) as [Ho Hs Ha Hd]; [by rewrite Hout1|by rewrite Hst1|by rewrite Hout1, Hse1|done|].
  rewrite Hout1 in *. split; [done|congruence|congruence|]. intros Hnil ?. apply Hd; congruence.
Qed.

Lemma drains w :
  writes_progress → conn_inv w →
  state_ w = kConnected ∨ state_ w = kDisconnecting → out w ≠ [] →
  ∃ k w', (k ≤ length (out w))%nat ∧
    for_each (replicate k (Dispatch EPOLLOUT)) run_conn_event w = Ok (tt, w') ∧
    out w' = [] ∧ wire (socket_events w') = accepted w ∧
    watched (poller w') (sockfd w') = Some (kReadEvent, channel w') ∧
    (state_ w = kDisconnecting → SockShutdown ∈ socket_events w').
Proof.
  intros Hprog Hinv Hst Hne.
  remember (length (out w)) as len eqn:Hlen.
  revert w Hinv Hst Hne Hlen. induction len as [len IH] using lt_wf_ind.
  intros w Hinv Hst Hne Hlen.
  pose proof (wp_drain w Hprog Hinv Hne Hst) as Hwp.
  apply wp_run in Hwp as ([] & w1 & Hrun & Hinv1 & n & Hn & [Hout Hst1 Hacc Hshut]).
  assert (length (out w) ≠ 0)%nat by (by destruct (out w)).
  destruct (decide (out w1 = [])) as [Hnil|Hne1].
  - exists 1%nat, w1. split_and!; [lia| |done| | |].
    + cbn [replicate for_each]. unfold mbind, M_bind. by rewrite Hrun.
    + rewrite <-Hacc, <-(co_stream _ (ci_core _ Hinv1)), Hnil. by rewrite app_nil_r.
    + rewrite open_watched, Hnil, Hst1 by (done || by rewrite Hst1).
      by destruct Hst as [-> | ->].
    + apply Hshut. congruence.
  - destruct (IH (length (out w1))) with (w := w1) as (k & w2 & Hk & Hrun2 & ? & Hw2 & ? & Hs2);
      [rewrite Hout, length_drop; lia|done|by rewrite Hst1|done|done|].
    exists (S k), w2. split_and!; [|..|done|congruence|done|rewrite <-Hst1; exact Hs2].
    + rewrite Hout, length_drop in Hk. lia.
    + cbn [replicate for_each]. unfold mbind at 1, M_bind at 1. by rewrite Hrun.
Qed.
End lemmas.

(** ** A concrete connection

    The kernel of EPollPoller.v; the socket takes at most four bytes per
    [write] and delivers "hello" and the end of the stream; the message
    callback sends back what has arrived. *)
Abbreviation World := (ConnW (PollWorld kernel handler)).

Definition hello : bytes := [x68; x65; x6c; x6c; x6f]%byte.
Definition is_read (e : sock_event) : bool := match e with SockRead _ => true | _ => false end.

#[export] Instance demo_bound : Bound handler handler := bound_alone handler.
#[export] Instance demo_bound_spec : BoundSpec handler handler := bound_alone_spec handler.

#[export] Instance demo_env : ConnEnv (PollWorld kernel handler) := {
  sock_write tr data :=
    if bool_decide (SockShutdown ∈ tr) then IoErr EPIPE else IoOk (zlen data `min` 4);
  sock_readv tr cap := IoOk (if existsb is_read tr then [] else take (Z.to_nat cap) hello);
  user u w :=
    let data := contents (inputBuffer_ w) in
    match u with
    | MessageCallback => [Retrieve (zlen data); Send data]
    | _ => []
    end;
}.

#[export] Instance demo_env_spec : ConnEnvSpec (PollWorld kernel handler).
Proof.
  split.
  - intros tr data n. cbn. case_bool_decide; [done|]. intros [= <-]. lia.
  - intros tr data Hin. cbn. by rewrite bool_decide_eq_true_2.
  - intros tr cap data Hcap [= <-]. destruct (existsb _ _); [simpl; lia|].
    rewrite length_take. lia.
  - intros u w Hsize. cbn. destruct u; simpl in *; try (split; [apply Forall_nil_2|simpl; lia]).
    split; [|simpl; lia]. apply Forall_cons_2; [simpl; lia|]. by apply Forall_singleton.
Qed.

Lemma demo_progress : writes_progress (P:=PollWorld kernel handler).
Proof.
  intros tr data Hno Hne. cbn. rewrite bool_decide_eq_false_2 by done.
  eexists. split; [done|]. destruct data; [done|simpl; lia].
Qed.

Definition all_callbacks : CallbacksSet := MkCallbacksSet true true true true.
Definition demo_poller : PollWorld kernel handler :=
  MkPollWorld ∅ ∅ (MkKernel ∅ {[ 5 ]}) [(0, 0)] [].
Definition demo_buffer : Buffer := MkBuffer (replicate 1032 x00%byte) 8 8.
Definition demo_conn : World :=
  match new_TcpConnection 1 100 5 all_callbacks demo_poller with
  | Ok w => w
  | Fault _ => MkConnW demo_poller 100 5 all_callbacks kConnecting demo_buffer demo_buffer
                 true [] [] [] [] []
  end.

Lemma demo_attached :
  attached (with_channels (<[100:=connection_channel 1 5]> (channels_of demo_poller)) demo_poller).
Proof.
  assert (∀ p c, (<[100:=connection_channel 1 5]> ∅ : gmap ptr (Channel handler)) !! p = Some c →
    p = 100 ∧ c = connection_channel 1 5) as Hch.
  { intros p c. rewrite lookup_insert_Some. by intros [[<- <-]|[_ ?%lookup_empty_Some]]. }
  split.
  - split; cbn; try (by intros ??? ?%lookup_empty_Some || by intros ?? ?%lookup_empty_Some);
      intros p c [-> ->]%Hch; auto; done.
  - by intros p c [-> ->]%Hch.
  - by intros p q c c' [-> ->]%Hch [-> ->]%Hch.
  - by intros p c [-> ->]%Hch.
Qed.

Lemma demo_started : started demo_conn.
Proof.
  exists 1, 100, 5, all_callbacks, demo_poller. split_and!; [apply demo_attached|done|reflexivity].
Qed.

(** Whether an event may happen, as a program. *)
Definition event_okb (ev : conn_event) (w : World) : bool :=
  match ev with
  | Dispatch r =>
      match interest (epollfd_ (poller w)) !! sockfd w with
      | Some (m, p) => negb (m =? kNoneEvent) && (p =? channel w)
      | None => false
      end &&
      implb (has EPOLLHUP r && negb (has EPOLLIN r))
        (negb (has (Z.lor EPOLLIN (Z.lor EPOLLPRI EPOLLRDHUP)) r)) &&
      (out_size w + zlen (buffer_ (inputBuffer_ w)) + extrabuf_size <=? max_size)
  | RunFunctor =>
      match pending w with
      | [] => true
      | SendInLoop d :: _ => out_size w + zlen d <=? max_size
      | _ :: _ => true
      end
  | CallInLoop c | CallFromOther c =>
      match c with Retrieve len => 0 <=? len | _ => true end &&
      (out_size w + call_cost c <=? max_size)
  | QueueDestroy => bool_decide (CloseCallback ∈ upcalls w)
  end.

Lemma event_okb_ok ev w : event_okb ev w = true → event_ok ev w.
Proof.
  unfold event_okb, event_ok, is_watched, revents_ok. cbn [watched EPollPoller_spec].
  destruct ev as [r| |c|c|]; intros H; repeat (apply andb_true_iff in H as [H ?]).
  - split_and!; [| |by apply Z.leb_le].
    + destruct (_ !! _) as [[m p]|]; [|done]. exists m.
      apply andb_true_iff in H as [Hm Hp%Z.eqb_eq]. rewrite Hp. split; [|done].
      intros ->. done.
    + intros Hhup. rewrite Hhup in H1. cbn in H1. by apply negb_true_iff.
  - destruct (pending w) as [|[] ?]; try done. by apply Z.leb_le.
  - split; [|by apply Z.leb_le]. destruct c; cbn in *; try done. by apply Z.leb_le.
  - split; [|by apply Z.leb_le]. destruct c; cbn in *; try done. by apply Z.leb_le.
  - by apply bool_decide_eq_true in H.
Qed.

Definition demo_exec (w : World) (ev : conn_event) : World :=
  match run_conn_event ev w with Ok (_, w') => w' | Fault _ => w end.
Fixpoint events_okb (evs : list conn_event) (w : World) : bool :=
  match evs with
  | [] => true
  | ev :: evs' => event_okb ev w && events_okb evs' (demo_exec w ev)
  end.

Lemma demo_steps evs w :
  conn_inv w → events_okb evs w = true → rtc conn_step w (foldl demo_exec w evs).
Proof.
  revert w. induction evs as [|ev evs IH]; intros w Hinv Hok; cbn [foldl]; [done|].
  cbn [events_okb] in Hok. apply andb_true_iff in Hok as [Hev%event_okb_ok Hok].
  pose proof (wp_run_conn_event ev w Hinv Hev) as Hwp.
  apply wp_run in Hwp as ([] & w' & Hrun & Hinv' & _).
  assert (demo_exec w ev = w') as Heq by (unfold demo_exec; by rewrite Hrun).
  rewrite Heq in *. eapply rtc_l; [|by apply IH]. by exists ev.
Qed.

(** It is established, echoes, drains its output, tells the user, is shut down
    by another thread, sees the end of the stream and is destroyed. *)
Definition demo_events : list conn_event :=
  [RunFunctor; Dispatch EPOLLIN; Dispatch EPOLLOUT; RunFunctor; CallFromOther Shutdown;
   RunFunctor; Dispatch EPOLLIN; QueueDestroy; RunFunctor].
Definition demo_state (n : nat) : World := foldl demo_exec demo_conn (take n demo_events).

Lemma demo_events_okb : events_okb demo_events demo_conn = true.
Proof. vm_compute. reflexivity. Qed.

Lemma events_okb_take n evs w : events_okb evs w = true → events_okb (take n evs) w = true.
Proof.
  revert n w. induction evs as [|ev evs IH]; intros [|n] w; cbn; try done.
  intros [-> ?]%andb_true_iff. simpl. auto.
Qed.

Lemma demo_reachable n : conn_reachable (demo_state n).
Proof.
  exists demo_conn. split; [apply demo_started|]. apply demo_steps.
  - destruct demo_started as (loop & chan & fd & cbs & p & ? & ? & ?).
    by eapply new_TcpConnection_inv.
  - apply events_okb_take, demo_events_okb.
Qed.

Example demo_wire : wire (socket_events (demo_state 3)) = hello.
Proof. vm_compute. reflexivity. Qed.
Example demo_buffered : out (demo_state 2) = [x6f]%byte.
Proof. vm_compute. reflexivity. Qed.
Example demo_upcalls :
  upcalls (demo_state 10) =
    [ConnectionCallback true; MessageCallback; WriteCompleteCallback; ConnectionCallback false;
     CloseCallback].
Proof. vm_compute. reflexivity. Qed.

(** ** Properties *)

Section properties.
Context {P CB : Type} `{!Poller P CB, !PollerSpec P CB, !Bound handler CB, !BoundSpec handler CB,
  !ConnEnv P, !ConnEnvSpec P}.
Implicit Types w : ConnW P.

(** C2 (invariant). However reports of the poller, functors, calls of the
    loop thread and calls of other threads follow each other from the moment
    the server has created the connection, every one of them returns
    normally; the poller watches an open connection's socket for reading, and
    for writing exactly while there is output to write; it does not report
    a closed one, and [connectDestroyed] makes it forget the socket. *)
Theorem conn_safe w :
  conn_reachable w →
  (∀ ev, event_ok ev w → ∃ w', run_conn_event ev w = Ok (tt, w')) ∧
  (state_ w = kConnected ∨ state_ w = kDisconnecting →
     watched (poller w) (sockfd w) = Some (mask_of (state_ w) (out w), channel w)) ∧
  (state_ w = kDisconnected → ¬ is_watched w ∧
     (in_loop w = true → ∃ w', connectDestroyed w = Ok (tt, w') ∧
        state_ w' = kDisconnected ∧ watched (poller w') (sockfd w') = None)).
Proof.
  intros Hinv%conn_reachable_inv. split_and!; [|by apply open_watched|].
  - intros ev Hok. pose proof (wp_run_conn_event ev w Hinv Hok) as Hwp.
    apply wp_run in Hwp as ([] & w' & Hrun & _). eauto.
  - intros Hd. split; [intros Hw; destruct (watched_open _ Hinv Hw); congruence|].
    intros Hin. pose proof (wp_connectDestroyed w Hinv Hd Hin) as Hwp.
    apply wp_run in Hwp as ([] & w' & ? & _ & _ & ? & ? & _). eauto.
Qed.

(** C1 (safety). No byte is lost, repeated or reordered in a connection:
    the bytes the kernel has taken, followed by the output buffer, are the
    bytes the connection has accepted, and the bytes the kernel has delivered
    are those the user has retrieved, followed by the input buffer. *)
Theorem byte_streams w :
  conn_reachable w →
  wire (socket_events w) ++ contents (outputBuffer_ w) = accepted w ∧
  received (socket_events w) = retrieved w ++ contents (inputBuffer_ w).
Proof. intros [Hcore _ _]%conn_reachable_inv. destruct Hcore. auto. Qed.

(** C30 (functional). [send] on an open connection: in another thread it
    queues a copy of the data; in the loop's thread it writes directly only
    when there is no output waiting, buffers exactly what the kernel did not
    take, queues the write-complete callback when nothing is left, buffers
    everything on EAGAIN and other errors, and drops the data only when the
    kernel says that the connection is gone (EPIPE, ECONNRESET). Otherwise
    it does nothing. *)
Theorem send_branches data w :
  conn_reachable w → out_size w + zlen data ≤ max_size →
  ∃ w', send data w = Ok (tt, w') ∧
    if negb (connected w) then w' = w
    else if in_loop w then send_outcome data w w'
    else w' = push_functor (SendInLoop data) w.
Proof.
  intros Hinv%conn_reachable_inv Hsize.
  assert (wp (send data) (λ _ w', if negb (connected w) then w' = w
    else if in_loop w then send_outcome data w w'
    else w' = push_functor (SendInLoop data) w) w) as Hwp.
  { unfold send, connected, queueInLoop. wp_step. wp_step.
    destruct (bool_decide (state_ w = kConnected)) eqn:Hst; [|by wp_step].
    apply bool_decide_eq_true in Hst. cbn [negb]. wp_step. wp_step.
    destruct (in_loop w) eqn:Hin; [|by wp_step]. apply wp_sendInLoop_effect; auto. }
  apply wp_run in Hwp as ([] & w' & ? & ?). eauto.
Qed.

(** C21 (liveness). If the kernel takes at least one byte at every write,
    finitely many reports of writability, at most one per byte, empty the
    output buffer of an open connection: everything accepted is then on the
    wire, the poller no longer watches for writability, and a requested
    shutdown of the sending direction has been carried out. *)
Theorem output_drains w :
  writes_progress (P:=P) → conn_reachable w →
  state_ w = kConnected ∨ state_ w = kDisconnecting → out w ≠ [] →
  ∃ k w', (k ≤ length (out w))%nat ∧
    for_each (replicate k (Dispatch EPOLLOUT)) run_conn_event w = Ok (tt, w') ∧
    out w' = [] ∧ wire (socket_events w') = accepted w ∧
    watched (poller w') (sockfd w') = Some (kReadEvent, channel w') ∧
    (state_ w = kDisconnecting → SockShutdown ∈ socket_events w').
Proof. intros Hprog Hinv%conn_reachable_inv. by apply drains. Qed.

(** C17 (safety). The order of a graceful close: the sending direction is
    never shut down while the connection is still connected; when it is, all
    accepted bytes have been taken by the kernel, unless the connection has
    been lost; and the request is not forgotten: it is queued for the loop,
    has been carried out, or waits for output whose writability is being
    watched. *)
Theorem shutdown_after_output w :
  conn_reachable w →
  (SockShutdown ∈ socket_events w → state_ w = kDisconnected ∨
     state_ w = kDisconnecting ∧ wire (socket_events w) = accepted w) ∧
  (state_ w = kDisconnecting →
     ShutdownInLoop ∈ pending w ∨ SockShutdown ∈ socket_events w ∨
     contents (outputBuffer_ w) ≠ [] ∧
     watched (poller w) (sockfd w) = Some (Z.lor kReadEvent kWriteEvent, channel w)).
Proof.
  intros Hinv%conn_reachable_inv. pose proof Hinv as [Hcore _ Hs]. split.
  - intros Hin. destruct (co_shut _ Hcore Hin) as [?|[? Hnil]]; [by left|right].
    split; [done|]. by rewrite <-(co_stream _ Hcore), Hnil, app_nil_r.
  - intros Hd. destruct (Hs Hd) as [?|[?|Hne]]; [auto..|right; right]. split; [done|].
    rewrite open_watched by auto. unfold mask_of. rewrite Hd. by destruct (out w).
Qed.

(** The user's connection callback is called exactly once
    with [connected()] true when the connection has been established, and
    exactly once with [connected()] false when it has been closed. *)
Lemma connection_callback_calls w :
  conn_reachable w → connectionCallback_ (callbacks w) = true →
  connection_calls (upcalls w) = expected_calls (state_ w) ∧
  (CloseCallback ∈ upcalls w → state_ w = kDisconnected).
Proof. intros [Hcore _ _]%conn_reachable_inv ?. destruct Hcore. auto. Qed.
End properties.

Lemma conn_safe_witness :
  (∀ ev, event_ok ev (demo_state 2) → ∃ w', run_conn_event ev (demo_state 2) = Ok (tt, w')) ∧
  (state_ (demo_state 2) = kConnected ∨ state_ (demo_state 2) = kDisconnecting →
     watched (poller (demo_state 2)) (sockfd (demo_state 2)) =
       Some (mask_of (state_ (demo_state 2)) (out (demo_state 2)), channel (demo_state 2))) ∧
  (state_ (demo_state 2) = kDisconnected → ¬ is_watched (demo_state 2) ∧
     (in_loop (demo_state 2) = true → ∃ w', connectDestroyed (demo_state 2) = Ok (tt, w') ∧
        state_ w' = kDisconnected ∧ watched (poller w') (sockfd w') = None)).
Proof. exact (conn_safe (demo_state 2) (demo_reachable 2)). Defined.

Lemma byte_streams_witness :
  wire (socket_events (demo_state 2)) ++ contents (outputBuffer_ (demo_state 2)) =
    accepted (demo_state 2) ∧
  received (socket_events (demo_state 2)) =
    retrieved (demo_state 2) ++ contents (inputBuffer_ (demo_state 2)).
Proof. exact (byte_streams (demo_state 2) (demo_reachable 2)). Defined.

Example demo_send_spec :
  send_spec hello (demo_state 1) = Some ([SockWrite [x68; x65; x6c; x6c]%byte], [x6f]%byte, []).
Proof. vm_compute. reflexivity. Qed.

Lemma send_branches_witness :
  ∃ w', send hello (demo_state 1) = Ok (tt, w') ∧
    if negb (connected (demo_state 1)) then w' = demo_state 1
    else if in_loop (demo_state 1) then send_outcome hello (demo_state 1) w'
    else w' = push_functor (SendInLoop hello) (demo_state 1).
Proof.
  assert (out_size (demo_state 1) + zlen hello ≤ max_size) as Hsize
    by (apply Z.leb_le; vm_compute; reflexivity).
  exact (send_branches hello (demo_state 1) (demo_reachable 1) Hsize).
Defined.

Lemma output_drains_witness :
  ∃ k w', (k ≤ length (out (demo_state 2)))%nat ∧
    for_each (replicate k (Dispatch EPOLLOUT)) run_conn_event (demo_state 2) = Ok (tt, w') ∧
    out w' = [] ∧ wire (socket_events w') = accepted (demo_state 2) ∧
    watched (poller w') (sockfd w') = Some (kReadEvent, channel w') ∧
    (state_ (demo_state 2) = kDisconnecting → SockShutdown ∈ socket_events w').
Proof.
  assert (state_ (demo_state 2) = kConnected) as Hst by (vm_compute; reflexivity).
  assert (out (demo_state 2) ≠ []) as Hne by (rewrite demo_buffered; discriminate).
  exact (output_drains (demo_state 2) demo_progress (demo_reachable 2) (or_introl Hst) Hne).
Defined.

Lemma shutdown_after_output_witness :
  (SockShutdown ∈ socket_events (demo_state 6) → state_ (demo_state 6) = kDisconnected ∨
     state_ (demo_state 6) = kDisconnecting ∧
     wire (socket_events (demo_state 6)) = accepted (demo_state 6)) ∧
  (state_ (demo_state 6) = kDisconnecting →
     ShutdownInLoop ∈ pending (demo_state 6) ∨ SockShutdown ∈ socket_events (demo_state 6) ∨
     contents (outputBuffer_ (demo_state 6)) ≠ [] ∧
     watched (poller (demo_state 6)) (sockfd (demo_state 6)) =
       Some (Z.lor kReadEvent kWriteEvent, channel (demo_state 6))).
Proof. exact (shutdown_after_output (demo_state 6) (demo_reachable 6)). Defined.

Lemma connection_callback_calls_witness :
  connection_calls (upcalls (demo_state 7)) = expected_calls (state_ (demo_state 7)) ∧
  (CloseCallback ∈ upcalls (demo_state 7) → state_ (demo_state 7) = kDisconnected).
Proof.
  assert (connectionCallback_ (callbacks (demo_state 7)) = true) as Hcb
    by (vm_compute; reflexivity).
  exact (connection_callback_calls (demo_state 7) (demo_reachable 7) Hcb).
Defined.

(** ** Another thread's calls *)

(** In another thread than the loop's, [send] is a test of the state and,
    later, the enqueueing of a functor bound to the raw [this]. *)
Lemma send_other_thread {P CB} `{!Poller P CB, !Bound handler CB, !ConnEnv P} message (w : ConnW P) :
  in_loop w = false →
  send message w =
    (up ← gets connected; if (up : bool) then queueInLoop (SendInLoop message) else mret tt) w.
Proof.
  intros Hin. unfold send, connected, gets, mbind, M_bind.
  destruct (bool_decide (state_ w = kConnected)); cbn; by rewrite ?Hin.
Qed.

(** ** A state that comes back *)

(** [shutdown] as well is a test of the state and, later, a write of it. *)
Lemma shutdown_other_thread {P CB} `{!Poller P CB, !Bound handler CB, !ConnEnv P} (w : ConnW P) :
  in_loop w = false →
  shutdown w =
    (up ← gets connected;
     if (up : bool) then setState kDisconnecting ;; queueInLoop ShutdownInLoop else mret tt) w.
Proof.
  intros Hin. unfold shutdown, connected, gets, mbind, M_bind.
  destruct (bool_decide (state_ w = kConnected)); cbn; by rewrite ?Hin.
Qed.

(** A functor of [send] waits when the peer closes the connection. *)
Definition closed_events : list conn_event := [CallFromOther (Send hello); Dispatch EPOLLHUP].
Definition closed_state : World := foldl demo_exec (demo_state 4) closed_events.

(** A thread that calls [shutdown] may pass the test of the state while
    the connection is open, and write [kDisconnecting] after [handleClose] has
    written [kDisconnected]. The functor of an earlier [send] then does not find
    the connection closed: it writes, and enables the channel again, the poller
    reports the peer's close a second time, and the close callback is called
    twice. *)
Definition late_shutdown : M World unit :=
  setState kDisconnecting ;; queueInLoop ShutdownInLoop ;; run_conn_event RunFunctor.

Definition after_run (m : M World unit) (w : World) : World :=
  match m w with Ok (_, w') => w' | Fault _ => w end.
Definition succeeds (m : M World unit) (w : World) : bool :=
  match m w with Ok _ => true | Fault _ => false end.
Lemma succeeds_run m w : succeeds m w = true → m w = Ok (tt, after_run m w).
Proof. unfold succeeds, after_run. by destruct (m w) as [[[] w']|]. Qed.

Lemma late_shutdown_reopens :
  conn_reachable (demo_state 4) ∧ connected (demo_state 4) = true ∧
  rtc conn_step (demo_state 4) closed_state ∧
  state_ closed_state = kDisconnected ∧ watched (poller closed_state) (sockfd closed_state) = None ∧
  ∃ w w', late_shutdown closed_state = Ok (tt, w) ∧
    watched (poller w) (sockfd w) = Some (kWriteEvent, channel w) ∧
    run_conn_event (Dispatch EPOLLHUP) w = Ok (tt, w') ∧
    upcalls w' = upcalls closed_state ++ [ConnectionCallback false; CloseCallback].
Proof.
  split_and!; [apply demo_reachable|vm_compute; reflexivity| |vm_compute; reflexivity..|].
  - apply demo_steps; [apply conn_reachable_inv, demo_reachable|]. vm_compute. reflexivity.
  - set (w := after_run late_shutdown closed_state).
    exists w, (after_run (run_conn_event (Dispatch EPOLLHUP)) w). unfold w. split_and!.
    + apply succeeds_run. vm_compute. reflexivity.
    + vm_compute. reflexivity.
    + apply succeeds_run. vm_compute. reflexivity.
    + vm_compute. reflexivity.
Qed.

(** [Channel::handleEventWithGuard] tests for readable data after it has called
    the close callback, and the guard of the close looks at EPOLLIN only. If a
    kernel reported a hang-up with EPOLLPRI and without EPOLLIN, the closed
    connection would go on to read: at the end of the stream it is closed a
    second time, the user and the server are told twice, and [disableAll] adds
    the closed channel to the epoll set again. *)
Definition urgent_state : World :=
  after_run (run_conn_event (Dispatch (Z.lor EPOLLHUP EPOLLPRI))) (demo_state 4).

Lemma hangup_with_urgent_closes_twice :
  conn_reachable (demo_state 4) ∧ is_watched (demo_state 4) ∧
  run_conn_event (Dispatch (Z.lor EPOLLHUP EPOLLPRI)) (demo_state 4) = Ok (tt, urgent_state) ∧
  upcalls urgent_state = upcalls (demo_state 4) ++
    [ConnectionCallback false; CloseCallback; ConnectionCallback false; CloseCallback] ∧
  watched (poller urgent_state) (sockfd urgent_state) = Some (kNoneEvent, channel urgent_state).
Proof.
  split_and!; [apply demo_reachable| | |vm_compute; reflexivity..].
  - exists kReadEvent. split; [done|]. vm_compute. reflexivity.
  - apply succeeds_run. vm_compute. reflexivity.
Qed.
