(* ===== verification/Echo.v ===== *)
(** * The echo and the discard server (examples/echo_server.cc,
      examples/discard_server.cc)

    The callbacks of the two example servers as the user code of
    TcpConnection.v, and what they do with the bytes of a connection. The
    kernel stays a parameter (class [SockKernel]). *)
From S2P Require Import Prelude Posix Buffer Channel EPollPoller TcpConnection.
From S2P Require Import TcpConnectionSpec TcpConnectionProps.

(** The kernel's answers, as in [ConnEnv]. *)
Class SockKernel := {
  kernel_write : list sock_event → bytes → io_result Z;
  kernel_readv : list sock_event → Z → io_result bytes;
}.

Definition peer_gone (errno : Z) : Prop := errno = EPIPE ∨ errno = ECONNRESET.

(** [write] takes at most what it is given, fails once the sending direction
    has been shut down, and when it has reported that the peer is gone, it
    does so for ever; [readv] fills at most the space it is given. *)
Class SockKernelSpec `{!SockKernel} : Prop := {
  kernel_write_ok tr data n : kernel_write tr data = IoOk n → 0 ≤ n ≤ zlen data;
  kernel_write_after_shutdown tr data :
    SockShutdown ∈ tr → kernel_write tr data = IoErr EPIPE;
  kernel_gone tr data errno tr' data' :
    kernel_write tr data = IoErr errno → peer_gone errno →
    ∃ errno', kernel_write (tr ++ tr') data' = IoErr errno' ∧ peer_gone errno';
  kernel_readv_ok tr : readv_ok (kernel_readv tr);
}.

(** ** The callbacks *)

(** The connection callback only logs; these are the bodies of the message
    callbacks, given the content of the buffer. *)
Definition echo_message (q : bytes) : list user_call := [Retrieve (zlen q); Send q].
Definition discard_message (q : bytes) : list user_call := [Retrieve (zlen q)].

Definition application (on_message : bytes → list user_call) `{!SockKernel} (P : Type) : ConnEnv P := {|
  sock_write := kernel_write;
  sock_readv := kernel_readv;
  user u w :=
    match u with MessageCallback => on_message (contents (inputBuffer_ w)) | _ => [] end;
|}.

(** All callbacks of the connections of a server are set: the connection and
    the message callback are the program's, the write-complete callback does
    nothing, and the close callback is [TcpServer]'s. *)
Definition app_callbacks : CallbacksSet := MkCallbacksSet true true true true.

Lemma application_spec on_message `{!SockKernel, !SockKernelSpec} P :
  (∀ q, Forall call_ok (on_message q) ∧ calls_cost (on_message q) ≤ zlen q) →
  @ConnEnvSpec P (application on_message P).
Proof.
  intros Hmsg. split; cbn; [apply kernel_write_ok|apply kernel_write_after_shutdown|
    apply kernel_readv_ok|].
  intros [] w Hroom; cbn in *; try (split; [apply Forall_nil_2|simpl; lia]).
  destruct (Hmsg (contents (inputBuffer_ w))).
  split; [done|]. unfold calls_cost in *. lia.
Qed.

Lemma echo_message_ok q : Forall call_ok (echo_message q) ∧ calls_cost (echo_message q) ≤ zlen q.
Proof. split; [|simpl; lia]. repeat constructor. simpl. lia. Qed.
Lemma discard_message_ok q :
  Forall call_ok (discard_message q) ∧ calls_cost (discard_message q) ≤ zlen q.
Proof. split; [|simpl; lia]. repeat constructor. simpl. lia. Qed.

(** ** A server whose callbacks are [on_message]

    [Acc] is what the server promises of the bytes it has accepted and
    retrieved; the sections below choose it for the two servers. *)
Section app.
Context {P CB : Type} `{!Poller P CB, !PollerSpec P CB, !Bound handler CB, !BoundSpec handler CB,
  !SockKernel, !SockKernelSpec}.
Abbreviation W := (ConnW P).
Implicit Types w : W.

(** A change of the poller. *)
Lemma wlp_channel_request (request : ptr → M P unit) w :
  wlp (channel_request request) (λ _ w', ∃ p, w' = set_poller p w) w.
Proof. unfold channel_request, on_poller. wlp_steps. by eexists. Qed.

(** Retrieving everything. *)
Lemma retrieve_all q b a b' :
  rep b q → retrieve (zlen q) b = Ok (a, b') → contents b' = [].
Proof.
  intros Hr Hrun. pose proof (wp_retrieve (zlen q) b q Hr ltac:(lia)) as Hwp. unfold wp in Hwp.
  rewrite Hrun in Hwp. destruct Hwp as [[_ Hb] _]. by rewrite Hb, Nat2Z.id, drop_all.
Qed.

Context (on_message : bytes → list user_call).
Context (on_message_ok : ∀ q, Forall call_ok (on_message q) ∧ calls_cost (on_message q) ≤ zlen q).

#[local] Instance app_env : ConnEnv P := application on_message P.
#[local] Instance app_env_spec : ConnEnvSpec P := application_spec _ P on_message_ok.

(** The server's connections: only the loop acts on them. *)
Definition app_event (ev : conn_event) : Prop :=
  match ev with CallInLoop _ | CallFromOther _ => False | _ => True end.
Definition app_step w w' : Prop :=
  ∃ ev, app_event ev ∧ event_ok ev w ∧ run_conn_event ev w = Ok (tt, w').
Definition app_reachable w : Prop :=
  ∃ w0, started w0 ∧ callbacks w0 = app_callbacks ∧ rtc app_step w0 w.

(** Functors other than those of [send] and [shutdown]. *)
Definition loop_functor (f : functor) : Prop :=
  match f with SendInLoop _ | ShutdownInLoop => False | _ => True end.

(** Between the events of the loop. *)
Record app_inv (Acc : W → Prop) w : Prop := {
  ai_callbacks : callbacks w = app_callbacks;
  ai_pending : Forall loop_functor (pending w);
  ai_state : state_ w ≠ kDisconnecting;
  ai_input : input w = [];
  ai_acc : Acc w;
}.

(** [Acc] holds at the start; it survives what happens to the rest of the
    connection, and a write; and the message callback keeps it. *)
Record acc_ok (Acc : W → Prop) : Prop := {
  acc_start w : accepted w = [] → retrieved w = [] → Acc w;
  acc_quiet w w' tr : Acc w → accepted w' = accepted w → retrieved w' = retrieved w →
    out w' = out w → socket_events w' = socket_events w ++ tr →
    (state_ w' ≠ kDisconnected → state_ w ≠ kDisconnected) → Acc w';
  acc_write w w' n data : Acc w → kernel_write (socket_events w) data = IoOk n →
    accepted w' = accepted w → retrieved w' = retrieved w → state_ w' = state_ w → Acc w';
  acc_message w : wf (inputBuffer_ w) → wf (outputBuffer_ w) →
    channel_is (mask_of (state_ w) (out w)) w → in_loop w = true →
    callbacks w = app_callbacks → Forall loop_functor (pending w) → state_ w = kConnected →
    Acc w → wlp (call messageCallback_ MessageCallback) (λ _, app_inv Acc) w;
}.

(** Nothing has been written. *)
Lemma acc_same Acc w w' :
  acc_ok Acc → Acc w → accepted w' = accepted w → retrieved w' = retrieved w → out w' = out w →
  socket_events w' = socket_events w → (state_ w' ≠ kDisconnected → state_ w ≠ kDisconnected) →
  Acc w'.
Proof. intros HA Hw ? ? ? ? ?. apply (acc_quiet _ HA w w' []); try done. by rewrite app_nil_r. Qed.

Context (Acc : W → Prop) (HA : acc_ok Acc).

(** A change of other fields, and of the state to one that is open or
    final. *)
Lemma app_same w w' :
  app_inv Acc w → callbacks w' = callbacks w → Forall loop_functor (pending w') →
  state_ w' = state_ w ∨ state_ w' = kDisconnected ∨
    state_ w = kConnecting ∧ state_ w' = kConnected →
  input w' = input w → accepted w' = accepted w → retrieved w' = retrieved w →
  out w' = out w → socket_events w' = socket_events w → app_inv Acc w'.
Proof.
  intros [? ? ? ? ?] ? Hp Hst ? ? ? ? ?. split; [congruence|done| |congruence|].
  - destruct Hst as [-> | [-> | [_ ->]]]; done.
  - eapply acc_same; [exact HA|done..|]. destruct Hst as [-> | [-> | [-> ->]]]; done.
Qed.

Ltac same H := apply (app_same _ _ H); try done; auto; apply H.

(** ** The events keep the invariant *)

Lemma wlp_call_silent has u w :
  u ≠ MessageCallback → wlp (call has u) (λ _ w', w' = w ∨ w' = note_upcall u w) w.
Proof.
  intros Hu. unfold call. wlp_run. apply wlp_when; intros _; [|by left].
  wlp_run.
  assert (user u (note_upcall u w) = []) as -> by (by destruct u). cbn [for_each]. wlp_step. by right.
Qed.

Lemma app_upcall has u w :
  u ≠ MessageCallback → app_inv Acc w → wlp (call has u) (λ _, app_inv Acc) w.
Proof.
  intros Hu Hinv. eapply wlp_mono; [by apply wlp_call_silent|].
  intros [] w' [-> | ->]; [done|same Hinv].
Qed.

Lemma app_queued f w : app_inv Acc w → loop_functor f → app_inv Acc (push_functor f w).
Proof.
  intros Hinv Hf. apply (app_same _ _ Hinv); try done; [|auto].
  cbn. apply Forall_app_2; [apply Hinv|]. by apply Forall_singleton.
Qed.

Lemma app_request (request : ptr → M P unit) w :
  app_inv Acc w → wlp (channel_request request) (λ _, app_inv Acc) w.
Proof.
  intros Hinv. eapply wlp_mono; [apply wlp_channel_request|].
  intros [] w' [p ->]. same Hinv.
Qed.

Lemma app_handleClose w : app_inv Acc w → wlp handleClose (λ _, app_inv Acc) w.
Proof.
  intros Hinv. unfold handleClose, assertInLoopThread, setState, connection_callback. wlp_run.
  eapply wlp_mono; [apply app_request; same Hinv|]. intros [] w1 Hinv1. wlp_run.
  eapply wlp_mono; [by apply app_upcall|]. intros [] w2 Hinv2. by apply app_upcall.
Qed.

Lemma app_handleWrite w : app_inv Acc w → wlp handleWrite (λ _, app_inv Acc) w.
Proof.
  intros Hinv. unfold handleWrite, assertInLoopThread, channel_isWriting. wlp_run.
  apply wlp_if; intros _; [|by wlp_step]. unfold on_output. wlp_run.
  assert (set_output v w = w) as -> by (unfold peek in *; case_bool_decide; [|done]; by destruct w, v; simplify_eq).
  destruct (sock_write _ _) as [n|errno] eqn:Hwr; [|by wlp_step].
  apply wlp_when; intros _; [|done]. wlp_run.
  match goal with |- wlp _ _ ?w' => set (w1 := w') end.
  assert (app_inv Acc w1) as Hinv1.
  { destruct Hinv. split; try done. by eapply (acc_write _ HA w). }
  apply wlp_when; intros _; [|done]. wlp_step.
  eapply wlp_mono; [by apply app_request|]. intros [] w2 Hinv2. wlp_run.
  rewrite (ai_callbacks _ _ Hinv2). cbn [writeCompleteCallback_ app_callbacks when].
  unfold queueInLoop. wlp_run.
  rewrite bool_decide_eq_false_2 by by apply (ai_state _ _ Hinv2). apply wlp_ret.
  apply app_queued; [done|exact I].
Qed.

Lemma app_handleRead w :
  conn_inv w → handler_ok HandleRead w → app_inv Acc w → wlp handleRead (λ _, app_inv Acc) w.
Proof.
  intros Hinv (Hin & Hst & Hroom) [Hcbs Hpend Hnd Hi Hacc].
  assert (state_ w = kConnected) as Hc by by destruct Hst.
  pose proof Hinv as [[_ Hwfi Hwfo _ _ _ _ _ _ _ _ _] Hch _].
  unfold handleRead, on_input. wlp_run. set (cap := iov_capacity (inputBuffer_ w)).
  destruct a as [n e]. rename v into b.
  pose proof (wp_readFd (sock_readv (socket_events w)) (inputBuffer_ w) []) as Hwp.
  specialize (Hwp (conj Hwfi Hi) (sock_readv_ok _)).
  specialize (Hwp ltac:(unfold read_room, out_size in Hroom; lia)). unfold wp in Hwp.
  rewrite H1 in Hwp. destruct Hwp as (_ & _ & Hr). fold cap in Hr.
  assert (wf b ∧ (n ≤ 0 → contents b = [])) as [Hwfb Hnil].
  { destruct (sock_readv _ cap) as [d|errno].
    - destruct Hr as [[= -> _] [? ->]]. split; [done|]. intros Hle. by destruct d.
    - destruct Hr as [_ ->]. by split. }
  wlp_step. wlp_step. set (w1 := note_socket _ _).
  assert (Acc w1) as Hacc1 by by eapply (acc_quiet _ HA w w1).
  assert (n ≤ 0 → app_inv Acc w1) as Hinv1 by (intros Hn%Hnil; split; try done; by etrans).
  apply wlp_if; intros Hn; [by apply (acc_message _ HA)|]. apply Z.ltb_ge in Hn.
  apply wlp_if; intros _; [by apply app_handleClose, Hinv1|]. apply wlp_ret. by apply Hinv1.
Qed.

Lemma app_handlers : handlers_keep (app_inv Acc).
Proof.
  intros h w Hinv Hok HJ. apply (wlp_mono _ (λ _, app_inv Acc)); [|by intros].
  destruct h; cbn [run_handler].
  - by apply app_handleRead.
  - by apply app_handleWrite.
  - by apply app_handleClose.
  - by apply wlp_ret.
Qed.

Lemma app_functor f q w :
  conn_inv w → app_inv Acc w → pending w = f :: q →
  wlp (run_functor f) (λ _, app_inv Acc) (set_pending q w).
Proof.
  intros [Hcore _ _] Hinv Hq.
  assert (loop_functor f ∧ Forall loop_functor q) as [Hf Hq'].
  { apply Forall_cons. rewrite <-Hq. apply Hinv. }
  assert (app_inv Acc (set_pending q w)) as Hinv1 by same Hinv.
  unfold run_functor. wlp_run.
  destruct f; try done; unfold connectEstablished, connectDestroyed, assertInLoopThread,
    setState, connection_callback; wlp_run.
  - assert (state_ w = kConnecting) as Hst.
    { destruct (co_pending _ Hcore) as [?|Hno]; [done|]. rewrite Hq in Hno. set_solver. }
    eapply wlp_mono; [apply app_request|].
    { apply (app_same _ _ Hinv1); try done. auto. }
    intros [] w1 Hinv2. wlp_run. by apply app_upcall.
  - apply wlp_when; intros _.
    + wlp_run. eapply wlp_mono; [apply app_request; same Hinv1|].
      intros [] w1 Hinv2. wlp_run. eapply wlp_mono; [by apply app_upcall|].
      intros [] w2 Hinv3. by apply app_request.
    + by apply app_request.
  - by apply app_upcall.
Qed.

Lemma app_run_event ev w :
  conn_inv w → app_inv Acc w → app_event ev → event_ok ev w →
  wlp (run_conn_event ev) (λ _, app_inv Acc) w.
Proof.
  intros Hinv HJ Happ Hok. destruct ev as [r| | | |]; try done.
  - intros [] w' Hrun.
    assert (∀ p, app_inv Acc (set_poller p (set_in_loop true w))) as Hstore
      by (intros p; same HJ).
    pose proof (wp_dispatch_event (app_inv Acc) r w app_handlers Hinv Hok Hstore) as Hwp.
    unfold wp in Hwp. rewrite Hrun in Hwp. apply Hwp.
  - cbn [run_conn_event]. wlp_run. destruct (pending (set_in_loop true w)) as [|f q] eqn:Hq.
    { apply wlp_ret. same HJ. }
    wlp_run. apply (app_functor f q (set_in_loop true w)); [by apply set_in_loop_inv| |done].
    same HJ.
  - cbn [run_conn_event]. unfold queueInLoop. wlp_run. by apply app_queued.
Qed.

Lemma app_started w : started w → callbacks w = app_callbacks → app_inv Acc w.
Proof.
  intros (loop & chan & fd & cbs & p & Hatt & Hloop & Hnew) Hcbs.
  pose proof (new_TcpConnection_inv _ _ _ _ _ _ Hatt Hloop Hnew) as [Hcore _ _].
  assert (state_ w = kConnecting ∧ pending w = [ConnectEstablished] ∧ accepted w = [] ∧
    retrieved w = [] ∧ input w = []) as (Hst & Hp & Ha & Hr & Hi).
  { unfold new_TcpConnection, constructor in Hnew.
    destruct (new_Buffer kInitialSize) as [b|] eqn:Hb; [|done].
    destruct (new_Buffer_rep kInitialSize b Hb) as [[_ Hcon] _]; [done|].
    cbn in Hnew. injection Hnew as <-. done. }
  split; [done| |by rewrite Hst|done|by apply (acc_start _ HA)].
  rewrite Hp. by apply Forall_singleton.
Qed.

Lemma app_reachable_inv w : app_reachable w → conn_inv w ∧ app_inv Acc w.
Proof.
  intros (w0 & Hw0 & Hcbs & Hsteps). assert (conn_inv w0 ∧ app_inv Acc w0) as Hinit.
  { split; [|by apply app_started]. apply conn_reachable_inv. by exists w0. }
  clear Hw0 Hcbs. induction Hsteps as [w|w w1 w2 (ev & Happ & Hok & Hrun) _ IH]; [done|].
  destruct Hinit as [Hinv HJ]. apply IH. split.
  - pose proof (wp_run_conn_event ev w Hinv Hok) as Hwp. unfold wp in Hwp.
    rewrite Hrun in Hwp. apply Hwp.
  - by eapply app_run_event.
Qed.
End app.

(** ** The echo server *)
Section echo.
Context {P CB : Type} `{!Poller P CB, !PollerSpec P CB, !Bound handler CB, !BoundSpec handler CB,
  !SockKernel, !SockKernelSpec}.
Abbreviation W := (ConnW P).
Implicit Types w : W.

#[local] Instance echo_env : ConnEnv P := application echo_message P.
Abbreviation echo_inv := (app_inv echo_message).

(** The kernel has reported that the peer is gone, and there was no output
    waiting. *)
Definition gone w : Prop :=
  out w = [] ∧ ∀ tr data, ∃ errno,
    kernel_write (socket_events w ++ tr) data = IoErr errno ∧ peer_gone errno.

(** [sendInLoop] on an open connection accepts the data, or the peer is
    gone. *)
Record offer_frame w w' : Prop := {
  of_callbacks : callbacks w' = callbacks w;
  of_pending : Forall loop_functor (pending w) → Forall loop_functor (pending w');
  of_state : state_ w' = state_ w;
  of_input : input w' = input w;
  of_retrieved : retrieved w' = retrieved w;
}.
Definition offered (data : bytes) w w' : Prop :=
  offer_frame w w' ∧ (accepted w' = accepted w ++ data ∧ ¬ gone w ∨ w' = w ∧ gone w).

Lemma wlp_output_rest nwrote remaining data w :
  wlp (when (0 <? remaining)
         (on_output (append (slice nwrote remaining data)) ;;
          writing ← channel_isWriting;
          when (negb writing) (channel_request enableWriting)))
    (λ _ w', ∃ p b, w' = set_poller p (set_output b w)) w.
Proof.
  apply wlp_when; intros _; [|exists (poller w), (outputBuffer_ w); by destruct w].
  wlp_step. unfold on_output. wlp_step. wlp_step. unfold channel_isWriting. wlp_step.
  wlp_step. wlp_step. apply wlp_when; intros _.
  - eapply wlp_mono; [apply wlp_channel_request|]. intros [] w' [p ->]. by eexists _, _.
  - exists (poller w), v. by destruct w.
Qed.

Lemma wlp_sendInLoop data w :
  wf (outputBuffer_ w) → channel_is (mask_of (state_ w) (out w)) w →
  state_ w ≠ kDisconnected → callbacks w = app_callbacks →
  wlp (sendInLoop data) (λ _ w', offered data w w') w.
Proof.
  intros Hwf (c & Hc & Hm & _) Hst Hcbs. unfold sendInLoop, assertInLoopThread, channel_isWriting.
  wlp_run. case_decide; [done|]. wlp_run. assert (a = c) as -> by congruence.
  rewrite Hcbs, readable_out, (isWriting_mask _ _ _ Hm) by done.
  cbn [writeCompleteCallback_ app_callbacks].
  assert (∀ nwrote remaining w1, offer_frame w w1 → accepted w1 = accepted w → ¬ gone w →
    wlp (modify (note_accepted data) ;;
         when (0 <? remaining)
           (on_output (append (slice nwrote remaining data)) ;;
            writing ← channel_isWriting;
            when (negb writing) (channel_request enableWriting)))
      (λ _ w', offered data w w') w1) as Hrest.
  { intros nwrote remaining w1 [] Hacc Hno. do 2 wlp_step.
    eapply wlp_mono; [apply wlp_output_rest|]. intros [] w' (p & b & ->).
    split; [by split|]. left. cbn. by rewrite Hacc. }
  destruct (decide (out w = [])) as [Hnil|Hne].
  2:{ assert ((zlen (out w) =? 0) = false) as -> by (apply Z.eqb_neq; by intros ?%nil_length).
      rewrite andb_false_r. wlp_step. apply Hrest; [by split|done|]. by intros [? _]. }
  rewrite Hnil, bool_decide_eq_false_2 by naive_solver. cbn [negb andb].
  change (zlen [] =? 0) with true. cbv iota. do 2 wlp_step.
  destruct (sock_write _ _) as [n|errno] eqn:Hwr.
  - assert (¬ gone w) as Hno.
    { intros [_ Hgone]. destruct (Hgone [] data) as (e & He & _). rewrite app_nil_r in He.
      cbn in Hwr. congruence. }
    do 3 wlp_step. rewrite andb_true_r. unfold queueInLoop.
    destruct (_ =? 0); cbn [when]; wlp_run; cbn [negb]; (apply Hrest; [|done|done]);
      [split; try done; cbn; intros; by apply Forall_app_2, Forall_singleton|by split].
  - wlp_step. destruct (decide (peer_gone errno)) as [Hg|Hg].
    + assert (negb (errno =? EWOULDBLOCK) && negb (errno =? EAGAIN) &&
        ((errno =? EPIPE) || (errno =? ECONNRESET)) = true) as -> by by destruct Hg as [-> | ->].
      cbn [negb]. wlp_step. split; [by split|]. right. split; [done|]. split; [done|]. intros tr data'.
      by eapply (kernel_gone _ data errno).
    + assert ((errno =? EPIPE) || (errno =? ECONNRESET) = false) as ->.
      { apply orb_false_iff. split; apply Z.eqb_neq; intros ->; apply Hg; [by left|by right]. }
      rewrite andb_false_r. cbn [negb]. apply Hrest; [by split|done|].
      intros [_ Hgone]. destruct (Hgone [] data) as (e & He & He'). rewrite app_nil_r in He.
      cbn in Hwr. congruence.
Qed.

(** What has been retrieved has been accepted, as long as the connection is
    open and the peer there. *)
Record echoed w : Prop := {
  ec_prefix : accepted w `prefix_of` retrieved w;
  ec_open : state_ w ≠ kDisconnected → accepted w = retrieved w ∨ gone w;
}.

Lemma echo_message_run w :
  wf (inputBuffer_ w) → wf (outputBuffer_ w) → channel_is (mask_of (state_ w) (out w)) w →
  in_loop w = true → callbacks w = app_callbacks → Forall loop_functor (pending w) →
  state_ w = kConnected → echoed w →
  wlp (call messageCallback_ MessageCallback) (λ _, app_inv echoed) w.
Proof.
  intros Hwfi Hwfo Hch Hin Hcbs Hpend Hst [Hpre Hacc]. unfold call. wlp_run. rewrite Hcbs.
  cbn [messageCallback_ app_callbacks when]. wlp_run. cbn [user echo_env application].
  change (contents (inputBuffer_ (note_upcall MessageCallback w))) with (input w).
  unfold echo_message. cbn [for_each run_user_call]. unfold on_input. wlp_run.
  match goal with H : retrieve _ _ = Ok (_, ?v) |- _ => rename H into Hret; rename v into b end.
  apply (retrieve_all (input w)) in Hret; [|done]. rewrite Nat2Z.id.
  change (contents _) with (input w). rewrite take_ge by done. set (w1 := set_input b _).
  assert (state_ w1 = kConnected ∧ retrieved w1 = retrieved w ++ input w) as (Hst1 & Hr1) by done.
  unfold send. wlp_run. rewrite Hst1, bool_decide_eq_true_2 by done. cbn [negb]. wlp_run.
  assert (in_loop w1 = true) as -> by done.
  eapply wlp_mono; [apply wlp_sendInLoop; [done|exact Hch|by rewrite Hst1|done]|].
  intros [] w2 [[Hcb2 Hp2 Hs2 Hi2 Hr2] Hacc2]. wlp_run.
  specialize (Hacc ltac:(congruence)).
  split; [by rewrite Hcb2|by apply Hp2|congruence|by rewrite Hi2|].
  split; rewrite Hr2, Hr1.
  - destruct Hacc2 as [[-> Hno] | [-> _]]; cbn; [|by apply prefix_app_r].
    by destruct Hacc as [-> | ?].
  - intros _. destruct Hacc2 as [[-> Hno] | [-> ?]]; [left|by right].
    by destruct Hacc as [Heq | ?]; [cbn; rewrite Heq|].
Qed.

Lemma echo_ok : acc_ok echo_message echoed.
Proof.
  split.
  - intros w Ha Hr. split; rewrite Ha, Hr; [done|by left].
  - intros w w' tr [Hpre Hopen] Ha Hr Ho Htr Hst. split; rewrite Ha, Hr; [done|].
    intros Hd. destruct (Hopen (Hst Hd)) as [?|[Hnil Hgone]]; [by left|right].
    split; [congruence|]. intros tr' data. rewrite Htr, <-app_assoc. apply Hgone.
  - intros w w' n data [Hpre Hopen] Hwr Ha Hr Hst. split; rewrite Ha, Hr; [done|].
    rewrite Hst. intros Hd. destruct (Hopen Hd) as [?|[_ Hgone]]; [by left|exfalso].
    destruct (Hgone [] data) as (errno & Herr & _). rewrite app_nil_r in Herr. congruence.
  - apply echo_message_run.
Qed.

Lemma echo_reachable_inv w :
  app_reachable echo_message w → conn_inv w ∧ app_inv echoed w.
Proof. apply (app_reachable_inv _ echo_message_ok), echo_ok. Qed.

(** C13 (functional). The echo server sends back what it receives and
    nothing else: at any moment the bytes written to the socket, followed by
    those waiting in the output buffer, are a prefix of the bytes delivered by
    the socket; they are all of them as long as the connection is open,
    unless the kernel has reported that the peer is gone. *)
Theorem echo_stream w :
  app_reachable echo_message w →
  (wire (socket_events w) ++ out w) `prefix_of` received (socket_events w) ∧
  (state_ w = kConnected → ¬ gone w →
     wire (socket_events w) ++ out w = received (socket_events w)).
Proof.
  intros [[Hcore _ _] [_ _ _ Hi [Hpre Hopen]]]%echo_reachable_inv.
  rewrite (co_stream _ Hcore), (co_received _ Hcore), Hi, app_nil_r. split; [done|].
  intros Hst Hno. destruct Hopen as [?|?]; [congruence|done|done].
Qed.

(** C22 (liveness). If the kernel takes at least one byte at every write, then
    whatever the echo server has received so far is on the wire after finitely
    many reports of writability, at most one per byte that is waiting. *)
Theorem echo_delivers w :
  (∀ tr data, SockShutdown ∉ tr → data ≠ [] → ∃ n, kernel_write tr data = IoOk n ∧ 0 < n) →
  app_reachable echo_message w → state_ w = kConnected →
  ∃ k w', (k ≤ length (out w))%nat ∧
    for_each (replicate k (Dispatch EPOLLOUT)) run_conn_event w = Ok (tt, w') ∧
    wire (socket_events w') = received (socket_events w).
Proof.
  intros Hprog [Hinv [_ _ _ Hi [_ Hopen]]]%echo_reachable_inv Hst.
  pose proof (ci_core _ Hinv) as Hcore.
  assert (received (socket_events w) = accepted w) as ->.
  { rewrite (co_received _ Hcore), Hi, app_nil_r. destruct Hopen as [?|[_ Hgone]]; [congruence|done|].
    exfalso. destruct (Hprog (socket_events w) [x00]) as (n & Hn & _); [|done|].
    - intros Hs. by apply (co_shut _ Hcore) in Hs as [?|[? _]]; congruence.
    - destruct (Hgone [] [x00]) as (errno & Herr & _). rewrite app_nil_r in Herr. congruence. }
  destruct (decide (out w = [])) as [Hnil|Hne].
  - exists 0%nat, w. split_and!; [lia|done|].
    by rewrite <-(co_stream _ Hcore), Hnil, app_nil_r.
  - pose proof (application_spec echo_message P echo_message_ok) as Hspec.
    assert (writes_progress (P:=P)) as Hprog' by exact Hprog.
    destruct (drains w Hprog' Hinv (or_introl Hst) Hne) as (k & w' & ? & ? & _ & ? & _).
    by exists k, w'.
Qed.
End echo.

(** ** The discard server *)
Section discard.
Context {P CB : Type} `{!Poller P CB, !PollerSpec P CB, !Bound handler CB, !BoundSpec handler CB,
  !SockKernel, !SockKernelSpec}.
Abbreviation W := (ConnW P).
Implicit Types w : W.

Definition discarded w : Prop := accepted w = [].

Lemma discard_ok : acc_ok discard_message discarded.
Proof.
  unfold discarded. split; [done|congruence|congruence|].
  intros w Hwfi _ _ _ Hcbs Hpend Hst Hacc. unfold call. wlp_run. rewrite Hcbs.
  cbn [messageCallback_ app_callbacks when]. wlp_run. cbn [user app_env application].
  unfold discard_message. cbn [for_each run_user_call]. unfold on_input. wlp_run.
  match goal with H : retrieve _ _ = Ok (_, ?v) |- _ => rename H into Hret; rename v into b end.
  apply (retrieve_all (input w)) in Hret; [|done]. split; try done. cbn. congruence.
Qed.

(** The discard server never sends anything, whatever it
    receives, and keeps nothing: between events its input buffer is empty. *)
Lemma discard_silent w :
  app_reachable discard_message w →
  wire (socket_events w) = [] ∧ out w = [] ∧ input w = [] ∧
  retrieved w = received (socket_events w).
Proof.
  intros [[Hcore _ _] [_ _ _ Hi Hacc]]%(app_reachable_inv _ discard_message_ok _ discard_ok).
  pose proof (co_stream _ Hcore) as Hs. rewrite Hacc in Hs. apply app_nil in Hs as [? ?].
  split_and!; [done..|]. by rewrite (co_received _ Hcore), Hi, app_nil_r.
Qed.
End discard.

(** ** Concrete runs

    The poller and the events of TcpConnectionProps.v; a write takes at most
    four bytes, and the socket delivers "hello". *)
#[export] Instance demo_kernel : SockKernel := {|
  kernel_write tr data :=
    if bool_decide (SockShutdown ∈ tr) then IoErr EPIPE else IoOk (zlen data `min` 4);
  kernel_readv tr cap := IoOk (if existsb is_read tr then [] else take (Z.to_nat cap) hello);
|}.

#[export] Instance demo_kernel_spec : SockKernelSpec.
Proof.
  split; cbn.
  - intros tr data n. case_bool_decide; [done|]. intros [= <-]. lia.
  - intros tr data Hin. by rewrite bool_decide_eq_true_2.
  - intros tr data errno tr' data'. case_bool_decide as Hin; [|done]. intros [= <-] _.
    exists EPIPE. rewrite bool_decide_eq_true_2 by (apply elem_of_app; by left).
    split; [done|by left].
  - intros tr cap data Hcap [= <-]. destruct (existsb _ _); [simpl; lia|].
    rewrite length_take. lia.
Qed.

Lemma demo_kernel_progress tr data :
  SockShutdown ∉ tr → data ≠ [] → ∃ n, kernel_write tr data = IoOk n ∧ 0 < n.
Proof.
  intros Hno Hne. cbn. rewrite bool_decide_eq_false_2 by done.
  eexists. split; [done|]. destruct data; [done|simpl; lia].
Qed.

Section demo.
Context (on_message : bytes → list user_call).
Context (on_message_ok : ∀ q, Forall call_ok (on_message q) ∧ calls_cost (on_message q) ≤ zlen q).
#[local] Instance demo_app_env : ConnEnv (PollWorld kernel handler) := application on_message _.
#[local] Instance demo_app_spec : ConnEnvSpec (PollWorld kernel handler) :=
  application_spec _ _ on_message_ok.

Definition app_conn : World := set_callbacks (λ _, app_callbacks) demo_conn.
Definition app_exec (w : World) (ev : conn_event) : World :=
  match run_conn_event ev w with Ok (_, w') => w' | Fault _ => w end.
Fixpoint app_events_okb (evs : list conn_event) (w : World) : bool :=
  match evs with
  | [] => true
  | ev :: evs' => event_okb ev w && app_events_okb evs' (app_exec w ev)
  end.

Lemma app_conn_started : started app_conn.
Proof.
  exists 1, 100, 5, app_callbacks, demo_poller. split_and!; [apply demo_attached|done|reflexivity].
Qed.

Lemma app_steps evs w :
  conn_inv w → Forall app_event evs → app_events_okb evs w = true →
  rtc (app_step on_message) w (foldl app_exec w evs).
Proof.
  revert w. induction evs as [|ev evs IH]; intros w Hinv Happ Hok; cbn [foldl]; [done|].
  apply Forall_cons in Happ as [Hev Happ].
  cbn [app_events_okb] in Hok. apply andb_true_iff in Hok as [Hevok%event_okb_ok Hok].
  pose proof (wp_run_conn_event ev w Hinv Hevok) as Hwp.
  apply wp_run in Hwp as ([] & w' & Hrun & Hinv' & _).
  assert (app_exec w ev = w') as Heq by (unfold app_exec; by rewrite Hrun).
  rewrite Heq in *. eapply rtc_l; [|by apply IH]. by exists ev.
Qed.

Definition app_state (n : nat) : World :=
  foldl app_exec app_conn (take n [RunFunctor; Dispatch EPOLLIN; Dispatch EPOLLOUT]).

Lemma app_state_reachable n :
  app_events_okb (take n [RunFunctor; Dispatch EPOLLIN; Dispatch EPOLLOUT]) app_conn = true →
  app_reachable on_message (app_state n).
Proof.
  intros Hok. exists app_conn. split_and!; [apply app_conn_started|done|].
  apply app_steps; [|by apply Forall_take; repeat constructor|done].
  apply conn_reachable_inv. exists app_conn. by split; [apply app_conn_started|].
Qed.
End demo.

Lemma echo_state_reachable n : (n ≤ 3)%nat → app_reachable echo_message (app_state echo_message n).
Proof.
  intros Hn. apply (app_state_reachable _ echo_message_ok).
  destruct n as [|[|[|[|n]]]]; [vm_compute; reflexivity..|lia].
Qed.

Example echo_wire : wire (socket_events (app_state echo_message 3)) = hello.
Proof. vm_compute. reflexivity. Qed.
Example discard_wire :
  wire (socket_events (app_state discard_message 2)) = [] ∧
  received (socket_events (app_state discard_message 2)) = hello.
Proof. vm_compute. split; reflexivity. Qed.

Lemma echo_stream_witness :
  let w := app_state echo_message 2 in
  (wire (socket_events w) ++ out w) `prefix_of` received (socket_events w) ∧
  (state_ w = kConnected → ¬ gone w →
     wire (socket_events w) ++ out w = received (socket_events w)).
Proof. exact (echo_stream (app_state echo_message 2) (echo_state_reachable 2 ltac:(lia))). Defined.

Lemma echo_delivers_witness :
  ∃ w' : World, wire (socket_events w') = hello.
Proof.
  assert (state_ (app_state echo_message 2) = kConnected) as Hst by (vm_compute; reflexivity).
  destruct (echo_delivers (app_state echo_message 2) demo_kernel_progress
    (echo_state_reachable 2 ltac:(lia)) Hst) as (k & w' & _ & _ & Hw).
  exists w'. rewrite Hw. vm_compute. reflexivity.
Defined.

Lemma discard_silent_witness :
  let w := app_state discard_message 2 in
  wire (socket_events w) = [] ∧ out w = [] ∧ input w = [] ∧
  retrieved w = received (socket_events w).
Proof.
  assert (app_events_okb discard_message [RunFunctor; Dispatch EPOLLIN] app_conn = true) as Hok
    by (vm_compute; reflexivity).
  exact (discard_silent _ (app_state_reachable discard_message discard_message_ok 2 Hok)).
Defined.
