(* ===== verification/Reactor.v ===== *)
(** * Reactor: a loop and the objects that live on it
      (src/net/EventLoop.cc, src/net/TimerQueue.cc, src/net/EPollPoller.cc,
      src/net/TcpConnection.cc, src/net/TcpServer.cc,
      src/net/Acceptor.cc)

    A loop of a server as one state: the poller with all channels, the
    wakeup channel, the timer queue with its channel, the connections, in the
    base loop the acceptor's channel, and the queue of functors. The
    constructors and destructors of the loop and its members, and the rounds of [EventLoop::loop]: poll, the active channels one
    after the other, the functors one after the other. The other threads act
    between any two of these steps: the base loop hands over new connections
    and destroys closed ones, user code calls a connection or the timers. *)
From S2P Require Import Prelude Posix Channel EPollPoller.
From S2P Require TimerQueue TimerQueueSpec EventLoop.
From S2P Require Import TcpConnection.

(** The callbacks of the channels of a loop: [EventLoop::handleRead],
    [TimerQueue::handleRead], [Acceptor::handleRead] and the four of a
    connection. *)
Inductive loop_callback : Type :=
| WakeupRead
| TimerRead
| AcceptRead
| ConnectionEvent (h : handler).

#[export] Instance connection_callbacks : Bound handler loop_callback := {|
  bind_ := ConnectionEvent;
  bound cb := match cb with ConnectionEvent h => Some h | _ => None end;
|}.
#[export] Instance connection_callbacks_spec : BoundSpec handler loop_callback.
Proof. by split. Qed.

(** The calls that open and close descriptors. *)
Class Descriptors (K : Type) := {
  epoll_create1 : K → io_result (Z * K);
  timerfd_create : K → io_result (Z * K);
  eventfd : K → io_result (Z * K);
  listen_socket : K → io_result (Z * K);
  accept4 : K → io_result (Z * K);
  close_fd : K → Z → io_result unit * K;
}.

(** Whose functor waits in the queue: the timers' ([addTimerInLoop],
    [cancelInLoop]), the server's ([removeConnectionInLoop], in the base loop)
    or a connection's. *)
Inductive owner : Type :=
| OfTimers
| OfServer
| OfConnection (p : ptr).
#[export] Instance owner_eq_dec : EqDecision owner.
Proof. solve_decision. Defined.

(** Where the loop thread is: before [poll], with active channels left to
    handle, with functors left to run. *)
Inductive phase : Type :=
| AtPoll
| Handling (activeChannels : list ptr)
| Running (functors : list owner).

(** The acceptor of the server whose base loop this is: [acceptChannel_],
    [acceptSocket_], [listening_], and how often [handleRead] has been
    called. *)
Record acceptor : Type := MkAcceptor {
  ac_channel : ptr;
  ac_socket : Z;
  ac_listening : bool;
  ac_reads : nat;
}.
Definition start_listening (a : acceptor) : acceptor :=
  MkAcceptor (ac_channel a) (ac_socket a) true (ac_reads a).
Definition note_read (a : acceptor) : acceptor :=
  MkAcceptor (ac_channel a) (ac_socket a) (ac_listening a) (S (ac_reads a)).

Section reactor.
Context {K TCB : Type} `{!Epoll K, !Descriptors K}.
Abbreviation PW := (PollWorld K loop_callback).
Context `{!ConnEnv PW, !TimerQueue.TimerEnv TCB}.

(** The poller [poller_] with the channels and the kernel; [timerQueue_];
    [wakeupFd_] with its counter; the connections by the address of their
    channel, the poller of their state being the loop's; those that the
    server's map holds; [pendingFunctors_], of which the functors themselves are
    in the states of their owners; the descriptors closed so far. *)
Record Reactor : Type := MkReactor {
  rx_poller : PW;
  rx_epollfd : Z;
  rx_timers : TimerQueue.TQ TCB;
  rx_timerfd : Z;
  rx_timerfdChannel : ptr;
  rx_wakeupFd : Z;
  rx_wakeupChannel : ptr;
  rx_counter : Z;
  rx_conns : gmap ptr (ConnW PW);
  rx_mapped : gset ptr;
  rx_pending : list owner;
  rx_phase : phase;
  rx_acceptor : option acceptor;
  rx_closed : list Z;
}.
Implicit Types s : Reactor.

Definition set_rx_poller w s : Reactor :=
  MkReactor w (rx_epollfd s) (rx_timers s) (rx_timerfd s) (rx_timerfdChannel s) (rx_wakeupFd s)
    (rx_wakeupChannel s) (rx_counter s) (rx_conns s) (rx_mapped s) (rx_pending s) (rx_phase s)
    (rx_acceptor s) (rx_closed s).
Definition set_rx_timers q s : Reactor :=
  MkReactor (rx_poller s) (rx_epollfd s) q (rx_timerfd s) (rx_timerfdChannel s) (rx_wakeupFd s)
    (rx_wakeupChannel s) (rx_counter s) (rx_conns s) (rx_mapped s) (rx_pending s) (rx_phase s)
    (rx_acceptor s) (rx_closed s).
Definition set_rx_counter n s : Reactor :=
  MkReactor (rx_poller s) (rx_epollfd s) (rx_timers s) (rx_timerfd s) (rx_timerfdChannel s)
    (rx_wakeupFd s) (rx_wakeupChannel s) n (rx_conns s) (rx_mapped s) (rx_pending s) (rx_phase s)
    (rx_acceptor s) (rx_closed s).
Definition set_rx_conns m s : Reactor :=
  MkReactor (rx_poller s) (rx_epollfd s) (rx_timers s) (rx_timerfd s) (rx_timerfdChannel s)
    (rx_wakeupFd s) (rx_wakeupChannel s) (rx_counter s) m (rx_mapped s) (rx_pending s) (rx_phase s)
    (rx_acceptor s) (rx_closed s).
Definition set_rx_mapped m s : Reactor :=
  MkReactor (rx_poller s) (rx_epollfd s) (rx_timers s) (rx_timerfd s) (rx_timerfdChannel s)
    (rx_wakeupFd s) (rx_wakeupChannel s) (rx_counter s) (rx_conns s) m (rx_pending s) (rx_phase s)
    (rx_acceptor s) (rx_closed s).
Definition set_rx_pending q s : Reactor :=
  MkReactor (rx_poller s) (rx_epollfd s) (rx_timers s) (rx_timerfd s) (rx_timerfdChannel s)
    (rx_wakeupFd s) (rx_wakeupChannel s) (rx_counter s) (rx_conns s) (rx_mapped s) q (rx_phase s)
    (rx_acceptor s) (rx_closed s).
Definition set_rx_phase ph s : Reactor :=
  MkReactor (rx_poller s) (rx_epollfd s) (rx_timers s) (rx_timerfd s) (rx_timerfdChannel s)
    (rx_wakeupFd s) (rx_wakeupChannel s) (rx_counter s) (rx_conns s) (rx_mapped s) (rx_pending s) ph
    (rx_acceptor s) (rx_closed s).

Definition note_closed fd s : Reactor :=
  MkReactor (rx_poller s) (rx_epollfd s) (rx_timers s) (rx_timerfd s) (rx_timerfdChannel s)
    (rx_wakeupFd s) (rx_wakeupChannel s) (rx_counter s) (rx_conns s) (rx_mapped s) (rx_pending s)
    (rx_phase s) (rx_acceptor s) (rx_closed s ++ [fd]).
Definition set_rx_acceptor a s : Reactor :=
  MkReactor (rx_poller s) (rx_epollfd s) (rx_timers s) (rx_timerfd s) (rx_timerfdChannel s)
    (rx_wakeupFd s) (rx_wakeupChannel s) (rx_counter s) (rx_conns s) (rx_mapped s) (rx_pending s)
    (rx_phase s) a (rx_closed s).

(** ** Construction *)

(** A call that opens a descriptor; a failure is fatal. *)
Definition open_or_die (open : K → io_result (Z * K)) : M PW Z :=
  k ← gets epollfd_;
  match open k with
  | IoOk (fd, k') => modify (set_epollfd k') ;; mret fd
  | IoErr _ => raise AbortFatal
  end.
Definition createTimerfd : M PW Z := open_or_die timerfd_create.
Definition createEventfd : M PW Z := open_or_die eventfd.

(** [new Channel(loop, fd)], [setReadCallback(cb)], [enableReading()]. *)
Definition reading_channel (loop chan : ptr) (fd : Z) (cb : loop_callback) : M PW unit :=
  modify (pw_put chan (new_Channel loop fd)) ;;
  c ← deref (pw_at chan);
  modify (pw_put chan (setReadCallback cb c)) ;;
  enableReading chan.

(** [TimerQueue::TimerQueue]; its channel is the member [timerfdChannel_]. *)
Definition new_TimerQueue (loop chan : ptr) : M PW Z :=
  timerfd ← createTimerfd;
  reading_channel loop chan timerfd TimerRead ;;
  mret timerfd.

(** [EventLoop::EventLoop]: the poller comes first, because the timer queue
    registers its channel with it. *)
Definition new_EventLoop (loop timerfdChannel wakeupChannel : ptr) (k : K) : outcome Reactor :=
  '(epollfd, w0) ←
    match epoll_create1 k with
    | IoOk (fd, k') => w ← new_EPollPoller (IoOk k'); mret (fd, w)
    | IoErr errno => w ← new_EPollPoller (IoErr errno); mret (-1, w)
    end;
  '(timerfd, w1) ← new_TimerQueue loop timerfdChannel w0;
  '(wakeupFd, w2) ← createEventfd w1;
  '(_, w3) ← reading_channel loop wakeupChannel wakeupFd WakeupRead w2;
  mret (MkReactor w3 epollfd (TimerQueue.empty_queue TCB true) timerfd timerfdChannel wakeupFd
    wakeupChannel 0 ∅ ∅ [] AtPoll None []).

(** ** The parts of the state *)

Definition on_poller {A} (m : M PW A) : M Reactor A := zoom rx_poller set_rx_poller m.

(** [n] functors of [o] are queued; [queueInLoop] wakes the loop up unless the
    loop thread queues them outside [doPendingFunctors]. *)
Definition calling (ph : phase) : bool := match ph with Running _ => true | _ => false end.
Definition bump (counter : Z) : Z :=
  if counter <? EventLoop.EVENTFD_MAX then counter + 1 else counter.
Definition note_queued (o : owner) (n : nat) (isInLoopThread : bool) s : Reactor :=
  set_rx_pending (rx_pending s ++ replicate n o)
    (if negb isInLoopThread || calling (rx_phase s)
     then set_rx_counter (Nat.iter n bump (rx_counter s)) s else s).

Definition put_timers (q : TimerQueue.TQ TCB) s : Reactor :=
  note_queued OfTimers
    (length (TimerQueue.tq_queued q) - length (TimerQueue.tq_queued (rx_timers s)))
    (TimerQueue.tq_in_loop q) (set_rx_timers q s).
Definition on_timers {A} (m : M (TimerQueue.TQ TCB) A) : M Reactor A :=
  zoom rx_timers put_timers m.

(** A connection works on the loop's poller. *)
Definition connection_at (p : ptr) s : option (ConnW PW) :=
  set_poller (rx_poller s) <$> rx_conns s !! p.
Definition put_connection (p : ptr) (c0 c : ConnW PW) s : Reactor :=
  note_queued (OfConnection p) (length (pending c) - length (pending c0)) (in_loop c)
    (set_rx_conns (<[p := c]> (rx_conns s)) (set_rx_poller (poller c) s)).
Definition on_connection {A} (p : ptr) (m : M (ConnW PW) A) : M Reactor A :=
  c0 ← deref (connection_at p);
  '(a, c) ← lift_outcome (m c0);
  modify (put_connection p c0 c) ;;
  mret a.

(** ** The rounds of [EventLoop::loop] *)

Definition rx_channel_at (p : ptr) s : option (Channel loop_callback) :=
  pw_channels (rx_poller s) !! p.

(** The callbacks of the channel [p]: a connection's channel is a part of the
    connection, and its callbacks are the connection's methods. What
    [Acceptor::handleRead] does concerns the server and another loop: here it
    is noted, and Cluster.v does it. *)
Definition run_loop_callback (p : ptr) (cb : loop_callback) : M Reactor unit :=
  match cb with
  | WakeupRead => modify (set_rx_counter 0)
  | TimerRead => on_timers (TimerQueueSpec.run_event TimerQueueSpec.TimerReadable)
  | AcceptRead => modify (λ s, set_rx_acceptor (note_read <$> rx_acceptor s) s)
  | ConnectionEvent h => on_connection p (run_handler h)
  end.

(** The loop thread calls the methods of the connection. *)
Definition enter_loop_thread (p : ptr) s : Reactor :=
  set_rx_conns (alter (set_in_loop true) p (rx_conns s)) s.

Definition handle_channel (p : ptr) : M Reactor unit :=
  modify (enter_loop_thread p) ;;
  handleEvent rx_channel_at (run_loop_callback p) p.

(** The oldest functor of a connection. *)
Definition take_functor : M (ConnW PW) (option functor) :=
  modify (set_in_loop true) ;;
  q ← gets pending;
  match q with
  | [] => mret None
  | f :: q' => modify (set_pending q') ;; mret (Some f)
  end.

(** The server's functors are run by Cluster.v. *)
Definition run_owner (o : owner) : M Reactor unit :=
  match o with
  | OfServer => mret tt
  | OfTimers => on_timers (TimerQueueSpec.run_event TimerQueueSpec.RunQueued)
  | OfConnection p =>
      f ← on_connection p take_functor;
      match f with
      | Some f => on_connection p (run_functor f)
      | None => mret tt
      end
  end.

(** One step of the loop thread; [doPendingFunctors] begins with the swap. *)
Definition loop_step (epoll_wait : Z → io_result (list epoll_event)) : M Reactor unit :=
  ph ← gets rx_phase;
  match ph with
  | AtPoll =>
      activeChannels ← on_poller (poll epoll_wait []);
      modify (set_rx_phase (Handling activeChannels))
  | Handling (p :: rest) => handle_channel p ;; modify (set_rx_phase (Handling rest))
  | Handling [] =>
      functors ← gets rx_pending;
      modify (λ s, set_rx_phase (Running functors) (set_rx_pending [] s))
  | Running (o :: rest) => run_owner o ;; modify (set_rx_phase (Running rest))
  | Running [] => modify (set_rx_phase AtPoll)
  end.

(** ** What the other threads do, and the base loop's own thread for the server *)

(** The base loop accepts a connection; a refused one is no connection. *)
Definition accept_connection : M Reactor (option Z) :=
  k ← gets (λ s, epollfd_ (rx_poller s));
  match accept4 k with
  | IoErr _ => mret None
  | IoOk (fd, k') => on_poller (modify (set_epollfd k')) ;; mret (Some fd)
  end.

(** [ioLoop->runInLoop(connectEstablished)] at the end of
    [TcpServer::newConnection]; [here] tells whether the running thread, the
    base loop's, is this loop's. The functor is the new connection's only one. *)
Definition run_established (here : bool) (p : ptr) : M Reactor unit :=
  if here then run_owner (OfConnection p)
  else modify (note_queued (OfConnection p) 1 false).

(** The second half of [TcpServer::newConnection]: the connection is made,
    goes into the map and to its loop. *)
Definition hand_over (here : bool) (loop p : ptr) (fd : Z) (cbs : CallbacksSet) : M Reactor unit :=
  w ← gets rx_poller;
  c ← lift_outcome (new_TcpConnection loop p fd cbs w);
  modify (λ s, set_rx_mapped ({[ p ]} ∪ rx_mapped s)
    (set_rx_conns (<[p := c]> (rx_conns s)) (set_rx_poller (poller c) s))) ;;
  run_established here p.

Definition new_connection (here : bool) (loop p : ptr) (cbs : CallbacksSet) : M Reactor unit :=
  fd ← accept_connection;
  match fd with
  | Some fd => hand_over here loop p fd cbs
  | None => mret tt
  end.

(** [TcpServer::removeConnectionInLoop]: out of the map, and
    [connectDestroyed] to the io loop, by [queueInLoop]. *)
Definition remove_connection (here : bool) (p : ptr) : M Reactor unit :=
  modify (λ s, set_rx_mapped (rx_mapped s ∖ {[ p ]}) s) ;;
  on_connection p (modify (set_in_loop here) ;; run_conn_event QueueDestroy).

(** [sockets::close], [Socket::~Socket]: a failing call is logged. *)
Definition close_descriptor (fd : Z) : M Reactor unit :=
  w ← gets rx_poller;
  let '(r, k') := close_fd (epollfd_ w) fd in
  on_poller (modify (set_epollfd k')) ;;
  modify (note_closed fd) ;;
  match r with
  | IoOk _ => mret tt
  | IoErr _ => on_poller (modify (log_message "close failed"))
  end.

(** [delete channel] *)
Definition delete_channel (p : ptr) : M Reactor unit :=
  deref (rx_channel_at p) ;;
  on_poller (modify (λ w, set_pw_channels (delete p (pw_channels w)) w)).

(** The last [shared_ptr] goes away: [TcpConnection::~TcpConnection] destroys
    its members, the channel before the socket. *)
Definition release_connection (p : ptr) : M Reactor unit :=
  c ← deref (connection_at p);
  delete_channel p ;;
  close_descriptor (sockfd c) ;;
  modify (λ s, set_rx_conns (delete p (rx_conns s)) s).

(** The functors that are bound to a [shared_ptr] keep the connection;
    [sendInLoop] and [shutdownInLoop] are bound to the raw [this]. *)
Definition holds_connection (f : functor) : bool :=
  match f with SendInLoop _ | ShutdownInLoop => false | _ => true end.

(** Somebody other than the server's map keeps the connection: a functor in
    the loop's queue, or, once it is closed, the [removeConnectionInLoop] that
    has still to take it out of the map. *)
Definition held_elsewhere (c : ConnW PW) : bool :=
  bool_decide (state_ c = kDisconnected) || existsb holds_connection (pending c).

(** [TcpServer::~TcpServer] has an empty body; of the members, [connections_]
    goes first, and with it the map's [shared_ptr]s to the connections of this
    loop, whose thread may be anywhere. The map is ordered by name; here the
    order is that of the set's elements. Then [threadPool_] goes, which ends
    and joins the loops' threads (EventLoopThread.v has its destructor), and
    [acceptor_] ([delete_acceptor]). *)
Definition drop_connection (p : ptr) : M Reactor unit :=
  modify (λ s, set_rx_mapped (rx_mapped s ∖ {[ p ]}) s) ;;
  c ← deref (connection_at p);
  if held_elsewhere c then mret tt else release_connection p.
Definition drop_connections : M Reactor unit :=
  ps ← gets rx_mapped;
  for_each (elements ps) drop_connection.

(** ** The server's own part of the base loop *)

(** [Acceptor::Acceptor]: the socket and its channel, not yet registered. *)
Definition new_acceptor (loop chan : ptr) : M Reactor unit :=
  fd ← on_poller (open_or_die listen_socket);
  on_poller (modify (pw_put chan (setReadCallback AcceptRead (new_Channel loop fd)))) ;;
  modify (set_rx_acceptor (Some (MkAcceptor chan fd false 0))).

(** [Acceptor::listen] *)
Definition listen_acceptor : M Reactor unit :=
  a ← deref rx_acceptor;
  modify (set_rx_acceptor (Some (start_listening a))) ;;
  on_poller (enableReading (ac_channel a)).

(** [Acceptor::~Acceptor] and its members, the channel before the socket. *)
Definition delete_acceptor : M Reactor unit :=
  a ← deref rx_acceptor;
  on_poller (disableAll (ac_channel a)) ;;
  on_poller (remove (ac_channel a)) ;;
  delete_channel (ac_channel a) ;;
  close_descriptor (ac_socket a) ;;
  modify (set_rx_acceptor None).

(** User code calls a connection: the callbacks of other connections and of
    timers, and functors, in the loop's own thread ([here]), or other
    threads. *)
Definition call_event (here : bool) (c : user_call) : conn_event :=
  if here then CallInLoop c else CallFromOther c.

(** [loop_->runInLoop(removeConnectionInLoop)] in another thread. *)
Definition queue_removal : M Reactor unit := modify (note_queued OfServer 1 false).

(** ** All steps *)

Inductive loop_event : Type :=
| LoopThread (epoll_wait : Z → io_result (list epoll_event))
| NewConnection (here : bool) (loop p : ptr) (cbs : CallbacksSet)
| RemoveConnection (here : bool) (p : ptr)
| ReleaseConnection (p : ptr)
| CallConnection (here : bool) (p : ptr) (c : user_call)
| CallTimers (in_loop : bool) (c : TimerQueue.command TCB)
| MakeAcceptor (loop chan : ptr)
| ListenAcceptor
| DeleteAcceptor
| QueueRemoval.

Definition run_loop_event (ev : loop_event) : M Reactor unit :=
  match ev with
  | LoopThread epoll_wait => loop_step epoll_wait
  | NewConnection here loop p cbs => new_connection here loop p cbs
  | RemoveConnection here p => remove_connection here p
  | ReleaseConnection p => release_connection p
  | CallConnection here p c => on_connection p (run_conn_event (call_event here c))
  | CallTimers b c => on_timers (TimerQueueSpec.run_event (TimerQueueSpec.Call b c))
  | MakeAcceptor loop chan => new_acceptor loop chan
  | ListenAcceptor => listen_acceptor
  | DeleteAcceptor => delete_acceptor
  | QueueRemoval => queue_removal
  end.

(** ** Destruction *)

(** [TimerQueue::~TimerQueue] *)
Definition delete_TimerQueue : M Reactor unit :=
  chan ← gets rx_timerfdChannel;
  on_poller (disableAll chan) ;;
  on_poller (remove chan) ;;
  fd ← gets rx_timerfd;
  close_descriptor fd ;;
  on_timers TimerQueue.destroy ;;
  delete_channel chan.

(** [EPollPoller::~EPollPoller] *)
Definition delete_EPollPoller : M Reactor unit :=
  fd ← gets rx_epollfd; close_descriptor fd.

(** [EventLoop::~EventLoop]: the body, and the members in the reverse order
    of their declarations. *)
Definition delete_EventLoop : M Reactor unit :=
  chan ← gets rx_wakeupChannel;
  on_poller (disableAll chan) ;;
  on_poller (removeChannel chan) ;;
  fd ← gets rx_wakeupFd;
  close_descriptor fd ;;
  delete_channel chan ;;
  delete_TimerQueue ;;
  delete_EPollPoller.
End reactor.
