(* ===== verification/ReactorSpec.v ===== *)
(** * The invariant of a loop and its connections

    What the kernel promises about descriptors, the invariant of Reactor.v and
    that every step of the loop thread and of the other threads keeps it: the
    specifications of the parts are put together here. *)
From S2P Require Import Prelude Posix Channel EPollPoller.
From S2P Require TimerQueue TimerQueueSpec.
From S2P Require Import Buffer TcpConnection TcpConnectionSpec ConnectionFrame Reactor.

(** [fd] has been opened. *)
Definition opened {K} `{!Epoll K} (fd : Z) (k k' : K) : Prop :=
  pollable k fd = false ∧
  ∀ fd', pollable k' fd' = bool_decide (fd' = fd) || pollable k fd'.

(** A new descriptor is none of the open ones, and a new epoll instance
    watches nothing. After close(2), on Linux whatever it returns, the
    descriptor is not open, and the epoll instance does not have it. *)
Class DescriptorsSpec (K : Type) `{!Epoll K, !Descriptors K} : Prop := {
  epoll_create1_ok k fd k' :
    epoll_create1 k = IoOk (fd, k') → opened fd k k' ∧ interest k' = ∅;
  timerfd_create_ok k fd k' :
    timerfd_create k = IoOk (fd, k') → opened fd k k' ∧ interest k' = interest k;
  eventfd_ok k fd k' :
    eventfd k = IoOk (fd, k') → opened fd k k' ∧ interest k' = interest k;
  listen_socket_ok k fd k' :
    listen_socket k = IoOk (fd, k') → opened fd k k' ∧ interest k' = interest k;
  accept4_ok k fd k' :
    accept4 k = IoOk (fd, k') → opened fd k k' ∧ interest k' = interest k;
  close_ok k fd r k' :
    close_fd k fd = (r, k') →
    (∀ fd', pollable k' fd' = negb (bool_decide (fd' = fd)) && pollable k fd') ∧
    interest k' = delete fd (interest k);
}.

(** ** Channels that come and go *)
Section channels.
Context {K CB : Type} `{!Epoll K, !EpollSpec K}.
Abbreviation PW := (PollWorld K CB).
Implicit Types (w : PW) (c : Channel CB).

(** The descriptors of all channels are open. *)
Lemma attached_pollable w p c :
  attached w → pw_channels w !! p = Some c → pollable (epollfd_ w) (fd_ c) = true.
Proof.
  intros Hatt Hc. pose proof (attached_synced _ Hatt) as [Hi Ha Hd Hm _].
  destruct (Hi _ _ Hc) as [Hidx|[Hidx|Hidx]].
  - by apply (attached_new _ Hatt p c Hc).
  - destruct (Ha _ _ Hc Hidx) as [Hmap _]. by apply Hm in Hmap as [? _].
  - destruct (Hd _ _ Hc Hidx) as [Hmap _]. by apply Hm in Hmap as [? _].
Qed.

(** Opening a descriptor. *)
Lemma attached_opened fd k w :
  attached w → opened fd (epollfd_ w) k → interest k = interest (epollfd_ w) →
  attached (set_epollfd k w).
Proof.
  intros [[Hi Ha Hd Hm Hint] Hloop Hinj Hnew] [_ Hopen] Hsame.
  assert (∀ fd', pollable (epollfd_ w) fd' = true → pollable k fd' = true) as Hmono.
  { intros fd' Hp. rewrite Hopen, Hp. apply orb_true_r. }
  split; [split|done|done|]; cbn; rewrite ?Hsame; try done.
  - intros fd' p Hp. destruct (Hm _ _ Hp). split; auto.
  - intros p c Hc Hidx. destruct (Hnew p c Hc Hidx). split; cbn; auto.
Qed.

(** Closing a descriptor that no channel has. *)
Lemma attached_closed fd k w :
  attached w → (∀ p c, pw_channels w !! p = Some c → fd_ c ≠ fd) →
  (∀ fd', pollable k fd' = negb (bool_decide (fd' = fd)) && pollable (epollfd_ w) fd') →
  interest k = delete fd (interest (epollfd_ w)) → attached (set_epollfd k w).
Proof.
  intros [[Hi Ha Hd Hm Hint] Hloop Hinj Hnew] Hno Hpoll Hsame.
  assert (∀ fd', fd' ≠ fd → pollable k fd' = pollable (epollfd_ w) fd') as Hkeep.
  { intros fd' Hne. by rewrite Hpoll, bool_decide_eq_false_2. }
  assert (interest k = interest (epollfd_ w)) as Hint'.
  { rewrite Hsame. apply delete_id. destruct (interest (epollfd_ w) !! fd) as [[m p]|] eqn:Hfd; [|done].
    apply Hint, Hm in Hfd as (_ & c & Hc & Hfdc & _). by destruct (Hno p c Hc). }
  split; [split|done|done|]; cbn; rewrite ?Hint'; try done.
  - intros fd' p Hp. destruct (Hm _ _ Hp) as (? & c & Hc & Hfdc & ?).
    rewrite Hkeep by (rewrite <-Hfdc; by eapply Hno). split; [done|by exists c].
  - intros p c Hc Hidx. destruct (Hnew p c Hc Hidx). split; cbn; [done|].
    rewrite Hkeep; [done|by eapply Hno].
Qed.

(** A new channel, for an open descriptor that no other channel has. *)
Lemma attached_add p c w :
  attached w → pw_channels w !! p = None → index_ c = kNew → loop_ c ≠ 0 →
  pollable (epollfd_ w) (fd_ c) = true →
  (∀ q c', pw_channels w !! q = Some c' → fd_ c' ≠ fd_ c) → attached (pw_put p c w).
Proof.
  intros [[Hi Ha Hd Hm Hint] Hloop Hinj Hnew] Hp Hidx Hl Hopen Hno.
  assert (channels_ w !! fd_ c = None) as Hfree.
  { destruct (channels_ w !! fd_ c) as [q|] eqn:Hq; [|done].
    apply Hm in Hq as (_ & c' & Hc' & Hfd & _). by destruct (Hno q c' Hc'). }
  assert (kNew ≠ kAdded ∧ kNew ≠ kDeleted) as [? ?] by done.
  split; [split|..]; cbn; try (intros q c'; rewrite lookup_insert_Some;
    intros [[<- <-]|[? ?]] ?; [congruence|by eauto]); try done.
  - intros q c'. rewrite lookup_insert_Some. intros [[<- <-]|[? ?]]; [by left|eauto].
  - intros fd q Hq. destruct (Hm _ _ Hq) as (? & c' & Hc' & ? & ?). split; [done|].
    exists c'. rewrite lookup_insert_ne; [done|]. intros <-. congruence.
  - intros q c'. rewrite lookup_insert_Some. intros [[<- <-]|[? ?]]; [done|by eapply Hloop].
  - intros q1 q2 c1 c2. rewrite !lookup_insert_Some.
    intros [[<- <-]|[? Hc1]] [[<- <-]|[? Hc2]] Heq; [done|..|by eapply Hinj].
    + by destruct (Hno _ _ Hc2).
    + by destruct (Hno _ _ Hc1).
  - intros q c'. rewrite lookup_insert_Some. intros [[<- <-]|[? Hc']] Hn; [done|].
    by eapply Hnew.
Qed.

(** A channel that the poller does not know goes away. *)
Lemma attached_remove p c w :
  attached w → pw_channels w !! p = Some c → index_ c = kNew →
  attached (set_pw_channels (delete p (pw_channels w)) w).
Proof.
  intros [[Hi Ha Hd Hm Hint] Hloop Hinj Hnew] Hp Hidx.
  split; [split|..]; cbn; try (intros q c'; rewrite lookup_delete_Some; intros [? ?]; by eauto);
    try done.
  - intros fd q Hq. destruct (Hm _ _ Hq) as (? & c' & Hc' & ? & ?). split; [done|].
    exists c'. rewrite lookup_delete_ne; [done|]. intros <-. congruence.
  - intros q1 q2 c1 c2. rewrite !lookup_delete_Some. intros [_ ?] [_ ?]. by apply Hinj.
  - intros q c'. rewrite lookup_delete_Some. intros [? ?] ?. by eapply Hnew.
Qed.

(** Requests to the poller do not open or close descriptors. *)
Lemma wp_epoll_change r p c w :
  attached w → pw_channels w !! p = Some c →
  wp (change_interest r p) (λ _ w', attached w' ∧
    (∃ i, i ≠ kNew ∧ reregistered p (set_events (new_mask r (events_ c)) c) i w w')) w.
Proof.
  intros Hatt Hc. pose proof Hatt as [Hs Hloop _ Hnew].
  unfold change_interest. wp_step. eapply wp_deref; [exact Hc|]. wp_step. wp_step.
  set (c1 := set_events (new_mask r (events_ c)) c). set (w1 := put_channel p c1 w).
  assert (pw_channels w1 !! p = Some c1) as Hc1 by apply lookup_insert_eq.
  unfold update. wp_step. eapply wp_deref; [exact Hc1|].
  apply wp_when; [intros _|intros Hl%negb_false_iff%Z.eqb_eq; by destruct (Hloop p c Hc)].
  unfold updateChannel, EPollPoller.
  wp_apply (wp_epoll_updateChannel p c1 w1); [by apply consistent_desync|done|exact (Hnew p c Hc)|].
  intros [] w' (Hcons & Hfd & Hch).
  assert (updated_index c1 ≠ kNew) as Hidx by (unfold updated_index; by case_match).
  assert (pw_channels w' = <[p := set_index (updated_index c1) c1]> (pw_channels w)) as Hch'
    by (rewrite Hch; apply insert_insert_eq).
  split; [|by exists (updated_index c1)].
  eapply (attached_insert p c); [done|exact Hc|done|exact Hch'|done..|].
  intros fd Hne Hreg. by apply (only_fd_frame (fd_ c) w1 w' fd Hfd Hne).
Qed.

Lemma wp_epoll_remove p c w :
  attached w → pw_channels w !! p = Some c →
  wp (epoll_removeChannel p) (λ _ w', attached w' ∧ reregistered p c kNew w w') w.
Proof.
  intros Hatt Hc. pose proof Hatt as [Hs _ _ Hnew].
  wp_apply (wp_epoll_removeChannel p c); [done..|exact (Hnew p c Hc)|].
  intros [] w' ((Hcons & Hfd & Hch) & Hreg & _). split; [|done].
  eapply (attached_insert p c); [done|exact Hc|done|exact Hch|done|done|done|].
  intros fd Hne Hr. by apply (only_fd_frame (fd_ c) w w' fd Hfd Hne).
Qed.

(** [poll] stores returned events and nothing else. *)
Lemma attached_polled evs w : attached w → attached (polled evs w).
Proof.
  intros [Hs Hloop Hinj Hnew].
  assert (consistent None (polled evs w)) as Hs'.
  { pose proof (consistent_apply_revents evs w Hs) as [Hi Ha Hd Hm Hint]. by split. }
  assert (∀ m p c', apply_revents evs m !! p = Some c' →
    ∃ c, m !! p = Some c ∧ fd_ c' = fd_ c ∧ loop_ c' = loop_ c ∧ index_ c' = index_ c) as Hch.
  { clear. induction evs as [|e evs IH]; intros m p c' Hc'; [by exists c'|].
    apply (IH (alter (set_revents e.1) e.2 m)) in Hc' as (c1 & Hc1 & Heq).
    apply lookup_alter_Some in Hc1 as [(_ & c & Hc & ->)|[_ Hc]]; [exists c|exists c1];
      by split. }
  split; [done|..]; cbn.
  - intros p c' (c & Hc & _ & -> & _)%Hch. by eapply Hloop.
  - intros p q c1 c2 (c & Hc & -> & _)%Hch (c' & Hc' & -> & _)%Hch. by apply Hinj.
  - intros p c' (c & Hc & -> & _ & ->)%Hch Hidx. by eapply Hnew.
Qed.
End channels.

(** ** The functors of a connection in the queue *)
Definition tokens (p : ptr) (l : list owner) : nat :=
  length (filter (λ o, o = OfConnection p) l).
#[global] Arguments tokens : simpl never.

Lemma tokens_app p l1 l2 : tokens p (l1 ++ l2) = (tokens p l1 + tokens p l2)%nat.
Proof. unfold tokens. by rewrite filter_app, length_app. Qed.
Lemma tokens_cons_ne p o l : o ≠ OfConnection p → tokens p (o :: l) = tokens p l.
Proof. intros Ho. unfold tokens. by rewrite filter_cons_False. Qed.
Lemma tokens_cons p l : tokens p (OfConnection p :: l) = S (tokens p l).
Proof. unfold tokens. by rewrite filter_cons_True. Qed.
Lemma tokens_replicate p n : tokens p (replicate n (OfConnection p)) = n.
Proof. induction n as [|n IH]; [done|]. simpl. by rewrite tokens_cons, IH. Qed.
Lemma tokens_replicate_ne p o n : o ≠ OfConnection p → tokens p (replicate n o) = 0%nat.
Proof. intros Ho. induction n as [|n IH]; [done|]. simpl. by rewrite tokens_cons_ne. Qed.

Lemma tokens_elem p l : OfConnection p ∈ l ↔ tokens p l ≠ 0%nat.
Proof.
  induction l as [|o l IH]; [split; [by intros []%not_elem_of_nil|done]|].
  rewrite elem_of_cons. destruct (decide (o = OfConnection p)) as [->|Ho].
  - rewrite tokens_cons. split; [done|by left].
  - rewrite tokens_cons_ne by done. rewrite <-IH. split; [by intros [?|?]|by right].
Qed.

(** The functors in the order in which the loop runs them: the [n]-th entry of
    the queue that is for a connection is its [n]-th functor. *)
Fixpoint linear (pend : ptr → list functor) (l : list owner) : list (ptr * functor) :=
  match l with
  | [] => []
  | OfTimers :: l' | OfServer :: l' => linear pend l'
  | OfConnection p :: l' =>
      match pend p with
      | [] => linear pend l'
      | f :: q => (p, f) :: linear (λ p', if decide (p' = p) then q else pend p') l'
      end
  end.

Lemma linear_ext pend pend' l : (∀ p, pend p = pend' p) → linear pend l = linear pend' l.
Proof.
  revert pend pend'. induction l as [|[| |p] l IH]; intros pend pend' Heq; cbn; [done|auto..|].
  rewrite Heq. destruct (pend' p); [auto|]. f_equal. apply IH. intros q. by case_decide.
Qed.

Lemma linear_others pend l o n :
  (∀ p, o ≠ OfConnection p) → linear pend (l ++ replicate n o) = linear pend l.
Proof.
  intros Ho. revert pend. induction l as [|[| |p] l IH]; intros pend; cbn; [|done..|].
  - induction n as [|n IH]; [done|]. destruct o as [| |p]; [done..|by destruct (Ho p)].
  - destruct (pend p); by rewrite IH.
Qed.

Lemma linear_absent pend pend' p l :
  tokens p l = 0%nat → (∀ q, q ≠ p → pend' q = pend q) → linear pend' l = linear pend l.
Proof.
  revert pend pend'. induction l as [|[| |q] l IH]; intros pend pend' Hl Heq; cbn; [done|..].
  - apply IH; [by rewrite tokens_cons_ne in Hl|done].
  - apply IH; [by rewrite tokens_cons_ne in Hl|done].
  - destruct (decide (q = p)) as [->|Hq]; [by rewrite tokens_cons in Hl|].
    rewrite tokens_cons_ne in Hl by congruence. rewrite Heq by done.
    destruct (pend q); [by apply IH|]. f_equal. apply IH; [done|]. intros q' ?.
    case_decide; auto.
Qed.

Lemma linear_push pend pend' p fs l :
  tokens p l = length (pend p) → pend' p = pend p ++ fs → (∀ q, q ≠ p → pend' q = pend q) →
  linear pend' (l ++ replicate (length fs) (OfConnection p)) = linear pend l ++ ((p,.) <$> fs).
Proof.
  revert pend pend'. induction l as [|[| |q] l IH]; intros pend pend' Hl Hp Heq; cbn.
  - destruct (pend p) as [|]; [cbn in Hp|done]. clear Hl Heq. revert pend' Hp.
    induction fs as [|f fs IH]; intros pend' Hp; cbn; [done|]. rewrite Hp. f_equal.
    apply IH. by rewrite decide_True.
  - apply IH; [by rewrite tokens_cons_ne in Hl|done..].
  - apply IH; [by rewrite tokens_cons_ne in Hl|done..].
  - destruct (decide (q = p)) as [->|Hq].
    + rewrite tokens_cons in Hl. rewrite Hp. destruct (pend p) as [|f r] eqn:Hpend; [done|]. cbn.
      f_equal. cbn in Hl. apply IH.
      * rewrite decide_True by done. lia.
      * by rewrite !decide_True.
      * intros q' ?. by rewrite !decide_False by done; auto.
    + rewrite tokens_cons_ne in Hl by congruence. rewrite Heq by done.
      destruct (pend q) as [|f r]; [by apply IH|]. cbn. f_equal. apply IH.
      * by rewrite decide_False.
      * by rewrite !decide_False.
      * intros q' ?. case_decide; auto.
Qed.

(** Those of the server's. *)
Definition server_functors (l : list (ptr * functor)) : list (ptr * functor) :=
  filter (λ x, ¬ own_functor x.2) l.

Lemma server_functors_own p fs : Forall own_functor fs → server_functors ((p,.) <$> fs) = [].
Proof.
  unfold server_functors. induction 1 as [|f fs Hf _ IH]; [done|]. cbn [fmap list_fmap].
  by rewrite filter_cons_False by (cbn; tauto).
Qed.

(** ** The stages of a connection *)
Inductive stage : Type := Waiting | Live | Shut.
#[export] Instance stage_eq_dec : EqDecision stage.
Proof. solve_decision. Defined.
Definition stage_of (st : StateE) : stage :=
  match st with
  | kConnecting => Waiting
  | kConnected | kDisconnecting => Live
  | kDisconnected => Shut
  end.

(** ** The invariant *)
Section spec.
Context {K TCB : Type} `{!Epoll K, !EpollSpec K, !Descriptors K, !DescriptorsSpec K}.
Abbreviation PW := (PollWorld K loop_callback).
Context `{!ConnEnv PW, !ConnEnvSpec PW, !TimerQueue.TimerEnv TCB, !TimerQueueSpec.TimerEnvSpec TCB}.
Abbreviation RX := (Reactor (K:=K) (TCB:=TCB)).
Implicit Types (s : RX) (w : PW) (c : ConnW PW).

(** A channel of the loop's own, registered for reading. *)
Definition loop_channel (chan : ptr) (fd : Z) (cb : loop_callback) w : Prop :=
  ∃ ch, pw_channels w !! chan = Some ch ∧ fd_ ch = fd ∧ loop_ ch ≠ 0 ∧ events_ ch = kReadEvent ∧
    index_ ch ≠ kNew ∧ readCallback_ ch = Some cb ∧ writeCallback_ ch = None ∧
    closeCallback_ ch = None ∧ errorCallback_ ch = None.

(** The acceptor's channel, which [listen] registers. *)
Definition idle_channel (chan : ptr) (fd : Z) (cb : loop_callback) w : Prop :=
  ∃ ch, pw_channels w !! chan = Some ch ∧ fd_ ch = fd ∧ loop_ ch ≠ 0 ∧ events_ ch = kNoneEvent ∧
    index_ ch = kNew ∧ readCallback_ ch = Some cb ∧ writeCallback_ ch = None ∧
    closeCallback_ ch = None ∧ errorCallback_ ch = None.
Definition acceptor_ok (a : acceptor) w : Prop :=
  (if ac_listening a then loop_channel else idle_channel) (ac_channel a) (ac_socket a) AcceptRead w.

(** The loop's own channels, and those that the poller may report. *)
Definition own s (p : ptr) : Prop :=
  p = rx_wakeupChannel s ∨ p = rx_timerfdChannel s ∨
  ∃ a, rx_acceptor s = Some a ∧ p = ac_channel a.
Definition own_ok s w : Prop :=
  loop_channel (rx_wakeupChannel s) (rx_wakeupFd s) WakeupRead w ∧
  loop_channel (rx_timerfdChannel s) (rx_timerfd s) TimerRead w ∧
  ∀ a, rx_acceptor s = Some a → acceptor_ok a w.
Definition own_reading s (p : ptr) (fd : Z) (cb : loop_callback) : Prop :=
  (p, fd, cb) = (rx_wakeupChannel s, rx_wakeupFd s, WakeupRead) ∨
  (p, fd, cb) = (rx_timerfdChannel s, rx_timerfd s, TimerRead) ∨
  ∃ a, rx_acceptor s = Some a ∧ ac_listening a = true ∧
    (p, fd, cb) = (ac_channel a, ac_socket a, AcceptRead).

Definition is_open c : Prop := state_ c = kConnected ∨ state_ c = kDisconnecting.

(** Somebody holds the connection [c], whose channel is [p], until it has been
    destroyed: the server's map, or the functor that destroys it. *)
Definition accounted (p : ptr) c w (mapped : gset ptr) : Prop :=
  p ∈ mapped ∨ ConnectDestroyed ∈ pending c ∨ destroyed (set_poller w c).

Record conn_ok (p : ptr) c w (mapped : gset ptr) : Prop := {
  ck_channel : channel c = p;
  ck_inv : conn_inv (set_poller w c);
  ck_held : accounted p c w mapped;
  ck_closed : closed_once c;
}.

(** An active channel that is still to be handled. *)
Definition reportable (p : ptr) s : Prop :=
  (∃ fd cb, own_reading s p fd cb) ∨
  ∃ c ch, rx_conns s !! p = Some c ∧ is_open c ∧
    pw_channels (rx_poller s) !! p = Some ch ∧ revents_ok (revents_ ch).

(** With the active channels [act] left to handle and the functors of
    [functors] left to run. *)
Record loop_inv (act : list ptr) (functors : list owner) s : Prop := {
  li_attached : attached (rx_poller s);
  li_own : own_ok s (rx_poller s);
  li_timers : TimerQueueSpec.queue_inv (rx_timers s);
  li_conn p c : rx_conns s !! p = Some c → conn_ok p c (rx_poller s) (rx_mapped s);
  li_channels p : is_Some (pw_channels (rx_poller s) !! p) →
    own s p ∨ is_Some (rx_conns s !! p);
  li_functors p : OfConnection p ∈ rx_pending s ++ functors → is_Some (rx_conns s !! p);
  li_balanced p c : rx_conns s !! p = Some c →
    (tokens p (rx_pending s) + tokens p functors)%nat = length (pending c);
  li_mapped p : p ∈ rx_mapped s → is_Some (rx_conns s !! p);
  li_nodup : NoDup act;
  li_active p : p ∈ act → reportable p s;
}.

Definition active_of (ph : phase) : list ptr := match ph with Handling l => l | _ => [] end.
Definition functors_of (ph : phase) : list owner := match ph with Running l => l | _ => [] end.
Definition reactor_inv s : Prop :=
  loop_inv (active_of (rx_phase s)) (functors_of (rx_phase s)) s.

(** ** Code that runs on one connection *)

(** [s'] is [s] after code has run on the connection [p], which is now [v]; of
    its functors [base] were queued before. *)
Record moved (base : list functor) (p : ptr) s (v : ConnW PW) s' : Prop := {
  mv_poller : rx_poller s' = poller v;
  mv_conns : ∃ c, rx_conns s' = <[p := c]> (rx_conns s) ∧ set_poller (poller v) c = v;
  mv_pending : ∃ fs, rx_pending s' = rx_pending s ++ replicate (length fs) (OfConnection p) ∧
    pending v = base ++ fs;
  mv_rest : (rx_epollfd s', rx_timers s', rx_timerfd s', rx_timerfdChannel s', rx_wakeupFd s',
      rx_wakeupChannel s', rx_mapped s', rx_phase s', rx_acceptor s', rx_closed s') =
    (rx_epollfd s, rx_timers s, rx_timerfd s, rx_timerfdChannel s, rx_wakeupFd s,
      rx_wakeupChannel s, rx_mapped s, rx_phase s, rx_acceptor s, rx_closed s);
}.

Lemma connection_at_moved base p s v s' : moved base p s v s' → connection_at p s' = Some v.
Proof.
  intros [Hp (c & Hc & Hv) _ _]. unfold connection_at. by rewrite Hc, Hp, lookup_insert_eq, <-Hv.
Qed.

Lemma moved_start p s c :
  rx_conns s !! p = Some c →
  moved (pending c) p s (set_poller (rx_poller s) c) s.
Proof.
  intros Hc. split; [done| |exists []; cbn; by rewrite !app_nil_r|done].
  exists c. split; [by rewrite insert_id|done].
Qed.

Lemma note_queued_fields o n b s (s' := note_queued o n b s) :
  rx_poller s' = rx_poller s ∧ rx_conns s' = rx_conns s ∧
  rx_pending s' = rx_pending s ++ replicate n o ∧
  (rx_epollfd s', rx_timers s', rx_timerfd s', rx_timerfdChannel s', rx_wakeupFd s',
    rx_wakeupChannel s', rx_mapped s', rx_phase s', rx_acceptor s', rx_closed s') =
  (rx_epollfd s, rx_timers s, rx_timerfd s, rx_timerfdChannel s, rx_wakeupFd s,
    rx_wakeupChannel s, rx_mapped s, rx_phase s, rx_acceptor s, rx_closed s).
Proof. unfold s', note_queued. by destruct (negb b || calling _). Qed.

(** Functors are appended, or the oldest one of those queued before is taken. *)
Lemma moved_put base base' p s v v' s' :
  moved base p s v s' →
  base' = base ∧ (∃ fs, pending v' = pending v ++ fs) ∨
  (∃ f, pending v = base ∧ base = f :: base' ∧ pending v' = base') →
  moved base' p s v' (put_connection p v v' s').
Proof.
  intros [Hp (c & Hc & Hv) (fs & Hn & Hlen) Hrest] Hbase. unfold put_connection.
  edestruct note_queued_fields as (H1 & H2 & H3 & H4). split.
  - by rewrite H1.
  - exists v'. rewrite H2. cbn. rewrite Hc, insert_insert_eq. split; [done|by destruct v'].
  - rewrite H3. cbn. rewrite Hn, <-app_assoc, <-replicate_add.
    destruct Hbase as [[-> [fs' ->]]|(f & Hv1 & -> & Hv2)].
    + exists (fs ++ fs'). rewrite Hlen. split; [|by rewrite app_assoc].
      do 2 f_equal. rewrite !length_app. lia.
    + rewrite Hv2. exists []. split; [|by rewrite app_nil_r].
      assert (fs = []) as -> by (apply (f_equal length) in Hlen; rewrite Hv1, length_app in Hlen;
        destruct fs; [done|simpl in Hlen; lia]).
      by rewrite Hv1, (proj2 (Nat.sub_0_le _ _)) by (simpl; lia).
  - rewrite H4. exact Hrest.
Qed.

Lemma wp_on_connection {A} base p (m : M (ConnW PW) A) Q s v s' :
  moved base p s v s' →
  wp m (λ a v', (∃ fs, pending v' = pending v ++ fs) ∧
    ∀ s'', moved base p s v' s'' → Q a s'') v → wp (on_connection p m) Q s'.
Proof.
  intros Hm Hwp. apply wp_run in Hwp as (a & v' & Hrun & Hle & HQ). unfold on_connection. wp_step.
  eapply wp_deref; [by eapply connection_at_moved|]. wp_step.
  eapply wp_lift_outcome; [exact Hrun|]. cbv beta iota. do 3 wp_step. apply HQ.
  eapply moved_put; [done|by left].
Qed.

(** The loop takes the oldest functor of a connection. *)
Lemma wp_take_functor p c f q Q s :
  rx_conns s !! p = Some c → pending c = f :: q →
  (∀ s', moved q p s
     (set_pending q (set_in_loop true (set_poller (rx_poller s) c))) s' → Q (Some f) s') →
  wp (on_connection p take_functor) Q s.
Proof.
  intros Hc Hq HQ. pose proof (moved_start p s c Hc) as Hm. rewrite Hq in Hm.
  unfold on_connection. wp_step. eapply wp_deref; [by eapply connection_at_moved|]. wp_step.
  set (v' := set_pending q (set_in_loop true (set_poller (rx_poller s) c))).
  apply (wp_lift_outcome _ _ _ (Some f, v')).
  { unfold take_functor, modify, gets, mbind, M_bind. cbn. by rewrite Hq. }
  cbv beta iota. do 3 wp_step. apply HQ. eapply moved_put; [exact Hm|]. right.
  exists f. cbn. by rewrite Hq.
Qed.

(** What the connection's invariant needs of the code is enough for the loop's. *)
Record settled (p : ptr) (v : ConnW PW) (v' : ConnW PW) : Prop := {
  sd_inv : conn_inv v';
  sd_frame : conn_frame v v';
  sd_closed : closed_once v';
}.

Lemma others_same p c s v' q :
  channel c = p → conn_frame (set_poller (rx_poller s) c) v' → q ≠ p →
  pw_channels (poller v') !! q = pw_channels (rx_poller s) !! q.
Proof.
  intros Hch Hf Hq. pose proof (cf_others _ _ Hf) as Ho. cbn in Ho. rewrite Hch in Ho.
  rewrite <-(lookup_delete_ne _ p q), Ho, lookup_delete_ne; done.
Qed.

Lemma loop_channel_same chan fd cb w w' :
  pw_channels w' !! chan = pw_channels w !! chan → loop_channel chan fd cb w →
  loop_channel chan fd cb w'.
Proof. intros Heq (ch & Hch & Hrest). exists ch. by rewrite Heq. Qed.

Lemma own_ok_same s w w' :
  (∀ q, own s q → pw_channels w' !! q = pw_channels w !! q) → own_ok s w → own_ok s w'.
Proof.
  intros Heq (Hw & Ht & Ha). split_and!.
  - eapply loop_channel_same; [|exact Hw]. apply Heq. by left.
  - eapply loop_channel_same; [|exact Ht]. apply Heq. by right; left.
  - intros a Hs. specialize (Ha a Hs). unfold acceptor_ok in *.
    assert (pw_channels w' !! ac_channel a = pw_channels w !! ac_channel a) as Hsame
      by (apply Heq; right; right; by exists a).
    destruct (ac_listening a); [by eapply loop_channel_same|].
    destruct Ha as (ch & Hch & Hrest). exists ch. by rewrite Hsame.
Qed.

Lemma own_channel s w p :
  own_ok s w → own s p →
  ∃ ch cb, pw_channels w !! p = Some ch ∧ readCallback_ ch = Some cb ∧ ∀ h, cb ≠ ConnectionEvent h.
Proof.
  intros (Hw & Ht & Ha) [->|[->|(a & Hs & ->)]].
  - destruct Hw as (ch & ? & _ & _ & _ & _ & ? & _). by exists ch, WakeupRead.
  - destruct Ht as (ch & ? & _ & _ & _ & _ & ? & _). by exists ch, TimerRead.
  - specialize (Ha a Hs). unfold acceptor_ok in Ha.
    destruct (ac_listening a); destruct Ha as (ch & ? & _ & _ & _ & _ & ? & _); by exists ch, AcceptRead.
Qed.

Lemma own_reading_channel s w p fd cb :
  own_ok s w → own_reading s p fd cb → loop_channel p fd cb w ∧ own s p ∧ ∀ h, cb ≠ ConnectionEvent h.
Proof.
  intros (Hw & Ht & Ha) [[= -> -> ->]|[[= -> -> ->]|(a & Hs & Hl & [= -> -> ->])]]; split_and!; try done.
  - by left.
  - by right; left.
  - specialize (Ha a Hs). unfold acceptor_ok in Ha. by rewrite Hl in Ha.
  - right; right. by exists a.
Qed.

(** A connection's channel is not one of the loop's own. *)
Lemma own_other act functors p c s : loop_inv act functors s → rx_conns s !! p = Some c → ¬ own s p.
Proof.
  intros Hinv Hc (ch & cb & Hch & Hr & Hcb)%(own_channel _ _ _ (li_own _ _ _ Hinv)).
  pose proof (li_conn _ _ _ Hinv _ _ Hc) as Hok.
  destruct (ci_channel _ (ck_inv _ _ _ _ Hok)) as (ch' & Hch' & _ & _ & _ & Hr' & _).
  unfold conn_channel in Hch'. cbn in Hch'. rewrite (ck_channel _ _ _ _ Hok), Hch in Hch'.
  injection Hch' as <-. rewrite Hr in Hr'. injection Hr'. apply Hcb.
Qed.

(** An active channel that is a connection's. *)
Lemma active_open act functors p c s :
  loop_inv act functors s → p ∈ act → rx_conns s !! p = Some c →
  is_open c ∧ ∃ ch, pw_channels (rx_poller s) !! p = Some ch ∧ revents_ok (revents_ ch).
Proof.
  intros Hinv Hact Hc. destruct (li_active _ _ _ Hinv p Hact) as [(fd & cb & Hown)|(c' & ch & Hc' & ? & ? & ?)].
  - apply (own_reading_channel _ _ _ _ _ (li_own _ _ _ Hinv)) in Hown as (_ & Hown & _).
    by destruct (own_other _ _ _ _ _ Hinv Hc).
  - assert (c' = c) as -> by congruence. eauto.
Qed.

(** From the active channels [act0] and the functors [functors0] to [act] and
    [functors]: those that the code has dealt with are gone. *)
Section moved.
Context (act0 act : list ptr) (functors0 functors : list owner) (base : list functor) (p : ptr)
  (s : RX) (c : ConnW PW) (v' : ConnW PW) (s' : RX).
Context (Hinv : loop_inv act0 functors0 s) (Hc : rx_conns s !! p = Some c) (Hm : moved base p s v' s')
  (Hset : settled p (set_poller (rx_poller s) c) v')
  (Hheld : p ∈ rx_mapped s ∨ ConnectDestroyed ∈ pending v' ∨ destroyed v').

Lemma moved_others q : q ≠ p → pw_channels (poller v') !! q = pw_channels (rx_poller s) !! q.
Proof using Hinv Hc Hset.
  pose proof (ck_channel _ _ _ _ (li_conn _ _ _ Hinv p c Hc)) as Hch.
  destruct Hset as [_ Hf _]. exact (others_same p c s v' q Hch Hf).
Qed.

Lemma moved_dom q : is_Some (rx_conns s !! q) → is_Some (rx_conns s' !! q).
Proof using Hm.
  intros Hq. destruct (mv_conns _ _ _ _ _ Hm) as (c' & -> & _). by apply lookup_insert_is_Some'; right.
Qed.

Lemma moved_conn_ok q cq :
  rx_conns s' !! q = Some cq → conn_ok q cq (poller v') (rx_mapped s).
Proof using All.
  pose proof (ck_channel _ _ _ _ (li_conn _ _ _ Hinv p c Hc)) as Hch. pose proof moved_others as Hothers.
  destruct Hset as [Hinv' Hf Hcl'], Hm as [_ (c' & Hcs & Hc') _ _].
  pose proof (co_attached _ (ci_core _ Hinv')) as Hatt.
  assert (channel v' = p) as Hch' by (by rewrite (cf_channel _ _ Hf)).
  rewrite Hcs, lookup_insert_Some. intros [[<- <-]|[Hne Hq]].
  - assert (channel c' = channel v' ∧ pending c' = pending v') as (Hc1 & Hc3) by (by rewrite <-Hc').
    split; [congruence|by rewrite Hc'| |by rewrite <-Hc' in Hcl'].
    unfold accounted. by rewrite Hc3, Hc'.
  - destruct (li_conn _ _ _ Hinv _ _ Hq) as [Hcq Hiq Hhq Hclq].
    assert (pw_channels (poller v') !! q = pw_channels (rx_poller s) !! q) as Hsame by auto.
    split; [done| | |done].
    + eapply repoller_inv; [exact Hiq|done|]. by rewrite Hcq.
    + unfold accounted. destruct Hhq as [?|[?|[Hst (ch & Hch1 & Hi)]]]; auto.
      right; right. split; [done|]. exists ch. split; [|done]. unfold conn_channel in *. cbn in *.
      by rewrite Hcq in *; rewrite Hsame.
Qed.

Lemma moved_reportable q :
  (q = p → is_open v' ∧ ∃ ch, conn_channel v' = Some ch ∧ revents_ok (revents_ ch)) →
  reportable q s → reportable q s'.
Proof using Hinv Hc Hm Hset.
  pose proof (ck_channel _ _ _ _ (li_conn _ _ _ Hinv p c Hc)) as Hch. pose proof moved_others as Hothers.
  destruct Hset as [_ Hf _], Hm as [Hp (c' & Hcs & Hc') _ [= _ _ Htf Htc Hwf Hwc _ _ Hacc _]].
  assert (channel v' = p) as Hch' by (by rewrite (cf_channel _ _ Hf)).
  intros Hact [(fd & cb & Hr)|(cq & ch & Hcq & Ho & Hchq & Hr)].
  { left. exists fd, cb. unfold own_reading in *. by rewrite Hwc, Htc, Hacc, Hwf, Htf. }
  right. rewrite Hcs, Hp. destruct (decide (q = p)) as [->|Hne].
  - destruct (Hact eq_refl) as (Ho' & ch' & Hch1 & Hr'). exists c', ch'.
    rewrite lookup_insert_eq. split_and!; [done| | |done].
    + unfold is_open in *. by rewrite <-Hc' in Ho'.
    + unfold conn_channel in Hch1. by rewrite Hch' in Hch1.
  - exists cq, ch. rewrite lookup_insert_ne, Hothers by done. done.
Qed.

Lemma moved_inv :
  NoDup act → act ⊆ act0 →
  (p ∈ act → is_open v' ∧ ∃ ch, conn_channel v' = Some ch ∧ revents_ok (revents_ ch)) →
  (∀ q, q ≠ p → tokens q functors = tokens q functors0) →
  (tokens p functors0 + length base = tokens p functors + length (pending c))%nat →
  loop_inv act functors s'.
Proof using All.
  intros Hndact Hsub Hact Htok Hbase. pose proof moved_dom as Hdom. pose proof moved_others as Hothers.
  pose proof moved_conn_ok as Hok. pose proof (own_other _ _ _ _ _ Hinv Hc) as Hown.
  pose proof moved_reportable as Hrep. pose proof Hm as [Hp (c' & Hcs & Hc') (fs & Hn & Hlen) Hrest].
  injection Hrest as He Ht Htf Htc Hwf Hwc Hmp Hph Hacc Hcl.
  pose proof Hinv as [_ Hoo Htq _ Hcha Hfu Hba Hma _ Hac].
  split; rewrite ?Hp, ?Ht, ?Hmp; try done.
  - destruct Hset as [Hinv' _ _ _]. apply (co_attached _ (ci_core _ Hinv')).
  - unfold own_ok. rewrite Hwc, Htc, Hwf, Htf, Hacc. apply (own_ok_same s (rx_poller s)); [|done].
    intros q Hq. apply Hothers. by intros ->.
  - intros q Hq. destruct (decide (q = p)) as [->|Hne]; [right; apply Hdom; eauto|].
    rewrite Hothers in Hq by done. unfold own. rewrite Hwc, Htc, Hacc.
    destruct (Hcha q Hq) as [?|?]; auto.
  - intros q. destruct (decide (q = p)) as [->|Hne]; [intros _; apply Hdom; eauto|].
    rewrite Hn, !elem_of_app, (tokens_elem q functors), Htok, <-tokens_elem by done.
    intros [[?|Hr%elem_of_replicate_inv]|?]; [apply Hdom, Hfu; set_solver|congruence|].
    apply Hdom, Hfu. set_solver.
  - intros q cq. rewrite Hcs, Hn, lookup_insert_Some, tokens_app. intros [[<- <-]|[Hne Hq]].
    + assert (pending c' = pending v') as -> by by rewrite <-Hc'.
      rewrite tokens_replicate, Hlen, length_app. pose proof (Hba _ _ Hc). lia.
    + rewrite tokens_replicate_ne, Htok by congruence. pose proof (Hba _ _ Hq). lia.
  - intros q ?. by apply Hdom, Hma.
  - intros q Hq. apply Hrep; [|by apply Hac, Hsub]. by intros ->; apply Hact.
Qed.
End moved.

(** Fewer active channels, and functors that are no connection's. *)
Lemma loop_inv_less act act' functors functors' s :
  loop_inv act functors s → NoDup act' → act' ⊆ act →
  (∀ p, tokens p functors' = tokens p functors) → loop_inv act' functors' s.
Proof.
  intros [] Hnd Ha Hf. split; try done; [| |by auto].
  - intros p. rewrite elem_of_app, (tokens_elem p functors'), Hf, <-tokens_elem, <-elem_of_app. auto.
  - intros p c Hc. rewrite Hf. auto.
Qed.

Lemma loop_inv_phase act functors ph s :
  loop_inv act functors s → loop_inv act functors (set_rx_phase ph s).
Proof. intros []. by split. Qed.

(** The poller has changed, but not the channels. *)
Lemma repoll_inv act functors w s :
  loop_inv act functors s → attached w → pw_channels w = pw_channels (rx_poller s) →
  loop_inv act functors (set_rx_poller w s).
Proof.
  intros [_ Hoo Htq Hcn Hcha Hfu Hba Hma Hnd Hac] Hatt Heq.
  split; cbn [rx_poller set_rx_poller]; try done.
  - apply (own_ok_same s (rx_poller s)); [|done]. intros q _. by rewrite Heq.
  - intros p c Hc. destruct (Hcn p c Hc) as [? Hci Hheld ?]. split; [done| | |done].
    + eapply repoller_inv; [exact Hci|done|]. cbn. by rewrite Heq.
    + destruct Hheld as [?|[?|[Hst (ch & Hch & Hi)]]]; [by left|by right; left|].
      right; right. split; [done|]. exists ch. split; [|done]. unfold conn_channel in *.
      cbn in *. by rewrite Heq.
  - intros p. rewrite Heq. apply Hcha.
  - intros p Hp. destruct (Hac p Hp) as [?|(c & ch & ? & ? & Hch & ?)]; [by left|]. right.
    exists c, ch. cbn. by rewrite Heq.
Qed.

(** ** What the server sees of a loop

    In which stage every connection is, which ones its map holds, and the
    functors that it has handed to the loop. *)
Definition stage_at s p : option stage := (λ c, stage_of (state_ c)) <$> rx_conns s !! p.
Definition pending_at s p : list functor :=
  match rx_conns s !! p with Some c => pending c | None => [] end.
Definition srv_queue (functors : list owner) s : list (ptr * functor) :=
  server_functors (linear (pending_at s) (functors ++ rx_pending s)).

Record same_view (functors : list owner) s (functors' : list owner) s' : Prop := {
  vw_mapped : rx_mapped s' = rx_mapped s;
  vw_stage q : stage_at s' q = stage_at s q;
  vw_queue : srv_queue functors' s' = srv_queue functors s;
}.

(** Only [p] may close; the server's map still holds it. *)
Record closing (p : ptr) (functors : list owner) s s' : Prop := {
  cl_mapped : rx_mapped s' = rx_mapped s;
  cl_stage q : stage_at s' q = stage_at s q ∨
    q = p ∧ q ∈ rx_mapped s ∧ stage_at s q = Some Live ∧ stage_at s' q = Some Shut;
  cl_queue : srv_queue functors s' = srv_queue functors s;
  cl_acceptor : rx_acceptor s' = rx_acceptor s ∨ ∀ q, stage_at s' q = stage_at s q;
}.

Lemma same_view_trans l1 s1 l2 s2 l3 s3 :
  same_view l1 s1 l2 s2 → same_view l2 s2 l3 s3 → same_view l1 s1 l3 s3.
Proof.
  intros [Hm1 Hs1 Hq1] [Hm2 Hs2 Hq2]. split; [congruence| |congruence]. intros q. by rewrite Hs2.
Qed.

Lemma same_view_closing p functors s s' :
  same_view functors s functors s' → closing p functors s s'.
Proof. intros [? ? ?]. split; [done| |done|by right]. by left. Qed.

Lemma same_conns_view functors s s' :
  rx_conns s' = rx_conns s → rx_mapped s' = rx_mapped s → rx_pending s' = rx_pending s →
  same_view functors s functors s'.
Proof.
  intros Hc Hm Hp. split; unfold srv_queue, stage_at, pending_at; by rewrite ?Hc, ?Hm, ?Hp.
Qed.

Lemma pending_at_ext s s' p :
  rx_conns s' !! p = rx_conns s !! p → pending_at s' p = pending_at s p.
Proof. unfold pending_at. by intros ->. Qed.

Lemma moved_mapped base p s v s' : moved base p s v s' → rx_mapped s' = rx_mapped s.
Proof. intros [_ _ _ Hrest]. by injection Hrest. Qed.

Lemma moved_stage base p s v s' q :
  moved base p s v s' →
  stage_at s' q = if decide (q = p) then Some (stage_of (state_ v)) else stage_at s q.
Proof.
  intros [_ (c & Hc & <-) _ _]. unfold stage_at. rewrite Hc. case_decide as Hq.
  - by rewrite Hq, lookup_insert_eq.
  - by rewrite lookup_insert_ne.
Qed.

Lemma moved_stages base p s c v s' q :
  rx_conns s !! p = Some c → moved base p s v s' → stage_of (state_ v) = stage_of (state_ c) →
  stage_at s' q = stage_at s q.
Proof.
  intros Hc Hm Hst. rewrite (moved_stage _ _ _ _ _ q Hm). case_decide as Hq; [|done].
  unfold stage_at. rewrite Hq, Hc. cbn. by rewrite Hst.
Qed.

(** The queue after functors have been appended. *)
Lemma moved_linear base functors p s v s' fs :
  moved base p s v s' → pending v = base ++ fs →
  (tokens p (rx_pending s) + tokens p functors)%nat = length base →
  linear (pending_at s') (functors ++ rx_pending s') =
    linear (λ q, if decide (q = p) then base else pending_at s q) (functors ++ rx_pending s) ++
    ((p,.) <$> fs).
Proof.
  intros [_ (c & Hc & Hv) (fs' & Hp & Hfs') _] Hfs Htok.
  assert (fs' = fs) as -> by (rewrite Hfs' in Hfs; by apply app_inv_head in Hfs).
  rewrite Hp, app_assoc. apply linear_push.
  - rewrite tokens_app, decide_True by done. lia.
  - rewrite decide_True by done. unfold pending_at. rewrite Hc, lookup_insert_eq.
    by rewrite <-Hfs, <-Hv.
  - intros q Hq. rewrite decide_False by done. apply pending_at_ext. by rewrite Hc, lookup_insert_ne.
Qed.

Lemma server_functors_app l1 l2 :
  server_functors (l1 ++ l2) = server_functors l1 ++ server_functors l2.
Proof. apply filter_app. Qed.

(** The functors that the code has queued are the connection's own. *)
Lemma moved_queue base functors p s v s' :
  moved base p s v s' → appended base v →
  (tokens p (rx_pending s) + tokens p functors)%nat = length base →
  srv_queue functors s' = server_functors
    (linear (λ q, if decide (q = p) then base else pending_at s q) (functors ++ rx_pending s)).
Proof.
  intros Hm (fs & Hfs & Hown) Htok. unfold srv_queue. rewrite (moved_linear _ _ _ _ _ _ fs Hm) by done.
  by rewrite server_functors_app, server_functors_own, app_nil_r.
Qed.

Lemma moved_same_queue functors p s c v s' :
  rx_conns s !! p = Some c → moved (pending c) p s v s' → appended (pending c) v →
  (tokens p (rx_pending s) + tokens p functors)%nat = length (pending c) →
  srv_queue functors s' = srv_queue functors s.
Proof.
  intros Hc Hm Happ Htok. rewrite (moved_queue _ functors _ _ _ _ Hm Happ Htok).
  unfold srv_queue. f_equal. apply linear_ext. intros q. case_decide as Hq; [|done].
  unfold pending_at. by rewrite Hq, Hc.
Qed.

(** The loop has run [f], which was next. *)
Lemma moved_pop_queue functors p f q s c v s' :
  rx_conns s !! p = Some c → pending c = f :: q → moved q p s v s' → appended q v →
  (tokens p (rx_pending s) + tokens p functors)%nat = length q →
  srv_queue (OfConnection p :: functors) s =
    if decide (own_functor f) then srv_queue functors s' else (p, f) :: srv_queue functors s'.
Proof.
  intros Hc Hq Hm Happ Htok. rewrite (moved_queue _ functors _ _ _ _ Hm Happ Htok).
  unfold srv_queue. cbn [linear app]. unfold pending_at at 1. rewrite Hc, Hq.
  unfold server_functors. case_decide as Hf.
  - by rewrite filter_cons_False by (cbn; tauto).
  - by rewrite filter_cons_True by done.
Qed.

(** ** Handling an active channel *)

(** A channel that has a read callback only. *)
Lemma wp_handle_reading p ch cb Q s :
  rx_channel_at p s = Some ch → readCallback_ ch = Some cb → writeCallback_ ch = None →
  closeCallback_ ch = None → errorCallback_ ch = None → Q tt s →
  wp (run_loop_callback p cb) (λ _ s', rx_channel_at p s' = Some ch ∧ Q tt s') s →
  wp (handleEvent rx_channel_at (run_loop_callback p) p) Q s.
Proof.
  intros Hch Hr Hw Hc He HQ Hrun.
  assert (∀ test callback Q' s', rx_channel_at p s' = Some ch → callback ch = None → Q' tt s' →
    wp (on_revents rx_channel_at (run_loop_callback p) test callback p) Q' s') as Hsilent.
  { intros test callback Q' s' Hs' Hcb HQ'. unfold on_revents, fire. wp_step.
    eapply wp_deref; [exact Hs'|]. wp_step; [|done]. wp_step. eapply wp_deref; [exact Hs'|].
    by rewrite Hcb. }
  unfold handleEvent, handleEventWithGuard. wp_step. apply Hsilent; [done..|].
  wp_step. apply Hsilent; [done..|]. wp_step. unfold on_revents at 1. wp_step.
  eapply wp_deref; [exact Hch|]. wp_step; [|by apply Hsilent]. unfold fire. wp_step.
  eapply wp_deref; [exact Hch|]. rewrite Hr. eapply wp_mono; [exact Hrun|].
  intros [] s' [Hs' HQ']. by apply Hsilent.
Qed.

Lemma put_timers_inv act functors q s :
  loop_inv act functors s → TimerQueueSpec.queue_inv q →
  loop_inv act functors (put_timers q s) ∧ rx_poller (put_timers q s) = rx_poller s ∧
  ∀ l, same_view l s l (put_timers q s).
Proof.
  intros [Hatt Hoo _ Hcn Hcha Hfu Hba Hma Hnd Hac] Hq. unfold put_timers, note_queued.
  destruct (negb _ || calling _); (split; [|split; [done|split; try done;
    unfold srv_queue; cbn; by rewrite app_assoc, linear_others]]); (split; try done; cbn;
    [intros p; rewrite !elem_of_app; (intros [[?|Hr%elem_of_replicate_inv]|?]; [|done|]);
       apply Hfu; set_solver
    |intros p c Hc; rewrite tokens_app, tokens_replicate_ne, Nat.add_0_r by done; auto]).
Qed.

Lemma enter_own_channel p s : rx_conns s !! p = None → enter_loop_thread p s = s.
Proof.
  intros Hp. unfold enter_loop_thread. rewrite alter_id; [by destruct s|]. congruence.
Qed.

(** The acceptor's channel has been handled. *)
Lemma accept_noted_inv act functors s (s' := set_rx_acceptor (note_read <$> rx_acceptor s) s) :
  loop_inv act functors s → loop_inv act functors s' ∧ ∀ l, same_view l s l s'.
Proof.
  intros [Hatt (Hw & Ht & Ha) Htq Hcn Hcha Hfu Hba Hma Hnd Hac]. split; [|by split].
  assert (∀ a, rx_acceptor s' = Some a → ∃ a0, rx_acceptor s = Some a0 ∧ a = note_read a0) as Hnote.
  { intros a (a0 & Ha0 & ->)%fmap_Some. by exists a0. }
  split; try done.
  - split_and!; [done..|]. intros a (a0 & Ha0 & ->)%Hnote. by apply (Ha a0).
  - intros p Hp. destruct (Hcha p Hp) as [[?|[?|(a & Hs & ?)]]|?]; [left; by left|left; by right; left| |by right].
    left; right; right. exists (note_read a). unfold s'. cbn. by rewrite Hs.
  - intros p Hp. destruct (Hac p Hp) as [(fd & cb & [?|[?|(a & Hs & ?)]])|?]; [..|by right].
    + left. exists fd, cb. by left.
    + left. exists fd, cb. by right; left.
    + left. exists fd, cb. right; right. exists (note_read a). unfold s'. cbn. by rewrite Hs.
Qed.

Lemma wp_handle_own act functors chan fd cb s :
  loop_inv (chan :: act) functors s → own_reading s chan fd cb →
  wp (handle_channel chan) (λ _ s', loop_inv act functors s' ∧ ∀ l, same_view l s l s') s.
Proof.
  intros Hinv Hown.
  destruct (own_reading_channel _ _ _ _ _ (li_own _ _ _ Hinv) Hown)
    as ((ch & Hch & _ & _ & _ & _ & Hr & Hw & Hc & He) & Howned & Hcb).
  assert (rx_conns s !! chan = None) as Hnone.
  { destruct (rx_conns s !! chan) as [c|] eqn:Hc'; [|done]. by destruct (own_other _ _ _ _ _ Hinv Hc'). }
  assert (loop_inv act functors s) as Hinv'.
  { eapply loop_inv_less; [done|by apply (NoDup_cons_1_2 chan), Hinv|set_solver|done]. }
  unfold handle_channel. wp_step. wp_step. rewrite enter_own_channel by done.
  eapply (wp_handle_reading chan ch cb); [done..| |].
  { split; [done|]. by split. }
  destruct cb as [| | |h]; cbn [run_loop_callback]; [..|by destruct (Hcb h)].
  - wp_step. split; [exact Hch|]. destruct Hinv'. by split; [split|intros l; split].
  - unfold on_timers. wp_step.
    wp_apply (TimerQueueSpec.wp_run_event TimerQueueSpec.TimerReadable (rx_timers s));
      [by apply Hinv|done|].
    intros [] q Hq. destruct (put_timers_inv act functors q s Hinv' Hq) as (? & Hp & ?).
    split; [|done]. unfold rx_channel_at. by rewrite Hp.
  - wp_step. split; [exact Hch|]. by apply accept_noted_inv.
Qed.

(** A connection's callbacks, in the loop and on the connection alone. *)
Lemma run_callback_simulates base p s cb :
  simulates (moved base p s) (run_callback cb) (run_loop_callback p cb).
Proof.
  intros v s1 v' Hm Hrun. unfold run_callback, run_bound, deref, mbind, M_bind in Hrun.
  destruct cb as [| | |h]; [done..|]. cbn in Hrun.
  exists (put_connection p v v' s1).
  assert (appended (pending v) v') as (fs & Hfs & _).
  { by apply (keep_handler True _ (appended_stable (pending v)) h v I (appended_refl v) tt). }
  split; [|eapply moved_put; [done|left; eauto]].
  cbn [run_loop_callback]. unfold on_connection, deref, mbind, M_bind.
  rewrite (connection_at_moved _ _ _ _ _ Hm). unfold lift_outcome. by rewrite Hrun.
Qed.

Lemma enter_moved p s c :
  rx_conns s !! p = Some c →
  moved (pending c) p s (set_in_loop true (set_poller (rx_poller s) c))
    (enter_loop_thread p s).
Proof.
  intros Hc. split; [done| |exists []; cbn; by rewrite !app_nil_r|done].
  exists (set_in_loop true c). split; [|by destruct c]. cbn.
  symmetry. by apply insert_as_alter.
Qed.

(** What the handlers keep of a connection. *)
Definition handled (q : list functor) c : Prop := appended q c ∧ closed_once c.

Lemma handlers_handled q : handlers_keep (handled q).
Proof.
  intros h w Hinv Hok [Happ Hcl] [] w' Hrun Hinv'. split.
  - exact (keep_handler True _ (appended_stable q) h w I Happ tt w' Hrun).
  - exact (handlers_close_once h w Hinv Hok Hcl tt w' Hrun Hinv').
Qed.

(** Before a connection closes the server's map holds it. *)
Lemma open_mapped act functors p c s :
  loop_inv act functors s → rx_conns s !! p = Some c → state_ c ≠ kDisconnected → p ∈ rx_mapped s.
Proof.
  intros Hinv Hc Hst. destruct (li_conn _ _ _ Hinv p c Hc) as [_ Hci [?|[Hd|[Hd _]]] _].
  - done.
  - by apply (co_destroy _ (ci_core _ Hci)) in Hd.
  - done.
Qed.

Lemma stage_ext st st' :
  st ≠ kConnecting → st' ≠ kConnecting → (st' = kDisconnected ↔ st = kDisconnected) →
  stage_of st' = stage_of st.
Proof. destruct st, st'; cbn; naive_solver. Qed.

Lemma moved_closing act functors l p c s v s' :
  loop_inv act functors s → rx_conns s !! p = Some c → is_open c → moved (pending c) p s v s' →
  state_ v ≠ kConnecting → appended (pending c) v →
  (tokens p (rx_pending s) + tokens p l)%nat = length (pending c) → closing p l s s'.
Proof.
  intros Hinv Hc Ho Hm Hv Happ Htok.
  split; [by eapply moved_mapped| |by eapply moved_same_queue|left; pose proof (mv_rest _ _ _ _ _ Hm); congruence].
  intros q. rewrite (moved_stage _ _ _ _ _ q Hm). case_decide as Hq; [|by left]. subst q.
  assert (stage_at s p = Some Live) as Hs by (unfold stage_at; rewrite Hc; by destruct Ho as [Hs|Hs]; cbn; rewrite Hs).
  rewrite Hs. destruct (state_ v) eqn:Hst; [right|done|by left|by left]. split_and!; [done| |done|done].
  eapply open_mapped; [done..|]. destruct Ho; congruence.
Qed.

Lemma wp_handle_connection act functors p c s :
  loop_inv (p :: act) functors s → rx_conns s !! p = Some c → is_open c →
  (∃ ch, pw_channels (rx_poller s) !! p = Some ch ∧ revents_ok (revents_ ch)) →
  read_room (set_poller (rx_poller s) c) →
  wp (handle_channel p) (λ _ s', loop_inv act functors s' ∧ closing p functors s s') s.
Proof.
  intros Hinv Hc Hopen (ch & Hch & Hrev) Hroom.
  pose proof (li_conn _ _ _ Hinv p c Hc) as [Hchan Hci Hheld Hcl].
  set (v := set_in_loop true (set_poller (rx_poller s) c)).
  assert (conn_inv v) as Hv by by apply set_in_loop_inv.
  assert (revents_of v = Some (revents_ ch)) as Hr.
  { unfold revents_of, conn_channel. cbn. by rewrite Hchan, Hch. }
  pose proof (wp_dispatch _ (handlers_handled (pending c)) v (revents_ ch) Hr eq_refl Hv) as Hwp.
  assert (handled (pending c) v) as Hhd by (split; [apply (appended_refl v)|done]).
  specialize (Hwp Hhd Hopen Hrev Hroom).
  apply wp_run in Hwp as ([] & v' & Hrun & Hv' & Hef & Happ & Hcl').
  pose proof Happ as (fs & Hfs & _).
  change (channel v) with (channel c) in Hrun. rewrite Hchan in Hrun.
  destruct (handleEvent_simulates rx_channel_at (run_loop_callback p)
    (λ p u, channels_of (poller u) !! p) run_callback (moved (pending c) p s) p
    ltac:(intros u s1 Hm; unfold rx_channel_at; by rewrite (mv_poller _ _ _ _ _ Hm))
    (run_callback_simulates _ p s) v _ v' (enter_moved p s c Hc) Hrun) as (s' & Hrun' & Hm).
  unfold handle_channel. wp_step. wp_step. eapply wp_of_run; [exact Hrun'|].
  split.
  2:{ eapply moved_closing; [done..| |done|by eapply li_balanced].
      apply (ef_state _ _ Hef). cbn. destruct Hopen; congruence. }
  eapply (moved_inv (p :: act) act functors functors _ p s c); try done.
  - split; [done| |done].
    pose proof (event_conn_frame _ _ Hef) as [? ? ? ?]. by split.
  - destruct Hheld as [?|[?|[Hd _]]]; [by left| |destruct Hopen; cbn in Hd; congruence].
    right; left. rewrite Hfs. set_solver.
  - by apply (NoDup_cons_1_2 p), Hinv.
  - set_solver.
  - intros Hp. by destruct (NoDup_cons_1_1 _ _ (li_nodup _ _ _ Hinv)).
Qed.

(** ** Running a functor *)

Definition owner_room (o : owner) s : Prop :=
  match o with
  | OfTimers | OfServer => True
  | OfConnection p => ∀ c, connection_at p s = Some c →
      match pending c with f :: _ => functor_room f c | [] => True end
  end.

(** What a functor leaves of a connection that is being destroyed. *)
Lemma wp_functor_held f q v :
  conn_inv v → in_loop v = true → closed_once v → pending v = f :: q →
  functor_room f v →
  wp (run_functor f) (λ _ v', settled (channel v) v v' ∧ appended q v' ∧
    state_ v' ≠ kConnecting ∧ (state_ v' = kDisconnected ↔ state_ v = kDisconnected) ∧
    (ConnectDestroyed ∈ pending v ∨ destroyed v → ConnectDestroyed ∈ pending v' ∨ destroyed v'))
    (set_pending q v).
Proof.
  intros Hinv Hin Hcl Hq Hroom.
  assert (appended q (set_pending q v)) as Happ by apply (appended_refl (set_pending q v)).
  pose proof (wp_run_conn_functor f q v Hinv Hin Hq Hroom) as Hwp.
  pose proof (wp_wlp _ _ _ _ Hwp (keep_functor True _ (appended_stable q) f _ (λ _ _, I) Happ)) as Hwp'.
  pose proof (wp_wlp _ _ _ _ Hwp' (functor_closes f q v Hinv Hq Hcl)) as Hwp2.
  apply wp_run in Hwp2 as ([] & v' & Hrun & [(Hinv' & Hef & Hne) Happ'] & Hn & Hcl').
  specialize (Hcl' Hinv'). pose proof Happ' as (fs & Hfs & _).
  eapply wp_of_run; [exact Hrun|]. split_and!.
  { split; [done|by apply event_conn_frame|done]. }
  { done. }
  { done. }
  { by apply closed_once_states. }
  intros Hd. destruct (decide (ConnectDestroyed ∈ q)) as [Hin'|Hnot].
  { left. rewrite Hfs. set_solver. }
  assert (destroyed v ∨ f = ConnectDestroyed) as Hor by (rewrite Hq in Hd; set_solver).
  assert (state_ v = kDisconnected) as Hst.
  { destruct Hor as [[? _]|Hf]; [done|]. apply (co_destroy _ (ci_core _ Hinv)).
    rewrite Hq, Hf. apply list_elem_of_here. }
  right. by apply (closed_functor f q v Hinv Hin Hq Hroom Hst Hor tt).
Qed.

(** The functor that is run for the entry [o] of the queue. *)
Definition next_functor (o : owner) s : option (ptr * functor) :=
  match o with
  | OfTimers | OfServer => None
  | OfConnection p => (p,.) <$> head (pending_at s p)
  end.

(** [connectEstablished] makes a connection live, no other functor changes a
    stage. *)
Record ran (o : owner) (functors : list owner) s s' : Prop := {
  rn_mapped : rx_mapped s' = rx_mapped s;
  rn_stage q : stage_at s' q =
    if decide (next_functor o s = Some (q, ConnectEstablished)) then Some Live else stage_at s q;
  rn_before q : next_functor o s = Some (q, ConnectEstablished) → stage_at s q = Some Waiting;
  rn_queue : srv_queue (o :: functors) s =
    match next_functor o s with
    | Some x => if decide (own_functor x.2) then srv_queue functors s' else x :: srv_queue functors s'
    | None => srv_queue functors s'
    end;
}.

(** The stages before and after a functor. *)
Lemma functor_stages f q (v v' : ConnW PW) :
  conn_inv v → pending v = f :: q → state_ v' ≠ kConnecting →
  (state_ v' = kDisconnected ↔ state_ v = kDisconnected) →
  if decide (f = ConnectEstablished)
  then stage_of (state_ v) = Waiting ∧ stage_of (state_ v') = Live
  else stage_of (state_ v') = stage_of (state_ v).
Proof.
  intros [Hcore _ _] Hq Hne Hst. case_decide as Hf.
  - assert (state_ v = kConnecting) as Hc.
    { destruct (co_pending _ Hcore) as [?|Hno]; [done|]. rewrite Hq, Hf in Hno. set_solver. }
    rewrite Hc in *. split; [done|]. destruct (state_ v'); naive_solver.
  - apply stage_ext; [|done..]. intros Hc. destruct (co_new _ Hcore Hc) as (Hp & _). congruence.
Qed.

Lemma wp_run_owner act functors o s :
  loop_inv act (o :: functors) s → (∀ p, o = OfConnection p → p ∉ act) → owner_room o s →
  wp (run_owner o) (λ _ s', loop_inv act functors s' ∧ ran o functors s s') s.
Proof.
  intros Hinv Hact Hroom.
  assert ((∀ p, o ≠ OfConnection p) → loop_inv act functors s) as Hless.
  { intros Ho. eapply loop_inv_less; [done|by apply Hinv|done|]. intros p. by rewrite tokens_cons_ne. }
  destruct o as [| |p]; cbn [run_owner].
  { pose proof (Hless ltac:(done)) as Hinv'. unfold on_timers. wp_step.
    wp_apply (TimerQueueSpec.wp_run_event TimerQueueSpec.RunQueued (rx_timers s));
      [by apply Hinv|done|].
    intros [] q Hq. destruct (put_timers_inv act functors q s Hinv' Hq) as (? & _ & Hv).
    split; [done|]. destruct (Hv functors). by split. }
  { wp_step. split; [by apply Hless|by split]. }
  destruct (li_functors _ _ _ Hinv p) as [c Hc]; [set_solver|].
  pose proof (li_conn _ _ _ Hinv p c Hc) as [Hchan Hci Hheld Hcl].
  pose proof (li_balanced _ _ _ Hinv p c Hc) as Hba. rewrite tokens_cons in Hba.
  specialize (Hroom (set_poller (rx_poller s) c)). unfold connection_at in Hroom.
  rewrite Hc in Hroom. specialize (Hroom eq_refl). cbn [pending set_poller] in Hroom.
  destruct (pending c) as [|f q] eqn:Hq; [simpl in Hba; lia|].
  set (v := set_in_loop true (set_poller (rx_poller s) c)).
  assert (conn_inv v) as Hv by by apply set_in_loop_inv.
  wp_step. eapply wp_take_functor; [exact Hc|exact Hq|]. fold v. intros s1 Hm.
  eapply wp_on_connection; [exact Hm|]. wp_apply (wp_functor_held f q v); [done..|].
  intros [] v' ([Hv' Hf Hcl'] & Happ & Hne & Hst & Hdes).
  split; [destruct Happ as (fs & Hfs & _); eauto|]. intros s2 Hm2. split.
  - eapply (moved_inv act act (OfConnection p :: functors) functors _ p s c); try done.
    + split; [done| |done]. by destruct Hf; split.
    + destruct Hheld as [?|Hd]; [by left|right]. apply Hdes. cbn. destruct Hd as [?|Hd]; [by left|].
      right. by eapply destroyed_untouched; [|exact Hd].
    + apply Hinv.
    + intros Hp. by destruct (Hact p).
    + intros r Hr. rewrite tokens_cons_ne; [done|]. congruence.
    + rewrite tokens_cons, Hq. simpl. lia.
  - assert (next_functor (OfConnection p) s = Some (p, f)) as Hnext.
    { cbn. unfold pending_at. by rewrite Hc, Hq. }
    pose proof (functor_stages f q v v' Hv Hq Hne Hst) as Hstages.
    split; [by eapply moved_mapped|..]; rewrite Hnext.
    + intros r. rewrite (moved_stage _ _ _ _ _ r Hm2). destruct (decide (r = p)) as [->|Hr].
      * case_decide as Hx.
        -- rewrite decide_True by congruence. f_equal. apply Hstages.
        -- rewrite decide_False by congruence. unfold stage_at. rewrite Hc. cbn.
           f_equal. exact Hstages.
      * by rewrite decide_False by congruence.
    + intros r [= <- ->]. rewrite decide_True in Hstages by done. unfold stage_at. rewrite Hc.
      cbn. f_equal. apply Hstages.
    + eapply moved_pop_queue; [done|done|exact Hm2|done|]. simpl in Hba. lia.
Qed.

(** ** Polling *)

(** What the kernel reports: registered descriptors with a non-empty mask,
    each at most once, a hang-up without readable data alone. *)
Definition poll_ok (epoll_wait : Z → io_result (list epoll_event)) w : Prop :=
  wait_ok w epoll_wait ∧
  ∀ n evs, epoll_wait n = IoOk evs → NoDup (evs.*2) ∧
    ∀ e, e ∈ evs → revents_ok e.1 ∧
      ∀ fd m, interest (epollfd_ w) !! fd = Some (m, e.2) → m ≠ kNoneEvent.

Lemma lookup_polled evs w p ch :
  NoDup (evs.*2) → pw_channels w !! p = Some ch →
  ∃ r, pw_channels (polled evs w) !! p = Some (set_revents r ch) ∧
    (p ∈ evs.*2 → ∃ e, e ∈ evs ∧ e.2 = p ∧ e.1 = r).
Proof.
  intros Hnd Hch. destruct (decide (p ∈ evs.*2)) as [Hin|Hnot].
  - pose proof Hin as (e & -> & He)%list_elem_of_fmap. exists e.1. split; [|by exists e].
    by apply lookup_apply_revents.
  - exists (revents_ ch). split; [|done]. cbn. rewrite lookup_apply_revents_ne by done.
    rewrite Hch. by destruct ch.
Qed.

Lemma polled_inv evs s :
  loop_inv [] [] s → NoDup (evs.*2) →
  (∀ e, e ∈ evs → revents_ok e.1 ∧
    ∃ fd m, interest (epollfd_ (rx_poller s)) !! fd = Some (m, e.2) ∧ m ≠ kNoneEvent) →
  loop_inv (evs.*2) [] (set_rx_poller (polled evs (rx_poller s)) s).
Proof.
  intros [Hatt (Hw & Hti & Hacc) Htq Hcn Hcha Hfu Hba Hma _ _] Hnd Hevs.
  pose proof (λ p ch, lookup_polled evs (rx_poller s) p ch Hnd) as Hlook.
  pose proof (attached_polled evs _ Hatt) as Hatt'.
  assert (∀ chan fd cb, loop_channel chan fd cb (rx_poller s) →
    loop_channel chan fd cb (polled evs (rx_poller s))) as Hown.
  { intros chan fd cb (ch & Hch & Hrest). destruct (Hlook _ _ Hch) as (r & Hr & _).
    exists (set_revents r ch). split; [exact Hr|exact Hrest]. }
  split; cbn [rx_poller set_rx_poller]; auto.
  - split_and!; [by apply Hown..|]. intros a Ha. specialize (Hacc a Ha). unfold acceptor_ok in *.
    destruct (ac_listening a); [by apply Hown|]. destruct Hacc as (ch & Hch & Hrest).
    destruct (Hlook _ _ Hch) as (r & Hr & _). exists (set_revents r ch). split; [exact Hr|exact Hrest].
  - intros p c Hc. destruct (Hcn p c Hc) as [Hchan Hci Hheld ?].
    destruct (ci_channel _ Hci) as (ch & Hch & _).
    assert (pw_channels (rx_poller s) !! p = Some ch) as Hch'.
    { unfold conn_channel in Hch. cbn in Hch. by rewrite <-Hchan. }
    destruct (Hlook _ _ Hch') as (r & Hr & _).
    split; [done| | |done].
    + eapply (repoller_revents _ _ r ch); [exact Hci|done|by rewrite Hchan..].
    + destruct Hheld as [?|[?|[Hst (ch' & Hch'' & Hi)]]]; [by left|by right; left|].
      right; right. split; [done|]. exists (set_revents r ch). unfold conn_channel in *.
      cbn [channels_of EPollPoller poller set_poller channel] in *. rewrite Hchan in *.
      split; [exact Hr|]. by assert (ch' = ch) as -> by congruence.
  - intros p [ch Hch]. apply Hcha.
    destruct (pw_channels (rx_poller s) !! p) as [ch'|] eqn:Hp; [eauto|].
    cbn in Hch. exfalso. clear -Hch Hp. revert Hch Hp. generalize (pw_channels (rx_poller s)).
    induction evs as [|e evs IH]; intros m; cbn; [congruence|]. intros Hch Hp.
    eapply IH; [exact Hch|]. by apply lookup_alter_None.
  - intros p Hp. pose proof Hp as (e & -> & He)%list_elem_of_fmap.
    destruct (Hevs e He) as (Hr & fd & m & Hfd & Hm).
    destruct (consistent_entry _ _ _ _ (attached_synced _ Hatt) Hfd) as (ch & Hch & _ & Hev & _).
    destruct (Hlook _ _ Hch) as (r & Hch' & Hin).
    destruct (Hcha e.2) as [Hown'|[c Hc]]; [by eauto|left|right].
    { destruct Hown' as [He2|[He2|(a & Ha & He2)]].
      - exists (rx_wakeupFd s), WakeupRead. left. by rewrite He2.
      - exists (rx_timerfd s), TimerRead. right; left. by rewrite He2.
      - exists (ac_socket a), AcceptRead. right; right. exists a. split_and!; [done| |by rewrite He2].
        specialize (Hacc a Ha). unfold acceptor_ok in Hacc. destruct (ac_listening a); [done|].
        destruct Hacc as (ch2 & Hch2 & _ & _ & Hev2 & _). rewrite <-He2 in Hch2.
        assert (ch2 = ch) as -> by congruence. congruence. }
    exists c, (set_revents r ch). split_and!; [done| |exact Hch'|].
    + destruct (Hcn _ _ Hc) as [Hchan [_ (ch2 & Hch2 & Hm2 & _) _] _ _].
      unfold conn_channel in Hch2. cbn in Hch2. rewrite Hchan in Hch2.
      assert (ch2 = ch) as -> by congruence. unfold is_open. cbn in Hm2.
      destruct (state_ c); auto; cbn in Hm2; congruence.
    + destruct (Hin Hp) as (e' & He' & _ & <-). cbn. by apply Hevs.
Qed.

Lemma wp_poll_inv epoll_wait s :
  loop_inv [] [] s → poll_ok epoll_wait (rx_poller s) →
  wp (on_poller (poll epoll_wait []))
    (λ active s', loop_inv active [] s' ∧ ∀ l, same_view l s l s') s.
Proof.
  intros Hinv [Hwait Hevs]. unfold on_poller. wp_step.
  apply (wp_mono _ (λ active w, loop_inv active [] (set_rx_poller w s))); [|by intros; split].
  assert (∀ w, pw_channels w = pw_channels (rx_poller s) → channels_ w = channels_ (rx_poller s) →
    epollfd_ w = epollfd_ (rx_poller s) → loop_inv [] [] (set_rx_poller w s)) as Hquiet.
  { intros w H1 H2 H3. apply repoll_inv; [done| |done].
    destruct (li_attached _ _ _ Hinv) as [[] ? ? Hnew].
    split; [split|..]; cbn; rewrite ?H1, ?H2, ?H3; try done.
    intros p ch Hch Hi. destruct (Hnew p ch Hch Hi). split; by rewrite ?H2, ?H3. }
  set (w := rx_poller s). destruct (epoll_wait (zlen (events_list w))) as [evs|errno] eqn:He.
  - destruct (decide (evs = [])) as [->|Hne].
    + unfold poll. do 2 wp_step. rewrite He. do 2 wp_step. wp_step; [done|].
      do 3 wp_step. by apply Hquiet.
    + wp_apply (wp_poll_events epoll_wait [] evs w); [apply Hinv|done..|].
      intros res w' [-> ->]. destruct (Hevs _ _ He) as [Hnd Hok].
      apply polled_inv; [done|done|]. intros e Hin. destruct (Hok e Hin) as [? Hm].
      split; [done|]. destruct (Hwait _ _ (Nat2Z.is_nonneg _) He) as [_ Hreg].
      destruct (Hreg e Hin) as (fd & m & Hfd). exists fd, m. split; [done|]. by eapply Hm.
  - unfold poll. wp_step. wp_step. rewrite He. wp_step. wp_step; [wp_step|]; wp_step;
      by apply Hquiet.
Qed.

(** ** The other threads *)

(** A new connection, with the functor that establishes it about to run. *)
Lemma added_inv act functors p c s s' :
  loop_inv act functors s → pw_channels (rx_poller s) !! p = None →
  conn_inv c → channel c = p → closed_once c → length (pending c) = 1%nat →
  delete p (pw_channels (poller c)) = pw_channels (rx_poller s) →
  is_Some (pw_channels (poller c) !! p) →
  s' = set_rx_mapped ({[ p ]} ∪ rx_mapped s)
    (set_rx_conns (<[p := c]> (rx_conns s)) (set_rx_poller (poller c) s)) →
  loop_inv act (OfConnection p :: functors) s'.
Proof.
  intros Hinv Hfresh Hc Hchan Hcl Hlen Hothers Hp ->.
  assert (∀ q, q ≠ p → pw_channels (poller c) !! q = pw_channels (rx_poller s) !! q) as Hsame.
  { intros q Hq. by rewrite <-Hothers, lookup_delete_ne. }
  assert (set_poller (poller c) c = c) as Hself by by destruct c.
  destruct Hinv as [_ Hoo Htq Hcn Hcha Hfu Hba Hma Hnd Hac].
  assert (own_ok s (poller c)) as Hown.
  { apply (own_ok_same s (rx_poller s)); [|done]. intros q Hq. apply Hsame. intros ->.
    destruct (own_channel _ _ _ Hoo Hq) as (ch & _ & Hch & _). congruence. }
  assert (∀ q cq, rx_conns s !! q = Some cq → q ≠ p) as Hne.
  { intros q cq Hq ->. destruct (Hcn _ _ Hq) as [Hcq Hi _ _].
    destruct (ci_channel _ Hi) as (ch & Hch & _). unfold conn_channel in Hch. cbn in Hch.
    rewrite Hcq in Hch. congruence. }
  split; cbn; auto.
  - apply (co_attached _ (ci_core _ Hc)).
  - intros q cq. rewrite lookup_insert_Some. intros [[<- <-]|[_ Hq]].
    + split; [done|by rewrite Hself| |done]. left. set_solver.
    + destruct (Hcn _ _ Hq) as [Hcq Hi Hheld Hclq]. pose proof (Hne _ _ Hq) as Hqp.
      assert (pw_channels (poller c) !! channel cq = pw_channels (rx_poller s) !! channel cq) as Hs
        by (rewrite Hcq; auto).
      split; [done| | |done].
      * eapply repoller_inv; [exact Hi|apply (co_attached _ (ci_core _ Hc))|exact Hs].
      * destruct Hheld as [?|[?|[Hst (ch & Hch & Hidx)]]]; [left; set_solver|by right; left|].
        right; right. split; [done|]. exists ch. split; [|done]. unfold conn_channel in *.
        cbn in *. by rewrite Hs.
  - intros q Hq. destruct (decide (q = p)) as [->|Hqp].
    + right. by rewrite lookup_insert_eq.
    + rewrite Hsame in Hq by done. rewrite lookup_insert_ne by done. exact (Hcha q Hq).
  - intros q Hq. apply lookup_insert_is_Some'. destruct (decide (p = q)) as [|Hpq]; [by left|right].
    apply Hfu. set_solver.
  - intros q cq. rewrite lookup_insert_Some. intros [[<- <-]|[Hqp Hq]].
    + destruct (rx_conns s !! p) as [c0|] eqn:Hc0; [by destruct (Hne _ _ Hc0)|].
      assert (OfConnection p ∉ rx_pending s ++ functors) as Hno.
      { intros [? ?]%Hfu. congruence. }
      rewrite tokens_cons, Hlen. apply not_elem_of_app in Hno as [Hn1 Hn2].
      rewrite tokens_elem in Hn1, Hn2. lia.
    + rewrite tokens_cons_ne by congruence. auto.
  - intros q [->%elem_of_singleton|?]%elem_of_union; apply lookup_insert_is_Some'; auto.
  - intros q Hq. destruct (Hac q Hq) as [?|(cq & ch & Hcq & ? & Hch & ?)]; [by left|].
    right. exists cq, ch. pose proof (Hne _ _ Hcq).
    cbn. by rewrite lookup_insert_ne, Hsame by done.
Qed.

(** A functor goes into the queue. *)
Lemma queue_token_inv act functors p b s :
  loop_inv act (OfConnection p :: functors) s →
  loop_inv act functors (note_queued (OfConnection p) 1 b s).
Proof.
  intros [Hatt Hoo Htq Hcn Hcha Hfu Hba Hma Hnd Hac].
  destruct (note_queued_fields (OfConnection p) 1 b s) as (H1 & H2 & H3 & H4).
  generalize dependent (note_queued (OfConnection p) 1 b s). intros s' H1 H2 H3 H4.
  injection H4 as He Ht Htf Htc Hwf Hwc Hm Hph Hacc Hcl.
  split; rewrite ?H1, ?H2, ?H3, ?Ht, ?Hm; try done.
  - unfold own_ok. by rewrite Hwc, Htc, Hwf, Htf, Hacc.
  - unfold own. rewrite Hwc, Htc, Hacc. exact Hcha.
  - intros q. rewrite <-app_assoc. cbn. apply Hfu.
  - intros q c Hc. rewrite tokens_app. pose proof (Hba q c Hc) as Hn.
    destruct (decide (q = p)) as [->|Hne].
    + rewrite tokens_cons in Hn. cbn. rewrite tokens_cons. change (tokens p []) with 0%nat. lia.
    + rewrite tokens_cons_ne in Hn by congruence. cbn. rewrite tokens_cons_ne by congruence.
      change (tokens q []) with 0%nat. lia.
  - intros q Hq. unfold reportable, own_reading. rewrite H1, H2, Hwc, Htc, Hwf, Htf, Hacc. exact (Hac q Hq).
Qed.

Lemma new_connection_fields loop p fd cbs (w : PW) c :
  new_TcpConnection loop p fd cbs w = Ok c →
  poller c = pw_put p (connection_channel loop fd) w ∧ channel c = p ∧
  sockfd c = fd ∧ callbacks c = cbs ∧ state_ c = kConnecting ∧ upcalls c = [] ∧
  pending c = [ConnectEstablished] ∧ outputBuffer_ c = inputBuffer_ c ∧
  new_Buffer kInitialSize = Ok (inputBuffer_ c).
Proof.
  intros Hnew. unfold new_TcpConnection, constructor in Hnew.
  destruct (new_Buffer kInitialSize); [|done]. cbn in Hnew. injection Hnew as <-.
  by destruct cbs.
Qed.

(** The server's connections have a close callback. *)
Definition server_callbacks (cbs : CallbacksSet) : Prop := tcpCloseCallback_ cbs = true.

(** What hand-over does, as the server sees it. *)
Record handed_over (here : bool) (p : ptr) (functors : list owner) s s' : Prop := {
  ho_mapped : rx_mapped s' = {[ p ]} ∪ rx_mapped s;
  ho_before : stage_at s p = None;
  ho_stage q : stage_at s' q =
    if decide (q = p) then Some (if here then Live else Waiting) else stage_at s q;
  ho_queue : srv_queue functors s' =
    srv_queue functors s ++ if here then [] else [(p, ConnectEstablished)];
}.

Lemma no_connection act functors p s :
  loop_inv act functors s → pw_channels (rx_poller s) !! p = None → rx_conns s !! p = None.
Proof.
  intros Hinv Hp. destruct (rx_conns s !! p) as [c|] eqn:Hc; [|done].
  destruct (li_conn _ _ _ Hinv p c Hc) as [Hcp [_ (ch & Hch & _) _] _ _].
  unfold conn_channel in Hch. cbn in Hch. rewrite Hcp in Hch. congruence.
Qed.

Lemma no_tokens act functors p s :
  loop_inv act functors s → rx_conns s !! p = None →
  tokens p (rx_pending s) = 0%nat ∧ tokens p functors = 0%nat.
Proof.
  intros Hinv Hp.
  assert (OfConnection p ∉ rx_pending s ++ functors) as Hno.
  { intros [? ?]%(li_functors _ _ _ Hinv). congruence. }
  apply not_elem_of_app in Hno as [Hn1 Hn2]. rewrite tokens_elem in Hn1, Hn2. lia.
Qed.

Lemma added_established act functors here p c s s1 :
  loop_inv act functors s → loop_inv act (OfConnection p :: functors) s1 →
  pw_channels (rx_poller s) !! p = None → state_ c = kConnecting → pending c = [ConnectEstablished] →
  s1 = set_rx_mapped ({[ p ]} ∪ rx_mapped s)
    (set_rx_conns (<[p := c]> (rx_conns s)) (set_rx_poller (poller c) s)) →
  wp (run_established here p) (λ _ s', loop_inv act functors s' ∧ handed_over here p functors s s') s1.
Proof.
  intros Hinv Hinv1 Hp Hst Hpend Hs1. pose proof (no_connection _ _ _ _ Hinv Hp) as Hnone.
  destruct (no_tokens _ _ _ _ Hinv Hnone) as [Htp Htf].
  assert (rx_conns s1 = <[p := c]> (rx_conns s) ∧ rx_mapped s1 = {[ p ]} ∪ rx_mapped s ∧
    rx_pending s1 = rx_pending s) as (Hconns & Hmapped & Hq) by by rewrite Hs1.
  assert (stage_at s p = None) as Hbefore by (unfold stage_at; by rewrite Hnone).
  assert (∀ q, stage_at s1 q = if decide (q = p) then Some Waiting else stage_at s q) as Hstage.
  { intros q. unfold stage_at. rewrite Hconns. case_decide as Hqp.
    - rewrite Hqp, lookup_insert_eq. cbn. by rewrite Hst.
    - by rewrite lookup_insert_ne. }
  assert (pending_at s1 p = [ConnectEstablished] ∧ pending_at s p = [] ∧
    ∀ q, q ≠ p → pending_at s1 q = pending_at s q) as (Hp1 & Hp0 & Hpq).
  { unfold pending_at. rewrite Hconns, lookup_insert_eq, Hnone. split_and!; [done|done|].
    intros q Hne. by rewrite lookup_insert_ne. }
  unfold run_established. destruct here.
  - wp_apply (wp_run_owner act functors (OfConnection p) s1 Hinv1).
    { intros q [= <-] Hact. destruct (li_active _ _ _ Hinv p Hact) as [(fd & cb & Hr)|(c' & _ & Hc' & _)];
        [|congruence].
      apply (own_reading_channel _ _ _ _ _ (li_own _ _ _ Hinv)) in Hr as ((ch & Hch & _) & _). congruence. }
    { intros c'. unfold connection_at. rewrite Hconns, lookup_insert_eq. intros [= <-].
      cbn. by rewrite Hpend. }
    intros [] s' [Hinv' [Hm Hsg _ Hqueue]]. split; [done|].
    assert (next_functor (OfConnection p) s1 = Some (p, ConnectEstablished)) as Hnext
      by (cbn; by rewrite Hp1).
    rewrite Hnext in *. split; [congruence|done|..].
    + intros q. rewrite Hsg, Hstage. destruct (decide (q = p)) as [->|Hne].
      * by rewrite decide_True.
      * by rewrite decide_False by congruence.
    + cbn [snd] in Hqueue. rewrite decide_False in Hqueue by (intros [? _]; done).
      unfold srv_queue in Hqueue at 1. cbn [linear app] in Hqueue. rewrite Hp1 in Hqueue.
      unfold server_functors in Hqueue at 1. rewrite filter_cons_True in Hqueue by (intros [? _]; done).
      injection Hqueue as Hqueue. rewrite app_nil_r, <-Hqueue, Hq. unfold srv_queue, server_functors. f_equal.
      apply (linear_absent _ _ p); [rewrite tokens_app; lia|]. intros q Hne.
      rewrite decide_False by done. auto.
  - wp_step. split; [by apply queue_token_inv|].
    destruct (note_queued_fields (OfConnection p) 1 false s1) as (_ & H2 & H3 & H4).
    assert (rx_mapped (note_queued (OfConnection p) 1 false s1) = rx_mapped s1) as Hm by done.
    generalize dependent (note_queued (OfConnection p) 1 false s1). intros s' H2 H3 _ Hm.
    split; [congruence|done|..].
    + intros q. rewrite <-Hstage. unfold stage_at. by rewrite H2.
    + unfold srv_queue. rewrite H3, Hq, app_assoc.
      rewrite (linear_push (pending_at s) _ p [ConnectEstablished]).
      * by rewrite server_functors_app.
      * rewrite tokens_app, Hp0. simpl. lia.
      * rewrite Hp0. unfold pending_at. rewrite H2. exact Hp1.
      * intros q Hne. rewrite <-Hpq by done. unfold pending_at. by rewrite H2.
Qed.

Lemma wp_hand_over act functors here loop p fd cbs s :
  loop_inv act functors s → loop ≠ 0 → pw_channels (rx_poller s) !! p = None →
  server_callbacks cbs → pollable (epollfd_ (rx_poller s)) fd = true →
  (∀ q ch, pw_channels (rx_poller s) !! q = Some ch → fd_ ch ≠ fd) →
  wp (hand_over here loop p fd cbs)
    (λ _ s', loop_inv act functors s' ∧ handed_over here p functors s s') s.
Proof.
  intros Hinv Hloop Hp Hcbs Hopen Hno. pose proof (li_attached _ _ _ Hinv) as Hatt.
  assert (attached (pw_put p (connection_channel loop fd) (rx_poller s))) as Hatt2
    by (by apply attached_add).
  unfold hand_over. wp_step. wp_step. wp_step.
  destruct (new_TcpConnection loop p fd cbs (rx_poller s)) as [c|e] eqn:Hnew; [|done].
  destruct (new_connection_fields _ _ _ _ _ _ Hnew)
    as (Hpc & Hchan & Hfd & Hcb & Hst & Hup & Hpend & _).
  assert (conn_inv c) as Hc by by eapply new_TcpConnection_inv.
  eapply wp_lift_outcome; [reflexivity|]. wp_step. wp_step. eapply added_established; try done.
  eapply (added_inv act functors p c s); try done.
  - split; [by rewrite Hcb|]. by rewrite Hup, Hst.
  - by rewrite Hpend.
  - rewrite Hpc. cbn. by rewrite delete_insert_id.
  - rewrite Hpc. cbn. rewrite lookup_insert_eq. eauto.
Qed.

(** [accept] opens a descriptor that no channel has, or does nothing. *)
Lemma wp_accept_connection act functors s :
  loop_inv act functors s →
  wp accept_connection (λ fd s', loop_inv act functors s' ∧ (∀ l, same_view l s l s') ∧
    pw_channels (rx_poller s') = pw_channels (rx_poller s) ∧
    match fd with
    | Some fd => pollable (epollfd_ (rx_poller s')) fd = true ∧
        ∀ q ch, pw_channels (rx_poller s') !! q = Some ch → fd_ ch ≠ fd
    | None => True
    end) s.
Proof.
  intros Hinv. unfold accept_connection. wp_step. wp_step.
  destruct (accept4 (epollfd_ (rx_poller s))) as [[fd k']|errno] eqn:Hacc; [|by wp_step].
  destruct (accept4_ok _ _ _ Hacc) as [Hopen Hint]. pose proof (li_attached _ _ _ Hinv) as Hatt.
  pose proof (attached_opened fd k' _ Hatt Hopen Hint) as Hatt1.
  unfold on_poller. do 4 wp_step. destruct Hopen as [Hclosed Hpoll]. split_and!; [by apply repoll_inv|done|done| |].
  - cbn. by rewrite Hpoll, bool_decide_eq_true_2.
  - intros q c Hc Hfd. pose proof (attached_pollable _ _ _ Hatt Hc). congruence.
Qed.

Lemma wp_new_connection act functors here loop p cbs s :
  loop_inv act functors s → loop ≠ 0 → pw_channels (rx_poller s) !! p = None →
  server_callbacks cbs →
  wp (new_connection here loop p cbs) (λ _ s', loop_inv act functors s' ∧
    (same_view functors s functors s' ∨ handed_over here p functors s s')) s.
Proof.
  intros Hinv Hloop Hp Hcbs. unfold new_connection. wp_step.
  wp_apply (wp_accept_connection act functors s Hinv).
  intros [fd|] s1 (Hinv1 & Hv & Hch & Hfd); [|wp_step; split; [done|left; apply Hv]].
  wp_apply (wp_hand_over act functors here loop p fd cbs s1); [done|done|congruence|done|apply Hfd..|].
  intros [] s2 [Hinv2 Hover]. split; [done|]. right. destruct (Hv functors) as [Hm1 Hs1 Hq1].
  destruct Hover as [Hm2 Hb2 Hs2 Hq2]. split; [congruence|by rewrite <-Hs1| |congruence].
  intros q. by rewrite Hs2, Hs1.
Qed.

(** The server forgets a connection that has its [connectDestroyed] queued. *)
Lemma unmapped_inv act functors p s :
  loop_inv act functors s →
  (∀ c, rx_conns s !! p = Some c →
     ConnectDestroyed ∈ pending c ∨ destroyed (set_poller (rx_poller s) c)) →
  loop_inv act functors (set_rx_mapped (rx_mapped s ∖ {[ p ]}) s).
Proof.
  intros [Hatt Hoo Htq Hcn Hcha Hfu Hba Hma Hnd Hac] Hp. split; cbn; auto.
  - intros q c Hq. destruct (Hcn _ _ Hq) as [? ? Hheld ?]. split; [done..| |done].
    destruct (decide (q = p)) as [->|Hne]; [right; by apply Hp|].
    destruct Hheld as [?|?]; [left; set_solver|by right].
  - intros q Hq. apply Hma. set_solver.
Qed.

Record taken_out (p : ptr) (functors : list owner) s s' : Prop := {
  to_mapped : rx_mapped s' = rx_mapped s ∖ {[ p ]};
  to_stage q : stage_at s' q = stage_at s q;
  to_queue : srv_queue functors s' = srv_queue functors s ++ [(p, ConnectDestroyed)];
}.

Lemma wp_remove_connection act functors here p c s :
  loop_inv act functors s → rx_conns s !! p = Some c → state_ c = kDisconnected →
  wp (remove_connection here p)
    (λ _ s', loop_inv act functors s' ∧ taken_out p functors s s') s.
Proof.
  intros Hinv Hc Hclose. pose proof (li_conn _ _ _ Hinv p c Hc) as [Hchan Hci Hheld Hcl].
  set (s0 := set_rx_mapped (rx_mapped s ∖ {[ p ]}) s).
  unfold remove_connection. wp_step. wp_step. fold s0.
  eapply wp_on_connection; [by apply moved_start|]. wp_step. wp_step.
  set (v := set_in_loop here (set_poller (rx_poller s0) c)).
  assert (conn_inv v) as Hv by by apply set_in_loop_inv.
  assert (event_ok QueueDestroy v) as Hok.
  { apply closes_member. destruct Hcl as [_ Hn]. cbn. by rewrite Hn, decide_True. }
  destruct (wp_run_conn_event QueueDestroy v Hv Hok) as [Hv' Hf].
  cbn [run_conn_event]. unfold queueInLoop. wp_step. fold v. set (v' := push_functor _ v) in *.
  split; [by eexists|].
  intros s' Hm. set (s1 := set_rx_mapped (rx_mapped s) s').
  assert (moved (pending c) p s v' s1) as Hm1.
  { destruct Hm as [? ? ? Hrest]. split; try done. cbn. injection Hrest. intros. congruence. }
  assert (ConnectDestroyed ∈ pending v') as Hdes by (cbn; set_solver).
  assert (loop_inv act functors s1) as Hinv1.
  { eapply (moved_inv act act functors functors _ p s c); try done; [by right; left|by apply Hinv|].
    intros Hact. destruct (active_open _ _ _ _ _ Hinv Hact Hc) as (Ho & ch & Hch & Hr).
    split; [exact Ho|]. exists ch. split; [|done]. unfold conn_channel. cbn. by rewrite Hchan. }
  assert (rx_mapped s' = rx_mapped s ∖ {[ p ]}) as Hmap by exact (moved_mapped _ _ _ _ _ Hm).
  assert (s' = set_rx_mapped (rx_mapped s1 ∖ {[ p ]}) s1) as Heq.
  { destruct s'. cbn in *. by rewrite Hmap. }
  split; [|split; [done| |]].
  - rewrite Heq. apply unmapped_inv; [done|]. intros c' Hc'. left.
    destruct (mv_conns _ _ _ _ _ Hm1) as (c2 & Hc2 & Heq2). rewrite Hc2, lookup_insert_eq in Hc'.
    injection Hc' as <-. by rewrite <-Heq2 in Hdes.
  - intros q. change (stage_at s1 q = stage_at s q). by eapply moved_stages.
  - change (srv_queue functors s1 = srv_queue functors s ++ [(p, ConnectDestroyed)]).
    unfold srv_queue. rewrite (moved_linear _ _ _ _ _ _ [ConnectDestroyed] Hm1);
      [|done|by eapply li_balanced].
    rewrite server_functors_app. f_equal. f_equal. apply linear_ext. intros q.
    case_decide as Hqp; [|done]. unfold pending_at. by rewrite Hqp, Hc.
Qed.

(** Closing a descriptor. *)
Lemma attached_log m w : attached w → attached (log_message m w).
Proof. intros [[] ? ? ?]. by split; [split|..]. Qed.

Lemma wp_close_raw fd Q s :
  (∀ r k' w, close_fd (epollfd_ (rx_poller s)) fd = (r, k') →
     w = set_epollfd k' (rx_poller s) ∨ (∃ m, w = log_message m (set_epollfd k' (rx_poller s))) →
     Q tt (note_closed fd (set_rx_poller w s))) →
  wp (close_descriptor fd) Q s.
Proof.
  intros HQ. unfold close_descriptor. wp_step. wp_step.
  destruct (close_fd (epollfd_ (rx_poller s)) fd) as [r k'] eqn:Hclose.
  unfold on_poller. do 5 wp_step. destruct r as [?|errno].
  - wp_step. eapply HQ; [done|by left].
  - wp_step. wp_step. apply (HQ (IoErr errno) k' (log_message _ (set_epollfd k' (rx_poller s))));
      [done|right; eauto].
Qed.

Lemma wp_close_descriptor fd Q s :
  attached (rx_poller s) → (∀ p ch, pw_channels (rx_poller s) !! p = Some ch → fd_ ch ≠ fd) →
  (∀ w, attached w → pw_channels w = pw_channels (rx_poller s) →
     (∀ fd', pollable (epollfd_ w) fd' =
        negb (bool_decide (fd' = fd)) && pollable (epollfd_ (rx_poller s)) fd') →
     Q tt (note_closed fd (set_rx_poller w s))) →
  wp (close_descriptor fd) Q s.
Proof.
  intros Hatt Hno HQ. apply wp_close_raw. intros r k' w Hclose Hw.
  destruct (close_ok _ _ _ _ Hclose) as [Hpoll Hint].
  pose proof (attached_closed fd k' _ Hatt Hno Hpoll Hint) as Hatt'.
  destruct Hw as [->|[m ->]]; apply HQ; try done. by apply attached_log.
Qed.

Lemma removed_inv act functors p w s :
  loop_inv act functors s → attached w → pw_channels w = delete p (pw_channels (rx_poller s)) →
  is_Some (rx_conns s !! p) → p ∉ act → p ∉ rx_mapped s →
  OfConnection p ∉ rx_pending s ++ functors →
  loop_inv act functors (set_rx_conns (delete p (rx_conns s)) (set_rx_poller w s)).
Proof.
  intros Hinv Hatt Heq [c Hc] Hact Hmap Hfun.
  pose proof (own_other _ _ _ _ _ Hinv Hc) as Hown.
  assert (∀ q, q ≠ p → pw_channels w !! q = pw_channels (rx_poller s) !! q) as Hsame.
  { intros q Hq. by rewrite Heq, lookup_delete_ne. }
  destruct Hinv as [_ Hoo Htq Hcn Hcha Hfu Hba Hma Hnd Hac].
  split; cbn; auto.
  - apply (own_ok_same s (rx_poller s)); [|done]. intros q Hq. apply Hsame. by intros ->.
  - intros q cq. rewrite lookup_delete_Some. intros [Hne Hq].
    destruct (Hcn _ _ Hq) as [Hcq Hi Hheld Hclq].
    assert (pw_channels w !! channel cq = pw_channels (rx_poller s) !! channel cq) as Hs
      by (rewrite Hcq; auto).
    split; [done| | |done].
    + eapply repoller_inv; [exact Hi|done|exact Hs].
    + destruct Hheld as [?|[?|[Hst (ch & Hch & Hidx)]]]; [by left|by right; left|].
      right; right. split; [done|]. exists ch. split; [|done]. unfold conn_channel in *.
      cbn in *. by rewrite Hs.
  - intros q Hq. rewrite Heq in Hq. destruct Hq as [ch [Hne Hq]%lookup_delete_Some].
    rewrite lookup_delete_ne by done. apply (Hcha q). eauto.
  - intros q Hq. rewrite lookup_delete_ne by (intros ->; done). auto.
  - intros q cq [_ Hq]%lookup_delete_Some. auto.
  - intros q Hq. rewrite lookup_delete_ne by (intros ->; done). auto.
  - intros q Hq. assert (q ≠ p) as Hne by (intros ->; done).
    destruct (Hac q Hq) as [?|(cq & ch & Hcq & ? & Hch & ?)]; [by left|]. right. exists cq, ch.
    cbn. by rewrite lookup_delete_ne, Hsame by done.
Qed.

Lemma note_closed_inv act functors fd s :
  loop_inv act functors s → loop_inv act functors (note_closed fd s).
Proof. intros []. by split. Qed.

(** Nothing holds the connection any more: not the server's map, nor a functor. *)
Definition unheld (p : ptr) c s : Prop := p ∉ rx_mapped s ∧ pending c = [].

Lemma unheld_queue act functors p c s :
  loop_inv act functors s → rx_conns s !! p = Some c → pending c = [] →
  OfConnection p ∉ rx_pending s ++ functors.
Proof.
  intros Hinv Hc Hpend. rewrite tokens_elem, tokens_app, (li_balanced _ _ _ Hinv p c Hc), Hpend.
  intros Hne. by apply Hne.
Qed.

Lemma wp_release_connection act functors p c s :
  loop_inv act functors s → rx_conns s !! p = Some c → unheld p c s →
  wp (release_connection p) (λ _ s', loop_inv act functors s' ∧
    rx_conns s' = delete p (rx_conns s) ∧ rx_mapped s' = rx_mapped s ∧
    rx_pending s' = rx_pending s ∧ rx_closed s' = rx_closed s ++ [sockfd c] ∧
    pollable (epollfd_ (rx_poller s')) (sockfd c) = false) s.
Proof.
  intros Hinv Hc (Hmap & Hpend). pose proof (unheld_queue _ _ _ _ _ Hinv Hc Hpend) as Hfun.
  pose proof (li_conn _ _ _ Hinv p c Hc) as [Hchan Hci Hheld _].
  destruct Hheld as [?|[Hin|[Hst (ch & Hch & Hidx)]]]; [done|rewrite Hpend in Hin; set_solver|].
  destruct (ci_channel _ Hci) as (ch' & Hch' & _ & Hfd & _).
  assert (ch' = ch) as -> by congruence.
  unfold conn_channel in Hch. cbn in Hch. rewrite Hchan in Hch. cbn in Hfd.
  assert (p ∉ act) as Hact.
  { intros Hin. destruct (active_open _ _ _ _ _ Hinv Hin Hc) as [[Ho|Ho] _]; cbn in Hst; congruence. }
  pose proof (li_attached _ _ _ Hinv) as Hatt.
  unfold release_connection, delete_channel, on_poller. wp_step.
  eapply wp_deref; [unfold connection_at; by rewrite Hc|]. wp_step. wp_step.
  eapply wp_deref; [exact Hch|]. wp_step. wp_step. wp_step.
  apply wp_close_descriptor; [by eapply attached_remove| |].
  { intros q chq. cbn. rewrite lookup_delete_Some. intros [Hne Hq] Hfdq. apply Hne.
    eapply (attached_inj _ Hatt); [exact Hch|exact Hq|]. congruence. }
  intros w Hw Heq Hpoll. wp_step. split_and!; try done.
  - assert (is_Some (rx_conns s !! p)) as Hp by eauto.
    exact (note_closed_inv _ _ (sockfd c) _
      (removed_inv act functors p w s Hinv Hw Heq Hp Hact Hmap Hfun)).
  - cbn. rewrite Hpoll. by rewrite bool_decide_eq_true_2.
Qed.

(** User code, in the loop's thread or in another one. *)
Lemma wp_call_connection act functors here p c cmd s :
  loop_inv act functors s → rx_conns s !! p = Some c → call_ok cmd →
  out_size c + call_cost cmd ≤ max_size →
  wp (on_connection p (run_conn_event (call_event here cmd)))
    (λ _ s', loop_inv act functors s' ∧ same_view functors s functors s') s.
Proof.
  intros Hinv Hc Hcmd Hsize. pose proof (li_conn _ _ _ Hinv p c Hc) as [Hchan Hci Hheld Hcl].
  eapply wp_on_connection; [by apply moved_start|].
  assert (run_conn_event (P:=PW) (call_event here cmd) =
    (modify (set_in_loop here) ;; run_user_call cmd)) as -> by by destruct here.
  wp_step. wp_step. set (v := set_in_loop here (set_poller (rx_poller s) c)).
  assert (conn_inv v) as Hv by by apply set_in_loop_inv.
  assert (closed_once v) as Hclv by done.
  pose proof (wp_run_user_call cmd v Hv Hcmd Hsize) as Hwp.
  assert (wp (run_user_call cmd) (λ _ v', (destroyed v → destroyed v') ∧ close_kept v v' ∧
    appended (pending c) v') v) as Hdes.
  { apply wp_run in Hwp as ([] & v' & Hrun & _). eapply wp_of_run; [exact Hrun|]. split_and!.
    - intros Hd. by apply (destroyed_user_call cmd v Hd tt).
    - by apply (user_call_closes cmd v Hclv tt).
    - by apply (keep_user_call True _ (appended_stable _) cmd v (appended_refl v) tt). }
  eapply wp_mono; [exact (wp_and _ _ _ _ Hwp Hdes)|].
  intros [] v' [(Hv' & Hf & _) (Hd & [Hn Hcl'] & Happ)]. specialize (Hcl' Hv').
  pose proof Happ as (fs & Hfs & _).
  split; [by eexists|]. intros s' Hm. split.
  2:{ split; [by eapply moved_mapped| |].
      - intros q. eapply moved_stages; [done..|].
        destruct (uf_state _ _ Hf) as [Hs|[Hs1 Hs2]]; [by rewrite Hs|]. cbn in Hs1. by rewrite Hs1, Hs2.
      - eapply moved_same_queue; [done..|]. by eapply li_balanced. }
  eapply (moved_inv act act functors functors _ p s c); try done.
  - split; [done| |done].
    apply user_event_frame, event_conn_frame in Hf as [? ? ? ?]. by split.
  - destruct Hheld as [?|[?|Hdest]]; [by left| |].
    + right; left. rewrite Hfs. cbn. set_solver.
    + right; right. apply Hd. by eapply destroyed_untouched; [|exact Hdest].
  - apply Hinv.
  - intros Hact. destruct (active_open _ _ _ _ _ Hinv Hact Hc) as (Ho & ch & Hch & Hr). split.
    + unfold is_open in *. pose proof (uf_state _ _ Hf) as Hs. cbn in Hs.
      destruct Hs as [-> |[_ ->]]; [exact Ho|by right].
    + pose proof (event_revents _ _ (user_event_frame _ _ Hf)) as Hrev.
      unfold revents_of, conn_channel in *. cbn in Hrev. rewrite Hchan, Hch in Hrev. cbn in Hrev.
      apply fmap_Some in Hrev as (ch' & Hch' & Hr'). exists ch'. split; [exact Hch'|].
      by rewrite <-Hr'.
Qed.
End spec.
