(* ===== verification/ReactorAcceptor.v ===== *)
(** * The acceptor on the base loop (src/net/Acceptor.cc, src/net/TcpServer.cc)

    The steps of Reactor.v that concern the server's own part of the base loop,
    the acceptor's channel and the functors of the server, keep the invariant
    of ReactorSpec.v; and how one of a loop's own channels goes away. *)
From S2P Require Import Prelude Posix Channel EPollPoller.
From S2P Require TimerQueue TimerQueueSpec.
From S2P Require Import TcpConnection TcpConnectionSpec ConnectionFrame Reactor ReactorSpec.

Section acceptor.
Context {K TCB : Type} `{!Epoll K, !EpollSpec K, !Descriptors K, !DescriptorsSpec K}.
Abbreviation PW := (PollWorld K loop_callback).
Context `{!ConnEnv PW, !ConnEnvSpec PW, !TimerQueue.TimerEnv TCB, !TimerQueueSpec.TimerEnvSpec TCB}.
Abbreviation RX := (Reactor (K:=K) (TCB:=TCB)).
Implicit Types (s : RX) (w : PW) (a : acceptor).

(** ** A channel of the loop's own goes away *)

(** [disableAll] on one of the loop's own channels, then out of the poller, by
    [rm], which is [Channel::remove] or [EventLoop::removeChannel]. *)
Lemma wp_withdraw (rm : ptr → M PW unit) chan fd (k : M RX unit) Q s :
  (∀ w ch, attached w → pw_channels w !! chan = Some ch →
     wp (rm chan) (λ _ w', attached w' ∧ reregistered chan ch kNew w w') w) →
  attached (rx_poller s) →
  (∃ ch, pw_channels (rx_poller s) !! chan = Some ch ∧ fd_ ch = fd) →
  (∀ w ch, attached w → pw_channels w = <[chan := ch]> (pw_channels (rx_poller s)) →
     pollable (epollfd_ w) = pollable (epollfd_ (rx_poller s)) →
     fd_ ch = fd → index_ ch = kNew → wp k Q (set_rx_poller w s)) →
  wp (on_poller (disableAll chan) ;; on_poller (rm chan) ;; k) Q s.
Proof.
  intros Hrm Hatt (ch & Hch & Hfd) Hk.
  wp_step. unfold on_poller at 1. wp_step. unfold disableAll.
  wp_apply (wp_epoll_change DisableAll chan ch); [done..|].
  intros [] w1 (Hatt1 & i & _ & _ & [_ Hpoll1] & Hch1).
  set (ch1 := set_index i (set_events _ ch)) in *.
  wp_step. unfold on_poller at 1. wp_step. cbn [rx_poller set_rx_poller].
  wp_apply (Hrm w1 ch1 Hatt1); [by rewrite Hch1, lookup_insert_eq|].
  intros [] w2 (Hatt2 & _ & [_ Hpoll2] & Hch2).
  apply (Hk w2 (set_index kNew ch1)); try done.
  - rewrite Hch2, Hch1. apply insert_insert_eq.
  - by rewrite Hpoll2.
Qed.

Lemma wp_channel_forget chan ch w :
  attached w → pw_channels w !! chan = Some ch →
  wp (remove chan) (λ _ w', attached w' ∧ reregistered chan ch kNew w w') w.
Proof.
  intros Hatt Hch. unfold remove. wp_step. eapply wp_deref; [exact Hch|].
  apply wp_when; [intros _; by apply wp_epoll_remove|].
  intros Hl%negb_false_iff%Z.eqb_eq. by destruct (attached_loop _ Hatt chan ch Hch).
Qed.

(** Closing the descriptor of a withdrawn channel and deleting the channel. *)
Lemma attached_withdrawn chan ch w r k' w' :
  attached w → pw_channels w !! chan = Some ch → index_ ch = kNew →
  close_fd (epollfd_ w) (fd_ ch) = (r, k') →
  w' = set_epollfd k' w ∨ (∃ m, w' = log_message m (set_epollfd k' w)) →
  attached (set_pw_channels (delete chan (pw_channels w')) w') ∧
  (∀ fd', pollable (epollfd_ w') fd' =
     negb (bool_decide (fd' = fd_ ch)) && pollable (epollfd_ w) fd') ∧
  pw_channels w' = pw_channels w.
Proof.
  intros Hatt Hch Hidx Hclose Hw'. destruct (close_ok _ _ _ _ Hclose) as [Hpoll Hint].
  assert (attached (set_epollfd k' (set_pw_channels (delete chan (pw_channels w)) w))) as Hatt'.
  { apply (attached_closed (fd_ ch)); [by eapply attached_remove| |done..].
    intros p c. cbn. rewrite lookup_delete_Some. intros [Hne Hp] Hfd. apply Hne.
    by eapply (attached_inj _ Hatt). }
  destruct Hw' as [->|[m ->]]; [done|]. split; [|done]. by apply (attached_log m) in Hatt'.
Qed.

(** The channel goes away while its descriptor has just been closed. *)
Lemma wp_delete_channel chan (k : M RX unit) Q s :
  is_Some (pw_channels (rx_poller s) !! chan) →
  wp k Q (set_rx_poller (set_pw_channels (delete chan (pw_channels (rx_poller s))) (rx_poller s)) s) →
  wp (delete_channel chan ;; k) Q s.
Proof.
  intros [ch Hch] Hk. wp_step. unfold delete_channel, on_poller. wp_step.
  eapply wp_deref; [exact Hch|]. by do 2 wp_step.
Qed.

(** ** The acceptor's channel changes *)

Lemma own_changed_inv act functors chan w new s :
  loop_inv act functors s → attached w →
  (∀ q, q ≠ chan → pw_channels w !! q = pw_channels (rx_poller s) !! q) →
  rx_conns s !! chan = None → chan ≠ rx_wakeupChannel s → chan ≠ rx_timerfdChannel s →
  (∀ a, rx_acceptor s = Some a → ac_channel a = chan) →
  (∀ a, new = Some a → ac_channel a = chan ∧ acceptor_ok a w) →
  (is_Some (pw_channels w !! chan) → is_Some new) →
  (chan ∈ act → ∃ a, new = Some a ∧ ac_listening a = true) →
  loop_inv act functors (set_rx_acceptor new (set_rx_poller w s)) ∧
  ∀ l, same_view l s l (set_rx_acceptor new (set_rx_poller w s)).
Proof.
  intros [_ (Hw & Ht & _) Htq Hcn Hcha Hfu Hba Hma Hnd Hac] Hatt Hsame Hno Hnw Hnt Hold Hnew Hgone Hact.
  split; [|by split]. split; try done.
  - split_and!; [eapply loop_channel_same; [|exact Hw]; auto|eapply loop_channel_same; [|exact Ht]; auto|].
    intros a Ha. by apply Hnew.
  - intros p c Hc. destruct (Hcn p c Hc) as [Hch Hci Hheld ?].
    assert (pw_channels w !! channel c = pw_channels (rx_poller s) !! channel c) as Hs.
    { rewrite Hch. apply Hsame. intros ->. cbn in Hc. congruence. }
    split; [done| | |done].
    + eapply repoller_inv; [exact Hci|done|exact Hs].
    + destruct Hheld as [?|[?|[Hst (ch & Hch' & Hi)]]]; [by left|by right; left|].
      right; right. split; [done|]. exists ch. split; [|done]. unfold conn_channel in *. cbn in *.
      by rewrite Hs.
  - cbn. intros p Hp. destruct (decide (p = chan)) as [->|Hne].
    + destruct (Hgone Hp) as [a ->]. destruct (Hnew a eq_refl) as [<- _]. left; right; right. by exists a.
    + rewrite Hsame in Hp by done. destruct (Hcha p Hp) as [[?|[?|(a & Ha & ->)]]|?].
      * left. by left.
      * left. by right; left.
      * by rewrite (Hold a Ha) in Hne.
      * by right.
  - intros p Hp. destruct (decide (p = chan)) as [->|Hne].
    + destruct (Hact Hp) as (a & -> & Hl). destruct (Hnew a eq_refl) as [<- _]. left.
      exists (ac_socket a), AcceptRead. right; right. by exists a.
    + destruct (Hac p Hp) as [(fd & cb & [?|[?|(a & Ha & _ & [= -> _ _])]])|(c & ch & Hc & Ho & Hch & Hr)].
      * left. exists fd, cb. by left.
      * left. exists fd, cb. by right; left.
      * by rewrite (Hold a Ha) in Hne.
      * right. exists c, ch. cbn. by rewrite Hsame.
Qed.

Lemma active_present act functors p s :
  loop_inv act functors s → p ∈ act → is_Some (pw_channels (rx_poller s) !! p).
Proof.
  intros Hinv Hp. destruct (li_active _ _ _ Hinv p Hp) as [(fd & cb & Hr)|(_ & ch & _ & _ & Hch & _)];
    [|eauto].
  apply (own_reading_channel _ _ _ _ _ (li_own _ _ _ Hinv)) in Hr as ((ch & Hch & _) & _). eauto.
Qed.

(** What is at the address of the acceptor's channel. *)
Lemma acceptor_channel act functors a s :
  loop_inv act functors s → rx_acceptor s = Some a →
  ac_channel a ≠ rx_wakeupChannel s ∧ ac_channel a ≠ rx_timerfdChannel s ∧
  rx_conns s !! ac_channel a = None ∧
  ∃ ch, pw_channels (rx_poller s) !! ac_channel a = Some ch ∧ fd_ ch = ac_socket a ∧ loop_ ch ≠ 0 ∧
    events_ ch = (if ac_listening a then kReadEvent else kNoneEvent) ∧
    readCallback_ ch = Some AcceptRead ∧ writeCallback_ ch = None ∧
    closeCallback_ ch = None ∧ errorCallback_ ch = None.
Proof.
  intros Hinv Ha. pose proof (li_own _ _ _ Hinv) as (Hw & Ht & Hacc). specialize (Hacc a Ha).
  assert (∃ ch, pw_channels (rx_poller s) !! ac_channel a = Some ch ∧ fd_ ch = ac_socket a ∧
    loop_ ch ≠ 0 ∧ events_ ch = (if ac_listening a then kReadEvent else kNoneEvent) ∧
    readCallback_ ch = Some AcceptRead ∧ writeCallback_ ch = None ∧
    closeCallback_ ch = None ∧ errorCallback_ ch = None) as (ch & Hch & Hfd & Hl & He & Hr & Hrest).
  { unfold acceptor_ok in Hacc.
    destruct (ac_listening a); destruct Hacc as (ch & ? & ? & ? & ? & _ & ?); by exists ch. }
  split_and!.
  - intros Heq. destruct Hw as (ch' & Hch' & _ & _ & _ & _ & Hr' & _). congruence.
  - intros Heq. destruct Ht as (ch' & Hch' & _ & _ & _ & _ & Hr' & _). congruence.
  - destruct (rx_conns s !! ac_channel a) as [c|] eqn:Hc; [|done].
    destruct (own_other _ _ _ _ _ Hinv Hc). right; right. by exists a.
  - by exists ch.
Qed.

Lemma wp_new_acceptor act functors loop chan s :
  loop_inv act functors s → loop ≠ 0 → pw_channels (rx_poller s) !! chan = None →
  rx_acceptor s = None → (∃ fd k', listen_socket (epollfd_ (rx_poller s)) = IoOk (fd, k')) →
  wp (new_acceptor loop chan) (λ _ s', (loop_inv act functors s' ∧ ∀ l, same_view l s l s') ∧
    ∃ fd, rx_acceptor s' = Some (MkAcceptor chan fd false 0)) s.
Proof.
  intros Hinv Hloop Hfresh Hnone (fd & k' & Hsock). pose proof (li_attached _ _ _ Hinv) as Hatt.
  destruct (listen_socket_ok _ _ _ Hsock) as [Hopen Hint].
  pose proof (attached_opened fd k' _ Hatt Hopen Hint) as Hatt1. pose proof Hopen as [Hclosed Hpoll].
  set (ch := setReadCallback AcceptRead (new_Channel loop fd)).
  assert (attached (pw_put chan ch (set_epollfd k' (rx_poller s)))) as Hatt2.
  { apply attached_add; [done..| |].
    - cbn. by rewrite Hpoll, bool_decide_eq_true_2.
    - intros q ch' Hq Hfd. pose proof (attached_pollable _ _ _ Hatt Hq). cbn in Hfd. congruence. }
  unfold new_acceptor, on_poller, open_or_die. wp_step. wp_step. wp_step. wp_step. rewrite Hsock.
  do 6 wp_step. split; [|by exists fd].
  assert (∀ q, is_Some (pw_channels (rx_poller s) !! q) → chan ≠ q) as Hne
    by (intros q [? Hq] ->; congruence).
  pose proof (li_own _ _ _ Hinv) as Hown.
  apply (own_changed_inv act functors chan (pw_put chan ch (set_epollfd k' (rx_poller s))) _ s); try done.
  - intros q Hq. cbn. by rewrite lookup_insert_ne.
  - by eapply no_connection.
  - apply Hne. destruct (own_channel _ _ (rx_wakeupChannel s) Hown) as (? & _ & ? & _); [by left|eauto].
  - apply Hne. destruct (own_channel _ _ (rx_timerfdChannel s) Hown) as (? & _ & ? & _);
      [by right; left|eauto].
  - intros a. by rewrite Hnone.
  - intros a [= <-]. split; [done|]. exists ch. cbn. by rewrite lookup_insert_eq.
  - intros Hact%(active_present _ _ _ _ Hinv). by apply Hne in Hact.
Qed.

Lemma wp_listen_acceptor act functors a s :
  loop_inv act functors s → rx_acceptor s = Some a →
  wp listen_acceptor (λ _ s', (loop_inv act functors s' ∧ ∀ l, same_view l s l s') ∧
    rx_acceptor s' = Some (start_listening a)) s.
Proof.
  intros Hinv Ha. destruct (acceptor_channel _ _ _ _ Hinv Ha)
    as (Hnw & Hnt & Hno & ch & Hch & Hfd & Hl & He & Hr & Hw & Hc & Herr).
  unfold listen_acceptor, on_poller. wp_step. eapply wp_deref; [exact Ha|]. do 3 wp_step.
  unfold enableReading. cbn [rx_poller set_rx_acceptor].
  wp_apply (wp_epoll_change EnableReading (ac_channel a) ch); [apply Hinv|done|].
  intros [] w (Hatt & i & Hi & _ & _ & Hchs). split; [|done].
  assert (new_mask EnableReading (events_ ch) = kReadEvent) as Hmask by (rewrite He; by destruct (ac_listening a)).
  rewrite Hmask in Hchs.
  apply (own_changed_inv act functors (ac_channel a) w (Some (start_listening a)) s); try done.
  - intros q Hq. by rewrite Hchs, lookup_insert_ne.
  - intros a'. rewrite Ha. by intros [= ->].
  - intros a' [= <-]. split; [done|]. eexists. cbn. by rewrite Hchs, lookup_insert_eq.
  - intros _. by exists (start_listening a).
Qed.

Lemma wp_delete_acceptor act functors a s :
  loop_inv act functors s → rx_acceptor s = Some a → ac_channel a ∉ act →
  wp delete_acceptor (λ _ s', (loop_inv act functors s' ∧ ∀ l, same_view l s l s') ∧
    rx_acceptor s' = None ∧ rx_closed s' = rx_closed s ++ [ac_socket a] ∧
    pollable (epollfd_ (rx_poller s')) (ac_socket a) = false) s.
Proof.
  intros Hinv Ha Hact. destruct (acceptor_channel _ _ _ _ Hinv Ha)
    as (Hnw & Hnt & Hno & ch & Hch & Hfd & _).
  pose proof (li_attached _ _ _ Hinv) as Hatt.
  unfold delete_acceptor. wp_step. eapply wp_deref; [exact Ha|].
  eapply wp_withdraw; [intros ? ?; apply wp_channel_forget|done|by exists ch|].
  intros w1 ch1 Hatt1 Hch1 Hp1 Hfd1 Hidx1.
  assert (pw_channels w1 !! ac_channel a = Some ch1) as Hlook by (by rewrite Hch1, lookup_insert_eq).
  apply wp_delete_channel; [by exists ch1|]. cbn [rx_poller set_rx_poller]. wp_step.
  set (w2 := set_pw_channels (delete (ac_channel a) (pw_channels w1)) w1).
  assert (attached w2) as Hatt2 by by eapply attached_remove.
  assert (pw_channels w2 = delete (ac_channel a) (pw_channels (rx_poller s))) as Hch2
    by (cbn; by rewrite Hch1, delete_insert_eq).
  apply wp_close_descriptor; [done| |].
  { intros p ch2. cbn [rx_poller set_rx_poller]. rewrite Hch2, lookup_delete_Some.
    intros [Hne Hp] Heq. apply Hne. eapply (attached_inj _ Hatt); [exact Hch|exact Hp|congruence]. }
  intros w3 Hatt3 Hch3 Hpoll3. cbn [rx_poller set_rx_poller] in Hch3, Hpoll3. wp_step. split_and!.
  - change (loop_inv act functors (note_closed (ac_socket a) (set_rx_acceptor None (set_rx_poller w3 s)))).
    apply note_closed_inv.
    apply (own_changed_inv act functors (ac_channel a) w3 None s); try done.
    + intros q Hq. by rewrite Hch3, Hch2, lookup_delete_ne.
    + intros a'. rewrite Ha. by intros [= ->].
    + rewrite Hch3, Hch2, lookup_delete_eq. by intros [? ?].
  - intros l. by split.
  - done.
  - done.
  - cbn. rewrite Hpoll3. by rewrite bool_decide_eq_true_2.
Qed.

(** ** The server's functors *)

Lemma note_server_inv act functors n b s (s' := note_queued OfServer n b s) :
  loop_inv act functors s → loop_inv act functors s' ∧ ∀ l, same_view l s l s'.
Proof.
  intros [Hatt Hoo Htq Hcn Hcha Hfu Hba Hma Hnd Hac]. unfold s', note_queued.
  destruct (negb b || calling _); (split; [|split; try done; unfold srv_queue; cbn;
    by rewrite app_assoc, linear_others]); (split; try done; cbn;
    [intros p; rewrite !elem_of_app; (intros [[?|Hr%elem_of_replicate_inv]|?]; [|done|]);
       apply Hfu; set_solver
    |intros p c Hc; rewrite tokens_app, tokens_replicate_ne, Nat.add_0_r by done; auto]).
Qed.
End acceptor.
