(* ===== verification/ReactorProps.v ===== *)
(** * The properties of a loop with everything on it

    Construction, all reachable states, and destruction; with a concrete
    kernel and the echo server of Echo.v in one loop. *)
From S2P Require Import Prelude Posix Channel EPollPoller.
From S2P Require TimerQueue TimerQueueSpec TimerQueueProps.
From S2P Require Import Buffer TcpConnection TcpConnectionSpec TcpConnectionProps ConnectionFrame.
From S2P Require Import Echo Reactor ReactorSpec ReactorAcceptor.

Section steps.
Context {K TCB : Type} `{!Epoll K, !EpollSpec K, !Descriptors K, !DescriptorsSpec K}.
Abbreviation PW := (PollWorld K loop_callback).
Context `{!ConnEnv PW, !ConnEnvSpec PW, !TimerQueue.TimerEnv TCB, !TimerQueueSpec.TimerEnvSpec TCB}.
Abbreviation RX := (Reactor (K:=K) (TCB:=TCB)).
Implicit Types (s : RX) (c : ConnW PW).

(** The loop's own thread runs other code only between its polls. *)
Definition in_turn (here : bool) s : Prop := here = true → rx_phase s ≠ AtPoll.

(** What may happen: the kernel reports what [poll_ok] says, memory holds what
    is read and sent, a new connection has an address of its own, the server
    removes a connection once its close callback has been called, and a
    connection goes away when nothing holds it; the one acceptor gets a socket,
    and does not go away while its channel waits to be handled. *)
Definition loop_event_ok (ev : loop_event (TCB:=TCB)) s : Prop :=
  match ev with
  | LoopThread epoll_wait =>
      match rx_phase s with
      | AtPoll => poll_ok epoll_wait (rx_poller s)
      | Handling (p :: _) => ∀ c, connection_at p s = Some c → read_room c
      | Running (o :: _) => owner_room o s
      | _ => True
      end
  | NewConnection here loop p cbs =>
      in_turn here s ∧ loop ≠ 0 ∧ pw_channels (rx_poller s) !! p = None ∧ server_callbacks cbs
  | RemoveConnection here p =>
      in_turn here s ∧ p ∈ rx_mapped s ∧ ∃ c, rx_conns s !! p = Some c ∧ CloseCallback ∈ upcalls c
  | ReleaseConnection p =>
      ∃ c, rx_conns s !! p = Some c ∧ unheld p c s
  | CallConnection here p cmd =>
      in_turn here s ∧ ∃ c, rx_conns s !! p = Some c ∧ call_ok cmd ∧ out_size c + call_cost cmd ≤ max_size
  | CallTimers b cmd => TimerQueueSpec.event_ok (TimerQueueSpec.Call b cmd) (rx_timers s)
  | MakeAcceptor loop chan =>
      loop ≠ 0 ∧ pw_channels (rx_poller s) !! chan = None ∧ rx_acceptor s = None ∧
      ∃ fd k', listen_socket (epollfd_ (rx_poller s)) = IoOk (fd, k')
  | ListenAcceptor => is_Some (rx_acceptor s)
  | DeleteAcceptor => ∃ a, rx_acceptor s = Some a ∧ ac_channel a ∉ active_of (rx_phase s)
  | QueueRemoval => True
  end.

(** What an event changes of what the server sees. *)
Record released (p : ptr) (functors : list owner) s (s' : RX) : Prop := {
  rl_mapped : rx_mapped s' = rx_mapped s;
  rl_unmapped : p ∉ rx_mapped s;
  rl_stage q : stage_at s' q = if decide (q = p) then None else stage_at s q;
  rl_queue : srv_queue functors s' = srv_queue functors s;
}.

Definition step_view s (s' : RX) : Prop :=
  match rx_phase s with
  | Handling (p :: act) => closing p [] s s' ∧ rx_phase s' = Handling act
  | Running (o :: functors) => ran o functors s s' ∧ rx_phase s' = Running functors
  | _ => same_view (functors_of (rx_phase s)) s (functors_of (rx_phase s')) s'
  end.

Definition environment_view (ev : loop_event (TCB:=TCB)) (functors : list owner) s (s' : RX) : Prop :=
  match ev with
  | LoopThread _ => False
  | NewConnection here _ p _ => same_view functors s functors s' ∨ handed_over here p functors s s'
  | RemoveConnection _ p => taken_out p functors s s'
  | ReleaseConnection p => released p functors s s'
  | CallConnection _ _ _ | CallTimers _ _ | MakeAcceptor _ _ | ListenAcceptor | DeleteAcceptor
  | QueueRemoval => same_view functors s functors s'
  end.

Lemma same_view_phase l s l' s' ph : same_view l s l' s' → same_view l s l' (set_rx_phase ph s').
Proof. intros []. by split. Qed.
Lemma closing_phase p l s s' ph : closing p l s s' → closing p l s (set_rx_phase ph s').
Proof. intros []. by split. Qed.
Lemma ran_phase o l s s' ph : ran o l s s' → ran o l s (set_rx_phase ph s').
Proof. intros []. by split. Qed.

Lemma wp_loop_step epoll_wait s :
  reactor_inv s → loop_event_ok (LoopThread epoll_wait) s →
  wp (loop_step epoll_wait) (λ _ s', reactor_inv s' ∧ step_view s s') s.
Proof.
  unfold reactor_inv, step_view. intros Hinv Hok. unfold loop_step. wp_step. wp_step. cbn in Hok.
  destruct (rx_phase s) as [|[|p act]|[|o functors]]; cbn [active_of functors_of] in Hinv.
  - wp_step. wp_apply (wp_poll_inv epoll_wait s); [done..|]. intros act s' [Hinv' Hv]. wp_step.
    split; [by apply loop_inv_phase|]. apply same_view_phase, Hv.
  - wp_step. wp_step. wp_step. split.
    + destruct Hinv as [? ? ? ? ? Hfu Hba ? ? ?]. split; try done.
      * intros p Hp. apply Hfu. by rewrite app_nil_r.
      * intros p c Hc. rewrite <-(Hba p c Hc). cbn. change (tokens p []) with 0%nat. lia.
    + split; [done..|]. unfold srv_queue. cbn. by rewrite app_nil_r.
  - assert (wp (handle_channel p) (λ _ s', loop_inv act [] s' ∧ closing p [] s s') s) as Hwp.
    { destruct (li_active _ _ _ Hinv p) as [(fd & cb & Hown)|(c & ch & Hc & Ho & Hch & Hr)]; [set_solver|..].
      - wp_apply wp_handle_own; [done..|].
        intros [] s' [? ?]. split; [done|by apply same_view_closing].
      - eapply wp_handle_connection; [done|exact Hc|done|by exists ch|].
        apply Hok. unfold connection_at. by rewrite Hc. }
    wp_step. wp_apply Hwp. intros [] s' [Hinv' ?]. wp_step.
    split_and!; [by apply loop_inv_phase|by apply closing_phase|done].
  - wp_step. split; [by apply loop_inv_phase|by split].
  - wp_step. wp_apply (wp_run_owner [] functors o s); [done|set_solver|done|].
    intros [] s' [Hinv' ?]. wp_step.
    split_and!; [by apply loop_inv_phase|by apply ran_phase|done].
Qed.

(** ** What the steps leave alone *)

(** The server's functors in a queue. *)
Definition server_tokens (l : list owner) : nat := length (filter (λ o, o = OfServer) l).
#[global] Arguments server_tokens : simpl never.

Lemma server_tokens_app l1 l2 :
  server_tokens (l1 ++ l2) = (server_tokens l1 + server_tokens l2)%nat.
Proof. unfold server_tokens. by rewrite filter_app, length_app. Qed.
Lemma server_tokens_replicate o n :
  server_tokens (replicate n o) = if decide (o = OfServer) then n else 0%nat.
Proof.
  unfold server_tokens. induction n as [|n IH]; [by case_decide|]. cbn [replicate].
  rewrite filter_cons. case_decide; simpl; by rewrite IH.
Qed.

(** How the acceptor is registered. *)
Definition acceptor_view s : option (ptr * Z * bool) :=
  (λ a, (ac_channel a, ac_socket a, ac_listening a)) <$> rx_acceptor s.

(** Nothing but the loop thread moves on, nothing but [queue_removal] queues
    functors of the server, and the acceptor stays. *)
Definition thread_view s : phase * nat * option (ptr * Z * bool) :=
  (rx_phase s, server_tokens (rx_pending s), acceptor_view s).
Definition same_phase s (s' : RX) : Prop := thread_view s' = thread_view s.

Lemma note_queued_phase o n b s : o ≠ OfServer → same_phase s (note_queued o n b s).
Proof.
  intros Ho. unfold same_phase, note_queued, thread_view, acceptor_view.
  destruct (negb b || calling _); cbn; by rewrite server_tokens_app, server_tokens_replicate,
    decide_False, Nat.add_0_r by done.
Qed.

Lemma on_connection_phase {A} p (m : M (ConnW PW) A) s :
  wlp (on_connection p m) (λ _, same_phase s) s.
Proof.
  unfold on_connection. wlp_run. destruct a0 as [x c]. wlp_run.
  unfold put_connection. etrans; [by apply note_queued_phase|done].
Qed.

Lemma on_timers_phase {A} (m : M (TimerQueue.TQ TCB) A) s : wlp (on_timers m) (λ _, same_phase s) s.
Proof. unfold on_timers. wlp_run. unfold put_timers. etrans; [by apply note_queued_phase|done]. Qed.

Lemma close_descriptor_phase fd s : wlp (close_descriptor fd) (λ _, same_phase s) s.
Proof.
  unfold close_descriptor, on_poller. wlp_run. destruct (close_fd _ fd) as [[?|?] k']; by wlp_run.
Qed.

Lemma run_owner_phase o s : wlp (run_owner o) (λ _, same_phase s) s.
Proof.
  destruct o as [| |p]; cbn [run_owner]; [apply on_timers_phase|by apply wlp_ret|].
  apply wlp_bind. eapply wlp_mono; [apply on_connection_phase|]. intros [f|] s1 H1; [|by apply wlp_ret].
  eapply wlp_mono; [apply on_connection_phase|]. intros [] s2 H2. unfold same_phase in *. congruence.
Qed.

Lemma handle_channel_phase p s : wlp (handle_channel p) (λ _, same_phase s) s.
Proof.
  assert (∀ q cb s1, same_phase s s1 → wlp (run_loop_callback q cb) (λ _, same_phase s) s1) as Hcb.
  { intros q cb s1 H1. destruct cb; cbn [run_loop_callback].
    - by wlp_run.
    - eapply wlp_mono; [apply on_timers_phase|]. intros [] s2 H2. unfold same_phase in *. congruence.
    - wlp_run. etrans; [|exact H1]. unfold thread_view, acceptor_view. cbn. by destruct (rx_acceptor s1).
    - eapply wlp_mono; [apply on_connection_phase|]. intros [] s2 H2. unfold same_phase in *. congruence. }
  assert (∀ test get s1, same_phase s s1 →
    wlp (on_revents rx_channel_at (run_loop_callback p) test get p) (λ _, same_phase s) s1) as Hon.
  { intros test get s1 H1. unfold on_revents, fire. wlp_run. wlp_step; [|done]. wlp_run.
    case_match; [by apply Hcb|by wlp_step]. }
  unfold handle_channel, handleEvent, handleEventWithGuard. do 2 wlp_step.
  repeat (apply wlp_bind; eapply wlp_mono; [by apply Hon|]; intros [] ? ?). by apply Hon.
Qed.

Lemma hand_over_phase here loop p fd cbs s :
  wlp (hand_over here loop p fd cbs) (λ _ s', same_phase s s') s.
Proof.
  unfold hand_over, run_established. wlp_run. set (s1 := set_rx_mapped _ _).
  apply wlp_if; intros _; [exact (run_owner_phase _ s1)|]. wlp_run.
  etrans; [by apply note_queued_phase|done].
Qed.

Definition about_acceptor (ev : loop_event (TCB:=TCB)) : bool :=
  match ev with MakeAcceptor _ _ | ListenAcceptor | DeleteAcceptor => true | _ => false end.

Definition event_tokens (ev : loop_event (TCB:=TCB)) : nat :=
  match ev with QueueRemoval => 1 | _ => 0 end.

Record after_event (ev : loop_event (TCB:=TCB)) s (s' : RX) : Prop := {
  ae_phase : rx_phase s' = rx_phase s;
  ae_tokens : server_tokens (rx_pending s') =
    (server_tokens (rx_pending s) + event_tokens ev)%nat;
  ae_acceptor : about_acceptor ev = false → acceptor_view s' = acceptor_view s;
}.

Lemma same_phase_after ev (m : M RX unit) s :
  ev ≠ QueueRemoval → wlp m (λ _, same_phase s) s → wlp m (λ _ s', after_event ev s s') s.
Proof.
  intros Hev Hm. eapply wlp_mono; [exact Hm|]. intros [] s' [= ? ? ?]. split; [done| |done].
  cbn in *; destruct ev; cbn; lia || done.
Qed.

Lemma environment_phase ev s :
  (∀ epoll_wait, ev ≠ LoopThread epoll_wait) → wlp (run_loop_event ev) (λ _ s', after_event ev s s') s.
Proof.
  intros Hev.
  destruct ev as [w|here loop p cbs|here p|p|here p cmd|b cmd|loop chan| | |];
    cbn [run_loop_event]; [by destruct (Hev w)|..].
  - apply same_phase_after; [done|].
    unfold new_connection, accept_connection, on_poller. wlp_run.
    destruct (accept4 _) as [[fd k']|]; wlp_run; [|done]. exact (hand_over_phase _ _ _ _ _ _).
  - apply same_phase_after; [done|]. unfold remove_connection. wlp_run.
    apply (on_connection_phase p _ (set_rx_mapped (rx_mapped s ∖ {[ p ]}) s)).
  - apply same_phase_after; [done|].
    unfold release_connection, delete_channel, on_poller. wlp_run.
    eapply wlp_mono; [apply close_descriptor_phase|]. intros [] s' Hs'. by wlp_run.
  - apply same_phase_after; [done|]. apply on_connection_phase.
  - apply same_phase_after; [done|]. apply on_timers_phase.
  - unfold new_acceptor, on_poller. wlp_run. split; [done|apply plus_n_O|done].
  - unfold listen_acceptor, on_poller. wlp_run. split; [done|apply plus_n_O|done].
  - unfold delete_acceptor, delete_channel, on_poller. wlp_run.
    eapply wlp_mono; [apply close_descriptor_phase|]. intros [] s' [= Hp Hq _]. wlp_run.
    split; [exact Hp|cbn in *; lia|done].
  - unfold queue_removal, note_queued. wlp_run. destruct (negb false || calling _); split; try done;
      cbn; by rewrite server_tokens_app.
Qed.

(** The functors of the server that are left to run, and the step that runs
    one. *)
Definition server_waiting s : nat := server_tokens (functors_of (rx_phase s) ++ rx_pending s).

Lemma after_event_waiting ev s s' :
  after_event ev s s' → server_waiting s' = (server_waiting s + event_tokens ev)%nat.
Proof. intros [Hph Hq _]. unfold server_waiting. rewrite !server_tokens_app, Hph, Hq. lia. Qed.

Definition runs_server (ph : phase) : nat :=
  match ph with Running (OfServer :: _) => 1 | _ => 0 end.

Lemma loop_step_tokens epoll_wait s :
  wlp (loop_step epoll_wait) (λ _ s', server_waiting s = (server_waiting s' + runs_server (rx_phase s))%nat ∧
    acceptor_view s' = acceptor_view s) s.
Proof.
  unfold loop_step, server_waiting. do 2 wlp_step.
  destruct (rx_phase s) as [|[|p act]|[|o functors]] eqn:Hph; cbn [functors_of runs_server app].
  - unfold on_poller. wlp_run. split; [apply plus_n_O|done].
  - wlp_run. split; [|done]. cbn. by rewrite app_nil_r, Nat.add_0_r.
  - apply wlp_bind. eapply wlp_mono; [apply handle_channel_phase|]. intros [] s' [= _ Hq Ha]. wlp_run.
    split; [|done]. cbn. by rewrite Hq, Nat.add_0_r.
  - wlp_run. split; [apply plus_n_O|done].
  - apply wlp_bind. eapply wlp_mono; [apply run_owner_phase|]. intros [] s' [= _ Hq Ha]. wlp_run.
    split; [|done]. cbn [rx_pending set_rx_phase rx_phase functors_of]. rewrite !server_tokens_app, Hq.
    rewrite <-server_tokens_app. set (q := functors ++ _).
    unfold server_tokens. rewrite filter_cons. case_decide as Ho; destruct o; try done; simpl; lia.
Qed.

Lemma wp_environment ev functors s (act := active_of (rx_phase s)) :
  (∀ epoll_wait, ev ≠ LoopThread epoll_wait) → loop_inv act functors s →
  loop_event_ok ev s →
  wp (run_loop_event ev) (λ _ s', loop_inv act functors s' ∧ environment_view ev functors s s') s.
Proof.
  intros Hev Hinv Hok.
  destruct ev as [w|here loop p cbs|here p|p|here p cmd|b cmd|loop chan| | |]; cbn [run_loop_event];
    cbn [loop_event_ok environment_view] in *; [by destruct (Hev w)|..].
  - destruct Hok as (_ & ? & ? & ?). by apply wp_new_connection.
  - destruct Hok as (_ & _ & c & Hc & Hclose).
    eapply wp_remove_connection; [done..|].
    exact (co_closed _ (ci_core _ (ck_inv _ _ _ _ (li_conn _ _ _ Hinv _ _ Hc))) Hclose).
  - destruct Hok as (c & Hc & Hun). pose proof (unheld_queue _ _ _ _ _ Hinv Hc (proj2 Hun)) as Hq.
    wp_apply (wp_release_connection act); [done..|].
    intros [] s' (Hinv' & Hconns & Hm & Hrest & _). split; [done|]. split; [done|apply Hun|..].
    + intros q. unfold stage_at. rewrite Hconns. case_decide as Hqp.
      * by rewrite Hqp, lookup_delete_eq.
      * by rewrite lookup_delete_ne.
    + unfold srv_queue. rewrite Hrest. f_equal. apply (linear_absent _ _ p).
      * rewrite tokens_elem, !tokens_app in Hq. rewrite tokens_app. lia.
      * intros q Hqp. unfold pending_at. by rewrite Hconns, lookup_delete_ne.
  - destruct Hok as (_ & c & Hc & Hcmd & Hsize). by eapply wp_call_connection.
  - unfold on_timers. wp_step. wp_apply (TimerQueueSpec.wp_run_event _ (rx_timers s));
      [apply Hinv|done|]. intros [] q Hq.
    destruct (put_timers_inv act functors q s Hinv Hq) as (? & _ & Hv). split; [done|apply Hv].
  - destruct Hok as (? & ? & ? & ?). wp_apply (wp_new_acceptor act functors); [done..|].
    intros [] s' [[? ?] _]. by split.
  - destruct Hok as [a Ha]. wp_apply (wp_listen_acceptor act functors a); [done..|].
    intros [] s' [[? ?] _]. by split.
  - destruct Hok as (a & Ha & Hact). wp_apply (wp_delete_acceptor act functors a); [done..|].
    intros [] s' [[? ?] _]. by split.
  - unfold queue_removal. wp_step. destruct (note_server_inv act functors 1 false s Hinv) as [? Hv].
    split; [done|apply Hv].
Qed.

Lemma wp_environment_event ev s :
  (∀ epoll_wait, ev ≠ LoopThread epoll_wait) → reactor_inv s → loop_event_ok ev s →
  wp (run_loop_event ev) (λ _ s', reactor_inv s' ∧ after_event ev s s' ∧
    environment_view ev (functors_of (rx_phase s)) s s') s.
Proof.
  intros Hev Hinv Hok.
  eapply wp_mono; [exact (wp_wlp _ _ _ _ (wp_environment ev _ s Hev Hinv Hok)
    (environment_phase ev s Hev))|].
  intros [] s' [[Hs' ?] Hafter]. pose proof (ae_phase _ _ _ Hafter) as Hph.
  unfold reactor_inv. by rewrite Hph.
Qed.

Lemma wp_run_loop_event ev s :
  reactor_inv s → loop_event_ok ev s → wp (run_loop_event ev) (λ _ s', reactor_inv s') s.
Proof.
  intros Hinv Hok.
  assert ((∃ w, ev = LoopThread w) ∨ ∀ w, ev ≠ LoopThread w) as [[w ->]|Hev]
    by (destruct ev; eauto).
  - wp_apply wp_loop_step; [done..|]. by intros [] s' [? _].
  - wp_apply wp_environment_event; [done..|]. by intros [] s' [? _].
Qed.

Definition loop_step_of s (s' : RX) : Prop :=
  ∃ ev, loop_event_ok ev s ∧ run_loop_event ev s = Ok (tt, s').

Lemma loop_steps_inv s s' : reactor_inv s → rtc loop_step_of s s' → reactor_inv s'.
Proof.
  apply rtc_invariant. intros s1 s2 Hinv (ev & Hok & Hrun).
  pose proof (wp_run_loop_event ev s1 Hinv Hok) as Hwp. unfold wp in Hwp. by rewrite Hrun in Hwp.
Qed.
End steps.

(** ** Construction *)
Section construction.
Context {K TCB : Type} `{!Epoll K, !EpollSpec K, !Descriptors K, !DescriptorsSpec K}.
Abbreviation PW := (PollWorld K loop_callback).
Context `{!ConnEnv PW, !ConnEnvSpec PW, !TimerQueue.TimerEnv TCB, !TimerQueueSpec.TimerEnvSpec TCB}.
Abbreviation RX := (Reactor (K:=K) (TCB:=TCB)).
Implicit Types (s : RX) (w : PW).

(** A channel for a descriptor that has just been opened. *)
Lemma wp_reading_channel loop chan fd cb w :
  attached w → loop ≠ 0 → pw_channels w !! chan = None → pollable (epollfd_ w) fd = true →
  (∀ q ch, pw_channels w !! q = Some ch → fd_ ch ≠ fd) →
  wp (reading_channel loop chan fd cb) (λ _ w', attached w' ∧ loop_channel chan fd cb w' ∧
    delete chan (pw_channels w') = pw_channels w ∧
    interest (epollfd_ w') = <[fd := (kReadEvent, chan)]> (interest (epollfd_ w)) ∧
    pollable (epollfd_ w') = pollable (epollfd_ w)) w.
Proof.
  intros Hatt Hloop Hfresh Hopen Hno. unfold reading_channel. wp_step. wp_step. wp_step.
  eapply wp_deref; [apply lookup_insert_eq|]. wp_step. wp_step.
  set (ch := setReadCallback cb (new_Channel loop fd)).
  assert (pw_put chan ch (pw_put chan (new_Channel loop fd) w) = pw_put chan ch w) as ->.
  { unfold pw_put, set_pw_channels. cbn. by rewrite insert_insert_eq. }
  assert (attached (pw_put chan ch w)) as Hatt1 by (by apply attached_add).
  set (w1 := pw_put chan ch w) in *. pose proof (attached_synced _ Hatt1) as Hs1.
  assert (pw_channels w1 !! chan = Some ch) as Hch by apply lookup_insert_eq.
  unfold enableReading. wp_apply (wp_epoll_change EnableReading chan ch); [done..|].
  intros [] w2 (Hatt2 & i & Hi & Hcons & [Hframe Hpoll] & Hchs).
  set (ch2 := set_index i (set_events _ ch)) in Hchs.
  assert (pw_channels w2 = <[chan := ch2]> (pw_channels w)) as Hch2.
  { rewrite Hchs. apply insert_insert_eq. }
  assert (interest (epollfd_ w2) !! fd = Some (kReadEvent, chan)) as Hwat.
  { apply (consistent_watched chan ch2 w2 Hcons); [|done..]. by rewrite Hch2, lookup_insert_eq. }
  split_and!; [done| | | |done].
  - exists ch2. by rewrite Hch2, lookup_insert_eq.
  - by rewrite Hch2, delete_insert_id.
  - apply map_eq. intros fd'. destruct (decide (fd' = fd)) as [->|Hne].
    + by rewrite lookup_insert_eq.
    + rewrite lookup_insert_ne by done. by apply Hframe.
Qed.

(** The kernel gives no descriptor. *)
Definition refused : Prop :=
  ∃ (k : K) errno, epoll_create1 k = IoErr errno ∨ timerfd_create k = IoErr errno ∨
    eventfd k = IoErr errno.

(** Opening a descriptor and its channel. *)
Lemma run_open_channel (open : K → io_result (Z * K)) loop chan cb w :
  attached w → loop ≠ 0 → pw_channels w !! chan = None →
  (∀ k fd k', open k = IoOk (fd, k') → opened fd k k' ∧ interest k' = interest k) →
  match open_or_die open w with
  | Fault e => e = AbortFatal ∧ ∃ k errno, open k = IoErr errno
  | Ok (fd, w1) =>
      pollable (epollfd_ w) fd = false ∧
      ∃ w2, reading_channel loop chan fd cb w1 = Ok (tt, w2) ∧ attached w2 ∧
        loop_channel chan fd cb w2 ∧ delete chan (pw_channels w2) = pw_channels w ∧
        interest (epollfd_ w2) = <[fd := (kReadEvent, chan)]> (interest (epollfd_ w)) ∧
        ∀ fd', pollable (epollfd_ w2) fd' = bool_decide (fd' = fd) || pollable (epollfd_ w) fd'
  end.
Proof.
  intros Hatt Hloop Hfresh Hopens. unfold open_or_die, mbind, M_bind, gets.
  destruct (open (epollfd_ w)) as [[fd k']|errno] eqn:Hopen; [|by split; [|eauto]].
  destruct (Hopens _ _ _ Hopen) as [Hnew Hint]. cbn. pose proof Hnew as [Hclosed Hpoll].
  split; [done|]. pose proof (attached_opened fd k' w Hatt Hnew Hint) as Hatt1.
  assert (pollable (epollfd_ (set_epollfd k' w)) fd = true) as Hfd
    by (cbn; by rewrite Hpoll, bool_decide_eq_true_2).
  assert (∀ q ch, pw_channels (set_epollfd k' w) !! q = Some ch → fd_ ch ≠ fd) as Hno.
  { intros q ch Hq Hfd'. pose proof (attached_pollable _ _ _ Hatt Hq). congruence. }
  pose proof (wp_reading_channel loop chan fd cb _ Hatt1 Hloop Hfresh Hfd Hno) as Hwp.
  apply wp_run in Hwp as ([] & w2 & Hrun & ? & ? & ? & Hi & Hp). exists w2.
  split_and!; try done; [by rewrite Hi; cbn; rewrite Hint|].
  intros fd'. rewrite Hp. apply Hpoll.
Qed.

Record constructed (timerfdChannel wakeupChannel : ptr) (k : K) s : Prop := {
  cs_inv : reactor_inv s;
  cs_phase : rx_phase s = AtPoll;
  cs_pending : rx_pending s = [];
  cs_conns : rx_conns s = ∅;
  cs_closed : rx_closed s = [];
  cs_own : (rx_timerfdChannel s, rx_wakeupChannel s, rx_acceptor s) =
    (timerfdChannel, wakeupChannel, None);
  cs_watched : interest (epollfd_ (rx_poller s)) =
    {[ rx_wakeupFd s := (kReadEvent, wakeupChannel); rx_timerfd s := (kReadEvent, timerfdChannel) ]};
  cs_fresh : Forall (λ fd, pollable k fd = false) [rx_epollfd s; rx_timerfd s; rx_wakeupFd s];
  cs_distinct : NoDup [rx_epollfd s; rx_timerfd s; rx_wakeupFd s];
}.

Lemma constructed_fresh timerfdChannel wakeupChannel k s p :
  constructed timerfdChannel wakeupChannel k s → p ≠ timerfdChannel → p ≠ wakeupChannel →
  pw_channels (rx_poller s) !! p = None.
Proof.
  intros [Hinv _ _ Hconns _ [= Ht Hw Ha] _ _ _] Hpt Hpw.
  destruct (pw_channels (rx_poller s) !! p) as [ch|] eqn:Hp; [|done]. exfalso.
  destruct (li_channels _ _ _ Hinv p) as [[?|[?|(a & Ha' & _)]]|[c Hc]]; [eauto|congruence..|].
  by rewrite Hconns, lookup_empty in Hc.
Qed.

Lemma attached_new_poller k l : interest k = ∅ → attached (MkPollWorld ∅ ∅ k l [] : PW).
Proof.
  intros Hk. split; [split|..]; cbn; try (intros; by simplify_map_eq).
  intros fd m p. by rewrite Hk, lookup_empty.
Qed.

Lemma new_EventLoop_spec loop timerfdChannel wakeupChannel k :
  loop ≠ 0 → timerfdChannel ≠ wakeupChannel →
  match new_EventLoop (TCB:=TCB) loop timerfdChannel wakeupChannel k with
  | Ok s => constructed timerfdChannel wakeupChannel k s
  | Fault e => e = AbortFatal ∧ refused
  end.
Proof.
  intros Hloop Hne.
  unfold new_EventLoop, new_TimerQueue, createTimerfd, createEventfd, mbind, M_bind, outcome_bind.
  destruct (epoll_create1 k) as [[epollfd k1]|errno] eqn:Hcreate; [|by split; [|eexists _, _; eauto]].
  destruct (epoll_create1_ok _ _ _ Hcreate) as [[Hclosed1 Hpoll1] Hempty].
  cbn. set (w0 := MkPollWorld ∅ ∅ k1 _ []).
  pose proof (attached_new_poller k1 (replicate (Z.to_nat kInitEventListSize) (0, 0)) Hempty) as Hatt0.
  fold w0 in Hatt0.
  pose proof (run_open_channel timerfd_create loop timerfdChannel TimerRead w0 Hatt0 Hloop
    (lookup_empty _) timerfd_create_ok) as Hopen.
  destruct (open_or_die timerfd_create w0) as [[timerfd w1]|e]; cbn;
    [|destruct Hopen as (-> & k' & e' & ?); split; [done|exists k', e'; auto]].
  destruct Hopen as (Hclosed2 & w2 & Hrun & Hatt2 & Htimer & Hdel2 & Hint2 & Hpoll2).
  rewrite Hrun. cbn.
  assert (pw_channels w2 !! wakeupChannel = None) as Hfresh.
  { rewrite <-(lookup_delete_ne _ timerfdChannel) by done. rewrite Hdel2. apply lookup_empty. }
  pose proof (run_open_channel eventfd loop wakeupChannel WakeupRead w2 Hatt2 Hloop Hfresh
    eventfd_ok) as Hopen.
  destruct (open_or_die eventfd w2) as [[wakeupFd w3]|e]; cbn;
    [|destruct Hopen as (-> & k' & e' & ?); split; [done|exists k', e'; auto]].
  destruct Hopen as (Hclosed3 & w4 & -> & Hatt4 & Hwakeup & Hdel4 & Hint4 & Hpoll4). cbn.
  cbn in Hclosed2, Hpoll2. rewrite Hpoll2, orb_false_iff in Hclosed3.
  destruct Hclosed3 as [Hd3 Hclosed3]. apply bool_decide_eq_false in Hd3.
  pose proof Hclosed2 as Hc2. rewrite Hpoll1, orb_false_iff in Hc2. destruct Hc2 as [Hd2 Hc2].
  pose proof Hclosed3 as Hc3. rewrite Hpoll1, orb_false_iff in Hc3. destruct Hc3 as [Hd4 Hc3].
  apply bool_decide_eq_false in Hd2, Hd4.
  assert (∀ p, p ≠ wakeupChannel → pw_channels w4 !! p = pw_channels w2 !! p) as Hsame.
  { intros p Hp. by rewrite <-Hdel4, lookup_delete_ne. }
  split; cbn; try done.
  - split; cbn; try done.
    + split_and!; [done| |done]. eapply loop_channel_same; [|exact Htimer]. by apply Hsame.
    + apply TimerQueueSpec.empty_queue_inv.
    + intros p Hp. destruct (decide (p = wakeupChannel)) as [->|Hpw]; [left; by left|].
      destruct (decide (p = timerfdChannel)) as [->|Hpt]; [left; by right; left|].
      rewrite Hsame, <-(lookup_delete_ne _ timerfdChannel), Hdel2 in Hp by done.
      destruct Hp as [ch Hp]. cbn in Hp. by rewrite lookup_empty in Hp.
    + intros p []%not_elem_of_nil.
    + constructor.
    + intros p []%not_elem_of_nil.
  - rewrite Hint4, Hint2. cbn. by rewrite Hempty.
  - by repeat constructor.
  - repeat constructor; set_solver.
Qed.
End construction.

(** ** Destruction *)
Section destruction.
Context {K TCB : Type} `{!Epoll K, !EpollSpec K, !Descriptors K, !DescriptorsSpec K}.
Abbreviation PW := (PollWorld K loop_callback).
Context `{!ConnEnv PW, !ConnEnvSpec PW, !TimerQueue.TimerEnv TCB, !TimerQueueSpec.TimerEnvSpec TCB}.
Abbreviation RX := (Reactor (K:=K) (TCB:=TCB)).
Implicit Types (s : RX) (w : PW).

Lemma put_timers_fields q s :
  rx_poller (put_timers q s) = rx_poller s ∧ rx_closed (put_timers q s) = rx_closed s ∧
  rx_timers (put_timers q s) = q ∧ rx_epollfd (put_timers q s) = rx_epollfd s.
Proof. unfold put_timers, note_queued. by destruct (negb _ || calling _). Qed.

Definition timers_freed s s' : Prop :=
  ∀ p, is_Some (TimerQueue.tq_heap (rx_timers s') !! p) ↔
    p ∈ TimerQueueSpec.arriving (TimerQueue.tq_queued (rx_timers s)).

Lemma wp_delete_TimerQueue s :
  attached (rx_poller s) → TimerQueueSpec.queue_inv (rx_timers s) →
  loop_channel (rx_timerfdChannel s) (rx_timerfd s) TimerRead (rx_poller s) →
  wp delete_TimerQueue (λ _ s', attached (rx_poller s') ∧ timers_freed s s' ∧
    pw_channels (rx_poller s') = delete (rx_timerfdChannel s) (pw_channels (rx_poller s)) ∧
    rx_closed s' = rx_closed s ++ [rx_timerfd s] ∧ rx_epollfd s' = rx_epollfd s ∧
    ∀ fd, pollable (epollfd_ (rx_poller s')) fd =
      negb (bool_decide (fd = rx_timerfd s)) && pollable (epollfd_ (rx_poller s)) fd) s.
Proof.
  intros Hatt Htq Htimer. unfold delete_TimerQueue. do 2 wp_step.
  eapply wp_withdraw; [intros ? ?; apply wp_channel_forget|done| |].
  { destruct Htimer as (ch & ? & ? & _). by exists ch. }
  intros w1 ch1 Hatt1 Hch1 Hp1 Hfd1 Hidx1. do 3 wp_step. cbn [rx_timerfd set_rx_poller].
  apply wp_close_raw. intros r k' w2 Hclose Hw2. cbn in Hclose, Hw2. rewrite <-Hfd1 in Hclose.
  assert (pw_channels w1 !! rx_timerfdChannel s = Some ch1) as Hlook
    by (by rewrite Hch1, lookup_insert_eq).
  destruct (attached_withdrawn _ ch1 w1 r k' w2 Hatt1 Hlook Hidx1 Hclose Hw2)
    as (Hatt2 & Hpoll2 & Hsame2).
  wp_step. unfold on_timers. wp_step. wp_apply TimerQueueProps.destroy_frees; [exact Htq|].
  intros [] q Hq. set (s1 := note_closed _ _).
  destruct (put_timers_fields q s1) as (Hf1 & Hf2 & Hf3 & Hf4).
  generalize dependent (put_timers q s1). intros s2 Hf1 Hf2 Hf3 Hf4.
  unfold delete_channel, on_poller. wp_step. eapply wp_deref.
  { unfold rx_channel_at. rewrite Hf1. cbn. by rewrite Hsame2. }
  wp_step. wp_step. cbn. rewrite Hf1, Hf2, Hf4. cbn.
  split_and!; try done.
  - unfold timers_freed. cbn. rewrite Hf3. exact Hq.
  - by rewrite Hsame2, Hch1, delete_insert_eq.
  - intros fd. by rewrite Hpoll2, Hp1, Hfd1.
Qed.

Lemma wp_delete_EventLoop act functors s :
  loop_inv act functors s → rx_conns s = ∅ → rx_acceptor s = None →
  wp delete_EventLoop (λ _ s', timers_freed s s' ∧ pw_channels (rx_poller s') = ∅ ∧
    rx_closed s' = rx_closed s ++ [rx_wakeupFd s; rx_timerfd s; rx_epollfd s] ∧
    ∀ fd, pollable (epollfd_ (rx_poller s')) fd =
      negb (bool_decide (fd ∈ [rx_wakeupFd s; rx_timerfd s; rx_epollfd s])) &&
      pollable (epollfd_ (rx_poller s)) fd) s.
Proof.
  intros Hinv Hnone Hnoacc. pose proof Hinv as [Hatt (Hwakeup & Htimer & _) Htq _ Hcha _ _ _ _].
  assert (rx_timerfdChannel s ≠ rx_wakeupChannel s) as Hne.
  { destruct Hwakeup as (c1 & Hc1 & _ & _ & _ & _ & Hr1 & _).
    destruct Htimer as (c2 & Hc2 & _ & _ & _ & _ & Hr2 & _). intros Heq. congruence. }
  unfold delete_EventLoop. do 2 wp_step.
  eapply (wp_withdraw removeChannel); [intros ? ?; apply wp_epoll_remove|done| |].
  { destruct Hwakeup as (ch & ? & ? & _). by exists ch. }
  intros w1 ch1 Hatt1 Hch1 Hp1 Hfd1 Hidx1. do 3 wp_step. cbn [rx_wakeupFd set_rx_poller].
  apply wp_close_raw. intros r k' w2 Hclose Hw2. cbn in Hclose, Hw2. rewrite <-Hfd1 in Hclose.
  assert (pw_channels w1 !! rx_wakeupChannel s = Some ch1) as Hlook
    by (by rewrite Hch1, lookup_insert_eq).
  destruct (attached_withdrawn _ ch1 w1 r k' w2 Hatt1 Hlook Hidx1 Hclose Hw2)
    as (Hatt2 & Hpoll2 & Hsame2).
  apply wp_delete_channel; [cbn; rewrite Hsame2; eauto|]. cbn [rx_poller set_rx_poller note_closed].
  set (w3 := set_pw_channels _ w2) in *. set (s1 := set_rx_poller w3 _).
  assert (pw_channels w3 = delete (rx_wakeupChannel s) (pw_channels (rx_poller s))) as Hch3.
  { cbn. by rewrite Hsame2, Hch1, delete_insert_eq. }
  wp_step. wp_apply (wp_delete_TimerQueue s1); [exact Hatt2|exact Htq| |].
  { eapply loop_channel_same; [|exact Htimer]. cbn [rx_poller set_rx_poller s1].
    by rewrite Hch3, lookup_delete_ne. }
  intros [] s2 (Hatt4 & Hfree & Hch4 & Hcl4 & He4 & Hpoll4).
  assert (pw_channels (rx_poller s2) = ∅) as Hempty.
  { apply map_eq. intros p. rewrite Hch4, lookup_empty. cbn [rx_poller set_rx_poller s1].
    rewrite Hch3. apply eq_None_not_Some.
    intros [ch [Hpt [Hpw Hp]%lookup_delete_Some]%lookup_delete_Some].
    destruct (Hcha p) as [[?|[?|(a & Ha & _)]]|[c Hc]]; [eauto|done|done|congruence|].
    by rewrite Hnone, lookup_empty in Hc. }
  unfold delete_EPollPoller. do 2 wp_step.
  apply wp_close_descriptor; [done|intros p ch; by rewrite Hempty, lookup_empty|].
  intros w5 Hatt5 Hch5 Hpoll5. split_and!.
  - exact Hfree.
  - cbn. by rewrite Hch5.
  - cbn. rewrite Hcl4, He4. cbn. rewrite <-!app_assoc. done.
  - intros fd. cbn [rx_poller set_rx_poller note_closed]. rewrite Hpoll5, Hpoll4, He4.
    cbn [rx_poller set_rx_poller s1 rx_epollfd rx_timerfd note_closed].
    change (epollfd_ w3) with (epollfd_ w2). rewrite Hpoll2, Hp1, Hfd1, !andb_assoc. f_equal.
    rewrite <-!negb_orb, <-!bool_decide_or. f_equal. apply bool_decide_ext.
    rewrite !elem_of_cons, elem_of_nil. tauto.
Qed.
End destruction.

(** ** What this means *)
Section properties.
Context {K TCB : Type} `{!Epoll K, !EpollSpec K, !Descriptors K, !DescriptorsSpec K}.
Abbreviation PW := (PollWorld K loop_callback).
Context `{!ConnEnv PW, !ConnEnvSpec PW, !TimerQueue.TimerEnv TCB, !TimerQueueSpec.TimerEnvSpec TCB}.
Abbreviation RX := (Reactor (K:=K) (TCB:=TCB)).
Implicit Types (s : RX) (c : ConnW PW).

(** What a loop can become from its construction on. *)
Definition loop_reachable s : Prop :=
  ∃ loop timerfdChannel wakeupChannel k s0,
    loop ≠ 0 ∧ timerfdChannel ≠ wakeupChannel ∧
    new_EventLoop loop timerfdChannel wakeupChannel k = Ok s0 ∧ rtc loop_step_of s0 s.

Lemma reactor_reachable_inv s : loop_reachable s → reactor_inv s.
Proof.
  intros (loop & tch & wch & k & s0 & Hloop & Hne & Hnew & Hsteps).
  pose proof (new_EventLoop_spec (TCB:=TCB) loop tch wch k Hloop Hne) as Hspec. rewrite Hnew in Hspec.
  eapply loop_steps_inv; [apply Hspec|done].
Qed.

(** C3 (invariant). A loop with any number of connections, the timers and the
    wakeup descriptor on one poller, in any interleaving of the rounds of
    [loop] with what other threads do: every step succeeds, so no method is
    called on a freed object and no assertion fails; an active channel that is
    still to be handled has not been freed, whatever the callbacks before it
    did, nor has the connection of a functor that still waits; and every
    connection keeps its byte streams. *)
Theorem loop_safe s :
  loop_reachable s →
  (∀ ev, loop_event_ok ev s → ∃ s', run_loop_event ev s = Ok (tt, s')) ∧
  (∀ p, p ∈ active_of (rx_phase s) → is_Some (pw_channels (rx_poller s) !! p)) ∧
  (∀ p, OfConnection p ∈ rx_pending s ++ functors_of (rx_phase s) → is_Some (rx_conns s !! p)) ∧
  (∀ p c, rx_conns s !! p = Some c →
     wire (socket_events c) ++ out c = accepted c ∧
     received (socket_events c) = retrieved c ++ input c).
Proof.
  intros Hinv%reactor_reachable_inv. split_and!.
  - intros ev Hok. pose proof (wp_run_loop_event ev s Hinv Hok) as Hwp.
    apply wp_run in Hwp as ([] & s' & Hrun & _). eauto.
  - intros p Hp. by eapply active_present.
  - apply (li_functors _ _ _ Hinv).
  - intros p c Hc. destruct (li_conn _ _ _ Hinv p c Hc) as [_ [[] _ _] _]. by split.
Qed.

Lemma open_interest act functors s p c :
  loop_inv act functors s → rx_conns s !! p = Some c → is_open c →
  interest (epollfd_ (rx_poller s)) !! sockfd c = Some (mask_of (state_ c) (out c), p).
Proof.
  intros Hinv Hc Ho. destruct (li_conn _ _ _ Hinv p c Hc) as [Hchan Hci _].
  pose proof (open_watched _ Hci Ho) as Hw. cbn in Hw. by rewrite Hchan in Hw.
Qed.

Lemma own_interest chan fd cb w :
  attached (w : PW) → loop_channel chan fd cb w →
  interest (epollfd_ w) !! fd = Some (kReadEvent, chan).
Proof.
  intros Hatt (ch & Hch & <- & _ & Hev & Hidx & _). rewrite <-Hev.
  apply consistent_watched; [apply Hatt|done|done|by rewrite Hev].
Qed.

(** C12 (refinement). The kernel watches, with a mask that is not empty,
    exactly the wakeup descriptor, the timerfd and, once it listens, the
    acceptor's socket for reading, and the socket of every open connection, for
    reading and, while it has output left, for writing; each on behalf of its
    own channel. *)
Theorem loop_watches s fd m p :
  loop_reachable s → m ≠ kNoneEvent →
  interest (epollfd_ (rx_poller s)) !! fd = Some (m, p) ↔
    (fd, m, p) = (rx_wakeupFd s, kReadEvent, rx_wakeupChannel s) ∨
    (fd, m, p) = (rx_timerfd s, kReadEvent, rx_timerfdChannel s) ∨
    (∃ a, rx_acceptor s = Some a ∧ ac_listening a = true ∧
       (fd, m, p) = (ac_socket a, kReadEvent, ac_channel a)) ∨
    ∃ c, rx_conns s !! p = Some c ∧ is_open c ∧ fd = sockfd c ∧ m = mask_of (state_ c) (out c).
Proof.
  intros Hinv%reactor_reachable_inv Hm. pose proof (li_attached _ _ _ Hinv) as Hatt. split.
  - intros Hfd. destruct (consistent_entry _ _ _ _ (attached_synced _ Hatt) Hfd)
      as (ch & Hch & Hfdc & Hev & _).
    pose proof (li_own _ _ _ Hinv) as (Hw & Ht & Ha).
    assert (∀ chan fd' cb, p = chan → loop_channel chan fd' cb (rx_poller s) →
      (fd, m, p) = (fd', kReadEvent, chan)) as Hown.
    { intros chan fd' cb -> (ch' & Hch' & ? & _ & ? & _).
      assert (ch' = ch) as -> by congruence. congruence. }
    destruct (li_channels _ _ _ Hinv p) as [[Hp|[Hp|(a & Hs & Hp)]]|[c Hc]]; [eauto|..].
    + left. by eapply Hown.
    + right; left. by eapply Hown.
    + right; right; left. exists a. specialize (Ha a Hs). unfold acceptor_ok in Ha.
      destruct (ac_listening a); [split_and!; [done|done|by eapply Hown]|].
      destruct Ha as (ch' & Hch' & _ & _ & Hev' & _). assert (ch' = ch) as -> by congruence. congruence.
    + right; right; right. destruct (li_conn _ _ _ Hinv p c Hc) as [Hchan [_ (ch' & Hch' & Hev' & Hfd' & _) _] _].
      unfold conn_channel in Hch'. cbn in Hch', Hfd', Hev'. rewrite Hchan in Hch'.
      assert (ch' = ch) as -> by congruence. exists c. change (out (set_poller _ c)) with (out c) in *.
      split_and!; [done| |congruence|congruence].
      unfold is_open. destruct (state_ c); auto; cbn in Hev'; congruence.
  - intros [[= -> -> ->]|[[= -> -> ->]|[(a & Hs & Hl & [= -> -> ->])|(c & Hc & Ho & -> & ->)]]].
    + eapply own_interest; [done|apply (li_own _ _ _ Hinv)].
    + eapply own_interest; [done|apply (li_own _ _ _ Hinv)].
    + pose proof (li_own _ _ _ Hinv) as (_ & _ & Ha). specialize (Ha a Hs). unfold acceptor_ok in Ha.
      rewrite Hl in Ha. by eapply own_interest.
    + by eapply open_interest.
Qed.

(** The channel at [p] is the loop's, for the descriptor [fd]. *)
Definition owns s (p : ptr) (fd : Z) : Prop :=
  p = rx_wakeupChannel s ∧ fd = rx_wakeupFd s ∨
  p = rx_timerfdChannel s ∧ fd = rx_timerfd s ∨
  (∃ a, rx_acceptor s = Some a ∧ p = ac_channel a ∧ fd = ac_socket a) ∨
  ∃ c, rx_conns s !! p = Some c ∧ fd = sockfd c.

Lemma owns_channel act functors s p fd :
  loop_inv act functors s → owns s p fd →
  ∃ ch, pw_channels (rx_poller s) !! p = Some ch ∧ fd_ ch = fd.
Proof.
  intros Hinv. pose proof (li_own _ _ _ Hinv) as (Hw & Ht & _).
  intros [[-> ->]|[[-> ->]|[(a & Hs & -> & ->)|(c & Hc & ->)]]].
  - destruct Hw as (ch & ? & ? & _). by exists ch.
  - destruct Ht as (ch & ? & ? & _). by exists ch.
  - destruct (acceptor_channel _ _ _ _ Hinv Hs) as (_ & _ & _ & ch & ? & ? & _). by exists ch.
  - destruct (li_conn _ _ _ Hinv p c Hc) as [Hchan [_ (ch & Hch & _ & Hfd & _) _] _].
    unfold conn_channel in Hch. cbn in Hch. rewrite Hchan in Hch. by exists ch.
Qed.

(** Releasing a connection does not touch the loop's own channels. *)
Lemma release_same_owners p s :
  wlp (release_connection p) (λ _ (s' : RX),
    (rx_wakeupChannel s', rx_wakeupFd s', rx_timerfdChannel s', rx_timerfd s', rx_acceptor s') =
    (rx_wakeupChannel s, rx_wakeupFd s, rx_timerfdChannel s, rx_timerfd s, rx_acceptor s)) s.
Proof.
  unfold release_connection, delete_channel, close_descriptor, on_poller. wlp_run.
  destruct (close_fd _ _) as [[?|?] k']; by wlp_run.
Qed.

(** C20 (type). The descriptors of a loop are well-formed in every reachable
    state: those of the wakeup channel, of the timer queue, of the acceptor and
    of the connections are open and pairwise distinct; so no connection ever
    reads or writes another one's socket, and releasing a connection that nobody holds
    closes its socket, once, and no other descriptor. *)
Theorem loop_descriptors s :
  loop_reachable s →
  (∀ p fd, owns s p fd → pollable (epollfd_ (rx_poller s)) fd = true) ∧
  (∀ p q fd, owns s p fd → owns s q fd → p = q) ∧
  (∀ p c, rx_conns s !! p = Some c → unheld p c s →
     ∃ s', run_loop_event (ReleaseConnection p) s = Ok (tt, s') ∧
       rx_closed s' = rx_closed s ++ [sockfd c] ∧
       pollable (epollfd_ (rx_poller s')) (sockfd c) = false ∧
       ∀ q fd, q ≠ p → owns s' q fd ↔ owns s q fd).
Proof.
  intros Hinv%reactor_reachable_inv. pose proof (li_attached _ _ _ Hinv) as Hatt. split_and!.
  - intros p fd (ch & Hch & <-)%(owns_channel _ _ _ _ _ Hinv). by eapply attached_pollable.
  - intros p q fd (c1 & Hc1 & Hfd1)%(owns_channel _ _ _ _ _ Hinv)
      (c2 & Hc2 & Hfd2)%(owns_channel _ _ _ _ _ Hinv).
    eapply (attached_inj _ Hatt); [exact Hc1|exact Hc2|congruence].
  - intros p c Hc Hun. pose proof (wp_release_connection _ _ p c s Hinv Hc Hun) as Hwp.
    pose proof (wp_wlp _ _ _ _ Hwp (release_same_owners p s)) as Hwp'.
    apply wp_run in Hwp' as ([] & s' & Hrun & (_ & Hconns & _ & _ & Hcl & Hpoll) & Hown).
    exists s'. split_and!; try done. intros q fd Hq. unfold owns. rewrite Hconns.
    injection Hown as -> -> -> -> ->. by rewrite lookup_delete_ne.
Qed.

(** C27 (functional). Constructing a loop either ends in [LOG_FATAL], and then
    the kernel has refused a descriptor, or gives a loop with three new
    descriptors of which the kernel watches, for reading, the timerfd and the
    wakeup descriptor, on behalf of the channels of the timer queue and of the
    loop. The order of the members matters: the timer queue's constructor uses
    the poller. *)
Theorem loop_constructed loop timerfdChannel wakeupChannel (k : K) :
  loop ≠ 0 → timerfdChannel ≠ wakeupChannel →
  match new_EventLoop (TCB:=TCB) loop timerfdChannel wakeupChannel k with
  | Ok s =>
      rx_phase s = AtPoll ∧ rx_conns s = ∅ ∧
      interest (epollfd_ (rx_poller s)) =
        {[ rx_wakeupFd s := (kReadEvent, wakeupChannel);
           rx_timerfd s := (kReadEvent, timerfdChannel) ]} ∧
      NoDup [rx_epollfd s; rx_timerfd s; rx_wakeupFd s] ∧
      Forall (λ fd, pollable k fd = false) [rx_epollfd s; rx_timerfd s; rx_wakeupFd s]
  | Fault e => e = AbortFatal ∧ refused (K:=K)
  end.
Proof.
  intros Hloop Hne. pose proof (new_EventLoop_spec (TCB:=TCB) _ _ _ k Hloop Hne) as Hspec.
  destruct (new_EventLoop _ _ _ _) as [s|e]; [|done]. by destruct Hspec.
Qed.

(** C28 (safety). Destroying a loop whose connections and acceptor are gone
    succeeds: the timer queue still finds the poller it leaves; the three
    descriptors are closed, once each and no other, and are not open any more; all
    channels are gone, and so is every timer but those whose functor was still
    waiting in the queue, which leak. *)
Theorem loop_destroyed s :
  loop_reachable s → rx_conns s = ∅ → rx_acceptor s = None →
  ∃ s', delete_EventLoop s = Ok (tt, s') ∧
    rx_closed s' = rx_closed s ++ [rx_wakeupFd s; rx_timerfd s; rx_epollfd s] ∧
    (∀ fd, pollable (epollfd_ (rx_poller s')) fd = true ↔
       pollable (epollfd_ (rx_poller s)) fd = true ∧
       fd ∉ [rx_wakeupFd s; rx_timerfd s; rx_epollfd s]) ∧
    pw_channels (rx_poller s') = ∅ ∧ timers_freed s s'.
Proof.
  intros Hinv%reactor_reachable_inv Hnone Hnoacc.
  pose proof (wp_delete_EventLoop _ _ s Hinv Hnone Hnoacc) as Hwp.
  apply wp_run in Hwp as ([] & s' & Hrun & Hfree & Hch & Hcl & Hpoll). exists s'.
  split_and!; try done. intros fd. rewrite Hpoll, andb_true_iff, negb_true_iff, bool_decide_eq_false.
  tauto.
Qed.
End properties.

(** ** A concrete loop

    The kernel of EPollPoller.v, which hands out the least descriptor that is
    not in use, and the echo server's connections. *)
Definition open_fresh (k : kernel) : io_result (Z * kernel) :=
  let fd := fresh (k_open k) in IoOk (fd, MkKernel (k_interest k) ({[ fd ]} ∪ k_open k)).

#[export] Instance kernel_descriptors : Descriptors kernel := {|
  epoll_create1 k :=
    let fd := fresh (k_open k) in IoOk (fd, MkKernel ∅ ({[ fd ]} ∪ k_open k));
  timerfd_create := open_fresh;
  eventfd := open_fresh;
  listen_socket := open_fresh;
  accept4 := open_fresh;
  close_fd k fd := (IoOk tt, MkKernel (delete fd (k_interest k)) (k_open k ∖ {[ fd ]}));
|}.

Lemma opened_fresh (k k' : kernel) fd :
  fd = fresh (k_open k) → k_open k' = {[ fd ]} ∪ k_open k → opened fd k k'.
Proof.
  intros -> Hopen. split; cbn.
  - apply bool_decide_eq_false, is_fresh.
  - intros fd'. rewrite Hopen, <-bool_decide_or. apply bool_decide_ext. set_solver.
Qed.

#[export] Instance kernel_descriptors_spec : DescriptorsSpec kernel.
Proof.
  split; try (intros k fd k' [= <- <-]; split; [by apply opened_fresh|done]).
  intros k fd r k' [= <- <-]. split; [|done]. intros fd'. cbn.
  rewrite <-bool_decide_not, <-bool_decide_and. apply bool_decide_ext. set_solver.
Qed.

Abbreviation PW := (PollWorld kernel loop_callback).
#[local] Existing Instance TimerQueueProps.demo_env.
#[local] Existing Instance TimerQueueProps.demo_env_spec.
#[local] Instance echo_loop_env : ConnEnv PW := application echo_message _.
#[local] Instance echo_loop_env_spec : ConnEnvSpec PW := application_spec _ _ echo_message_ok.
Abbreviation RX := (Reactor (K:=kernel) (TCB:=list Timer.TimerId)).

Definition booted_kernel : kernel := MkKernel ∅ {[ 0; 1; 2 ]}.
Definition demo_loop : RX :=
  match new_EventLoop 1 10 20 booted_kernel with Ok s => s | Fault _ => MkReactor
    (MkPollWorld ∅ ∅ booted_kernel [] []) 0 (TimerQueue.empty_queue _ true) 0 0 0 0 0 ∅ ∅ [] AtPoll None []
  end.

Example demo_loop_fds :
  (rx_epollfd demo_loop, rx_timerfd demo_loop, rx_wakeupFd demo_loop) = (3, 4, 5).
Proof. vm_compute. reflexivity. Qed.

Lemma demo_loop_reachable : loop_reachable demo_loop.
Proof.
  assert (new_EventLoop 1 10 20 booted_kernel = Ok demo_loop) as Hnew by (vm_compute; reflexivity).
  exists 1, 10, 20, booted_kernel, demo_loop. split_and!; [done|done|exact Hnew|apply rtc_refl].
Qed.

Definition loop_exec (s : RX) (ev : loop_event) : RX :=
  match run_loop_event ev s with Ok (_, s') => s' | Fault _ => s end.

Lemma loop_exec_reachable ev s :
  loop_event_ok ev s → loop_reachable s → loop_reachable (loop_exec s ev).
Proof.
  intros Hok Hs. pose proof (reactor_reachable_inv s Hs) as Hinv.
  destruct Hs as (loop & tch & wch & k & s0 & Hloop & Hne & Hnew & Hsteps).
  exists loop, tch, wch, k, s0. split_and!; [done..|]. eapply rtc_r; [exact Hsteps|].
  pose proof (wp_run_loop_event ev s Hinv Hok) as Hwp.
  apply wp_run in Hwp as ([] & s' & Hrun & _). exists ev. split; [done|].
  unfold loop_exec. by rewrite Hrun.
Qed.

(** The kernel reports one channel. *)
Definition report (revents : Z) (p : ptr) (n : Z) : io_result (list epoll_event) :=
  IoOk (take (Z.to_nat n) [(revents, p)]).

Lemma report_ok revents p fd m w :
  revents_ok revents → interest (epollfd_ (w : PW)) !! fd = Some (m, p) →
  map_Forall (λ _ x, x.1 ≠ kNoneEvent) (interest (epollfd_ w)) → poll_ok (report revents p) w.
Proof.
  intros Hr Hfd Hmasks. split.
  - intros n evs Hn [= <-]. rewrite length_take. split; [simpl; lia|].
    intros e He. apply subseteq_take in He. apply list_elem_of_singleton in He as ->.
    by exists fd, m.
  - intros n evs [= <-]. split.
    + destruct (Z.to_nat n) as [|k]; cbn; [constructor|]. rewrite take_nil. apply NoDup_singleton.
    + intros e He. apply subseteq_take in He. apply list_elem_of_singleton in He as ->.
      split; [done|]. intros fd' m' Hfd'. apply (Hmasks _ _ Hfd').
Qed.

(** A connection arrives and is established, the peer sends "hello". *)
Definition demo_events : list (loop_event (TCB:=list Timer.TimerId)) :=
  [NewConnection false 1 30 app_callbacks;
   LoopThread (report EPOLLIN 20); LoopThread (report 0 0); LoopThread (report 0 0);
   LoopThread (report 0 0); LoopThread (report 0 0);
   LoopThread (report EPOLLIN 30); LoopThread (report 0 0)].
Definition demo_state (n : nat) : RX := foldl loop_exec demo_loop (take n demo_events).

Definition demo_phases : list phase :=
  [AtPoll; AtPoll; Handling [20]; Handling []; Running [OfConnection 30]; Running []; AtPoll;
   Handling [30]].

Example demo_phases_ok : (λ n, rx_phase (demo_state n)) <$> seq 0 8 = demo_phases.
Proof. vm_compute. reflexivity. Qed.

Lemma demo_phase n ph : demo_phases !! n = Some ph → rx_phase (demo_state n) = ph.
Proof.
  rewrite <-demo_phases_ok, list_lookup_fmap. intros H.
  destruct (seq 0 8 !! n) as [m|] eqn:Hm; [|done]. injection H as <-.
  apply lookup_seq in Hm as [-> _]. done.
Qed.

Lemma demo_state_ok n ev :
  demo_events !! n = Some ev → loop_event_ok ev (demo_state n).
Proof.
  destruct n as [|[|[|[|[|[|[|[|n]]]]]]]]; cbn [demo_events lookup list_lookup]; intros [= <-];
    unfold loop_event_ok; [|erewrite demo_phase by reflexivity; cbv iota..].
  - split_and!; [done..|vm_compute; reflexivity|done].
  - apply (report_ok EPOLLIN 20 5 kReadEvent); [done|vm_compute; reflexivity|].
    apply (bool_decide_unpack _). vm_compute. exact I.
  - intros c Hc. vm_compute in Hc. discriminate Hc.
  - exact I.
  - intros c Hc. vm_compute in Hc. injection Hc as <-. exact I.
  - exact I.
  - apply (report_ok EPOLLIN 30 6 kReadEvent); [done|vm_compute; reflexivity|].
    apply (bool_decide_unpack _). vm_compute. exact I.
  - intros c Hc. vm_compute in Hc. injection Hc as <-. vm_compute. discriminate.
Qed.

Lemma demo_state_reachable n : (n ≤ 8)%nat → loop_reachable (demo_state n).
Proof.
  induction n as [|n IH]; intros Hn; [apply demo_loop_reachable|].
  destruct (lookup_lt_is_Some_2 demo_events n) as [ev Hev]; [simpl; lia|].
  unfold demo_state. rewrite (take_S_r _ _ _ Hev), foldl_snoc.
  apply loop_exec_reachable; [by apply demo_state_ok|apply IH; lia].
Qed.

(** The connection has read "hello" and written "hell". *)
Example demo_echo :
  (λ c, (wire (socket_events c), out c, received (socket_events c))) <$>
    rx_conns (demo_state 8) !! 30 = Some (take 4 hello, drop 4 hello, hello).
Proof. vm_compute. reflexivity. Qed.

Lemma loop_safe_witness :
  loop_reachable (demo_state 7) ∧ rx_phase (demo_state 7) = Handling [30] ∧
  ∃ s', run_loop_event (LoopThread (report 0 0)) (demo_state 7) = Ok (tt, s').
Proof.
  assert (loop_reachable (demo_state 7)) as Hs by (apply demo_state_reachable; lia).
  split; [exact Hs|]. split; [apply demo_phase; reflexivity|].
  apply (proj1 (loop_safe (demo_state 7) Hs)). apply (demo_state_ok 7). reflexivity.
Defined.

Lemma loop_watches_witness :
  loop_reachable (demo_state 6) ∧
  interest (epollfd_ (rx_poller (demo_state 6))) !! 6 = Some (kReadEvent, 30) ∧
  ∃ c, rx_conns (demo_state 6) !! 30 = Some c ∧ is_open c ∧ sockfd c = 6.
Proof.
  assert (loop_reachable (demo_state 6)) as Hs by (apply demo_state_reachable; lia).
  split; [exact Hs|].
  assert (interest (epollfd_ (rx_poller (demo_state 6))) !! 6 = Some (kReadEvent, 30)) as H6
    by (vm_compute; reflexivity).
  split; [exact H6|].
  assert (rx_wakeupChannel (demo_state 6) = 20) as H20 by (vm_compute; reflexivity).
  assert (rx_timerfdChannel (demo_state 6) = 10) as H10 by (vm_compute; reflexivity).
  destruct (proj1 (loop_watches (demo_state 6) 6 kReadEvent 30 Hs ltac:(done)) H6)
    as [E|[E|[(a & Ha & _)|(c & Hc & Ho & Hfd & _)]]].
  - exfalso. generalize (eq_trans (f_equal snd E) H20). discriminate.
  - exfalso. generalize (eq_trans (f_equal snd E) H10). discriminate.
  - exfalso. assert (rx_acceptor (demo_state 6) = None) as Hno by (vm_compute; reflexivity).
    generalize (eq_trans (eq_sym Hno) Ha). discriminate.
  - exact (ex_intro _ c (conj Hc (conj Ho (eq_sym Hfd)))).
Defined.

Lemma loop_constructed_witness :
  (1 ≠ 0 ∧ 10 ≠ 20) ∧ NoDup [rx_epollfd demo_loop; rx_timerfd demo_loop; rx_wakeupFd demo_loop].
Proof.
  assert (new_EventLoop 1 10 20 booted_kernel = Ok demo_loop) as Hnew by (vm_compute; reflexivity).
  split; [done|].
  pose proof (loop_constructed (TCB:=list Timer.TimerId) 1 10 20 booted_kernel
    ltac:(done) ltac:(done)) as H.
  rewrite Hnew in H. apply H.
Defined.

Lemma loop_destroyed_witness :
  loop_reachable demo_loop ∧ rx_conns demo_loop = ∅ ∧ rx_acceptor demo_loop = None ∧
  ∃ s', delete_EventLoop demo_loop = Ok (tt, s') ∧ rx_closed s' = [5; 4; 3].
Proof.
  assert (rx_conns demo_loop = ∅) as Hnone by (vm_compute; reflexivity).
  assert (rx_closed demo_loop ++
      [rx_wakeupFd demo_loop; rx_timerfd demo_loop; rx_epollfd demo_loop] = [5; 4; 3]) as Hfds
    by (vm_compute; reflexivity).
  assert (rx_acceptor demo_loop = None) as Hnoacc by (vm_compute; reflexivity).
  split; [apply demo_loop_reachable|]. split; [exact Hnone|]. split; [exact Hnoacc|].
  destruct (loop_destroyed demo_loop demo_loop_reachable Hnone Hnoacc) as (s' & Hrun & Hcl & _).
  exact (ex_intro _ s' (conj Hrun (eq_trans Hcl Hfds))).
Defined.

Lemma loop_descriptors_witness :
  loop_reachable (demo_state 7) ∧ owns (demo_state 7) 30 6 ∧
  ∀ p, owns (demo_state 7) p 6 → p = 30.
Proof.
  assert (loop_reachable (demo_state 7)) as Hs by (apply demo_state_reachable; lia).
  destruct (loop_descriptors (demo_state 7) Hs) as (_ & Hinj & _).
  assert (sockfd <$> rx_conns (demo_state 7) !! 30 = Some 6) as H30 by (vm_compute; reflexivity).
  assert (owns (demo_state 7) 30 6) as Howns.
  { right; right; right. apply fmap_Some in H30 as (c & Hc & Hfd). exact (ex_intro _ c (conj Hc Hfd)). }
  split; [exact Hs|]. split; [exact Howns|]. intros p Hp. exact (Hinj p 30 6 Hp Howns).
Defined.
