(* ===== verification/ReactorDrop.v ===== *)
(** * Connections that go away while their loop is running
      (src/net/TcpServer.cc, src/net/TcpConnection.cc)

    What the destructor of a server does to a loop: the last [shared_ptr]s to
    open connections go, in whatever state the loop's thread is; and what
    becomes of a functor that was bound to the raw [this] of a connection. *)
From S2P Require Import Prelude Posix Channel EPollPoller.
From S2P Require TimerQueue TimerQueueSpec TimerQueueProps.
From S2P Require Import Buffer TcpConnection TcpConnectionSpec TcpConnectionProps ConnectionFrame.
From S2P Require Import Echo Reactor ReactorSpec ReactorAcceptor ReactorProps.

Section drop.
Context {K TCB : Type} `{!Epoll K, !EpollSpec K, !Descriptors K, !DescriptorsSpec K}.
Abbreviation PW := (PollWorld K loop_callback).
Context `{!ConnEnv PW, !ConnEnvSpec PW, !TimerQueue.TimerEnv TCB, !TimerQueueSpec.TimerEnvSpec TCB}.
Abbreviation RX := (Reactor (K:=K) (TCB:=TCB)).
Implicit Types (s : RX) (c : ConnW PW).

(** ** The destructor of one connection *)

(** What [release_connection] leaves, whoever still needs the connection. *)
Record freed (p : ptr) (fd : Z) s (s' : RX) : Prop := {
  fr_conns : rx_conns s' = delete p (rx_conns s);
  fr_channels : pw_channels (rx_poller s') = delete p (pw_channels (rx_poller s));
  fr_registered : channels_ (rx_poller s') = channels_ (rx_poller s);
  fr_interest : interest (epollfd_ (rx_poller s')) = delete fd (interest (epollfd_ (rx_poller s)));
  fr_closed : rx_closed s' = rx_closed s ++ [fd];
  fr_pollable fd' : pollable (epollfd_ (rx_poller s')) fd' =
    negb (bool_decide (fd' = fd)) && pollable (epollfd_ (rx_poller s)) fd';
  fr_rest : (rx_mapped s', rx_phase s', rx_pending s') = (rx_mapped s, rx_phase s, rx_pending s);
}.

Lemma wp_release_raw p c s :
  rx_conns s !! p = Some c → is_Some (pw_channels (rx_poller s) !! p) →
  wp (release_connection p) (λ _ s', freed p (sockfd c) s s') s.
Proof.
  intros Hc Hch. unfold release_connection. wp_step.
  eapply wp_deref; [unfold connection_at; by rewrite Hc|].
  apply wp_delete_channel; [done|]. wp_step. apply wp_close_raw.
  intros r k' w Hclose Hw. destruct (close_ok _ _ _ _ Hclose) as [Hpoll Hint]. wp_step.
  destruct Hw as [->|[m ->]]; by split.
Qed.

(** ** The map's connections *)

(** The socket of the connection at [p], when the map's [shared_ptr] is the
    last one. *)
Definition doomed s (p : ptr) : option Z :=
  c ← rx_conns s !! p; if held_elsewhere c then None else Some (sockfd c).

(** [s'] is [s] after the map has lost the connections [ps]. *)
Record dropped (ps : list ptr) s (s' : RX) : Prop := {
  dp_mapped : rx_mapped s' = rx_mapped s ∖ list_to_set ps;
  dp_conns q : rx_conns s' !! q =
    if decide (q ∈ ps ∧ is_Some (doomed s q)) then None else rx_conns s !! q;
  dp_channels q : pw_channels (rx_poller s') !! q =
    if decide (q ∈ ps ∧ is_Some (doomed s q)) then None else pw_channels (rx_poller s) !! q;
  dp_registered : channels_ (rx_poller s') = channels_ (rx_poller s);
  dp_interest fd : interest (epollfd_ (rx_poller s')) !! fd =
    if decide (fd ∈ omap (doomed s) ps) then None else interest (epollfd_ (rx_poller s)) !! fd;
  dp_closed : rx_closed s' = rx_closed s ++ omap (doomed s) ps;
  dp_pollable fd : pollable (epollfd_ (rx_poller s')) fd =
    negb (bool_decide (fd ∈ omap (doomed s) ps)) && pollable (epollfd_ (rx_poller s)) fd;
  dp_rest : (rx_phase s', rx_pending s') = (rx_phase s, rx_pending s);
}.

Lemma held_elsewhere_repoll w c : held_elsewhere (set_poller w c) = held_elsewhere c.
Proof. done. Qed.

Lemma wp_drop_connection p c s :
  rx_conns s !! p = Some c → is_Some (pw_channels (rx_poller s) !! p) →
  wp (drop_connection p) (λ _ s', dropped [p] s s') s.
Proof.
  intros Hc Hch. unfold drop_connection. wp_step. wp_step. wp_step.
  eapply wp_deref; [unfold connection_at; cbn; by rewrite Hc|].
  rewrite held_elsewhere_repoll.
  assert (doomed s p = if held_elsewhere c then None else Some (sockfd c)) as Hdoom
    by (unfold doomed; by rewrite Hc).
  destruct (held_elsewhere c) eqn:Hheld.
  - assert (∀ q, ¬ (q ∈ [p] ∧ is_Some (doomed s q))) as Hno.
    { intros q [->%list_elem_of_singleton [? ?]]. congruence. }
    assert (omap (doomed s) [p] = []) as Hfds by (cbn; by rewrite Hdoom).
    wp_step. split; rewrite ?Hfds, ?app_nil_r; cbn; try done; [set_solver|..];
      intros q; by rewrite decide_False by apply Hno.
  - assert (∀ q, q ∈ [p] ∧ is_Some (doomed s q) ↔ q = p) as Hyes.
    { intros q. rewrite list_elem_of_singleton. split; [tauto|]. intros ->. rewrite Hdoom. eauto. }
    eapply wp_mono; [apply (wp_release_raw p c (set_rx_mapped (rx_mapped s ∖ {[p]}) s)); done|].
    intros [] s' [Hcs Hchs Hreg Hint Hcl Hpoll [= Hm Hph Hpe]]. cbn in *.
    assert (omap (doomed s) [p] = [sockfd c]) as Hfds by (cbn; by rewrite Hdoom).
    split; rewrite ?Hfds; try done; [rewrite Hm; set_solver|..|congruence].
    + intros q. rewrite Hcs. destruct (decide (q = p)) as [->|Hne].
      * rewrite decide_True by (by apply Hyes). apply lookup_delete_eq.
      * rewrite decide_False by (by rewrite Hyes). by apply lookup_delete_ne.
    + intros q. rewrite Hchs. destruct (decide (q = p)) as [->|Hne].
      * rewrite decide_True by (by apply Hyes). apply lookup_delete_eq.
      * rewrite decide_False by (by rewrite Hyes). by apply lookup_delete_ne.
    + intros fd. rewrite Hint. case_decide as Hfd.
      * apply list_elem_of_singleton in Hfd as ->. apply lookup_delete_eq.
      * apply lookup_delete_ne. intros <-. apply Hfd. by apply list_elem_of_singleton.
    + intros fd. rewrite Hpoll. f_equal. f_equal. apply bool_decide_ext.
      by rewrite list_elem_of_singleton.
Qed.

Lemma dropped_snoc ps p s s1 (s2 : RX) :
  dropped ps s s1 → p ∉ ps → dropped [p] s1 s2 → dropped (ps ++ [p]) s s2.
Proof.
  intros [Hm Hc Hch Hr Hi Hcl Hp [= Hph Hpe]] Hnot [Hm2 Hc2 Hch2 Hr2 Hi2 Hcl2 Hp2 [= Hph2 Hpe2]].
  assert (doomed s1 p = doomed s p) as Hsame.
  { unfold doomed. rewrite Hc, decide_False; [done|]. by intros [? _]. }
  assert (omap (doomed s1) [p] = omap (doomed s) [p]) as Hfds by (cbn; by rewrite Hsame).
  assert (∀ q, q ∈ ps ++ [p] ∧ is_Some (doomed s q) ↔
    q ∈ ps ∧ is_Some (doomed s q) ∨ q ∈ [p] ∧ is_Some (doomed s1 q)) as Hor.
  { intros q. rewrite elem_of_app, !list_elem_of_singleton. split.
    - intros [[?| ->] ?]; [by left|right]. by rewrite Hsame.
    - intros [[? ?]|[-> ?]]; [by auto|]. rewrite <-Hsame. auto. }
  rewrite Hfds in *. split.
  - rewrite Hm2, Hm, list_to_set_app_L. set_solver.
  - intros q. rewrite Hc2, Hc. specialize (Hor q). repeat case_decide; tauto || done.
  - intros q. rewrite Hch2, Hch. specialize (Hor q). repeat case_decide; tauto || done.
  - congruence.
  - intros fd. rewrite Hi2, Hi, omap_app. repeat case_decide; set_solver.
  - by rewrite Hcl2, Hcl, omap_app, app_assoc.
  - intros fd. rewrite Hp2, Hp, omap_app, andb_assoc. f_equal. rewrite <-negb_orb. f_equal.
    rewrite <-bool_decide_or. apply bool_decide_ext. set_solver.
  - congruence.
Qed.

Lemma wp_drop_connections s :
  (∀ p, p ∈ rx_mapped s → is_Some (rx_conns s !! p) ∧ is_Some (pw_channels (rx_poller s) !! p)) →
  wp drop_connections (λ _ s', dropped (elements (rx_mapped s)) s s') s.
Proof.
  intros Hall. unfold drop_connections. wp_step. wp_step.
  assert (∀ p, p ∈ elements (rx_mapped s) →
    is_Some (rx_conns s !! p) ∧ is_Some (pw_channels (rx_poller s) !! p)) as Hps
    by (intros p Hp%elem_of_elements; auto).
  pose proof (NoDup_elements (rx_mapped s)) as Hnd. revert Hps Hnd.
  generalize (elements (rx_mapped s)). intros ps Hps Hnd.
  apply (wp_for_each _ (λ pre, dropped pre s)); [|intros pre p post s1 Heq Hd|done].
  - split; cbn; rewrite ?app_nil_r; try done; [set_solver|..]; intros q;
      try by rewrite decide_False by (intros [[]%not_elem_of_nil _]).
  - assert (p ∉ pre) as Hnot.
    { rewrite Heq in Hnd. apply NoDup_app in Hnd as (_ & Hno & _). intros Hp.
      apply (Hno p Hp). set_solver. }
    destruct (Hps p) as [[c Hc] Hch]; [rewrite Heq; set_solver|].
    assert (∀ {A} (x y : A), (if decide (p ∈ pre ∧ is_Some (doomed s p)) then x else y) = y) as Hno
      by (intros; apply decide_False; tauto).
    eapply wp_mono; [apply (wp_drop_connection p c)|].
    + by rewrite (dp_conns _ _ _ Hd), Hno.
    + by rewrite (dp_channels _ _ _ Hd), Hno.
    + intros [] s2 Hs2. by eapply dropped_snoc.
Qed.

(** ** What the loop does with what is left *)

(** A connection that only the map holds is open. *)
Lemma unheld_open act functors s p c :
  loop_inv act functors s → rx_conns s !! p = Some c → held_elsewhere c = false → is_open c.
Proof.
  intros Hinv Hc [Hst Hp]%orb_false_iff. apply bool_decide_eq_false in Hst.
  pose proof (ci_core _ (ck_inv _ _ _ _ (li_conn _ _ _ Hinv p c Hc))) as Hcore.
  unfold is_open. destruct (state_ c) eqn:Hs; auto; [by destruct Hst|]. exfalso.
  destruct (co_new _ Hcore Hs) as (Hpend & _). cbn in Hpend. by rewrite Hpend in Hp.
Qed.

Lemma handle_freed p s :
  pw_channels (rx_poller s) !! p = None → handle_channel p s = Fault UndefinedBehaviour.
Proof.
  intros Hp. unfold handle_channel, handleEvent, handleEventWithGuard, on_revents, deref, modify,
    mbind, M_bind, rx_channel_at. cbn. by rewrite Hp.
Qed.

Lemma run_freed p s : rx_conns s !! p = None → run_owner (OfConnection p) s = Fault UndefinedBehaviour.
Proof.
  intros Hp. unfold run_owner, on_connection, deref, mbind, M_bind, connection_at. by rewrite Hp.
Qed.

(** The next step of the loop's thread is to use the connection at [p]. *)
Definition uses_next (p : ptr) (ph : phase) : Prop :=
  match ph with
  | Handling (q :: _) | Running (OfConnection q :: _) => q = p
  | _ => False
  end.

Lemma step_freed wait p s :
  rx_conns s !! p = None → pw_channels (rx_poller s) !! p = None → uses_next p (rx_phase s) →
  loop_step wait s = Fault UndefinedBehaviour.
Proof.
  intros Hc Hch Hph. unfold loop_step. erewrite run_bind_ok by done.
  destruct (rx_phase s) as [|[|q act]|[|[| |q] functors]]; try done; cbn in Hph; subst q;
    apply run_bind_fault; [by apply handle_freed|by apply run_freed].
Qed.

Lemma open_registered act functors s p c :
  loop_inv act functors s → rx_conns s !! p = Some c → is_open c →
  channels_ (rx_poller s) !! sockfd c = Some p.
Proof.
  intros Hinv Hc Ho. pose proof (open_interest _ _ _ _ _ Hinv Hc Ho) as Hint.
  exact (co_interest _ _ (attached_synced _ (li_attached _ _ _ Hinv)) _ _ _ Hint).
Qed.

Lemma doomed_Some s p fd :
  doomed s p = Some fd ↔
    ∃ c, rx_conns s !! p = Some c ∧ held_elsewhere c = false ∧ sockfd c = fd.
Proof.
  unfold doomed. destruct (rx_conns s !! p) as [c|]; cbn; [|by split; [|intros (? & ? & _)]].
  destruct (held_elsewhere c) eqn:Hh; split.
  - done.
  - intros (c' & [= <-] & ? & _). congruence.
  - intros [= <-]. by exists c.
  - by intros (c' & [= <-] & _ & ->).
Qed.

Lemma doomed_nodup s ps :
  loop_reachable s → NoDup ps → NoDup (omap (doomed s) ps).
Proof.
  intros Hs Hnd. destruct (loop_descriptors s Hs) as (_ & Hinj & _).
  induction Hnd as [|p ps Hnot Hnd IH]; [constructor|].
  cbn. destruct (doomed s p) as [fd|] eqn:Hp; [|done]. constructor; [|done].
  intros (q & Hq & Hfd)%list_elem_of_omap. apply doomed_Some in Hp as (c & Hc & _ & Hf).
  apply doomed_Some in Hfd as (c' & Hc' & _ & Hf'). assert (p = q) as <-; [|done].
  apply (Hinj p q fd); right; right; right; eauto.
Qed.

(** C38 (error). Destroying a server whose loops are still running: its
    destructor does not close the connections, it drops the map's
    [shared_ptr]s. Those that somebody else holds live on. The others are
    destroyed open: the user is never told that they are down, their sockets
    are closed, once each, and the kernel forgets them, but the poller's map
    still leads to their freed channels; and a loop whose thread has such a
    channel among its active ones, or a functor bound to the raw [this] of such
    a connection to run, goes on to use freed memory. *)
Theorem destructor_dangles s :
  loop_reachable s →
  ∃ s' fds, drop_connections s = Ok (tt, s') ∧ rx_mapped s' = ∅ ∧
    (rx_phase s', rx_pending s') = (rx_phase s, rx_pending s) ∧
    rx_closed s' = rx_closed s ++ fds ∧ NoDup fds ∧
    (∀ fd, fd ∈ fds ↔ ∃ p c, p ∈ rx_mapped s ∧ rx_conns s !! p = Some c ∧
       held_elsewhere c = false ∧ sockfd c = fd) ∧
    ∀ p c, p ∈ rx_mapped s → rx_conns s !! p = Some c →
      if held_elsewhere c
      then rx_conns s' !! p = Some c ∧
        pw_channels (rx_poller s') !! p = pw_channels (rx_poller s) !! p
      else is_open c ∧
        (connectionCallback_ (callbacks c) = true → connection_calls (upcalls c) = [true]) ∧
        rx_conns s' !! p = None ∧ pw_channels (rx_poller s') !! p = None ∧
        pollable (epollfd_ (rx_poller s')) (sockfd c) = false ∧
        interest (epollfd_ (rx_poller s')) !! sockfd c = None ∧
        channels_ (rx_poller s') !! sockfd c = Some p ∧
        ∀ epoll_wait, uses_next p (rx_phase s) → loop_step epoll_wait s' = Fault UndefinedBehaviour.
Proof.
  intros Hs. pose proof (reactor_reachable_inv s Hs) as Hinv.
  assert (wp drop_connections (λ _ s', dropped (elements (rx_mapped s)) s s') s) as Hwp.
  { apply wp_drop_connections. intros p Hp. destruct (li_mapped _ _ _ Hinv p Hp) as [c Hc].
    split; [eauto|]. destruct (owns_channel _ _ _ p (sockfd c) Hinv) as (ch & Hch & _); [|eauto].
    right; right; right. eauto. }
  apply wp_run in Hwp as ([] & s' & Hrun & [Hm Hcs Hchs Hreg Hint Hcl Hpoll Hrest]).
  assert (∀ fd, fd ∈ omap (doomed s) (elements (rx_mapped s)) ↔
    ∃ p c, p ∈ rx_mapped s ∧ rx_conns s !! p = Some c ∧ held_elsewhere c = false ∧ sockfd c = fd) as Hfds.
  { intros fd. rewrite list_elem_of_omap. setoid_rewrite elem_of_elements.
    setoid_rewrite doomed_Some. naive_solver. }
  exists s', (omap (doomed s) (elements (rx_mapped s))). split_and!; try done.
  - rewrite Hm. set_solver.
  - apply doomed_nodup; [done|]. apply NoDup_elements.
  - intros p c Hp Hc. specialize (Hcs p). specialize (Hchs p).
    destruct (held_elsewhere c) eqn:Hheld.
    + assert (¬ (p ∈ elements (rx_mapped s) ∧ is_Some (doomed s p))) as Hno.
      { intros [_ [fd (c' & Hc' & ? & _)%doomed_Some]]. congruence. }
      rewrite decide_False in Hcs by done. rewrite decide_False in Hchs by done. by rewrite Hcs.
    + assert (p ∈ elements (rx_mapped s) ∧ is_Some (doomed s p)) as Hyes.
      { split; [by apply elem_of_elements|]. exists (sockfd c). apply doomed_Some. eauto. }
      rewrite decide_True in Hcs by done. rewrite decide_True in Hchs by done.
      assert (sockfd c ∈ omap (doomed s) (elements (rx_mapped s))) as Hfd by (apply Hfds; eauto 6).
      pose proof (unheld_open _ _ _ _ _ Hinv Hc Hheld) as Ho.
      split_and!; [done| |done|done| | | |].
      * intros Hcb. pose proof (ck_inv _ _ _ _ (li_conn _ _ _ Hinv p c Hc)) as [Hcore _ _].
        etrans; [exact (co_calls _ Hcore Hcb)|]. cbn.
        by destruct Ho as [-> | ->].
      * rewrite Hpoll, bool_decide_eq_true_2 by done. done.
      * rewrite Hint. by rewrite decide_True.
      * rewrite Hreg. by eapply open_registered.
      * intros wait Hnext. injection Hrest as Hph _. apply (step_freed wait p); [done..|].
        by rewrite Hph.
Qed.

(** ** A functor that outlives its connection *)

(** A thread that calls [send] may pass the test of the state while the
    connection is open ([send_other_thread] of TcpConnectionProps.v), and queue
    the functor after the connection has been closed and destroyed in the loop,
    so that nobody else holds it: the functor does not keep the object either,
    the thread's own [shared_ptr] is the last one, and the functor is run on a
    freed object. *)
Lemma late_send_use_after_free message s p c :
  loop_reachable s → rx_conns s !! p = Some c → unheld p c s →
  ∃ s1 s2,
    on_connection p (modify (set_in_loop false) ;; queueInLoop (SendInLoop message)) s = Ok (tt, s1) ∧
    release_connection p s1 = Ok (tt, s2) ∧ OfConnection p ∈ rx_pending s2 ∧
    run_owner (OfConnection p) s2 = Fault UndefinedBehaviour.
Proof.
  intros Hs%reactor_reachable_inv Hc [_ Hpend].
  destruct (owns_channel _ _ _ p (sockfd c) Hs) as (ch & Hch & _); [right; right; right; eauto|].
  set (c1 := push_functor (SendInLoop message) (set_in_loop false (set_poller (rx_poller s) c))).
  set (s1 := put_connection p (set_poller (rx_poller s) c) c1 s).
  assert (on_connection p (modify (set_in_loop false) ;; queueInLoop (SendInLoop message)) s
    = Ok (tt, s1)) as Hrun.
  { unfold on_connection, deref, mbind, M_bind, connection_at. by rewrite Hc. }
  assert (rx_conns s1 !! p = Some c1 ∧ rx_poller s1 = rx_poller s ∧
    rx_pending s1 = rx_pending s ++ [OfConnection p]) as (Hc1 & Hp1 & Hq1).
  { unfold s1, put_connection, note_queued. cbn. rewrite Hpend. cbn. by rewrite lookup_insert_eq. }
  assert (is_Some (pw_channels (rx_poller s1) !! p)) as Hch1 by (rewrite Hp1; eauto).
  pose proof (wp_release_raw p c1 s1 Hc1 Hch1) as Hwp.
  apply wp_run in Hwp as ([] & s2 & Hrel & Hfreed).
  exists s1, s2. split_and!; [done|done| |].
  - destruct Hfreed as [_ _ _ _ _ _ Hrest]. injection Hrest as _ _ Hq.
    rewrite Hq. change (OfConnection p ∈ rx_pending s1). rewrite Hq1. set_solver.
  - apply run_freed. by rewrite (fr_conns _ _ _ _ Hfreed), lookup_delete_eq.
Qed.
End drop.

#[local] Existing Instance TimerQueueProps.demo_env.
#[local] Existing Instance TimerQueueProps.demo_env_spec.
#[local] Existing Instance ReactorProps.echo_loop_env.
#[local] Existing Instance ReactorProps.echo_loop_env_spec.

(** The server is destroyed between the poll of the loop of ReactorProps.v,
    which has reported the connection of the demonstration, and the call of its
    channel. *)
Lemma destructor_dangles_witness :
  loop_reachable (demo_state 7) ∧
  ∃ s', drop_connections (demo_state 7) = Ok (tt, s') ∧ rx_mapped s' = ∅ ∧
    channels_ (rx_poller s') !! 6 = Some 30 ∧ pw_channels (rx_poller s') !! 30 = None ∧
    ∀ epoll_wait, loop_step epoll_wait s' = Fault UndefinedBehaviour.
Proof.
  assert (loop_reachable (demo_state 7)) as Hs by (apply demo_state_reachable; lia).
  split; [exact Hs|].
  destruct (destructor_dangles (demo_state 7) Hs) as (s' & fds & Hrun & Hm & _ & _ & _ & _ & Hall).
  assert ((λ c, (held_elsewhere c, sockfd c)) <$> rx_conns (demo_state 7) !! 30 = Some (false, 6)) as H30
    by (vm_compute; reflexivity).
  assert (30 ∈ rx_mapped (demo_state 7)) as Hin by (apply (bool_decide_unpack _); vm_compute; exact I).
  assert (rx_phase (demo_state 7) = Handling [30]) as Hph by (apply demo_phase; reflexivity).
  destruct (rx_conns (demo_state 7) !! 30) as [c|] eqn:Hc; [|discriminate H30].
  injection H30 as Hheld Hfd. specialize (Hall 30 c Hin Hc). rewrite Hheld, Hfd, Hph in Hall.
  destruct Hall as (_ & _ & _ & Hch & _ & _ & Hreg & Hstep).
  exists s'. split; [exact Hrun|]. split; [exact Hm|]. split; [exact Hreg|]. split; [exact Hch|].
  intros wait. exact (Hstep wait eq_refl).
Defined.
