(* ===== verification/ReactorWakeup.v ===== *)
(** * The loop does not sleep on work (src/net/EventLoop.cc)

    The eventfd in the states of Reactor.v: whoever puts a functor into the
    queue, the loop thread itself included, leaves the eventfd readable, unless
    the loop thread is going to look at the queue before it waits again. *)
From S2P Require Import Prelude Posix Channel EPollPoller.
From S2P Require TimerQueue TimerQueueSpec TimerQueueProps EventLoop.
From S2P Require Import TcpConnection TcpConnectionSpec TcpConnectionProps ConnectionFrame.
From S2P Require Import Echo Reactor ReactorSpec ReactorAcceptor ReactorProps.

(** ** The timers' functors *)
Section timers.
Context {TCB : Type} `{!TimerQueue.TimerEnv TCB}.
Abbreviation TQ := (TimerQueue.TQ TCB).
Implicit Types q : TQ.

(** In the loop thread nothing is queued. *)
Definition runs_here q q' : Prop :=
  TimerQueue.tq_in_loop q' = TimerQueue.tq_in_loop q ∧
  (TimerQueue.tq_in_loop q = true → TimerQueue.tq_queued q' = TimerQueue.tq_queued q).
#[local] Instance runs_here_preorder : PreOrder runs_here.
Proof.
  split; [by intros q|]. intros q1 q2 q3 [H12 H12'] [H23 H23'].
  split; [congruence|]. intros Hin. rewrite H23', H12' by congruence. done.
Qed.

Lemma runs_here_modify f :
  (∀ q, TimerQueue.tq_in_loop (f q) = TimerQueue.tq_in_loop q ∧
    TimerQueue.tq_queued (f q) = TimerQueue.tq_queued q) → evolves runs_here (modify f).
Proof. intros Hf. apply evolves_modify. intros q. destruct (Hf q). by split. Qed.

Lemma runInLoop_here f m : evolves runs_here m → evolves runs_here (TimerQueue.runInLoop f m).
Proof.
  intros Hm q. unfold TimerQueue.runInLoop. do 2 wlp_step. apply wlp_if; intros Hin; [apply Hm|].
  wlp_step. split; [done|congruence].
Qed.

Ltac here := repeat first [progress evolves | by apply runs_here_modify].

Lemma read_clock_here : evolves runs_here TimerQueue.read_clock.
Proof. unfold TimerQueue.read_clock. here. Qed.

Lemma resetTimerfd_here t : evolves runs_here (TimerQueue.resetTimerfd t).
Proof.
  pose proof read_clock_here. unfold TimerQueue.resetTimerfd, TimerQueue.howMuchTimeFromNow. here.
Qed.

Lemma addTimerInLoop_here p : evolves runs_here (TimerQueue.addTimerInLoop p).
Proof.
  pose proof resetTimerfd_here.
  unfold TimerQueue.addTimerInLoop, TimerQueue.assertInLoopThread, TimerQueue.insert.
  here; intros q; wlp_run; done.
Qed.

Lemma cancelInLoop_here i : evolves runs_here (TimerQueue.cancelInLoop i).
Proof.
  unfold TimerQueue.cancelInLoop, TimerQueue.assertInLoopThread, TimerQueue.delete_timer.
  here; intros q; wlp_run; done.
Qed.

Lemma run_command_here c : evolves runs_here (TimerQueue.run_command c).
Proof.
  pose proof addTimerInLoop_here. pose proof cancelInLoop_here. pose proof runInLoop_here.
  destruct c; cbn [TimerQueue.run_command];
    unfold TimerQueue.addTimer, TimerQueue.loop_cancel, TimerQueue.cancel, TimerQueue.allocate_timer,
      TimerQueue.make_TimerId; here.
Qed.
End timers.

Section loop.
Context {K TCB : Type} `{!Epoll K, !EpollSpec K, !Descriptors K, !DescriptorsSpec K}.
Abbreviation PW := (PollWorld K loop_callback).
Context `{!ConnEnv PW, !ConnEnvSpec PW, !TimerQueue.TimerEnv TCB, !TimerQueueSpec.TimerEnvSpec TCB}.
Abbreviation RX := (Reactor (K:=K) (TCB:=TCB)).
Implicit Types s : RX.

(** ** The eventfd *)

Lemma bumps n k : 0 ≤ k → 0 ≤ Nat.iter n bump k ∧ (n ≠ 0%nat → 0 < Nat.iter n bump k).
Proof.
  intros Hk. assert (∀ k', 0 ≤ k' → 0 < bump k') as Hbump.
  { intros k' Hk'. unfold bump, EventLoop.EVENTFD_MAX. destruct (Z.ltb_spec k' (2 ^ 64 - 2)); lia. }
  induction n as [|n [IH _]]; [by split|]. rewrite Nat.iter_succ. specialize (Hbump _ IH). lia.
Qed.

Definition handling (ph : phase) : Prop := match ph with Handling _ => True | _ => False end.

(** A functor that waits is going to be seen. *)
Definition seen (k : Z) (pending : list owner) (ph : phase) : Prop :=
  0 ≤ k ∧ (pending = [] ∨ 0 < k ∨ handling ph).
Definition awake s : Prop := seen (rx_counter s) (rx_pending s) (rx_phase s).

Lemma awake_note o n here s :
  n = 0%nat ∨ in_turn here s → awake s → awake (note_queued o n here s).
Proof.
  intros Hn [Hk Hw]. pose proof (bumps n (rx_counter s) Hk) as [Hk' Hpos].
  unfold note_queued. destruct n as [|n]; cbn [replicate].
  { rewrite app_nil_r. destruct (negb here || calling (rx_phase s)); by split. }
  specialize (Hpos ltac:(done)).
  destruct (negb here || calling (rx_phase s)) eqn:Hb; split; cbn -[Nat.iter]; auto.
  right; right. destruct Hn as [|Hn]; [done|]. destruct here; [|done].
  specialize (Hn eq_refl). by destruct (rx_phase s).
Qed.

(** While the loop thread is in one of the phases [ok]. *)
Definition stirs (ok : phase → Prop) s s' : Prop :=
  rx_phase s' = rx_phase s ∧ (ok (rx_phase s) → awake s → awake s').
#[local] Instance stirs_preorder ok : PreOrder (stirs ok).
Proof.
  split; [by intros s|]. intros s1 s2 s3 [H12 Ha12] [H23 Ha23]. rewrite H12 in *. split; auto.
Qed.

Lemma stirs_modify ok f :
  (∀ s, rx_phase (f s) = rx_phase s ∧ rx_counter (f s) = rx_counter s ∧
    rx_pending (f s) = rx_pending s) → evolves (stirs ok) (modify f).
Proof.
  intros Hf. apply evolves_modify. intros s. destruct (Hf s) as (Hp & Hc & Hq).
  split; [done|]. intros _. unfold awake. by rewrite Hp, Hc, Hq.
Qed.

Section phases.
Context (ok : phase → Prop) (Hok : ∀ ph, ok ph → ph ≠ AtPoll).

Lemma note_stirs o n here s : stirs ok s (note_queued o n here s).
Proof using Hok.
  split; [|intros Hph; apply awake_note; right; intros _; by apply Hok].
  unfold note_queued. by destruct (negb here || calling (rx_phase s)).
Qed.

Lemma on_connection_stirs {A} p (m : M (ConnW PW) A) : evolves (stirs ok) (on_connection p m).
Proof using Hok.
  unfold on_connection. evolves. apply evolves_modify. intros s.
  unfold put_connection. etrans; [|apply note_stirs]. by split.
Qed.

Lemma on_timers_stirs {A} (m : M (TimerQueue.TQ TCB) A) : evolves (stirs ok) (on_timers m).
Proof using Hok.
  intros s. unfold on_timers. wlp_run. unfold put_timers.
  transitivity (set_rx_timers v s); [by split|apply note_stirs].
Qed.

Lemma run_owner_stirs o : evolves (stirs ok) (run_owner o).
Proof using Hok.
  pose proof (@on_connection_stirs) as Hconn. pose proof (@on_timers_stirs).
  destruct o; cbn [run_owner]; evolves.
Qed.
End phases.

(** Handling a channel: the queue is looked at afterwards in any case. *)
Lemma handle_channel_stirs p : evolves (stirs handling) (handle_channel p).
Proof.
  assert (∀ ph, handling ph → ph ≠ AtPoll) as Hok by by intros [].
  pose proof (@on_connection_stirs handling Hok) as Hconn.
  pose proof (@on_timers_stirs handling Hok) as Htimers.
  assert (∀ q cb, evolves (stirs handling) (run_loop_callback q cb)) as Hcb.
  { intros q cb. destruct cb; cbn [run_loop_callback]; evolves.
    - apply evolves_modify. intros s. split; [done|]. intros Hph _. by split; [|right; right].
    - by apply stirs_modify. }
  unfold handle_channel, handleEvent, handleEventWithGuard, on_revents, fire. evolves.
  by apply stirs_modify.
Qed.

Lemma loop_step_awake epoll_wait s : awake s → wlp (loop_step epoll_wait) (λ _, awake) s.
Proof.
  intros Hs. unfold loop_step. do 2 wlp_step.
  destruct (rx_phase s) as [|[|p act]|[|o functors]] eqn:Hph.
  - unfold on_poller. wlp_run. split; [apply Hs|]. by right; right.
  - wlp_run. split; [apply Hs|by left].
  - apply wlp_bind. eapply wlp_mono; [apply handle_channel_stirs|]. intros [] s' [_ Ha]. wlp_step.
    rewrite Hph in Ha. split; [by apply Ha|by right; right].
  - wlp_run. destruct Hs as [Hk Hs]. split; [done|]. rewrite Hph in Hs. tauto.
  - apply wlp_bind. eapply wlp_mono; [by apply (run_owner_stirs (λ ph, ph ≠ AtPoll))|].
    intros [] s' [Hph' Ha]. wlp_step. rewrite Hph in Ha, Hph'. specialize (Ha ltac:(done) Hs).
    destruct Ha as [Hk Ha]. split; [done|]. rewrite Hph' in Ha. exact Ha.
Qed.

(** ** The other threads *)

Lemma on_connection_awake {A} p (m : M (ConnW PW) A) s :
  awake s → (∀ c, wlp m (λ _ c', in_turn (in_loop c') s) c) →
  wlp (on_connection p m) (λ _, awake) s.
Proof.
  intros Hs Hm. unfold on_connection. wlp_run. destruct a0 as [x c]. wlp_run.
  unfold put_connection. apply awake_note; [|done]. right. by eapply Hm.
Qed.

Lemma call_in_loop here cmd (c : ConnW PW) :
  wlp (run_conn_event (call_event here cmd)) (λ _ c', in_loop c' = here) c.
Proof.
  assert (stable True (λ c' : ConnW PW, in_loop c' = here)) as Hst by by split.
  destruct here; cbn [call_event run_conn_event]; do 2 wlp_step; by apply (keep_user_call True _ Hst).
Qed.

Lemma on_timers_awake b cmd s :
  awake s → wlp (on_timers (TimerQueueSpec.run_event (TimerQueueSpec.Call b cmd))) (λ _, awake) s.
Proof.
  intros Hs. unfold on_timers. wlp_run. unfold put_timers. apply awake_note; [|done].
  cbn [TimerQueueSpec.run_event] in *.
  assert (wlp (modify (TimerQueueSpec.set_in_loop b) ;; TimerQueue.run_command cmd) (λ _ q',
    TimerQueue.tq_in_loop q' = b ∧ (b = true →
      TimerQueue.tq_queued q' = TimerQueue.tq_queued (rx_timers s))) (rx_timers s)) as Hw.
  { do 2 wlp_step. eapply wlp_mono; [apply run_command_here|]. intros [] q' [-> Hq]. by split. }
  destruct (Hw _ _ H1) as [-> Hq].
  destruct b; [left|by right]. rewrite Hq by done. apply Nat.sub_diag.
Qed.

Lemma hand_over_awake here loop p fd cbs s :
  awake s → in_turn here s → wlp (hand_over here loop p fd cbs) (λ _, awake) s.
Proof.
  intros Hs Hturn. unfold hand_over, run_established. wlp_run.
  set (s1 := set_rx_mapped _ _). assert (awake s1) as Hs1 by done.
  apply wlp_if; intros Hhere; [|wlp_run; apply awake_note; [by right|done]].
  eapply wlp_mono; [by apply (run_owner_stirs (λ ph, ph ≠ AtPoll))|].
  intros [] s' [_ Ha]. apply Ha; [|done]. by apply Hturn.
Qed.

Lemma environment_awake ev s :
  (∀ epoll_wait, ev ≠ LoopThread epoll_wait) → loop_event_ok ev s → awake s →
  wlp (run_loop_event ev) (λ _, awake) s.
Proof.
  intros Hev Hok Hs. 
  assert (∀ m : M RX unit, evolves (stirs (λ _, True)) m → wlp m (λ _, awake) s) as Hquiet.
  { intros m Hm. eapply wlp_mono; [apply Hm|]. intros [] s' [_ Ha]. by apply Ha. }
  assert (∀ fd, evolves (stirs (λ _, True)) (close_descriptor fd)) as Hclose.
  { intros fd s1. unfold close_descriptor, on_poller. wlp_run.
    destruct (close_fd _ fd) as [[?|?] k']; by wlp_run. }
  destruct ev as [w|here loop p cbs|here p|p|here p cmd|b cmd|loop chan| | |];
    cbn [run_loop_event loop_event_ok] in *; [by destruct (Hev w)|..].
  - unfold new_connection, accept_connection, on_poller. wlp_run.
    destruct (accept4 _) as [[fd k']|]; wlp_run; [|done]. by apply hand_over_awake; [|apply Hok].
  - unfold remove_connection. wlp_run. apply on_connection_awake; [done|]. intros c.
    cbn [run_conn_event]. unfold queueInLoop. wlp_run. apply Hok.
  - apply Hquiet. unfold release_connection, delete_channel, on_poller. evolves;
      [by intros s1; wlp_run|by apply stirs_modify].
  - apply on_connection_awake; [done|]. intros c.
    eapply wlp_mono; [apply call_in_loop|]. intros [] c' ->. apply Hok.
  - by apply on_timers_awake.
  - apply Hquiet. unfold new_acceptor, on_poller. intros s1. by wlp_run.
  - apply Hquiet. unfold listen_acceptor, on_poller. intros s1. by wlp_run.
  - apply Hquiet. unfold delete_acceptor, delete_channel, on_poller. evolves;
      by first [apply stirs_modify|intros s1; wlp_run].
  - unfold queue_removal. wlp_run. by apply awake_note; [right|].
Qed.

Lemma new_EventLoop_awake loop timerfdChannel wakeupChannel k s :
  new_EventLoop loop timerfdChannel wakeupChannel k = Ok s → awake s.
Proof.
  unfold new_EventLoop, mbind, outcome_bind. repeat case_match; try done. intros [= <-].
  split; [done|by left].
Qed.

Lemma loop_reachable_awake s : loop_reachable s → awake s.
Proof.
  intros (loop & tch & wch & k & s0 & Hl & Hne & Hnew & Hsteps).
  pose proof (new_EventLoop_awake _ _ _ _ _ Hnew) as Hs0.
  revert Hsteps. apply rtc_invariant with (P := awake); [|done].
  intros s1 s2 Hs1 (ev & Hok & Hrun).
  destruct ev as [ew| | | | | | | | |] eqn:Hev; [by apply loop_step_awake in Hrun|..];
    subst ev; by apply environment_awake in Hrun.
Qed.

(** C10 (safety). The loop with everything on it does not sleep on work: in all
    interleavings of the loop thread with the other threads, whenever the
    thread is about to poll and a functor waits in the queue, whoever queued
    it, a connection, the timers, the server or user code, in this thread or
    in another one, the eventfd's counter is not zero, and the kernel watches
    it for reading on behalf of the wakeup channel. *)
Theorem loop_woken s :
  loop_reachable s → rx_phase s = AtPoll → rx_pending s ≠ [] →
  0 < rx_counter s ∧
  interest (epollfd_ (rx_poller s)) !! rx_wakeupFd s = Some (kReadEvent, rx_wakeupChannel s).
Proof.
  intros Hs Hph Hq. pose proof (reactor_reachable_inv s Hs) as Hinv. split.
  - destruct (loop_reachable_awake s Hs) as [_ [?|[?|Hno]]]; [done|done|]. by rewrite Hph in Hno.
  - eapply own_interest; apply Hinv.
Qed.
End loop.

#[local] Existing Instance TimerQueueProps.demo_env.
#[local] Existing Instance TimerQueueProps.demo_env_spec.
#[local] Existing Instance ReactorProps.echo_loop_env.
#[local] Existing Instance ReactorProps.echo_loop_env_spec.

(** The base loop has handed over a connection, the loop is about to poll. *)
Lemma loop_woken_witness :
  loop_reachable (demo_state 1) ∧ rx_phase (demo_state 1) = AtPoll ∧
  rx_pending (demo_state 1) = [OfConnection 30] ∧ 0 < rx_counter (demo_state 1).
Proof.
  assert (loop_reachable (demo_state 1)) as Hs by (apply demo_state_reachable; lia).
  assert (rx_phase (demo_state 1) = AtPoll) as Hph by (apply demo_phase; reflexivity).
  assert (rx_pending (demo_state 1) = [OfConnection 30]) as Hq by (vm_compute; reflexivity).
  split; [exact Hs|]. split; [exact Hph|]. split; [exact Hq|].
  refine (proj1 (loop_woken (demo_state 1) Hs Hph _)). rewrite Hq. discriminate.
Defined.
