(* ===== verification/ReactorTurns.v ===== *)
(** * What becomes of a functor that waits (src/net/EventLoop.cc)

    In the states of Reactor.v, whatever the other threads do: a connection's
    functor stays in the queue, in its place, until its own turn; once the loop
    thread has swapped the queues, that turn comes before the next poll. *)
From S2P Require Import Prelude Posix Channel EPollPoller.
From S2P Require TimerQueue TimerQueueSpec.
From S2P Require Import TcpConnection TcpConnectionSpec ConnectionFrame.
From S2P Require Import Reactor ReactorSpec ReactorAcceptor ReactorProps.

Section turns.
Context {K TCB : Type} `{!Epoll K, !EpollSpec K, !Descriptors K, !DescriptorsSpec K}.
Abbreviation PW := (PollWorld K loop_callback).
Context `{!ConnEnv PW, !ConnEnvSpec PW, !TimerQueue.TimerEnv TCB, !TimerQueueSpec.TimerEnvSpec TCB}.
Abbreviation RX := (Reactor (K:=K) (TCB:=TCB)).
Implicit Types (s : RX) (c : ConnW PW) (f : functor).

(** ** The queue of one connection grows *)

(** Methods that only add functors. *)
Definition appends c c' : Prop := ∃ fs, pending c' = pending c ++ fs.
#[export] Instance appends_preorder : PreOrder appends.
Proof.
  split; [intros c; exists []; by rewrite app_nil_r|]. intros c1 c2 c3 [fs Hfs] [fs' Hfs'].
  exists (fs ++ fs'). by rewrite Hfs', Hfs, app_assoc.
Qed.

Lemma appended_appends {A} (m : M (ConnW PW) A) c :
  wlp m (λ _, appended (pending c)) c → wlp m (λ _, appends c) c.
Proof. intros Hm. eapply wlp_mono; [exact Hm|]. intros ? c' (fs & Hfs & _). by exists fs. Qed.

Lemma run_handler_appends h : evolves appends (run_handler h).
Proof.
  intros c. apply appended_appends. by apply (keep_handler True _ (appended_stable _) h c I (appended_refl c)).
Qed.

Lemma call_event_appends here cmd : evolves appends (run_conn_event (call_event here cmd)).
Proof.
  intros c. apply appended_appends.
  destruct here; cbn [call_event run_conn_event]; do 2 wlp_step;
    apply (keep_user_call True _ (appended_stable (pending c))), (appended_refl c).
Qed.

Lemma queue_destroy_appends here :
  evolves appends (modify (set_in_loop here) ;; run_conn_event QueueDestroy).
Proof. intros c. cbn [run_conn_event]. unfold queueInLoop. wlp_run. by exists [ConnectDestroyed]. Qed.

(** The loop thread is where it was, and the queue of the connection at [p]
    is no shorter. *)
Definition grows (p : ptr) s s' : Prop :=
  rx_phase s' = rx_phase s ∧ ∃ fs, pending_at s' p = pending_at s p ++ fs.
#[export] Instance grows_preorder p : PreOrder (grows p).
Proof.
  split; [intros s; split; [done|exists []; by rewrite app_nil_r]|].
  intros s1 s2 s3 [H12 [fs Hfs]] [H23 [fs' Hfs']]. split; [congruence|].
  exists (fs ++ fs'). by rewrite Hfs', Hfs, app_assoc.
Qed.

Lemma grows_same p s s' : rx_phase s' = rx_phase s → pending_at s' p = pending_at s p → grows p s s'.
Proof. intros Hph Hq. split; [done|]. exists []. by rewrite Hq, app_nil_r. Qed.

Lemma grows_note p o n here s : grows p s (note_queued o n here s).
Proof. apply grows_same; unfold note_queued; by destruct (negb here || calling (rx_phase s)). Qed.

Lemma grows_modify p (g : RX → RX) :
  (∀ s, rx_phase (g s) = rx_phase s ∧ pending_at (g s) p = pending_at s p) →
  evolves (grows p) (modify g).
Proof. intros Hg. apply evolves_modify. intros s. by apply grows_same; apply Hg. Qed.

Lemma on_poller_grows {A} p (m : M PW A) : evolves (grows p) (on_poller m).
Proof. intros s. unfold on_poller. wlp_run. by apply grows_same. Qed.

Lemma on_timers_grows {A} p (m : M (TimerQueue.TQ TCB) A) : evolves (grows p) (on_timers m).
Proof.
  intros s. unfold on_timers. wlp_run. unfold put_timers. etrans; [|apply grows_note]. by apply grows_same.
Qed.

(** What happens to the connection at [q] concerns [p] when they are the same. *)
Lemma on_connection_wlp {A} q (m : M (ConnW PW) A) s Q :
  (∀ c a c', rx_conns s !! q = Some c → m (set_poller (rx_poller s) c) = Ok (a, c') →
     Q a (put_connection q (set_poller (rx_poller s) c) c' s)) →
  wlp (on_connection q m) Q s.
Proof.
  intros Hm. unfold on_connection. apply wlp_bind, wlp_deref. intros c Hc. wlp_run.
  destruct a as [x c']. wlp_run. unfold connection_at in Hc.
  apply fmap_Some in Hc as (c0 & Hc0 & ->). by apply Hm.
Qed.

Lemma put_connection_pending q c0 c s p :
  pending_at (put_connection q c0 c s) p = if decide (p = q) then pending c else pending_at s p.
Proof.
  unfold put_connection, pending_at, note_queued. destruct (negb _ || calling _); cbn;
    rewrite lookup_insert; repeat case_decide; congruence || done.
Qed.
Lemma put_connection_phase q c0 c s : rx_phase (put_connection q c0 c s) = rx_phase s.
Proof. unfold put_connection, note_queued. by destruct (negb _ || calling _). Qed.

Lemma on_connection_grows {A} p q (m : M (ConnW PW) A) :
  q ≠ p ∨ evolves appends m → evolves (grows p) (on_connection q m).
Proof.
  intros Hm s. apply on_connection_wlp. intros c a c' Hc Hrun. split; [apply put_connection_phase|].
  rewrite put_connection_pending. case_decide as Hp; [|exists []; by rewrite app_nil_r].
  subst q. destruct Hm as [Hm|Hm]; [done|]. destruct (Hm _ _ _ Hrun) as [fs Hfs]. exists fs.
  rewrite Hfs. unfold pending_at. by rewrite Hc.
Qed.

Lemma run_owner_grows p o : o ≠ OfConnection p → evolves (grows p) (run_owner o).
Proof.
  intros Ho. destruct o as [| |q]; cbn [run_owner]; [apply on_timers_grows|evolves|].
  assert (q ≠ p) as Hq by congruence. pose proof (@on_connection_grows) as Hconn. evolves; by apply Hconn; left.
Qed.

Lemma handle_channel_grows p q : evolves (grows p) (handle_channel q).
Proof.
  assert (∀ r cb, evolves (grows p) (run_loop_callback r cb)) as Hcb.
  { intros r cb. destruct cb; cbn [run_loop_callback].
    - by apply grows_modify.
    - apply on_timers_grows.
    - by apply grows_modify.
    - apply on_connection_grows. right. apply run_handler_appends. }
  unfold handle_channel, handleEvent, handleEventWithGuard, on_revents, fire. evolves.
  apply grows_modify. intros s. split; [done|]. unfold pending_at, enter_loop_thread. cbn.
  destruct (decide (q = p)) as [->|Hq]; [|by rewrite lookup_alter_ne].
  rewrite lookup_alter_eq. by destruct (rx_conns s !! p).
Qed.

(** ** The other threads *)

Lemma accept_connection_grows p : evolves (grows p) accept_connection.
Proof.
  unfold accept_connection. evolves; try done. apply on_poller_grows.
Qed.

Lemma hand_over_grows p here loop q fd cbs : q ≠ p → evolves (grows p) (hand_over here loop q fd cbs).
Proof.
  intros Hq. assert (evolves (grows p) (run_owner (OfConnection q)))
    by (apply run_owner_grows; congruence).
  unfold hand_over, run_established. evolves; apply grows_modify; intros s.
  - split; [done|]. unfold pending_at. cbn. by rewrite lookup_insert_ne.
  - split; [by unfold note_queued; destruct (_ || _)|]. unfold note_queued. by destruct (_ || _).
Qed.

Lemma remove_connection_grows p here q : evolves (grows p) (remove_connection here q).
Proof.
  unfold remove_connection. evolves; [by apply grows_modify|].
  apply on_connection_grows. right. apply queue_destroy_appends.
Qed.

Lemma release_connection_grows p q : q ≠ p → evolves (grows p) (release_connection q).
Proof.
  intros Hq. assert (∀ fd, evolves (grows p) (close_descriptor fd)) as Hclose.
  { intros fd s. unfold close_descriptor, on_poller. wlp_run.
    destruct (close_fd _ fd) as [[?|?] k']; wlp_run; by apply grows_same. }
  unfold release_connection, delete_channel. pose proof (@on_poller_grows) as Hp. evolves.
  apply grows_modify. intros s. split; [done|]. unfold pending_at. cbn. by rewrite lookup_delete_ne.
Qed.

Lemma queue_removal_grows p : evolves (grows p) queue_removal.
Proof. unfold queue_removal. apply evolves_modify. intros s. apply grows_note. Qed.

Lemma user_event_grows p (ev : loop_event (TCB:=TCB)) :
  match ev with
  | CallConnection _ _ _ | CallTimers _ _ => True
  | ReleaseConnection q => q ≠ p
  | _ => False
  end → evolves (grows p) (run_loop_event ev).
Proof.
  destruct ev as [w|here loop q cbs|here q|q|here q cmd|b cmd|loop chan| | |]; try done;
    cbn [run_loop_event]; intros Hq; [by apply release_connection_grows| |apply on_timers_grows].
  apply on_connection_grows. right. apply call_event_appends.
Qed.

(** ** The loop thread *)

Lemma take_functor_pops c :
  wlp take_functor (λ _ c', pending c' = drop 1 (pending c)) c.
Proof.
  unfold take_functor. wlp_run.
  change (pending (set_in_loop true c)) with (pending c). destruct (pending c) eqn:Hq; by wlp_run.
Qed.

Lemma run_functor_appends f : evolves appends (run_functor f).
Proof.
  intros c. apply appended_appends.
  by apply (keep_functor True _ (appended_stable _) f c); [|apply appended_refl].
Qed.

Lemma run_owner_pops p s :
  wlp (run_owner (OfConnection p)) (λ _ s', rx_phase s' = rx_phase s ∧
    ∃ fs, pending_at s' p = drop 1 (pending_at s p) ++ fs) s.
Proof.
  cbn [run_owner]. apply wlp_bind, on_connection_wlp. intros c x c1 Hc Hrun.
  apply take_functor_pops in Hrun. set (s1 := put_connection p _ c1 s).
  assert (rx_phase s1 = rx_phase s ∧ pending_at s1 p = drop 1 (pending_at s p)) as [<- <-].
  { unfold s1. rewrite put_connection_phase, put_connection_pending, decide_True, Hrun by done.
    unfold pending_at. by rewrite Hc. }
  clearbody s1. destruct x as [f|]; [|wlp_step; split; [done|exists []; by rewrite app_nil_r]].
  apply on_connection_grows. right. apply run_functor_appends.
Qed.

(** The functor [f] of [p] is the next to run. *)
Definition popped (p : ptr) f s : Prop :=
  (∃ rest, rx_phase s = Running (OfConnection p :: rest)) ∧ next_functor (OfConnection p) s = Some (p, f).

Definition swapping (ph : phase) : Prop := ph = Handling [].

(** It moves up with the entries of its connection that the thread has taken. *)
Lemma loop_step_place epoll_wait p f j s :
  pending_at s p !! j = Some f →
  wlp (loop_step epoll_wait) (λ _ s', popped p f s ∨ ∃ j', pending_at s' p !! j' = Some f ∧
    (¬ swapping (rx_phase s) → (j' + tokens p (functors_of (rx_phase s)) =
       j + tokens p (functors_of (rx_phase s')))%nat)) s.
Proof.
  intros Hj. unfold loop_step. do 2 wlp_step.
  assert (∀ s', grows p s s' → pending_at s' p !! j = Some f) as Hgrow.
  { intros s' [_ [fs Hfs]]. rewrite Hfs. by apply lookup_app_l_Some. }
  destruct (rx_phase s) as [|[|q act]|[|o rest]] eqn:Hph; cbn [functors_of].
  - apply wlp_bind. eapply wlp_mono; [apply (on_poller_grows p)|]. intros act s' Hs'. wlp_step.
    right. exists j. split; [exact (Hgrow s' Hs')|done].
  - wlp_run. right. exists j. split; [done|]. intros Hno. by destruct Hno.
  - apply wlp_bind. eapply wlp_mono; [apply (handle_channel_grows p)|]. intros [] s' Hs'. wlp_step.
    right. exists j. split; [exact (Hgrow s' Hs')|done].
  - wlp_run. right. by exists j.
  - apply wlp_bind. destruct (decide (o = OfConnection p)) as [->|Ho].
    + eapply wlp_mono; [apply run_owner_pops|]. intros [] s' [_ [fs Hfs]]. wlp_step.
      destruct j as [|j].
      * left. split; [by exists rest|]. cbn. by rewrite head_lookup, Hj.
      * right. exists j. split; [|intros _; rewrite tokens_cons; cbn; lia].
        change (pending_at _ p) with (pending_at s' p). rewrite Hfs.
        apply lookup_app_l_Some. by rewrite lookup_drop.
    + eapply wlp_mono; [by apply run_owner_grows|]. intros [] s' Hs'. wlp_step.
      right. exists j. split; [exact (Hgrow s' Hs')|]. intros _. by rewrite tokens_cons_ne.
Qed.

(** It is among the functors that the loop thread has taken from the queue. *)
Definition due (p : ptr) f s : Prop :=
  ∃ j, pending_at s p !! j = Some f ∧ (j < tokens p (functors_of (rx_phase s)))%nat.

Lemma loop_step_waits epoll_wait p f s :
  f ∈ pending_at s p →
  wlp (loop_step epoll_wait) (λ _ s', popped p f s ∨ f ∈ pending_at s' p) s.
Proof.
  intros [j Hj]%list_elem_of_lookup. eapply wlp_mono; [by apply loop_step_place|].
  intros [] s' [?|(j' & Hj' & _)]; [by left|right]. by eapply list_elem_of_lookup_2.
Qed.

Lemma loop_step_due epoll_wait p f s :
  due p f s → wlp (loop_step epoll_wait) (λ _ s', popped p f s ∨ due p f s') s.
Proof.
  intros (j & Hj & Hlt). eapply wlp_mono; [by apply loop_step_place|].
  intros [] s' [?|(j' & Hj' & Htok)]; [by left|right]. exists j'. split; [done|].
  assert (¬ swapping (rx_phase s)) as Hno by (intros Hs; rewrite Hs in Hlt; by apply Nat.nlt_0_r in Hlt).
  specialize (Htok Hno). lia.
Qed.

(** The swap takes them all. *)
Lemma swap_due epoll_wait p f s :
  reactor_inv s → swapping (rx_phase s) → f ∈ pending_at s p →
  wlp (loop_step epoll_wait) (λ _ s', due p f s') s.
Proof.
  intros Hinv Hph [j Hj]%list_elem_of_lookup. unfold loop_step. do 2 wlp_step. unfold reactor_inv in Hinv.
  rewrite Hph in *. wlp_run. exists j. split; [done|]. cbn [rx_phase set_rx_phase functors_of].
  unfold pending_at in Hj. destruct (rx_conns s !! p) as [c|] eqn:Hc; [|done].
  pose proof (li_balanced _ _ _ Hinv p c Hc) as Hb. cbn in Hb. apply lookup_lt_Some in Hj.
  change (tokens p []) with 0%nat in Hb. lia.
Qed.

Lemma due_running p f s : due p f s → functors_of (rx_phase s) ≠ [].
Proof. intros (j & _ & Hlt) Hnil. rewrite Hnil in Hlt. by apply Nat.nlt_0_r in Hlt. Qed.

Lemma grows_waits p f s s' : grows p s s' → f ∈ pending_at s p → f ∈ pending_at s' p.
Proof. intros [_ [fs ->]] Hf. apply elem_of_app. by left. Qed.
Lemma grows_due p f s s' : grows p s s' → due p f s → due p f s'.
Proof.
  intros [Hph [fs Hfs]] (j & Hj & Hlt). exists j. rewrite Hph, Hfs. split; [by apply lookup_app_l_Some|done].
Qed.
End turns.
