(* ===== verification/InetAddress.v ===== *)
(** * InetAddress (include/net/InetAddress.h, src/net/InetAddress.cc)

    An IPv4 endpoint. [inet_pton] and [inet_ntop] are parameters; the 32-bit
    address is the number the four bytes in network order make on the
    little-endian machine, as in [struct sockaddr_in]. *)
From S2P Require Import Prelude Decimal.
From Stdlib Require Import Ascii.
Open Scope string_scope.
Open Scope Z_scope.

(** <arpa/inet.h> on a little-endian machine: the bytes in reverse order. *)
Definition byte_of (k x : Z) : Z := Z.land (Z.shiftr x (8 * k)) 255.
Definition htons (x : Z) : Z := Z.lor (Z.shiftl (byte_of 0 x) 8) (byte_of 1 x).
Definition ntohs (x : Z) : Z := htons x.
Definition htonl (x : Z) : Z :=
  Z.lor (Z.shiftl (byte_of 0 x) 24)
    (Z.lor (Z.shiftl (byte_of 1 x) 16) (Z.lor (Z.shiftl (byte_of 2 x) 8) (byte_of 3 x))).

(** [inet_pton(AF_INET, ...)]: [None] for a result of zero or less;
    [inet_ntop(AF_INET, ...)]: [None] for a null pointer. *)
Class InetLib := {
  inet_pton : string → option Z;
  inet_ntop : Z → option string;
}.

(** The four bytes, in the order they have in memory. *)
Definition dotted (a : Z) : string :=
  pretty (byte_of 0 a) +:+ "." +:+ pretty (byte_of 1 a) +:+ "." +:+
  pretty (byte_of 2 a) +:+ "." +:+ pretty (byte_of 3 a).

(** inet_pton(3), inet_ntop(3) *)
Class InetLibSpec `{!InetLib} : Prop := {
  inet_pton_range ip a : inet_pton ip = Some a → 0 ≤ a < 2 ^ 32;
  inet_ntop_dotted a : 0 ≤ a < 2 ^ 32 → inet_ntop a = Some (dotted a);
}.

Definition AF_INET : Z := 2.
Definition INADDR_ANY : Z := 0.
Definition INADDR_LOOPBACK : Z := 0x7f000001.

Record sockaddr_in : Type := MkSockaddr { sin_family : Z; sin_port : Z; s_addr : Z }.
Record InetAddress : Type := MkInetAddress { addr_ : sockaddr_in }.

#[export] Instance sockaddr_in_eq_dec : EqDecision sockaddr_in.
Proof. solve_decision. Defined.
#[export] Instance InetAddress_eq_dec : EqDecision InetAddress.
Proof. solve_decision. Defined.

Definition zero_sockaddr : sockaddr_in := MkSockaddr 0 0 0.

Section inet.
Context `{!InetLib}.

Definition new_InetAddress (port : Z) (loopbackOnly : bool) : InetAddress :=
  let ip := if loopbackOnly then INADDR_LOOPBACK else INADDR_ANY in
  MkInetAddress (MkSockaddr AF_INET (htons port) (htonl ip)).

Definition new_InetAddress_ip (ip : string) (port : Z) : outcome InetAddress :=
  match inet_pton ip with
  | Some a => Ok (MkInetAddress (MkSockaddr AF_INET (htons port) a))
  | None => Fault AbortFatal
  end.

Definition toIp (i : InetAddress) : string :=
  match inet_ntop (s_addr (addr_ i)) with Some s => s | None => "" end.

Definition toIpPort (i : InetAddress) : string :=
  toIp i +:+ ":" +:+ pretty (ntohs (sin_port (addr_ i))).

Definition getSockAddr (i : InetAddress) : sockaddr_in := addr_ i.
Definition setSockAddr (addr : sockaddr_in) (i : InetAddress) : InetAddress :=
  MkInetAddress addr.
End inet.

(** ** Reading an endpoint back *)

(** A number and the character that ends it. *)
Definition parse_field (sep : ascii) (s : string) : option (Z * string) :=
  match parse_digits 0 s with
  | (n, String c rest) => if bool_decide (c = sep) then Some (Z.of_N n, rest) else None
  | (_, EmptyString) => None
  end.

Definition parse_ip_port (s : string) : option (Z * Z) :=
  '(b0, s) ← parse_field "." s;
  '(b1, s) ← parse_field "." s;
  '(b2, s) ← parse_field "." s;
  '(b3, s) ← parse_field ":" s;
  let '(port, s) := parse_digits 0 s in
  if bool_decide (s = "")
  then Some (b0 + 256 * b1 + 65536 * b2 + 16777216 * b3, Z.of_N port) else None.

(** ** Helper lemmas *)

Lemma byte_of_arith k x : 0 ≤ k → byte_of k x = (x / 2 ^ (8 * k)) `mod` 256.
Proof.
  intros. unfold byte_of. rewrite Z.shiftr_div_pow2 by lia.
  change 255 with (Z.ones 8). by rewrite Z.land_ones by lia.
Qed.

Lemma byte_of_range k x : 0 ≤ k → 0 ≤ byte_of k x < 256.
Proof. intros. rewrite byte_of_arith by done. by apply Z.mod_pos_bound. Qed.

(** Joining two bit fields that do not overlap. *)
Lemma lor_shiftl_add a b n : 0 ≤ n → 0 ≤ b < 2 ^ n → Z.lor (Z.shiftl a n) b = a * 2 ^ n + b.
Proof.
  intros Hn Hb. rewrite <-Z.add_lor_land, Z.shiftl_mul_pow2 by done.
  replace (Z.land (a * 2 ^ n) b) with 0; [lia|]. symmetry. apply Z.bits_inj'. intros i Hi.
  rewrite Z.land_spec, Z.bits_0. destruct (Z.lt_ge_cases i n).
  - rewrite Z.mul_pow2_bits_low by done. done.
  - rewrite <-(Z.mod_small b (2 ^ n)), Z.mod_pow2_bits_high by lia. apply andb_false_r.
Qed.

Lemma htons_arith x : htons x = byte_of 0 x * 256 + byte_of 1 x.
Proof.
  unfold htons. rewrite lor_shiftl_add; [done|done|]. pose proof (byte_of_range 1 x). lia.
Qed.

Lemma htons_involutive x : 0 ≤ x < 2 ^ 16 → ntohs (htons x) = x.
Proof.
  intros Hx. unfold ntohs. rewrite !htons_arith, !byte_of_arith by done.
  change (2 ^ (8 * 0)) with 1. change (2 ^ (8 * 1)) with 256. rewrite !Z.div_1_r.
  assert (0 ≤ x / 256 < 256).
  { split; [apply Z.div_pos; lia|apply Z.div_lt_upper_bound; lia]. }
  rewrite (Z.mod_small (x / 256)) by lia.
  pose proof (Z.mod_pos_bound x 256 eq_refl). pose proof (Z.div_mod x 256 ltac:(lia)).
  set (lo := x `mod` 256) in *. set (hi := x / 256) in *.
  replace ((lo * 256 + hi) `mod` 256) with hi by (apply (Z.mod_unique _ _ lo); lia).
  replace ((lo * 256 + hi) / 256) with lo by (apply (Z.div_unique _ _ _ hi); lia).
  rewrite Z.mod_small by lia. lia.
Qed.

Lemma bytes_join a :
  0 ≤ a < 2 ^ 32 →
  byte_of 0 a + 256 * byte_of 1 a + 65536 * byte_of 2 a + 16777216 * byte_of 3 a = a.
Proof.
  intros Ha. rewrite !byte_of_arith by done.
  change (2 ^ (8 * 0)) with 1. change (2 ^ (8 * 1)) with 256.
  change (2 ^ (8 * 2)) with (256 * 256). change (2 ^ (8 * 3)) with (256 * 256 * 256).
  rewrite Z.div_1_r, <-!Z.div_div by lia.
  set (q1 := a / 256). set (q2 := q1 / 256). set (q3 := q2 / 256).
  assert (a = 256 * q1 + a `mod` 256) by (apply Z.div_mod; lia).
  assert (q1 = 256 * q2 + q1 `mod` 256) by (apply Z.div_mod; lia).
  assert (q2 = 256 * q3 + q2 `mod` 256) by (apply Z.div_mod; lia).
  pose proof (Z.mod_pos_bound a 256 eq_refl). pose proof (Z.mod_pos_bound q1 256 eq_refl).
  pose proof (Z.mod_pos_bound q2 256 eq_refl).
  rewrite (Z.mod_small q3) by lia. lia.
Qed.

Lemma parse_field_pretty sep x s :
  0 ≤ x → digit_of sep = None →
  parse_field sep (pretty x +:+ String sep s) = Some (x, s).
Proof.
  intros Hx Hsep. unfold parse_field. rewrite parse_pretty_Z by done.
  cbn [parse_digits]. rewrite Hsep, bool_decide_eq_true_2 by done. by rewrite Z2N.id.
Qed.

Lemma parse_dotted_port a port :
  0 ≤ a < 2 ^ 32 → 0 ≤ port →
  parse_ip_port (dotted a +:+ ":" +:+ pretty port) = Some (a, port).
Proof.
  intros Ha Hport. unfold parse_ip_port, dotted. rewrite !string_app_assoc, !string_app_cons.
  pose proof (byte_of_range 0 a). pose proof (byte_of_range 1 a).
  pose proof (byte_of_range 2 a). pose proof (byte_of_range 3 a).
  do 4 (rewrite parse_field_pretty by (done || lia); cbn [mbind option_bind];
    change (String.append "" ?x) with x).
  rewrite <-(string_app_nil_r (pretty port)), parse_pretty_Z by done.
  cbn [parse_digits]. rewrite bool_decide_eq_true_2 by done.
  by rewrite bytes_join, Z2N.id by done.
Qed.

(** ** Properties *)

(** C37 (roundtrip). The text of an endpoint made from a dotted address and a
    port, or from a port and the loopback flag, reads back as exactly this
    address and port (so [htons]/[ntohs] and [htonl] are applied the right
    number of times, and different endpoints have different texts); an address
    that [inet_pton] rejects aborts. *)
Theorem address_roundtrip `{!InetLib, !InetLibSpec} ip port :
  0 ≤ port < 2 ^ 16 →
  match inet_pton ip with
  | Some a => ∃ i, new_InetAddress_ip ip port = Ok i ∧ toIp i = dotted a ∧
      parse_ip_port (toIpPort i) = Some (a, port)
  | None => new_InetAddress_ip ip port = Fault AbortFatal
  end ∧
  ∀ loopbackOnly : bool,
    parse_ip_port (toIpPort (new_InetAddress port loopbackOnly)) =
      Some (htonl (if loopbackOnly then INADDR_LOOPBACK else INADDR_ANY), port).
Proof.
  intros Hport.
  assert (∀ a, 0 ≤ a < 2 ^ 32 →
    let i := MkInetAddress (MkSockaddr AF_INET (htons port) a) in
    toIp i = dotted a ∧ parse_ip_port (toIpPort i) = Some (a, port)) as Htext.
  { intros a Ha i. unfold i, toIpPort, toIp. cbn. rewrite inet_ntop_dotted by done.
    rewrite htons_involutive by done. split; [done|]. apply parse_dotted_port; [done|lia]. }
  split.
  - unfold new_InetAddress_ip. destruct (inet_pton ip) as [a|] eqn:Hip; [|done].
    eexists. split; [done|]. apply Htext. exact (inet_pton_range _ _ Hip).
  - intros loopbackOnly. apply (Htext (htonl (if loopbackOnly then INADDR_LOOPBACK else INADDR_ANY))).
    destruct loopbackOnly; split; by vm_compute.
Qed.

(** The library on canonical dotted addresses. *)
#[export] Instance demo_inet : InetLib := {|
  inet_pton ip :=
    match parse_ip_port (ip +:+ ":0") with
    | Some (a, _) =>
        if bool_decide (0 ≤ a < 2 ^ 32 ∧ dotted a = ip) then Some a else None
    | None => None
    end;
  inet_ntop a := Some (dotted a);
|}.

#[export] Instance demo_inet_spec : InetLibSpec.
Proof.
  split; [|done]. intros ip a. cbn. destruct (parse_ip_port _) as [[a' p]|]; [|done].
  case_bool_decide as Ha; [|done]. intros [= <-]. tauto.
Qed.

Example loopback_text : toIpPort (new_InetAddress 8080 true) = "127.0.0.1:8080".
Proof. vm_compute. reflexivity. Qed.

Lemma address_roundtrip_witness :
  match inet_pton "192.168.1.20" with
  | Some a => ∃ i, new_InetAddress_ip "192.168.1.20" 8080 = Ok i ∧ toIp i = dotted a ∧
      parse_ip_port (toIpPort i) = Some (a, 8080)
  | None => new_InetAddress_ip "192.168.1.20" 8080 = Fault AbortFatal
  end ∧
  ∀ loopbackOnly : bool,
    parse_ip_port (toIpPort (new_InetAddress 8080 loopbackOnly)) =
      Some (htonl (if loopbackOnly then INADDR_LOOPBACK else INADDR_ANY), 8080).
Proof. apply (address_roundtrip "192.168.1.20" 8080). lia. Defined.
