(* ===== verification/Sockets.v ===== *)
(** * SocketsOps and Socket (include/net/SocketsOps.h, src/net/SocketsOps.cc,
      include/net/Socket.h, src/net/Socket.cc)

    The wrappers of the socket calls and the RAII descriptor. The calls are
    recorded in a trace; their results are a parameter that may depend on what
    has been called before. *)
From S2P Require Import Prelude Posix InetAddress.
Open Scope string_scope.
Open Scope list_scope.
Open Scope Z_scope.

Definition SOCK_STREAM : Z := 1.
Definition SOCK_NONBLOCK : Z := 2048.
Definition SOCK_CLOEXEC : Z := 524288.
Definition IPPROTO_TCP : Z := 6.
Definition TCP_NODELAY : Z := 1.
Definition SOL_SOCKET : Z := 1.
Definition SO_REUSEADDR : Z := 2.
Definition SO_KEEPALIVE : Z := 9.
Definition SO_REUSEPORT : Z := 15.
Definition SOMAXCONN : Z := 4096.
Definition F_GETFD : Z := 1.
Definition F_SETFD : Z := 2.
Definition F_GETFL : Z := 3.
Definition F_SETFL : Z := 4.
Definition O_NONBLOCK : Z := 2048.
Definition FD_CLOEXEC : Z := 1.

Inductive syscall : Type :=
| SysSocket (domain type protocol : Z)
| SysBind (fd : Z) (addr : sockaddr_in)
| SysListen (fd backlog : Z)
| SysAccept4 (fd flags : Z)
| SysAccept (fd : Z)
| SysFcntl (fd cmd arg : Z)
| SysSetsockopt (fd level option value : Z)
| SysGetsockname (fd : Z)
| SysClose (fd : Z).
#[export] Instance syscall_eq_dec : EqDecision syscall.
Proof. solve_decision. Defined.

(** The result of a call after the calls of the trace, and the address a
    successful [accept], [accept4] or [getsockname] stores. *)
Class Os := {
  result : list syscall → syscall → io_result Z;
  stored_addr : list syscall → syscall → sockaddr_in;
  strerror : Z → string;
}.

Record SockWorld : Type := MkSockWorld { trace : list syscall; errors : list string }.

Section sockets.
Context `{!Os}.

Definition log_error (message : string) : M SockWorld unit :=
  modify (λ w, MkSockWorld (trace w) (errors w ++ [message])).

Definition do_call (c : syscall) : M SockWorld (io_result Z) :=
  tr ← gets trace;
  modify (λ w, MkSockWorld (trace w ++ [c]) (errors w)) ;;
  mret (result tr c).

Definition errnoMessage (action : string) (errno : Z) : string :=
  action +:+ " failed: " +:+ strerror errno.

Definition createSocketOrDie (flags : Z) : M SockWorld Z :=
  r ← do_call (SysSocket AF_INET (Z.lor SOCK_STREAM flags) IPPROTO_TCP);
  match r with IoOk sockfd => mret sockfd | IoErr _ => raise AbortFatal end.
Definition createNonblockingOrDie : M SockWorld Z :=
  createSocketOrDie (Z.lor SOCK_NONBLOCK SOCK_CLOEXEC).
Definition createBlockingOrDie : M SockWorld Z := createSocketOrDie 0.

(** [if (call < 0) LOG_FATAL(...)] *)
Definition or_die (c : syscall) : M SockWorld unit :=
  r ← do_call c;
  match r with IoOk _ => mret tt | IoErr _ => raise AbortFatal end.
Definition bindOrDie (sockfd : Z) (addr : sockaddr_in) : M SockWorld unit :=
  or_die (SysBind sockfd addr).
Definition listenOrDie (sockfd : Z) : M SockWorld unit := or_die (SysListen sockfd SOMAXCONN).

(** [if (call < 0) LOG_ERROR(errnoMessage(action))] *)
Definition or_log (action : string) (c : syscall) : M SockWorld unit :=
  r ← do_call c;
  match r with IoOk _ => mret tt | IoErr errno => log_error (errnoMessage action errno) end.

Definition setNonBlockAndCloseOnExec (sockfd : Z) : M SockWorld unit :=
  flags ← do_call (SysFcntl sockfd F_GETFL 0);
  match flags with
  | IoErr errno => log_error (errnoMessage "fcntl F_GETFL" errno)
  | IoOk flags =>
      or_log "fcntl F_SETFL O_NONBLOCK" (SysFcntl sockfd F_SETFL (Z.lor flags O_NONBLOCK))
  end ;;
  fdflags ← do_call (SysFcntl sockfd F_GETFD 0);
  match fdflags with
  | IoErr errno => log_error (errnoMessage "fcntl F_GETFD" errno)
  | IoOk fdflags =>
      or_log "fcntl F_SETFD FD_CLOEXEC" (SysFcntl sockfd F_SETFD (Z.lor fdflags FD_CLOEXEC))
  end.

(** [sockets::accept]: the descriptor and the address, or [errno]. *)
Definition sockets_accept (sockfd : Z) : M SockWorld (io_result (Z * sockaddr_in)) :=
  let c := SysAccept4 sockfd (Z.lor SOCK_NONBLOCK SOCK_CLOEXEC) in
  tr ← gets trace;
  r ← do_call c;
  match r with
  | IoOk connfd => mret (IoOk (connfd, stored_addr tr c))
  | IoErr errno =>
      if negb (errno =? ENOSYS) && negb (errno =? EINVAL)
      then log_error (errnoMessage "accept4" errno) ;; mret (IoErr errno)
      else
        let c := SysAccept sockfd in
        tr ← gets trace;
        r ← do_call c;
        match r with
        | IoErr errno => log_error (errnoMessage "accept" errno) ;; mret (IoErr errno)
        | IoOk connfd =>
            setNonBlockAndCloseOnExec connfd ;;
            mret (IoOk (connfd, stored_addr tr c))
        end
  end.

Definition sockets_close (sockfd : Z) : M SockWorld unit := or_log "close" (SysClose sockfd).

(** ** Socket *)

Definition setSocketOption (sockfd level option : Z) (on : bool) (optionName : string)
    : M SockWorld unit :=
  let optval := if on then 1 else 0 in
  r ← do_call (SysSetsockopt sockfd level option optval);
  match r with
  | IoOk _ => mret tt
  | IoErr errno =>
      log_error ("setsockopt " +:+ optionName +:+ " failed: " +:+ strerror errno)
  end.

Definition setTcpNoDelay (sockfd : Z) (on : bool) : M SockWorld unit :=
  setSocketOption sockfd IPPROTO_TCP TCP_NODELAY on "TCP_NODELAY".
Definition setReuseAddr (sockfd : Z) (on : bool) : M SockWorld unit :=
  setSocketOption sockfd SOL_SOCKET SO_REUSEADDR on "SO_REUSEADDR".
Definition setReusePort (sockfd : Z) (on : bool) : M SockWorld unit :=
  setSocketOption sockfd SOL_SOCKET SO_REUSEPORT on "SO_REUSEPORT".
Definition setKeepAlive (sockfd : Z) (on : bool) : M SockWorld unit :=
  setSocketOption sockfd SOL_SOCKET SO_KEEPALIVE on "SO_KEEPALIVE".

Definition bindAddress (sockfd : Z) (localaddr : InetAddress) : M SockWorld unit :=
  bindOrDie sockfd (getSockAddr localaddr).
Definition socket_listen (sockfd : Z) : M SockWorld unit := listenOrDie sockfd.

(** [Socket::accept(&peeraddr)]: [peeraddr] is changed only on success. *)
Definition socket_accept (sockfd : Z) (peeraddr : InetAddress)
    : M SockWorld (io_result Z * InetAddress) :=
  r ← sockets_accept sockfd;
  mret (match r with
        | IoOk (connfd, addr) => (IoOk connfd, setSockAddr addr peeraddr)
        | IoErr errno => (IoErr errno, peeraddr)
        end).

(** The destructor. *)
Definition socket_destroy (sockfd : Z) : M SockWorld unit := sockets_close sockfd.

(** ** What a trace says *)

(** The descriptors accepted and closed, in order. *)
Definition accepted_by (c : syscall) (r : io_result Z) : list Z :=
  match c, r with
  | (SysAccept4 _ _ | SysAccept _), IoOk fd => [fd]
  | _, _ => []
  end.
Fixpoint accepted_from (pre tr : list syscall) : list Z :=
  match tr with
  | [] => []
  | c :: tr' => accepted_by c (result pre c) ++ accepted_from (pre ++ [c]) tr'
  end.
Definition accepted_fds (tr : list syscall) : list Z := accepted_from [] tr.
Definition closed_fds (tr : list syscall) : list Z :=
  omap (λ c, match c with SysClose fd => Some fd | _ => None end) tr.

(** The status and descriptor flags of [fd], as the kernel keeps them. *)
Definition apply_flags (fd : Z) (pre : list syscall) (c : syscall) (fl : Z * Z) : Z * Z :=
  match c, result pre c with
  | SysAccept4 _ flags, IoOk n =>
      if n =? fd then
        (Z.land flags SOCK_NONBLOCK, if Z.land flags SOCK_CLOEXEC =? 0 then 0 else FD_CLOEXEC)
      else fl
  | SysAccept _, IoOk n => if n =? fd then (0, 0) else fl
  | SysFcntl fd' cmd arg, IoOk _ =>
      if negb (fd' =? fd) then fl
      else if cmd =? F_SETFL then (arg, fl.2)
      else if cmd =? F_SETFD then (fl.1, arg) else fl
  | _, _ => fl
  end.
Fixpoint flags_from (fd : Z) (pre tr : list syscall) (fl : Z * Z) : Z * Z :=
  match tr with
  | [] => fl
  | c :: tr' => flags_from fd (pre ++ [c]) tr' (apply_flags fd pre c fl)
  end.
Definition fd_flags (fd : Z) (tr : list syscall) : Z * Z := flags_from fd [] tr (0, 0).

Lemma accepted_cons pre c tr :
  accepted_from pre (c :: tr) = accepted_by c (result pre c) ++ accepted_from (pre ++ [c]) tr.
Proof. done. Qed.

Lemma accepted_from_app pre tr1 tr2 :
  accepted_from pre (tr1 ++ tr2) = accepted_from pre tr1 ++ accepted_from (pre ++ tr1) tr2.
Proof.
  revert pre. induction tr1 as [|c tr1 IH]; intros pre; simpl; [by rewrite app_nil_r|].
  by rewrite IH, <-!app_assoc.
Qed.

Lemma flags_from_app fd pre tr1 tr2 fl :
  flags_from fd pre (tr1 ++ tr2) fl = flags_from fd (pre ++ tr1) tr2 (flags_from fd pre tr1 fl).
Proof.
  revert pre fl. induction tr1 as [|c tr1 IH]; intros pre fl; simpl; [by rewrite app_nil_r|].
  by rewrite IH, <-!app_assoc.
Qed.

Lemma closed_fds_app tr1 tr2 : closed_fds (tr1 ++ tr2) = closed_fds tr1 ++ closed_fds tr2.
Proof. apply omap_app. Qed.

Definition nonblocking_cloexec (fd : Z) (tr : list syscall) : Prop :=
  Z.land (fd_flags fd tr).1 O_NONBLOCK ≠ 0 ∧ Z.land (fd_flags fd tr).2 FD_CLOEXEC ≠ 0.

(** ** Specifications *)

Lemma wp_do_call c Q w :
  Q (result (trace w) c) (MkSockWorld (trace w ++ [c]) (errors w)) → wp (do_call c) Q w.
Proof. done. Qed.

Lemma wp_or_log action c w :
  wp (or_log action c) (λ _ w', trace w' = trace w ++ [c] ∧ ∃ es, errors w' = errors w ++ es) w.
Proof.
  unfold or_log. wp_step. apply wp_do_call. destruct (result _ _); unfold log_error; wp_step; cbn;
    (split; [done|]); [exists []; by rewrite app_nil_r|by eexists].
Qed.

(** fcntl(2) succeeds on an open descriptor. *)
Definition fcntl_ok : Prop := ∀ tr fd cmd arg, ∃ v, result tr (SysFcntl fd cmd arg) = IoOk v.

Lemma accepted_fcntl pre fd cmd arg : accepted_from pre [SysFcntl fd cmd arg] = [].
Proof. done. Qed.

Lemma apply_fcntl fd pre cmd arg fl :
  fcntl_ok → apply_flags fd pre (SysFcntl fd cmd arg) fl =
    if cmd =? F_SETFL then (arg, fl.2) else if cmd =? F_SETFD then (fl.1, arg) else fl.
Proof.
  intros Hok. unfold apply_flags. destruct (Hok pre fd cmd arg) as [v ->].
  by rewrite Z.eqb_refl.
Qed.

Lemma lor_bit a b : b ≠ 0 → Z.land b b = b → Z.land (Z.lor a b) b ≠ 0.
Proof. intros Hb Hbb. rewrite Z.land_lor_distr_l, Hbb. by intros [_ ?]%Z.lor_eq_0_iff. Qed.

(** Reading a flag word and setting a bit of it. *)
Lemma wp_set_flag fd get set bit get_action set_action w :
  wp (flags ← do_call (SysFcntl fd get 0);
      match flags with
      | IoErr errno => log_error (errnoMessage get_action errno)
      | IoOk flags => or_log set_action (SysFcntl fd set (Z.lor flags bit))
      end)
    (λ _ w', ∃ tr es, trace w' = trace w ++ SysFcntl fd get 0 :: tr ∧
      errors w' = errors w ++ es ∧
      ((fcntl_ok → False) ∧ tr = [] ∨ ∃ v, tr = [SysFcntl fd set (Z.lor v bit)])) w.
Proof.
  wp_step. apply wp_do_call. set (c := SysFcntl fd get 0).
  set (w1 := MkSockWorld (trace w ++ [c]) (errors w)).
  destruct (result (trace w) c) as [v|e] eqn:Hr.
  - wp_apply (wp_or_log _ _ w1). intros [] w' (-> & es & ->).
    eexists [_], es. cbn. rewrite <-app_assoc. eauto.
  - unfold log_error. wp_step. eexists [], _. split_and!; [done|done|left].
    split; [|done]. intros Hok. destruct (Hok (trace w) fd get 0) as [v Hv].
    fold c in Hv. congruence.
Qed.

Lemma wp_setNonBlock fd w :
  wp (setNonBlockAndCloseOnExec fd) (λ _ w', ∃ tr es, trace w' = trace w ++ tr ∧
    errors w' = errors w ++ es ∧ closed_fds tr = [] ∧
    (∀ pre, accepted_from pre tr = []) ∧
    (fcntl_ok → nonblocking_cloexec fd (trace w'))) w.
Proof.
  assert (setNonBlockAndCloseOnExec fd w =
    ((flags ← do_call (SysFcntl fd F_GETFL 0);
      match flags with
      | IoErr errno => log_error (errnoMessage "fcntl F_GETFL" errno)
      | IoOk flags =>
          or_log "fcntl F_SETFL O_NONBLOCK" (SysFcntl fd F_SETFL (Z.lor flags O_NONBLOCK))
      end) ;;
     (flags ← do_call (SysFcntl fd F_GETFD 0);
      match flags with
      | IoErr errno => log_error (errnoMessage "fcntl F_GETFD" errno)
      | IoOk flags =>
          or_log "fcntl F_SETFD FD_CLOEXEC" (SysFcntl fd F_SETFD (Z.lor flags FD_CLOEXEC))
      end)) w) as Heq by done.
  unfold wp at 1. rewrite Heq. clear Heq. apply wp_bind.
  wp_apply (wp_set_flag fd F_GETFL F_SETFL O_NONBLOCK).
  intros [] w1 (tr1 & es1 & Htr1 & Hes1 & Hcase1).
  wp_apply (wp_set_flag fd F_GETFD F_SETFD FD_CLOEXEC).
  intros [] w2 (tr2 & es2 & Htr2 & Hes2 & Hcase2).
  set (c1 := SysFcntl fd F_GETFL 0) in *. set (c2 := SysFcntl fd F_GETFD 0) in *.
  exists (c1 :: tr1 ++ c2 :: tr2), (es1 ++ es2).
  assert (trace w2 = trace w ++ c1 :: tr1 ++ c2 :: tr2) as Htr
    by (rewrite Htr2, Htr1, <-!app_assoc; done).
  split_and!; [done|by rewrite Hes2, Hes1, app_assoc| | |].
  - destruct Hcase1 as [[_ ->]|[v1 ->]], Hcase2 as [[_ ->]|[v2 ->]]; done.
  - intros pre. destruct Hcase1 as [[_ ->]|[v1 ->]], Hcase2 as [[_ ->]|[v2 ->]]; done.
  - intros Hok. destruct Hcase1 as [[? _]|[v1 ->]]; [tauto|].
    destruct Hcase2 as [[? _]|[v2 ->]]; [tauto|].
    unfold nonblocking_cloexec, fd_flags. rewrite Htr, flags_from_app. cbn [flags_from app].
    unfold c1, c2. rewrite !apply_fcntl by done. cbn. split; apply lor_bit; done.
Qed.

Lemma accept4_flags fd pre listenfd :
  result pre (SysAccept4 listenfd (Z.lor SOCK_NONBLOCK SOCK_CLOEXEC)) = IoOk fd →
  nonblocking_cloexec fd (pre ++ [SysAccept4 listenfd (Z.lor SOCK_NONBLOCK SOCK_CLOEXEC)]).
Proof.
  intros Hr. unfold nonblocking_cloexec, fd_flags. rewrite flags_from_app. cbn [flags_from app].
  unfold apply_flags. by rewrite Hr, Z.eqb_refl.
Qed.

(** What [sockets::accept] does: nothing accepted and an error logged, or one
    descriptor accepted, none closed. *)
Definition accept_outcome (r : io_result (Z * sockaddr_in)) (w w' : SockWorld) : Prop :=
  ∃ tr es, trace w' = trace w ++ tr ∧ errors w' = errors w ++ es ∧ closed_fds tr = [] ∧
    match r with
    | IoErr _ => accepted_from (trace w) tr = [] ∧ es ≠ []
    | IoOk (fd, _) => accepted_from (trace w) tr = [fd] ∧
        (fcntl_ok → nonblocking_cloexec fd (trace w'))
    end.

Lemma wp_sockets_accept listenfd w :
  wp (sockets_accept listenfd) (λ r w', accept_outcome r w w') w.
Proof.
  unfold sockets_accept. set (c := SysAccept4 _ _). wp_step. wp_step. wp_step. apply wp_do_call.
  destruct (result (trace w) c) as [fd|e] eqn:Hr.
  - wp_step. exists [c], []. rewrite app_nil_r, accepted_cons, Hr. split_and!; try done.
    intros _. by apply accept4_flags.
  - apply wp_if; intros _.
    { unfold log_error. wp_step. wp_step. wp_step. exists [c], [errnoMessage "accept4" e].
      rewrite accepted_cons, Hr. by split_and!. }
    wp_step. wp_step. wp_step. apply wp_do_call. cbn [trace errors].
    set (c2 := SysAccept listenfd). destruct (result (trace w ++ [c]) c2) as [fd|e2] eqn:Hr2.
    + wp_step. wp_apply (wp_setNonBlock fd). cbn [trace errors].
      intros [] w' (tr & es & Htr & Hes & Hc & Ha & Hfl). wp_step.
      exists (c :: c2 :: tr), es. split_and!; try done.
      * rewrite Htr, <-!app_assoc. done.
      * by rewrite !accepted_cons, Hr, Hr2, Ha.
    + unfold log_error. wp_step. wp_step. wp_step. exists [c; c2], [errnoMessage "accept" e2].
      rewrite !accepted_cons, Hr, Hr2. cbn [trace errors]. rewrite <-app_assoc. by split_and!.
Qed.

(** ** Setting a listening socket up *)

(** The calls that must succeed do. *)
Definition setup_ok (fd : Z) : Prop :=
  (∀ tr domain type protocol, result tr (SysSocket domain type protocol) = IoOk fd) ∧
  (∀ tr addr, result tr (SysBind fd addr) = IoOk 0) ∧
  (∀ tr backlog, result tr (SysListen fd backlog) = IoOk 0).

Lemma wp_setSocketOption fd level option on name s :
  wp (setSocketOption fd level option on name) (λ _ s',
    trace s' = trace s ++ [SysSetsockopt fd level option (if on then 1 else 0)]) s.
Proof.
  unfold setSocketOption. wp_step. apply wp_do_call.
  destruct (result _ _); unfold log_error; by wp_step.
Qed.

Lemma wp_or_die c v s :
  result (trace s) c = IoOk v → wp (or_die c) (λ _ s', trace s' = trace s ++ [c]) s.
Proof. intros Hr. unfold or_die. wp_step. apply wp_do_call. rewrite Hr. by wp_step. Qed.
End sockets.
