(* ===== verification/Acceptor.v ===== *)
(** * Acceptor (include/net/Acceptor.h, src/net/Acceptor.cc)

    The listening socket and its channel, registered with the poller of the
    base loop. The connections given to the callback are recorded. *)
From S2P Require Import Prelude Posix Channel InetAddress Sockets EPollPoller.
Open Scope string_scope.
Open Scope list_scope.
Open Scope Z_scope.

(** The one method that is bound to the channel. *)
Inductive acceptor_handler : Type := AcceptRead.

Section acceptor.
Context {P : Type} `{!Poller P acceptor_handler, !Os}.

Record Acceptor : Type := MkAcceptor {
  poller : P;
  sock_world : SockWorld;
  acceptSocket_ : Z;
  acceptChannel_ : ptr;
  newConnectionCallback_ : bool;
  listening_ : bool;
  handed : list (Z * InetAddress);
}.
Implicit Types a : Acceptor.

Definition set_poller p a : Acceptor :=
  MkAcceptor p (sock_world a) (acceptSocket_ a) (acceptChannel_ a) (newConnectionCallback_ a)
    (listening_ a) (handed a).
Definition set_sock_world s a : Acceptor :=
  MkAcceptor (poller a) s (acceptSocket_ a) (acceptChannel_ a) (newConnectionCallback_ a)
    (listening_ a) (handed a).
Definition set_listening b a : Acceptor :=
  MkAcceptor (poller a) (sock_world a) (acceptSocket_ a) (acceptChannel_ a)
    (newConnectionCallback_ a) b (handed a).
Definition note_handed fd peer a : Acceptor :=
  MkAcceptor (poller a) (sock_world a) (acceptSocket_ a) (acceptChannel_ a)
    (newConnectionCallback_ a) (listening_ a) (handed a ++ [(fd, peer)]).
Definition setNewConnectionCallback a : Acceptor :=
  MkAcceptor (poller a) (sock_world a) (acceptSocket_ a) (acceptChannel_ a) true
    (listening_ a) (handed a).

Definition on_sock {A} (m : M SockWorld A) : M Acceptor A := zoom sock_world set_sock_world m.
Definition on_poller {A} (m : M P A) : M Acceptor A := zoom poller set_poller m.

Definition acceptor_channel (loop : ptr) (fd : Z) : Channel acceptor_handler :=
  setReadCallback AcceptRead (new_Channel loop fd).

(** The constructor; [chan] is the address of the channel. *)
Definition new_Acceptor (loop chan : ptr) (listenAddr : InetAddress) (reuseport : bool)
    (p : P) (s : SockWorld) : outcome Acceptor :=
  '(fd, s) ← createNonblockingOrDie s;
  '(_, s) ← setReuseAddr fd true s;
  '(_, s) ← setReusePort fd reuseport s;
  '(_, s) ← bindAddress fd listenAddr s;
  let p := with_channels (<[chan := acceptor_channel loop fd]> (channels_of p)) p in
  mret (MkAcceptor p s fd chan false false []).

Definition listening a : bool := listening_ a.

Definition listen : M Acceptor unit :=
  modify (set_listening true) ;;
  fd ← gets acceptSocket_;
  on_sock (socket_listen fd) ;;
  chan ← gets acceptChannel_;
  on_poller (enableReading chan).

Definition handleRead : M Acceptor unit :=
  fd ← gets acceptSocket_;
  '(r, peerAddr) ← on_sock (socket_accept fd (new_InetAddress 0 false));
  match r with
  | IoOk connfd =>
      has_callback ← gets newConnectionCallback_;
      if (has_callback : bool) then modify (note_handed connfd peerAddr)
      else on_sock (sockets_close connfd)
  | IoErr errno =>
      on_sock (log_error ("Acceptor::handleRead accept failed: " +:+ strerror errno))
  end.

(** The destructor: its body, then the members, the channel and the socket. *)
Definition destroy : M Acceptor unit :=
  chan ← gets acceptChannel_;
  on_poller (disableAll chan) ;;
  on_poller (remove chan) ;;
  on_poller (modify (λ p, with_channels (delete chan (channels_of p)) p)) ;;
  fd ← gets acceptSocket_;
  on_sock (socket_destroy fd).
End acceptor.
Arguments Acceptor P : clear implicits.

Section properties.
Context {P : Type} `{!Poller P acceptor_handler, !Os}.
Implicit Types a : Acceptor P.

Lemma wp_acceptor_handleRead a :
  wp handleRead (λ _ a', ∃ tr es new,
    trace (sock_world a') = trace (sock_world a) ++ tr ∧
    errors (sock_world a') = errors (sock_world a) ++ es ∧
    accepted_from (trace (sock_world a)) tr = new.*1 ∧ (length new ≤ 1)%nat ∧
    (new = [] → es ≠ []) ∧
    if newConnectionCallback_ a
    then handed a' = handed a ++ new ∧ closed_fds tr = [] ∧
      (fcntl_ok → ∀ c, c ∈ new → nonblocking_cloexec c.1 (trace (sock_world a')))
    else handed a' = handed a ∧ closed_fds tr = new.*1) a.
Proof.
  unfold handleRead. do 2 wp_step. wp_step. unfold on_sock. wp_step. unfold socket_accept. wp_step.
  wp_apply (wp_sockets_accept (acceptSocket_ a) (sock_world a)).
  intros r s (tr & es & Htr & Hes & Hclosed & Hr). wp_step. destruct r as [[fd addr]|e]; cbn.
  - destruct Hr as [Hacc Hfl]. wp_step. wp_step. cbn. destruct (newConnectionCallback_ a).
    + wp_step. exists tr, es, [(fd, setSockAddr addr (new_InetAddress 0 false))]. cbn.
      split_and!; try done. intros Hok c ->%list_elem_of_singleton. by apply Hfl.
    + wp_step. cbn. wp_apply (wp_or_log "close" (SysClose fd) s).
      intros [] s' (Htr' & es' & Hes').
      exists (tr ++ [SysClose fd]), (es ++ es'), [(fd, setSockAddr addr (new_InetAddress 0 false))].
      cbn. rewrite Htr', Htr, Hes', Hes, <-!app_assoc.
      rewrite accepted_from_app, Hacc, closed_fds_app, Hclosed. by split_and!.
  - destruct Hr as [Hacc Hne]. unfold log_error, on_sock. wp_steps. cbn.
    exists tr, (es ++ ["Acceptor::handleRead accept failed: " +:+ strerror e]), []. cbn.
    rewrite Htr, Hes, app_assoc, app_nil_r. split_and!; try done; [lia| |].
    + by intros _ [_ ?]%app_nil.
    + destruct (newConnectionCallback_ a); [|done]. split_and!; [done..|].
      intros _ c []%not_elem_of_nil.
Qed.

(** C25 (safety). [handleRead] always returns. It accepts at most one
    connection; a connection that is accepted is handed to the callback
    exactly once and not closed, or closed exactly once when there is no
    callback, so no descriptor leaks; when none is accepted an error is
    logged. A handed descriptor is non-blocking and close-on-exec, also
    where [accept4] is not supported. *)
Theorem accept_no_leak a :
  ∃ a' tr new, handleRead a = Ok (tt, a') ∧
    trace (sock_world a') = trace (sock_world a) ++ tr ∧
    accepted_fds (trace (sock_world a')) = accepted_fds (trace (sock_world a)) ++ new.*1 ∧
    (length new ≤ 1)%nat ∧
    (new = [] → (length (errors (sock_world a)) < length (errors (sock_world a')))%nat) ∧
    (newConnectionCallback_ a = true →
       handed a' = handed a ++ new ∧
       closed_fds (trace (sock_world a')) = closed_fds (trace (sock_world a)) ∧
       (fcntl_ok → ∀ c, c ∈ new → nonblocking_cloexec c.1 (trace (sock_world a')))) ∧
    (newConnectionCallback_ a = false →
       handed a' = handed a ∧
       closed_fds (trace (sock_world a')) = closed_fds (trace (sock_world a)) ++ new.*1).
Proof.
  pose proof (wp_acceptor_handleRead a) as Hwp.
  apply wp_run in Hwp as ([] & a' & Hrun & tr & es & new & Htr & Hes & Hacc & Hlen & Hlog & Hcase).
  exists a', tr, new. split_and!; [done|done| |done| | |].
  - unfold accepted_fds. rewrite Htr, accepted_from_app, app_nil_l. by rewrite Hacc.
  - intros Hnil. apply Hlog in Hnil. rewrite Hes, length_app. destruct es; [done|simpl; lia].
  - intros Hcb. rewrite Hcb in Hcase. destruct Hcase as (? & Hc & ?). split_and!; [done| |done].
    by rewrite Htr, closed_fds_app, Hc, app_nil_r.
  - intros Hcb. rewrite Hcb in Hcase. destruct Hcase as (? & Hc). split; [done|].
    by rewrite Htr, closed_fds_app, Hc.
Qed.

(** ** Listening *)

Context `{!PollerSpec P acceptor_handler}.

(** The calls of the constructor, in order. *)
Definition setup_calls (fd : Z) (listenAddr : InetAddress) (reuseport : bool) : list syscall :=
  [SysSocket AF_INET (Z.lor SOCK_STREAM (Z.lor SOCK_NONBLOCK SOCK_CLOEXEC)) IPPROTO_TCP;
   SysSetsockopt fd SOL_SOCKET SO_REUSEADDR 1;
   SysSetsockopt fd SOL_SOCKET SO_REUSEPORT (if reuseport then 1 else 0);
   SysBind fd (getSockAddr listenAddr)].

Lemma new_Acceptor_ok loop chan listenAddr reuseport fd p s :
  setup_ok fd →
  ∃ s', new_Acceptor loop chan listenAddr reuseport p s = Ok (MkAcceptor
      (with_channels (<[chan := acceptor_channel loop fd]> (channels_of p)) p) s' fd chan
      false false []) ∧
    trace s' = trace s ++ setup_calls fd listenAddr reuseport.
Proof.
  intros (Hsock & Hbind & _).
  assert (wp (fd' ← createNonblockingOrDie; setReuseAddr fd' true ;;
    setReusePort fd' reuseport ;; bindAddress fd' listenAddr ;; mret fd') (λ fd' s', fd' = fd ∧
      trace s' = trace s ++ setup_calls fd listenAddr reuseport) s) as Hwp.
  { wp_step. unfold createNonblockingOrDie, createSocketOrDie. wp_step. apply wp_do_call.
    rewrite Hsock. wp_step. wp_step. wp_apply wp_setSocketOption. intros [] s2 Hs2. wp_step.
    wp_apply wp_setSocketOption. intros [] s3 Hs3. wp_step.
    wp_apply wp_or_die; [apply Hbind|]. intros [] s4 Hs4. wp_step. split; [done|].
    rewrite Hs4, Hs3, Hs2. cbn [trace]. by rewrite <-!app_assoc. }
  apply wp_run in Hwp as (fd' & s' & Hrun & -> & Htr). exists s'. split; [|done].
  unfold new_Acceptor. unfold mbind, outcome_bind, M_bind in *.
  destruct (createNonblockingOrDie s) as [[fd1 s1]|]; [|done].
  destruct (setReuseAddr fd1 true s1) as [[[] s2]|]; [|done].
  destruct (setReusePort fd1 reuseport s2) as [[[] s3]|]; [|done].
  destruct (bindAddress fd1 listenAddr s3) as [[[] s4]|]; [|done].
  by injection Hrun as -> ->.
Qed.

(** When the socket can be made, bound and listened on, the
    constructor sets the reuse options before it binds, [listen] listens
    before the poller watches the socket for reading, on behalf of the
    acceptor's channel and for nothing else; the destructor first makes the
    poller forget the socket, then closes it exactly once. *)
Lemma acceptor_lifecycle loop chan listenAddr reuseport fd p s :
  attached (with_channels (<[chan := acceptor_channel loop fd]> (channels_of p)) p) →
  loop ≠ 0 → setup_ok fd →
  ∃ a a1 a2, new_Acceptor loop chan listenAddr reuseport p s = Ok a ∧
    listen a = Ok (tt, a1) ∧ listening a1 = true ∧
    trace (sock_world a1) =
      trace s ++ setup_calls fd listenAddr reuseport ++ [SysListen fd SOMAXCONN] ∧
    watched (poller a1) fd = Some (kReadEvent, chan) ∧
    destroy a1 = Ok (tt, a2) ∧ watched (poller a2) fd = None ∧
    channels_of (poller a2) !! chan = None ∧
    trace (sock_world a2) = trace (sock_world a1) ++ [SysClose fd].
Proof.
  intros Hatt Hloop Hok.
  destruct (new_Acceptor_ok loop chan listenAddr reuseport fd p s Hok) as (s0 & Hnew & Htr0).
  set (a := MkAcceptor _ s0 fd chan false false []) in Hnew.
  pose proof Hatt as [Hs _ _ Hreg].
  assert (channel_at chan (poller a) = Some (acceptor_channel loop fd)) as Hc
    by (unfold channel_at, a; cbn; rewrite channels_of_with; apply lookup_insert_eq).
  assert (wp (listen ;; gets (λ a1, a1)) (λ a1 a1', a1' = a1 ∧ listening a1 = true ∧
    trace (sock_world a1) = trace s0 ++ [SysListen fd SOMAXCONN] ∧ acceptSocket_ a1 = fd ∧
    acceptChannel_ a1 = chan ∧ synced (poller a1) ∧ ∃ i, i ≠ kNew ∧ channels_of (poller a1) !! chan =
      Some (set_index i (set_events kReadEvent (acceptor_channel loop fd)))) a) as Hlisten.
  { unfold listen, on_sock, on_poller. do 7 wp_step.
    wp_apply (wp_or_die _ 0); [apply Hok|]. cbn. intros [] s1 Hs1. do 3 wp_step.
    wp_apply (wp_change_interest EnableReading chan); [done|exact Hc|done|by apply (Hreg chan)|].
    intros [] p1 (Hsync & (i & Hi & Hch) & _). cbn. split_and!; try done.
    exists i. split; [done|]. rewrite Hch. apply lookup_insert_eq. }
  apply wp_run in Hlisten as (a1 & a1' & Hrun1 & -> & Hl & Htr1 & Hfd & Hchan & Hsync & i & Hi & Hc1).
  assert (listen a = Ok (tt, a1)) as Hrun.
  { unfold mbind, M_bind in Hrun1. destruct (listen a) as [[[] a1']|]; [|done].
    by injection Hrun1 as <-. }
  set (c1 := set_index i _) in Hc1.
  assert (wp destroy (λ _ a2, watched (poller a2) fd = None ∧
    channels_of (poller a2) !! chan = None ∧
    trace (sock_world a2) = trace (sock_world a1) ++ [SysClose fd]) a1) as Hdestroy.
  { unfold destroy, on_sock, on_poller. do 4 wp_step. rewrite Hchan.
    wp_apply (wp_change_interest DisableAll chan c1); [done..|]. intros [] p1 (Hsync1 & (j & Hj & Hch1) & _).
    set (c2 := set_index j _) in Hch1. wp_step. wp_step. cbn.
    wp_apply (wp_remove chan c2); [done|unfold channel_at; rewrite Hch1; apply lookup_insert_eq|done..|].
    intros [] p2 (Hsync2 & Hch2 & Hw2 & _). wp_steps. rewrite ?Hfd.
    wp_apply wp_or_log. cbn. intros [] s2 (Htr2 & _). rewrite Hfd in Htr2. rewrite watched_with, channels_of_with.
    split_and!; [exact Hw2|apply lookup_delete_eq|exact Htr2]. }
  apply wp_run in Hdestroy as ([] & a2 & Hrun2 & Hw & Hdel & Htr2).
  exists a, a1, a2. split_and!; [done|done|done| | |done|done|done|done].
  - by rewrite Htr1, Htr0, <-app_assoc.
  - pose proof (synced_watched chan c1 (poller a1) Hsync Hc1 Hi) as Hwat. by apply Hwat.
Qed.
End properties.

(** ** A concrete system

    An old kernel without [accept4]; the listening socket is 7, every
    connection 9. *)
#[export] Instance demo_os : Os := {|
  result tr c :=
    match c with
    | SysSocket _ _ _ => IoOk 7
    | SysAccept4 _ _ => IoErr ENOSYS
    | SysAccept _ => IoOk 9
    | SysFcntl _ _ _ => IoOk 2
    | _ => IoOk 0
    end;
  stored_addr tr c := MkSockaddr AF_INET (htons 4000) (htonl INADDR_LOOPBACK);
  strerror errno := pretty errno;
|}.

Definition demo_poller : PollWorld kernel acceptor_handler :=
  MkPollWorld ∅ ∅ (MkKernel ∅ {[ 7 ]}) [(0, 0)] [].
Definition demo_listen_addr : InetAddress := new_InetAddress 8080 true.

Lemma demo_acceptor_attached :
  attached (with_channels (<[200 := acceptor_channel 1 7]> (channels_of demo_poller)) demo_poller).
Proof.
  assert (∀ p c, (<[200:=acceptor_channel 1 7]> ∅ : gmap ptr (Channel acceptor_handler)) !! p
    = Some c → p = 200 ∧ c = acceptor_channel 1 7) as Hch.
  { intros p c. rewrite lookup_insert_Some. by intros [[<- <-]|[_ ?%lookup_empty_Some]]. }
  split.
  - split; cbn; try (by intros ??? ?%lookup_empty_Some || by intros ?? ?%lookup_empty_Some);
      intros p c [-> ->]%Hch; auto; done.
  - by intros p c [-> ->]%Hch.
  - by intros p q c c' [-> ->]%Hch [-> ->]%Hch.
  - by intros p c [-> ->]%Hch.
Qed.

Lemma acceptor_lifecycle_witness :
  ∃ a a1 a2, new_Acceptor 1 200 demo_listen_addr true demo_poller (MkSockWorld [] []) = Ok a ∧
    listen a = Ok (tt, a1) ∧ listening a1 = true ∧
    trace (sock_world a1) = [] ++ setup_calls 7 demo_listen_addr true ++ [SysListen 7 SOMAXCONN] ∧
    watched (poller a1) 7 = Some (kReadEvent, 200) ∧
    destroy a1 = Ok (tt, a2) ∧ watched (poller a2) 7 = None ∧
    channels_of (poller a2) !! 200 = None ∧
    trace (sock_world a2) = trace (sock_world a1) ++ [SysClose 7].
Proof.
  apply (acceptor_lifecycle 1 200 demo_listen_addr true 7 demo_poller (MkSockWorld [] [])
    demo_acceptor_attached); [discriminate|]. split_and!; reflexivity.
Defined.

(** An acceptor with a callback, ready to accept. *)
Definition demo_acceptor : Acceptor (PollWorld kernel acceptor_handler) :=
  MkAcceptor demo_poller (MkSockWorld [] []) 7 200 true true [].

Example demo_fallback :
  (λ r, match r with Ok (_, a') => handed a' | Fault _ => [] end) (handleRead demo_acceptor) =
    [(9, MkInetAddress (MkSockaddr AF_INET (htons 4000) (htonl INADDR_LOOPBACK)))].
Proof. vm_compute. reflexivity. Qed.

Lemma accept_no_leak_witness :
  ∃ a' tr new, handleRead demo_acceptor = Ok (tt, a') ∧
    trace (sock_world a') = trace (sock_world demo_acceptor) ++ tr ∧
    accepted_fds (trace (sock_world a')) =
      accepted_fds (trace (sock_world demo_acceptor)) ++ new.*1 ∧
    (length new ≤ 1)%nat ∧
    (new = [] →
       (length (errors (sock_world demo_acceptor)) < length (errors (sock_world a')))%nat) ∧
    (newConnectionCallback_ demo_acceptor = true →
       handed a' = handed demo_acceptor ++ new ∧
       closed_fds (trace (sock_world a')) = closed_fds (trace (sock_world demo_acceptor)) ∧
       (fcntl_ok → ∀ c, c ∈ new → nonblocking_cloexec c.1 (trace (sock_world a')))) ∧
    (newConnectionCallback_ demo_acceptor = false →
       handed a' = handed demo_acceptor ∧
       closed_fds (trace (sock_world a')) =
         closed_fds (trace (sock_world demo_acceptor)) ++ new.*1).
Proof. exact (accept_no_leak demo_acceptor). Defined.
