(* ===== verification/Blocking.v ===== *)
(** * The blocking programs (examples/blocking_echo_server.cc,
      examples/benchmark_client.cc)

    The echo server without an event loop, and the client of the benchmark.
    What the kernel answers to [read], [write] and [connect] on a connection is
    a parameter, a function of what has happened on that connection before;
    the calls of Sockets.v are recorded in its trace. A loop is given a bound
    on its iterations; [None] is a loop that is still running. *)
From S2P Require Import Prelude Posix Decimal InetAddress Sockets.
Open Scope string_scope.
Open Scope list_scope.
Open Scope Z_scope.

(** What has happened on a connection. *)
Inductive io_event : Type :=
| Wrote (data : bytes)
| WriteFailed (errno : Z)
| Got (data : bytes)
| ReadFailed (errno : Z).

Class BlockingIo := {
  io_write : Z → list io_event → bytes → io_result Z;
  io_read : Z → list io_event → Z → io_result bytes;
  io_connect : Z → sockaddr_in → io_result unit;
}.

(** The calls on other descriptors, the current connection, and those that
    have been closed. *)
Record BlockW : Type := MkBlockW {
  sys : SockWorld;
  io : list io_event;
  sessions : list (Z * list io_event);
}.
Definition set_sys s (w : BlockW) : BlockW := MkBlockW s (io w) (sessions w).
Definition note_io e (w : BlockW) : BlockW := MkBlockW (sys w) (io w ++ [e]) (sessions w).
Definition open_session (w : BlockW) : BlockW := MkBlockW (sys w) [] (sessions w).
Definition close_session fd (w : BlockW) : BlockW :=
  MkBlockW (sys w) [] (sessions w ++ [(fd, io w)]).

(** [while (true) body]: the body continues with a new state of the loop's
    variables, or leaves the loop with a value. *)
Inductive step (St A : Type) : Type := Continue (s : St) | Break (a : A).
Arguments Continue {St A} s.
Arguments Break {St A} a.

Section loops.
Context {W St A : Type} (body : St → M W (option (step St A))).

Fixpoint while (fuel : nat) (s : St) : M W (option A) :=
  match fuel with
  | O => mret None
  | S fuel' =>
      r ← body s;
      match r with
      | None => mret None
      | Some (Continue s') => while fuel' s'
      | Some (Break a) => mret (Some a)
      end
  end.
End loops.

Section programs.
Context `{!Os, !InetLib, !BlockingIo}.
Abbreviation B := (M BlockW).
Implicit Types w : BlockW.

Definition on_sys {A} (m : M SockWorld A) : B A := zoom sys set_sys m.

(** [::write], [::read]; [sockets::write] and [sockets::read] only forward. *)
Definition sys_write (fd : Z) (data : bytes) : B (io_result Z) :=
  tr ← gets io;
  let r := io_write fd tr data in
  modify (note_io (match r with
                   | IoOk n => Wrote (take (Z.to_nat n) data)
                   | IoErr errno => WriteFailed errno
                   end)) ;;
  mret r.
Definition sys_read (fd : Z) (cap : Z) : B (io_result bytes) :=
  tr ← gets io;
  let r := io_read fd tr cap in
  modify (note_io (match r with
                   | IoOk data => Got data
                   | IoErr errno => ReadFailed errno
                   end)) ;;
  mret r.

(** ** The blocking echo server *)

Definition setBlocking (fd : Z) : B unit :=
  flags ← on_sys (do_call (SysFcntl fd F_GETFL 0));
  match flags with
  | IoErr errno => on_sys (log_error (errnoMessage "fcntl F_GETFL" errno))
  | IoOk flags =>
      r ← on_sys (do_call (SysFcntl fd F_SETFL (Z.land flags (Z.lnot O_NONBLOCK))));
      match r with
      | IoErr errno => on_sys (log_error (errnoMessage "fcntl F_SETFL blocking" errno))
      | IoOk _ => mret tt
      end
  end.

(** [writeAll]: the loop's variable is [written]. The call returns an error
    when the peer has reset the connection; the program does not ignore SIGPIPE,
    whose default disposition would end the process instead. *)
Definition write_round (fd : Z) (data : bytes) (written : Z) : B (option (step Z unit)) :=
  if negb (written <? zlen data) then mret (Some (Break tt))
  else
    r ← sys_write fd (slice written (zlen data - written) data);
    match r with
    | IoOk n =>
        if 0 <? n then mret (Some (Continue (written + n)))
        else on_sys (log_error "write failed") ;; mret (Some (Break tt))
    | IoErr errno =>
        if errno =? EINTR then mret (Some (Continue written))
        else on_sys (log_error (errnoMessage "write" errno)) ;; mret (Some (Break tt))
    end.
Definition writeAll (fd : Z) (data : bytes) (fuel : nat) : B (option unit) :=
  while (write_round fd data) fuel 0.

(** The loop on one connection. *)
Definition session_round (fd : Z) (fuel : nat) (_ : unit) : B (option (step unit unit)) :=
  r ← sys_read fd 4096;
  match r with
  | IoOk buf =>
      if 0 <? zlen buf
      then
        done ← writeAll fd buf fuel;
        mret (match done with Some _ => Some (Continue tt) | None => None end)
      else mret (Some (Break tt))
  | IoErr errno =>
      if errno =? EINTR then mret (Some (Continue tt))
      else on_sys (log_error (errnoMessage "read" errno)) ;; mret (Some (Break tt))
  end.
Definition session (fd : Z) (fuel : nat) : B (option unit) :=
  while (session_round fd fuel) fuel tt.

(** One round of the accept loop: a connection is accepted, served and closed
    by the destructor of [connSocket]. *)
Definition accept_round (listenfd : Z) (fuel : nat) : B (option (step unit unit)) :=
  '(r, peerAddress) ← on_sys (socket_accept listenfd (new_InetAddress 0 false));
  match r with
  | IoErr errno =>
      when (negb (errno =? EINTR)) (on_sys (log_error (errnoMessage "accept" errno))) ;;
      mret (Some (Continue tt))
  | IoOk connfd =>
      setBlocking connfd ;;
      modify open_session ;;
      done ← session connfd fuel;
      match done with
      | None => mret None
      | Some _ =>
          on_sys (socket_destroy connfd) ;;
          modify (close_session connfd) ;;
          mret (Some (Continue tt))
      end
  end.

Definition blocking_echo_server (fuel : nat) : B (option unit) :=
  listenfd ← on_sys createBlockingOrDie;
  on_sys (setReuseAddr listenfd true) ;;
  on_sys (setReusePort listenfd true) ;;
  on_sys (bindAddress listenfd (new_InetAddress 9000 false)) ;;
  on_sys (socket_listen listenfd) ;;
  while (λ _ : unit, accept_round listenfd fuel) fuel tt.

(** ** The benchmark client *)

Definition client_write_round (fd : Z) (data : bytes) (written : Z)
    : B (option (step Z bool)) :=
  if negb (written <? zlen data) then mret (Some (Break true))
  else
    r ← sys_write fd (slice written (zlen data - written) data);
    match r with
    | IoOk n =>
        if n <=? 0 then mret (Some (Break false))
        else mret (Some (Continue (u64 (written + n))))
    | IoErr _ => mret (Some (Break false))
    end.
Definition client_writeAll (fd : Z) (data : bytes) (fuel : nat) : B (option bool) :=
  while (client_write_round fd data) fuel 0.

(** [readExact]: with the array [data] that it fills. *)
Definition read_round (fd : Z) (s : Z * bytes) : B (option (step (Z * bytes) (bool * bytes))) :=
  let '(readBytes, data) := s in
  if negb (readBytes <? zlen data) then mret (Some (Break (true, data)))
  else
    r ← sys_read fd (zlen data - readBytes);
    match r with
    | IoOk got =>
        if zlen got <=? 0 then mret (Some (Break (false, data)))
        else mret (Some (Continue (u64 (readBytes + zlen got), splice readBytes got data)))
    | IoErr _ => mret (Some (Break (false, data)))
    end.
Definition readExact (fd : Z) (data : bytes) (fuel : nat) : B (option (bool * bytes)) :=
  while (read_round fd) fuel (0, data).

(** "hello mini_muduo benchmark" *)
Definition message : bytes :=
  [x68; x65; x6c; x6c; x6f; x20; x6d; x69; x6e; x69; x5f; x6d; x75; x64; x75; x6f; x20;
   x62; x65; x6e; x63; x68; x6d; x61; x72; x6b]%byte.

(** The measured loop; its variables are [i], [success] and [response]. *)
Definition request_round (fd requestCount : Z) (fuel : nat) (s : Z * Z * bytes)
    : B (option (step (Z * Z * bytes) Z)) :=
  let '(i, success, response) := s in
  if negb (i <? requestCount) then mret (Some (Break success))
  else
    written ← client_writeAll fd message fuel;
    match written with
    | None => mret None
    | Some false => mret (Some (Break success))
    | Some true =>
        got ← readExact fd response fuel;
        match got with
        | None => mret None
        | Some (false, _) => mret (Some (Break success))
        | Some (true, response) =>
            success ← lift_outcome (if bool_decide (response = message)
                                    then i32 (success + 1) else Ok success);
            i ← lift_outcome (i32 (i + 1));
            mret (Some (Continue (i, success, response)))
        end
    end.
Definition requests (fd requestCount : Z) (fuel : nat) : B (option Z) :=
  while (request_round fd requestCount fuel) fuel (0, 0, replicate (length message) x00%byte).

(** [main] after the arguments have been parsed: the exit status. *)
Definition benchmark_client (ip : string) (port requestCount : Z) (fuel : nat) : B (option Z) :=
  r ← on_sys (do_call (SysSocket AF_INET SOCK_STREAM IPPROTO_TCP));
  match r with
  | IoErr _ => mret (Some 1)
  | IoOk fd =>
      match inet_pton ip with
      | None => on_sys (do_call (SysClose fd)) ;; mret (Some 1)
      | Some a =>
          match io_connect fd (MkSockaddr AF_INET (htons (u16 port)) a) with
          | IoErr _ => on_sys (do_call (SysClose fd)) ;; mret (Some 1)
          | IoOk _ =>
              modify open_session ;;
              done ← requests fd requestCount fuel;
              match done with
              | None => mret None
              | Some success =>
                  on_sys (do_call (SysClose fd)) ;;
                  modify (close_session fd) ;;
                  mret (Some (if success =? requestCount then 0 else 1))
              end
          end
      end
  end.

(** The arguments: [argv] is the name of the program and up to three of them;
    an exception of [std::stoi] ends the program. *)
Definition int_argument (argv : list string) (i : nat) (unset : Z) : outcome Z :=
  match argv !! i with Some arg => stoi arg | None => Ok unset end.
Definition benchmark_main (argv : list string) (fuel : nat) : B (option Z) :=
  let ip := default "127.0.0.1" (argv !! 1%nat) in
  port ← lift_outcome (int_argument argv 2 9001);
  requestCount ← lift_outcome (int_argument argv 3 10000);
  benchmark_client ip port requestCount fuel.
End programs.

(** ** The kernel *)

(** [write] takes at most what it is given, [read] fills at most the space it
    is given. *)
Class BlockingIoSpec `{!BlockingIo} : Prop := {
  io_write_ok fd tr data n : io_write fd tr data = IoOk n → 0 ≤ n ≤ zlen data;
  io_read_ok fd tr cap data : 0 ≤ cap → io_read fd tr cap = IoOk data → zlen data ≤ cap;
}.

(** The bytes sent and received on a connection. *)
Definition sent (tr : list io_event) : bytes :=
  concat (omap (λ e, match e with Wrote d => Some d | _ => None end) tr).
Definition got (tr : list io_event) : bytes :=
  concat (omap (λ e, match e with Got d => Some d | _ => None end) tr).

Lemma sent_app tr1 tr2 : sent (tr1 ++ tr2) = sent tr1 ++ sent tr2.
Proof. unfold sent. by rewrite omap_app, concat_app. Qed.
Lemma got_app tr1 tr2 : got (tr1 ++ tr2) = got tr1 ++ got tr2.
Proof. unfold got. by rewrite omap_app, concat_app. Qed.

(** A [write] that gives up: it fails, and not because of a signal, or takes
    nothing. *)
Definition gave_up (e : io_event) : bool :=
  match e with
  | WriteFailed errno => negb (errno =? EINTR)
  | Wrote [] => true
  | _ => false
  end.
Definition broken (tr : list io_event) : Prop := Exists gave_up tr.

(** ** The loop rule *)
Section while_rules.
Context {W St A : Type}.

Lemma wp_while (body : St → M W (option (step St A))) (I : St → W → Prop) (Q : option A → W → Prop) fuel s w :
  (∀ s w, I s w → Q None w) →
  (∀ s w, I s w → wp (body s) (λ r w', match r with
                                       | None => Q None w'
                                       | Some (Continue s') => I s' w'
                                       | Some (Break a) => Q (Some a) w'
                                       end) w) →
  I s w → wp (while body fuel s) Q w.
Proof.
  intros Hstop Hbody. revert s w. induction fuel as [|fuel IH]; intros s w HI; cbn [while].
  - apply wp_ret. by eapply Hstop.
  - apply wp_bind. eapply wp_mono; [by apply Hbody|].
    intros [[s'|a]|] w' HQ; [by apply IH|by apply wp_ret..].
Qed.

(** With enough iterations, of the loop and of those inside it, the loop
    returns [a] in the state [w']. *)
Definition ends (body : nat → St → M W (option (step St A))) (s : St) (w : W) (a : A) (w' : W) : Prop :=
  ∃ n, ∀ k fuel, (n ≤ k)%nat → (n ≤ fuel)%nat → while (body k) fuel s w = Ok (Some a, w').

Lemma ends_break body s w a w' n :
  (∀ k, (n ≤ k)%nat → body k s w = Ok (Some (Break a), w')) → ends body s w a w'.
Proof.
  intros Hb. exists (S n). intros k [|fuel] Hk Hf; [lia|]. cbn [while].
  erewrite run_bind_ok; [|apply Hb; lia]. done.
Qed.

Lemma ends_continue body s w s1 w1 a w' n :
  (∀ k, (n ≤ k)%nat → body k s w = Ok (Some (Continue s1), w1)) →
  ends body s1 w1 a w' → ends body s w a w'.
Proof.
  intros Hb [m Hm]. exists (S (n + m)). intros k [|fuel] Hk Hf; [lia|]. cbn [while].
  erewrite run_bind_ok; [|apply Hb; lia]. apply Hm; lia.
Qed.
End while_rules.

Section proofs.
Context `{!Os, !InetLib, !BlockingIo, !BlockingIoSpec}.
Implicit Types w : BlockW.

Lemma wp_sys_write fd data Q w :
  (∀ n, io_write fd (io w) data = IoOk n → 0 ≤ n ≤ zlen data →
     Q (IoOk n) (note_io (Wrote (take (Z.to_nat n) data)) w)) →
  (∀ errno, io_write fd (io w) data = IoErr errno →
     Q (IoErr errno) (note_io (WriteFailed errno) w)) →
  wp (sys_write fd data) Q w.
Proof.
  intros Hok Herr. unfold sys_write. do 2 wp_step.
  destruct (io_write fd (io w) data) as [n|errno] eqn:Hr; do 3 wp_step; [|by apply Herr].
  apply Hok; [done|by eapply io_write_ok].
Qed.

Lemma wp_sys_read fd cap Q w :
  (∀ data, io_read fd (io w) cap = IoOk data → (0 ≤ cap → zlen data ≤ cap) →
     Q (IoOk data) (note_io (Got data) w)) →
  (∀ errno, io_read fd (io w) cap = IoErr errno →
     Q (IoErr errno) (note_io (ReadFailed errno) w)) →
  wp (sys_read fd cap) Q w.
Proof.
  intros Hok Herr. unfold sys_read. do 2 wp_step.
  destruct (io_read fd (io w) cap) as [data|errno] eqn:Hr; do 3 wp_step; [|by apply Herr].
  apply Hok; [done|]. intros Hcap. by eapply io_read_ok.
Qed.

Lemma wp_log message Q w :
  (∀ es, Q tt (set_sys (MkSockWorld (trace (sys w)) es) w)) → wp (on_sys (log_error message)) Q w.
Proof. intros HQ. unfold on_sys, log_error. do 2 wp_step. apply HQ. Qed.

(** ** [writeAll] *)

(** From [w], only the connection has been used, as [tr] says. *)
Definition used (tr : list io_event) w w' : Prop :=
  io w' = io w ++ tr ∧ trace (sys w') = trace (sys w) ∧ sessions w' = sessions w.

Lemma used_refl w : used [] w w.
Proof. split_and!; [by rewrite app_nil_r|done..]. Qed.
Lemma used_note e tr w w' : used tr w w' → used (tr ++ [e]) w (note_io e w').
Proof. intros (Hio & ? & ?). split_and!; [cbn; by rewrite Hio, app_assoc|done..]. Qed.
Lemma used_log es tr w w' :
  used tr w w' → used tr w (set_sys (MkSockWorld (trace (sys w')) es) w').
Proof. done. Qed.
Lemma used_trans tr1 tr2 w w1 w2 : used tr1 w w1 → used tr2 w1 w2 → used (tr1 ++ tr2) w w2.
Proof.
  intros (Hio1 & ? & ?) (Hio2 & ? & ?).
  split_and!; [by rewrite Hio2, Hio1, app_assoc|congruence..].
Qed.

Lemma wp_writeAll fd data fuel w :
  wp (writeAll fd data fuel) (λ r w', ∃ tr n, used tr w w' ∧ got tr = [] ∧
    sent tr = take n data ∧ (broken tr ∨ r = None ∨ sent tr = data)) w.
Proof.
  unfold writeAll.
  apply (wp_while _ (λ written w', ∃ tr, used tr w w' ∧ got tr = [] ∧ 0 ≤ written ≤ zlen data ∧
    sent tr = take (Z.to_nat written) data)).
  - intros written w' (tr & Hu & Hg & _ & Hs). exists tr, (Z.to_nat written). split_and!; auto.
  - intros written w' (tr & Hu & Hg & Hw & Hs).
    unfold write_round. apply wp_if; intros Hlt.
    { wp_step. exists tr, (length data). apply negb_true_iff, Z.ltb_ge in Hlt.
      assert (written = zlen data) as -> by lia. rewrite Nat2Z.id in Hs.
      rewrite Hs, take_ge by done. split_and!; auto. }
    apply negb_false_iff, Z.ltb_lt in Hlt. set (rest := slice written (zlen data - written) data).
    assert (rest = drop (Z.to_nat written) data) as Hrest.
    { unfold rest, slice. rewrite take_ge; [done|]. rewrite length_drop. lia. }
    assert (∀ n, take (Z.to_nat written) data ++ take n rest = take (Z.to_nat written + n) data)
      as Htake.
    { intros n. rewrite Hrest, take_take_drop. done. }
    wp_step. apply wp_sys_write.
    + intros n Hr Hn. set (e := Wrote _).
      assert (sent (tr ++ [e]) = take (Z.to_nat written + Z.to_nat n) data) as Hs'.
      { rewrite sent_app, Hs, <-Htake. unfold sent; cbn. by rewrite app_nil_r. }
      assert (got (tr ++ [e]) = []) as Hg' by by rewrite got_app, Hg.
      assert (zlen rest = zlen data - written) as Hlen by (rewrite Hrest, length_drop; lia).
      apply wp_if; intros Hpos.
      * wp_step. exists (tr ++ [e]). split_and!; [by apply used_note|done|lia|lia|].
        rewrite Hs'. f_equal. lia.
      * wp_step. apply wp_log. intros es. wp_step. exists (tr ++ [e]), (Z.to_nat written + Z.to_nat n)%nat.
        split_and!; [by apply used_log, used_note|done|done|left].
        apply Exists_app. right. apply Exists_cons_hd. unfold e. by replace (Z.to_nat n) with 0%nat by lia.
    + intros errno Hr. set (e := WriteFailed errno).
      assert (sent (tr ++ [e]) = sent tr) as Hs' by (rewrite sent_app; apply app_nil_r).
      assert (got (tr ++ [e]) = []) as Hg' by by rewrite got_app, Hg.
      apply wp_if; intros Hintr.
      * wp_step. exists (tr ++ [e]). split_and!; [by apply used_note|done|lia|lia|congruence].
      * wp_step. apply wp_log. intros es. wp_step. exists (tr ++ [e]), (Z.to_nat written).
        split_and!; [by apply used_log, used_note|done|congruence|left].
        apply Exists_app. right. apply Exists_cons_hd. unfold e. cbn. by rewrite Hintr.
  - exists []. split_and!; [apply used_refl|done|lia|lia|done].
Qed.

(** ** A session *)

(** The peer has closed the connection, or reading has failed. *)
Definition over (tr : list io_event) : Prop :=
  ∃ tr' e, tr = tr' ++ [e] ∧ (e = Got [] ∨ ∃ errno, e = ReadFailed errno ∧ errno ≠ EINTR).

Definition session_post (r : option unit) (tr : list io_event) : Prop :=
  (broken tr ∨ sent tr `prefix_of` got tr ∧ (r = Some tt → sent tr = got tr)) ∧
  (r = Some tt → over tr).

Lemma broken_app_l tr1 tr2 : broken tr1 → broken (tr1 ++ tr2).
Proof. intros. apply Exists_app. by left. Qed.

Lemma wp_session fd fuel w :
  wp (session fd fuel) (λ r w', ∃ tr, used tr w w' ∧ session_post r tr) w.
Proof.
  unfold session.
  apply (wp_while _ (λ _ w', ∃ tr, used tr w w' ∧ (broken tr ∨ sent tr = got tr))).
  - intros _ w' (tr & Hu & Hs). exists tr. split; [done|]. split; [|done].
    destruct Hs as [?|Heq]; [by left|right]. by rewrite Heq.
  - intros u0 w' (tr & Hu & Hs). unfold session_round. clear u0. wp_step. apply wp_sys_read.
    + intros buf Hr Hlen. assert (used (tr ++ [Got buf]) w (note_io (Got buf) w')) as Hu1
        by by apply used_note.
      assert (sent (tr ++ [Got buf]) = sent tr) as Hs1 by (rewrite sent_app; apply app_nil_r).
      assert (got (tr ++ [Got buf]) = got tr ++ buf) as Hg1
        by (rewrite got_app; unfold got at 2; cbn; by rewrite app_nil_r).
      apply wp_if; intros Hpos.
      * wp_step. wp_apply (wp_writeAll fd buf fuel (note_io (Got buf) w')).
        intros r w2 (tr2 & n & Hu2 & Hg2 & Hs2 & Hd). pose proof (used_trans _ _ _ _ _ Hu1 Hu2).
        assert (broken ((tr ++ [Got buf]) ++ tr2) ∨ sent tr = got tr ∧ (r = None ∨ sent tr2 = buf))
          as Hcase.
        { destruct Hs as [?|?]; [left; by apply broken_app_l, broken_app_l|].
          destruct Hd as [?|?]; [left; apply Exists_app; by right|by right]. }
        wp_step. destruct r as [[]|]; exists ((tr ++ [Got buf]) ++ tr2); (split; [done|]).
        -- destruct Hcase as [?|[Heq [?|Hb]]]; [by left|done|right].
           by rewrite sent_app, got_app, Hs1, Hg1, Hg2, Hb, Heq, app_nil_r.
        -- split; [|done]. destruct Hcase as [?|[Heq _]]; [by left|right]. split; [|done].
           rewrite sent_app, got_app, Hs1, Hg1, Hg2, Hs2, Heq, app_nil_r.
           apply prefix_app, prefix_take.
      * assert (buf = []) as -> by (destruct buf; [done|simpl in Hpos; done]).
        wp_step. exists (tr ++ [Got []]). split; [done|]. rewrite app_nil_r in Hg1. split.
        -- destruct Hs as [?|Heq]; [left; by apply broken_app_l|right]. by rewrite Hs1, Hg1, Heq.
        -- intros _. exists tr, (Got []). auto.
    + intros errno Hr. assert (used (tr ++ [ReadFailed errno]) w (note_io (ReadFailed errno) w'))
        as Hu1 by by apply used_note.
      assert (broken (tr ++ [ReadFailed errno]) ∨
        sent (tr ++ [ReadFailed errno]) = got (tr ++ [ReadFailed errno])) as Hs1.
      { destruct Hs as [?|Heq]; [left; by apply broken_app_l|right].
        by rewrite sent_app, got_app, Heq. }
      apply wp_if; intros Hintr; [wp_step; by exists (tr ++ [ReadFailed errno])|].
      wp_step. apply wp_log. intros es. wp_step. exists (tr ++ [ReadFailed errno]).
      split; [by apply used_log|]. split.
      * destruct Hs1 as [?|Heq]; [by left|right]. by rewrite Heq.
      * intros _. exists tr, (ReadFailed errno). split; [done|right]. exists errno.
        split; [done|]. by intros ->.
  - exists []. split; [apply used_refl|by right].
Qed.

(** ** Termination *)

(** Signals do not interrupt the calls for ever, and the peer sends a finite
    number of segments. *)
Definition is_got (e : io_event) : bool := match e with Got _ => true | _ => false end.
Record patient (fd : Z) : Prop := {
  pt_write tr : ∃ k, ∀ data,
    io_write fd (tr ++ replicate k (WriteFailed EINTR)) data ≠ IoErr EINTR;
  pt_read tr : ∃ k, ∀ cap,
    io_read fd (tr ++ replicate k (ReadFailed EINTR)) cap ≠ IoErr EINTR;
  pt_end : ∃ N, ∀ tr cap data,
    (N ≤ length (filter is_got tr))%nat → io_read fd tr cap = IoOk data → data = [];
}.

Lemma wp_write_round fd data written w :
  0 ≤ written →
  wp (write_round fd data written) (λ r w', match r with
    | Some (Break _) => True
    | Some (Continue written') => written < written' ≤ zlen data ∨
        written' = written ∧ io_write fd (io w) (slice written (zlen data - written) data) =
          IoErr EINTR ∧ io w' = io w ++ [WriteFailed EINTR]
    | None => False
    end) w.
Proof.
  intros Hw. unfold write_round. apply wp_if; intros Hlt; [by wp_step|].
  apply negb_false_iff, Z.ltb_lt in Hlt.
  assert (zlen (slice written (zlen data - written) data) = zlen data - written) as Hlen
    by (apply length_slice; lia).
  wp_step. apply wp_sys_write.
  - intros n _ Hn. apply wp_if; intros Hpos; [wp_step; lia|]. wp_step. apply wp_log.
    intros es. by wp_step.
  - intros errno Hr. apply wp_if; intros Hintr.
    + apply Z.eqb_eq in Hintr as ->. wp_step. auto.
    + wp_step. apply wp_log. intros es. by wp_step.
Qed.

Lemma writeAll_ends fd data w :
  patient fd → ∃ w', ends (λ _, write_round fd data) 0 w tt w'.
Proof.
  intros Hpat. assert (0 ≤ 0) as Hw by lia. revert Hw. generalize 0 at 2 3 as written.
  intros written. remember (Z.to_nat (zlen data - written)) as m eqn:Hm. revert written Hm w.
  induction m as [m IH] using lt_wf_ind. intros written Hm w Hw.
  destruct (pt_write _ Hpat (io w)) as [k Hk]. revert w Hk.
  induction k as [|k IHk]; intros w Hk;
    destruct (proj1 (wp_run _ _ _) (wp_write_round fd data written w Hw)) as (r & w1 & Hrun & Hr);
    destruct r as [[written1|[]]|]; try done;
    try (exists w1; by apply (ends_break _ _ _ _ _ 0));
    destruct Hr as [Hr|(-> & Hintr & Hio)].
  1, 3: destruct (IH (Z.to_nat (zlen data - written1)) ltac:(lia) written1 eq_refl w1 ltac:(lia))
    as [w' Hends]; exists w'; by eapply (ends_continue _ _ _ _ _ _ _ 0).
  - exfalso. apply (Hk (slice written (zlen data - written) data)). by rewrite app_nil_r.
  - destruct (IHk w1) as [w' Hends]; [|exists w'; by eapply (ends_continue _ _ _ _ _ _ _ 0)].
    intros d. rewrite Hio, <-app_assoc. apply Hk.
Qed.

Lemma wp_session_round fd fuel w :
  wp (session_round fd fuel tt) (λ r w', match r with
    | Some (Break _) => True
    | Some (Continue _) =>
        (∃ cap, io_read fd (io w) cap = IoErr EINTR ∧ io w' = io w ++ [ReadFailed EINTR]) ∨
        ∃ cap data tr, io_read fd (io w) cap = IoOk data ∧ data ≠ [] ∧
          io w' = io w ++ Got data :: tr
    | None => True
    end) w.
Proof.
  unfold session_round. wp_step. apply wp_sys_read.
  - intros buf Hr Hlen. apply wp_if; intros Hpos; [|by wp_step]. wp_step.
    wp_apply (wp_writeAll fd buf fuel). intros r w' (tr & n & (Hio & _) & _). wp_step.
    destruct r; [|done]. right. exists 4096, buf, tr. split_and!; [done|by intros ->|].
    rewrite Hio. cbn. by rewrite <-app_assoc.
  - intros errno Hr. apply wp_if; intros Hintr.
    + apply Z.eqb_eq in Hintr as ->. wp_step. left. by exists 4096.
    + wp_step. apply wp_log. intros es. by wp_step.
Qed.

(** With enough fuel a round of the session does not stop inside [writeAll]. *)
Lemma session_round_ends fd w :
  patient fd → ∃ r w' n, ∀ k, (n ≤ k)%nat → session_round fd k tt w = Ok (Some r, w').
Proof.
  intros Hpat. unfold session_round.
  destruct (sys_read fd 4096 w) as [[r w1]|] eqn:Hread; [|done].
  assert (∀ r' (f : nat → io_result bytes → M BlockW (option (step unit unit))) w' n,
    (∀ k, (n ≤ k)%nat → f k r w1 = Ok (Some r', w')) →
    ∃ r w' n, ∀ k, (n ≤ k)%nat → (sys_read fd 4096 ≫= f k) w = Ok (Some r, w')) as Hgo.
  { intros r' f w' n Hf. exists r', w', n. intros k Hk. rewrite (run_bind_ok _ _ _ _ _ Hread).
    by apply Hf. }
  destruct r as [buf|errno].
  - destruct (0 <? zlen buf) eqn:Hpos.
    + destruct (writeAll_ends fd buf w1 Hpat) as (w2 & n & Hw).
      eapply (Hgo (Continue tt) _ w2 n). intros k Hk. cbn. rewrite Hpos.
      rewrite (run_bind_ok _ _ _ (Some tt) w2); [done|]. apply (Hw k k); lia.
    + apply (Hgo (Break tt) _ w1 0%nat). intros k _. cbn. by rewrite Hpos.
  - destruct (errno =? EINTR) eqn:Hintr.
    + apply (Hgo (Continue tt) _ w1 0%nat). intros k _. cbn. by rewrite Hintr.
    + eapply (Hgo (Break tt) _ _ 0%nat). intros k _. cbn. rewrite Hintr. reflexivity.
Qed.

Lemma session_ends fd w :
  patient fd → ∃ w', ends (session_round fd) tt w tt w'.
Proof.
  intros Hpat. destruct (pt_end _ Hpat) as [N Hend].
  remember (N - length (filter is_got (io w)))%nat as m eqn:Hm. revert w Hm.
  induction m as [m IH] using lt_wf_ind. intros w Hm.
  destruct (pt_read _ Hpat (io w)) as [k Hk]. revert w Hm Hk.
  induction k as [|k IHk]; intros w Hm Hk;
    destruct (session_round_ends fd w Hpat) as (r & w1 & n & Hrun);
    destruct r as [[]|[]]; try (exists w1; by apply (ends_break _ _ _ _ _ n));
    pose proof (wp_session_round fd n w) as Hwp; unfold wp in Hwp; rewrite Hrun in Hwp by done;
    destruct Hwp as [(cap & Hintr & Hio)|(cap & data & tr & Hr & Hne & Hio)].
  2, 4: destruct (decide (N ≤ length (filter is_got (io w)))%nat) as [Hle|Hlt];
    [by destruct Hne; eapply Hend|].
  2, 3: destruct (IH (N - length (filter is_got (io w1)))%nat) with (w := w1) as [w' Hends];
    [rewrite Hio, filter_app, filter_cons_True, length_app by done; simpl; lia|done|];
    exists w'; by eapply ends_continue.
  - exfalso. apply (Hk cap). by rewrite app_nil_r.
  - destruct (IHk w1) as [w' Hends]; [| |exists w'; by eapply ends_continue].
    + by rewrite Hio, filter_app, app_nil_r.
    + intros c. rewrite Hio, <-app_assoc. apply Hk.
Qed.

(** ** The accept loop *)

Lemma wp_setBlocking fd w :
  wp (setBlocking fd) (λ _ w', ∃ tr, trace (sys w') = trace (sys w) ++ tr ∧
    io w' = io w ∧ sessions w' = sessions w ∧ closed_fds tr = [] ∧
    (∀ pre, accepted_from pre tr = []) ∧
    (fcntl_ok → Z.land (fd_flags fd (trace (sys w'))).1 O_NONBLOCK = 0)) w.
Proof.
  unfold setBlocking. set (c1 := SysFcntl fd F_GETFL 0). wp_step. unfold on_sys at 1. wp_step.
  apply wp_do_call. destruct (result (trace (sys w)) c1) as [flags|errno] eqn:Hr1.
  - set (c2 := SysFcntl fd F_SETFL _). wp_step. unfold on_sys at 1. wp_step. apply wp_do_call.
    assert (fcntl_ok →
      Z.land (fd_flags fd (trace (sys w) ++ [c1] ++ [c2])).1 O_NONBLOCK = 0) as Hfl.
    { intros Hok. unfold fd_flags. rewrite flags_from_app. cbn [flags_from app]. unfold c1, c2.
      rewrite !apply_fcntl by done. cbn. rewrite <-Z.land_assoc. by rewrite Z.land_0_r. }
    cbn [trace sys set_sys]. rewrite <-app_assoc.
    destruct (result _ c2) as [v|errno].
    + wp_step. exists ([c1] ++ [c2]). split_and!; try done.
    + apply wp_log. intros es. exists ([c1] ++ [c2]). split_and!; try done.
  - apply wp_log. intros es. exists [c1]. split_and!; try done.
    intros Hok. destruct (Hok (trace (sys w)) fd F_GETFL 0) as [v Hv]. fold c1 in Hv. congruence.
Qed.

(** The connections served so far: each is over and its echo complete, unless
    a write gave up, and exactly their descriptors have been accepted and
    closed. *)
Record served w : Prop := {
  sv_sessions : Forall (λ s, session_post (Some tt) s.2) (sessions w);
  sv_accepted : accepted_fds (trace (sys w)) = (sessions w).*1;
  sv_closed : closed_fds (trace (sys w)) = (sessions w).*1;
}.
(** At any moment one more connection may be open. *)
Definition serving w : Prop :=
  Forall (λ s, session_post (Some tt) s.2) (sessions w) ∧
  ∃ open, accepted_fds (trace (sys w)) = (sessions w).*1 ++ open ∧ (length open ≤ 1)%nat ∧
    closed_fds (trace (sys w)) = (sessions w).*1.

Lemma served_serving w : served w → serving w.
Proof. intros []. split; [done|]. exists []. rewrite app_nil_r. auto with lia. Qed.

Lemma accept_round_served listenfd fuel w :
  served w → wp (accept_round listenfd fuel) (λ r w', match r with
    | None => serving w'
    | Some (Continue _) => served w'
    | Some (Break _) => False
    end) w.
Proof.
  intros [Hses Hacc Hcl]. unfold accept_round. wp_step. unfold on_sys at 1. wp_step.
  unfold socket_accept. wp_step. wp_apply (wp_sockets_accept listenfd (sys w)).
  intros r s (tr & es & Htr & _ & Hc & Hr). wp_step.
  assert (accepted_fds (trace s) = (sessions w).*1 ++ accepted_from (trace (sys w)) tr) as Ha1.
  { unfold accepted_fds in *. rewrite Htr, accepted_from_app, Hacc. done. }
  assert (closed_fds (trace s) = (sessions w).*1) as Hc1
    by (rewrite Htr, closed_fds_app, Hc, Hcl; apply app_nil_r).
  destruct r as [[connfd addr]|errno].
  - destruct Hr as [Hr _]. rewrite Hr in Ha1. wp_step.
    wp_apply (wp_setBlocking connfd (set_sys s w)).
    intros [] w2 (tr2 & Htr2 & _ & Hs2 & Hcl2 & Ha2 & _).
    assert (accepted_fds (trace (sys w2)) = (sessions w).*1 ++ [connfd] ∧
      closed_fds (trace (sys w2)) = (sessions w).*1) as [Ha3 Hc3].
    { rewrite Htr2. unfold accepted_fds in *. cbn [sys set_sys] in *.
      by rewrite accepted_from_app, Ha2, app_nil_r, closed_fds_app, Hcl2, app_nil_r. }
    wp_step. wp_step. wp_step. wp_apply (wp_session connfd fuel (open_session w2)).
    intros done w3 (tr3 & (Hio3 & Htr3 & Hs3) & Hpost). cbn in Hio3, Htr3, Hs3.
    rewrite <-Htr3 in Ha3, Hc3. rewrite Hs2 in Hs3. cbn in Hs3. destruct done as [[]|].
    + wp_step. unfold on_sys, socket_destroy, sockets_close. wp_step.
      wp_apply (wp_or_log "close" (SysClose connfd) (sys w3)). intros [] s4 (Htr4 & _).
      do 3 wp_step. cbn. split; cbn; rewrite Hs3.
      * apply Forall_app_2; [done|]. apply Forall_singleton. by rewrite Hio3.
      * unfold accepted_fds in *. rewrite Htr4, accepted_from_app, Ha3, fmap_app. apply app_nil_r.
      * by rewrite Htr4, closed_fds_app, Hc3, fmap_app.
    + wp_step. split; rewrite Hs3; [done|]. exists [connfd]. auto.
  - destruct Hr as [Hr _]. rewrite Hr, app_nil_r in Ha1. wp_step.
    assert (∀ es, served (set_sys (MkSockWorld (trace s) es) w)) as Hserved by by intros; split.
    apply wp_when; intros _; [apply wp_log; intros es'|]; wp_step; [apply Hserved|].
    destruct s. apply Hserved.
Qed.

(** ** The set-up *)

Lemma wp_blocking_echo_server listenfd fuel w :
  setup_ok listenfd → trace (sys w) = [] → sessions w = [] →
  wp (blocking_echo_server fuel) (λ r w', r = None ∧ serving w') w.
Proof.
  intros (Hsock & Hbind & Hlisten) Htr Hses. unfold blocking_echo_server.
  wp_step. unfold on_sys at 1. wp_step. unfold createBlockingOrDie, createSocketOrDie. wp_step.
  apply wp_do_call. rewrite Hsock. do 2 wp_step. unfold on_sys at 1. wp_step.
  wp_apply wp_setSocketOption. intros [] s2 Hs2. wp_step. unfold on_sys at 1. wp_step.
  wp_apply wp_setSocketOption. intros [] s3 Hs3. wp_step. unfold on_sys at 1. wp_step.
  wp_apply wp_or_die; [apply Hbind|]. intros [] s4 Hs4. wp_step. unfold on_sys at 1. wp_step.
  wp_apply wp_or_die; [apply Hlisten|]. intros [] s5 Hs5. cbn [sys set_sys trace] in *.
  rewrite Hs4, Hs3, Hs2, Htr in Hs5.
  apply (wp_while _ (λ _, served)).
  - intros _ w' Hw'. split; [done|by apply served_serving].
  - intros _ w' Hw'. eapply wp_mono; [by apply accept_round_served|].
    intros [[[]|[]]|] w2 Hw2; try done.
  - split; cbn [sys set_sys sessions]; rewrite Hses; [by apply Forall_nil|..];
      unfold accepted_fds; rewrite Hs5; cbn; by rewrite ?Hsock.
Qed.

(** ** The client and a server that echoes *)

(** The connection to an echo server: a write takes something, and as long as
    a part of the echo is outstanding, a read delivers some more of it. *)
Record echo_peer (fd : Z) : Prop := {
  ep_write tr data : data ≠ [] → ∃ n, io_write fd tr data = IoOk n ∧ 0 < n;
  ep_read tr cap rest : 0 < cap → rest ≠ [] → sent tr = got tr ++ rest →
    ∃ data rest', io_read fd tr cap = IoOk data ∧ data ≠ [] ∧ rest = data ++ rest';
}.

Section client.
Context (fd : Z) (peer : echo_peer fd).

Lemma wp_client_writeAll data fuel written w :
  0 ≤ written ≤ zlen data → zlen data < 2 ^ 64 → zlen data - written < Z.of_nat fuel →
  wp (while (client_write_round fd data) fuel written) (λ r w', r = Some true ∧
    ∃ tr, used tr w w' ∧ got tr = [] ∧ sent tr = drop (Z.to_nat written) data) w.
Proof.
  revert written w. induction fuel as [|fuel IH]; intros written w Hw Hlen Hfuel; [lia|].
  cbn [while]. wp_step. unfold client_write_round at 1. apply wp_if; intros Hlt.
  { apply negb_true_iff, Z.ltb_ge in Hlt. do 2 wp_step. split; [done|]. exists [].
    split_and!; [apply used_refl|done|]. by rewrite drop_ge by lia. }
  apply negb_false_iff, Z.ltb_lt in Hlt. set (rest := slice written (zlen data - written) data).
  assert (rest = drop (Z.to_nat written) data) as Hrest
    by (unfold rest, slice; rewrite take_ge; [done|rewrite length_drop; lia]).
  assert (zlen rest = zlen data - written) as Hl by (rewrite Hrest, length_drop; lia).
  assert (rest ≠ []) as Hne by (intros Hnil; rewrite Hnil in Hl; simpl in Hl; lia).
  destruct (ep_write _ peer (io w) rest Hne) as (n' & Hn' & Hpos).
  wp_step. apply wp_sys_write; [|congruence]. intros n Hr Hn.
  assert (n' = n) as -> by congruence.
  apply wp_if; intros Hz; [apply Z.leb_le in Hz; lia|]. wp_step.
  rewrite u64_small by lia. wp_apply (IH (written + n) (note_io (Wrote (take (Z.to_nat n) rest)) w));
    [lia..|].
  intros r w' (-> & tr & Hu & Hg & Hs). split; [done|].
  exists ([Wrote (take (Z.to_nat n) rest)] ++ tr). split_and!.
  - eapply used_trans; [|exact Hu]. apply (used_note _ []), used_refl.
  - by rewrite got_app, Hg.
  - rewrite sent_app, Hs. unfold sent at 1; cbn. rewrite app_nil_r, Hrest.
    replace (Z.to_nat (written + n)) with (Z.to_nat written + Z.to_nat n)%nat by lia.
    by rewrite <-drop_drop, take_drop.
Qed.

Lemma wp_readExact rest fuel readBytes buf w :
  0 ≤ readBytes → zlen buf = readBytes + zlen rest → zlen buf < 2 ^ 64 →
  zlen rest < Z.of_nat fuel → sent (io w) = got (io w) ++ rest →
  wp (while (read_round fd) fuel (readBytes, buf)) (λ r w',
    r = Some (true, take (Z.to_nat readBytes) buf ++ rest) ∧
    ∃ tr, used tr w w' ∧ sent tr = [] ∧ got tr = rest) w.
Proof.
  revert rest readBytes buf w.
  induction fuel as [|fuel IH]; intros rest readBytes buf w Hrb Hlen Hmax Hfuel Hout; [lia|].
  cbn [while]. wp_step. unfold read_round at 1. apply wp_if; intros Hlt.
  { apply negb_true_iff, Z.ltb_ge in Hlt. assert (rest = []) as -> by (destruct rest; [done|simpl in *; lia]).
    do 2 wp_step. split; [|exists []; split_and!; [apply used_refl|done..]].
    rewrite app_nil_r, take_ge; [done|simpl in *; lia]. }
  apply negb_false_iff, Z.ltb_lt in Hlt. assert (rest ≠ []) as Hne by (intros ->; simpl in *; lia).
  destruct (ep_read _ peer (io w) (zlen buf - readBytes) rest) as (data & rest' & Hr & Hd & ->);
    [lia|done|done|].
  wp_step. apply wp_sys_read; [|congruence]. intros data' Hr' _.
  assert (data' = data) as -> by congruence. rewrite length_app in *.
  assert (0 < zlen data) as Hpos by (destruct data; [done|simpl; lia]).
  apply wp_if; intros Hz; [apply Z.leb_le in Hz; lia|]. wp_step. rewrite u64_small by lia.
  pose proof (length_splice readBytes data buf ltac:(lia) ltac:(lia)) as Hsp.
  wp_apply (IH rest' (readBytes + zlen data) (splice readBytes data buf) (note_io (Got data) w));
    [lia..| |].
  { change (io (note_io (Got data) w)) with (io w ++ [Got data]).
    rewrite sent_app, got_app, Hout. unfold sent, got at 3; cbn. by rewrite !app_nil_r, app_assoc. }
  intros r w' (-> & tr & Hu & Hs & Hg). split.
  - do 2 f_equal. rewrite app_assoc. f_equal. unfold splice. rewrite app_assoc, take_app_le.
    + rewrite take_ge; [done|]. rewrite length_app, length_take. lia.
    + rewrite length_app, length_take. lia.
  - exists ([Got data] ++ tr). split_and!.
    + eapply used_trans; [|exact Hu]. apply (used_note _ []), used_refl.
    + by rewrite sent_app, Hs.
    + rewrite got_app, Hg. unfold got at 1; cbn. by rewrite app_nil_r.
Qed.

Lemma wp_requests requestCount k fuel i success response w :
  0 ≤ success ≤ i → i ≤ requestCount < 2 ^ 31 → length response = length message →
  (length message < k)%nat → requestCount - i < Z.of_nat fuel → sent (io w) = got (io w) →
  wp (while (request_round fd requestCount k) fuel (i, success, response)) (λ r w',
    r = Some (success + (requestCount - i)) ∧ ∃ tr, used tr w w' ∧
    sent tr = concat (replicate (Z.to_nat (requestCount - i)) message) ∧ got tr = sent tr) w.
Proof.
  revert i success response w.
  induction fuel as [|fuel IH]; intros i success response w Hs Hi Hr Hk Hfuel Hio; [lia|].
  cbn [while]. wp_step. unfold request_round at 1. apply wp_if; intros Hlt.
  { apply negb_true_iff, Z.ltb_ge in Hlt. assert (i = requestCount) as -> by lia.
    do 2 wp_step. rewrite Z.sub_diag, Z.add_0_r. split; [done|]. exists [].
    split_and!; [apply used_refl|done..]. }
  apply negb_false_iff, Z.ltb_lt in Hlt.
  assert (zlen message < 2 ^ 64) as Hmsg by (vm_compute; done).
  wp_step. unfold client_writeAll. wp_apply (wp_client_writeAll message k 0 w); [lia..|].
  intros r1 w1 (-> & tr1 & Hu1 & Hg1 & Hs1). cbn [Z.to_nat drop] in Hs1.
  wp_step. unfold readExact. wp_apply (wp_readExact message k 0 response w1); [lia..| |].
  { destruct Hu1 as [-> _]. by rewrite sent_app, got_app, Hio, Hs1, Hg1, app_nil_r. }
  intros r2 w2 (-> & tr2 & Hu2 & Hs2 & Hg2). cbn [Z.to_nat take app].
  rewrite bool_decide_eq_true_2 by done.
  wp_step. rewrite i32_ok by lia. wp_step. wp_step. rewrite i32_ok by lia. do 2 wp_step.
  pose proof (used_trans _ _ _ _ _ Hu1 Hu2) as Hu.
  wp_apply (IH (i + 1) (success + 1) message w2); [lia|lia|done|done|lia| |].
  { destruct Hu as [-> _]. by rewrite !sent_app, !got_app, Hio, Hs1, Hg1, Hs2, Hg2, app_nil_r. }
  intros r3 w3 (-> & tr3 & Hu3 & Hs3 & Hg3). split; [f_equal; lia|].
  exists ((tr1 ++ tr2) ++ tr3). split_and!; [by eapply used_trans| |].
  - rewrite !sent_app, Hs1, Hs2, Hs3, app_nil_r.
    replace (Z.to_nat (requestCount - i)) with (S (Z.to_nat (requestCount - (i + 1)))) by lia. done.
  - by rewrite !sent_app, !got_app, Hs1, Hg1, Hs2, Hg2, Hg3, app_nil_r.
Qed.
End client.

(** ** Properties *)

(** C23 (termination). A session of the blocking server ends when the
    peer does, provided that signals do not interrupt it for ever: the loop
    returns after finitely many iterations, because the peer has closed the
    connection or reading has failed, and everything received has been sent
    back in order, unless a write gave up. *)
Theorem session_terminates fd w :
  patient fd →
  ∃ n w' tr, (∀ fuel, (n ≤ fuel)%nat → session fd fuel w = Ok (Some tt, w')) ∧
    io w' = io w ++ tr ∧ over tr ∧ (broken tr ∨ sent tr = got tr).
Proof.
  intros Hpat. destruct (session_ends fd w Hpat) as (w' & n & Hn). exists n, w'.
  pose proof (wp_session fd n w) as Hwp. unfold wp, session in Hwp.
  rewrite (Hn n n) in Hwp by done. destruct Hwp as (tr & (Hio & _) & Hpost & Hover).
  exists tr. split_and!; [|done|by apply Hover|].
  - intros fuel Hf. by apply Hn.
  - destruct Hpost as [?|[_ Heq]]; [by left|right; by apply Heq].
Qed.

(** C26 (safety). The blocking server never returns and leaks no descriptor:
    however long it runs, what it has accepted is what it has closed, in the
    same order and once each, but for the connection that it may be serving;
    and every finished session is over and its echo complete, unless a write
    gave up. *)
Theorem blocking_server_no_leak listenfd fuel w :
  setup_ok listenfd → trace (sys w) = [] → sessions w = [] →
  ∃ w', blocking_echo_server fuel w = Ok (None, w') ∧
    Forall (λ s, over s.2 ∧ (broken s.2 ∨ sent s.2 = got s.2)) (sessions w') ∧
    closed_fds (trace (sys w')) = (sessions w').*1 ∧
    ∃ open, (length open ≤ 1)%nat ∧
      accepted_fds (trace (sys w')) = closed_fds (trace (sys w')) ++ open.
Proof.
  intros Hos Htr Hses. pose proof (wp_blocking_echo_server listenfd fuel w Hos Htr Hses) as Hwp.
  apply wp_run in Hwp as (r & w' & Hrun & -> & Hf & open & Ha & Ho & Hc).
  exists w'. split_and!; [done| |done|exists open; by rewrite Hc].
  eapply Forall_impl; [exact Hf|]. intros [fd tr] [Hpost Hover]. split; [by apply Hover|].
  destruct Hpost as [?|[_ Heq]]; [by left|right; by apply Heq].
Qed.

(** What the arguments are understood as. *)
Record arguments (argv : list string) (ip : string) (port requestCount : Z) : Prop := {
  arg_ip : ip = default "127.0.0.1" (argv !! 1%nat);
  arg_port : match argv !! 2%nat with
             | Some arg => arg = pretty port ∧ in_i32 port = true
             | None => port = 9001
             end;
  arg_count : match argv !! 3%nat with
              | Some arg => arg = pretty requestCount ∧ in_i32 requestCount = true
              | None => requestCount = 10000
              end;
}.

Lemma int_argument_spec argv i unset n :
  match argv !! i with Some arg => arg = pretty n ∧ in_i32 n = true | None => n = unset end →
  int_argument argv i unset = Ok n.
Proof.
  unfold int_argument. destruct (argv !! i); [|by intros ->]. intros [-> Hn]. by apply stoi_pretty.
Qed.

Lemma benchmark_main_arguments argv ip port requestCount fuel w :
  arguments argv ip port requestCount →
  benchmark_main argv fuel w = benchmark_client ip port requestCount fuel w.
Proof.
  intros [-> Hport Hcount]. unfold benchmark_main.
  rewrite (int_argument_spec argv 2 9001 port Hport).
  by rewrite (int_argument_spec argv 3 10000 requestCount Hcount).
Qed.

(** C35 (functional). Against a server that echoes, however it splits the
    stream, the benchmark client succeeds, whether its arguments are given or
    left to their defaults: all requests are counted as
    successful and the exit status is 0, after as many iterations as there are
    requests; it has sent the message that many times, received the same bytes,
    and closed its socket. *)
Theorem benchmark_succeeds argv fd ip a port requestCount fuel w :
  arguments argv ip port requestCount →
  echo_peer fd → (∀ tr, result tr (SysSocket AF_INET SOCK_STREAM IPPROTO_TCP) = IoOk fd) →
  inet_pton ip = Some a → io_connect fd (MkSockaddr AF_INET (htons (u16 port)) a) = IoOk tt →
  0 ≤ requestCount < 2 ^ 31 → requestCount < Z.of_nat fuel → (length message < fuel)%nat →
  ∃ w' tr, benchmark_main argv fuel w = Ok (Some 0, w') ∧
    sessions w' = sessions w ++ [(fd, tr)] ∧
    sent tr = concat (replicate (Z.to_nat requestCount) message) ∧ got tr = sent tr ∧
    closed_fds (trace (sys w')) = closed_fds (trace (sys w)) ++ [fd].
Proof.
  intros Hargs Hpeer Hsock Hip Hconn Hn Hfuel Hmsg.
  assert (wp (benchmark_client ip port requestCount fuel) (λ r w', r = Some 0 ∧ ∃ tr,
    sessions w' = sessions w ++ [(fd, tr)] ∧
    sent tr = concat (replicate (Z.to_nat requestCount) message) ∧ got tr = sent tr ∧
    closed_fds (trace (sys w')) = closed_fds (trace (sys w)) ++ [fd]) w) as Hwp.
  { unfold benchmark_client. wp_step. unfold on_sys at 1. wp_step. apply wp_do_call.
    rewrite Hsock, Hip, Hconn. do 3 wp_step. unfold requests.
    wp_apply (wp_requests fd Hpeer requestCount fuel); [lia|lia|by rewrite length_replicate|done|lia|done|].
    intros r w1 (-> & tr & (Hio & Htr & Hs) & Hsent & Hgot). rewrite Z.add_0_l, Z.sub_0_r in *.
    wp_step. unfold on_sys. wp_step. apply wp_do_call. do 3 wp_step. rewrite Z.eqb_refl.
    split; [done|]. exists tr. cbn in *. rewrite Hio, Hs, Htr. split_and!; try done.
    by rewrite !closed_fds_app, app_nil_r. }
  rewrite (benchmark_main_arguments _ _ _ _ fuel w Hargs).
  apply wp_run in Hwp as (r & w' & ? & -> & tr & ?). by exists w', tr.
Qed.
End proofs.

(** ** Concrete kernels

    Descriptor 5 listens and 7 is what [accept4] returns. *)
#[local] Instance demo_os : Os := {|
  result tr c := match c with SysSocket _ _ _ => IoOk 5 | SysAccept4 _ _ => IoOk 7 | _ => IoOk 0 end;
  stored_addr tr c := MkSockaddr AF_INET (htons 8080) (htonl INADDR_LOOPBACK);
  strerror errno := pretty errno;
|}.
#[local] Instance demo_inet : InetLib := {|
  inet_pton ip := Some (htonl INADDR_LOOPBACK);
  inet_ntop a := Some (dotted a);
|}.

(** A peer that sends "hello" and closes; a write takes at most four bytes,
    and every other one is interrupted first. *)
Definition interrupted (e : io_event) : bool :=
  match e with WriteFailed _ => true | _ => false end.
#[local] Instance hello_io : BlockingIo := {|
  io_write fd tr data :=
    match last tr with
    | Some (WriteFailed _) => IoOk (zlen data `min` 4)
    | _ => IoErr EINTR
    end;
  io_read fd tr cap := IoOk (if existsb is_got tr then [] else take (Z.to_nat cap) (take 5 message));
  io_connect fd addr := IoOk tt;
|}.
#[local] Instance hello_io_spec : BlockingIoSpec.
Proof.
  split; cbn.
  - intros fd tr data n. destruct (last tr) as [[]|]; [done| |done..]. intros [= <-]. lia.
  - intros fd tr cap data Hcap [= <-]. destruct (existsb _ _); [simpl; lia|].
    rewrite length_take. lia.
Qed.

Lemma hello_patient : patient 7.
Proof.
  split.
  - intros tr. exists 1%nat. intros data. cbn. by rewrite last_snoc.
  - intros tr. by exists 0%nat.
  - exists 1%nat. intros tr cap data Hn [= <-].
    assert (existsb is_got tr = true) as ->; [|done].
    destruct (filter is_got tr) as [|e l] eqn:Hf; [simpl in Hn; lia|].
    assert (e ∈ filter is_got tr) as [He Hin]%list_elem_of_filter by (rewrite Hf; apply list_elem_of_here).
    apply existsb_exists. exists e. split; [by apply list_elem_of_In|]. by destruct (is_got e).
Qed.

Definition idle : BlockW := MkBlockW (MkSockWorld [] []) [] [].

Lemma session_terminates_witness :
  ∃ n w' tr, (∀ fuel, (n ≤ fuel)%nat → session 7 fuel idle = Ok (Some tt, w')) ∧
    io w' = [] ++ tr ∧ over tr ∧ (broken tr ∨ sent tr = got tr).
Proof. exact (session_terminates 7 idle hello_patient). Defined.

Example session_run :
  match session 7 10 idle with
  | Ok (Some tt, w') => sent (io w') = take 5 message ∧ length (io w') = 6%nat
  | _ => False
  end.
Proof. vm_compute. split; reflexivity. Qed.

Lemma demo_setup_ok : setup_ok 5.
Proof. done. Qed.

Lemma blocking_server_no_leak_witness :
  ∃ w', blocking_echo_server 10 idle = Ok (None, w') ∧
    Forall (λ s, over s.2 ∧ (broken s.2 ∨ sent s.2 = got s.2)) (sessions w') ∧
    closed_fds (trace (sys w')) = (sessions w').*1 ∧
    ∃ open, (length open ≤ 1)%nat ∧
      accepted_fds (trace (sys w')) = closed_fds (trace (sys w')) ++ open.
Proof. exact (blocking_server_no_leak 5 10 idle demo_setup_ok eq_refl eq_refl). Defined.

(** A server that echoes, three bytes at a time. *)
Section echoing.
#[local] Instance echoing_io : BlockingIo := {|
  io_write fd tr data := IoOk (zlen data `min` 4);
  io_read fd tr cap := IoOk (take (Z.to_nat (cap `min` 3)) (drop (length (got tr)) (sent tr)));
  io_connect fd addr := IoOk tt;
|}.
#[local] Instance echoing_io_spec : BlockingIoSpec.
Proof.
  split; cbn.
  - intros fd tr data n [= <-]. lia.
  - intros fd tr cap data Hcap [= <-]. rewrite length_take. lia.
Qed.

Lemma echoing_peer fd : echo_peer fd.
Proof.
  split; cbn.
  - intros tr data Hne. eexists. split; [done|]. destruct data; [done|simpl; lia].
  - intros tr cap rest Hcap Hne ->. rewrite drop_app_length. eexists _, _.
    split_and!; [done| |symmetry; apply take_drop].
    destruct rest as [|x rest]; [done|]. by replace (Z.to_nat (cap `min` 3)) with
      (S (Z.to_nat (cap `min` 3 - 1))) by lia.
Qed.

Lemma demo_arguments : arguments ["benchmark"; "127.0.0.1"; "9001"; "2"] "127.0.0.1" 9001 2.
Proof. by split. Qed.

Lemma benchmark_succeeds_witness :
  ∃ w' tr, benchmark_main ["benchmark"; "127.0.0.1"; "9001"; "2"] 30 idle = Ok (Some 0, w') ∧
    sessions w' = [(5, tr)] ∧ sent tr = message ++ message ++ [] ∧ got tr = sent tr.
Proof.
  assert (∀ tr, result tr (SysSocket AF_INET SOCK_STREAM IPPROTO_TCP) = IoOk 5) as Hsock by done.
  assert (inet_pton "127.0.0.1" = Some (htonl INADDR_LOOPBACK)) as Hip by done.
  destruct (benchmark_succeeds ["benchmark"; "127.0.0.1"; "9001"; "2"] 5 "127.0.0.1"
    (htonl INADDR_LOOPBACK) 9001 2 30 idle demo_arguments
    (echoing_peer 5) Hsock Hip eq_refl ltac:(lia) ltac:(lia) ltac:(vm_compute; lia))
    as (w' & tr & Hrun & Hs & Hsent & Hgot & _).
  change (Z.to_nat 2) with 2%nat in Hsent.
  exists w', tr. exact (conj Hrun (conj Hs (conj Hsent Hgot))).
Defined.
End echoing.

(** A kernel that is out of memory at the first write and delivers "hel" and
    "lo": [writeAll] only logs the error, the session goes on, and the peer
    receives an echo with a gap. *)
Section gap.
#[local] Instance gap_io : BlockingIo := {|
  io_write fd tr data :=
    if existsb interrupted tr then IoOk (zlen data) else IoErr 12;
  io_read fd tr cap := IoOk (match length (filter is_got tr) with
                             | O => take 3 message
                             | S O => slice 3 2 message
                             | _ => []
                             end);
  io_connect fd addr := IoOk tt;
|}.

Lemma echo_gap :
  ∃ w', session 7 10 idle = Ok (Some tt, w') ∧
    got (io w') = take 5 message ∧ sent (io w') = slice 3 2 message ∧
    ¬ (sent (io w') `prefix_of` got (io w')).
Proof.
  eexists. split; [vm_compute; reflexivity|]. split_and!; [vm_compute; reflexivity..|].
  intros [l Hl]. vm_compute in Hl. discriminate Hl.
Qed.
End gap.
