(* ===== verification/TcpServer.v ===== *)
(** * TcpServer (include/net/TcpServer.h, src/net/TcpServer.cc)

    The server: the names and the map of the connections, and the hand-over of
    every connection between the base loop and its io loop. A connection is
    represented by what the server and the loops do with it (its phase), the
    functors by their targets; TcpConnection.v models its inside. *)
From S2P Require Import Prelude Posix Channel InetAddress Sockets EventLoopThreadPool.
Open Scope string_scope.
Open Scope list_scope.
Open Scope Z_scope.

(** The functors the server hands to loops; a connection is named by its
    position in the order of creation. *)
Inductive sfunctor : Type :=
| Listen
| ConnectEstablished (c : nat)
| RemoveConnectionInLoop (c : nat)
| ConnectDestroyed (c : nat).
#[export] Instance sfunctor_eq_dec : EqDecision sfunctor.
Proof. solve_decision. Defined.

(** Created, established, its close callback called, destroyed. *)
Inductive phase : Type := Connecting | Connected | Closed | Destroyed.
#[export] Instance phase_eq_dec : EqDecision phase.
Proof. solve_decision. Defined.

(** A callback: empty, the lambda that does nothing with which the constructor
    fills it, or one of the user's functions, which are numbered. *)
Inductive callback : Type := EmptyCallback | NoOp | UserFunction (n : nat).
#[export] Instance callback_eq_dec : EqDecision callback.
Proof. solve_decision. Defined.
Record Callbacks : Type := MkCallbacks {
  connectionCallback_ : callback;
  messageCallback_ : callback;
  writeCompleteCallback_ : callback;
}.
Definition no_callbacks : Callbacks := MkCallbacks EmptyCallback EmptyCallback EmptyCallback.

Record Conn : Type := MkConn {
  conn_name : string;
  conn_loop : ptr;
  conn_fd : Z;
  conn_local : InetAddress;
  conn_peer : InetAddress;
  conn_callbacks : Callbacks;
  conn_phase : phase;
}.
Definition set_phase ph (c : Conn) : Conn :=
  MkConn (conn_name c) (conn_loop c) (conn_fd c) (conn_local c) (conn_peer c) (conn_callbacks c) ph.
Definition set_conn_callbacks cbs (c : Conn) : Conn :=
  MkConn (conn_name c) (conn_loop c) (conn_fd c) (conn_local c) (conn_peer c) cbs (conn_phase c).

(** [callbacks] are those for the connections to come, [conns] the connections
    made so far, [queues] the functors waiting in the loops, [cur] the loop of
    the running thread, [listens] counts the calls of [acceptor_->listen()]. *)
Record Server : Type := MkServer {
  loop_ : ptr;
  name_ : string;
  threadPool_ : Pool;
  callbacks : Callbacks;
  srv_started : bool;
  nextConnId_ : Z;
  connections_ : gmap string nat;
  conns : list Conn;
  queues : gmap ptr (list sfunctor);
  cur : ptr;
  listens : nat;
  sockets : SockWorld;
}.
Implicit Types s : Server.

Definition set_pool p s : Server :=
  MkServer (loop_ s) (name_ s) p (callbacks s) (srv_started s) (nextConnId_ s) (connections_ s) (conns s)
    (queues s) (cur s) (listens s) (sockets s).
Definition set_callbacks (f : Callbacks → Callbacks) s : Server :=
  MkServer (loop_ s) (name_ s) (threadPool_ s) (f (callbacks s)) (srv_started s) (nextConnId_ s)
    (connections_ s) (conns s) (queues s) (cur s) (listens s) (sockets s).
Definition set_srv_started b s : Server :=
  MkServer (loop_ s) (name_ s) (threadPool_ s) (callbacks s) b (nextConnId_ s) (connections_ s) (conns s)
    (queues s) (cur s) (listens s) (sockets s).
Definition set_nextConnId n s : Server :=
  MkServer (loop_ s) (name_ s) (threadPool_ s) (callbacks s) (srv_started s) n (connections_ s) (conns s)
    (queues s) (cur s) (listens s) (sockets s).
Definition set_connections m s : Server :=
  MkServer (loop_ s) (name_ s) (threadPool_ s) (callbacks s) (srv_started s) (nextConnId_ s) m (conns s)
    (queues s) (cur s) (listens s) (sockets s).
Definition set_conns l s : Server :=
  MkServer (loop_ s) (name_ s) (threadPool_ s) (callbacks s) (srv_started s) (nextConnId_ s) (connections_ s) l
    (queues s) (cur s) (listens s) (sockets s).
Definition set_queues q s : Server :=
  MkServer (loop_ s) (name_ s) (threadPool_ s) (callbacks s) (srv_started s) (nextConnId_ s) (connections_ s)
    (conns s) q (cur s) (listens s) (sockets s).
Definition set_cur l s : Server :=
  MkServer (loop_ s) (name_ s) (threadPool_ s) (callbacks s) (srv_started s) (nextConnId_ s) (connections_ s)
    (conns s) (queues s) l (listens s) (sockets s).
Definition count_listen s : Server :=
  MkServer (loop_ s) (name_ s) (threadPool_ s) (callbacks s) (srv_started s) (nextConnId_ s) (connections_ s)
    (conns s) (queues s) (cur s) (S (listens s)) (sockets s).
Definition set_sockets w s : Server :=
  MkServer (loop_ s) (name_ s) (threadPool_ s) (callbacks s) (srv_started s) (nextConnId_ s) (connections_ s)
    (conns s) (queues s) (cur s) (listens s) w.

Definition queue_of (l : ptr) s : list sfunctor := default [] (queues s !! l).
Definition put_queue (l : ptr) q s : Server := set_queues (<[l := q]> (queues s)) s.
Definition update_conn (c : nat) (f : Conn → Conn) s : Server :=
  set_conns (alter f c (conns s)) s.

Section server.
(** The loops of the io threads, as in EventLoopThreadPool.v. *)
Context `{!Os} (startLoop : nat → ptr).

Definition on_pool {A} (m : M Pool A) : M Server A := zoom threadPool_ set_pool m.
Definition on_sockets {A} (m : M SockWorld A) : M Server A := zoom sockets set_sockets m.
Definition is_cur (l : ptr) s : bool := bool_decide (cur s = l).

(** [loop_->assertInLoopThread()] *)
Definition assertInLoopThread (l : ptr) : M Server unit :=
  b ← gets (is_cur l); require AbortFatal b.

Definition queueInLoop (l : ptr) (f : sfunctor) : M Server unit :=
  modify (λ s, put_queue l (queue_of l s ++ [f]) s).

Definition removeConnectionInLoop (c : nat) : M Server unit :=
  loop ← gets loop_;
  assertInLoopThread loop ;;
  conn ← deref (λ s, conns s !! c);
  modify (λ s, set_connections (delete (conn_name conn) (connections_ s)) s) ;;
  queueInLoop (conn_loop conn) (ConnectDestroyed c).

(** A functor, run in the current thread. *)
Definition run_functor (f : sfunctor) : M Server unit :=
  match f with
  | Listen => modify count_listen
  | ConnectEstablished c =>
      conn ← deref (λ s, conns s !! c);
      assertInLoopThread (conn_loop conn) ;;
      modify (update_conn c (set_phase Connected))
  | RemoveConnectionInLoop c => removeConnectionInLoop c
  | ConnectDestroyed c =>
      conn ← deref (λ s, conns s !! c);
      assertInLoopThread (conn_loop conn) ;;
      modify (update_conn c (set_phase Destroyed))
  end.

Definition runInLoop (l : ptr) (f : sfunctor) : M Server unit :=
  b ← gets (is_cur l);
  if (b : bool) then run_functor f else queueInLoop l f.

Definition setThreadNum (numThreads : Z) : M Server unit :=
  on_pool (EventLoopThreadPool.setThreadNum numThreads).

(** The callbacks for the connections to come. *)
Definition setConnectionCallback (cb : callback) : M Server unit :=
  modify (set_callbacks (λ k, MkCallbacks cb (messageCallback_ k) (writeCompleteCallback_ k))).
Definition setMessageCallback (cb : callback) : M Server unit :=
  modify (set_callbacks (λ k, MkCallbacks (connectionCallback_ k) cb (writeCompleteCallback_ k))).
Definition setWriteCompleteCallback (cb : callback) : M Server unit :=
  modify (set_callbacks (λ k, MkCallbacks (connectionCallback_ k) (messageCallback_ k) cb)).

Definition start : M Server unit :=
  started ← gets srv_started;
  when (negb started)
    (modify (set_srv_started true) ;;
     loop ← gets loop_;
     in_base ← gets (λ s, is_cur (baseLoop_ (threadPool_ s)) s);
     on_pool (EventLoopThreadPool.start startLoop in_base false) ;;
     runInLoop loop Listen).

(** [localAddressOf] *)
Definition localAddressOf (sockfd : Z) : M SockWorld InetAddress :=
  tr ← gets trace;
  r ← do_call (SysGetsockname sockfd);
  match r with
  | IoOk _ => mret (setSockAddr (stored_addr tr (SysGetsockname sockfd)) (new_InetAddress 0 false))
  | IoErr _ =>
      log_error "getsockname failed" ;; mret (setSockAddr zero_sockaddr (new_InetAddress 0 false))
  end.

Definition newConnection (sockfd : Z) (peerAddr : InetAddress) : M Server unit :=
  loop ← gets loop_;
  assertInLoopThread loop ;;
  name ← gets name_;
  id ← gets nextConnId_;
  next ← lift_outcome (i32 (id + 1));
  modify (set_nextConnId next) ;;
  let connName := name +:+ "-" +:+ pretty id in
  localAddr ← on_sockets (localAddressOf sockfd);
  in_base ← gets (λ s, is_cur (baseLoop_ (threadPool_ s)) s);
  ioLoop ← on_pool (getNextLoop in_base);
  on_sockets (setKeepAlive sockfd true) ;;
  conn ← gets (λ s, length (conns s));
  modify (λ s, set_conns (conns s ++
    [MkConn connName ioLoop sockfd localAddr peerAddr no_callbacks Connecting]) s) ;;
  modify (λ s, set_connections (<[connName := conn]> (connections_ s)) s) ;;
  modify (λ s, update_conn conn (set_conn_callbacks (callbacks s)) s) ;;
  runInLoop ioLoop (ConnectEstablished conn).

Definition removeConnection (c : nat) : M Server unit :=
  loop ← gets loop_;
  runInLoop loop (RemoveConnectionInLoop c).

(** The constructor. *)
Definition new_TcpServer (loop : ptr) (name : string) : Server :=
  MkServer loop name (new_Pool loop name) (MkCallbacks NoOp NoOp NoOp) false 1 ∅ [] ∅ loop 0 (MkSockWorld [] []).

(** ** What happens to a server *)

Inductive srv_event : Type :=
| SetThreadNum (n : Z)
| SetConnectionCallback (cb : callback)
| SetMessageCallback (cb : callback)
| SetWriteCompleteCallback (cb : callback)
| Start
| Accept (sockfd : Z) (peerAddr : InetAddress)  (* the acceptor's callback *)
| CloseConn (c : nat)       (* [handleClose] calls the close callback *)
| RunLoop (l : ptr).        (* a loop runs its oldest functor *)

Definition run_srv_event (ev : srv_event) : M Server unit :=
  match ev with
  | SetThreadNum n => modify (λ s, set_cur (loop_ s) s) ;; setThreadNum n
  | SetConnectionCallback cb => setConnectionCallback cb
  | SetMessageCallback cb => setMessageCallback cb
  | SetWriteCompleteCallback cb => setWriteCompleteCallback cb
  | Start => modify (λ s, set_cur (loop_ s) s) ;; start
  | Accept sockfd peerAddr =>
      modify (λ s, set_cur (loop_ s) s) ;; newConnection sockfd peerAddr
  | CloseConn c =>
      conn ← deref (λ s, conns s !! c);
      modify (set_cur (conn_loop conn)) ;;
      modify (update_conn c (set_phase Closed)) ;;
      removeConnection c
  | RunLoop l =>
      modify (set_cur l) ;;
      q ← gets (queue_of l);
      match q with
      | [] => mret tt
      | f :: q' => modify (put_queue l q') ;; run_functor f
      end
  end.

(** What may happen: connections come before the identifiers run out; a
    connection is closed once, while it is established. *)
Definition srv_event_ok (ev : srv_event) s : Prop :=
  match ev with
  | SetThreadNum n => 0 ≤ n < 2 ^ 31
  | Accept _ _ => nextConnId_ s < 2 ^ 31 - 1
  | CloseConn c => ∃ conn, conns s !! c = Some conn ∧ conn_phase conn = Connected
  | SetConnectionCallback _ | SetMessageCallback _ | SetWriteCompleteCallback _
  | Start | RunLoop _ => True
  end.

Definition srv_step s s' : Prop :=
  ∃ ev, srv_event_ok ev s ∧ run_srv_event ev s = Ok (tt, s').
End server.
