(* ===== verification/TcpServerProps.v ===== *)
(** * The properties of the server (src/net/TcpServer.cc)

    The invariant that ties the phase of every connection to the server's map
    and to the functors that wait in the loops, and what it means. *)
From S2P Require Import Prelude Posix Channel InetAddress Sockets EventLoopThreadPool TcpServer.
Open Scope string_scope.
Open Scope list_scope.
Open Scope Z_scope.

(** The connection a functor is for. *)
Definition about (f : sfunctor) : option nat :=
  match f with
  | Listen => None
  | ConnectEstablished c | RemoveConnectionInLoop c | ConnectDestroyed c => Some c
  end.

(** Somebody holds a [shared_ptr] to the connection: the map or a functor. *)
Definition held (c : nat) (s : Server) : Prop :=
  (∃ n, connections_ s !! n = Some c) ∨ ∃ l f, f ∈ queue_of l s ∧ about f = Some c.

Definition connName (name : string) (id : Z) : string := name +:+ "-" +:+ pretty id.

Lemma connName_inj name i j : connName name i = connName name j → i = j.
Proof. unfold connName. intros H%(inj (String.append name)). injection H. apply (inj pretty). Qed.

(** Taking the facts about connections apart. *)
Ltac conn_facts :=
  repeat match goal with
  | H : ∃ _, _ |- _ => destruct H
  | H : _ ∧ _ |- _ => destruct H
  | H1 : conns ?s !! ?c = Some ?x, H2 : conns ?s !! ?c = Some ?y |- _ =>
      assert (x = y) by congruence; clear H2; subst
  end; try congruence; try done.

Section proofs.
Context `{!Os} (startLoop : nat → ptr).
Implicit Types (s : Server) (conn : Conn) (c : nat) (l : ptr) (f : sfunctor).

(** The server knows the connection by its name. *)
Definition mapped c conn s : Prop := connections_ s !! conn_name conn = Some c.

(** Where a functor may wait. *)
Definition functor_ok l f s : Prop :=
  match f with
  | Listen => False
  | ConnectEstablished c =>
      ∃ conn, conns s !! c = Some conn ∧ conn_phase conn = Connecting ∧ l = conn_loop conn
  | RemoveConnectionInLoop c =>
      ∃ conn, conns s !! c = Some conn ∧ conn_phase conn = Closed ∧ l = loop_ s ∧ mapped c conn s
  | ConnectDestroyed c =>
      ∃ conn, conns s !! c = Some conn ∧ conn_phase conn = Closed ∧ l = conn_loop conn ∧
        ¬ mapped c conn s
  end.

(** What the server and the loops hold of a connection in each phase. *)
Definition phase_ok c conn s : Prop :=
  match conn_phase conn with
  | Connecting => mapped c conn s ∧ ConnectEstablished c ∈ queue_of (conn_loop conn) s
  | Connected => mapped c conn s
  | Closed =>
      mapped c conn s ∧ RemoveConnectionInLoop c ∈ queue_of (loop_ s) s ∨
      ¬ mapped c conn s ∧ ConnectDestroyed c ∈ queue_of (conn_loop conn) s
  | Destroyed => ¬ mapped c conn s
  end.

(** The invariant, except for what is held of the connection [x], for which
    no functor waits. *)
Record inv_but (x : option nat) s : Prop := {
  si_pool : pool_ok startLoop (threadPool_ s);
  si_base : baseLoop_ (threadPool_ s) = loop_ s;
  si_started : started_ (threadPool_ s) = srv_started s;
  si_next : nextConnId_ s = 1 + zlen (conns s);
  si_bound : nextConnId_ s ≤ 2 ^ 31 - 1;
  si_names c conn : conns s !! c = Some conn → conn_name conn = connName (name_ s) (1 + Z.of_nat c);
  si_map n c : connections_ s !! n = Some c → ∃ conn, conns s !! c = Some conn ∧ conn_name conn = n;
  si_nodup l : NoDup (queue_of l s);
  si_queued l f : f ∈ queue_of l s → functor_ok l f s;
  si_none c l f : x = Some c → f ∈ queue_of l s → about f ≠ Some c;
  si_phase c conn : x ≠ Some c → conns s !! c = Some conn → phase_ok c conn s;
}.
Abbreviation server_inv := (inv_but None).

(** ** Queues *)

Lemma queue_of_put l l' q s :
  queue_of l' (put_queue l q s) = if decide (l' = l) then q else queue_of l' s.
Proof.
  unfold queue_of, put_queue, set_queues. cbn. rewrite lookup_insert.
  repeat case_decide; congruence || done.
Qed.

Definition push l f s : Server := put_queue l (queue_of l s ++ [f]) s.

Lemma elem_push l f l' f' s :
  f' ∈ queue_of l' (push l f s) ↔ f' ∈ queue_of l' s ∨ l' = l ∧ f' = f.
Proof.
  unfold push. rewrite queue_of_put. case_decide; [subst|naive_solver].
  rewrite elem_of_app, list_elem_of_singleton. naive_solver.
Qed.

Lemma NoDup_push l f s :
  (∀ l', NoDup (queue_of l' s)) → f ∉ queue_of l s → ∀ l', NoDup (queue_of l' (push l f s)).
Proof.
  intros Hnd Hf l'. unfold push. rewrite queue_of_put. case_decide; [subst|done].
  apply NoDup_app. split_and!; [done| |apply NoDup_singleton].
  intros f' Hf' ->%list_elem_of_singleton. done.
Qed.

(** At most one functor waits for a connection. *)
Lemma unique_functor x s l l' f f' c :
  inv_but x s → f ∈ queue_of l s → f' ∈ queue_of l' s → about f = Some c → about f' = Some c →
  f' = f ∧ l' = l.
Proof.
  intros Hinv Hf%(si_queued _ _ Hinv) Hf'%(si_queued _ _ Hinv) Ha Ha'.
  destruct f; inversion Ha; subst; destruct f'; inversion Ha'; subst; cbn in *; conn_facts;
    split; congruence.
Qed.

(** ** How the invariant is taken apart and put together *)

Lemma pop_inv s l f q c :
  server_inv s → queue_of l s = f :: q → about f = Some c → inv_but (Some c) (put_queue l q s).
Proof.
  intros Hinv Hq Hf.
  assert (∀ l' f', f' ∈ queue_of l' (put_queue l q s) ↔
    f' ∈ queue_of l' s ∧ (f' ≠ f ∨ l' ≠ l)) as Hin.
  { intros l' f'. rewrite queue_of_put. case_decide as Hl; [subst|naive_solver].
    pose proof (si_nodup _ _ Hinv l) as Hnd. rewrite Hq in *.
    apply NoDup_cons in Hnd as [Hnot _]. rewrite elem_of_cons. naive_solver. }
  pose proof Hinv as [? ? ? ? ? ? ? Hnd Hqd Hnone Hph]. split; try done.
  - intros l'. rewrite queue_of_put. case_decide; [|done]. specialize (Hnd l). rewrite Hq in Hnd.
    by apply NoDup_cons in Hnd as [_ ?].
  - intros l' f' [Hf' _]%Hin. by apply Hqd in Hf'.
  - intros c' l' f' [= <-] [Hf' Hne]%Hin Habout.
    destruct (unique_functor None s l l' f f' c) as [-> ->]; try done; [|naive_solver].
    rewrite Hq. apply list_elem_of_here.
  - intros c' conn Hc' Hconn. specialize (Hph c' conn ltac:(done) Hconn).
    unfold phase_ok in *. change (loop_ (put_queue l q s)) with (loop_ s).
    change (mapped c' conn (put_queue l q s)) with (mapped c' conn s).
    assert (∀ f', about f' = Some c' → f' ≠ f) as Hne by (intros f' Ha ->; congruence).
    destruct (conn_phase conn); rewrite ?Hin; try done; naive_solver.
Qed.

Lemma connected_inv s c conn :
  server_inv s → conns s !! c = Some conn → conn_phase conn = Connected → inv_but (Some c) s.
Proof.
  intros Hinv Hc Hph. pose proof Hinv as []. split; try done; [|auto].
  intros c' l f [= <-] Hf%(si_queued _ _ Hinv) Ha.
  destruct f; inversion Ha; subst; cbn in Hf; conn_facts.
Qed.

Lemma lookup_update c g c' s :
  conns (update_conn c g s) !! c' = if decide (c' = c) then g <$> conns s !! c' else conns s !! c'.
Proof.
  unfold update_conn. cbn. rewrite list_lookup_alter.
  repeat case_decide; subst; done.
Qed.

Lemma functor_ok_other l f s s' c :
  about f ≠ Some c → loop_ s' = loop_ s →
  (∀ c', c' ≠ c → conns s' !! c' = conns s !! c') →
  (∀ c' conn, c' ≠ c → conns s !! c' = Some conn → mapped c' conn s' ↔ mapped c' conn s) →
  functor_ok l f s → functor_ok l f s'.
Proof.
  intros Ha Hloop Hconns Hmap. destruct f as [|c'|c'|c']; cbn in *; [done|..];
    (assert (c' ≠ c) by congruence); rewrite Hconns, ?Hloop by done; naive_solver.
Qed.

(** Anything may happen to the connection that is left out. *)
Lemma change_inv c s s' :
  inv_but (Some c) s → threadPool_ s' = threadPool_ s → loop_ s' = loop_ s → name_ s' = name_ s →
  srv_started s' = srv_started s → nextConnId_ s' = nextConnId_ s → queues s' = queues s →
  length (conns s') = length (conns s) →
  (∀ c', c' ≠ c → conns s' !! c' = conns s !! c') →
  (∀ conn, conns s' !! c = Some conn → conn_name conn = connName (name_ s) (1 + Z.of_nat c)) →
  (∀ c' conn, c' ≠ c → conns s !! c' = Some conn → mapped c' conn s' ↔ mapped c' conn s) →
  (∀ n c', connections_ s' !! n = Some c' → ∃ conn, conns s' !! c' = Some conn ∧ conn_name conn = n) →
  inv_but (Some c) s'.
Proof.
  intros [? ? ? ? ? Hnames Hmap Hnd Hqd Hnone Hph] Hpool Hloop Hname Hst Hnext Hqs Hlen Hconns Hcn
    Hm Hmap'.
  assert (∀ l, queue_of l s' = queue_of l s) as Hq by (intros l; unfold queue_of; by rewrite Hqs).
  split; rewrite ?Hpool, ?Hloop, ?Hname, ?Hst, ?Hnext, ?Hlen; try done.
  - intros c' conn. destruct (decide (c' = c)) as [->|Hne]; [apply Hcn|].
    rewrite Hconns by done. apply Hnames.
  - intros l. rewrite Hq. done.
  - intros l f. rewrite Hq. intros Hf. eapply functor_ok_other; try done; [by eapply Hnone|auto].
  - intros c' l f Hc'. rewrite Hq. by apply Hnone.
  - intros c' conn Hc' Hconn. assert (c' ≠ c) by congruence. rewrite Hconns in Hconn by done.
    specialize (Hph c' conn Hc' Hconn). unfold phase_ok in *. specialize (Hm c' conn ltac:(done) Hconn).
    destruct (conn_phase conn); rewrite ?Hloop, ?Hq; tauto.
Qed.

Lemma set_phase_inv c ph s :
  inv_but (Some c) s → inv_but (Some c) (update_conn c (set_phase ph) s).
Proof.
  intros Hinv. apply (change_inv c s); try done.
  - unfold update_conn. cbn. by rewrite length_alter.
  - intros c' Hne. rewrite lookup_update. by case_decide.
  - intros conn. rewrite lookup_update, decide_True by done.
    intros (conn0 & Hc & ->)%fmap_Some. by apply (si_names _ _ Hinv) in Hc.
  - intros n c' Hn. apply (si_map _ _ Hinv) in Hn as (conn & Hc & Hn).
    rewrite lookup_update. case_decide; [rewrite Hc; cbn|]; eauto.
Qed.

Lemma names_differ x s c c' conn conn' :
  inv_but x s → conns s !! c = Some conn → conns s !! c' = Some conn' →
  conn_name conn = conn_name conn' → c = c'.
Proof.
  intros Hinv Hc Hc' Hn. rewrite (si_names _ _ Hinv _ _ Hc), (si_names _ _ Hinv _ _ Hc') in Hn.
  apply connName_inj in Hn. lia.
Qed.

Lemma unmap_inv c conn s :
  inv_but (Some c) s → conns s !! c = Some conn →
  inv_but (Some c) (set_connections (delete (conn_name conn) (connections_ s)) s).
Proof.
  intros Hinv Hc. apply (change_inv c s); try done.
  - intros conn'. by apply (si_names _ _ Hinv).
  - intros c' conn' Hne Hc'. unfold mapped. cbn. rewrite lookup_delete_ne; [done|].
    intros Hn. by apply Hne, (names_differ (Some c) s c' c conn' conn).
  - intros n c'. cbn. rewrite lookup_delete_Some. intros [_ Hn]. by apply (si_map _ _ Hinv).
Qed.

Lemma finish c conn s :
  inv_but (Some c) s → conns s !! c = Some conn → phase_ok c conn s → server_inv s.
Proof.
  intros [? ? ? ? ? ? ? ? ? ? Hph] Hc Hok. split; try done.
  intros c' conn' _ Hc'. destruct (decide (c' = c)) as [->|]; [|apply Hph; congruence].
  congruence.
Qed.

Lemma finish_push c conn l f s :
  inv_but (Some c) s → conns s !! c = Some conn → about f = Some c → functor_ok l f s →
  phase_ok c conn (push l f s) → server_inv (push l f s).
Proof.
  intros [? ? ? ? ? ? ? Hnd Hqd Hnone Hph] Hc Ha Hf Hok. split; try done.
  - apply NoDup_push; [done|]. intros Hin. by apply (Hnone c l f).
  - intros l' f' [Hin|[-> ->]]%elem_push; [|done]. by apply Hqd in Hin.
  - intros c' conn' _ Hc'. destruct (decide (c' = c)) as [->|Hne].
    { change (conns s !! c = Some conn') in Hc'. by assert (conn' = conn) as -> by congruence. }
    specialize (Hph c' conn' ltac:(congruence) Hc'). unfold phase_ok in *.
    change (loop_ (push l f s)) with (loop_ s).
    change (mapped c' conn' (push l f s)) with (mapped c' conn' s).
    destruct (conn_phase conn'); rewrite ?elem_push; tauto.
Qed.

(** ** The operations *)

Lemma set_cur_inv x l s : inv_but x s → inv_but x (set_cur l s).
Proof. intros []. by split. Qed.

Lemma set_callbacks_inv x (g : Callbacks → Callbacks) s : inv_but x s → inv_but x (set_callbacks g s).
Proof. intros []. by split. Qed.

Lemma is_cur_true l s : cur s = l → is_cur l s = true.
Proof. intros. by apply bool_decide_eq_true. Qed.

Lemma wp_assertInLoopThread l Q s : cur s = l → Q tt s → wp (assertInLoopThread l) Q s.
Proof. intros Hl HQ. unfold assertInLoopThread. wp_steps; [by apply is_cur_true|done]. Qed.

Lemma wp_removeConnectionInLoop c conn s :
  inv_but (Some c) s → conns s !! c = Some conn → conn_phase conn = Closed → cur s = loop_ s →
  wp (removeConnectionInLoop c) (λ _ s', server_inv s') s.
Proof.
  intros Hinv Hc Hph Hcur. unfold removeConnectionInLoop, queueInLoop. wp_step. wp_step. wp_step.
  apply wp_assertInLoopThread; [done|]. wp_step. eapply wp_deref; [exact Hc|]. wp_steps.
  pose proof (unmap_inv c conn s Hinv Hc) as Hinv1. set (s1 := set_connections _ s) in *.
  assert (¬ mapped c conn s1) as Hm by (unfold mapped, s1; cbn; by rewrite lookup_delete_eq).
  apply (finish_push c conn); [done|exact Hc|done|by exists conn|].
  unfold phase_ok. rewrite Hph. right. split; [exact Hm|]. apply elem_push. by right.
Qed.

Lemma wp_run_srv_functor f q l s :
  server_inv s → queue_of l s = f :: q → cur s = l →
  wp (run_functor f) (λ _ s', server_inv s') (put_queue l q s).
Proof.
  intros Hinv Hq Hcur.
  assert (f ∈ queue_of l s) as Hin by (rewrite Hq; apply list_elem_of_here).
  pose proof (si_queued _ _ Hinv l f Hin) as Hok.
  destruct f as [|c|c|c]; [done|..]; pose proof (pop_inv _ _ _ _ c Hinv Hq eq_refl) as Hpop;
    cbn [functor_ok run_functor] in *.
  - destruct Hok as (conn & Hc & Hph & Hl). wp_step. eapply wp_deref; [exact Hc|]. wp_step.
    apply wp_assertInLoopThread; [by rewrite <-Hl|]. wp_step.
    pose proof (si_phase _ _ Hinv c conn ltac:(done) Hc) as Hok. unfold phase_ok in Hok.
    rewrite Hph in Hok. destruct Hok as [Hm _].
    apply (finish c (set_phase Connected conn)); [by apply set_phase_inv| |exact Hm].
    rewrite lookup_update, decide_True by done. cbn. by rewrite Hc.
  - destruct Hok as (conn & Hc & Hph & Hl & _).
    apply (wp_removeConnectionInLoop c conn); [done|exact Hc|done|]. cbn. congruence.
  - destruct Hok as (conn & Hc & Hph & Hl & ?). wp_step. eapply wp_deref; [exact Hc|]. wp_step.
    apply wp_assertInLoopThread; [by rewrite <-Hl|]. wp_step.
    apply (finish c (set_phase Destroyed conn)); [by apply set_phase_inv| |].
    + rewrite lookup_update, decide_True by done. cbn. by rewrite Hc.
    + unfold phase_ok. cbn. done.
Qed.

Lemma wp_close_conn c conn s :
  server_inv s → conns s !! c = Some conn → conn_phase conn = Connected →
  wp (run_srv_event startLoop (CloseConn c)) (λ _ s', server_inv s') s.
Proof.
  intros Hinv Hc Hph. cbn [run_srv_event]. wp_step. eapply wp_deref; [exact Hc|].
  wp_step. wp_step. wp_step. wp_step.
  pose proof (si_phase _ _ Hinv c conn ltac:(done) Hc) as Hm. unfold phase_ok in Hm.
  rewrite Hph in Hm.
  pose proof (set_phase_inv c Closed _ (set_cur_inv _ (conn_loop conn) _
    (connected_inv s c conn Hinv Hc Hph))) as Hinv1.
  set (s1 := update_conn c _ _) in *.
  assert (conns s1 !! c = Some (set_phase Closed conn)) as Hc1.
  { unfold s1. rewrite lookup_update, decide_True by done. cbn. by rewrite Hc. }
  unfold removeConnection, runInLoop, queueInLoop. do 4 wp_step. apply wp_if; intros Hb.
  - cbn [run_functor]. eapply wp_removeConnectionInLoop; [done|exact Hc1|done|].
    by apply bool_decide_eq_true in Hb.
  - wp_step. apply (finish_push c (set_phase Closed conn)); [done|exact Hc1|done| |].
    + by exists (set_phase Closed conn).
    + unfold phase_ok. cbn [conn_phase set_phase]. left. split; [exact Hm|].
      apply elem_push. by right.
Qed.

(** ** Starting *)

Lemma pool_inv x p s :
  inv_but x s → pool_ok startLoop p → baseLoop_ p = loop_ s → started_ p = srv_started s →
  inv_but x (set_pool p s).
Proof. intros [] ? ? ?. by split. Qed.

Lemma wp_srv_start s :
  server_inv s → cur s = loop_ s →
  wp (start startLoop) (λ _ s', server_inv s' ∧ srv_started s' = true ∧
    listens s' = if srv_started s then listens s else S (listens s)) s.
Proof.
  intros Hinv Hcur. unfold start. wp_step. wp_step. apply wp_when.
  2:{ intros ->%negb_false_iff. done. }
  intros Hst%negb_true_iff. rewrite Hst. unfold on_pool. do 8 wp_step.
  rewrite is_cur_true by (cbn; by rewrite Hcur, (si_base _ _ Hinv)).
  wp_apply (wp_pool_start startLoop true eq_refl false (threadPool_ s));
    [apply (si_pool _ _ Hinv)|by rewrite (si_started _ _ Hinv)|].
  intros [] p' (Hok & Hstp & Hbase & _ & _ & _). cbn. unfold runInLoop. do 2 wp_step.
  rewrite is_cur_true by done. cbn [run_functor]. wp_step. split_and!; [|done|done].
  destruct Hinv. split; try done. cbn. congruence.
Qed.

(** ** A new connection *)

Lemma fresh_name s : server_inv s → connections_ s !! connName (name_ s) (nextConnId_ s) = None.
Proof.
  intros Hinv. destruct (connections_ s !! _) as [c|] eqn:Hn; [|done]. exfalso.
  apply (si_map _ _ Hinv) in Hn as (conn & Hc & Hn).
  rewrite (si_names _ _ Hinv _ _ Hc), (si_next _ _ Hinv) in Hn. apply connName_inj in Hn.
  apply lookup_lt_Some in Hc. lia.
Qed.

(** The state in which the connection is known to the server, and its
    [connectEstablished] is about to be handed to its loop. *)
Definition registered_conn (p : Pool) (w : SockWorld) conn s : Server :=
  MkServer (loop_ s) (name_ s) p (callbacks s) (srv_started s) (nextConnId_ s + 1)
    (<[conn_name conn := length (conns s)]> (connections_ s)) (conns s ++ [conn]) (queues s)
    (cur s) (listens s) w.

Lemma add_inv p w conn s :
  server_inv s → nextConnId_ s < 2 ^ 31 - 1 →
  conn_name conn = connName (name_ s) (nextConnId_ s) →
  pool_ok startLoop p → baseLoop_ p = loop_ s → started_ p = srv_started s →
  inv_but (Some (length (conns s))) (registered_conn p w conn s).
Proof.
  intros Hinv Hbound Hname ? ? ?. pose proof Hinv as [? ? ? Hnext ? Hnames Hmap Hnd Hqd _ Hph].
  assert (∀ c', c' ≠ length (conns s) → (conns s ++ [conn]) !! c' = conns s !! c') as Hold.
  { intros c' Hne. destruct (conns s !! c') eqn:Hc'; [by apply lookup_app_l_Some|].
    apply lookup_ge_None in Hc'. apply lookup_ge_None. rewrite length_app. simpl. lia. }
  assert ((conns s ++ [conn]) !! length (conns s) = Some conn) as Hnew
    by (rewrite lookup_app_r, Nat.sub_diag by lia; done).
  assert (∀ l f, f ∈ queue_of l s → about f ≠ Some (length (conns s))) as Hnone.
  { intros l f Hf%Hqd Ha. destruct f; inversion Ha; subst; cbn in Hf;
      destruct Hf as (conn' & Hc' & _); apply lookup_lt_Some in Hc'; lia. }
  assert (∀ c' conn', c' ≠ length (conns s) → conns s !! c' = Some conn' →
    mapped c' conn' (registered_conn p w conn s) ↔ mapped c' conn' s) as Hm.
  { intros c' conn' Hne Hc'. unfold mapped. cbn. rewrite lookup_insert_ne; [done|].
    rewrite Hname, (Hnames _ _ Hc'). intros Heq%connName_inj.
    apply lookup_lt_Some in Hc'. lia. }
  split; cbn; try done.
  - rewrite length_app. simpl. lia.
  - lia.
  - intros c' conn'. destruct (decide (c' = length (conns s))) as [->|Hne].
    + rewrite Hnew. intros [= <-]. rewrite Hname. f_equal. lia.
    + rewrite Hold by done. apply Hnames.
  - intros n c'. rewrite lookup_insert_Some. intros [[<- <-]|[_ Hn]]; [by exists conn|].
    apply Hmap in Hn as (conn' & Hc' & <-). exists conn'. split; [|done].
    by apply lookup_app_l_Some.
  - intros l f Hf. eapply (functor_ok_other _ _ s _ (length (conns s))); try done;
      [by eapply Hnone|auto].
  - intros c' l f [= <-] Hf. by eapply Hnone.
  - intros c' conn' Hne Hc'. assert (c' ≠ length (conns s)) as Hne' by congruence.
    rewrite Hold in Hc' by done. specialize (Hph c' conn' ltac:(done) Hc').
    specialize (Hm c' conn' Hne' Hc'). unfold phase_ok in *. cbn.
    change (queue_of ?l (registered_conn p w conn s)) with (queue_of l s).
    destruct (conn_phase conn'); tauto.
Qed.

Lemma wp_localAddressOf fd w : wp (localAddressOf fd) (λ _ _, True) w.
Proof.
  unfold localAddressOf, log_error. do 3 wp_step. apply wp_do_call.
  destruct (result _ _); by wp_steps.
Qed.

Lemma wp_setKeepAlive fd w : wp (setKeepAlive fd true) (λ _ _, True) w.
Proof.
  unfold setKeepAlive, setSocketOption, log_error. wp_step. apply wp_do_call.
  destruct (result _ _); by wp_step.
Qed.

(** What [newConnection] makes of the server: [ioLoop] is the pool's choice. *)
Definition connection_added (fd : Z) (peer : InetAddress) s s' : Prop :=
  ∃ ioLoop p' localAddr,
    let name := connName (name_ s) (nextConnId_ s) in
    let here := bool_decide (ioLoop = loop_ s) in
    getNextLoop true (threadPool_ s) = Ok (ioLoop, p') ∧ threadPool_ s' = p' ∧
    connections_ s !! name = None ∧
    connections_ s' = <[name := length (conns s)]> (connections_ s) ∧
    conns s' = conns s ++
      [MkConn name ioLoop fd localAddr peer (callbacks s) (if here then Connected else Connecting)] ∧
    (∀ l, queue_of l s' = queue_of l s ++
      if decide (l = ioLoop ∧ here = false) then [ConnectEstablished (length (conns s))] else []).

Lemma wp_newConnection fd peer s :
  server_inv s → cur s = loop_ s → nextConnId_ s < 2 ^ 31 - 1 →
  wp (newConnection fd peer) (λ _ s', server_inv s' ∧ nextConnId_ s' = nextConnId_ s + 1 ∧
    connection_added fd peer s s') s.
Proof.
  intros Hinv Hcur Hbound. pose proof (si_next _ _ Hinv) as Hnext.
  unfold newConnection. do 3 wp_step. apply wp_assertInLoopThread; [done|].
  do 5 wp_step. eapply wp_lift_outcome; [apply i32_ok; lia|]. do 2 wp_step.
  unfold on_sockets, on_pool. do 2 wp_step. wp_apply wp_localAddressOf. intros local w _.
  do 4 wp_step. rewrite is_cur_true by (cbn; by rewrite Hcur, (si_base _ _ Hinv)).
  pose proof (wp_getNextLoop startLoop true eq_refl (threadPool_ s) (si_pool _ _ Hinv)) as Hpool.
  apply wp_run in Hpool as (ioLoop & p' & Hget & Hok' & _ & Hbase' & Hst' & _).
  eapply wp_of_run; [exact Hget|]. do 2 wp_step. wp_apply wp_setKeepAlive. intros [] w' _.
  do 8 wp_step. cbn [conns set_conns set_connections set_sockets set_pool set_nextConnId].
  set (c := length (conns s)).
  set (conn := MkConn (connName (name_ s) (nextConnId_ s)) ioLoop fd local peer (callbacks s) Connecting).
  assert (inv_but (Some c) (registered_conn p' w' conn s)) as Hinv1.
  { apply add_inv; try done; [by rewrite Hbase', (si_base _ _ Hinv)|].
    by rewrite Hst', (si_started _ _ Hinv). }
  set (s1 := registered_conn p' w' conn s) in *.
  assert (conns s1 !! c = Some conn) as Hc1.
  { unfold s1, c. cbn. by rewrite lookup_app_r, Nat.sub_diag by lia. }
  assert (mapped c conn s1) as Hm1 by (unfold mapped, s1; cbn; apply lookup_insert_eq).
  match goal with |- wp _ _ ?s2 => assert (s2 = s1) as ->
    by (unfold s1, registered_conn, update_conn, set_conns, set_conn_callbacks; cbn;
        by rewrite alter_app_r_alt, Nat.sub_diag by done) end.
  unfold runInLoop, queueInLoop. do 2 wp_step. apply wp_if; intros Hb.
  - cbn [run_functor]. wp_step. eapply wp_deref; [exact Hc1|]. wp_step.
    apply bool_decide_eq_true in Hb. apply wp_assertInLoopThread; [done|]. wp_step.
    split_and!; [|done|].
    + apply (finish c (set_phase Connected conn)); [by apply set_phase_inv| |exact Hm1].
      rewrite lookup_update, decide_True by done. by rewrite Hc1.
    + exists ioLoop, p', local. cbn. rewrite bool_decide_eq_true_2 by (rewrite <-Hb; exact Hcur).
      split_and!; [done|done|by apply fresh_name|done| |].
      * unfold c. by rewrite alter_app_r_alt, Nat.sub_diag by lia.
      * intros l. rewrite decide_False by (intros [_ ?]; done). by rewrite app_nil_r.
  - wp_step. apply bool_decide_eq_false in Hb. split_and!; [|done|].
    + apply (finish_push c conn); [done|exact Hc1|done|by exists conn|].
      unfold phase_ok. cbn. split; [exact Hm1|]. apply elem_push. by right.
    + exists ioLoop, p', local. cbn.
      rewrite bool_decide_eq_false_2 by (intros Heq; apply Hb; rewrite Heq; exact Hcur).
      split_and!; [done|done|by apply fresh_name|done|done|].
      intros l. transitivity (queue_of l (push ioLoop (ConnectEstablished c) s1)); [done|].
      unfold push. rewrite queue_of_put.
      assert (∀ l', queue_of l' s1 = queue_of l' s) as Hq by done. rewrite !Hq.
      repeat case_decide; subst; rewrite ?app_nil_r; tauto || done.
Qed.

(** ** All events *)

Lemma wp_run_srv_event ev s :
  server_inv s → srv_event_ok ev s →
  wp (run_srv_event startLoop ev) (λ _ s', server_inv s') s.
Proof.
  intros Hinv Hok. destruct ev as [n|cb|cb|cb| |fd peer|c|l]; cbn [run_srv_event srv_event_ok] in *;
    try (by apply wp_modify, set_callbacks_inv).
  - wp_step. wp_step. unfold setThreadNum, on_pool. wp_step.
    wp_apply (wp_setThreadNum startLoop n (threadPool_ s)); [apply (si_pool _ _ Hinv)|done|].
    intros [] p' [Hp' ->]. destruct Hinv. by split.
  - wp_step. wp_step. wp_apply (wp_srv_start (set_cur (loop_ s) s)); [by apply set_cur_inv|done|].
    intros [] s' [? _]. done.
  - wp_step. wp_step. wp_apply (wp_newConnection fd peer (set_cur (loop_ s) s));
      [by apply set_cur_inv|done|done|]. intros [] s' [? _]. done.
  - destruct Hok as (conn & Hc & Hph). exact (wp_close_conn c conn s Hinv Hc Hph).
  - do 4 wp_step. destruct (queue_of l (set_cur l s)) as [|f q] eqn:Hq;
      [by wp_step; apply set_cur_inv|]. do 2 wp_step.
    apply (wp_run_srv_functor f q l (set_cur l s)); [by apply set_cur_inv|done|done].
Qed.

Lemma new_TcpServer_inv loop name : server_inv (new_TcpServer loop name).
Proof.
  split; cbn; try done.
  - apply new_Pool_ok.
  - intros l. constructor.
  - intros l f []%not_elem_of_nil.
Qed.

Definition srv_reachable s : Prop :=
  ∃ loop name, rtc (srv_step startLoop) (new_TcpServer loop name) s.

Lemma srv_reachable_inv s : srv_reachable s → server_inv s.
Proof.
  intros (loop & name & Hsteps). eapply rtc_invariant; [|apply new_TcpServer_inv|exact Hsteps].
  intros s1 s2 Hinv (ev & Hok & Hrun). pose proof (wp_run_srv_event ev s1 Hinv Hok) as Hwp.
  unfold wp in Hwp. by rewrite Hrun in Hwp.
Qed.
End proofs.

(** ** Properties *)

Section properties.
Context `{!Os} (startLoop : nat → ptr).
Implicit Types (s : Server) (conn : Conn) (c : nat) (l : ptr) (f : sfunctor).

(** C15 (invariant). However acceptances, closings, and the functors of all
    loops follow each other, every step succeeds, so nothing runs in a
    thread it must not run in; at any time a connection is in the map under
    its own name until its removal, at most one functor waits for it, namely
    the one its phase needs, in the loop that may run it; when no functor
    waits, every connection is established and in the map, or destroyed and
    held by nobody. Starting again does not listen again. *)
Theorem server_lifecycle s :
  srv_reachable startLoop s →
  (∀ ev, srv_event_ok ev s → ∃ s', run_srv_event startLoop ev s = Ok (tt, s')) ∧
  (∀ c conn, conns s !! c = Some conn → phase_ok c conn s) ∧
  (∀ c l l' f f', f ∈ queue_of l s → f' ∈ queue_of l' s → about f = Some c → about f' = Some c →
     f' = f ∧ l' = l) ∧
  ((∀ l, queue_of l s = []) → ∀ c conn, conns s !! c = Some conn →
     conn_phase conn = Connected ∧ connections_ s !! conn_name conn = Some c ∨
     conn_phase conn = Destroyed ∧ ¬ held c s) ∧
  ∃ s', run_srv_event startLoop Start s = Ok (tt, s') ∧ srv_started s' = true ∧
    listens s' = if srv_started s then listens s else S (listens s).
Proof.
  intros Hinv%srv_reachable_inv. split_and!.
  - intros ev Hok. pose proof (wp_run_srv_event startLoop ev s Hinv Hok) as Hwp.
    apply wp_run in Hwp as ([] & s' & ? & _). eauto.
  - intros c conn. by apply (si_phase _ _ _ Hinv).
  - intros c l l' f f'. by apply (unique_functor startLoop None).
  - intros Hempty c conn Hc. pose proof (si_phase _ _ _ Hinv c conn ltac:(done) Hc) as Hph.
    unfold phase_ok in Hph. rewrite !Hempty in Hph.
    destruct (conn_phase conn); [by destruct Hph as [_ []%not_elem_of_nil]|by left| |right].
    { by destruct Hph as [[_ []%not_elem_of_nil]|[_ []%not_elem_of_nil]]. }
    split; [done|]. intros [[n Hn]|(l & f & Hf & _)].
    + pose proof Hn as Hn'. apply (si_map _ _ _ Hinv) in Hn as (conn' & Hc' & <-).
      apply Hph. unfold mapped. by assert (conn' = conn) as <- by congruence.
    + rewrite Hempty in Hf. by apply not_elem_of_nil in Hf.
  - assert (wp (run_srv_event startLoop Start) (λ _ s', srv_started s' = true ∧
      listens s' = if srv_started s then listens s else S (listens s)) s) as Hwp.
    { cbn [run_srv_event]. wp_step. wp_step.
      wp_apply (wp_srv_start startLoop (set_cur (loop_ s) s)); [by apply set_cur_inv|done|].
      intros [] s' (_ & ? & ?). done. }
    apply wp_run in Hwp as ([] & s' & ? & ?). eauto.
Qed.

(** C24 (functional). [newConnection] gives the connection a name that no
    connection, present or past, has; puts it under this name into the map,
    replacing nothing; gives it the callbacks that the server has now; assigns it the pool's next loop; and hands
    [connectEstablished] to this loop, at once when it is the base loop and
    as its last functor otherwise. The 2^31-1st connection overflows the
    signed counter. *)
Theorem newConnection_registers fd peer s :
  srv_reachable startLoop s →
  (∀ c c' conn conn', conns s !! c = Some conn → conns s !! c' = Some conn' →
     conn_name conn = conn_name conn' → c = c') ∧
  (nextConnId_ s < 2 ^ 31 - 1 →
     ∃ s', run_srv_event startLoop (Accept fd peer) s = Ok (tt, s') ∧
       connection_added fd peer s s' ∧
       ∀ c conn, conns s !! c = Some conn → conn_name conn ≠ connName (name_ s) (nextConnId_ s)) ∧
  (nextConnId_ s = 2 ^ 31 - 1 →
     run_srv_event startLoop (Accept fd peer) s = Fault UndefinedBehaviour).
Proof.
  intros Hinv%srv_reachable_inv. split_and!.
  - intros c c' conn conn'. by apply (names_differ startLoop None).
  - intros Hbound.
    assert (wp (run_srv_event startLoop (Accept fd peer)) (λ _ s', connection_added fd peer s s') s)
      as Hwp.
    { cbn [run_srv_event]. wp_step. wp_step.
      wp_apply (wp_newConnection startLoop fd peer (set_cur (loop_ s) s));
        [by apply set_cur_inv|done|done|]. intros [] s' (_ & _ & Hadd). exact Hadd. }
    apply wp_run in Hwp as ([] & s' & Hrun & Hadd). exists s'. split_and!; [done..|].
    intros c conn Hc Hn. rewrite (si_names _ _ _ Hinv _ _ Hc) in Hn. apply connName_inj in Hn.
    apply lookup_lt_Some in Hc. rewrite (si_next _ _ _ Hinv) in Hn. lia.
  - intros Hmax. cbn [run_srv_event]. erewrite run_bind_ok by done. unfold newConnection.
    do 2 erewrite run_bind_ok by (done || (unfold assertInLoopThread, require, is_cur;
      erewrite run_bind_ok by done; cbn; by rewrite bool_decide_eq_true_2)).
    do 2 erewrite run_bind_ok by done. apply run_bind_fault. cbn. by rewrite Hmax.
Qed.

End properties.

(** ** A concrete server

    Two io loops, 100 and 101; a connection is accepted, established, closed
    and destroyed; a second one stays open. *)
#[export] Instance demo_os : Os := {|
  result tr c := IoOk 0;
  stored_addr tr c := MkSockaddr AF_INET (htons 8080) (htonl INADDR_LOOPBACK);
  strerror errno := pretty errno;
|}.

Definition demo_loop (i : nat) : ptr := 100 + Z.of_nat i.
Definition demo_peer : InetAddress := new_InetAddress 4000 true.
Definition demo_server : Server := new_TcpServer 1 "echo".

Definition srv_event_okb (ev : srv_event) (s : Server) : bool :=
  match ev with
  | SetThreadNum n => bool_decide (0 ≤ n < 2 ^ 31)
  | Accept _ _ => nextConnId_ s <? 2 ^ 31 - 1
  | CloseConn c =>
      match conns s !! c with
      | Some conn => bool_decide (conn_phase conn = Connected)
      | None => false
      end
  | SetConnectionCallback _ | SetMessageCallback _ | SetWriteCompleteCallback _
  | Start | RunLoop _ => true
  end.

Lemma srv_event_okb_ok ev s : srv_event_okb ev s = true → srv_event_ok ev s.
Proof.
  destruct ev; cbn; try done.
  - by intros ?%bool_decide_eq_true.
  - by intros ?%Z.ltb_lt.
  - destruct (_ !! _); [|done]. intros ?%bool_decide_eq_true. eauto.
Qed.

Definition srv_exec (s : Server) (ev : srv_event) : Server :=
  match run_srv_event demo_loop ev s with Ok (_, s') => s' | Fault _ => s end.
Fixpoint srv_events_okb (evs : list srv_event) (s : Server) : bool :=
  match evs with
  | [] => true
  | ev :: evs' => srv_event_okb ev s && srv_events_okb evs' (srv_exec s ev)
  end.

Lemma srv_steps evs s :
  inv_but demo_loop None s → srv_events_okb evs s = true →
  rtc (srv_step demo_loop) s (foldl srv_exec s evs).
Proof.
  revert s. induction evs as [|ev evs IH]; intros s Hinv Hok; cbn [foldl]; [done|].
  cbn [srv_events_okb] in Hok. apply andb_true_iff in Hok as [Hev%srv_event_okb_ok Hok].
  pose proof (wp_run_srv_event demo_loop ev s Hinv Hev) as Hwp.
  apply wp_run in Hwp as ([] & s' & Hrun & Hinv').
  assert (srv_exec s ev = s') as Heq by (unfold srv_exec; by rewrite Hrun).
  rewrite Heq in *. eapply rtc_l; [|by apply IH]. by exists ev.
Qed.

Definition demo_srv_events : list srv_event :=
  [SetThreadNum 2; SetMessageCallback (UserFunction 7); Start; Accept 9 demo_peer; RunLoop 100; CloseConn 0; RunLoop 1; RunLoop 100;
   Accept 9 demo_peer; RunLoop 101].
Definition demo_srv : Server := foldl srv_exec demo_server demo_srv_events.

Lemma demo_srv_reachable : srv_reachable demo_loop demo_srv.
Proof.
  exists 1, "echo". apply srv_steps; [apply new_TcpServer_inv|]. vm_compute. reflexivity.
Qed.

Example demo_srv_conns :
  (λ conn, (conn_name conn, conn_loop conn, conn_phase conn)) <$> conns demo_srv =
    [("echo-1", 100, Destroyed); ("echo-2", 101, Connected)].
Proof. vm_compute. reflexivity. Qed.
Example demo_srv_map : map_to_list (connections_ demo_srv) = [("echo-2", 1%nat)].
Proof. vm_compute. reflexivity. Qed.

Lemma server_lifecycle_witness :
  (∀ ev, srv_event_ok ev demo_srv → ∃ s', run_srv_event demo_loop ev demo_srv = Ok (tt, s')) ∧
  (∀ c conn, conns demo_srv !! c = Some conn → phase_ok c conn demo_srv) ∧
  (∀ c l l' f f', f ∈ queue_of l demo_srv → f' ∈ queue_of l' demo_srv → about f = Some c →
     about f' = Some c → f' = f ∧ l' = l) ∧
  ((∀ l, queue_of l demo_srv = []) → ∀ c conn, conns demo_srv !! c = Some conn →
     conn_phase conn = Connected ∧ connections_ demo_srv !! conn_name conn = Some c ∨
     conn_phase conn = Destroyed ∧ ¬ held c demo_srv) ∧
  ∃ s', run_srv_event demo_loop Start demo_srv = Ok (tt, s') ∧ srv_started s' = true ∧
    listens s' = if srv_started demo_srv then listens demo_srv else S (listens demo_srv).
Proof. exact (server_lifecycle demo_loop demo_srv demo_srv_reachable). Defined.

Lemma newConnection_registers_witness :
  (∀ c c' conn conn', conns demo_srv !! c = Some conn → conns demo_srv !! c' = Some conn' →
     conn_name conn = conn_name conn' → c = c') ∧
  (nextConnId_ demo_srv < 2 ^ 31 - 1 →
     ∃ s', run_srv_event demo_loop (Accept 12 demo_peer) demo_srv = Ok (tt, s') ∧
       connection_added 12 demo_peer demo_srv s' ∧
       ∀ c conn, conns demo_srv !! c = Some conn →
         conn_name conn ≠ connName (name_ demo_srv) (nextConnId_ demo_srv)) ∧
  (nextConnId_ demo_srv = 2 ^ 31 - 1 →
     run_srv_event demo_loop (Accept 12 demo_peer) demo_srv = Fault UndefinedBehaviour).
Proof. exact (newConnection_registers demo_loop 12 demo_peer demo_srv demo_srv_reachable). Defined.
