(* ===== verification/Programs.v ===== *)
(** * The example servers (examples/echo_server.cc, examples/discard_server.cc)

    [main] of the two programs on the server of TcpServer.v, and which of the
    callbacks of Echo.v the connections get. *)
From S2P Require Import Prelude Posix Channel InetAddress Sockets EventLoopThreadPool.
From S2P Require Import TcpServer TcpServerProps.
From S2P Require TcpConnection TcpConnectionSpec Echo.
Open Scope string_scope.
Open Scope list_scope.
Open Scope Z_scope.

(** ** The programs *)

(** The functions of a program: the connection callback has the number 0, the
    message callback the number 1; what they call on the connection, given the
    content of the input buffer. *)
Definition functions : Type := nat → bytes → list TcpConnection.user_call.
Definition echo_functions : functions :=
  λ n, match n with 1%nat => Echo.echo_message | _ => λ _, [] end.
Definition discard_functions : functions :=
  λ n, match n with 1%nat => Echo.discard_message | _ => λ _, [] end.

Definition callback_body (fns : functions) (cb : callback) : bytes → list TcpConnection.user_call :=
  match cb with UserFunction n => fns n | EmptyCallback | NoOp => λ _, [] end.

(** Which callbacks of a connection are set; the close callback always is. *)
Definition is_set (cb : callback) : bool := bool_decide (cb ≠ EmptyCallback).
Definition callbacks_set (cbs : Callbacks) : TcpConnection.CallbacksSet :=
  TcpConnection.MkCallbacksSet (is_set (connectionCallback_ cbs)) (is_set (messageCallback_ cbs))
    true (is_set (writeCompleteCallback_ cbs)).

Section programs.
Context `{!Os} (startLoop : nat → ptr).
Implicit Types (s : Server) (conn : Conn) (c : nat) (l : ptr) (f : sfunctor).

(** [main] up to [loop.loop()]; the two programs differ in the name, the port
    and the message callback. *)
Definition server_main : M Server unit :=
  setThreadNum 3 ;;
  setConnectionCallback (UserFunction 0) ;;
  setMessageCallback (UserFunction 1) ;;
  start startLoop.
Definition echo_server (loop : ptr) : outcome (unit * Server) :=
  server_main (new_TcpServer loop "EchoServer").
Definition discard_server (loop : ptr) : outcome (unit * Server) :=
  server_main (new_TcpServer loop "DiscardServer").

(** From then on the loops run. *)
Definition loops_event (ev : srv_event) : Prop :=
  match ev with Accept _ _ | CloseConn _ | RunLoop _ => True | _ => False end.
Definition loops_step s s' : Prop :=
  ∃ ev, loops_event ev ∧ srv_event_ok ev s ∧ run_srv_event startLoop ev s = Ok (tt, s').

(** ** What the steps keep *)

Definition main_callbacks : Callbacks := MkCallbacks (UserFunction 0) (UserFunction 1) NoOp.
Definition binding conn : Callbacks * ptr := (conn_callbacks conn, conn_loop conn).

Record kept s s' : Prop := {
  kp_pool : threadPool_ s' = threadPool_ s;
  kp_callbacks : callbacks s' = callbacks s;
  kp_listens : listens s' = listens s;
  kp_conns : binding <$> conns s' = binding <$> conns s;
}.
#[local] Instance kept_preorder : PreOrder kept.
Proof. split; [by split|]. intros s1 s2 s3 [] []. split; congruence. Qed.

Lemma kept_phase c ph s : kept s (update_conn c (set_phase ph) s).
Proof.
  split; try done. apply list_eq. intros i. rewrite !list_lookup_fmap, lookup_update.
  case_decide; [|done]. by destruct (conns s !! i).
Qed.

Lemma wlp_removeConnectionInLoop c s : wlp (removeConnectionInLoop c) (λ _, kept s) s.
Proof. unfold removeConnectionInLoop, assertInLoopThread, queueInLoop. wlp_steps. by split. Qed.

Lemma wlp_srv_functor f s : f ≠ Listen → wlp (run_functor f) (λ _, kept s) s.
Proof.
  intros Hf. destruct f; cbn [run_functor]; [done| |apply wlp_removeConnectionInLoop|];
    unfold assertInLoopThread; wlp_steps; apply kept_phase.
Qed.

Lemma wlp_close_conn c s : wlp (run_srv_event startLoop (CloseConn c)) (λ _, kept s) s.
Proof.
  cbn [run_srv_event]. unfold removeConnection, runInLoop, queueInLoop. wlp_run.
  match goal with |- wlp _ _ ?x => set (s1 := x) end.
  assert (kept s s1) as Hs1 by (unfold s1; etrans; [|apply kept_phase]; by split).
  wlp_run. apply wlp_if; intros _.
  - eapply wlp_mono; [by apply wlp_srv_functor|]. intros [] s' ?. by etrans.
  - wlp_step. etrans; [exact Hs1|]. by split.
Qed.

Lemma wlp_run_loop l s :
  (∀ l', Listen ∉ queue_of l' s) → wlp (run_srv_event startLoop (RunLoop l)) (λ _, kept s) s.
Proof.
  intros Hno. cbn [run_srv_event]. wlp_run.
  destruct (queue_of l (set_cur l s)) as [|f q] eqn:Hq; [by wlp_step; split|]. wlp_step. wlp_step.
  eapply wlp_mono; [apply wlp_srv_functor|].
  - intros ->. apply (Hno l). change (queue_of l s) with (queue_of l (set_cur l s)). rewrite Hq.
    apply list_elem_of_here.
  - intros [] s' ?. etrans; [|done]. by split.
Qed.

Lemma wlp_newConnection fd peer s :
  wlp (newConnection fd peer)
    (λ _ s', callbacks s' = callbacks s ∧ listens s' = listens s) s.
Proof.
  unfold newConnection, assertInLoopThread, on_sockets, on_pool, runInLoop, queueInLoop. wlp_run.
  apply wlp_if; intros _; [|by wlp_step].
  match goal with |- wlp _ _ ?x => set (s1 := x) end.
  eapply wlp_mono; [by apply wlp_srv_functor|]. intros [] s' [_ Hcb Hl _]. by rewrite Hcb, Hl.
Qed.

(** ** The invariant of the programs *)

(** The c-th connection is on the loop of thread [c mod 3]. *)
Record program_inv s : Prop := {
  pi_inv : inv_but startLoop None s;
  pi_callbacks : callbacks s = main_callbacks;
  pi_listens : listens s = 1%nat;
  pi_loops : loops_ (threadPool_ s) = startLoop <$> seq 0 3;
  pi_next : next_ (threadPool_ s) = zlen (conns s) `mod` 3;
  pi_conns c b : (binding <$> conns s) !! c = Some b → b = (main_callbacks, startLoop (c mod 3)%nat);
}.

Lemma kept_inv s s' : program_inv s → kept s s' → inv_but startLoop None s' → program_inv s'.
Proof.
  intros [_ Hcb Hl Hlp Hn Hc] [Hp Hcb' Hl' Hb] Hinv.
  split; rewrite ?Hp, ?Hcb', ?Hl', ?Hb; try done.
  by rewrite <-(length_fmap binding), Hb, length_fmap.
Qed.

Lemma next_of_three (p p' : Pool) loop :
  pool_ok startLoop p → loops_ p = startLoop <$> seq 0 3 → getNextLoop true p = Ok (loop, p') →
  loops_ p' = loops_ p ∧ loop = startLoop (Z.to_nat (next_ p)) ∧
  next_ p' = (next_ p + 1) `mod` 3.
Proof.
  intros Hok Hl Hrun. pose proof (wp_getNextLoop startLoop true eq_refl p Hok) as Hwp.
  unfold wp in Hwp. rewrite Hrun in Hwp. destruct Hwp as (_ & Hl' & _ & _ & _ & Hne).
  destruct Hne as [Hloop Hnext]; [by rewrite Hl|]. split_and!; [done| |by rewrite Hnext, Hl].
  rewrite Hl, list_lookup_fmap in Hloop. apply fmap_Some in Hloop as (i & Hi & ->).
  by apply lookup_seq in Hi as [-> _].
Qed.

Lemma program_accept fd peer s s' :
  program_inv s → srv_event_ok (Accept fd peer) s →
  run_srv_event startLoop (Accept fd peer) s = Ok (tt, s') → program_inv s'.
Proof.
  intros [Hinv Hcb Hl Hlp Hn Hc] Hok Hrun. cbn [run_srv_event srv_event_ok] in Hok.
  assert (inv_but startLoop None s' ∧ connection_added fd peer (set_cur (loop_ s) s) s' ∧
    callbacks s' = callbacks s ∧ listens s' = listens s)
    as (Hinv' & (loop & p' & local & Hget & Hp & _ & _ & Hconns & _) & Hcb' & Hl').
  { pose proof (wp_wlp _ _ _ _ (wp_newConnection startLoop fd peer (set_cur (loop_ s) s)
      (set_cur_inv _ _ _ _ Hinv) eq_refl Hok) (wlp_newConnection fd peer (set_cur (loop_ s) s))) as Hwp.
    cbn [run_srv_event] in Hrun. erewrite run_bind_ok in Hrun by done.
    unfold wp in Hwp. rewrite Hrun in Hwp. destruct Hwp as ((? & _ & ?) & ? & ?). done. }
  destruct (next_of_three _ p' loop (si_pool _ _ _ Hinv) Hlp Hget) as (Hlp' & -> & Hn').
  cbn in Hn', Hconns. rewrite Hn in Hn', Hconns.
  split; [done|by rewrite Hcb'|by rewrite Hl'|by rewrite Hp, Hlp'| |].
  - rewrite Hp, Hn', Hconns, length_app, Zplus_mod_idemp_l. f_equal. simpl. lia.
  - intros c b. rewrite Hconns, fmap_app. intros [Hb|[Hlen Hb]]%lookup_app_Some; [by apply Hc|].
    rewrite length_fmap in *. apply list_lookup_singleton_Some in Hb as [Hz <-].
    assert (c = length (conns s)) as -> by lia. unfold binding. cbn.
    rewrite Hcb. f_equal. f_equal. change 3 with (Z.of_nat 3). by rewrite <-Nat2Z.inj_mod, Nat2Z.id.
Qed.

Lemma loops_step_inv s s' : program_inv s → loops_step s s' → program_inv s'.
Proof.
  intros Hs (ev & Hev & Hok & Hrun). pose proof (pi_inv _ Hs) as Hinv.
  pose proof (wp_run_srv_event startLoop ev s Hinv Hok) as Hwp. unfold wp in Hwp.
  rewrite Hrun in Hwp. destruct ev as [| | | | |fd peer|c|l]; try done.
  - by eapply program_accept.
  - eapply kept_inv; [done|by apply (wlp_close_conn c s tt s')|done].
  - assert (∀ l', Listen ∉ queue_of l' s) as Hno
      by (intros l' Hl; by apply (si_queued _ _ _ Hinv) in Hl).
    eapply kept_inv; [done|by apply (wlp_run_loop l s Hno tt s')|done].
Qed.

Lemma wp_server_main loop name : wp server_main (λ _ s, program_inv s) (new_TcpServer loop name).
Proof.
  assert (pool_ok startLoop (new_Pool loop name)) as Hpool by apply new_Pool_ok.
  unfold server_main, setThreadNum, on_pool. wp_step. wp_step.
  wp_apply (wp_setThreadNum startLoop 3 (new_Pool loop name)); [done|done|].
  intros [] p1 [Hok1 ->]. unfold setConnectionCallback, setMessageCallback. do 4 wp_step.
  match goal with |- wp _ _ ?x => set (s1 := x) end.
  assert (inv_but startLoop None s1) as Hinv1.
  { pose proof (new_TcpServer_inv startLoop loop name) as [? ? ? ? ? ? ? ? ? ? ?]. by split. }
  unfold start. do 2 wp_step. cbn [srv_started s1 set_callbacks set_pool new_TcpServer negb when].
  unfold on_pool. do 8 wp_step. rewrite is_cur_true by done.
  wp_apply (wp_pool_start startLoop true eq_refl false (set_numThreads 3 (new_Pool loop name)));
    [done|done|].
  intros [] p2 (Hok2 & Hst & Hbase & Hloops & Hnext & _). cbn. unfold runInLoop. do 2 wp_step.
  rewrite is_cur_true by done. cbn [run_functor]. wp_step.
  split; cbn; [|done|done|by rewrite Hloops|by rewrite Hnext|done].
  destruct Hinv1. by split.
Qed.

Lemma program_reachable loop name s0 s :
  server_main (new_TcpServer loop name) = Ok (tt, s0) → rtc loops_step s0 s → program_inv s.
Proof.
  intros Hmain. apply rtc_invariant; [apply loops_step_inv|].
  pose proof (wp_server_main loop name) as Hwp. unfold wp in Hwp. by rewrite Hmain in Hwp.
Qed.

Lemma program_connection s c conn :
  program_inv s → conns s !! c = Some conn →
  conn_callbacks conn = main_callbacks ∧ conn_loop conn = startLoop (c mod 3)%nat.
Proof.
  intros Hs Hc. assert ((binding <$> conns s) !! c = Some (binding conn)) as Hb
    by by rewrite list_lookup_fmap, Hc.
  apply (pi_conns _ Hs) in Hb. by injection Hb.
Qed.

(** C14 (functional). The echo server from end to end: its set-up succeeds;
    from then on, whatever connections come and go, it listens exactly once,
    the c-th connection is served by the loop of thread [c mod 3], with all
    callbacks set; and whatever happens on such a connection, over any poller
    and kernel, what it sends is what it has received, or a prefix of it. *)
Theorem echo_server_connections loop :
  ∃ s0, echo_server loop = Ok (tt, s0) ∧ ∀ s c conn,
    rtc loops_step s0 s → conns s !! c = Some conn →
    listens s = 1%nat ∧ conn_loop conn = startLoop (c mod 3)%nat ∧
    callbacks_set (conn_callbacks conn) = Echo.app_callbacks ∧
    ∀ P CB `{!Poller P CB, !PollerSpec P CB, !Bound TcpConnection.handler CB,
          !BoundSpec TcpConnection.handler CB, !Echo.SockKernel, !Echo.SockKernelSpec}
      (w : TcpConnection.ConnW P),
      Echo.app_reachable (callback_body echo_functions (messageCallback_ (conn_callbacks conn))) w →
      (TcpConnectionSpec.wire (TcpConnection.socket_events w) ++ TcpConnectionSpec.out w)
        `prefix_of` TcpConnectionSpec.received (TcpConnection.socket_events w).
Proof.
  pose proof (wp_server_main loop "EchoServer") as Hwp. apply wp_run in Hwp as ([] & s0 & Hrun & _).
  exists s0. split; [done|]. intros s c conn Hsteps Hc.
  pose proof (program_reachable _ _ _ _ Hrun Hsteps) as Hs.
  destruct (program_connection s c conn Hs Hc) as [-> Hloop].
  split_and!; [apply (pi_listens _ Hs)|done|done|].
  intros P CB ? ? ? ? ? ? w [Hconn Happ]%Echo.echo_reachable_inv.
  pose proof (TcpConnectionSpec.ci_core _ Hconn) as Hcore.
  rewrite (TcpConnectionSpec.co_stream _ Hcore), (TcpConnectionSpec.co_received _ Hcore),
    (Echo.ai_input _ _ Happ), app_nil_r. apply (Echo.ai_acc _ _ Happ).
Qed.
End programs.

(** The fourth connection of the echo server is on the first loop again. *)
Example echo_server_fourth :
  match echo_server demo_loop 1 with
  | Ok (_, s) =>
      conn_loop <$> conns (foldl srv_exec s (replicate 4 (Accept 9 demo_peer)))
  | Fault _ => []
  end = [100; 101; 102; 100].
Proof. vm_compute. reflexivity. Qed.

Definition echo_started : Server :=
  match echo_server demo_loop 1 with Ok (_, s) => s | Fault _ => demo_server end.
Definition echo_accepted : Server := srv_exec echo_started (Accept 9 demo_peer).

Lemma echo_accepted_reachable : rtc (loops_step demo_loop) echo_started echo_accepted.
Proof.
  apply rtc_once. exists (Accept 9 demo_peer). split_and!; [exact I|vm_compute; reflexivity|].
  vm_compute. reflexivity.
Qed.

Lemma echo_server_connections_witness :
  ∃ conn, conns echo_accepted !! 0%nat = Some conn ∧ conn_loop conn = 100 ∧
    listens echo_accepted = 1%nat.
Proof.
  destruct (echo_server_connections demo_loop 1) as (s0 & Hrun & Hall).
  assert (echo_server demo_loop 1 = Ok (tt, echo_started)) as Hs by (vm_compute; reflexivity).
  assert (s0 = echo_started) as -> by congruence.
  destruct (conns echo_accepted !! 0%nat) as [conn|] eqn:Hc.
  - destruct (Hall echo_accepted 0%nat conn echo_accepted_reachable Hc) as (Hl & Hloop & _).
    exact (ex_intro _ conn (conj eq_refl (conj Hloop Hl))).
  - exfalso. vm_compute in Hc. discriminate Hc.
Defined.
