(* ===== verification/Cluster.v ===== *)
(** * Cluster: the whole server (src/net/TcpServer.cc and the loops it uses)

    The server of TcpServer.v together with its base loop and its io loops, each
    a loop of Reactor.v with its connections; the acceptor is on the base loop,
    and the removals are functors in its queue. Steps that two of the parts
    take together are one step here: [newConnection] makes the entry in the server's
    map and the connection in its loop; the close callback that a connection
    calls is the server's [removeConnection]; [connectEstablished] and
    [connectDestroyed], which a loop runs, are the server's functors. *)
From S2P Require Import Prelude Posix Channel EPollPoller.
From S2P Require TimerQueue.
From S2P Require Import InetAddress Sockets EventLoopThreadPool.
From S2P Require TcpServer Programs.
From S2P Require Import TcpConnection ConnectionFrame Reactor ReactorSpec.

Section cluster.
Context {K TCB : Type} `{!Epoll K, !Descriptors K}.
Abbreviation PW := (PollWorld K loop_callback).
Context `{!ConnEnv PW, !TimerQueue.TimerEnv TCB, !Os}.
Abbreviation RX := (Reactor (K:=K) (TCB:=TCB)).
Abbreviation Server := TcpServer.Server.

(** The loops of the io threads, as in EventLoopThreadPool.v; the addresses of a
    loop's own channels, [timerQueue_->timerfdChannel_] and [wakeupChannel_]. *)
Context (startLoop : nat → ptr) (own_channels : ptr → ptr * ptr).

(** [cl_ids] tells which connection of the server is at an address of a loop;
    [cl_addresses] where a connection was put. Every loop has the part of the
    kernel's state that concerns its descriptors. *)
Record Cluster : Type := MkCluster {
  cl_server : Server;
  cl_loops : gmap ptr RX;
  cl_ids : gmap (ptr * ptr) nat;
  cl_addresses : list ptr;
}.
Implicit Types w : Cluster.

Definition set_cl_server srv w : Cluster :=
  MkCluster srv (cl_loops w) (cl_ids w) (cl_addresses w).
Definition put_loop (l : ptr) (s : RX) w : Cluster :=
  MkCluster (cl_server w) (<[l := s]> (cl_loops w)) (cl_ids w) (cl_addresses w).
Definition register (l p : ptr) (c : nat) w : Cluster :=
  MkCluster (cl_server w) (cl_loops w) (<[(l, p) := c]> (cl_ids w)) (cl_addresses w ++ [p]).
Definition forget (l p : ptr) w : Cluster :=
  MkCluster (cl_server w) (cl_loops w) (delete (l, p) (cl_ids w)) (cl_addresses w).

Definition base w : ptr := TcpServer.loop_ (cl_server w).
Definition loop_at (l : ptr) w : option RX := cl_loops w !! l.

Definition on_server (ev : TcpServer.srv_event) : M Cluster unit :=
  zoom cl_server set_cl_server (TcpServer.run_srv_event startLoop ev).
Definition on_loop {A} (l : ptr) (m : M RX A) : M Cluster A :=
  s ← deref (loop_at l);
  '(a, s') ← lift_outcome (m s);
  modify (put_loop l s') ;;
  mret a.

(** ** Construction *)

(** [main]: the base loop, then the server, whose constructor makes the
    acceptor; [start] starts the threads, each of which constructs its loop,
    and then listens. *)
Definition construct_loop (kernel_of : ptr → K) (l : ptr) : outcome RX :=
  new_EventLoop l (own_channels l).1 (own_channels l).2 (kernel_of l).

Definition start_cluster (base acceptChannel : ptr) (name : string) (numThreads : Z)
    (kernel_of : ptr → K) : outcome Cluster :=
  loop ← construct_loop kernel_of base;
  '(_, withAcceptor) ← new_acceptor base acceptChannel loop;
  '(_, srv) ← (TcpServer.run_srv_event startLoop (TcpServer.SetThreadNum numThreads) ;;
    TcpServer.run_srv_event startLoop TcpServer.Start) (TcpServer.new_TcpServer base name);
  let ls := loops_ (TcpServer.threadPool_ srv) in
  rs ← mapM (construct_loop kernel_of) ls;
  '(_, listening) ← listen_acceptor withAcceptor;
  mret (MkCluster srv (<[base := listening]> (list_to_map (zip ls rs))) ∅ []).

(** ** Connections come and go *)

(** [TcpServer::newConnection] *)
Definition newConnection (peer : InetAddress) (p : ptr) (fd : Z) : M Cluster unit :=
  c ← gets (λ w, length (TcpServer.conns (cl_server w)));
  on_server (TcpServer.Accept fd peer) ;;
  conn ← deref (λ w, TcpServer.conns (cl_server w) !! c);
  let ioLoop := TcpServer.conn_loop conn in
  loop ← gets base;
  modify (register ioLoop p c) ;;
  on_loop ioLoop (hand_over (bool_decide (ioLoop = loop)) ioLoop p fd
    (Programs.callbacks_set (TcpServer.conn_callbacks conn))).

(** The acceptor calls it with what [accept] returns; the descriptor belongs to
    the io loop, the one that the pool chooses next. *)
Definition accept (peer : InetAddress) (p : ptr) : M Cluster unit :=
  pool ← gets (λ w, TcpServer.threadPool_ (cl_server w));
  '(ioLoop, _) ← lift_outcome (getNextLoop true pool);
  fd ← on_loop ioLoop accept_connection;
  match fd with
  | Some fd => newConnection peer p fd
  | None => mret tt
  end.

(** The connection at [p] in the loop [l] calls its close callback,
    [TcpServer::removeConnection]; when [l] is the base loop,
    [removeConnectionInLoop] runs at once, else it waits in the base loop's
    queue. The callback is the last thing that [handleClose] does, and a
    closed connection queues nothing. *)
Definition connection_closed (l p : ptr) : M Cluster unit :=
  c ← deref (λ w, cl_ids w !! (l, p));
  on_server (TcpServer.CloseConn c) ;;
  loop ← gets base;
  if bool_decide (l = loop) then on_loop l (remove_connection true p) else on_loop loop queue_removal.

(** The base loop runs its oldest functor for the server. *)
Definition run_removal : M Cluster unit :=
  loop ← gets base;
  q ← gets (λ w, TcpServer.queue_of loop (cl_server w));
  match q with
  | TcpServer.RemoveConnectionInLoop c :: _ =>
      on_server (TcpServer.RunLoop loop) ;;
      conn ← deref (λ w, TcpServer.conns (cl_server w) !! c);
      p ← deref (λ w, cl_addresses w !! c);
      on_loop (TcpServer.conn_loop conn) (remove_connection false p)
  | _ => raise UndefinedBehaviour
  end.

(** ** The loops *)

Definition closes_at (p : ptr) (s : RX) : nat :=
  match rx_conns s !! p with Some c => closes (upcalls c) | None => 0 end.

Definition reads_of (s : RX) : nat :=
  match rx_acceptor s with Some a => ac_reads a | None => 0 end.

(** One step of the thread of the loop [l], with what it calls of the server:
    the acceptor's callback, which is all that its channel has to do, the close
    callback, and the functors of the server. [peer] and [p] are the other end
    and the address of the connection that may be accepted. *)
Definition loop_round (l : ptr) (epoll_wait : Z → io_result (list epoll_event))
    (peer : InetAddress) (p : ptr) : M Cluster unit :=
  s ← deref (loop_at l);
  on_loop l (loop_step epoll_wait) ;;
  s' ← deref (loop_at l);
  match rx_phase s with
  | Handling (q :: _) =>
      if (reads_of s <? reads_of s')%nat then accept peer p
      else when (closes_at q s <? closes_at q s')%nat (connection_closed l q)
  | Running (OfServer :: _) => run_removal
  | Running (o :: _) =>
      match next_functor o s with
      | Some (_, ConnectEstablished) | Some (_, ConnectDestroyed) => on_server (TcpServer.RunLoop l)
      | _ => mret tt
      end
  | _ => mret tt
  end.

(** ** All events *)

Inductive cluster_event : Type :=
| LoopRound (l : ptr) (epoll_wait : Z → io_result (list epoll_event)) (peer : InetAddress) (p : ptr)
| CallOn (l : ptr) (here : bool) (p : ptr) (c : user_call)
| CallTimersOf (l : ptr) (in_loop : bool) (c : TimerQueue.command TCB)
| ReleaseLast (l p : ptr)
| Configure (ev : TcpServer.srv_event).

Definition run_cluster_event (ev : cluster_event) : M Cluster unit :=
  match ev with
  | LoopRound l epoll_wait peer p => loop_round l epoll_wait peer p
  | CallOn l here p c => on_loop l (run_loop_event (CallConnection here p c))
  | CallTimersOf l b c => on_loop l (run_loop_event (CallTimers b c))
  | ReleaseLast l p => on_loop l (run_loop_event (ReleaseConnection p)) ;; modify (forget l p)
  | Configure ev => on_server ev
  end.
End cluster.
