(* ===== verification/ServerSteps.v ===== *)
(** * What the steps of the server compute (src/net/TcpServer.cc)

    The state after each step of TcpServer.v, for its composition with the
    loops (Cluster.v). *)
From S2P Require Import Prelude Posix Channel InetAddress Sockets EventLoopThreadPool.
From S2P Require Import TcpServer TcpServerProps.

Section steps.
Context `{!Os} (startLoop : nat → ptr).
Implicit Types (s : Server) (conn : Conn) (c : nat) (l : ptr) (f : sfunctor).
Abbreviation server_inv := (inv_but startLoop None).
Abbreviation run ev := (run_srv_event startLoop ev).

Lemma queued_head s l f q : queue_of l s = f :: q → f ∈ queue_of l s.
Proof. intros ->. apply list_elem_of_here. Qed.

(** A loop runs the functor that establishes or destroys a connection. *)
Definition functor_phase f : option phase :=
  match f with
  | ConnectEstablished _ => Some Connected
  | ConnectDestroyed _ => Some Destroyed
  | _ => None
  end.

Lemma run_loop_step s l f q c ph :
  server_inv s → queue_of l s = f :: q → functor_phase f = Some ph → about f = Some c →
  run (RunLoop l) s = Ok (tt, update_conn c (set_phase ph) (put_queue l q (set_cur l s))) ∧
  ∃ conn, conns s !! c = Some conn ∧ conn_loop conn = l.
Proof.
  intros Hinv Hq Hph Hc. pose proof (si_queued _ _ _ Hinv l f (queued_head _ _ _ _ Hq)) as Hok.
  assert (∃ conn, conns s !! c = Some conn ∧ conn_loop conn = l) as (conn & Hconn & Hl).
  { destruct f; inversion Hph; inversion Hc; subst; cbn in Hok;
      destruct Hok as (conn & ? & ? & Hl & _) || destruct Hok as (conn & ? & ? & Hl); by exists conn. }
  split; [|by exists conn].
  assert (wp (run (RunLoop l))
    (λ _ s', s' = update_conn c (set_phase ph) (put_queue l q (set_cur l s))) s) as Hwp.
  { cbn [run_srv_event]. do 4 wp_step. change (queue_of l (set_cur l s)) with (queue_of l s).
    rewrite Hq. do 2 wp_step. destruct f; inversion Hph; inversion Hc; subst; cbn [run_functor];
      wp_step; (eapply wp_deref; [exact Hconn|]); wp_step;
      (apply wp_assertInLoopThread; [done|]); by wp_step. }
  apply wp_run in Hwp as ([] & s' & Hrun & ->). exact Hrun.
Qed.

(** [removeConnectionInLoop], and its outcome for the connection. *)
Definition remove_in_loop c conn s : Server :=
  push (conn_loop conn) (ConnectDestroyed c)
    (set_connections (delete (conn_name conn) (connections_ s)) s).

Lemma wp_remove_in_loop s c conn :
  conns s !! c = Some conn → cur s = loop_ s →
  wp (removeConnectionInLoop c) (λ _ s', s' = remove_in_loop c conn s) s.
Proof.
  intros Hc Hcur. unfold removeConnectionInLoop, queueInLoop. do 3 wp_step.
  apply wp_assertInLoopThread; [done|]. wp_step. eapply wp_deref; [exact Hc|]. by wp_steps.
Qed.

Lemma run_removal_step s q c :
  server_inv s → queue_of (loop_ s) s = RemoveConnectionInLoop c :: q →
  ∃ conn, conns s !! c = Some conn ∧ conn_phase conn = Closed ∧ mapped c conn s ∧
    run (RunLoop (loop_ s)) s =
      Ok (tt, remove_in_loop c conn (put_queue (loop_ s) q (set_cur (loop_ s) s))).
Proof.
  intros Hinv Hq. pose proof (si_queued _ _ _ Hinv _ _ (queued_head _ _ _ _ Hq)) as Hok.
  cbn in Hok. destruct Hok as (conn & Hc & Hph & _ & Hm). exists conn. split_and!; [done..|].
  assert (wp (run (RunLoop (loop_ s)))
    (λ _ s', s' = remove_in_loop c conn (put_queue (loop_ s) q (set_cur (loop_ s) s))) s) as Hwp.
  { cbn [run_srv_event]. do 4 wp_step.
    change (queue_of (loop_ s) (set_cur (loop_ s) s)) with (queue_of (loop_ s) s).
    rewrite Hq. do 2 wp_step. cbn [run_functor]. by apply wp_remove_in_loop. }
  apply wp_run in Hwp as ([] & s' & Hrun & ->). exact Hrun.
Qed.

(** A connection calls its close callback. *)
Definition close_step c conn s : Server :=
  let s1 := update_conn c (set_phase Closed) (set_cur (conn_loop conn) s) in
  if decide (conn_loop conn = loop_ s) then remove_in_loop c conn s1
  else push (loop_ s) (RemoveConnectionInLoop c) s1.

Lemma run_close_step s c conn :
  conns s !! c = Some conn → run (CloseConn c) s = Ok (tt, close_step c conn s).
Proof.
  intros Hc. set (s1 := update_conn c (set_phase Closed) (set_cur (conn_loop conn) s)).
  assert (wp (run (CloseConn c)) (λ _ s', s' = close_step c conn s) s) as Hwp.
  { cbn [run_srv_event]. wp_step. eapply wp_deref; [exact Hc|]. do 4 wp_step. fold s1.
    unfold removeConnection, runInLoop, queueInLoop, close_step. fold s1. do 4 wp_step.
    change (is_cur (loop_ s1) s1) with (bool_decide (conn_loop conn = loop_ s)).
    case_bool_decide as Hl; [rewrite decide_True by done|rewrite decide_False by done; by wp_step].
    cbn [run_functor]. wp_apply (wp_remove_in_loop s1 c (set_phase Closed conn)); [|done|].
    - unfold s1. rewrite lookup_update, decide_True by done. cbn. by rewrite Hc.
    - done. }
  apply wp_run in Hwp as ([] & s' & Hrun & ->). exact Hrun.
Qed.

(** Setting the server up again, while it runs, does not change its loops and
    connections. *)
Record reconfigured s s' : Prop := {
  rc_loop : loop_ s' = loop_ s;
  rc_loops : loops_ (threadPool_ s') = loops_ (threadPool_ s);
  rc_connections : connections_ s' = connections_ s;
  rc_conns : conns s' = conns s;
  rc_queues : queues s' = queues s;
  rc_started : srv_started s' = srv_started s;
}.

Definition setting (ev : srv_event) : Prop :=
  match ev with Accept _ _ | CloseConn _ | RunLoop _ => False | _ => True end.

Lemma run_setting s ev :
  server_inv s → srv_started s = true → setting ev → srv_event_ok ev s →
  ∃ s', run ev s = Ok (tt, s') ∧ reconfigured s s'.
Proof.
  intros Hinv Hst Hset Hok.
  assert (wp (run ev) (λ _ s', reconfigured s s') s) as Hwp.
  { destruct ev as [n|cb|cb|cb| |fd peer|c|l]; try done; cbn [run_srv_event srv_event_ok] in *;
      [|by apply wp_modify..|].
    - wp_step. wp_step. unfold setThreadNum, on_pool. wp_step.
      wp_apply (wp_setThreadNum startLoop n (threadPool_ s)); [apply (si_pool _ _ _ Hinv)|done|].
      by intros [] p' [_ ->].
    - wp_step. wp_step. unfold start. wp_step. wp_step. cbn [srv_started set_cur]. by rewrite Hst. }
  apply wp_run in Hwp as ([] & s' & ? & ?). eauto.
Qed.

(** All steps keep the invariant. *)
Lemma step_inv s ev s' :
  server_inv s → srv_event_ok ev s → run ev s = Ok (tt, s') → server_inv s'.
Proof.
  intros Hinv Hok Hrun. pose proof (wp_run_srv_event startLoop ev s Hinv Hok) as Hwp.
  unfold wp in Hwp. by rewrite Hrun in Hwp.
Qed.

Lemma accept_step s fd peer :
  server_inv s → nextConnId_ s < 2 ^ 31 - 1 →
  ∃ s', run (Accept fd peer) s = Ok (tt, s') ∧ loop_ s' = loop_ s ∧ srv_started s' = srv_started s ∧
    connection_added fd peer s s'.
Proof.
  intros Hinv Hbound. pose proof (wp_newConnection startLoop fd peer (set_cur (loop_ s) s)
    (set_cur_inv _ _ _ _ Hinv) eq_refl Hbound) as Hwp.
  assert (wlp (newConnection fd peer) (λ _ s', loop_ s' = loop_ s ∧ srv_started s' = srv_started s)
    (set_cur (loop_ s) s)) as Hwlp.
  { unfold newConnection, assertInLoopThread, on_sockets, on_pool, runInLoop, queueInLoop. wlp_run.
    apply wlp_if; intros _; [|by wlp_step]. cbn [run_functor]. unfold assertInLoopThread. by wlp_run. }
  apply wp_wlp with (2 := Hwlp) in Hwp.
  apply wp_run in Hwp as ([] & s' & Hrun & (_ & _ & Hadd) & Hl & Hst). exists s'.
  split_and!; [|done..]. cbn [run_srv_event]. by erewrite run_bind_ok by done.
Qed.

(** No step changes the base loop. *)
Lemma run_functor_loop f : keeps loop_ (run_functor f).
Proof.
  destruct f; unfold run_functor, removeConnectionInLoop, assertInLoopThread, queueInLoop; intros s; by wlp_run.
Qed.

Lemma runInLoop_loop l f : keeps loop_ (runInLoop l f).
Proof.
  pose proof run_functor_loop. unfold runInLoop, queueInLoop. evolves. by apply evolves_modify.
Qed.

Lemma run_srv_event_loop ev : keeps loop_ (run ev).
Proof.
  intros s. destruct ev; cbn [run_srv_event].
  - unfold setThreadNum, on_pool. by wlp_run.
  - unfold setConnectionCallback. by wlp_run.
  - unfold setMessageCallback. by wlp_run.
  - unfold setWriteCompleteCallback. by wlp_run.
  - unfold start, on_pool. wlp_run. apply wlp_when; intros _; [|done]. wlp_run.
    eapply wlp_mono; [apply runInLoop_loop|done].
  - unfold newConnection, assertInLoopThread, on_sockets, on_pool. wlp_run.
    eapply wlp_mono; [apply runInLoop_loop|done].
  - unfold removeConnection. wlp_run. eapply wlp_mono; [apply runInLoop_loop|done].
  - wlp_run. case_match; [by wlp_run|]. wlp_run. eapply wlp_mono; [apply run_functor_loop|done].
Qed.

(** [main]: the number of threads, then [start]. *)
Lemma start_steps base name n :
  0 ≤ n < 2 ^ 31 →
  ∃ s, (run (SetThreadNum n) ;; run Start) (new_TcpServer base name) = Ok (tt, s) ∧
    srv_reachable startLoop s ∧ srv_started s = true ∧ loop_ s = base ∧ conns s = [] ∧
    queues s = ∅ ∧ loops_ (threadPool_ s) = startLoop <$> seq 0 (Z.to_nat n).
Proof.
  intros Hn. set (s0 := new_TcpServer base name).
  set (s1 := set_pool (set_numThreads n (threadPool_ s0)) (set_cur base s0)).
  assert (run (SetThreadNum n) s0 = Ok (tt, s1)) as Hrun1.
  { cbn [run_srv_event]. erewrite run_bind_ok by done. unfold setThreadNum, on_pool, zoom.
    unfold EventLoopThreadPool.setThreadNum. destruct (Z.leb_spec 0 n); [|lia].
    by erewrite run_bind_ok by done. }
  assert (wp (run Start) (λ _ s, srv_started s = true ∧ loop_ s = base ∧ conns s = [] ∧
    queues s = ∅ ∧ loops_ (threadPool_ s) = startLoop <$> seq 0 (Z.to_nat n)) s1) as Hwp.
  { cbn [run_srv_event]. do 2 wp_step. unfold start. do 2 wp_step.
    cbn [srv_started set_cur s1 set_pool s0 new_TcpServer negb when]. unfold on_pool. do 8 wp_step.
    rewrite is_cur_true by done.
    wp_apply (wp_pool_start startLoop true eq_refl false (set_numThreads n (threadPool_ s0))).
    { destruct (new_Pool_ok startLoop base name). by split. }
    { done. }
    intros [] p (_ & _ & _ & Hloops & _). cbn. unfold runInLoop. do 2 wp_step.
    rewrite is_cur_true by done. cbn [run_functor]. by wp_step. }
  apply wp_run in Hwp as ([] & s & Hrun2 & Hs). exists s. split; [|split; [|exact Hs]].
  - by rewrite (run_bind_ok _ _ _ _ _ Hrun1).
  - exists base, name. eapply rtc_l; [by exists (SetThreadNum n)|].
    apply rtc_once. by exists Start.
Qed.

(** ** The life of a connection *)

#[export] Instance mapped_dec c conn s : Decision (mapped c conn s).
Proof. unfold mapped. apply _. Defined.

(** How far a connection has come. *)
Definition life s c conn : nat :=
  match conn_phase conn with
  | Connecting => 0
  | Connected => 1
  | Closed => if decide (mapped c conn s) then 2 else 3
  | Destroyed => 4
  end.

(** Connections stay in their loops and never go back. *)
Definition older s s' : Prop :=
  ∀ c conn, conns s !! c = Some conn →
    ∃ conn', conns s' !! c = Some conn' ∧ conn_loop conn' = conn_loop conn ∧
      conn_name conn' = conn_name conn ∧ (life s c conn ≤ life s' c conn')%nat.
#[export] Instance older_preorder : PreOrder older.
Proof.
  split; [intros s c conn Hc; by exists conn|]. intros s1 s2 s3 H12 H23 c conn Hc.
  destruct (H12 c conn Hc) as (conn2 & Hc2 & Hl2 & Hn2 & Hle).
  destruct (H23 c conn2 Hc2) as (conn3 & Hc3 & Hl3 & Hn3 & Hle').
  exists conn3. split_and!; [done|congruence..|lia].
Qed.

Lemma life_same s s' c conn :
  (mapped c conn s' ↔ mapped c conn s) → life s' c conn = life s c conn.
Proof. intros Hm. unfold life. destruct (conn_phase conn); try done. repeat case_decide; tauto. Qed.

(** One connection has a new phase, or has left the map. *)
Lemma older_one s s' c conn ph :
  conns s !! c = Some conn → conns s' = alter (set_phase ph) c (conns s) →
  (∀ c' conn', c' ≠ c → conns s !! c' = Some conn' → mapped c' conn' s' ↔ mapped c' conn' s) →
  (life s c conn ≤ life s' c (set_phase ph conn))%nat → older s s'.
Proof.
  intros Hc Hconns Hm Hle c' conn' Hc'. rewrite Hconns. destruct (decide (c' = c)) as [->|Hne].
  - assert (conn' = conn) as -> by congruence. rewrite list_lookup_alter_eq, Hc. cbn. eauto.
  - rewrite list_lookup_alter_ne by congruence. exists conn'. split_and!; [done..|].
    rewrite (life_same s s'); [lia|]. by apply Hm.
Qed.

Lemma older_unmapped s s' c conn ph :
  server_inv s → conns s !! c = Some conn → conns s' = alter (set_phase ph) c (conns s) →
  connections_ s' = delete (conn_name conn) (connections_ s) →
  (life s c conn ≤ if decide (ph = Closed) then 3 else 0)%nat → older s s'.
Proof.
  intros Hinv Hc Hconns Hmap Hle. apply (older_one s s' c conn ph); try done.
  - intros c' conn' Hne Hc'. unfold mapped. rewrite Hmap, lookup_delete_ne; [done|].
    intros Hn. apply Hne. by apply (names_differ startLoop None s _ _ conn' conn Hinv).
  - etrans; [exact Hle|]. case_decide as Hph; [|lia]. unfold life. rewrite Hph. cbn [conn_phase set_phase].
    rewrite decide_False; [done|]. unfold mapped. by rewrite Hmap, lookup_delete_eq.
Qed.

Lemma alter_phase_id c conn (l : list Conn) :
  l !! c = Some conn → alter (set_phase (conn_phase conn)) c l = l.
Proof.
  intros Hc. apply list_eq. intros i. destruct (decide (i = c)) as [->|]; [|by rewrite list_lookup_alter_ne].
  rewrite list_lookup_alter_eq, Hc. by destruct conn.
Qed.

Lemma close_older s c conn :
  server_inv s → conns s !! c = Some conn → conn_phase conn = Connected →
  older s (close_step c conn s).
Proof.
  intros Hinv Hc Hph. unfold close_step. set (s1 := update_conn c _ _).
  assert (life s c conn = 1%nat) as Hlife by (unfold life; by rewrite Hph).
  case_decide.
  - apply (older_unmapped s _ c conn Closed); try done. rewrite Hlife, decide_True by done. lia.
  - apply (older_one s _ c conn Closed); try done. rewrite Hlife. unfold life. cbn. case_decide; lia.
Qed.

Lemma run_loop_older s l s' :
  server_inv s → run (RunLoop l) s = Ok (tt, s') → older s s'.
Proof.
  intros Hinv Hrun. destruct (queue_of l s) as [|f q] eqn:Hq.
  { cbn [run_srv_event] in Hrun. unfold mbind, M_bind, modify, gets in Hrun.
    change (queue_of l (set_cur l s)) with (queue_of l s) in Hrun. rewrite Hq in Hrun.
    injection Hrun as <-. intros c conn Hc. by exists conn. }
  pose proof (si_queued _ _ _ Hinv l f (queued_head _ _ _ _ Hq)) as Hok.
  destruct f as [|c|c|c]; [done|..]; cbn in Hok.
  - destruct (run_loop_step s l _ q c _ Hinv Hq eq_refl eq_refl) as [Hrun' _].
    rewrite Hrun' in Hrun. injection Hrun as <-. destruct Hok as (conn & Hc & Hph & _).
    apply (older_one s _ c conn Connected); try done. unfold life. rewrite Hph. lia.
  - destruct Hok as (conn & Hc & Hph & -> & Hm).
    destruct (run_removal_step s q c Hinv Hq) as (conn' & Hc' & _ & _ & Hrun').
    assert (conn' = conn) as -> by congruence. rewrite Hrun' in Hrun. injection Hrun as <-.
    apply (older_unmapped s _ c conn Closed); try done.
    + rewrite <-Hph. symmetry. by apply alter_phase_id.
    + unfold life. rewrite Hph, (decide_True (P:=Closed = Closed)) by done. case_decide; lia.
  - destruct (run_loop_step s l _ q c _ Hinv Hq eq_refl eq_refl) as [Hrun' _].
    rewrite Hrun' in Hrun. injection Hrun as <-. destruct Hok as (conn & Hc & Hph & _).
    apply (older_one s _ c conn Destroyed); try done. unfold life. rewrite Hph. cbn. case_decide; lia.
Qed.

Lemma accept_older s s' fd peer : server_inv s → connection_added fd peer s s' → older s s'.
Proof.
  intros Hinv (l & p & addr & _ & _ & Hfree & Hmap & Hconns & _) c conn Hc. exists conn.
  split_and!; [|done..|]; [rewrite Hconns; by apply lookup_app_l_Some|].
  rewrite (life_same s s'); [done|]. unfold mapped. rewrite Hmap.
  destruct (decide (conn_name conn = connName (name_ s) (nextConnId_ s))) as [->|Hne];
    [|by rewrite lookup_insert_ne].
  rewrite lookup_insert_eq, Hfree. apply lookup_lt_Some in Hc. split; [intros [= Heq]; lia|done].
Qed.

Lemma step_older s ev s' :
  server_inv s → srv_started s = true → srv_event_ok ev s → run ev s = Ok (tt, s') → older s s'.
Proof.
  intros Hinv Hst Hok Hrun.
  assert (setting ev → older s s') as Hset.
  { intros Hset. destruct (run_setting s ev Hinv Hst Hset Hok) as (s1 & Hrun1 & [_ _ Hm Hc _ _]).
    rewrite Hrun1 in Hrun. injection Hrun as <-. intros c conn Hconn. exists conn.
    rewrite Hc, (life_same s s1) by (unfold mapped; by rewrite Hm). done. }
  destruct ev as [n|cb|cb|cb| |fd peer|c|l]; try by apply Hset.
  - destruct (accept_step s fd peer Hinv Hok) as (s1 & Hrun1 & _ & _ & Hadd).
    rewrite Hrun1 in Hrun. injection Hrun as <-. by eapply accept_older.
  - destruct Hok as (conn & Hc & Hph). rewrite (run_close_step s c conn Hc) in Hrun.
    injection Hrun as <-. by apply close_older.
  - by eapply run_loop_older.
Qed.

(** ** The queues of the loops *)

Definition queue_grows l s s' : Prop := ∃ fs, queue_of l s' = queue_of l s ++ fs.
#[export] Instance queue_grows_preorder l : PreOrder (queue_grows l).
Proof.
  split; [intros s; exists []; by rewrite app_nil_r|]. intros s1 s2 s3 [fs Hfs] [fs' Hfs'].
  exists (fs ++ fs'). by rewrite Hfs', Hfs, app_assoc.
Qed.

Lemma queue_grows_same l s s' : queue_of l s' = queue_of l s → queue_grows l s s'.
Proof. intros Hq. exists []. by rewrite Hq, app_nil_r. Qed.

Lemma queue_grows_modify l (g : Server → Server) :
  (∀ s, queue_of l (g s) = queue_of l s) → evolves (queue_grows l) (modify g).
Proof. intros Hg. apply evolves_modify. intros s. by apply queue_grows_same. Qed.

Lemma queueInLoop_grows l l' f : evolves (queue_grows l) (queueInLoop l' f).
Proof.
  apply evolves_modify. intros s. unfold queue_grows. rewrite queue_of_put.
  case_decide as Hl; [subst l'; by exists [f]|exists []; by rewrite app_nil_r].
Qed.

Lemma zoom_grows l {V A} (get : Server → V) (set : V → Server → Server) (m : M V A) :
  (∀ v s, queue_of l (set v s) = queue_of l s) → evolves (queue_grows l) (zoom get set m).
Proof. intros Hset s. apply wlp_zoom. intros a v _. by apply queue_grows_same. Qed.

Ltac grow := repeat first [progress evolves | by apply queue_grows_modify | by apply zoom_grows].

Lemma run_functor_grows l f : evolves (queue_grows l) (run_functor f).
Proof.
  pose proof queueInLoop_grows. destruct f; cbn [run_functor];
    unfold removeConnectionInLoop, assertInLoopThread; grow; intros s; by wlp_run.
Qed.

Lemma runInLoop_grows l l' f : evolves (queue_grows l) (runInLoop l' f).
Proof.
  pose proof run_functor_grows. pose proof queueInLoop_grows. unfold runInLoop. grow.
Qed.

Lemma step_grows l ev : ev ≠ RunLoop l → evolves (queue_grows l) (run ev).
Proof.
  intros Hev. pose proof runInLoop_grows. pose proof run_functor_grows.
  destruct ev as [n|cb|cb|cb| |fd peer|c|l']; cbn [run_srv_event];
    unfold setThreadNum, setConnectionCallback, setMessageCallback, setWriteCompleteCallback, start,
      newConnection, removeConnection, on_pool, on_sockets, assertInLoopThread; grow;
    try (intros s; by wlp_run).
  apply queue_grows_modify. intros s1. rewrite queue_of_put, decide_False by congruence. done.
Qed.

(** The loop runs its oldest functor. *)
Lemma run_loop_pops l f q s s' :
  queue_of l s = f :: q → run (RunLoop l) s = Ok (tt, s') → ∃ fs, queue_of l s' = q ++ fs.
Proof.
  intros Hq Hrun. assert (wlp (run (RunLoop l)) (λ _ s', ∃ fs, queue_of l s' = q ++ fs) s) as Hwlp.
  { cbn [run_srv_event]. do 4 wlp_step. change (queue_of l (set_cur l s)) with (queue_of l s).
    rewrite Hq. do 2 wlp_step. eapply wlp_mono; [apply (run_functor_grows l)|]. intros [] s1 [fs Hfs].
    exists fs. by rewrite Hfs, queue_of_put, decide_True. }
  by apply Hwlp in Hrun.
Qed.
End steps.
