(* ===== verification/ClusterSpec.v ===== *)
(** * The invariant of the whole server (src/net/TcpServer.cc)

    How the server's view of the connections and the connections in the loops
    hang together, and that every event keeps it. The parts are used through
    what their own files show of their steps: ServerSteps.v for the server,
    [step_view] and [environment_view] of ReactorProps.v for the loops. *)
From S2P Require Import Prelude Posix Channel EPollPoller.
From S2P Require TimerQueue TimerQueueSpec.
From S2P Require Import InetAddress Sockets EventLoopThreadPool.
From S2P Require Import TcpServer TcpServerProps ServerSteps.
From S2P Require Programs.
From S2P Require Import TcpConnection TcpConnectionSpec ConnectionFrame.
From S2P Require Import Reactor ReactorSpec ReactorAcceptor ReactorProps Cluster.

(** The stage of a connection in its phase. *)
Definition phase_stage (ph : TcpServer.phase) : stage :=
  match ph with Connecting => Waiting | Connected => Live | Closed | Destroyed => Shut end.

(** The server's functors that wait in a loop, but the removals. *)
Definition removal (f : sfunctor) : bool :=
  match f with RemoveConnectionInLoop _ => true | _ => false end.
Definition waiting_functors (l : ptr) (srv : Server) : list sfunctor :=
  filter (λ f, removal f = false) (queue_of l srv).

Definition removals (l : ptr) (srv : Server) : nat :=
  length (filter (λ f, removal f = true) (queue_of l srv)).

(** A functor in a loop and in the server's model. *)
Definition functor_for (ids : gmap (ptr * ptr) nat) (l : ptr) (x : ptr * functor) (f : sfunctor)
    : Prop :=
  ∃ c, ids !! (l, x.1) = Some c ∧
    (x.2 = TcpConnection.ConnectEstablished ∧ f = TcpServer.ConnectEstablished c ∨
     x.2 = TcpConnection.ConnectDestroyed ∧ f = TcpServer.ConnectDestroyed c).

Section spec.
Context {K TCB : Type} `{!Epoll K, !EpollSpec K, !Descriptors K, !DescriptorsSpec K}.
Abbreviation PW := (PollWorld K loop_callback).
Context `{!ConnEnv PW, !ConnEnvSpec PW, !TimerQueue.TimerEnv TCB, !TimerQueueSpec.TimerEnvSpec TCB,
  !Os}.
Abbreviation RX := (Reactor (K:=K) (TCB:=TCB)).
Context (startLoop : nat → ptr).
Abbreviation CL := (Cluster (K:=K) (TCB:=TCB)).
Implicit Types (w : CL) (s : RX) (srv : Server) (conn : Conn) (c : nat) (l p : ptr) (d : option ptr).

Definition loop_queue s : list (ptr * functor) := srv_queue (functors_of (rx_phase s)) s.
Definition io_loops w : list ptr := loops_ (threadPool_ (cl_server w)).

(** The connection [c] of the server is the one at [p] in the loop [l]. *)
Definition linked w l p c : Prop :=
  ∃ s conn, cl_loops w !! l = Some s ∧ conns (cl_server w) !! c = Some conn ∧ conn_loop conn = l ∧
    cl_addresses w !! c = Some p ∧ stage_at s p = Some (phase_stage (conn_phase conn)) ∧
    (p ∈ rx_mapped s ↔ mapped c conn (cl_server w)).

(** In the middle of a step the base loop [d] may have one entry less for the
    server than the server's model has removals. *)
Definition owed d l : nat := if decide (d = Some l) then 1 else 0.

Lemma owed_none l : owed None l = 0%nat.
Proof. done. Qed.
Lemma owed_here l : owed (Some l) l = 1%nat.
Proof. unfold owed. by rewrite decide_True. Qed.
Lemma owed_other l l' : l' ≠ l → owed (Some l) l' = 0%nat.
Proof. intros Hne. unfold owed. by rewrite decide_False by congruence. Qed.

Record cluster_inv d w : Prop := {
  cv_server : srv_reachable startLoop (cl_server w);
  cv_started : srv_started (cl_server w) = true;
  cv_loop l s : cl_loops w !! l = Some s → loop_reachable s ∧ l ≠ 0;
  cv_base : is_Some (cl_loops w !! base w);
  cv_pool l : l ∈ io_loops w → is_Some (cl_loops w !! l) ∧ l ≠ base w;
  cv_where c conn : conns (cl_server w) !! c = Some conn →
    if decide (io_loops w = []) then conn_loop conn = base w else conn_loop conn ∈ io_loops w;
  cv_addresses : length (cl_addresses w) = length (conns (cl_server w));
  cv_linked l p c : cl_ids w !! (l, p) = Some c → linked w l p c;
  cv_known l s p : cl_loops w !! l = Some s → is_Some (stage_at s p) → is_Some (cl_ids w !! (l, p));
  cv_alive c conn : conns (cl_server w) !! c = Some conn → conn_phase conn ≠ Destroyed →
    ∃ p, cl_ids w !! (conn_loop conn, p) = Some c;
  cv_queue l s : cl_loops w !! l = Some s →
    Forall2 (functor_for (cl_ids w) l) (loop_queue s) (waiting_functors l (cl_server w));
  cv_removals l c : RemoveConnectionInLoop c ∈ queue_of l (cl_server w) → io_loops w ≠ [];
  cv_tokens l s : cl_loops w !! l = Some s →
    (server_waiting s + owed d l)%nat = removals l (cl_server w);
}.

(** ** Consequences *)

Lemma cv_srv_inv {d} w : cluster_inv d w → inv_but startLoop None (cl_server w).
Proof. intros Hinv. apply srv_reachable_inv, Hinv. Qed.

Lemma cv_reactor {d} w l s : cluster_inv d w → cl_loops w !! l = Some s → reactor_inv s.
Proof. intros Hinv Hl. by apply reactor_reachable_inv, (cv_loop _ _ Hinv _ _ Hl). Qed.

Lemma linked_inj w l p l' p' c : linked w l p c → linked w l' p' c → l' = l ∧ p' = p.
Proof.
  intros (s & conn & _ & Hc & Hl & Hp & _) (s' & conn' & _ & Hc' & Hl' & Hp' & _).
  assert (conn' = conn) as -> by congruence. split; congruence.
Qed.

(** A loop with connections has no removals in its queue. *)
Lemma no_removals {d} w l c conn f :
  cluster_inv d w → conns (cl_server w) !! c = Some conn → conn_loop conn = l →
  f ∈ queue_of l (cl_server w) → removal f = false.
Proof.
  intros Hinv Hc Hl Hf. destruct f as [| |c'|]; try done.
  pose proof (cv_removals _ _ Hinv _ _ Hf) as Hne. pose proof (cv_where _ _ Hinv c conn Hc) as Hw.
  rewrite decide_False, Hl in Hw by done. apply (cv_pool _ _ Hinv) in Hw as [_ Hb].
  apply (si_queued _ _ _ (cv_srv_inv w Hinv)) in Hf as (? & _ & _ & Hlb & _). done.
Qed.

Lemma waiting_all {d} w l c conn :
  cluster_inv d w → conns (cl_server w) !! c = Some conn → conn_loop conn = l →
  waiting_functors l (cl_server w) = queue_of l (cl_server w).
Proof.
  intros Hinv Hc Hl. unfold waiting_functors.
  pose proof (λ f, no_removals w l c conn f Hinv Hc Hl) as Hno. revert Hno.
  induction (queue_of l (cl_server w)) as [|f q IH]; intros Hno; [done|].
  rewrite filter_cons_True by (apply Hno, list_elem_of_here). f_equal. apply IH.
  intros g Hg. by apply Hno, list_elem_of_further.
Qed.

(** The close callback has been called once for a closed connection. *)
Lemma closes_stage s p :
  reactor_inv s → closes_at p s = if decide (stage_at s p = Some Shut) then 1%nat else 0%nat.
Proof.
  intros Hinv. unfold closes_at, stage_at. destruct (rx_conns s !! p) as [x|] eqn:Hx; cbn.
  - destruct (ck_closed _ _ _ _ (li_conn _ _ _ Hinv p x Hx)) as [_ Hn]. rewrite Hn.
    destruct (state_ x); repeat case_decide; congruence || done.
  - by rewrite decide_False.
Qed.

Lemma closed_called s p :
  reactor_inv s → stage_at s p = Some Shut →
  ∃ x, rx_conns s !! p = Some x ∧ CloseCallback ∈ upcalls x.
Proof.
  intros Hinv Hs. pose proof (closes_stage s p Hinv) as Hn. rewrite decide_True in Hn by done.
  unfold closes_at in Hn. destruct (rx_conns s !! p) as [x|]; [|done]. exists x. split; [done|].
  apply closes_member. congruence.
Qed.

(** A loop of the cluster takes an event of its own. *)
Lemma loop_event_reachable ev s s' :
  loop_reachable s → loop_event_ok ev s → run_loop_event ev s = Ok (tt, s') → loop_reachable s'.
Proof.
  intros (l & tch & wch & k & s0 & Hl & Hne & Hnew & Hsteps) Hok Hrun.
  exists l, tch, wch, k, s0. split_and!; [done..|]. eapply rtc_r; [exact Hsteps|]. by exists ev.
Qed.

Lemma wp_round epoll_wait s :
  loop_reachable s → loop_event_ok (LoopThread epoll_wait) s →
  wp (loop_step epoll_wait) (λ _ s', loop_reachable s' ∧ step_view s s' ∧
    server_waiting s = (server_waiting s' + runs_server (rx_phase s))%nat) s.
Proof.
  intros Hs Hok.
  pose proof (wp_wlp _ _ _ _ (wp_loop_step epoll_wait s (reactor_reachable_inv s Hs) Hok)
    (loop_step_tokens epoll_wait s)) as Hwp.
  apply wp_run in Hwp as ([] & s' & Hrun & [_ Hv] & Htok & _). eapply wp_of_run; [exact Hrun|].
  split; [|done]. by eapply (loop_event_reachable (LoopThread epoll_wait)).
Qed.

Lemma wp_other_event ev s :
  (∀ epoll_wait, ev ≠ LoopThread epoll_wait) → loop_reachable s → loop_event_ok ev s →
  wp (run_loop_event ev) (λ _ s', loop_reachable s' ∧ functors_of (rx_phase s') = functors_of (rx_phase s) ∧
    server_waiting s' = (server_waiting s + event_tokens ev)%nat ∧
    environment_view ev (functors_of (rx_phase s)) s s') s.
Proof.
  intros Hev Hs Hok.
  pose proof (wp_environment_event ev s Hev (reactor_reachable_inv s Hs) Hok) as Hwp.
  apply wp_run in Hwp as ([] & s' & Hrun & _ & Hafter & Hv). eapply wp_of_run; [exact Hrun|].
  pose proof (ae_phase _ _ _ Hafter) as Hph.
  split_and!; [by eapply loop_event_reachable|by rewrite Hph|by apply after_event_waiting|done].
Qed.

(** The server takes one. *)
Lemma server_event_reachable ev srv srv' :
  srv_reachable startLoop srv → srv_event_ok ev srv →
  run_srv_event startLoop ev srv = Ok (tt, srv') → srv_reachable startLoop srv'.
Proof.
  intros (l & name & Hsteps) Hok Hrun. exists l, name. eapply rtc_r; [exact Hsteps|]. by exists ev.
Qed.

(** ** Steps of the parts *)

Lemma wp_on_loop {A} l (m : M RX A) s Q w :
  cl_loops w !! l = Some s → wp m (λ a s', Q a (put_loop l s' w)) s → wp (on_loop l m) Q w.
Proof.
  intros Hl Hwp. apply wp_run in Hwp as (a & s' & Hrun & HQ). unfold on_loop. wp_step.
  eapply wp_deref; [exact Hl|]. wp_step. eapply wp_lift_outcome; [exact Hrun|]. cbv beta iota.
  by do 3 wp_step.
Qed.

Lemma wp_on_server ev srv' Q w :
  run_srv_event startLoop ev (cl_server w) = Ok (tt, srv') → Q tt (set_cl_server srv' w) →
  wp (on_server startLoop ev) Q w.
Proof. intros Hrun HQ. unfold on_server. wp_step. by eapply wp_of_run. Qed.

(** ** Changes *)

(** A loop changes in a way that the server does not see. *)
Lemma quiet_inv d d' w l s s' :
  cluster_inv d w → cl_loops w !! l = Some s → loop_reachable s' →
  (∀ q, stage_at s' q = stage_at s q) → rx_mapped s' = rx_mapped s → loop_queue s' = loop_queue s →
  (server_waiting s' + owed d' l = server_waiting s + owed d l)%nat →
  (∀ l', l' ≠ l → owed d' l' = owed d l') →
  cluster_inv d' (put_loop l s' w).
Proof.
  intros Hinv Hl Hs' Hstage Hmap Hq Htok Hother.
  pose proof Hinv as [? ? Hlo ? Hpo ? ? Hli Hkn ? Hqu ? Hto].
  assert (∀ l1, is_Some (cl_loops w !! l1) → is_Some (<[l := s']> (cl_loops w) !! l1)) as Hdom
    by (intros l1 ?; apply lookup_insert_is_Some'; by right).
  split; cbn; try done.
  - intros l1 s1. rewrite lookup_insert_Some. intros [[<- <-]|[_ ?]]; [|by apply Hlo].
    split; [done|by eapply Hlo].
  - by apply Hdom.
  - intros l1 Hl1. destruct (Hpo l1 Hl1). split; [by apply Hdom|done].
  - intros l1 p c Hc. destruct (Hli _ _ _ Hc) as (s1 & conn & Hl1 & ? & ? & ? & Hst & Hm).
    destruct (decide (l1 = l)) as [->|Hne].
    + assert (s1 = s) as -> by congruence. exists s', conn. cbn. rewrite lookup_insert_eq.
      rewrite Hstage, Hmap. by split_and!.
    + exists s1, conn. cbn. by rewrite lookup_insert_ne.
  - intros l1 s1 p. rewrite lookup_insert_Some. intros [[<- <-]|[_ ?]]; [rewrite Hstage|]; by apply Hkn.
  - intros l1 s1. rewrite lookup_insert_Some. intros [[<- <-]|[_ ?]]; [rewrite Hq|]; by apply Hqu.
  - intros l1 s1. rewrite lookup_insert_Some. intros [[<- <-]|[Hne ?]].
    + rewrite Htok. by apply Hto.
    + rewrite Hother by done. by apply Hto.
Qed.

(** The server, and the loop [l], change what they know of one connection. *)
Lemma phase_change_inv d d' w l p c s conn srv' s' ph :
  cluster_inv d w → cl_ids w !! (l, p) = Some c → cl_loops w !! l = Some s →
  conns (cl_server w) !! c = Some conn →
  srv_reachable startLoop srv' → loop_reachable s' →
  (loop_ srv', srv_started srv', threadPool_ srv') =
    (base w, srv_started (cl_server w), threadPool_ (cl_server w)) →
  conns srv' = alter (set_phase ph) c (conns (cl_server w)) →
  (∀ c' conn', c' ≠ c → conns (cl_server w) !! c' = Some conn' →
     mapped c' conn' srv' ↔ mapped c' conn' (cl_server w)) →
  (∀ q, stage_at s' q = if decide (q = p) then Some (phase_stage ph) else stage_at s q) →
  (∀ q, q ≠ p → q ∈ rx_mapped s' ↔ q ∈ rx_mapped s) →
  (p ∈ rx_mapped s' ↔ mapped c conn srv') →
  (∀ l', l' ≠ l → waiting_functors l' srv' = waiting_functors l' (cl_server w)) →
  Forall2 (functor_for (cl_ids w) l) (loop_queue s') (waiting_functors l srv') →
  (∀ l' c', RemoveConnectionInLoop c' ∈ queue_of l' srv' → io_loops w ≠ []) →
  server_waiting s' = server_waiting s →
  (∀ l', (removals l' srv' + owed d l' = removals l' (cl_server w) + owed d' l')%nat) →
  cluster_inv d' (put_loop l s' (set_cl_server srv' w)).
Proof.
  intros Hinv Hid Hl Hc Hsrv' Hs' [= Hloop Hstart Hpool] Hconns Hmap Hstage Hrest Hp Hqo Hq Hrem
    Htok Howed.
  pose proof Hinv as [? Hst0 Hlo ? Hpo Hwh Had Hli Hkn Hal Hqu _ Hto].
  assert (conn_loop conn = l) as Hcl.
  { destruct (Hli _ _ _ Hid) as (? & conn' & _ & Hc' & ? & _). congruence. }
  assert (∀ l1, is_Some (cl_loops w !! l1) → is_Some (<[l := s']> (cl_loops w) !! l1)) as Hdom
    by (intros l1 ?; apply lookup_insert_is_Some'; by right).
  assert (∀ c', conns srv' !! c' =
    if decide (c' = c) then Some (set_phase ph conn) else conns (cl_server w) !! c') as Hlook.
  { intros c'. rewrite Hconns. destruct (decide (c' = c)) as [->|Hcc].
    - rewrite list_lookup_alter_eq. by rewrite Hc.
    - by rewrite list_lookup_alter_ne by congruence. }
  assert (io_loops (put_loop l s' (set_cl_server srv' w)) = io_loops w) as Hio
    by (unfold io_loops; cbn; by rewrite Hpool).
  assert (base (put_loop l s' (set_cl_server srv' w)) = base w) as Hbase by done.
  split; rewrite ?Hio, ?Hbase; cbn; try done; [congruence|..].
  - intros l1 s1. rewrite lookup_insert_Some. intros [[<- <-]|[_ ?]]; [|by apply Hlo].
    split; [done|by eapply Hlo].
  - by apply Hdom.
  - intros l1 Hl1. destruct (Hpo l1 Hl1). split; [by apply Hdom|done].
  - intros c' conn'. rewrite Hlook. destruct (decide (c' = c)); [|exact (Hwh c' conn')]. intros [= <-].
    exact (Hwh c conn Hc).
  - by rewrite Hconns, length_alter.
  - intros l1 p1 c1 Hid1. destruct (decide ((l1, p1) = (l, p))) as [[= -> ->]|Hne].
    + assert (c1 = c) as -> by congruence.
      destruct (Hli _ _ _ Hid) as (s1 & conn1 & _ & _ & _ & Ha & _).
      exists s', (set_phase ph conn). cbn. rewrite lookup_insert_eq, Hlook, decide_True by done.
      rewrite Hstage, decide_True by done. by split_and!.
    + assert (c1 ≠ c) as Hcc.
      { intros ->. destruct (linked_inj _ _ _ _ _ _ (Hli _ _ _ Hid) (Hli _ _ _ Hid1)) as [-> ->]. done. }
      destruct (Hli _ _ _ Hid1) as (s1 & conn1 & Hl1 & Hc1 & Hcl1 & Ha1 & Hst1 & Hm1).
      destruct (decide (l1 = l)) as [->|Hll].
      * assert (p1 ≠ p) as Hpp by congruence. assert (s1 = s) as -> by congruence.
        exists s', conn1. cbn. rewrite lookup_insert_eq, Hlook, decide_False by done.
        rewrite Hstage, decide_False by done. split_and!; try done.
        rewrite Hrest by done. rewrite Hm1. by rewrite <-Hmap.
      * exists s1, conn1. cbn. rewrite lookup_insert_ne, Hlook, decide_False by done.
        split_and!; try done. rewrite Hm1. by rewrite <-Hmap.
  - intros l1 s1 q. rewrite lookup_insert_Some. intros [[<- <-]|[_ ?]]; [|by apply Hkn].
    rewrite Hstage. destruct (decide (q = p)) as [->|]; [eauto|by apply Hkn].
  - intros c' conn'. rewrite Hlook. destruct (decide (c' = c)) as [->|]; [|apply Hal].
    intros [= <-] _. exists p. cbn. by rewrite Hcl.
  - intros l1 s1. rewrite lookup_insert_Some. intros [[<- <-]|[? ?]]; [done|].
    rewrite Hqo by done. by apply Hqu.
  - intros l1 s1 Hs1. specialize (Howed l1).
    assert (server_waiting s1 + owed d l1 = removals l1 (cl_server w))%nat; [|lia].
    rewrite lookup_insert_Some in Hs1. destruct Hs1 as [[<- <-]|[? ?]]; [rewrite Htok|]; by apply Hto.
Qed.

(** Everything about the connection at [p] of [l]. *)
Lemma cluster_connection {d} w l s p :
  cluster_inv d w → cl_loops w !! l = Some s → is_Some (stage_at s p) →
  ∃ c conn, cl_ids w !! (l, p) = Some c ∧ conns (cl_server w) !! c = Some conn ∧
    conn_loop conn = l ∧ cl_addresses w !! c = Some p ∧
    stage_at s p = Some (phase_stage (conn_phase conn)) ∧ phase_ok c conn (cl_server w) ∧
    (p ∈ rx_mapped s ↔ mapped c conn (cl_server w)).
Proof.
  intros Hinv Hl Hp. destruct (cv_known _ _ Hinv l s p Hl Hp) as [c Hid].
  destruct (cv_linked _ _ Hinv _ _ _ Hid) as (s1 & conn & Hl1 & Hc & Hcl & Ha & Hst & Hm).
  assert (s1 = s) as -> by congruence. exists c, conn. split_and!; try done; [|apply Hm..].
  by apply (si_phase _ _ _ (cv_srv_inv w Hinv)).
Qed.

(** ** Queues of the server *)

Lemma waiting_push l l' f srv :
  waiting_functors l' (push l f srv) =
    waiting_functors l' srv ++ if decide (l' = l ∧ removal f = false) then [f] else [].
Proof.
  unfold waiting_functors, push. rewrite queue_of_put. destruct (decide (l' = l)) as [->|Hne].
  - rewrite filter_app. f_equal. rewrite filter_cons, filter_nil. repeat case_decide; tauto || done.
  - rewrite decide_False by tauto. by rewrite app_nil_r.
Qed.

Lemma removals_push l l' f srv :
  removals l' (push l f srv) =
    (removals l' srv + if decide (l' = l ∧ removal f = true) then 1 else 0)%nat.
Proof.
  unfold removals, push. rewrite queue_of_put. destruct (decide (l' = l)) as [->|Hne].
  - rewrite filter_app, length_app, filter_cons, filter_nil. f_equal.
    repeat case_decide; tauto || done.
  - rewrite decide_False by tauto. apply plus_n_O.
Qed.

Lemma waiting_same_queues l srv srv' :
  queue_of l srv' = queue_of l srv → waiting_functors l srv' = waiting_functors l srv.
Proof. unfold waiting_functors. by intros ->. Qed.

Lemma waiting_put l q l' srv :
  waiting_functors l' (put_queue l q srv) =
    if decide (l' = l) then filter (λ f, removal f = false) q else waiting_functors l' srv.
Proof. unfold waiting_functors. rewrite queue_of_put. by case_decide. Qed.

(** ** The loops *)

(** A loop has run the functor that establishes or destroys [c]. *)
Lemma functor_step w l s s' p f g rest c conn ph :
  cluster_inv None w → cl_loops w !! l = Some s → loop_reachable s' →
  waiting_functors l (cl_server w) = g :: rest → functor_phase g = Some ph → about g = Some c →
  cl_ids w !! (l, p) = Some c → conns (cl_server w) !! c = Some conn →
  (∀ q, stage_at s' q = if decide (q = p) then Some (phase_stage ph) else stage_at s q) →
  rx_mapped s' = rx_mapped s → loop_queue s = (p, f) :: loop_queue s' →
  server_waiting s' = server_waiting s →
  wp (on_server startLoop (RunLoop l)) (λ _ w', cluster_inv None w') (put_loop l s' w).
Proof.
  intros Hinv Hl Hs' Hw Hph Hg Hid Hc Hstage Hmap Hq Htok.
  destruct (cv_linked _ _ Hinv _ _ _ Hid) as (s1 & conn1 & Hl1 & Hc1 & Hcl & _ & _ & Hm).
  assert (s1 = s) as -> by congruence. assert (conn1 = conn) as -> by congruence.
  pose proof (waiting_all w l c conn Hinv Hc Hcl) as Hall. rewrite Hw in Hall. symmetry in Hall.
  set (srv := cl_server w) in *.
  destruct (run_loop_step startLoop srv l g rest c ph (cv_srv_inv w Hinv) Hall Hph Hg) as [Hrun _].
  eapply wp_on_server; [exact Hrun|]. set (srv' := update_conn c _ _).
  assert (∀ l', queue_of l' srv' = if decide (l' = l) then rest else queue_of l' srv) as Hqo.
  { intros l'. unfold srv', update_conn, put_queue. unfold queue_of. cbn. rewrite lookup_insert.
    repeat case_decide; congruence || done. }
  apply (phase_change_inv None None w l p c s conn srv' s' ph); try done.
  - eapply server_event_reachable; [apply Hinv| |exact Hrun]. done.
  - by rewrite Hmap.
  - rewrite Hmap. apply Hm.
  - intros l' Hne. apply waiting_same_queues. by rewrite Hqo, decide_False.
  - pose proof (cv_queue _ _ Hinv l s Hl) as Hf. fold srv in Hf. rewrite Hq, Hw in Hf.
    apply Forall2_cons in Hf as [_ Hf]. unfold waiting_functors at 1. rewrite Hqo, decide_True by done.
    assert (filter (λ f, removal f = false) rest = rest) as Heq.
    { apply (filter_tail _ g). rewrite <-Hall. unfold waiting_functors in Hw. fold srv in Hw.
      congruence. }
    by rewrite Heq.
  - intros l' c'. rewrite Hqo. case_decide as Hll.
    + intros Hin. apply (cv_removals _ _ Hinv l c'). fold srv. rewrite Hall. by apply list_elem_of_further.
    + apply (cv_removals _ _ Hinv).
  - intros l'. f_equal. unfold removals. rewrite Hqo. case_decide as Hll; [|done]. fold srv.
    rewrite Hll, Hall, filter_cons_False; [done|]. by destruct g.
Qed.

Lemma functor_round w l s s' o functors :
  cluster_inv None w → cl_loops w !! l = Some s → loop_reachable s' → rx_phase s = Running (o :: functors) →
  ran o functors s s' → functors_of (rx_phase s') = functors →
  server_waiting s' = server_waiting s →
  wp (match next_functor o s with
      | Some (_, TcpConnection.ConnectEstablished) | Some (_, TcpConnection.ConnectDestroyed) =>
          on_server startLoop (RunLoop l)
      | _ => mret tt
      end) (λ _ w', cluster_inv None w') (put_loop l s' w).
Proof.
  intros Hinv Hl Hs' Hph [Hmap Hstage Hbefore Hq] Hfun Htok.
  assert (loop_queue s = srv_queue (o :: functors) s) as Hqs by (unfold loop_queue; by rewrite Hph).
  assert (loop_queue s' = srv_queue functors s') as Hqs' by (unfold loop_queue; by rewrite Hfun).
  rewrite <-Hqs, <-Hqs' in Hq. clear Hqs Hqs'.
  destruct (next_functor o s) as [[p f]|] eqn:Hnext; [|wp_step; by apply (quiet_inv None None w l s); rewrite ?Htok].
  destruct (decide (own_functor f)) as [Hf|Hf].
  { assert (cluster_inv None (put_loop l s' w)) as Hinv'.
    { cbn [snd] in Hq. rewrite decide_True in Hq by done. apply (quiet_inv None None w l s); rewrite ?Htok; try done.
      intros q. rewrite Hstage, decide_False; [done|]. intros [= -> ->]. by destruct Hf. }
    destruct f; try (by wp_step); by destruct Hf. }
  cbn [snd] in Hq. rewrite decide_False in Hq by done.
  pose proof (cv_queue _ _ Hinv l s Hl) as Hfor. rewrite Hq in Hfor.
  apply Forall2_cons_inv_l in Hfor as (g & rest & (c & Hid & Hg) & _ & Hw). cbn in Hid, Hg.
  destruct (cv_linked _ _ Hinv _ _ _ Hid) as (s1 & conn & Hl1 & Hc & Hcl & _ & Hst & _).
  assert (s1 = s) as -> by congruence.
  destruct Hg as [[-> ->]|[-> ->]].
  - eapply (functor_step w l s s' p); try done. intros q. rewrite Hstage.
    destruct (decide (q = p)) as [->|]; [by rewrite decide_True|by rewrite decide_False by congruence].
  - eapply (functor_step w l s s' p); try done.
    assert (conn_phase conn = Closed) as Hcp.
    { assert (TcpServer.ConnectDestroyed c ∈ queue_of l (cl_server w)) as Hin.
      { rewrite <-(waiting_all w l c conn) by done. rewrite Hw. apply list_elem_of_here. }
      apply (si_queued _ _ _ (cv_srv_inv w Hinv)) in Hin as (conn' & Hc' & ? & _).
      by assert (conn' = conn) as -> by congruence. }
    intros q. rewrite Hstage, decide_False by congruence.
    destruct (decide (q = p)) as [->|]; [by rewrite Hst, Hcp|done].
Qed.

(** ** Closing *)

Lemma put_loop_twice l s1 s2 srv w :
  put_loop l s2 (set_cl_server srv (put_loop l s1 w)) = put_loop l s2 (set_cl_server srv w).
Proof. unfold put_loop, set_cl_server. cbn. by rewrite insert_insert_eq. Qed.

(** The names of the connections are different. *)
Lemma unmapped_others {d} w c c' conn conn' :
  cluster_inv d w → conns (cl_server w) !! c = Some conn → conns (cl_server w) !! c' = Some conn' →
  c' ≠ c → ∀ srv', connections_ srv' = delete (conn_name conn) (connections_ (cl_server w)) →
  mapped c' conn' srv' ↔ mapped c' conn' (cl_server w).
Proof.
  intros Hinv Hc Hc' Hne srv' Hdel. unfold mapped. rewrite Hdel, lookup_delete_ne; [done|].
  intros Hn. by apply Hne, eq_sym, (names_differ startLoop None _ _ _ conn conn' (cv_srv_inv w Hinv)).
Qed.

(** What the server forgets and the loop is told are the same connection. *)
Lemma taken_out_inv d d' w l p c s conn srv' s' s'' :
  cluster_inv d w → cl_ids w !! (l, p) = Some c → cl_loops w !! l = Some s →
  conns (cl_server w) !! c = Some conn → conn_loop conn = l →
  srv_reachable startLoop srv' → loop_reachable s'' →
  (loop_ srv', srv_started srv', threadPool_ srv') =
    (base w, srv_started (cl_server w), threadPool_ (cl_server w)) →
  conns srv' = alter (set_phase Closed) c (conns (cl_server w)) →
  connections_ srv' = delete (conn_name conn) (connections_ (cl_server w)) →
  (∀ l', waiting_functors l' srv' = waiting_functors l' (cl_server w) ++
     if decide (l' = l) then [TcpServer.ConnectDestroyed c] else []) →
  (∀ l' c', RemoveConnectionInLoop c' ∈ queue_of l' srv' → io_loops w ≠ []) →
  rx_mapped s' = rx_mapped s →
  (∀ q, stage_at s' q = if decide (q = p) then Some Shut else stage_at s q) →
  loop_queue s' = loop_queue s →
  taken_out p (functors_of (rx_phase s')) s' s'' →
  functors_of (rx_phase s'') = functors_of (rx_phase s') →
  server_waiting s'' = server_waiting s →
  (∀ l', (removals l' srv' + owed d l' = removals l' (cl_server w) + owed d' l')%nat) →
  cluster_inv d' (put_loop l s'' (set_cl_server srv' w)).
Proof.
  intros Hinv Hid Hl Hc Hcl Hsrv' Hs'' Hfields Hconns Hdel Hwait Hrem Hmap Hstage Hqueue
    [Hmap' Hstage' Hqueue'] Hfun Htok Howed.
  apply (phase_change_inv d d' w l p c s conn srv' s'' Closed); try done.
  - intros c' conn' Hne Hc'. by apply (unmapped_others (d:=d) w c c' conn conn').
  - intros q. rewrite Hstage'. apply Hstage.
  - intros q Hq. rewrite Hmap', Hmap. set_solver.
  - rewrite Hmap'. unfold mapped. rewrite Hdel, lookup_delete_eq. set_solver.
  - intros l' Hne. by rewrite Hwait, decide_False, app_nil_r.
  - unfold loop_queue in *. rewrite Hfun, Hqueue', Hqueue, Hwait, decide_True by done.
    apply Forall2_app; [apply (cv_queue _ _ Hinv l s Hl)|]. apply Forall2_cons. split; [|constructor].
    exists c. split; [done|by right].
Qed.

(** The number of the calls tells whether the connection has been closed. *)
Lemma closing_cases s s' p :
  reactor_inv s → reactor_inv s' → closing p [] s s' →
  if (closes_at p s <? closes_at p s')%nat
  then p ∈ rx_mapped s ∧ stage_at s p = Some Live ∧
    ∀ q, stage_at s' q = if decide (q = p) then Some Shut else stage_at s q
  else ∀ q, stage_at s' q = stage_at s q.
Proof.
  intros Hinv Hinv' [_ Hstage _]. rewrite (closes_stage s p Hinv), (closes_stage s' p Hinv').
  case_match eqn:Hb.
  - apply Nat.ltb_lt in Hb.
    assert (p ∈ rx_mapped s ∧ stage_at s p = Some Live ∧ stage_at s' p = Some Shut) as (? & ? & ?).
    { destruct (Hstage p) as [Heq|(_ & ? & ? & ?)]; [rewrite Heq in Hb; lia|done]. }
    split_and!; [done..|]. intros q. destruct (decide (q = p)) as [->|]; [done|].
    by destruct (Hstage q) as [?|[? _]].
  - apply Nat.ltb_ge in Hb. intros q.
    destruct (Hstage q) as [?|(-> & _ & Hlive & Hshut)]; [done|].
    rewrite Hlive, Hshut in Hb. simpl in Hb. lia.
Qed.

(** The server is told in another thread than the base loop's. *)
Lemma wp_queue_removal w b :
  cluster_inv (Some (base w)) w → cl_loops w !! base w = Some b →
  wp (on_loop (base w) queue_removal) (λ _ w', cluster_inv None w') w.
Proof.
  intros Hinv Hb. eapply wp_on_loop; [exact Hb|].
  wp_apply (wp_other_event QueueRemoval b); [done|by eapply cv_loop|done|].
  intros [] b' (Hb' & Hfun & Htok & [Hmap Hstage Hq]).
  apply (quiet_inv (Some (base w)) None w (base w) b); try done.
  - unfold loop_queue. by rewrite Hfun.
  - rewrite Htok, owed_here, owed_none. cbn [event_tokens]. lia.
  - intros l' Hne. by rewrite owed_other.
Qed.

(** The connection [c], at [p] in the loop [l], has been closed in the step from
    [s] to [s']; the server has still to be told. *)
Section closed.
Context (w : CL) (l p : ptr) (c : nat) (s s' : RX) (conn : Conn).
Context (Hinv : cluster_inv None w) (Hid : cl_ids w !! (l, p) = Some c)
  (Hl : cl_loops w !! l = Some s) (Hc : conns (cl_server w) !! c = Some conn) (Hcl : conn_loop conn = l)
  (Hs' : loop_reachable s') (Hmapped : p ∈ rx_mapped s) (Hmap : rx_mapped s' = rx_mapped s)
  (Hstage : ∀ q, stage_at s' q = if decide (q = p) then Some Shut else stage_at s q)
  (Hqueue : loop_queue s' = loop_queue s) (Htok : server_waiting s' = server_waiting s)
  (Hturn : rx_phase s' ≠ AtPoll).
Let srv : Server := cl_server w.
Let srv1 : Server := update_conn c (set_phase Closed) (set_cur l srv).

(** On the base loop. *)
Lemma wp_closed_base (srv' := remove_in_loop c conn srv1) :
  srv_reachable startLoop srv' →
  wp (on_loop l (remove_connection true p)) (λ _ w', cluster_inv None w')
    (set_cl_server srv' (put_loop l s' w)).
Proof.
  intros Hsrv'. pose proof (Hstage p) as Hshut. rewrite decide_True in Hshut by done.
  eapply wp_on_loop; [cbn; apply lookup_insert_eq|].
  wp_apply (wp_other_event (RemoveConnection true p) s'); [done|done| |].
  { split_and!; [by intros _|by rewrite Hmap|]. apply closed_called; [|done]. by apply reactor_reachable_inv. }
  intros [] s'' (Hs'' & Hfun & Htok' & Htaken). rewrite put_loop_twice.
  apply (taken_out_inv None None w l p c s conn srv' s' s''); try done.
  - intros l'. unfold srv', remove_in_loop. rewrite waiting_push, Hcl. f_equal.
    repeat case_decide; tauto || done.
  - intros l' c'. unfold srv', remove_in_loop. rewrite elem_push. intros [Hin|[_ ?]]; [|done].
    by apply (cv_removals _ _ Hinv l' c').
  - rewrite Htok', Htok. symmetry. apply plus_n_O.
  - intros l'. f_equal. unfold srv', remove_in_loop.
    rewrite removals_push, decide_False by (intros [_ ?]; done). symmetry. apply plus_n_O.
Qed.

(** On an io loop. *)
Lemma closed_elsewhere (srv' := push (loop_ srv) (RemoveConnectionInLoop c) srv1) :
  l ≠ base w → srv_reachable startLoop srv' →
  cluster_inv (Some (base w)) (put_loop l s' (set_cl_server srv' w)).
Proof.
  intros Hbase Hsrv'.
  apply (phase_change_inv None (Some (base w)) w l p c s conn srv' s' Closed); try done.
  - intros q _. by rewrite Hmap.
  - destruct (cv_linked _ _ Hinv _ _ _ Hid) as (s1 & conn1 & Hl1 & Hc1 & _ & _ & _ & Hm).
    assert (s1 = s) as -> by congruence. assert (conn1 = conn) as -> by congruence. by rewrite Hmap.
  - intros l' _. unfold srv'. rewrite waiting_push, decide_False by (intros [_ ?]; done).
    by rewrite app_nil_r.
  - unfold srv'. rewrite Hqueue, waiting_push, decide_False, app_nil_r by (intros [_ ?]; done).
    apply (cv_queue _ _ Hinv l s Hl).
  - intros l' c' _ Hnil. pose proof (cv_where _ _ Hinv c conn Hc) as Hw.
    rewrite decide_True, Hcl in Hw by done. done.
  - intros l'. unfold srv'. rewrite removals_push. change (base w) with (loop_ srv).
    change (removals l' srv1) with (removals l' (cl_server w)).
    destruct (decide (l' = loop_ srv)) as [->|Hne].
    + rewrite owed_here, owed_none, decide_True by done. lia.
    + rewrite owed_other, decide_False by tauto. done.
Qed.
End closed.

Lemma closing_round w l s s' p act :
  cluster_inv None w → cl_loops w !! l = Some s → loop_reachable s' →
  closing p [] s s' → functors_of (rx_phase s) = [] → rx_phase s' = Handling act →
  server_waiting s' = server_waiting s →
  wp (when (closes_at p s <? closes_at p s')%nat (connection_closed startLoop l p))
    (λ _ w', cluster_inv None w') (put_loop l s' w).
Proof.
  intros Hinv Hl Hs' Hclosing Hf Hph' Htok.
  assert (functors_of (rx_phase s') = []) as Hf' by (by rewrite Hph').
  assert (rx_phase s' ≠ AtPoll) as Hturn by (by rewrite Hph').
  pose proof (closing_cases s s' p (cv_reactor w l s Hinv Hl) (reactor_reachable_inv s' Hs') Hclosing)
    as Hcases. destruct Hclosing as [Hmap _ Hq _].
  assert (loop_queue s' = loop_queue s) as Hqueue by (unfold loop_queue; by rewrite Hf, Hf').
  apply wp_when; intros Hb; rewrite Hb in Hcases;
    [|by apply (quiet_inv None None w l s); rewrite ?Htok].
  destruct Hcases as (Hp & Hlive & Hst').
  destruct (cluster_connection w l s p Hinv Hl) as (c & conn & Hid & Hc & Hcl & _ & Hst & _);
    [by eexists|].
  assert (conn_phase conn = Connected) as Hph.
  { rewrite Hlive in Hst. destruct (conn_phase conn); simpl in Hst; congruence. }
  pose proof (run_close_step startLoop (cl_server w) c conn Hc) as Hrun.
  assert (srv_reachable startLoop (close_step c conn (cl_server w))) as Hsrv'.
  { eapply server_event_reachable; [apply Hinv| |exact Hrun]. by exists conn. }
  unfold connection_closed. wp_step. eapply wp_deref; [exact Hid|]. wp_step.
  eapply wp_on_server; [exact Hrun|]. do 2 wp_step. unfold close_step in *. rewrite Hcl in *.
  destruct (decide (l = loop_ (cl_server w))) as [Hbase|Hbase].
  - rewrite bool_decide_eq_true_2 by (exact Hbase).
    by apply (wp_closed_base w l p c s s' conn).
  - rewrite bool_decide_eq_false_2 by (exact Hbase). set (srv' := push _ _ _) in *.
    assert (cluster_inv (Some (base w)) (put_loop l s' (set_cl_server srv' w))) as Hinv1
      by (by apply (closed_elsewhere w l p c s s' conn)).
    destruct (cv_base _ _ Hinv1) as [b Hbl].
    exact (wp_queue_removal (put_loop l s' (set_cl_server srv' w)) b Hinv1 Hbl).
Qed.

(** ** The base loop removes a connection *)

(** Removals wait in the base loop only, and nothing else of the server does. *)
Lemma base_queue {d} w f :
  cluster_inv d w → io_loops w ≠ [] → f ∈ queue_of (base w) (cl_server w) → removal f = true.
Proof.
  intros Hinv Hio Hf. pose proof (si_queued _ _ _ (cv_srv_inv w Hinv) _ _ Hf) as Hok.
  assert (∀ c conn, conns (cl_server w) !! c = Some conn → base w ≠ conn_loop conn) as Hne.
  { intros c conn Hc Heq. pose proof (cv_where _ _ Hinv c conn Hc) as Hw.
    rewrite decide_False, <-Heq in Hw by done. by destruct (cv_pool _ _ Hinv _ Hw) as [_ []]. }
  destruct f; cbn in Hok; [done| |done|]; destruct Hok as (conn & Hc & _ & Hl);
    pose proof (Hne _ _ Hc); tauto.
Qed.

Lemma removals_elem l srv : removals l srv ≠ 0%nat → ∃ c, RemoveConnectionInLoop c ∈ queue_of l srv.
Proof.
  unfold removals. intros Hne.
  destruct (filter (λ f, removal f = true) (queue_of l srv)) as [|f q] eqn:Hq; [done|].
  assert (f ∈ filter (λ f, removal f = true) (queue_of l srv)) as [Hf Hin]%list_elem_of_filter
    by (rewrite Hq; apply list_elem_of_here). destruct f; try done. eauto.
Qed.

(** A removal that is in the queue is in the base loop's. *)
Lemma removals_base {d} w l :
  cluster_inv d w → removals l (cl_server w) ≠ 0%nat → l = base w ∧ io_loops w ≠ [].
Proof.
  intros Hinv [c Hc]%removals_elem. split; [|by eapply cv_removals].
  by apply (si_queued _ _ _ (cv_srv_inv w Hinv)) in Hc as (? & _ & _ & ? & _).
Qed.

Lemma oldest_removal w :
  cluster_inv (Some (base w)) w →
  ∃ c q, queue_of (base w) (cl_server w) = RemoveConnectionInLoop c :: q ∧ io_loops w ≠ [].
Proof.
  intros Hinv. destruct (cv_base _ _ Hinv) as [b Hb]. pose proof (cv_tokens _ _ Hinv _ _ Hb) as Htok.
  rewrite owed_here in Htok.
  destruct (removals_base w (base w) Hinv ltac:(lia)) as [_ Hio].
  destruct (removals_elem (base w) (cl_server w) ltac:(lia)) as [c Hc].
  destruct (queue_of (base w) (cl_server w)) as [|f q] eqn:Hq; [by apply not_elem_of_nil in Hc|].
  pose proof (base_queue w f Hinv Hio ltac:(rewrite Hq; apply list_elem_of_here)) as Hf.
  destruct f as [| |c'|]; try done. by exists c', q.
Qed.

Lemma wp_run_removal w :
  cluster_inv (Some (base w)) w →
  wp (run_removal startLoop) (λ _ w', cluster_inv None w' ∧ conns (cl_server w') = conns (cl_server w) ∧
    base w' = base w ∧ io_loops w' = io_loops w ∧
    (∀ l, l = base w → cl_loops w' !! l = cl_loops w !! l)) w.
Proof.
  intros Hinv. set (srv := cl_server w). unfold run_removal. do 4 wp_step.
  destruct (oldest_removal w Hinv) as (c & q & Hq & Hne). rewrite Hq.
  change (queue_of (loop_ srv) srv = RemoveConnectionInLoop c :: q) in Hq.
  destruct (run_removal_step startLoop srv q c (cv_srv_inv w Hinv) Hq) as (conn & Hc & Hph & Hm & Hrun).
  set (srv' := remove_in_loop c conn _) in *. set (l := conn_loop conn).
  assert (srv_reachable startLoop srv') as Hsrv'.
  { eapply server_event_reachable; [apply Hinv| |exact Hrun]. done. }
  destruct (cv_alive _ _ Hinv c conn Hc) as [p Hid]; [by rewrite Hph|]. fold l in Hid.
  destruct (cv_linked _ _ Hinv _ _ _ Hid) as (s & conn' & Hl & Hc' & Hcl & Ha & Hst & Hp).
  assert (conn' = conn) as -> by (unfold srv in *; congruence).
  assert (l ≠ loop_ srv) as Hbase.
  { pose proof (cv_where _ _ Hinv c conn Hc) as Hw. rewrite decide_False in Hw by done.
    by apply (cv_pool _ _ Hinv) in Hw as [_ ?]. }
  wp_step. eapply wp_on_server; [exact Hrun|]. wp_step. eapply wp_deref; [exact Hc|].
  wp_step. eapply wp_deref; [exact Ha|]. fold l.
  eapply wp_on_loop; [exact Hl|].
  wp_apply (wp_other_event (RemoveConnection false p) s); [done|by eapply cv_loop| |].
  { split_and!; [done|by apply Hp|]. apply closed_called; [by eapply cv_reactor|]. by rewrite Hst, Hph. }
  intros [] s' (Hs' & Hfun & Htok & Htaken).
  assert (alter (set_phase Closed) c (conns srv) = conns srv) as Hsame.
  { apply list_eq. intros i. destruct (decide (i = c)) as [->|]; [|by rewrite list_lookup_alter_ne by congruence].
    rewrite list_lookup_alter_eq, Hc. cbn. f_equal. destruct conn. cbn in *. by rewrite Hph. }
  split.
  2:{ split_and!; try done. intros l' ->. cbn. by rewrite lookup_insert_ne. }
  apply (taken_out_inv (Some (base w)) None w l p c s conn srv' s s'); try done.
  - intros l'. unfold srv', remove_in_loop. rewrite waiting_push. fold l. f_equal.
    + transitivity (waiting_functors l' (put_queue (loop_ srv) q srv)); [done|].
      rewrite waiting_put. case_decide as Hll; [|done]. unfold waiting_functors. fold srv.
      by rewrite Hll, Hq, filter_cons_False.
    + repeat case_decide; tauto || done.
  - intros r. destruct (decide (r = p)) as [->|]; [|done]. by rewrite Hst, Hph.
  - rewrite Htok. symmetry. apply plus_n_O.
  - intros l'. unfold srv', remove_in_loop. rewrite removals_push, decide_False by (intros [_ ?]; done).
    change (base w) with (loop_ srv). fold srv. rewrite Nat.add_0_r.
    change (removals l' (set_connections _ _)) with (removals l' (put_queue (loop_ srv) q srv)).
    unfold removals. rewrite queue_of_put.
    destruct (decide (l' = loop_ srv)) as [->|Hll].
    + rewrite Hq, owed_here, owed_none, filter_cons_True by done. simpl. lia.
    + by rewrite owed_other.
Qed.

(** ** User code and the last reference *)

Lemma wp_user_event l ev s w :
  cluster_inv None w → cl_loops w !! l = Some s → loop_event_ok ev s →
  (∃ here p cmd, ev = CallConnection here p cmd) ∨ (∃ b cmd, ev = CallTimers b cmd) →
  wp (on_loop l (run_loop_event ev)) (λ _ w', cluster_inv None w') w.
Proof.
  intros Hinv Hl Hok Hev. eapply wp_on_loop; [exact Hl|].
  wp_apply (wp_other_event ev s); [|by eapply cv_loop|done|].
  { intros ?. by destruct Hev as [(? & ? & ? & ->)|(? & ? & ->)]. }
  intros [] s' (Hs' & Hfun & Htok & Hv).
  assert (same_view (functors_of (rx_phase s)) s (functors_of (rx_phase s)) s' ∧ event_tokens ev = 0%nat)
    as [[? ? Hq] Hev0] by (by destruct Hev as [(? & ? & ? & ->)|(? & ? & ->)]).
  apply (quiet_inv None None w l s); try done; [unfold loop_queue; by rewrite Hfun|lia].
Qed.

(** A functor that waits is one of its connection's. *)
Lemma linear_pending pend q x : x ∈ linear pend q → x.2 ∈ pend x.1.
Proof.
  revert pend. induction q as [|[| |p] q IH]; intros pend; cbn; [by intros []%not_elem_of_nil|apply IH..|].
  destruct (pend p) as [|f r] eqn:Hp; [apply IH|]. intros [->|Hx%IH]%elem_of_cons.
  - cbn. rewrite Hp. apply list_elem_of_here.
  - cbn in Hx. case_decide as Hq; [|done]. rewrite Hq, Hp. by apply list_elem_of_further.
Qed.

Lemma loop_queue_pending s x : x ∈ loop_queue s → x.2 ∈ pending_at s x.1.
Proof.
  unfold loop_queue, srv_queue, server_functors. intros [_ Hx]%list_elem_of_filter.
  by apply linear_pending in Hx.
Qed.

(** Only destroyed connections are released. *)
Lemma released_destroyed {d} w l p s c conn :
  cluster_inv d w → cl_loops w !! l = Some s → cl_ids w !! (l, p) = Some c →
  conns (cl_server w) !! c = Some conn → p ∉ rx_mapped s → pending_at s p = [] →
  conn_phase conn = Destroyed.
Proof.
  intros Hinv Hl Hid Hc Hp Hpend.
  destruct (cv_linked _ _ Hinv _ _ _ Hid) as (s1 & conn1 & Hl1 & Hc1 & Hcl & _ & _ & Hm).
  assert (s1 = s) as -> by congruence. assert (conn1 = conn) as -> by congruence.
  pose proof (si_phase _ _ _ (cv_srv_inv w Hinv) c conn ltac:(done) Hc) as Hok. unfold phase_ok in Hok.
  assert (¬ mapped c conn (cl_server w)) as Hno by by rewrite <-Hm.
  destruct (conn_phase conn); try tauto. exfalso.
  destruct Hok as [[? _]|[_ Hin]]; [done|]. rewrite Hcl, <-(waiting_all w l c conn) in Hin by done.
  apply list_elem_of_lookup in Hin as [i Hi].
  destruct (Forall2_lookup_r _ _ _ i _ (cv_queue _ _ Hinv l s Hl) Hi) as ([q f] & Hx & c' & Hid' & Hf).
  cbn in *. assert (c' = c) as -> by (destruct Hf as [[_ ?]|[_ ?]]; congruence).
  destruct (linked_inj _ _ _ _ _ _ (cv_linked _ _ Hinv _ _ _ Hid) (cv_linked _ _ Hinv _ _ _ Hid')) as [_ ->].
  apply list_elem_of_lookup_2, loop_queue_pending in Hx. cbn in Hx. rewrite Hpend in Hx.
  by apply not_elem_of_nil in Hx.
Qed.

Lemma wp_release_last l p s w :
  cluster_inv None w → cl_loops w !! l = Some s → loop_event_ok (ReleaseConnection p) s →
  wp (on_loop l (run_loop_event (ReleaseConnection p)) ;; modify (forget l p))
    (λ _ w', cluster_inv None w') w.
Proof.
  intros Hinv Hl Hok. pose proof Hok as (x & Hx & Hmapped & Hpend).
  assert (pending_at s p = []) as Hpend' by (unfold pending_at; by rewrite Hx).
  destruct (cluster_connection w l s p Hinv Hl) as (c & conn & Hid & Hc & Hcl & _ & _ & _ & _).
  { unfold stage_at. rewrite Hx. eauto. }
  pose proof (released_destroyed w l p s c conn Hinv Hl Hid Hc Hmapped Hpend') as Hph.
  wp_step. eapply wp_on_loop; [exact Hl|].
  wp_apply (wp_other_event (ReleaseConnection p) s); [done|by eapply cv_loop|done|].
  intros [] s' (Hs' & Hfun & Htok & [Hmap _ Hstage Hq]). wp_step.
  assert (loop_queue s' = loop_queue s) as Hqueue by (unfold loop_queue; by rewrite Hfun).
  pose proof Hinv as [? ? Hlo ? Hpo ? ? Hli Hkn Hal Hqu ? Hto].
  assert (∀ l1, is_Some (cl_loops w !! l1) → is_Some (<[l := s']> (cl_loops w) !! l1)) as Hdom
    by (intros l1 ?; apply lookup_insert_is_Some'; by right).
  split; cbn; try done.
  - intros l1 s1. rewrite lookup_insert_Some. intros [[<- <-]|[_ ?]]; [|by apply Hlo].
    split; [done|by eapply Hlo].
  - by apply Hdom.
  - intros l1 Hl1. destruct (Hpo l1 Hl1). split; [by apply Hdom|done].
  - intros l1 p1 c1 [Hne Hid1]%lookup_delete_Some.
    destruct (Hli _ _ _ Hid1) as (s1 & conn1 & Hl1 & ? & ? & ? & Hst & Hm).
    destruct (decide (l1 = l)) as [->|Hll].
    + assert (s1 = s) as -> by congruence. exists s', conn1. cbn. rewrite lookup_insert_eq.
      rewrite Hstage, decide_False, Hmap by congruence. by split_and!.
    + exists s1, conn1. cbn. by rewrite lookup_insert_ne.
  - intros l1 s1 q. rewrite lookup_insert_Some. intros [[<- <-]|[Hne Hl1]] Hsome.
    + rewrite Hstage in Hsome. destruct (decide (q = p)) as [->|Hqp]; [by destruct Hsome|].
      rewrite lookup_delete_ne by congruence. by apply Hkn with s.
    + rewrite lookup_delete_ne by congruence. by apply Hkn with s1.
  - intros c1 conn1 Hc1 Hph1. destruct (Hal c1 conn1 Hc1 Hph1) as [q Hid1]. exists q.
    rewrite lookup_delete_ne; [done|]. intros [= Hll <-]. rewrite <-Hll in Hid1. congruence.
  - intros l1 s1 Hs1.
    assert (∃ s0, cl_loops w !! l1 = Some s0 ∧ loop_queue s1 = loop_queue s0 ∧
      (l1 = l → s0 = s)) as (s0 & Hs0 & Hq0 & Hsame).
    { rewrite lookup_insert_Some in Hs1. destruct Hs1 as [[<- <-]|[? ?]]; [by exists s|by exists s1]. }
    rewrite Hq0. pose proof (Hqu l1 s0 Hs0) as Hf. apply (Forall2_impl_in _ _ _ _ Hf).
    intros [q f] g Hin (c1 & Hid1 & Hg). cbn in *. exists c1. split; [|done]. cbn.
    rewrite lookup_delete_ne; [done|]. intros [= <- <-]. rewrite Hsame in Hin by done.
    apply loop_queue_pending in Hin. cbn in Hin. rewrite Hpend' in Hin.
    by apply not_elem_of_nil in Hin.
  - intros l1 s1. rewrite lookup_insert_Some. intros [[<- <-]|[_ ?]]; [|by apply Hto].
    rewrite Htok, Nat.add_0_r. by apply Hto.
Qed.

(** ** Setting up *)

Lemma wp_configure ev w :
  cluster_inv None w → setting ev → srv_event_ok ev (cl_server w) →
  wp (on_server startLoop ev) (λ _ w', cluster_inv None w') w.
Proof.
  intros Hinv Hset Hok.
  destruct (run_setting startLoop (cl_server w) ev (cv_srv_inv w Hinv) (cv_started _ _ Hinv) Hset Hok)
    as (srv' & Hrun & [Hloop Hloops Hmap Hconns Hqueues Hst]).
  eapply wp_on_server; [exact Hrun|]. pose proof Hinv as [? ? ? ? ? ? ? Hli ? ? Hqu Hrem Hto].
  assert (∀ l, queue_of l srv' = queue_of l (cl_server w)) as Hq
    by (intros l; unfold queue_of; by rewrite Hqueues).
  unfold io_loops, base in *.
  split; unfold io_loops, base; cbn; rewrite ?Hloop, ?Hloops, ?Hconns, ?Hst; try done.
  - by eapply server_event_reachable.
  - intros l p c Hc. destruct (Hli _ _ _ Hc) as (s & conn & ? & ? & ? & ? & ? & Hm).
    exists s, conn. cbn. rewrite Hconns. unfold mapped in *. by rewrite Hmap.
  - intros l s Hs. rewrite (waiting_same_queues l (cl_server w) srv' (Hq l)). by apply Hqu.
  - intros l c. rewrite Hq. apply Hrem.
  - intros l s. unfold removals. rewrite Hq. apply Hto.
Qed.

(** ** A new connection *)

(** The pool chooses one of the loops. *)
Lemma next_loop {d} w :
  cluster_inv d w → ∃ l pool',
    getNextLoop true (threadPool_ (cl_server w)) = Ok (l, pool') ∧ loops_ pool' = io_loops w ∧
    is_Some (cl_loops w !! l) ∧ if decide (io_loops w = []) then l = base w else l ∈ io_loops w.
Proof.
  intros Hinv. pose proof (cv_srv_inv w Hinv) as Hsrv.
  pose proof (wp_getNextLoop startLoop true eq_refl _ (si_pool _ _ _ Hsrv)) as Hwp.
  apply wp_run in Hwp as (l & pool' & Hget & _ & Hloops & _ & _ & Hnil & Hne).
  exists l, pool'. unfold io_loops. split_and!; [done|done|..].
  - destruct (decide (loops_ (threadPool_ (cl_server w)) = [])) as [Hn|Hn].
    + rewrite (Hnil Hn), (si_base _ _ _ Hsrv). apply (cv_base _ _ Hinv).
    + destruct (Hne Hn) as [Hl _]. apply list_elem_of_lookup_2, (cv_pool _ _ Hinv) in Hl. apply Hl.
  - case_decide as Hn.
    + rewrite (Hnil Hn). apply (si_base _ _ _ Hsrv).
    + destruct (Hne Hn) as [Hl _]. by apply list_elem_of_lookup_2 in Hl.
Qed.

Section accepted.
Context (w : CL) (l p : ptr) (srv' : Server) (s s' : RX) (conn : Conn).
Let here : bool := bool_decide (l = base w).
Let n : nat := length (conns (cl_server w)).
Let w' : CL := MkCluster srv' (<[l := s']> (cl_loops w)) (<[(l, p) := n]> (cl_ids w))
  (cl_addresses w ++ [p]).
Context (Hinv : cluster_inv None w) (Hl : cl_loops w !! l = Some s)
  (Hover : handed_over here p (functors_of (rx_phase s)) s s')
  (Hconn : conn_loop conn = l ∧ conn_phase conn = if here then Connected else Connecting)
  (Hfree : connections_ (cl_server w) !! conn_name conn = None)
  (Hmap' : connections_ srv' = <[conn_name conn := n]> (connections_ (cl_server w)))
  (Hconns : conns srv' = conns (cl_server w) ++ [conn]).

Lemma accepted_lookup c :
  conns srv' !! c = if decide (c = n) then Some conn else conns (cl_server w) !! c.
Proof using Hconns.
  rewrite Hconns. destruct (decide (c = n)) as [->|Hne].
  - unfold n. by rewrite lookup_app_r, Nat.sub_diag by lia.
  - destruct (conns (cl_server w) !! c) eqn:Hc; [by apply lookup_app_l_Some|].
    apply lookup_ge_None in Hc. apply lookup_ge_None. rewrite length_app. simpl. unfold n in Hne. lia.
Qed.

Lemma accepted_fresh l1 p1 c :
  cl_ids w !! (l1, p1) = Some c → (c < n)%nat ∧ (l, p) ≠ (l1, p1).
Proof using Hinv Hl Hover.
  intros Hid. destruct (cv_linked _ _ Hinv _ _ _ Hid) as (s1 & conn1 & Hl1 & Hc1 & _ & _ & Hst & _).
  split; [by apply lookup_lt_Some in Hc1|]. intros [= <- <-].
  assert (s1 = s) as -> by congruence. rewrite (ho_before _ _ _ _ _ Hover) in Hst. done.
Qed.

Lemma accepted_functors l1 x g :
  functor_for (cl_ids w) l1 x g → functor_for (cl_ids w') l1 x g.
Proof using Hinv Hl Hover.
  intros (c & Hid & Hg). exists c. split; [|done]. cbn in *.
  destruct (accepted_fresh _ _ _ Hid). by rewrite lookup_insert_ne.
Qed.

(** The entries of the earlier connections in the map are as before. *)
Lemma accepted_mapped c conn1 : (c < n)%nat → mapped c conn1 srv' ↔ mapped c conn1 (cl_server w).
Proof using Hfree Hmap'.
  intros Hc. unfold mapped. rewrite Hmap'. destruct (decide (conn_name conn1 = conn_name conn)) as [->|Hne].
  - rewrite lookup_insert_eq, Hfree. split; [intros [= Heq]; lia|done].
  - by rewrite lookup_insert_ne.
Qed.

Lemma accepted_linked l1 p1 c : cl_ids w' !! (l1, p1) = Some c → linked w' l1 p1 c.
Proof.
  destruct Hover as [Hmap _ Hstage _], Hconn as [Hcl Hph].
  cbn. rewrite lookup_insert_Some. intros [[[= <- <-] <-]|[Hne Hid]].
  - exists s', conn. cbn. rewrite lookup_insert_eq, accepted_lookup, Hstage, !decide_True, Hph by done.
    split_and!; [done..| | |].
    + unfold n. by rewrite <-(cv_addresses _ _ Hinv), lookup_app_r, Nat.sub_diag by lia.
    + by destruct here.
    + rewrite Hmap. unfold mapped. rewrite Hmap', lookup_insert_eq. set_solver.
  - destruct (accepted_fresh _ _ _ Hid) as [Hlt _].
    destruct (cv_linked _ _ Hinv _ _ _ Hid) as (s1 & conn1 & Hl1 & Hc1 & Hcl1 & Ha1 & Hst1 & Hm1).
    assert (cl_addresses w' !! c = Some p1) as Ha' by (by apply lookup_app_l_Some).
    exists (if decide (l1 = l) then s' else s1), conn1. cbn.
    rewrite accepted_lookup, (decide_False (P:=c = n)), (accepted_mapped c conn1) by lia.
    destruct (decide (l1 = l)) as [->|Hll].
    + assert (s1 = s) as -> by congruence. assert (p1 ≠ p) as Hpp by congruence.
      rewrite lookup_insert_eq, Hstage, decide_False, Hmap, <-Hm1 by done. split_and!; try done; set_solver.
    + by rewrite lookup_insert_ne.
Qed.

Lemma accepted_queue l1 s1 :
  (∀ l', queue_of l' srv' = queue_of l' (cl_server w) ++
    if decide (l' = l ∧ here = false) then [TcpServer.ConnectEstablished n] else []) →
  functors_of (rx_phase s') = functors_of (rx_phase s) →
  cl_loops w' !! l1 = Some s1 →
  Forall2 (functor_for (cl_ids w') l1) (loop_queue s1) (waiting_functors l1 srv').
Proof using Hconn Hinv Hl Hover.
  intros Hqueues Hfun Hl1.
  assert (waiting_functors l1 srv' = waiting_functors l1 (cl_server w) ++
    if decide (l1 = l ∧ here = false) then [TcpServer.ConnectEstablished n] else []) as ->.
  { unfold waiting_functors. rewrite Hqueues, filter_app. f_equal.
    by destruct (decide (l1 = l ∧ here = false)). }
  cbn in Hl1. rewrite lookup_insert_Some in Hl1. destruct Hl1 as [[<- <-]|[Hne Hl1]].
  - unfold loop_queue. rewrite Hfun, (ho_queue _ _ _ _ _ Hover). apply Forall2_app.
    + eapply Forall2_impl; [apply (cv_queue _ _ Hinv l s Hl)|]. apply accepted_functors.
    + destruct here; [by rewrite decide_False by (intros [_ ?]; done)|].
      rewrite decide_True by done. apply Forall2_cons. split; [|constructor].
      exists n. split; [apply lookup_insert_eq|by left].
  - rewrite decide_False, app_nil_r by (intros [? _]; done).
    eapply Forall2_impl; [apply (cv_queue _ _ Hinv l1 s1 Hl1)|]. apply accepted_functors.
Qed.
End accepted.

Lemma accepted_inv w l p fd peer srv' pool' s s' :
  cluster_inv None w → cl_loops w !! l = Some s →
  getNextLoop true (threadPool_ (cl_server w)) = Ok (l, pool') → loops_ pool' = io_loops w →
  (if decide (io_loops w = []) then l = base w else l ∈ io_loops w) →
  srv_reachable startLoop srv' → loop_ srv' = base w →
  srv_started srv' = srv_started (cl_server w) → connection_added fd peer (cl_server w) srv' →
  loop_reachable s' →
  handed_over (bool_decide (l = base w)) p (functors_of (rx_phase s)) s s' →
  functors_of (rx_phase s') = functors_of (rx_phase s) → server_waiting s' = server_waiting s →
  cluster_inv None (MkCluster srv' (<[l := s']> (cl_loops w))
    (<[(l, p) := length (conns (cl_server w))]> (cl_ids w)) (cl_addresses w ++ [p])).
Proof.
  intros Hinv Hl Hget Hpool' Hwhere Hsrv' Hloop Hst' Hadd Hs' Hover Hfun Htok.
  destruct Hadd as (l' & pool2 & localAddr & Hget' & Hp' & Hfree & Hmap' & Hconns & Hqueues).
  assert (l' = l ∧ pool2 = pool') as [-> ->] by (rewrite Hget in Hget'; by injection Hget').
  clear Hget'. change (loop_ (cl_server w)) with (base w) in *.
  set (conn := MkConn _ _ _ _ _ _ _) in Hconns. set (w' := MkCluster _ _ _ _).
  assert (io_loops w' = io_loops w) as Hio by (unfold io_loops; cbn; by rewrite Hp').
  assert (base w' = base w) as Hbase by done.
  pose proof Hinv as [? Hst0 Hlo Hba Hpo Hwh Had _ Hkn Hal _ Hrem Hto].
  pose proof (accepted_lookup w srv' conn Hconns) as Hlook.
  assert (∀ l1, is_Some (cl_loops w !! l1) → is_Some (<[l := s']> (cl_loops w) !! l1)) as Hdom
    by (intros l1 ?; apply lookup_insert_is_Some'; by right).
  split; rewrite ?Hio, ?Hbase; try done.
  - cbn. congruence.
  - intros l1 s1. cbn. rewrite lookup_insert_Some. intros [[<- <-]|[_ ?]]; [|by apply Hlo].
    split; [done|by eapply Hlo].
  - by apply Hdom.
  - intros l1 Hl1. destruct (Hpo l1 Hl1). split; [by apply Hdom|done].
  - intros c conn1. cbn. rewrite Hlook. destruct (decide (c = _)); [intros [= <-]; exact Hwhere|exact (Hwh c conn1)].
  - cbn. by rewrite Hconns, !length_app, Had.
  - by apply (accepted_linked w l p srv' s s' conn).
  - intros l1 s1 q. cbn. rewrite !lookup_insert_Some.
    intros Hcase Hsome. apply lookup_insert_is_Some'.
    destruct Hcase as [[<- <-]|[Hne Hl1]]; [|right; by apply Hkn with s1].
    rewrite (ho_stage _ _ _ _ _ Hover) in Hsome.
    destruct (decide (q = p)) as [->|Hqp]; [by left|right]. by apply Hkn with s.
  - intros c conn1. cbn. rewrite Hlook. destruct (decide (c = _)) as [->|Hne].
    + intros [= <-] _. exists p. apply lookup_insert_eq.
    + intros Hc1 Hph. destruct (Hal c conn1 Hc1 Hph) as [p1 Hid]. exists p1.
      destruct (accepted_fresh w l p s s' Hinv Hl Hover _ _ _ Hid). by rewrite lookup_insert_ne.
  - intros l1 s1. by apply (accepted_queue w l p srv' s s' conn).
  - intros l1 c. cbn. rewrite Hqueues, elem_of_app. intros [Hin|Hin]; [by eapply Hrem|].
    case_decide; [by apply list_elem_of_singleton in Hin|by apply not_elem_of_nil in Hin].
  - intros l1 s1. cbn.
    assert (removals l1 srv' = removals l1 (cl_server w)) as ->.
    { unfold removals. rewrite Hqueues, filter_app, length_app.
      destruct (decide (l1 = l ∧ bool_decide (l = base w) = false)); apply Nat.add_0_r. }
    rewrite lookup_insert_Some. intros [[<- <-]|[_ ?]]; [rewrite Htok|]; by apply Hto.
Qed.

Lemma accept_phase s : wlp accept_connection (λ _, same_phase s) s.
Proof.
  unfold accept_connection, on_poller. wlp_run. destruct (accept4 _) as [[fd k]|]; by wlp_run.
Qed.

Lemma same_phase_phase s s' : same_phase s s' → rx_phase s' = rx_phase s.
Proof. by intros [= ? _ _]. Qed.
Lemma same_phase_waiting s s' : same_phase s s' → server_waiting s' = server_waiting s.
Proof. intros [= Hph Hq _]. unfold server_waiting. by rewrite !server_tokens_app, Hph, Hq. Qed.

(** There is room for one more connection, at the address [p]. *)
Definition accept_ok (p : ptr) w : Prop :=
  nextConnId_ (cl_server w) < 2 ^ 31 - 1 ∧
  ∀ l pool' s, getNextLoop true (threadPool_ (cl_server w)) = Ok (l, pool') →
    cl_loops w !! l = Some s → pw_channels (rx_poller s) !! p = None.

(** The acceptor's callback runs in a turn of the base loop. *)
Definition base_in_turn w : Prop := ∀ b, cl_loops w !! base w = Some b → rx_phase b ≠ AtPoll.

Lemma wp_accept peer p w :
  cluster_inv None w → base_in_turn w → accept_ok p w →
  wp (accept startLoop peer p) (λ _ w', cluster_inv None w') w.
Proof.
  intros Hinv Hturn [Hid Hp]. destruct (next_loop w Hinv) as (l & pool' & Hget & Hpool' & [s Hl] & Hwhere).
  specialize (Hp l pool' s Hget Hl). destruct (cv_loop _ _ Hinv l s Hl) as [Hs Hnz].
  pose proof (reactor_reachable_inv s Hs) as Hrx. unfold reactor_inv in Hrx.
  unfold accept. wp_step. wp_step. wp_step. eapply wp_lift_outcome; [exact Hget|]. cbv beta iota.
  wp_step. eapply wp_on_loop; [exact Hl|].
  pose proof (wp_wlp _ _ _ _ (wp_accept_connection _ _ s Hrx) (accept_phase s)) as Hacc.
  apply wp_run in Hacc as (fd & s1 & Hrun & (Hinv1 & Hv & Hch & Hfd) & Hview).
  pose proof (same_phase_waiting _ _ Hview) as Htok. pose proof (same_phase_phase _ _ Hview) as Hph.
  eapply wp_of_run; [exact Hrun|]. destruct (Hv (functors_of (rx_phase s))) as [Hmap1 Hst1 Hq1].
  assert (∀ here cbs s2, (here = true → l = base w) → server_callbacks cbs →
    match fd with Some fd => hand_over here l p fd cbs s1 = Ok (tt, s2) | None => s2 = s1 end →
    loop_reachable s2) as Hreach.
  { intros here cbs s2 Hhere Hcbs Hs2.
    apply (loop_event_reachable (NewConnection here l p cbs) s); [done|split; [|done]|].
    { intros Hl'. apply Hturn. by rewrite <-Hhere. }
    cbn [run_loop_event]. unfold new_connection. rewrite (run_bind_ok _ _ _ _ _ Hrun).
    destruct fd; [done|by rewrite Hs2]. }
  set (cbs := Programs.callbacks_set (TcpServer.callbacks (cl_server w))).
  destruct fd as [fd|].
  2:{ wp_step. apply (quiet_inv None None w l s); rewrite ?Htok; try done; [by apply (Hreach false cbs)|].
      unfold loop_queue. by rewrite Hph. }
  unfold newConnection. wp_step. wp_step. wp_step.
  destruct (accept_step startLoop (cl_server w) fd peer (cv_srv_inv w Hinv) Hid)
    as (srv' & Hsrv & Hloop & Hst & Hadd).
  eapply wp_on_server; [exact Hsrv|]. wp_step.
  pose proof Hadd as (l' & p' & localAddr & Hget' & _ & _ & _ & Hconns & _).
  assert (l' = l) as -> by congruence.
  eapply wp_deref.
  { cbn. rewrite Hconns, lookup_app_r, Nat.sub_diag by lia. done. }
  cbn [conn_loop conn_callbacks]. do 4 wp_step. change (base (set_cl_server srv' _)) with (loop_ srv').
  rewrite Hloop. fold cbs. change (loop_ (cl_server w)) with (base w).
  eapply wp_on_loop; [cbn; apply lookup_insert_eq|].
  pose proof (wp_wlp _ _ _ _ (wp_hand_over _ _ (bool_decide (l = base w)) l p fd cbs s1 Hinv1 Hnz
    ltac:(congruence) eq_refl (proj1 Hfd) (proj2 Hfd)) (hand_over_phase _ _ _ _ _ s1)) as Hover.
  apply wp_run in Hover as ([] & s2 & Hrun2 & [_ Hho] & Hph2).
  eapply wp_of_run; [exact Hrun2|].
  assert (∀ srv addr ids, put_loop l s2 (MkCluster srv (<[l := s1]> (cl_loops w)) ids addr) =
    MkCluster srv (<[l := s2]> (cl_loops w)) ids addr) as Hput.
  { intros. unfold put_loop. cbn. by rewrite insert_insert_eq. }
  unfold register, set_cl_server. cbn. rewrite Hput.
  eapply (accepted_inv w l p fd peer srv' pool' s s2); try done.
  - by eapply server_event_reachable; [apply Hinv| |exact Hsrv].
  - apply (Hreach (bool_decide (l = base w)) cbs); [by apply bool_decide_eq_true_1|done..].
  - destruct Hho as [Hm2 Hb2 Hs2 Hq2]. split; [by rewrite Hm2, Hmap1|by rewrite <-Hst1| |].
    + intros q. by rewrite Hs2, Hst1.
    + by rewrite Hq2, Hq1.
  - by rewrite (same_phase_phase _ _ Hph2), Hph.
  - by rewrite (same_phase_waiting _ _ Hph2).
Qed.

(** ** All events *)

(** The connection that the step accepts, if it accepts one, can be made. *)
Definition accept_room (l : ptr) (epoll_wait : Z → io_result (list epoll_event)) (p : ptr) w : Prop :=
  ∀ s s' q act, cl_loops w !! l = Some s → rx_phase s = Handling (q :: act) →
    loop_step epoll_wait s = Ok (tt, s') → (reads_of s < reads_of s')%nat →
    accept_ok p (put_loop l s' w).

(** A loop has taken a functor of the server out of its queue. *)
Lemma removal_round w l s s' functors :
  cluster_inv None w → cl_loops w !! l = Some s → loop_reachable s' →
  rx_phase s = Running (OfServer :: functors) → ran OfServer functors s s' →
  functors_of (rx_phase s') = functors → server_waiting s = S (server_waiting s') →
  l = base w ∧ io_loops w ≠ [] ∧ cluster_inv (Some (base w)) (put_loop (base w) s' w).
Proof.
  intros Hinv Hl Hs' Hph [? Hst _ Hq] Hf Htok.
  destruct (removals_base w l Hinv) as [-> Hio].
  { rewrite <-(cv_tokens _ _ Hinv _ _ Hl). lia. }
  split_and!; [done..|]. apply (quiet_inv None (Some (base w)) w (base w) s); try done.
  - unfold loop_queue. by rewrite Hph, Hf.
  - rewrite owed_here, owed_none. lia.
  - intros l' Hne. by rewrite owed_other.
Qed.

(** Only the base loop has an acceptor. *)
Definition one_acceptor w : Prop :=
  ∀ l s, cl_loops w !! l = Some s → is_Some (rx_acceptor s) → l = base w.

Lemma accepting_base w l s s' epoll_wait :
  one_acceptor w → cl_loops w !! l = Some s → loop_step epoll_wait s = Ok (tt, s') →
  (reads_of s < reads_of s')%nat → l = base w.
Proof.
  intros Hone Hl Hrun Hreads. apply (Hone l s Hl). apply loop_step_tokens in Hrun as [_ Hv].
  unfold acceptor_view in Hv. unfold reads_of in Hreads.
  destruct (rx_acceptor s); [by eexists|]. destruct (rx_acceptor s'); [done|lia].
Qed.

Lemma wp_loop_round l epoll_wait peer p s w :
  cluster_inv None w → one_acceptor w → cl_loops w !! l = Some s → loop_event_ok (LoopThread epoll_wait) s →
  accept_room l epoll_wait p w →
  wp (loop_round startLoop l epoll_wait peer p) (λ _ w', cluster_inv None w') w.
Proof.
  intros Hinv Hone Hl Hok Hroom. unfold loop_round. wp_step. eapply wp_deref; [exact Hl|]. wp_step.
  eapply wp_on_loop; [exact Hl|].
  pose proof (wp_round epoll_wait s ltac:(by eapply cv_loop) Hok) as Hstep.
  apply wp_run in Hstep as ([] & s' & Hrun & Hs' & Hv & Htok). eapply wp_of_run; [exact Hrun|].
  wp_step. eapply wp_deref; [cbn; apply lookup_insert_eq|].
  unfold step_view in Hv.
  assert (rx_phase s = AtPoll ∨ rx_phase s = Handling [] ∨ rx_phase s = Running [] →
    cluster_inv None (put_loop l s' w)) as Hquiet.
  { intros Hph. assert (same_view (functors_of (rx_phase s)) s (functors_of (rx_phase s')) s' ∧
      runs_server (rx_phase s) = 0%nat) as [[? ? Hq] Hrun0]
      by (destruct Hph as [Hph|[Hph|Hph]]; by rewrite Hph in *).
    apply (quiet_inv None None w l s); try done. lia. }
  destruct (rx_phase s) as [|[|q act]|[|o functors]] eqn:Hph; cbn [functors_of runs_server] in *;
    try (wp_step; by apply Hquiet; auto).
  - destruct Hv as [Hc Hph']. assert (functors_of (rx_phase s') = []) as Hf by (by rewrite Hph').
    assert (server_waiting s' = server_waiting s) as Htok' by lia.
    apply wp_if; intros Hb.
    + apply wp_accept; [|apply Nat.ltb_lt in Hb|by eapply Hroom, Nat.ltb_lt].
      2:{ assert (l = base w) as -> by (by eapply accepting_base). intros b.
          cbn. rewrite lookup_insert_eq. intros [= <-]. by rewrite Hph'. }
      apply (quiet_inv None None w l s); rewrite ?Htok'; try done; [|apply Hc|].
      * destruct (cl_acceptor _ _ _ _ Hc) as [Ha|?]; [|done]. exfalso. apply Nat.ltb_lt in Hb.
        unfold reads_of in Hb. rewrite Ha in Hb. lia.
      * unfold loop_queue. rewrite Hph, Hf. apply (cl_queue _ _ _ _ Hc).
    + apply closing_round with (s := s) (act := act); try done. by rewrite Hph.
  - destruct Hv as [Hr Hph']. assert (functors_of (rx_phase s') = functors) as Hf by (by rewrite Hph').
    destruct o as [| |q]; [..|by eapply functor_round; try done; lia].
    + by eapply functor_round; try done; lia.
    + destruct (removal_round w l s s' functors) as (-> & _ & Hinv1); try done; [lia|].
      wp_apply wp_run_removal; [exact Hinv1|by intros [] w' [? _]].
Qed.

(** What may happen: as in each of the loops; a connection has an address of its
    own; the server may be set up again. *)
Definition cluster_event_ok (ev : cluster_event (TCB:=TCB)) w : Prop :=
  match ev with
  | LoopRound l epoll_wait _ p =>
      (∃ s, cl_loops w !! l = Some s ∧ loop_event_ok (LoopThread epoll_wait) s) ∧
      accept_room l epoll_wait p w
  | CallOn l here p cmd => ∃ s, cl_loops w !! l = Some s ∧ loop_event_ok (CallConnection here p cmd) s
  | CallTimersOf l b cmd => ∃ s, cl_loops w !! l = Some s ∧ loop_event_ok (CallTimers b cmd) s
  | ReleaseLast l p => ∃ s, cl_loops w !! l = Some s ∧ loop_event_ok (ReleaseConnection p) s
  | Configure ev => setting ev ∧ srv_event_ok ev (cl_server w)
  end.

Lemma wp_run_cluster_event ev w :
  cluster_inv None w → one_acceptor w → cluster_event_ok ev w →
  wp (run_cluster_event startLoop ev) (λ _ w', cluster_inv None w') w.
Proof.
  intros Hinv Hone Hok. destruct ev; cbn [run_cluster_event cluster_event_ok] in *.
  - destruct Hok as [(s & Hl & Hok) Hroom]. by eapply wp_loop_round.
  - destruct Hok as (s & Hl & Hok). eapply wp_user_event; eauto.
  - destruct Hok as (s & Hl & Hok). eapply wp_user_event; eauto.
  - destruct Hok as (s & Hl & Hok). by eapply wp_release_last.
  - destruct Hok. by apply wp_configure.
Qed.

(** ** Construction *)

Context (own_channels : ptr → ptr * ptr).

Lemma mapM_outcome {A B} (f : A → outcome B) (xs : list A) :
  match mapM f xs with
  | Ok ys => Forall2 (λ x y, f x = Ok y) xs ys
  | Fault e => ∃ x, x ∈ xs ∧ f x = Fault e
  end.
Proof.
  induction xs as [|x xs IH]; [constructor|]. cbn. unfold mbind, outcome_bind.
  destruct (f x) as [y|e] eqn:Hx; [|exists x; split; [apply list_elem_of_here|done]].
  destruct (mapM f xs) as [ys|e].
  - by constructor.
  - destruct IH as (x' & Hin & He). exists x'. split; [by apply list_elem_of_further|done].
Qed.

(** The loops are different objects, and so are a loop's own channels and the
    acceptor's. *)
Definition addresses_ok (loop acceptChannel : ptr) (numThreads : Z) : Prop :=
  0 ≤ numThreads < 2 ^ 31 ∧ NoDup (loop :: (startLoop <$> seq 0 (Z.to_nat numThreads))) ∧
  Forall (λ l, l ≠ 0) (loop :: (startLoop <$> seq 0 (Z.to_nat numThreads))) ∧
  (∀ l, (own_channels l).1 ≠ (own_channels l).2) ∧
  acceptChannel ≠ (own_channels loop).1 ∧ acceptChannel ≠ (own_channels loop).2.

Definition cluster_reachable w : Prop :=
  ∃ loop acceptChannel name numThreads kernel_of w0,
    addresses_ok loop acceptChannel numThreads ∧
    start_cluster startLoop own_channels loop acceptChannel name numThreads kernel_of = Ok w0 ∧
    rtc (λ w1 w2, ∃ ev, cluster_event_ok ev w1 ∧ run_cluster_event startLoop ev w1 = Ok (tt, w2)) w0 w.

(** A loop on which nothing has happened yet that the server knows of. *)
Record untouched s : Prop := {
  un_reachable : loop_reachable s;
  un_stage p : stage_at s p = None;
  un_queue : loop_queue s = [];
  un_tokens : server_waiting s = 0%nat;
}.

Lemma constructed_loop kernel_of l s :
  l ≠ 0 → (own_channels l).1 ≠ (own_channels l).2 → construct_loop own_channels kernel_of l = Ok s →
  constructed (own_channels l).1 (own_channels l).2 (kernel_of l) s ∧ untouched s.
Proof.
  intros Hl Hne Hnew. pose proof Hnew as Hnew'. unfold construct_loop in Hnew.
  pose proof (new_EventLoop_spec (TCB:=TCB) l _ _ (kernel_of l) Hl Hne) as Hspec.
  rewrite Hnew in Hspec. split; [done|].
  assert (∀ p, stage_at s p = None) as Hstage
    by (intros p; unfold stage_at; by rewrite (cs_conns _ _ _ _ Hspec), lookup_empty).
  pose proof (cs_pending _ _ _ _ Hspec) as Hp. pose proof (cs_phase _ _ _ _ Hspec) as Hph.
  split; [|done|..]; unfold loop_queue, srv_queue, server_waiting; rewrite ?Hph, ?Hp; try done.
  exists l, (own_channels l).1, (own_channels l).2, (kernel_of l), s. by split_and!.
Qed.

Lemma untouched_event ev s :
  untouched s → loop_event_ok ev s → about_acceptor ev = true →
  wp (run_loop_event ev) (λ _ s', untouched s') s.
Proof.
  intros [Hs Hst Hq Htok] Hok Hev.
  wp_apply (wp_other_event ev s); [by destruct ev|done..|]. intros [] s' (Hs' & Hfun & Htok' & Hv).
  assert (same_view (functors_of (rx_phase s)) s (functors_of (rx_phase s)) s' ∧ event_tokens ev = 0%nat)
    as [[_ Hst' Hq'] Hev0] by by destruct ev.
  split; [done|intros p; by rewrite Hst'| |lia]. unfold loop_queue. by rewrite Hfun, Hq'.
Qed.

(** The base loop with the acceptor, and when it listens. *)
Lemma wp_make_acceptor loop chan s :
  untouched s → loop_event_ok (MakeAcceptor loop chan) s →
  wp (new_acceptor loop chan) (λ _ s', untouched s' ∧ is_Some (rx_acceptor s')) s.
Proof.
  intros Hs Hok. eapply wp_mono.
  - apply wp_and; [exact (untouched_event (MakeAcceptor loop chan) s Hs Hok eq_refl)|].
    destruct Hok as (? & ? & ? & ?). pose proof (reactor_reachable_inv s (un_reachable _ Hs)).
    by eapply wp_new_acceptor.
  - intros [] s' (? & _ & fd & ?). eauto.
Qed.

Definition listening s : Prop := ∃ a, rx_acceptor s = Some a ∧ ac_listening a = true.

Lemma wp_start_listening s :
  untouched s → is_Some (rx_acceptor s) →
  wp listen_acceptor (λ _ s', untouched s' ∧ listening s') s.
Proof.
  intros Hs [a Ha]. pose proof (reactor_reachable_inv s (un_reachable _ Hs)) as Hrx. eapply wp_mono.
  - apply wp_and; [exact (untouched_event ListenAcceptor s Hs (mk_is_Some _ _ Ha) eq_refl)|].
    by apply (wp_listen_acceptor _ _ a s Hrx).
  - intros [] s' (? & _ & ?). split; [done|]. by eexists.
Qed.

(** The base loop listens, and no other loop does. *)
Definition accepting w : Prop :=
  (∃ b, cl_loops w !! base w = Some b ∧ listening b) ∧ one_acceptor w.

(** The kernel gives no descriptor to a loop or to the acceptor. *)
Definition start_refused : Prop :=
  refused (K:=K) ∨ ∃ (k : K) errno, listen_socket k = IoErr errno.

Lemma construct_base kernel_of loop chan s :
  loop ≠ 0 → (own_channels loop).1 ≠ (own_channels loop).2 →
  chan ≠ (own_channels loop).1 → chan ≠ (own_channels loop).2 →
  construct_loop own_channels kernel_of loop = Ok s →
  match new_acceptor loop chan s with
  | Ok (_, s1) => ∃ s2, listen_acceptor s1 = Ok (tt, s2) ∧ untouched s2 ∧ listening s2
  | Fault e => e = AbortFatal ∧ start_refused
  end.
Proof.
  intros Hl Hne Hc1 Hc2 Hnew. destruct (constructed_loop kernel_of loop s Hl Hne Hnew) as [Hcs Hs].
  destruct (listen_socket (epollfd_ (rx_poller s))) as [[fd k']|errno] eqn:Hsock.
  - assert (loop_event_ok (MakeAcceptor loop chan) s) as Hok.
    { split_and!; [done|by eapply constructed_fresh| |eauto]. pose proof (cs_own _ _ _ _ Hcs); congruence. }
    destruct (proj1 (wp_run _ _ _) (wp_make_acceptor loop chan s Hs Hok)) as ([] & s1 & -> & Hs1 & Ha).
    destruct (proj1 (wp_run _ _ _) (wp_start_listening s1 Hs1 Ha)) as ([] & s2 & ? & ? & ?). eauto.
  - unfold new_acceptor, on_poller, zoom, open_or_die, mbind, M_bind, gets. rewrite Hsock. cbn.
    split; [done|]. right. eauto.
Qed.

Lemma fresh_cluster_inv srv (loops : gmap ptr RX) :
  srv_reachable startLoop srv → srv_started srv = true → conns srv = [] → queues srv = ∅ →
  (∀ l s, loops !! l = Some s → untouched s ∧ l ≠ 0) → is_Some (loops !! loop_ srv) →
  (∀ l, l ∈ loops_ (threadPool_ srv) → is_Some (loops !! l) ∧ l ≠ loop_ srv) →
  cluster_inv None (MkCluster srv loops ∅ []).
Proof.
  intros Hsrv Hst Hconns Hqueues Hgood Hbase Hpool.
  assert (∀ l, queue_of l srv = []) as Hq by (intros l; unfold queue_of; by rewrite Hqueues).
  split; cbn; rewrite ?Hconns; try done.
  - intros l s [Hs ?]%Hgood. split; [apply Hs|done].
  - intros l s p [Hs _]%Hgood [st Hst']. by rewrite (un_stage _ Hs) in Hst'.
  - intros l s [Hs _]%Hgood. unfold waiting_functors. rewrite Hq, (un_queue _ Hs). constructor.
  - intros l c. rewrite Hq. by intros []%not_elem_of_nil.
  - intros l s [Hs _]%Hgood. unfold removals. by rewrite Hq, (un_tokens _ Hs).
Qed.

Lemma start_cluster_inv loop acceptChannel name numThreads kernel_of :
  addresses_ok loop acceptChannel numThreads →
  match start_cluster startLoop own_channels loop acceptChannel name numThreads kernel_of with
  | Ok w => cluster_inv None w ∧ accepting w
  | Fault e => e = AbortFatal ∧ start_refused
  end.
Proof.
  intros (Hn & Hnd & Hnz & Hch & Hac1 & Hac2). rewrite Forall_forall in Hnz.
  assert (∀ l, l ∈ loop :: (startLoop <$> seq 0 (Z.to_nat numThreads)) → ∀ e,
    construct_loop own_channels kernel_of l = Fault e (A:=RX) → e = AbortFatal ∧ start_refused) as Hfault.
  { intros l Hl e He.
    pose proof (new_EventLoop_spec (TCB:=TCB) l _ _ (kernel_of l) (Hnz l Hl) (Hch l)) as Hspec.
    unfold construct_loop in He. rewrite He in Hspec. destruct Hspec. by split; [|left]. }
  destruct (start_steps startLoop loop name numThreads Hn)
    as (srv & Hrun & Hsrv & Hst & Hloop & Hconns & Hqueues & Hloops).
  unfold start_cluster. unfold mbind at 1, outcome_bind at 1.
  destruct (construct_loop own_channels kernel_of loop) as [b0|e] eqn:Hb0;
    [|by apply (Hfault loop); [apply list_elem_of_here|]].
  pose proof (construct_base kernel_of loop acceptChannel b0 (Hnz loop ltac:(apply list_elem_of_here))
    (Hch loop) Hac1 Hac2 Hb0) as Hbase.
  destruct (new_acceptor loop acceptChannel b0) as [[[] b1]|e]; [|done].
  destruct Hbase as (b & Hlisten & Hb & Hacc).
  cbn [mbind outcome_bind]. rewrite Hrun. cbn [mbind outcome_bind]. rewrite Hloops.
  set (ls := startLoop <$> _) in *.
  pose proof (mapM_outcome (construct_loop (TCB:=TCB) own_channels kernel_of) ls) as Hmap.
  destruct (mapM _ ls) as [rs|e].
  2:{ destruct Hmap as (l & Hin & He). apply (Hfault l); [by apply list_elem_of_further|done]. }
  cbn [mbind outcome_bind]. rewrite Hlisten. cbn.
  assert (∀ l s, <[loop := b]> (list_to_map (zip ls rs) : gmap ptr RX) !! l = Some s →
    untouched s ∧ l ≠ 0 ∧ (is_Some (rx_acceptor s) → l = loop)) as Hgood.
  { intros l s. rewrite lookup_insert_Some. intros [[<- <-]|[_ Hin]].
    - split_and!; [done| |done]. apply Hnz, list_elem_of_here.
    - apply elem_of_list_to_map_2, list_elem_of_lookup in Hin as [i Hi].
      apply lookup_zip_Some in Hi as [Hi1 Hi2].
      assert (l ≠ 0) as Hl by (apply Hnz, list_elem_of_further; by eapply list_elem_of_lookup_2).
      destruct (constructed_loop _ _ _ Hl (Hch l) (Forall2_lookup_lr _ _ _ _ _ _ Hmap Hi1 Hi2))
        as [Hcs ?]. split_and!; [done..|]. pose proof (cs_own _ _ _ _ Hcs) as [= _ _ ->].
      by intros [? ?]. }
  split.
  2:{ split; [exists b|intros l s]; unfold base; cbn; rewrite Hloop; [by rewrite lookup_insert_eq|].
      apply Hgood. }
  apply fresh_cluster_inv; try done; [by intros l s (? & ? & _)%Hgood|..]; rewrite Hloop;
    [rewrite lookup_insert_eq; eauto|].
  rewrite Hloops. intros l Hl. apply NoDup_cons in Hnd as [Hnot Hnd].
  assert (l ≠ loop) as Hne by (intros ->; done). split; [|done].
  apply list_elem_of_lookup in Hl as [i Hi].
  destruct (Forall2_lookup_l _ _ _ _ _ Hmap Hi) as (s & Hs & _).
  exists s. rewrite lookup_insert_ne by done. apply elem_of_list_to_map_1.
  - rewrite fst_zip; [done|]. apply Nat.eq_le_incl, (Forall2_length _ _ _ Hmap).
  - apply (list_elem_of_lookup_2 _ i). apply lookup_zip_Some. done.
Qed.

(** ** The acceptor stays *)

Definition acceptors w : gmap ptr (option (ptr * Z * bool)) * ptr := (acceptor_view <$> cl_loops w, base w).

Lemma on_loop_acceptors {A} l (m : M RX A) : keeps acceptor_view m → keeps acceptors (on_loop l m).
Proof.
  intros Hm w. unfold on_loop. apply wlp_bind, wlp_deref. intros s Hs. apply wlp_bind, wlp_lift_outcome.
  intros [x s'] Hrun. specialize (Hm _ _ _ Hrun). wlp_run. unfold same_as, acceptors in *. cbn. f_equal.
  rewrite fmap_insert, Hm. apply insert_id. rewrite lookup_fmap. unfold loop_at in Hs. by rewrite Hs.
Qed.

Lemma on_server_acceptors ev : keeps acceptors (on_server startLoop ev).
Proof.
  intros w. unfold on_server. apply wlp_zoom. intros [] srv Hrun.
  apply (run_srv_event_loop startLoop ev) in Hrun. unfold same_as, acceptors in *. cbn. f_equal. exact Hrun.
Qed.

Lemma event_acceptor ev :
  (∀ epoll_wait, ev ≠ LoopThread epoll_wait) → about_acceptor ev = false →
  keeps acceptor_view (run_loop_event ev : M RX unit).
Proof.
  intros Hev Ha s. eapply wlp_mono; [by apply environment_phase|]. intros [] s' Hs'. by apply Hs'.
Qed.

Lemma same_phase_acceptor {A} (m : M RX A) :
  (∀ s, wlp m (λ _, same_phase s) s) → keeps acceptor_view m.
Proof. intros Hm s. eapply wlp_mono; [apply Hm|]. by intros ? s' [= _ _ ?]. Qed.

Lemma register_acceptors l p c : keeps acceptors (modify (register l p c)).
Proof. by apply evolves_modify. Qed.
Lemma forget_acceptors l p : keeps acceptors (modify (forget l p)).
Proof. by apply evolves_modify. Qed.

#[local] Hint Resolve on_server_acceptors register_acceptors forget_acceptors : evolves.

Lemma loop_round_acceptors l epoll_wait peer p : keeps acceptors (loop_round startLoop l epoll_wait peer p).
Proof.
  assert (∀ q, keeps acceptors (on_loop q accept_connection)).
  { intros q. apply on_loop_acceptors, same_phase_acceptor, accept_phase. }
  assert (∀ q here loop r fd cbs, keeps acceptors (on_loop q (hand_over here loop r fd cbs))).
  { intros. apply on_loop_acceptors, same_phase_acceptor. intros s. apply hand_over_phase. }
  assert (∀ q b r, keeps acceptors (on_loop q (remove_connection b r))).
  { intros q b r. by apply on_loop_acceptors, (event_acceptor (RemoveConnection b r)). }
  assert (∀ q, keeps acceptors (on_loop q queue_removal)).
  { intros q. by apply on_loop_acceptors, (event_acceptor QueueRemoval). }
  assert (keeps acceptors (on_loop l (loop_step epoll_wait))).
  { apply on_loop_acceptors. intros s. eapply wlp_mono; [apply loop_step_tokens|]. by intros [] s' [_ ?]. }
  unfold loop_round, accept, newConnection, connection_closed, run_removal. evolves.
Qed.

Lemma run_cluster_event_acceptors ev : keeps acceptors (run_cluster_event startLoop ev).
Proof.
  destruct ev; cbn [run_cluster_event]; evolves; [apply loop_round_acceptors|..];
    by apply on_loop_acceptors, event_acceptor.
Qed.

Lemma accepting_kept w w' : accepting w → acceptors w' = acceptors w → accepting w'.
Proof.
  intros [(b & Hb & a & Ha & Hl) Hone] [= Hloops Hbase].
  assert (∀ l, acceptor_view <$> cl_loops w' !! l = acceptor_view <$> cl_loops w !! l) as Hview
    by (intros l; by rewrite <-!lookup_fmap, Hloops).
  unfold accepting, one_acceptor. rewrite Hbase. clear Hloops Hbase. split.
  - specialize (Hview (base w)). rewrite Hb in Hview.
    destruct (cl_loops w' !! base w) as [b'|]; [|done]. exists b'. split; [done|].
    injection Hview as Hview. unfold acceptor_view in Hview. rewrite Ha in Hview.
    destruct (rx_acceptor b') as [a'|] eqn:Ha'; [|done]. exists a'. split; [done|].
    injection Hview. congruence.
  - intros l s' Hs' [a' Ha']. specialize (Hview l). rewrite Hs' in Hview.
    destruct (cl_loops w !! l) as [s|] eqn:Hs; [|done]. apply (Hone l s Hs).
    injection Hview as Hview. unfold acceptor_view in Hview. rewrite Ha' in Hview.
    destruct (rx_acceptor s); [by eexists|done].
Qed.

Lemma cluster_reachable_both w : cluster_reachable w → cluster_inv None w ∧ accepting w.
Proof.
  intros (loop & chan & name & n & kernel_of & w0 & Haddr & Hstart & Hsteps).
  pose proof (start_cluster_inv loop chan name n kernel_of Haddr) as Hinv0. rewrite Hstart in Hinv0.
  revert Hsteps. apply rtc_invariant with (P := λ w, cluster_inv None w ∧ accepting w); [|exact Hinv0].
  intros w1 w2 [Hinv1 Hacc] (ev & Hok & Hrun).
  pose proof (wp_run_cluster_event ev w1 Hinv1 (proj2 Hacc) Hok) as Hwp. unfold wp in Hwp. rewrite Hrun in Hwp.
  split; [done|]. eapply accepting_kept; [exact Hacc|]. by eapply run_cluster_event_acceptors.
Qed.

Lemma listening_watched s :
  reactor_inv s → listening s → ∃ a, rx_acceptor s = Some a ∧
    interest (epollfd_ (rx_poller s)) !! ac_socket a = Some (kReadEvent, ac_channel a).
Proof.
  intros Hinv (a & Ha & Hl). exists a. split; [done|]. pose proof (li_own _ _ _ Hinv) as (_ & _ & Hok).
  specialize (Hok a Ha). unfold acceptor_ok in Hok. rewrite Hl in Hok.
  by eapply own_interest; [apply Hinv|].
Qed.

Lemma cluster_reachable_inv w : cluster_reachable w → cluster_inv None w.
Proof. apply cluster_reachable_both. Qed.
End spec.
