(* ===== verification/ClusterTurns.v ===== *)
(** * What becomes of the server's functors (src/net/TcpServer.cc and its loops)

    In all interleavings of Cluster.v: what waits in a loop when the loop thread
    comes to swap its queues has been done when the thread comes to its poll
    again. Every step of the whole is at most one step of the server, and
    moves on at most one loop. *)
From S2P Require Import Prelude Posix Channel EPollPoller.
From S2P Require TimerQueue TimerQueueSpec.
From S2P Require Import InetAddress Sockets EventLoopThreadPool.
From S2P Require Import TcpServer TcpServerProps ServerSteps.
From S2P Require Programs.
From S2P Require Import TcpConnection TcpConnectionSpec ConnectionFrame.
From S2P Require Import Reactor ReactorSpec ReactorAcceptor ReactorProps ReactorTurns Cluster ClusterSpec.

Section turns.
Context {K TCB : Type} `{!Epoll K, !EpollSpec K, !Descriptors K, !DescriptorsSpec K}.
Abbreviation PW := (PollWorld K loop_callback).
Context `{!ConnEnv PW, !ConnEnvSpec PW, !TimerQueue.TimerEnv TCB, !TimerQueueSpec.TimerEnvSpec TCB,
  !Os}.
Abbreviation RX := (Reactor (K:=K) (TCB:=TCB)).
Context (startLoop : nat → ptr).
Abbreviation CL := (Cluster (K:=K) (TCB:=TCB)).
Abbreviation cluster_inv := (cluster_inv startLoop None).
Implicit Types (w : CL) (s : RX) (srv : Server) (conn : Conn) (c : nat) (l p : ptr).
Abbreviation run ev := (run_cluster_event startLoop ev).

(** ** Steps and turns *)

Definition cluster_step w w' : Prop :=
  ∃ ev, cluster_event_ok ev w ∧ run ev w = Ok (tt, w').

(** A state with everything the invariants say. *)
Definition cluster_good w : Prop := cluster_inv w ∧ accepting w.

Lemma cluster_step_good w w' : cluster_good w → cluster_step w w' → cluster_good w'.
Proof.
  intros [Hinv Hacc] (ev & Hok & Hrun).
  pose proof (wp_run_cluster_event startLoop ev w Hinv (proj2 Hacc) Hok) as Hwp. unfold wp in Hwp.
  rewrite Hrun in Hwp. split; [done|]. eapply accepting_kept; [exact Hacc|].
  by eapply run_cluster_event_acceptors.
Qed.

(** The thread of the loop [l] swaps its queues. *)
Definition swap_step l w w' : Prop :=
  ∃ epoll_wait peer p s, cl_loops w !! l = Some s ∧ rx_phase s = Handling [] ∧
    cluster_event_ok (LoopRound l epoll_wait peer p) w ∧
    run (LoopRound l epoll_wait peer p) w = Ok (tt, w').

(** In the steps from [w] to [w'], whatever else happens, the thread of [l]
    swaps its queues and runs all that it has found. *)
Definition turn l w w' : Prop :=
  ∃ w1 w2 s', rtc cluster_step w w1 ∧ swap_step l w1 w2 ∧ rtc cluster_step w2 w' ∧
    cl_loops w' !! l = Some s' ∧ functors_of (rx_phase s') = [].

Lemma swap_step_step l w w' : swap_step l w w' → cluster_step w w'.
Proof. intros (ew & peer & p & s & _ & _ & Hok & Hrun). by exists (LoopRound l ew peer p). Qed.

Lemma steps_good w w' : cluster_good w → rtc cluster_step w w' → cluster_good w'.
Proof. intros Hw Hsteps. revert Hw. induction Hsteps; eauto using cluster_step_good. Qed.

(** Something waits for the loop [l], then it is due, and then done. *)
Section waiting.
Context (l : ptr) (waits due done_ : CL → Prop).
Context (waits_step : ∀ w w', cluster_good w → cluster_step w w' → waits w → waits w' ∨ done_ w')
  (swap_due : ∀ w w', cluster_good w → swap_step l w w' → waits w → due w' ∨ done_ w')
  (due_step : ∀ w w', cluster_good w → cluster_step w w' → due w → due w' ∨ done_ w')
  (done_step : ∀ w w', cluster_good w → cluster_step w w' → done_ w → done_ w')
  (due_running : ∀ w s, due w → cl_loops w !! l = Some s → functors_of (rx_phase s) ≠ []).

Lemma steps_or (P : CL → Prop) w w' :
  (∀ w w', cluster_good w → cluster_step w w' → P w → P w' ∨ done_ w') →
  cluster_good w → rtc cluster_step w w' → P w ∨ done_ w → P w' ∨ done_ w'.
Proof using All.
  intros Hstep Hw Hsteps. induction Hsteps as [|w w1 w2 Hstep1 _ IH]; [done|]. intros Hor.
  apply IH; [by eapply cluster_step_good|]. destruct Hor; [by eapply Hstep|right; by eapply done_step].
Qed.

Lemma turn_done w w' : cluster_good w → turn l w w' → waits w ∨ done_ w → done_ w'.
Proof using All.
  intros Hw (w1 & w2 & s' & Hsteps1 & Hswap & Hsteps2 & Hs' & Hph) Hor.
  apply (steps_or waits w w1) in Hor; [|done..].
  pose proof (steps_good _ _ Hw Hsteps1) as Hw1. pose proof (swap_step_step _ _ _ Hswap) as Hstep.
  pose proof (cluster_step_good _ _ Hw1 Hstep) as Hw2.
  assert (due w2 ∨ done_ w2) as Hor2.
  { destruct Hor; [by apply (swap_due w1)|right; by apply (done_step w1)]. }
  apply (steps_or due w2 w') in Hor2; [|done..]. destruct Hor2 as [Hdue|]; [|done].
  by destruct (due_running _ _ Hdue Hs').
Qed.
End waiting.

(** ** What the server sees of a step *)

Definition served w w' (o : option srv_event) : Prop :=
  match o with
  | None => cl_server w' = cl_server w
  | Some ev => srv_event_ok ev (cl_server w) ∧
      run_srv_event startLoop ev (cl_server w) = Ok (tt, cl_server w')
  end.

(** The thread is about to run a functor of the server. *)
Definition serves s : Prop :=
  match rx_phase s with
  | Running (OfServer :: _) => True
  | Running (o :: _) => ∃ x, next_functor o s = Some x ∧ ¬ own_functor x.2
  | _ => False
  end.

Lemma on_loop_server {A} l (m : M RX A) : keeps cl_server (on_loop l m).
Proof. intros w. unfold on_loop. wlp_run. destruct a0 as [x s']. by wlp_run. Qed.

Lemma wlp_on_loop {A} l (m : M RX A) Q w :
  (∀ s a s', cl_loops w !! l = Some s → m s = Ok (a, s') → Q a (put_loop l s' w)) →
  wlp (on_loop l m) Q w.
Proof.
  intros Hm. unfold on_loop. apply wlp_bind, wlp_deref. intros s Hs. wlp_run.
  destruct a as [x s']. wlp_run. by eapply Hm.
Qed.

Lemma wlp_on_server ev Q w :
  (∀ srv', run_srv_event startLoop ev (cl_server w) = Ok (tt, srv') → Q tt (set_cl_server srv' w)) →
  wlp (on_server startLoop ev) Q w.
Proof. intros Hev. unfold on_server. apply wlp_zoom. intros [] srv'. apply Hev. Qed.

#[local] Hint Resolve on_loop_server : evolves.

Lemma served_only ev w :
  srv_event_ok ev (cl_server w) → wlp (on_server startLoop ev) (λ _ w', served w w' (Some ev)) w.
Proof. intros Hok. by apply wlp_on_server. Qed.

Lemma served_after {A} ev (m : M CL A) w :
  srv_event_ok ev (cl_server w) → keeps cl_server m →
  wlp (on_server startLoop ev ;; m) (λ _ w', served w w' (Some ev)) w.
Proof.
  intros Hok Hm. apply wlp_bind, wlp_on_server. intros srv' Hrun. eapply wlp_mono; [apply Hm|].
  intros a w' Hsame. split; [done|]. by rewrite Hsame.
Qed.

Definition not_running (o : option srv_event) : Prop := ∀ l, o ≠ Some (RunLoop l).

Lemma accept_served peer p w :
  nextConnId_ (cl_server w) < 2 ^ 31 - 1 →
  wlp (accept startLoop peer p) (λ _ w', ∃ o, served w w' o ∧ not_running o) w.
Proof.
  intros Hid. unfold accept. wlp_step. wlp_step. apply wlp_bind, wlp_lift_outcome.
  intros [ioLoop pool'] _. apply wlp_bind. eapply wlp_mono; [apply on_loop_server|].
  intros fd w1 Hw1. destruct fd as [fd|]; [|wlp_step; by exists None].
  unfold newConnection. do 2 wlp_step. eapply wlp_mono; [apply (served_after (Accept fd peer))|].
  - by rewrite Hw1.
  - evolves. by apply evolves_modify.
  - intros [] w' [Hok Hrun]. rewrite Hw1 in *. by exists (Some (Accept fd peer)).
Qed.

Lemma closed_served l p w :
  (∀ c, cl_ids w !! (l, p) = Some c → srv_event_ok (CloseConn c) (cl_server w)) →
  wlp (connection_closed startLoop l p) (λ _ w', ∃ o, served w w' o ∧ not_running o) w.
Proof.
  intros Hok. unfold connection_closed. apply wlp_bind, wlp_deref. intros c Hc.
  eapply wlp_mono; [apply (served_after (CloseConn c)); [by apply Hok|evolves]|].
  intros [] w' Hs. by exists (Some (CloseConn c)).
Qed.

Lemma removal_served w : wlp (run_removal startLoop) (λ _ w', served w w' (Some (RunLoop (base w)))) w.
Proof.
  unfold run_removal. do 4 wlp_step. destruct (queue_of _ _) as [|[| |c|] q]; try (by wlp_step).
  apply (served_after (RunLoop (base w))); [done|evolves].
Qed.

(** A connection that has just closed was open for the server. *)
Lemma closing_open w l s s' epoll_wait p act c :
  cluster_inv w → cl_loops w !! l = Some s → loop_event_ok (LoopThread epoll_wait) s →
  rx_phase s = Handling (p :: act) → loop_step epoll_wait s = Ok (tt, s') →
  (closes_at p s < closes_at p s')%nat → cl_ids w !! (l, p) = Some c →
  srv_event_ok (CloseConn c) (cl_server w).
Proof.
  intros Hinv Hl Hok Hph Hrun Hclose Hid.
  pose proof (wp_round epoll_wait s ltac:(by eapply cv_loop) Hok) as Hstep. unfold wp in Hstep.
  rewrite Hrun in Hstep. destruct Hstep as (Hs' & Hv & _). unfold step_view in Hv. rewrite Hph in Hv.
  destruct Hv as [Hcl _]. apply Nat.ltb_lt in Hclose.
  pose proof (closing_cases s s' p (cv_reactor startLoop w l s Hinv Hl) (reactor_reachable_inv s' Hs') Hcl)
    as Hcases. rewrite Hclose in Hcases. destruct Hcases as (_ & Hlive & _).
  destruct (cv_linked _ _ _ Hinv _ _ _ Hid) as (s1 & conn & Hl1 & Hc & _ & _ & Hst & _).
  assert (s1 = s) as -> by congruence. exists conn. split; [done|]. rewrite Hlive in Hst.
  destruct (conn_phase conn); simpl in Hst; congruence.
Qed.

Lemma round_served w l epoll_wait peer p s :
  cluster_good w → cl_loops w !! l = Some s → loop_event_ok (LoopThread epoll_wait) s →
  accept_room l epoll_wait p w →
  wlp (loop_round startLoop l epoll_wait peer p) (λ _ w', ∃ o, served w w' o ∧
    ∀ l', o = Some (RunLoop l') ↔ serves s ∧ l' = l) w.
Proof.
  intros [Hinv [_ Hone]] Hl Hok Hroom.
  pose proof (wp_round epoll_wait s ltac:(by eapply cv_loop) Hok) as Hstep.
  unfold loop_round. apply wlp_bind, wlp_deref. intros s0 Hs0. unfold loop_at in Hs0.
  assert (s0 = s) as -> by congruence. apply wlp_bind, wlp_on_loop. intros s1 [] s' Hs1 Hrun.
  assert (s1 = s) as -> by congruence. unfold wp in Hstep. rewrite Hrun in Hstep.
  destruct Hstep as (Hs' & Hv & Htok). unfold step_view in Hv. set (w1 := put_loop l s' w).
  apply wlp_bind, wlp_deref. intros s2 Hs2. unfold loop_at in Hs2. cbn in Hs2.
  rewrite lookup_insert_eq in Hs2. injection Hs2 as <-. unfold serves.
  assert (∀ w', cl_server w' = cl_server w1 → served w w' None) as Hnone by done.
  destruct (rx_phase s) as [|[|q act]|[|o functors]] eqn:Hph;
    try (wlp_step; exists None; split; [by apply Hnone|naive_solver]).
  - assert (∀ m : M CL unit, wlp m (λ _ w', ∃ o, served w w' o ∧ not_running o) w1 →
      wlp m (λ _ w', ∃ o, served w w' o ∧ ∀ l', o = Some (RunLoop l') ↔ False ∧ l' = l) w1) as Hnot.
    { intros m Hm. eapply wlp_mono; [exact Hm|]. intros [] w' (o & Ho & Hno). exists o.
      split; [done|]. intros l'. specialize (Hno l'). tauto. }
    apply Hnot. apply wlp_if; intros Hb.
    + apply (accept_served peer p w1). apply Nat.ltb_lt in Hb. by apply (Hroom s s' q act).
    + apply wlp_when; intros Hc; [|by exists None].
      apply (closed_served l q w1). intros c Hid. apply Nat.ltb_lt in Hc.
      by apply (closing_open w l s s' epoll_wait q act c).
  - assert (∀ f, (match f with ConnectEstablished | ConnectDestroyed => ¬ own_functor f
      | _ => own_functor f end)) as Hown by by intros []; (split || intros []).
    destruct o as [| |q].
    + cbn [next_functor]. wlp_step. exists None. split; [by apply Hnone|]. naive_solver.
    + destruct Hv as [Hr Hph'].
      destruct (removal_round startLoop w l s s' functors) as (Hb & _ & _); try done;
        [by rewrite Hph'|cbn in Htok; lia|].
      eapply wlp_mono; [apply removal_served|]. intros [] w' Hserved. exists (Some (RunLoop l)).
      split; [by rewrite Hb|]. naive_solver.
    + destruct (next_functor (OfConnection q) s) as [[r f]|] eqn:Hnext.
      2:{ wlp_step. exists None. split; [by apply Hnone|]. naive_solver. }
      specialize (Hown f).
      destruct f; try (wlp_step; exists None; split; [by apply Hnone|];
        intros l'; split; [done|intros [((r' & f') & [= <- <-] & Hno) _]; by destruct Hno]).
      all: eapply wlp_mono; [by apply (served_only (RunLoop l))|]; intros [] w' Hserved;
        exists (Some (RunLoop l)); (split; [done|]); intros l'; split; [intros [= <-]|by intros [_ ->]];
        split; [by eexists|done].
Qed.

(** ** What a loop sees of a step *)

(** The thread of [l0] is where it was, and the connection at [p0] is still
    there with what waits for it. *)
Section steady.
Context (l0 p0 : ptr).

Definition steady w w' : Prop :=
  (∀ s, cl_loops w !! l0 = Some s → ∃ s', cl_loops w' !! l0 = Some s' ∧ grows p0 s s') ∧
  cl_ids w' !! (l0, p0) = cl_ids w !! (l0, p0).
#[local] Instance steady_preorder : PreOrder steady.
Proof.
  split; [intros w; split; [intros s Hs; by exists s|done]|].
  intros w1 w2 w3 [H12 Hid12] [H23 Hid23]. split; [|congruence]. intros s Hs.
  destruct (H12 s Hs) as (s2 & Hs2 & Hg2). destruct (H23 s2 Hs2) as (s3 & Hs3 & Hg3).
  exists s3. split; [done|]. by transitivity s2.
Qed.

Lemma on_server_steady ev : evolves steady (on_server startLoop ev).
Proof. intros w. apply wlp_on_server. intros srv' _. split; [|done]. intros s Hs. by exists s. Qed.

Lemma on_loop_steady {A} l (m : M RX A) :
  l ≠ l0 ∨ evolves (grows p0) m → evolves steady (on_loop l m).
Proof.
  intros Hm w. apply wlp_on_loop. intros s a s' Hs Hrun. split; [|done]. cbn. intros s0 Hs0.
  destruct (decide (l = l0)) as [->|Hl].
  - rewrite lookup_insert_eq. exists s'. split; [done|]. assert (s0 = s) as -> by congruence.
    destruct Hm as [|Hm]; [done|]. by eapply Hm.
  - rewrite lookup_insert_ne by done. by exists s0.
Qed.

Lemma register_steady l p c : (l, p) ≠ (l0, p0) → evolves steady (modify (register l p c)).
Proof.
  intros Hne. apply evolves_modify. intros w. split; [intros s Hs; by exists s|].
  cbn. by rewrite lookup_insert_ne.
Qed.
Lemma forget_steady l p : (l, p) ≠ (l0, p0) → evolves steady (modify (forget l p)).
Proof.
  intros Hne. apply evolves_modify. intros w. split; [intros s Hs; by exists s|].
  cbn. by rewrite lookup_delete_ne.
Qed.
#[local] Hint Resolve on_server_steady : evolves.

Lemma remove_steady l here p : evolves steady (on_loop l (remove_connection here p)).
Proof. apply on_loop_steady. right. apply remove_connection_grows. Qed.
Lemma queue_removal_steady l : evolves steady (on_loop l queue_removal).
Proof. apply on_loop_steady. right. apply queue_removal_grows. Qed.
#[local] Hint Resolve remove_steady queue_removal_steady : evolves.

Lemma closed_steady l p : evolves steady (connection_closed startLoop l p).
Proof. unfold connection_closed. evolves. Qed.
Lemma removal_steady : evolves steady (run_removal startLoop).
Proof. unfold run_removal. evolves; apply evolves_raise. Qed.

(** The new connection is another one. *)
Lemma accept_steady peer p w :
  inv_but startLoop None (cl_server w) → nextConnId_ (cl_server w) < 2 ^ 31 - 1 →
  (∀ pool', getNextLoop true (threadPool_ (cl_server w)) = Ok (l0, pool') → p ≠ p0) →
  wlp (accept startLoop peer p) (λ _, steady w) w.
Proof.
  intros Hsrv Hid Hp. unfold accept. wlp_step. wlp_step. apply wlp_bind, wlp_lift_outcome.
  intros [ioLoop pool'] Hget. apply wlp_bind.
  assert ((ioLoop, p) ≠ (l0, p0)) as Hne by (intros [= -> ->]; by destruct (Hp pool' Hget)).
  eapply wlp_mono; [apply wlp_and; [apply on_loop_server|apply on_loop_steady; right;
    apply accept_connection_grows]|]. intros fd w1 [Hw1 Hst1].
  destruct fd as [fd|]; [|by wlp_step]. unfold newConnection. do 2 wlp_step.
  apply wlp_bind, wlp_on_server. intros srv' Hrun. rewrite Hw1 in *.
  destruct (accept_step startLoop (cl_server w) fd peer Hsrv Hid)
    as (srv2 & Hrun2 & _ & _ & (l' & pool2 & addr & Hget' & _ & _ & _ & Hconns & _)).
  assert (srv' = srv2) as -> by congruence. apply wlp_bind, wlp_deref. cbn. intros conn Hconn.
  assert (conn_loop conn = ioLoop) as Hl.
  { rewrite Hconns, lookup_app_r, Nat.sub_diag in Hconn by lia. injection Hconn as <-. cbn. congruence. }
  rewrite Hl. set (w2 := set_cl_server srv2 w1). assert (steady w w2) as Hst2 by exact Hst1.
  assert (evolves steady (on_loop ioLoop (hand_over (bool_decide (ioLoop = base w2)) ioLoop p fd
    (Programs.callbacks_set (conn_callbacks conn))))) as Hhand.
  { apply on_loop_steady. destruct (decide (ioLoop = l0)) as [->|]; [right|by left].
    apply hand_over_grows. congruence. }
  wlp_step. wlp_step. apply wlp_bind. eapply wlp_mono; [by apply (register_steady ioLoop p)|].
  intros [] w3 Hst3. eapply wlp_mono; [apply Hhand|]. intros [] w4 Hst4.
  transitivity w2; [done|]. by transitivity w3.
Qed.

(** A step of the thread of [l], for the loop [l0]. *)
Definition loop_moved l epoll_wait w w' : Prop :=
  (∀ s, cl_loops w !! l0 = Some s → ∃ s1 s', cl_loops w' !! l0 = Some s' ∧
    (if decide (l = l0) then loop_step epoll_wait s = Ok (tt, s1) else s1 = s) ∧ grows p0 s1 s') ∧
  cl_ids w' !! (l0, p0) = cl_ids w !! (l0, p0).

Lemma moved_steady l epoll_wait s s' w w' :
  cl_loops w !! l = Some s → loop_step epoll_wait s = Ok (tt, s') → steady (put_loop l s' w) w' →
  loop_moved l epoll_wait w w'.
Proof.
  intros Hl Hrun [Hst Hid]. split; [|exact Hid]. intros s0 Hs0. cbn in Hst.
  destruct (decide (l = l0)) as [->|Hne].
  - assert (s0 = s) as -> by congruence. destruct (Hst s' ltac:(by rewrite lookup_insert_eq)) as (s2 & ? & ?).
    by exists s', s2.
  - destruct (Hst s0 ltac:(by rewrite lookup_insert_ne)) as (s2 & ? & ?). by exists s0, s2.
Qed.

(** There is another connection at the address, or the address is another. *)
Definition elsewhere (p : ptr) w : Prop :=
  p ≠ p0 ∨ ∃ s, cl_loops w !! l0 = Some s ∧ pending_at s p0 ≠ [].

Lemma taken_address s : reactor_inv s → pending_at s p0 ≠ [] → pw_channels (rx_poller s) !! p0 ≠ None.
Proof.
  intros Hinv Hp Hch. apply Hp. unfold pending_at.
  by rewrite (no_connection _ _ p0 s Hinv Hch).
Qed.

Lemma accept_elsewhere w l epoll_wait s s' q act p :
  cl_loops w !! l = Some s → rx_phase s = Handling (q :: act) → loop_step epoll_wait s = Ok (tt, s') →
  (∀ s, cl_loops w !! l0 = Some s → reactor_inv s) → reactor_inv s' → elsewhere p w →
  accept_ok p (put_loop l s' w) →
  ∀ pool', getNextLoop true (threadPool_ (cl_server w)) = Ok (l0, pool') → p ≠ p0.
Proof.
  intros Hl Hph Hrun Hinv Hinv' [?|(s0 & Hs0 & Hpend)] [_ Hroom] pool' Hget; [done|]. intros ->.
  cbn in Hroom. specialize (Hroom l0 pool').
  destruct (decide (l = l0)) as [->|Hne].
  - assert (s0 = s) as -> by congruence. rewrite lookup_insert_eq in Hroom.
    apply (taken_address s'); [done| |by apply Hroom].
    destruct (pending_at s p0) as [|f fs] eqn:Hq; [done|].
    assert (f ∈ pending_at s p0) as Hf by (rewrite Hq; apply list_elem_of_here).
    destruct (loop_step_waits _ _ _ _ Hf _ _ Hrun) as [[[rest Hr] _]|Hin]; [congruence|].
    intros Hnil. rewrite Hnil in Hin. by apply not_elem_of_nil in Hin.
  - rewrite lookup_insert_ne in Hroom by done. apply (taken_address s0); [by apply Hinv|done|].
    by apply Hroom.
Qed.

Lemma round_moved w l epoll_wait peer p s :
  cluster_good w → cl_loops w !! l = Some s → loop_event_ok (LoopThread epoll_wait) s →
  accept_room l epoll_wait p w → elsewhere p w →
  wlp (loop_round startLoop l epoll_wait peer p) (λ _, loop_moved l epoll_wait w) w.
Proof.
  intros [Hinv [_ Hone]] Hl Hok Hroom Helse.
  pose proof (wp_round epoll_wait s ltac:(by eapply cv_loop) Hok) as Hstep.
  unfold loop_round. apply wlp_bind, wlp_deref. intros s0 Hs0. unfold loop_at in Hs0.
  assert (s0 = s) as -> by congruence. apply wlp_bind, wlp_on_loop. intros s1 [] s' Hs1 Hrun.
  assert (s1 = s) as -> by congruence. unfold wp in Hstep. rewrite Hrun in Hstep.
  destruct Hstep as (Hs' & _ & _). set (w1 := put_loop l s' w).
  assert (∀ m : M CL unit, wlp m (λ _, steady w1) w1 → wlp m (λ _, loop_moved l epoll_wait w) w1) as Hm.
  { intros m Hm. eapply wlp_mono; [exact Hm|]. intros [] w'. by apply (moved_steady l _ s s'). }
  apply wlp_bind, wlp_deref. intros s2 Hs2. unfold loop_at in Hs2. cbn in Hs2.
  rewrite lookup_insert_eq in Hs2. injection Hs2 as <-. apply Hm.
  destruct (rx_phase s) as [|[|q act]|[|o functors]] eqn:Hph; try (by wlp_step).
  - apply wlp_if; intros Hb; [|apply wlp_when; intros _; [apply closed_steady|done]].
    apply Nat.ltb_lt in Hb. pose proof (Hroom s s' q act Hl Hph Hrun Hb) as Hroom'.
    apply accept_steady; [apply (cv_srv_inv startLoop w Hinv)|apply Hroom'|].
    eapply (accept_elsewhere w l epoll_wait s s' q act p); try done; [|by apply reactor_reachable_inv].
    intros s3 Hs3. by eapply cv_reactor.
  - destruct o as [| |q]; cbn [next_functor]; [by wlp_step|apply removal_steady|].
    destruct (pending_at s q) as [|f fs]; cbn; [by wlp_step|].
    destruct f; try (by wlp_step); apply on_server_steady.
Qed.

(** The address of a connection that an event makes or frees. *)
Definition address (ev : cluster_event (TCB:=TCB)) : option ptr :=
  match ev with LoopRound _ _ _ p | ReleaseLast _ p => Some p | _ => None end.

Definition round_of (ev : cluster_event (TCB:=TCB)) : option (Z → io_result (list epoll_event)) :=
  match ev with
  | LoopRound l epoll_wait _ _ => if decide (l = l0) then Some epoll_wait else None
  | _ => None
  end.

Lemma release_steady w l p s :
  cl_loops w !! l = Some s → loop_event_ok (ReleaseConnection p) s → elsewhere p w →
  wlp (run (ReleaseLast l p)) (λ _, steady w) w.
Proof.
  intros Hl (x & Hx & _ & Hpend) Helse.
  assert (l ≠ l0 ∨ p ≠ p0) as Hne.
  { destruct Helse as [?|(s0 & Hs0 & Hpend0)]; [by right|].
    destruct (decide (l = l0)) as [->|]; [right|by left]. intros ->. apply Hpend0.
    assert (s0 = s) as -> by congruence. unfold pending_at. by rewrite Hx. }
  cbn [run_cluster_event]. apply wlp_bind. eapply wlp_mono.
  - apply (on_loop_steady l). destruct Hne as [?|Hne]; [by left|right].
    by apply (user_event_grows p0 (ReleaseConnection p)).
  - intros [] w1 Hst1. eapply wlp_mono; [apply forget_steady; naive_solver|].
    intros [] w2 Hst2. by transitivity w1.
Qed.

Lemma event_moved ev w w' s :
  cluster_good w → cluster_event_ok ev w → run ev w = Ok (tt, w') → cl_loops w !! l0 = Some s →
  (∀ p, address ev = Some p → elsewhere p w) →
  cl_ids w' !! (l0, p0) = cl_ids w !! (l0, p0) ∧
  ∃ s1 s', cl_loops w' !! l0 = Some s' ∧ grows p0 s1 s' ∧
    match round_of ev with
    | Some epoll_wait => loop_step epoll_wait s = Ok (tt, s1) ∧ loop_event_ok (LoopThread epoll_wait) s
    | None => s1 = s
    end.
Proof.
  intros Hw Hok Hrun Hs Helse.
  assert (steady w w' → round_of ev = None → cl_ids w' !! (l0, p0) = cl_ids w !! (l0, p0) ∧
    ∃ s1 s', cl_loops w' !! l0 = Some s' ∧ grows p0 s1 s' ∧ match round_of ev with
    | Some epoll_wait => loop_step epoll_wait s = Ok (tt, s1) ∧ loop_event_ok (LoopThread epoll_wait) s
    | None => s1 = s end) as Hsteady.
  { intros [Hst Hid] ->. split; [done|]. destruct (Hst s Hs) as (s' & ? & ?). by exists s, s'. }
  destruct ev as [l epoll_wait peer p|l here p cmd|l b cmd|l p|ev]; cbn [cluster_event_ok round_of address] in *.
  - destruct Hok as [(sl & Hsl & Hok) Hroom].
    destruct (round_moved w l epoll_wait peer p sl Hw Hsl Hok Hroom (Helse p eq_refl) tt w' Hrun)
      as [Hmoved Hid].
    split; [done|]. destruct (Hmoved s Hs) as (s1 & s' & Hs' & Hcase & Hg). exists s1, s'.
    split_and!; [done..|]. destruct (decide (l = l0)) as [->|]; [|done].
    by assert (sl = s) as -> by congruence.
  - apply Hsteady; [|done].
    by apply (on_loop_steady l _ (or_intror (user_event_grows p0 (CallConnection here p cmd) I)) w tt w' Hrun).
  - apply Hsteady; [|done].
    by apply (on_loop_steady l _ (or_intror (user_event_grows p0 (CallTimers b cmd) I)) w tt w' Hrun).
  - destruct Hok as (sl & Hsl & Hok). apply Hsteady; [|done].
    by apply (release_steady w l p sl Hsl Hok (Helse p eq_refl) tt w' Hrun).
  - apply Hsteady; [|done]. by apply (on_server_steady ev w tt w' Hrun).
Qed.
End steady.

Lemma event_served ev w w' :
  cluster_good w → cluster_event_ok ev w → run ev w = Ok (tt, w') →
  ∃ o, served w w' o ∧ ∀ l s, cl_loops w !! l = Some s →
    o = Some (RunLoop l) ↔ is_Some (round_of l ev) ∧ serves s.
Proof.
  intros Hw Hok Hrun.
  assert (∀ o, served w w' o → not_running o → (∀ l, round_of l ev = None) → ∃ o, served w w' o ∧
    ∀ l s, cl_loops w !! l = Some s → o = Some (RunLoop l) ↔ is_Some (round_of l ev) ∧ serves s) as Hother.
  { intros o Ho Hno Hnone. exists o. split; [done|]. intros l s _. rewrite Hnone.
    split; [intros Heq; by destruct (Hno l)|by intros [[? ?] _]]. }
  assert (cl_server w' = cl_server w → (∀ l, round_of l ev = None) → ∃ o, served w w' o ∧
    ∀ l s, cl_loops w !! l = Some s → o = Some (RunLoop l) ↔ is_Some (round_of l ev) ∧ serves s) as Hnone.
  { intros Heq. by apply (Hother None). }
  destruct ev as [l epoll_wait peer p|l here p cmd|l b cmd|l p|ev]; cbn [cluster_event_ok] in *.
  - destruct Hok as [(sl & Hsl & Hok) Hroom].
    destruct (round_served w l epoll_wait peer p sl Hw Hsl Hok Hroom tt w' Hrun) as (o & Ho & Hiff).
    exists o. split; [done|]. intros l' s Hs. rewrite Hiff. cbn [round_of].
    destruct (decide (l = l')) as [<-|Hne].
    + assert (sl = s) as -> by congruence. naive_solver.
    + split; [intros [_ ->]; by destruct Hne|by intros [[? ?] _]].
  - apply Hnone; [|done]. by apply (on_loop_server l (run_loop_event (CallConnection here p cmd)) w tt w').
  - apply Hnone; [|done]. by apply (on_loop_server l (run_loop_event (CallTimers b cmd)) w tt w').
  - apply Hnone; [|done]. assert (keeps cl_server (run (ReleaseLast l p))) as Hkeeps.
    { cbn [run_cluster_event]. evolves. by apply evolves_modify. }
    by apply (Hkeeps w tt w').
  - destruct Hok as [Hset Hok]. apply (Hother (Some ev)); [|intros l [= ->]; done|done].
    by apply (served_only ev w Hok tt w').
Qed.

(** ** Progress of a connection *)

Definition came_to (k : nat) c w : Prop :=
  ∃ conn, conns (cl_server w) !! c = Some conn ∧ (k ≤ life (cl_server w) c conn)%nat.

Lemma served_older w w' o : cluster_inv w → served w w' o → older (cl_server w) (cl_server w').
Proof.
  intros Hinv. destruct o as [ev|]; cbn; [intros [Hok Hrun]|intros ->; reflexivity].
  eapply step_older; [apply (cv_srv_inv startLoop w Hinv)|apply (cv_started _ _ _ Hinv)|done..].
Qed.

Lemma step_served_older w w' : cluster_good w → cluster_step w w' → older (cl_server w) (cl_server w').
Proof.
  intros Hw (ev & Hok & Hrun). destruct (event_served ev w w' Hw Hok Hrun) as (o & Ho & _).
  eapply served_older; [apply Hw|done].
Qed.

Lemma came_to_step k c w w' : cluster_good w → cluster_step w w' → came_to k c w → came_to k c w'.
Proof.
  intros Hw Hstep (conn & Hc & Hk).
  destruct (step_served_older w w' Hw Hstep c conn Hc) as (conn' & Hc' & _ & _ & Hle).
  exists conn'. split; [done|lia].
Qed.

Lemma steps_older w w' : cluster_good w → rtc cluster_step w w' → older (cl_server w) (cl_server w').
Proof.
  intros Hw Hsteps. revert Hw. induction Hsteps as [|w w1 w2 Hstep _ IH]; intros Hw; [reflexivity|].
  transitivity (cl_server w1); [by apply step_served_older|]. apply IH. by eapply cluster_step_good.
Qed.

Lemma turn_steps l w w' : turn l w w' → rtc cluster_step w w'.
Proof.
  intros (w1 & w2 & s' & Hsteps & Hswap & ? & _). etrans; [exact Hsteps|].
  eapply rtc_l; [by eapply swap_step_step|done].
Qed.

(** ** [connectEstablished] and [connectDestroyed] *)
Section functor.
Context (l p : ptr) (c : nat) (f : functor) (k : nat).
Context (Hf : f = TcpConnection.ConnectEstablished ∧ k = 1%nat ∨
  f = TcpConnection.ConnectDestroyed ∧ k = 4%nat).

Definition functor_waits w : Prop :=
  cl_ids w !! (l, p) = Some c ∧ ∃ s, cl_loops w !! l = Some s ∧ f ∈ pending_at s p.
Definition functor_due w : Prop :=
  cl_ids w !! (l, p) = Some c ∧ ∃ s, cl_loops w !! l = Some s ∧ due p f s.

Lemma popped_queue s : popped p f s → ∃ q, loop_queue s = (p, f) :: q.
Proof using All.
  intros [[rest Hph] Hnext]. unfold loop_queue, srv_queue. rewrite Hph. cbn in *.
  destruct (pending_at s p) as [|g fs] eqn:Hq; [done|]. cbn in Hnext. injection Hnext as ->.
  unfold server_functors. rewrite filter_cons_True; [by eexists|].
  intros [? ?]. destruct Hf as [[-> _]|[-> _]]; done.
Qed.

(** The step in which the loop runs it. *)
Lemma popped_done w w' s :
  cluster_inv w → cl_ids w !! (l, p) = Some c → cl_loops w !! l = Some s → popped p f s →
  served w w' (Some (RunLoop l)) → came_to k c w'.
Proof using All.
  intros Hinv Hid Hs Hpop [_ Hrun]. destruct (popped_queue s Hpop) as [q Hq].
  pose proof (cv_queue _ _ _ Hinv l s Hs) as Hfor. rewrite Hq in Hfor.
  apply Forall2_cons_inv_l in Hfor as (g & rest & (c' & Hid' & Hg) & _ & Hw). cbn in Hid', Hg.
  assert (c' = c) as -> by congruence.
  destruct (cv_linked _ _ _ Hinv _ _ _ Hid) as (s1 & conn & _ & Hc & Hcl & _).
  rewrite (waiting_all startLoop w l c conn Hinv Hc Hcl) in Hw.
  assert (∃ ph, functor_phase g = Some ph ∧ about g = Some c ∧
    ∀ srv, k ≤ life srv c (set_phase ph conn))%nat as (ph & Hph & Hab & Hk).
  { destruct Hf as [[-> ->]|[-> ->]], Hg as [[? ->]|[? ->]]; try done.
    - by exists Connected.
    - by exists Destroyed. }
  destruct (run_loop_step startLoop (cl_server w) l g rest c ph (cv_srv_inv startLoop w Hinv) Hw Hph Hab)
    as [Hrun' _].
  rewrite Hrun' in Hrun. injection Hrun as Hsrv. exists (set_phase ph conn). rewrite <-Hsrv. split; [|done].
  rewrite lookup_update, decide_True by done. cbn. by rewrite Hc.
Qed.

Lemma popped_serves s : popped p f s → serves s.
Proof using All.
  intros [[rest Hph] Hnext]. unfold serves. rewrite Hph. exists (p, f). split; [done|].
  intros [? ?]. destruct Hf as [[-> _]|[-> _]]; done.
Qed.

(** One step, seen from the functor's loop. *)
Lemma functor_step_cases w w' s ev :
  cluster_good w → cluster_event_ok ev w → run ev w = Ok (tt, w') → cl_ids w !! (l, p) = Some c →
  cl_loops w !! l = Some s → pending_at s p ≠ [] →
  cl_ids w' !! (l, p) = Some c ∧ ∃ s1 s', cl_loops w' !! l = Some s' ∧ grows p s1 s' ∧
    (round_of l ev = None ∧ s1 = s ∨
     ∃ epoll_wait, round_of l ev = Some epoll_wait ∧ loop_step epoll_wait s = Ok (tt, s1) ∧
       (popped p f s → came_to k c w')).
Proof using All.
  intros Hw Hok Hrun Hid Hs Hpend.
  destruct (event_moved l p ev w w' s Hw Hok Hrun Hs) as [Hid' (s1 & s' & Hs' & Hg & Hcase)].
  { intros r _. right. by exists s. }
  split; [congruence|]. exists s1, s'. split_and!; [done..|].
  destruct (round_of l ev) as [epoll_wait|] eqn:Hround; [right|by left].
  exists epoll_wait. split_and!; [done|apply Hcase|]. intros Hpop.
  destruct (event_served ev w w' Hw Hok Hrun) as (o & Ho & Hiff).
  assert (o = Some (RunLoop l)) as ->.
  { apply (Hiff l s Hs). rewrite Hround. split; [by eexists|by apply popped_serves]. }
  by eapply popped_done; [apply Hw|..].
Qed.

Lemma functor_waits_step w w' :
  cluster_good w → cluster_step w w' → functor_waits w → functor_waits w' ∨ came_to k c w'.
Proof using All.
  intros Hw (ev & Hok & Hrun) (Hid & s & Hs & Hin).
  assert (pending_at s p ≠ []) as Hpend by (intros Hnil; rewrite Hnil in Hin; by apply not_elem_of_nil in Hin).
  destruct (functor_step_cases w w' s ev) as [Hid' (s1 & s' & Hs' & Hg & Hcase)]; try done.
  destruct Hcase as [[_ ->]|(epoll_wait & _ & Hstep & Hdone)].
  - left. split; [done|]. exists s'. split; [done|]. by eapply grows_waits.
  - destruct (loop_step_waits _ _ _ _ Hin _ _ Hstep) as [Hpop|Hin1]; [right; by apply Hdone|left].
    split; [done|]. exists s'. split; [done|]. by eapply grows_waits.
Qed.

Lemma due_pending s : due p f s → pending_at s p ≠ [].
Proof. intros (j & Hj & _) Hnil. by rewrite Hnil in Hj. Qed.

Lemma functor_due_step w w' :
  cluster_good w → cluster_step w w' → functor_due w → functor_due w' ∨ came_to k c w'.
Proof using All.
  intros Hw (ev & Hok & Hrun) (Hid & s & Hs & Hdue). pose proof (due_pending s Hdue).
  destruct (functor_step_cases w w' s ev) as [Hid' (s1 & s' & Hs' & Hg & Hcase)]; try done.
  destruct Hcase as [[_ ->]|(epoll_wait & _ & Hstep & Hdone)].
  - left. split; [done|]. exists s'. split; [done|]. by eapply grows_due.
  - destruct (loop_step_due _ _ _ _ Hdue _ _ Hstep) as [Hpop|Hdue1]; [right; by apply Hdone|left].
    split; [done|]. exists s'. split; [done|]. by eapply grows_due.
Qed.

Lemma functor_swap w w' :
  cluster_good w → swap_step l w w' → functor_waits w → functor_due w' ∨ came_to k c w'.
Proof using All.
  intros Hw (epoll_wait & peer & r & s0 & Hs0 & Hph & Hok & Hrun) (Hid & s & Hs & Hin).
  assert (s0 = s) as -> by congruence.
  assert (pending_at s p ≠ []) as Hpend by (intros Hnil; rewrite Hnil in Hin; by apply not_elem_of_nil in Hin).
  destruct (functor_step_cases w w' s (LoopRound l epoll_wait peer r))
    as [Hid' (s1 & s' & Hs' & Hg & Hcase)]; try done. cbn [round_of] in Hcase.
  rewrite decide_True in Hcase by done. destruct Hcase as [[? _]|(ew & [= <-] & Hstep & _)]; [done|].
  left. split; [done|]. exists s'. split; [done|]. eapply grows_due; [exact Hg|].
  eapply (ReactorTurns.swap_due epoll_wait); [|exact Hph|exact Hin|exact Hstep]. by eapply cv_reactor; [apply Hw|].
Qed.

Lemma functor_done w w' :
  cluster_good w → turn l w w' → functor_waits w ∨ came_to k c w → came_to k c w'.
Proof using All.
  apply (turn_done l functor_waits functor_due (came_to k c)).
  - apply functor_waits_step.
  - apply functor_swap.
  - apply functor_due_step.
  - apply came_to_step.
  - intros w1 s (_ & s1 & Hs1 & Hdue) Hs. assert (s1 = s) as -> by congruence. by eapply due_running.
Qed.
End functor.

(** ** [removeConnectionInLoop] *)
Section removal.
Context (b : ptr) (c : nat).
Abbreviation removing := (RemoveConnectionInLoop c).

Definition removal_waits w : Prop := base w = b ∧ removing ∈ queue_of b (cl_server w).
Definition removal_due w : Prop :=
  base w = b ∧ ∃ i s, queue_of b (cl_server w) !! i = Some removing ∧ cl_loops w !! b = Some s ∧
    (i < server_tokens (functors_of (rx_phase s)))%nat.

(** With io threads the base loop has no connections. *)
Lemma base_serves w s :
  cluster_inv w → io_loops w ≠ [] → cl_loops w !! base w = Some s →
  serves s ↔ ∃ rest, rx_phase s = Running (OfServer :: rest).
Proof.
  intros Hinv Hio Hs. unfold serves. destruct (rx_phase s) as [| |[|[| |q] functors]];
    try (naive_solver; fail). split; [|naive_solver]. intros ([r f] & Hnext & _). exfalso. cbn in Hnext.
  assert (is_Some (stage_at s q)) as Hq.
  { unfold pending_at in Hnext. unfold stage_at. destruct (rx_conns s !! q); [by eexists|done]. }
  destruct (cluster_connection startLoop w _ s q Hinv Hs Hq) as (c' & conn & _ & Hc & Hl & _).
  pose proof (cv_where _ _ _ Hinv c' conn Hc) as Hw. rewrite decide_False, Hl in Hw by done.
  by destruct (cv_pool _ _ _ Hinv _ Hw) as [_ []].
Qed.

Lemma served_base w w' o : served w w' o → base w' = base w.
Proof.
  destruct o as [ev|]; cbn; [intros [_ Hrun]|intros Heq; unfold base; by rewrite Heq].
  exact (run_srv_event_loop startLoop ev _ _ _ Hrun).
Qed.

Lemma served_grows w w' o : served w w' o → o ≠ Some (RunLoop b) → queue_grows b (cl_server w) (cl_server w').
Proof.
  destruct o as [ev|]; cbn; [intros [_ Hrun] Hev|intros -> _; reflexivity].
  apply (step_grows startLoop b ev ltac:(congruence) _ _ _ Hrun).
Qed.

(** The step in which the base loop runs it. *)
Lemma removal_done w w' q :
  cluster_inv w → base w = b → queue_of b (cl_server w) = removing :: q →
  served w w' (Some (RunLoop b)) → came_to 3 c w'.
Proof.
  intros Hinv <- Hq [_ Hrun].
  destruct (run_removal_step startLoop (cl_server w) q c (cv_srv_inv startLoop w Hinv) Hq)
    as (conn & Hc & Hph & _ & Hrun'). change (loop_ (cl_server w)) with (base w) in Hrun'.
  rewrite Hrun' in Hrun. injection Hrun as Hsrv. exists conn. rewrite <-Hsrv. split; [exact Hc|].
  unfold life. rewrite Hph, decide_False; [done|]. unfold mapped. cbn. by rewrite lookup_delete_eq.
Qed.

(** One step, seen from the base loop. *)
Lemma base_step_cases w w' ev s :
  cluster_good w → cluster_event_ok ev w → run ev w = Ok (tt, w') → base w = b → io_loops w ≠ [] →
  cl_loops w !! b = Some s →
  base w' = b ∧ ∃ o s1 s', served w w' o ∧ cl_loops w' !! b = Some s' ∧ rx_phase s' = rx_phase s1 ∧
    (round_of b ev = None ∧ o ≠ Some (RunLoop b) ∧ s1 = s ∨
     ∃ epoll_wait, round_of b ev = Some epoll_wait ∧ loop_step epoll_wait s = Ok (tt, s1) ∧
       step_view s s1 ∧ (o = Some (RunLoop b) ↔ ∃ rest, rx_phase s = Running (OfServer :: rest))).
Proof.
  intros Hw Hok Hrun Hb Hio Hs. destruct (event_served ev w w' Hw Hok Hrun) as (o & Ho & Hiff).
  set (p0 := match address ev with Some p => p + 1 | None => 0 end).
  destruct (event_moved b p0 ev w w' s Hw Hok Hrun Hs) as [_ (s1 & s' & Hs' & [Hph _] & Hcase)].
  { intros p Hp. left. unfold p0. rewrite Hp. lia. }
  pose proof (Hiff b s Hs) as Hserves. rewrite <-Hb in Hs. rewrite (base_serves w s) in Hserves by (apply Hw || done).
  split; [by rewrite (served_base _ _ _ Ho)|]. exists o, s1, s'. split_and!; [done..|].
  destruct (round_of b ev) as [epoll_wait|] eqn:Hround.
  - right. destruct Hcase as [Hstep Hokl]. exists epoll_wait. split_and!; [done..| |].
    + pose proof (wp_round epoll_wait s ltac:(by eapply cv_loop; [apply Hw|]) Hokl) as Hwp. unfold wp in Hwp.
      rewrite Hstep in Hwp. apply Hwp.
    + rewrite Hserves. split; [by intros [_ ?]|]. intros ?. split; [by eexists|done].
  - left. split_and!; [done| |done]. intros Heq. apply Hserves in Heq as [[? ?] _]. done.
Qed.

#[local] Instance runs_dec (o : option srv_event) : Decision (o = Some (RunLoop b)).
Proof.
  refine (match o with
  | Some (RunLoop l) => cast_if (decide (l = b))
  | _ => right _
  end); abstract congruence.
Defined.

(** What becomes of its place in the queue. *)
Lemma removal_place w w' o i :
  cluster_inv w → base w = b → served w w' o → queue_of b (cl_server w) !! i = Some removing →
  came_to 3 c w' ∨ ∃ i', queue_of b (cl_server w') !! i' = Some removing ∧
    if decide (o = Some (RunLoop b)) then i = S i' else i' = i.
Proof.
  intros Hinv Hb Ho Hi. destruct (decide (o = Some (RunLoop b))) as [->|Hne].
  - destruct (queue_of b (cl_server w)) as [|f q] eqn:Hq; [done|]. destruct i as [|i].
    + left. injection Hi as ->. by eapply removal_done.
    + right. exists i. split; [|done]. destruct Ho as [_ Hrun].
      destruct (run_loop_pops startLoop b f q _ _ Hq Hrun) as [fs ->]. by apply lookup_app_l_Some.
  - right. exists i. split; [|done]. destruct (served_grows w w' o Ho Hne) as [fs ->].
    by apply lookup_app_l_Some.
Qed.

Lemma queue_place w : removing ∈ queue_of b (cl_server w) ↔ ∃ i, queue_of b (cl_server w) !! i = Some removing.
Proof. apply list_elem_of_lookup. Qed.

Lemma removal_io w : cluster_inv w → removing ∈ queue_of b (cl_server w) → io_loops w ≠ [].
Proof. intros Hinv. apply (cv_removals _ _ _ Hinv). Qed.

Lemma removal_waits_step w w' :
  cluster_good w → cluster_step w w' → removal_waits w → removal_waits w' ∨ came_to 3 c w'.
Proof.
  intros Hw (ev & Hok & Hrun) [Hb Hin]. pose proof (removal_io w (proj1 Hw) Hin) as Hio.
  destruct (event_served ev w w' Hw Hok Hrun) as (o & Ho & _).
  apply queue_place in Hin as [i Hi].
  destruct (removal_place w w' o i (proj1 Hw) Hb Ho Hi) as [?|(i' & Hi' & _)]; [by right|left].
  split; [by rewrite (served_base _ _ _ Ho)|]. apply queue_place. eauto.
Qed.

Lemma removal_due_step w w' :
  cluster_good w → cluster_step w w' → removal_due w → removal_due w' ∨ came_to 3 c w'.
Proof.
  intros Hw (ev & Hok & Hrun) (Hb & i & s & Hi & Hs & Hlt).
  assert (io_loops w ≠ []) as Hio by (eapply removal_io; [apply Hw|by eapply list_elem_of_lookup_2]).
  destruct (base_step_cases w w' ev s Hw Hok Hrun Hb Hio Hs)
    as [Hb' (o & s1 & s' & Ho & Hs' & Hph & Hcase)].
  destruct (removal_place w w' o i (proj1 Hw) Hb Ho Hi) as [?|(i' & Hi' & Hplace)]; [by right|left].
  split; [done|]. exists i', s'. split_and!; [done..|]. rewrite Hph.
  destruct Hcase as [(_ & Hno & ->)|(epoll_wait & _ & _ & Hv & Hiff)].
  - rewrite decide_False in Hplace by done. by subst i'.
  - unfold step_view in Hv. destruct (rx_phase s) as [| |[|o1 rest]]; try (by apply Nat.nlt_0_r in Hlt).
    destruct Hv as [_ ->]. cbn [functors_of] in *.
    case_decide as Hrunl.
    + apply Hiff in Hrunl as [rest' [= -> ->]]. subst i.
      unfold server_tokens in Hlt. rewrite filter_cons_True in Hlt by done. cbn in Hlt.
      unfold server_tokens. lia.
    + subst i'. assert (o1 ≠ OfServer) as Ho1 by (intros ->; apply Hrunl, Hiff; by eexists).
      unfold server_tokens in *. by rewrite filter_cons_False in Hlt.
Qed.

(** The entries of the queue are the removals. *)
Lemma all_removals w s :
  cluster_inv w → base w = b → io_loops w ≠ [] → cl_loops w !! b = Some s →
  server_waiting s = length (queue_of b (cl_server w)).
Proof.
  intros Hinv <- Hio Hs. pose proof (cv_tokens _ _ _ Hinv _ _ Hs) as Htok.
  rewrite owed_none, Nat.add_0_r in Htok. rewrite Htok. unfold removals.
  pose proof (λ f, base_queue startLoop w f Hinv Hio) as Hq.
  clear -Hq. induction (queue_of (base w) (cl_server w)) as [|f q IH]; [done|].
  rewrite filter_cons_True by (apply Hq, list_elem_of_here). cbn. f_equal. apply IH.
  intros g Hg. by apply Hq, list_elem_of_further.
Qed.

Lemma removal_swap w w' :
  cluster_good w → swap_step b w w' → removal_waits w → removal_due w' ∨ came_to 3 c w'.
Proof.
  intros Hw (epoll_wait & peer & r & s & Hs & Hph & Hok & Hrun) [Hb Hin].
  pose proof (removal_io w (proj1 Hw) Hin) as Hio.
  destruct (base_step_cases w w' _ s Hw Hok Hrun Hb Hio Hs)
    as [Hb' (o & s1 & s' & Ho & Hs' & Hph' & Hcase)].
  apply queue_place in Hin as [i Hi].
  destruct (removal_place w w' o i (proj1 Hw) Hb Ho Hi) as [?|(i' & Hi' & Hplace)]; [by right|left].
  cbn [round_of] in Hcase. rewrite decide_True in Hcase by done.
  destruct Hcase as [[? _]|(ew & [= <-] & Hstep & _ & Hiff)]; [done|].
  rewrite decide_False in Hplace by (intros [rest ?]%Hiff; congruence). subst i'.
  split; [done|]. exists i, s'. split_and!; [done..|]. rewrite Hph'.
  assert (rx_phase s1 = Running (rx_pending s)) as ->.
  { assert (wlp (loop_step epoll_wait) (λ _ s1, rx_phase s1 = Running (rx_pending s)) s) as Hwlp
      by (unfold loop_step; do 2 wlp_step; rewrite Hph; by wlp_run).
    by apply Hwlp in Hstep. }
  pose proof (all_removals w s (proj1 Hw) Hb Hio Hs) as Hlen. apply lookup_lt_Some in Hi.
  unfold server_waiting in Hlen. rewrite Hph in Hlen. cbn [functors_of app] in *. lia.
Qed.

Lemma removal_turn w w' :
  cluster_good w → turn b w w' → removal_waits w ∨ came_to 3 c w → came_to 3 c w'.
Proof.
  apply (turn_done b removal_waits removal_due (came_to 3 c)).
  - apply removal_waits_step.
  - apply removal_swap.
  - apply removal_due_step.
  - apply came_to_step.
  - intros w1 s (_ & i & s1 & _ & Hs1 & Hlt) Hs Hnil. assert (s1 = s) as -> by congruence.
    rewrite Hnil in Hlt. by apply Nat.nlt_0_r in Hlt.
Qed.
End removal.
End turns.
