(* ===== verification/ClusterProps.v ===== *)
(** * The properties of the whole server (src/net/TcpServer.cc and its loops)

    All reachable states of Cluster.v: they are made of reachable states of the
    parts, the server and the loops agree on every connection, and closed
    connections are not leaked. With a concrete server of one io loop. *)
From S2P Require Import Prelude Posix Channel EPollPoller.
From S2P Require TimerQueue TimerQueueSpec TimerQueueProps.
From S2P Require Import InetAddress Sockets EventLoopThreadPool.
From S2P Require Import TcpServer TcpServerProps ServerSteps.
From S2P Require Import TcpConnection TcpConnectionSpec TcpConnectionProps ConnectionFrame Echo.
From S2P Require Import Reactor ReactorSpec ReactorProps Cluster ClusterSpec ClusterTurns.
Open Scope string_scope.
Open Scope list_scope.
Open Scope Z_scope.

Section properties.
Context {K TCB : Type} `{!Epoll K, !EpollSpec K, !Descriptors K, !DescriptorsSpec K}.
Abbreviation PW := (PollWorld K loop_callback).
Context `{!ConnEnv PW, !ConnEnvSpec PW, !TimerQueue.TimerEnv TCB, !TimerQueueSpec.TimerEnvSpec TCB,
  !Os}.
Abbreviation RX := (Reactor (K:=K) (TCB:=TCB)).
Context (startLoop : nat → ptr) (own_channels : ptr → ptr * ptr).
Abbreviation CL := (Cluster (K:=K) (TCB:=TCB)).
Abbreviation reachable := (cluster_reachable startLoop own_channels).
Implicit Types (w : CL) (s b : RX) (conn : Conn) (c : nat) (l p : ptr) (x : ConnW PW).

(** C4 (invariant). The whole server, its base loop and its io loops with all
    their connections and timers, in every interleaving of the loops' steps,
    acceptances, removals and user code: every step succeeds, so no close
    callback finds its connection unknown to the server, no functor runs in
    a thread it must not run in, and no freed object is used. And every state
    is composed of a state that the server of TcpServer.v can reach and, for
    each loop, one that a loop of Reactor.v can reach: what is shown of the
    parts holds in the whole. The base loop's poller always watches the
    acceptor's socket: the server does not stop accepting. *)
Theorem cluster_safe w :
  reachable w →
  (∀ ev, cluster_event_ok ev w → ∃ w', run_cluster_event startLoop ev w = Ok (tt, w')) ∧
  srv_reachable startLoop (cl_server w) ∧
  (∀ l s, cl_loops w !! l = Some s → loop_reachable s) ∧
  (∀ l, l ∈ base w :: io_loops w → is_Some (cl_loops w !! l)) ∧
  (∃ b a, cl_loops w !! base w = Some b ∧ rx_acceptor b = Some a ∧
     interest (epollfd_ (rx_poller b)) !! ac_socket a = Some (kReadEvent, ac_channel a)).
Proof.
  intros [Hinv [(b & Hb & Hlis) Hone]]%cluster_reachable_both. split_and!.
  - intros ev Hok. pose proof (wp_run_cluster_event startLoop ev w Hinv Hone Hok) as Hwp.
    apply wp_run in Hwp as ([] & w' & Hrun & _). eauto.
  - apply (cv_server _ _ _ Hinv).
  - intros l s Hl. by apply (cv_loop _ _ _ Hinv l s).
  - intros l [->|Hl]%elem_of_cons; [apply (cv_base _ _ _ Hinv)|]. by apply (cv_pool _ _ _ Hinv).
  - destruct (listening_watched b (cv_reactor startLoop w _ b Hinv Hb) Hlis) as (a & ? & ?).
    by exists b, a.
Qed.

(** The phase of a connection in the server's model and the state of the
    connection itself. *)
Definition phase_state (ph : TcpServer.phase) (st : StateE) : Prop :=
  match ph with
  | Connecting => st = kConnecting
  | Connected => st = kConnected ∨ st = kDisconnecting
  | Closed | Destroyed => st = kDisconnected
  end.

Lemma phase_stage_state ph st : stage_of st = phase_stage ph ↔ phase_state ph st.
Proof. destruct ph, st; cbn; naive_solver. Qed.

Lemma known_connection w l s p x :
  cluster_inv startLoop None w → cl_loops w !! l = Some s → rx_conns s !! p = Some x →
  ∃ c conn, cl_ids w !! (l, p) = Some c ∧ conns (cl_server w) !! c = Some conn ∧
    conn_loop conn = l ∧ phase_state (conn_phase conn) (state_ x) ∧
    phase_ok c conn (cl_server w) ∧ (p ∈ rx_mapped s ↔ mapped c conn (cl_server w)).
Proof.
  intros Hinv Hl Hx. destruct (cluster_connection startLoop w l s p Hinv Hl)
    as (c & conn & ? & ? & ? & ? & Hst & ? & ?); [unfold stage_at; rewrite Hx; eauto|].
  exists c, conn. split_and!; try done. apply phase_stage_state. unfold stage_at in Hst.
  rewrite Hx in Hst. by injection Hst.
Qed.

(** C5 (refinement). The server of TcpServer.v, which knows of a connection
    only its phase, is an abstraction of the whole: every object in a loop is
    one connection of the server, in the phase that its state says, and in the
    server's map exactly when the loop's books have it there; two objects are
    two connections; a connection that has not been destroyed has its object,
    in the loop that it was given; and the functors for it wait in this loop in
    the order in which the server's model has them. *)
Theorem cluster_refines_server w :
  reachable w →
  (∀ l s p x, cl_loops w !! l = Some s → rx_conns s !! p = Some x →
     ∃ c conn, cl_ids w !! (l, p) = Some c ∧ conns (cl_server w) !! c = Some conn ∧
       conn_loop conn = l ∧ phase_state (conn_phase conn) (state_ x) ∧
       (p ∈ rx_mapped s ↔ connections_ (cl_server w) !! conn_name conn = Some c)) ∧
  (∀ k k' c, cl_ids w !! k = Some c → cl_ids w !! k' = Some c → k = k') ∧
  (∀ c conn, conns (cl_server w) !! c = Some conn → conn_phase conn ≠ Destroyed →
     ∃ p s x, cl_ids w !! (conn_loop conn, p) = Some c ∧ cl_loops w !! conn_loop conn = Some s ∧
       rx_conns s !! p = Some x) ∧
  (∀ l s, cl_loops w !! l = Some s →
     Forall2 (functor_for (cl_ids w) l) (loop_queue s) (waiting_functors l (cl_server w))).
Proof.
  intros Hinv%cluster_reachable_inv. split_and!.
  - intros l s p x Hl Hx. destruct (known_connection w l s p x Hinv Hl Hx)
      as (c & conn & ? & ? & ? & ? & _ & ?). by exists c, conn.
  - intros [l p] [l' p'] c Hc Hc'.
    destruct (linked_inj _ _ _ _ _ _ (cv_linked _ _ _ Hinv _ _ _ Hc) (cv_linked _ _ _ Hinv _ _ _ Hc'))
      as [-> ->]. done.
  - intros c conn Hc Hph. destruct (cv_alive _ _ _ Hinv c conn Hc Hph) as [p Hid].
    destruct (cv_linked _ _ _ Hinv _ _ _ Hid) as (s & conn' & Hl & _ & _ & _ & Hst & _).
    unfold stage_at in Hst. destruct (rx_conns s !! p) as [y|] eqn:Hy; [|done]. by exists p, s, y.
  - apply (cv_queue _ _ _ Hinv).
Qed.

(** A functor that a connection has queued waits in the loop's queue. *)
Lemma linear_complete pend q p f :
  tokens p q = length (pend p) → f ∈ pend p → (p, f) ∈ linear pend q.
Proof.
  revert pend. induction q as [|[| |r] q IH]; intros pend Hlen Hf; cbn.
  - destruct (pend p); [by apply not_elem_of_nil in Hf|done].
  - apply IH; [by rewrite tokens_cons_ne in Hlen|done].
  - apply IH; [by rewrite tokens_cons_ne in Hlen|done].
  - destruct (decide (r = p)) as [->|Hne].
    + rewrite tokens_cons in Hlen. destruct (pend p) as [|g rest] eqn:Hp; [done|].
      apply elem_of_cons in Hf as [->|Hf]; [apply list_elem_of_here|apply list_elem_of_further].
      apply IH; rewrite decide_True by done; [simpl in Hlen; lia|done].
    + rewrite tokens_cons_ne in Hlen by congruence.
      destruct (pend r); [by apply IH|apply list_elem_of_further].
      by apply IH; rewrite decide_False by done.
Qed.

Lemma pending_queued s p x f :
  reactor_inv s → rx_conns s !! p = Some x → f ∈ pending x → ¬ own_functor f → (p, f) ∈ loop_queue s.
Proof.
  intros Hinv Hx Hf Hown. unfold loop_queue, srv_queue, server_functors.
  apply list_elem_of_filter. split; [done|]. apply linear_complete; unfold pending_at; rewrite Hx; [|done].
  rewrite tokens_app. pose proof (li_balanced _ _ _ Hinv p x Hx). lia.
Qed.

(** C16 (safety). No connection is leaked: when no functor of the server waits in
    any loop, a connection is either open and in the server's map under
    its name, or it is closed, out of the map, and the poller of its loop
    has forgotten its channel; and unless it still waits for a functor of
    its own, nobody holds it, so it can be released, which closes its
    socket. *)
Theorem cluster_no_leak w l s p x :
  reachable w → (∀ l', queue_of l' (cl_server w) = []) →
  cl_loops w !! l = Some s → rx_conns s !! p = Some x →
  is_open x ∧ (∃ name c, connections_ (cl_server w) !! name = Some c ∧ cl_ids w !! (l, p) = Some c) ∨
  destroyed (set_poller (rx_poller s) x) ∧ p ∉ rx_mapped s ∧
  (∀ name c, cl_ids w !! (l, p) = Some c → connections_ (cl_server w) !! name ≠ Some c) ∧
  (pending x = [] → ∃ w' s', run_cluster_event startLoop (ReleaseLast l p) w = Ok (tt, w') ∧
     cl_loops w' !! l = Some s' ∧ rx_conns s' !! p = None ∧ rx_closed s' = rx_closed s ++ [sockfd x]).
Proof.
  intros Hinv%cluster_reachable_inv Hq Hl Hx.
  destruct (known_connection w l s p x Hinv Hl Hx) as (c & conn & Hid & Hc & _ & Hst & Hph & Hm).
  pose proof (cv_srv_inv startLoop w Hinv) as Hsrv. pose proof (cv_reactor startLoop w l s Hinv Hl) as Hrx.
  unfold phase_ok in Hph. rewrite !Hq in Hph. destruct (conn_phase conn); cbn in Hst.
  - by destruct Hph as [_ []%not_elem_of_nil].
  - left. split; [exact Hst|]. by exists (conn_name conn), c.
  - by destruct Hph as [[_ []%not_elem_of_nil]|[_ []%not_elem_of_nil]].
  - right. assert (p ∉ rx_mapped s) as Hno by by rewrite Hm. split_and!; [|done|..].
    + destruct (ck_held _ _ _ _ (li_conn _ _ _ Hrx p x Hx)) as [?|[Hd|?]]; [done| |done]. exfalso.
      pose proof (pending_queued s p x _ Hrx Hx Hd ltac:(intros [_ ?]; done)) as Hin.
      pose proof (cv_queue _ _ _ Hinv l s Hl) as Hf. unfold waiting_functors in Hf. rewrite Hq in Hf.
      apply Forall2_nil_inv_r in Hf. rewrite Hf in Hin. by apply not_elem_of_nil in Hin.
    + intros name c' Hid' Hn. assert (c' = c) as -> by congruence.
      pose proof (si_map _ _ _ Hsrv name c Hn) as (conn' & Hc' & <-).
      apply Hph. unfold mapped. by assert (conn' = conn) as <- by congruence.
    + intros Hpend. cbn [run_cluster_event].
      pose proof (wp_release_connection _ _ p x s Hrx Hx (conj Hno Hpend)) as Hwp.
      apply wp_run in Hwp as ([] & s' & Hrun & _ & Hconns & _ & _ & Hcl & _).
      assert (on_loop l (run_loop_event (ReleaseConnection p)) w = Ok (tt, put_loop l s' w)) as Hloop.
      { unfold on_loop, deref, mbind, M_bind, loop_at. rewrite Hl. unfold lift_outcome.
        cbn [run_loop_event]. by rewrite Hrun. }
      exists (forget l p (put_loop l s' w)), s'.
      rewrite (run_bind_ok _ _ _ _ _ Hloop). split_and!; [done|cbn; apply lookup_insert_eq| |done].
      by rewrite Hconns, lookup_delete_eq.
Qed.
Lemma reachable_event ev w Q :
  reachable w → cluster_event_ok ev w → wp (run_cluster_event startLoop ev) Q w →
  wp (run_cluster_event startLoop ev) (λ a w', reachable w' ∧ Q a w') w.
Proof.
  intros (loop & chan & name & n & kernel_of & w0 & Haddr & Hnew & Hsteps) Hok Hwp.
  apply wp_run in Hwp as ([] & w' & Hrun & HQ). eapply wp_of_run; [exact Hrun|]. split; [|done].
  exists loop, chan, name, n, kernel_of, w0. split_and!; [done..|]. eapply rtc_r; [exact Hsteps|]. by exists ev.
Qed.

(** ** The turns of the base loop *)

(** What a step of a loop does to its place and its queue, but for the handling
    of a channel. *)
Definition turned s s' : Prop :=
  match rx_phase s with
  | AtPoll => rx_phase s' = Handling [] ∧ rx_pending s' = rx_pending s
  | Handling [] => rx_phase s' = Running (rx_pending s) ∧ rx_pending s' = []
  | Handling (_ :: _) => True
  | Running (_ :: rest) =>
      rx_phase s' = Running rest ∧ server_tokens (rx_pending s') = server_tokens (rx_pending s)
  | Running [] => rx_phase s' = AtPoll ∧ rx_pending s' = rx_pending s
  end.

(** [epoll_wait] runs into its timeout. *)
Definition timeout (_ : Z) : io_result (list epoll_event) := IoOk [].

Lemma loop_step_turned s : wlp (loop_step timeout) (λ _, turned s) s.
Proof.
  unfold loop_step, turned. do 2 wlp_step. destruct (rx_phase s) as [|[|p act]|[|o functors]] eqn:Hph.
  - unfold on_poller. wlp_step. apply wlp_zoom. intros act v Hpoll. wlp_run.
    assert (act = []) as -> by by injection Hpoll. done.
  - by wlp_run.
  - intros [] s' _. done.
  - by wlp_run.
  - apply wlp_bind. eapply wlp_mono; [apply run_owner_phase|]. intros [] s' [= _ Hq _]. by wlp_run.
Qed.

Lemma timeout_ok s : poll_ok timeout (rx_poller s).
Proof.
  split; [intros n evs Hn [= <-]|intros n evs [= <-]]; (split; [|by intros e ?%not_elem_of_nil]);
    [exact Hn|constructor].
Qed.

(** With io threads there are no connections on the base loop. *)
Lemma base_connection w b p x :
  cluster_inv startLoop None w → io_loops w ≠ [] → cl_loops w !! base w = Some b →
  rx_conns b !! p = Some x → False.
Proof.
  intros Hinv Hio Hb Hx. destruct (known_connection w (base w) b p x Hinv Hb Hx)
    as (c & conn & _ & Hc & Hl & _). pose proof (cv_where _ _ _ Hinv c conn Hc) as Hw.
  rewrite decide_False, Hl in Hw by done. by destruct (cv_pool _ _ _ Hinv _ Hw) as [_ []].
Qed.

Lemma base_round_ok w b peer p :
  cluster_inv startLoop None w → io_loops w ≠ [] → cl_loops w !! base w = Some b →
  (∀ q act, rx_phase b ≠ Handling (q :: act)) →
  cluster_event_ok (LoopRound (base w) timeout peer p) w.
Proof.
  intros Hinv Hio Hb Hph. split; [|intros s s' q act Hs Hact; congruence].
  exists b. split; [done|]. cbn. destruct (rx_phase b) as [|[|q act]|[|[| |q] functors]] eqn:Hphase;
    try done; [apply timeout_ok|by destruct (Hph q act)|].
  intros x Hx. unfold connection_at in Hx. apply fmap_Some in Hx as (y & Hy & _).
  by destruct (base_connection w b q y Hinv Hio Hb).
Qed.

Definition base_turned w b w' : Prop :=
  conns (cl_server w') = conns (cl_server w) ∧ base w' = base w ∧ io_loops w' = io_loops w ∧
  ∃ b', cl_loops w' !! base w = Some b' ∧ turned b b'.

Lemma wp_base_round w b peer p :
  cluster_inv startLoop None w → io_loops w ≠ [] → cl_loops w !! base w = Some b →
  (∀ q act, rx_phase b ≠ Handling (q :: act)) →
  wp (loop_round startLoop (base w) timeout peer p) (λ _ w', base_turned w b w') w.
Proof.
  intros Hinv Hio Hb Hph.
  destruct (base_round_ok w b peer p Hinv Hio Hb Hph) as [(b0 & Hb0 & Hok) _].
  assert (b0 = b) as -> by congruence. clear Hb0.
  unfold loop_round. wp_step. eapply wp_deref; [exact Hb|]. wp_step. eapply wp_on_loop; [exact Hb|].
  pose proof (wp_wlp _ _ _ _ (wp_round timeout b ltac:(by eapply cv_loop) Hok) (loop_step_turned b)) as Hstep.
  eapply wp_mono; [exact Hstep|]. intros [] b' [(Hb' & Hv & Htok) Hturn].
  wp_step. eapply wp_deref; [cbn; apply lookup_insert_eq|].
  assert (base_turned w b (put_loop (base w) b' w)) as Hdone.
  { split_and!; [done..|]. exists b'. split; [cbn; apply lookup_insert_eq|done]. }
  unfold step_view in Hv.
  destruct (rx_phase b) as [|[|q act]|[|[| |q] functors]] eqn:Hphase; cbn [next_functor]; try (by wp_step).
  - by destruct (Hph q act).
  - destruct Hv as [Hr Hph']. cbn [runs_server] in Htok.
    destruct (removal_round startLoop w (base w) b b' functors) as (_ & _ & Hinv1); try done; [by rewrite Hph'|lia|].
    wp_apply (wp_run_removal startLoop); [exact Hinv1|].
    intros [] w' (_ & Hc & Hbase & Hio' & Hsame). destruct Hdone as (_ & _ & _ & b2 & Hb2 & ?).
    split_and!; [done..|]. exists b2. split; [|done]. by rewrite Hsame.
  - exfalso. pose proof (li_functors _ _ _ (cv_reactor startLoop w _ b Hinv Hb) q) as Hq.
    rewrite Hphase in Hq. destruct Hq as [x Hx]; [set_solver|]. by eapply base_connection.
Qed.

(** The turns of the base loop from a poll that runs into its timeout: the poll,
    the swap of the queues, and one turn for each functor. *)
Definition base_turns (l : ptr) (n : nat) (peer : InetAddress) (p : ptr)
    : list (cluster_event (TCB:=TCB)) :=
  replicate (2 + n) (LoopRound l timeout peer p).

(** Where the base loop is after [n] turns: [fs] are the functors it found. *)
Definition turns_done (fs : list owner) (n : nat) b : Prop :=
  match n with
  | O => rx_phase b = AtPoll ∧ rx_pending b = fs
  | S O => rx_phase b = Handling [] ∧ rx_pending b = fs
  | S (S k) => rx_phase b = Running (drop k fs) ∧ server_tokens (rx_pending b) = 0%nat
  end.

Lemma turns_done_step fs n b b' :
  (n < 2 + length fs)%nat → turns_done fs n b → turned b b' → turns_done fs (S n) b'.
Proof.
  intros Hn Hdone. unfold turned. destruct n as [|[|k]]; cbn in Hdone; destruct Hdone as [-> Hq].
  - intros [? ?]. split; congruence.
  - intros [Hph Hp]. cbn. rewrite Hp. split; [|done]. by rewrite Hph, Hq.
  - destruct (lookup_lt_is_Some_2 fs k) as [o Ho]; [simpl in Hn; lia|].
    rewrite (drop_S _ _ _ Ho). intros [Hph Hp]. split; [done|congruence].
Qed.

Lemma turns_done_phase fs n b q act : turns_done fs n b → rx_phase b ≠ Handling (q :: act).
Proof. destruct n as [|[|k]]; intros [-> _]; done. Qed.

Lemma run_base_turns w b peer p :
  reachable w → io_loops w ≠ [] → cl_loops w !! base w = Some b → rx_phase b = AtPoll →
  wp (for_each (base_turns (base w) (length (rx_pending b)) peer p) (run_cluster_event startLoop))
    (λ _ w', reachable w' ∧ conns (cl_server w') = conns (cl_server w) ∧
      ∀ l c, RemoveConnectionInLoop c ∉ queue_of l (cl_server w')) w.
Proof.
  intros Hw Hio Hb Hph. set (fs := rx_pending b).
  apply (wp_for_each _ (λ pre w', reachable w' ∧ conns (cl_server w') = conns (cl_server w) ∧
    base w' = base w ∧ io_loops w' = io_loops w ∧
    ∃ b', cl_loops w' !! base w = Some b' ∧ turns_done fs (length pre) b')).
  - split_and!; [done..|]. by exists b.
  - intros pre ev post w1 Hev (Hw1 & Hconns & Hbase & Hio1 & b1 & Hb1 & Hdone).
    pose proof (cluster_reachable_inv _ _ _ Hw1) as Hinv. rewrite <-Hbase in Hb1.
    assert (ev = LoopRound (base w1) timeout peer p) as ->.
    { assert (ev ∈ base_turns (base w) (length fs) peer p) as Hin by (rewrite Hev; set_solver).
      rewrite Hbase. by apply elem_of_replicate in Hin as [-> _]. }
    assert (length pre < 2 + length fs)%nat as Hlen.
    { apply (f_equal length) in Hev. unfold base_turns in Hev.
      rewrite length_replicate, length_app in Hev. simpl in Hev. lia. }
    assert (io_loops w1 ≠ []) as Hio1' by by rewrite Hio1.
    assert (∀ q act, rx_phase b1 ≠ Handling (q :: act)) as Hph1
      by (intros q act; by eapply turns_done_phase).
    eapply wp_mono; [apply (reachable_event _ w1 (λ _, base_turned w1 b1) Hw1)|].
    + by apply (base_round_ok w1 b1).
    + by apply wp_base_round.
    + intros [] w2 (Hw2 & Hc2 & Hbase2 & Hio2 & b2 & Hb2 & Hturn).
      split_and!; [done|congruence..|]. exists b2. rewrite <-Hbase. split; [done|].
      rewrite length_app, Nat.add_comm. by apply (turns_done_step fs _ b1).
  - intros w' (Hw' & Hconns & Hbase & Hio' & b' & Hb' & Hdone). split_and!; [done..|]. intros l c Hc.
    pose proof (cluster_reachable_inv _ _ _ Hw') as Hinv. rewrite <-Hbase in Hb'.
    assert (l = base w') as ->.
    { by apply (si_queued _ _ _ (cv_srv_inv startLoop w' Hinv)) in Hc as (? & _ & _ & ? & _). }
    pose proof (cv_tokens _ _ _ Hinv _ _ Hb') as Htok. rewrite owed_none in Htok.
    assert (server_waiting b' = 0%nat) as Hzero.
    { unfold base_turns in Hdone. rewrite length_replicate in Hdone. destruct Hdone as [Hph' Hq].
      unfold server_waiting. rewrite Hph', drop_ge by done. exact Hq. }
    rewrite Hzero in Htok. symmetry in Htok. apply length_zero_iff_nil in Htok.
    assert (RemoveConnectionInLoop c ∈ filter (λ f, removal f = true) (queue_of (base w') (cl_server w')))
      as Hin by by apply list_elem_of_filter.
    rewrite Htok in Hin. by apply not_elem_of_nil in Hin.
Qed.

(** The base loop can always go round: from its next poll, even
    if this one runs into its timeout, one turn for the poll, one for the swap
    and one for each functor that waits, and every connection that is still in
    the server's map is open or about to be established, and
    [connectDestroyed] waits in the loop of every closed one, unless it has
    been run. *)
Lemma cluster_map_cleaned w b peer p :
  reachable w → io_loops w ≠ [] → cl_loops w !! base w = Some b → rx_phase b = AtPoll →
  ∃ w', for_each (base_turns (base w) (length (rx_pending b)) peer p)
      (run_cluster_event startLoop) w = Ok (tt, w') ∧
    reachable w' ∧ conns (cl_server w') = conns (cl_server w) ∧
    ∀ c conn, conns (cl_server w') !! c = Some conn →
      match conn_phase conn with
      | Connecting | Connected => connections_ (cl_server w') !! conn_name conn = Some c
      | Closed => connections_ (cl_server w') !! conn_name conn ≠ Some c ∧
          TcpServer.ConnectDestroyed c ∈ queue_of (conn_loop conn) (cl_server w')
      | Destroyed => connections_ (cl_server w') !! conn_name conn ≠ Some c
      end.
Proof.
  intros Hw Hio Hb Hat. pose proof (run_base_turns w b peer p Hw Hio Hb Hat) as Hwp.
  apply wp_run in Hwp as ([] & w' & Hrun & Hw' & Hconns & Hnone). exists w'. split_and!; [done..|].
  intros c conn Hc. pose proof (cv_srv_inv _ w' (cluster_reachable_inv _ _ _ Hw')) as Hsrv.
  pose proof (si_phase _ _ _ Hsrv c conn ltac:(done) Hc) as Hph. unfold phase_ok, mapped in Hph.
  destruct (conn_phase conn); [apply Hph|done| |done].
  destruct Hph as [[_ Hin]|[? ?]]; [by destruct (Hnone _ c Hin)|done].
Qed.

(** ** Turns, with everything else in between *)

Lemma life_connecting srv c conn : conn_phase conn ≠ Connecting ↔ (1 ≤ life srv c conn)%nat.
Proof. unfold life. destruct (conn_phase conn); try case_decide; split; done || lia. Qed.

Lemma life_removed w c conn :
  cluster_inv startLoop None w → conns (cl_server w) !! c = Some conn → (3 ≤ life (cl_server w) c conn)%nat →
  ¬ mapped c conn (cl_server w).
Proof.
  intros Hinv Hc. pose proof (si_phase _ _ _ (cv_srv_inv startLoop w Hinv) c conn ltac:(done) Hc) as Hok.
  unfold life, phase_ok in *. destruct (conn_phase conn); [lia|lia| |done]. case_decide; [lia|done].
Qed.

(** The functor that waits for a connection in its loop. *)
Lemma queued_waits w c conn f g k :
  cluster_inv startLoop None w → conns (cl_server w) !! c = Some conn →
  g ∈ queue_of (conn_loop conn) (cl_server w) → about g = Some c →
  g = TcpServer.ConnectEstablished c ∧ f = TcpConnection.ConnectEstablished ∧ k = 1%nat ∨
  g = TcpServer.ConnectDestroyed c ∧ f = TcpConnection.ConnectDestroyed ∧ k = 4%nat →
  ∃ p, functor_waits (conn_loop conn) p c f w.
Proof.
  intros Hinv Hc Hg Hab Hcase. set (l := conn_loop conn) in *.
  rewrite <-(waiting_all startLoop w l c conn Hinv Hc eq_refl) in Hg.
  apply list_elem_of_lookup in Hg as [i Hi].
  assert (is_Some (cl_loops w !! l)) as [s Hs].
  { assert (conn_phase conn ≠ Destroyed) as Hph.
    { intros Hph. pose proof (list_elem_of_lookup_2 _ _ _ Hi) as Hin.
      rewrite (waiting_all startLoop w l c conn Hinv Hc eq_refl) in Hin.
      apply (si_queued _ _ _ (cv_srv_inv startLoop w Hinv)) in Hin.
      destruct Hcase as [(-> & _)|(-> & _)]; destruct Hin as (conn' & Hc' & Hph' & _);
        assert (conn' = conn) as -> by congruence; congruence. }
    destruct (cv_alive _ _ _ Hinv c conn Hc Hph) as [p Hid].
    destruct (cv_linked _ _ _ Hinv _ _ _ Hid) as (s & _ & Hs & _). by exists s. }
  destruct (Forall2_lookup_r _ _ _ i _ (cv_queue _ _ _ Hinv l s Hs) Hi) as ([p f'] & Hx & c' & Hid & Hf').
  cbn in *. exists p. split.
  - rewrite Hid. f_equal. destruct Hf' as [[_ ->]|[_ ->]], Hcase as [(? & _)|(? & _)]; congruence.
  - exists s. split; [done|]. apply list_elem_of_lookup_2, loop_queue_pending in Hx. cbn in Hx.
    destruct Hf' as [[-> ->]|[-> ->]], Hcase as [(? & -> & _)|(? & -> & _)]; done.
Qed.

Abbreviation good := (cluster_good startLoop).
Abbreviation turn := (turn startLoop).

Lemma established_turn w w' c conn :
  good w → conns (cl_server w) !! c = Some conn → turn (conn_loop conn) w w' → came_to 1 c w'.
Proof.
  intros Hw Hc Hturn. pose proof (cv_srv_inv startLoop w (proj1 Hw)) as Hsrv.
  destruct (decide (conn_phase conn = Connecting)) as [Hph|Hph].
  - pose proof (si_phase _ _ _ Hsrv c conn ltac:(done) Hc) as Hok. unfold phase_ok in Hok.
    rewrite Hph in Hok. destruct Hok as [_ Hin].
    destruct (queued_waits w c conn TcpConnection.ConnectEstablished _ 1 (proj1 Hw) Hc Hin eq_refl
      ltac:(by left)) as [p Hwaits].
    eapply functor_done; [by left|exact Hw|exact Hturn|left; exact Hwaits].
  - eapply (functor_done startLoop _ 0 c TcpConnection.ConnectEstablished 1); [by left|exact Hw|exact Hturn|right].
    exists conn. split; [done|]. by apply life_connecting.
Qed.

Lemma removed_turn w w' c conn :
  good w → conns (cl_server w) !! c = Some conn → conn_phase conn = Closed → turn (base w) w w' →
  came_to 3 c w'.
Proof.
  intros Hw Hc Hph Hturn. apply (removal_turn startLoop (base w) c w w' Hw Hturn).
  pose proof (si_phase _ _ _ (cv_srv_inv startLoop w (proj1 Hw)) c conn ltac:(done) Hc) as Hok.
  unfold phase_ok in Hok. rewrite Hph in Hok. destruct Hok as [[_ Hin]|[Hm _]]; [by left|right].
  exists conn. split; [done|]. unfold life. by rewrite Hph, decide_False.
Qed.

Lemma destroyed_turn w w' c conn :
  good w → conns (cl_server w) !! c = Some conn → (3 ≤ life (cl_server w) c conn)%nat →
  turn (conn_loop conn) w w' → came_to 4 c w'.
Proof.
  intros Hw Hc Hlife Hturn. pose proof (cv_srv_inv startLoop w (proj1 Hw)) as Hsrv.
  pose proof (life_removed w c conn (proj1 Hw) Hc Hlife) as Hm.
  pose proof (si_phase _ _ _ Hsrv c conn ltac:(done) Hc) as Hok. unfold phase_ok in Hok.
  destruct (conn_phase conn) eqn:Hph; [by destruct Hok|done| |].
  - destruct Hok as [[? _]|[_ Hin]]; [done|].
    destruct (queued_waits w c conn TcpConnection.ConnectDestroyed _ 4 (proj1 Hw) Hc Hin eq_refl
      ltac:(by right)) as [p Hwaits].
    eapply functor_done; [by right|exact Hw|exact Hturn|left; exact Hwaits].
  - eapply (functor_done startLoop _ 0 c TcpConnection.ConnectDestroyed 4); [by right|exact Hw|exact Hturn|right].
    exists conn. split; [done|]. unfold life. by rewrite Hph.
Qed.

(** The connection object of a destroyed connection: nobody holds it, unless a
    functor of its own still waits. *)
Lemma destroyed_object w l s p x c conn :
  cluster_inv startLoop None w → cl_loops w !! l = Some s → rx_conns s !! p = Some x →
  cl_ids w !! (l, p) = Some c → conns (cl_server w) !! c = Some conn → conn_phase conn = Destroyed →
  destroyed (set_poller (rx_poller s) x) ∧ p ∉ rx_mapped s ∧ TcpConnection.ConnectDestroyed ∉ pending x.
Proof.
  intros Hinv Hl Hx Hid Hc Hph.
  destruct (known_connection w l s p x Hinv Hl Hx) as (c' & conn' & Hid' & Hc' & _ & Hst & Hok & Hm).
  assert (c' = c) as -> by congruence. assert (conn' = conn) as -> by congruence.
  pose proof (cv_reactor startLoop w l s Hinv Hl) as Hrx. unfold phase_ok in Hok. rewrite Hph in Hok.
  assert (p ∉ rx_mapped s) as Hno by by rewrite Hm.
  assert (TcpConnection.ConnectDestroyed ∉ pending x) as Hnd.
  { intros Hd. pose proof (pending_queued s p x _ Hrx Hx Hd ltac:(intros [_ ?]; done)) as Hin.
    apply list_elem_of_lookup in Hin as [i Hi].
    destruct (Forall2_lookup_l _ _ _ i _ (cv_queue _ _ _ Hinv l s Hl) Hi) as (g & Hg & c2 & Hid2 & Hg2).
    cbn in *. assert (c2 = c) as -> by congruence. destruct Hg2 as [[? _]|[_ ->]]; [done|].
    apply list_elem_of_lookup_2 in Hg. unfold waiting_functors in Hg.
    apply list_elem_of_filter in Hg as [_ Hg]. apply (si_queued _ _ _ (cv_srv_inv startLoop w Hinv)) in Hg.
    destruct Hg as (conn2 & Hc2 & Hph2 & _). congruence. }
  split_and!; [|done..]. by destruct (ck_held _ _ _ _ (li_conn _ _ _ Hrx p x Hx)) as [?|[?|?]].
Qed.

(** C6 (liveness). What the server hands to a loop is done when the loop has
    made a turn, whatever all other threads do before, meanwhile and after:
    a turn of [l] is any sequence of steps of the whole in which the thread of
    [l] once swaps its queues and comes to the end of what it found. After a
    turn of its loop, a connection that was accepted is established. After a
    turn of the base loop, a connection that was closed is out of the server's
    map, and after one more turn of its own loop it has been destroyed: the
    poller has forgotten its channel, and nobody holds the object, unless a
    functor of its own still waits. *)
Theorem done_in_turn w c conn :
  reachable w → conns (cl_server w) !! c = Some conn →
  (∀ w1, turn (conn_loop conn) w w1 →
     ∃ conn1, conns (cl_server w1) !! c = Some conn1 ∧ conn_phase conn1 ≠ Connecting) ∧
  (conn_phase conn = Closed → ∀ w1, turn (base w) w w1 →
     connections_ (cl_server w1) !! conn_name conn ≠ Some c ∧
     ∀ w2, turn (conn_loop conn) w1 w2 →
       (∃ conn2, conns (cl_server w2) !! c = Some conn2 ∧ conn_phase conn2 = Destroyed) ∧
       ∀ s p x, cl_loops w2 !! conn_loop conn = Some s → rx_conns s !! p = Some x →
         cl_ids w2 !! (conn_loop conn, p) = Some c →
         destroyed (set_poller (rx_poller s) x) ∧ p ∉ rx_mapped s ∧
         TcpConnection.ConnectDestroyed ∉ pending x).
Proof.
  intros Hw%cluster_reachable_both Hc. change (good w) in Hw. split.
  - intros w1 Hturn. destruct (established_turn w w1 c conn Hw Hc Hturn) as (conn1 & Hc1 & Hlife).
    exists conn1. split; [done|]. by eapply life_connecting.
  - intros Hph w1 Hturn. pose proof (turn_steps _ _ _ _ Hturn) as Hsteps.
    pose proof (steps_good _ _ _ Hw Hsteps) as Hw1.
    destruct (steps_older _ _ _ Hw Hsteps c conn Hc) as (conn1 & Hc1 & Hl1 & Hn1 & _).
    destruct (removed_turn w w1 c conn Hw Hc Hph Hturn) as (conn1' & Hc1' & Hlife).
    assert (conn1' = conn1) as -> by congruence. split.
    { rewrite <-Hn1. by apply (life_removed w1 c conn1 (proj1 Hw1) Hc1). }
    intros w2 Hturn2. rewrite <-Hl1 in Hturn2.
    pose proof (steps_good _ _ _ Hw1 (turn_steps _ _ _ _ Hturn2)) as Hw2.
    destruct (destroyed_turn w1 w2 c conn1 Hw1 Hc1 Hlife Hturn2) as (conn2 & Hc2 & Hlife2).
    assert (conn_phase conn2 = Destroyed) as Hph2
      by (unfold life in Hlife2; destruct (conn_phase conn2); try case_decide; done || lia).
    split; [by exists conn2|]. intros s p x Hs Hx Hid. by apply (destroyed_object w2 (conn_loop conn) s p x c conn2 (proj1 Hw2)).
Qed.

(** A loop without an acceptor accepts nothing. *)
Lemma no_accept_room w l epoll_wait p s :
  cl_loops w !! l = Some s → rx_acceptor s = None → accept_room l epoll_wait p w.
Proof.
  intros Hl Ha s0 s' q act Hs _ Hrun Hreads. assert (s0 = s) as -> by congruence. exfalso.
  apply loop_step_tokens in Hrun as [_ Hv]. unfold acceptor_view in Hv. rewrite Ha in Hv.
  unfold reads_of in Hreads. rewrite Ha in Hreads. destruct (rx_acceptor s'); [done|lia].
Qed.

(** Nor does a step that handles no channel. *)
Lemma no_handling_room w l epoll_wait p s :
  cl_loops w !! l = Some s → (∀ q act, rx_phase s ≠ Handling (q :: act)) → accept_room l epoll_wait p w.
Proof. intros Hl Hph s0 s' q act Hs Hact. assert (s0 = s) as -> by congruence. by destruct (Hph q act). Qed.

End properties.

(** ** A concrete server

    The base loop 1 and one io loop, 100: the acceptor reports a connection,
    which is accepted and established; the peer sends "hello" and closes; the
    base loop wakes up and removes the connection, and the io loop destroys
    it. *)
Abbreviation PW := (PollWorld kernel loop_callback).
#[local] Existing Instance TimerQueueProps.demo_env.
#[local] Existing Instance TimerQueueProps.demo_env_spec.
#[local] Instance server_env : ConnEnv PW := application echo_message _.
#[local] Instance server_env_spec : ConnEnvSpec PW := application_spec _ _ echo_message_ok.
Abbreviation CL := (Cluster (K:=kernel) (TCB:=list Timer.TimerId)).

Definition demo_channels (l : ptr) : ptr * ptr := (1000 * l + 1, 1000 * l + 2).
Definition demo_io : ptr := 100.
Definition demo_acceptor : ptr := 50.
Definition demo_start : outcome CL :=
  start_cluster TcpServerProps.demo_loop demo_channels 1 demo_acceptor "echo" 1 (λ _, booted_kernel).
Definition demo_cluster : CL :=
  match demo_start with
  | Ok w => w
  | Fault _ => MkCluster (new_TcpServer 1 "echo") ∅ ∅ []
  end.

Definition cluster_exec (w : CL) (ev : cluster_event) : CL :=
  match run_cluster_event TcpServerProps.demo_loop ev w with Ok (_, w') => w' | Fault _ => w end.

(** A step of a loop, for which the kernel reports [revents] of [chan]; the
    next connection is made at 30. *)
Definition demo_round (l : ptr) (revents chan : Z) : cluster_event (TCB:=list Timer.TimerId) :=
  LoopRound l (report revents chan) demo_peer 30.
Definition demo_rounds : list (cluster_event (TCB:=list Timer.TimerId)) :=
  [demo_round 1 EPOLLIN demo_acceptor; demo_round 1 0 0; demo_round 1 0 0; demo_round 1 0 0;
   demo_round demo_io EPOLLIN (demo_channels demo_io).2; demo_round demo_io 0 0;
   demo_round demo_io 0 0; demo_round demo_io 0 0; demo_round demo_io 0 0;
   demo_round demo_io EPOLLIN 30; demo_round demo_io 0 0; demo_round demo_io 0 0;
   demo_round demo_io 0 0;
   demo_round demo_io EPOLLHUP 30; demo_round demo_io 0 0;
   LoopRound 1 (report EPOLLIN (demo_channels 1).2) demo_peer 31;
   LoopRound 1 (report 0 0) demo_peer 31; demo_round 1 0 0; demo_round 1 0 0;
   demo_round demo_io 0 0; demo_round demo_io 0 0; demo_round demo_io 0 0].
Definition demo_at (n : nat) : CL := foldl cluster_exec demo_cluster (take n demo_rounds).

(** The two loops in these states. *)
Abbreviation RX := (Reactor (K:=kernel) (TCB:=list Timer.TimerId)).
Definition no_loop : RX :=
  MkReactor (MkPollWorld ∅ ∅ booted_kernel [] []) 0 (TimerQueue.empty_queue _ true) 0 0 0 0 0 ∅ ∅ []
    AtPoll None [].
Definition loop_of (l : ptr) (n : nat) : RX := default no_loop (cl_loops (demo_at n) !! l).

Lemma loop_of_lookup l n : l ∈ [1; demo_io] → (n ≤ 22)%nat → cl_loops (demo_at n) !! l = Some (loop_of l n).
Proof.
  intros Hl Hn. unfold loop_of. destruct (cl_loops (demo_at n) !! l) as [s|] eqn:Hs; [done|]. exfalso.
  assert (forallb (λ n, bool_decide (is_Some (cl_loops (demo_at n) !! 1)) &&
    bool_decide (is_Some (cl_loops (demo_at n) !! demo_io))) (seq 0 23) = true)
    as Hall by (vm_compute; reflexivity).
  rewrite forallb_forall in Hall. specialize (Hall n).
  rewrite in_seq, andb_true_iff, !bool_decide_eq_true in Hall.
  destruct Hall as [[s1 H1] [s2 H2]]; [lia|].
  apply elem_of_cons in Hl as [->|Hl%list_elem_of_singleton]; [congruence|subst l; congruence].
Qed.

Lemma io_lookup n : (n ≤ 22)%nat → cl_loops (demo_at n) !! demo_io = Some (loop_of demo_io n).
Proof. apply loop_of_lookup. apply list_elem_of_further, list_elem_of_here. Qed.
Lemma base_lookup n : (n ≤ 22)%nat → cl_loops (demo_at n) !! 1 = Some (loop_of 1 n).
Proof. apply loop_of_lookup. apply list_elem_of_here. Qed.

(** Which loop makes the next step, and where it is. *)
Definition demo_round_phases : list (ptr * phase) :=
  [(1, AtPoll); (1, Handling [demo_acceptor]); (1, Handling []); (1, Running []);
   (demo_io, AtPoll); (demo_io, Handling [(demo_channels demo_io).2]); (demo_io, Handling []);
   (demo_io, Running [OfConnection 30]); (demo_io, Running []);
   (demo_io, AtPoll); (demo_io, Handling [30]); (demo_io, Handling []); (demo_io, Running []);
   (demo_io, AtPoll); (demo_io, Handling [30]);
   (1, AtPoll); (1, Handling [(demo_channels 1).2]); (1, Handling []); (1, Running [OfServer]);
   (demo_io, Handling []); (demo_io, Running [OfConnection 30]); (demo_io, Running [])].

Example demo_round_phases_ok :
  imap (λ n '(l, _), (l, rx_phase (loop_of l n))) demo_round_phases = demo_round_phases.
Proof. vm_compute. reflexivity. Qed.

Lemma demo_round_phase n l ph : demo_round_phases !! n = Some (l, ph) → rx_phase (loop_of l n) = ph.
Proof.
  intros H. pose proof (f_equal (lookup n) demo_round_phases_ok) as Hok.
  rewrite list_lookup_imap, H in Hok. by injection Hok.
Qed.

Example demo_io_accepts_nothing :
  forallb (λ n, match rx_acceptor (loop_of demo_io n) with None => true | _ => false end) (seq 0 22) = true.
Proof. vm_compute. reflexivity. Qed.

Lemma demo_no_acceptor n : (n < 22)%nat → rx_acceptor (loop_of demo_io n) = None.
Proof.
  intros Hn. pose proof demo_io_accepts_nothing as Hall. rewrite forallb_forall in Hall.
  specialize (Hall n ltac:(apply in_seq; lia)). by destruct (rx_acceptor (loop_of demo_io n)).
Qed.

(** The base loop handles a channel: the connection that may come has a free
    address in the io loop. *)
Lemma demo_accept_room n p :
  (n ≤ 22)%nat → base (demo_at n) = 1 →
  nextConnId_ (cl_server (demo_at n)) < 2 ^ 31 - 1 →
  getNextLoop true (threadPool_ (cl_server (demo_at n))) =
    Ok (demo_io, threadPool_ (cl_server (demo_at n))) →
  pw_channels (rx_poller (loop_of demo_io n)) !! p = None →
  accept_room 1 (report 0 0) p (demo_at n).
Proof.
  intros Hn Hbase Hid Hget Hp s s' q act _ _ _ _. split; [exact Hid|]. intros l pool' s1 Hl Hs1.
  pose proof (eq_trans (eq_sym Hget) Hl) as Heq. injection Heq as <- _. cbn [cl_loops put_loop] in Hs1.
  rewrite lookup_insert_ne in Hs1 by done.
  rewrite (io_lookup n Hn) in Hs1. by injection Hs1 as <-.
Qed.

Lemma demo_room n l epoll_wait p ph :
  (n < 22)%nat → l = demo_io ∨ l = 1 ∧ demo_round_phases !! n = Some (l, ph) ∧ (∀ q act, ph ≠ Handling (q :: act)) →
  accept_room l epoll_wait p (demo_at n).
Proof.
  intros Hn [->|(-> & Hph & Hno)].
  - eapply no_accept_room; [apply io_lookup; lia|by apply demo_no_acceptor].
  - eapply no_handling_room; [apply base_lookup; lia|].
    by rewrite (demo_round_phase _ _ _ Hph).
Qed.

Lemma demo_step_ok n l epoll_wait :
  (match demo_rounds !! n with Some (LoopRound l' w _ _) => l' = l ∧ w = epoll_wait | _ => False end) →
  loop_event_ok (LoopThread epoll_wait) (loop_of l n).
Proof.
  intros Hev. assert (n < 22)%nat as Hn.
  { destruct (demo_rounds !! n) eqn:H; [by apply lookup_lt_Some in H|done]. }
  revert Hev.
  destruct n as [|[|[|[|[|[|[|[|[|[|[|[|[|[|[|[|[|[|[|[|[|[|n]]]]]]]]]]]]]]]]]]]]]]; [..|lia];
    cbn [demo_rounds lookup list_lookup demo_round]; intros [<- <-];
    unfold loop_event_ok; erewrite demo_round_phase by reflexivity; cbv iota; try exact I.
  - apply (report_ok EPOLLIN demo_acceptor 6 kReadEvent); [done|vm_compute; reflexivity|].
    apply (bool_decide_unpack _). vm_compute. exact I.
  - intros c Hc. vm_compute in Hc. discriminate Hc.
  - apply (report_ok EPOLLIN (demo_channels demo_io).2 5 kReadEvent); [done|vm_compute; reflexivity|].
    apply (bool_decide_unpack _). vm_compute. exact I.
  - intros c Hc. vm_compute in Hc. discriminate Hc.
  - intros c Hc. vm_compute in Hc. injection Hc as <-. exact I.
  - apply (report_ok EPOLLIN 30 6 kReadEvent); [done|vm_compute; reflexivity|].
    apply (bool_decide_unpack _). vm_compute. exact I.
  - intros c Hc. vm_compute in Hc. injection Hc as <-. vm_compute. discriminate.
  - apply (report_ok EPOLLHUP 30 6 (Z.lor kReadEvent kWriteEvent)); [done|vm_compute; reflexivity|].
    apply (bool_decide_unpack _). vm_compute. exact I.
  - intros c Hc. vm_compute in Hc. injection Hc as <-. vm_compute. discriminate.
  - apply (report_ok EPOLLIN (demo_channels 1).2 5 kReadEvent); [done|vm_compute; reflexivity|].
    apply (bool_decide_unpack _). vm_compute. exact I.
  - intros c Hc. vm_compute in Hc. discriminate Hc.
  - intros c Hc. vm_compute in Hc. injection Hc as <-. exact I.
Qed.

Lemma demo_round_ok n ev : demo_rounds !! n = Some ev → cluster_event_ok ev (demo_at n).
Proof.
  intros Hev. assert (n < 22)%nat as Hn by (by apply lookup_lt_Some in Hev).
  assert (∃ l epoll_wait peer p, ev = LoopRound l epoll_wait peer p ∧ l ∈ [1; demo_io] ∧
    accept_room l epoll_wait p (demo_at n)) as (l & epoll_wait & peer & p & -> & Hl & Hroom).
  { destruct n as [|[|[|[|[|[|[|[|[|[|[|[|[|[|[|[|[|[|[|[|[|[|n]]]]]]]]]]]]]]]]]]]]]]; [..|lia];
      injection Hev as <-; unfold demo_round; do 4 eexists; (split; [reflexivity|split; [set_solver|]]);
      try first [apply (demo_room _ _ _ _ AtPoll); [lia|left; reflexivity]
        |eapply demo_room; [lia|right; split; [reflexivity|split; [reflexivity|done]]]];
      apply demo_accept_room; try lia; vm_compute; reflexivity. }
  split; [|exact Hroom]. exists (loop_of l n). split; [apply loop_of_lookup; [done|lia]|].
  apply demo_step_ok. by rewrite Hev.
Qed.

Lemma demo_addresses : addresses_ok TcpServerProps.demo_loop demo_channels 1 demo_acceptor 1.
Proof.
  split_and!; [done|done|..|done|done].
  - apply (bool_decide_unpack _). vm_compute. exact I.
  - apply (bool_decide_unpack _). vm_compute. exact I.
  - intros l. unfold demo_channels. simpl. lia.
Qed.

Lemma demo_at_reachable n :
  (n ≤ 22)%nat → cluster_reachable TcpServerProps.demo_loop demo_channels (demo_at n).
Proof.
  assert (demo_start = Ok demo_cluster) as Hstart by (vm_compute; reflexivity).
  induction n as [|n IH]; intros Hn.
  - exists 1, demo_acceptor, "echo", 1, (λ _, booted_kernel), demo_cluster.
    split_and!; [apply demo_addresses|exact Hstart|apply rtc_refl].
  - destruct (lookup_lt_is_Some_2 demo_rounds n) as [ev Hev]; [simpl; lia|].
    specialize (IH ltac:(lia)). pose proof (demo_round_ok n ev Hev) as Hok.
    unfold demo_at. rewrite (take_S_r _ _ _ Hev), foldl_snoc. fold (demo_at n).
    destruct (cluster_reachable_both _ _ _ IH) as [Hinv [_ Hone]].
    pose proof (reachable_event _ _ ev (demo_at n) _ IH Hok
      (wp_run_cluster_event _ ev (demo_at n) Hinv Hone Hok)) as Hwp.
    apply wp_run in Hwp as ([] & w' & Hrun & Hw' & _).
    by assert (cluster_exec (demo_at n) ev = w') as -> by (unfold cluster_exec; by rewrite Hrun).
Qed.

(** The peer has closed, its connection is about to call the close callback. *)
Lemma cluster_safe_witness :
  cluster_reachable TcpServerProps.demo_loop demo_channels (demo_at 14) ∧
  cluster_event_ok (demo_round demo_io 0 0) (demo_at 14) ∧
  ∃ w', run_cluster_event TcpServerProps.demo_loop (demo_round demo_io 0 0) (demo_at 14) = Ok (tt, w').
Proof.
  assert (cluster_reachable TcpServerProps.demo_loop demo_channels (demo_at 14)) as Hw
    by (apply demo_at_reachable; lia).
  assert (cluster_event_ok (demo_round demo_io 0 0) (demo_at 14)) as Hok by (apply demo_round_ok; reflexivity).
  split; [exact Hw|]. split; [exact Hok|].
  exact (proj1 (cluster_safe _ _ _ Hw) _ Hok).
Defined.

Lemma only_connection srv c conn ph :
  conn_phase <$> conns srv = [ph] → conns srv !! c = Some conn → conn_phase conn = ph.
Proof.
  intros Hph Hc. apply (f_equal (lookup c)) in Hph. rewrite list_lookup_fmap, Hc in Hph.
  destruct c; [by injection Hph|done].
Qed.

Lemma single_entry {A B} (f : A → B) xs y : f <$> xs = [y] → ∃ x, xs !! 0%nat = Some x ∧ f x = y.
Proof. destruct xs as [|x [|]]; cbn; try done. intros [= <-]. by exists x. Qed.

(** It is closed, and its removal waits in the base loop. *)
Lemma cluster_refines_server_witness :
  cluster_reachable TcpServerProps.demo_loop demo_channels (demo_at 15) ∧
  conn_phase <$> conns (cl_server (demo_at 15)) = [Closed] ∧
  ∃ x c, rx_conns (loop_of demo_io 15) !! 30 = Some x ∧ state_ x = kDisconnected ∧
    cl_ids (demo_at 15) !! (demo_io, 30) = Some c ∧ connections_ (cl_server (demo_at 15)) !! "echo-1" = Some c.
Proof.
  assert (cluster_reachable TcpServerProps.demo_loop demo_channels (demo_at 15)) as Hw
    by (apply demo_at_reachable; lia).
  assert (conn_phase <$> conns (cl_server (demo_at 15)) = [Closed]) as Hph by (vm_compute; reflexivity).
  split; [exact Hw|]. split; [exact Hph|].
  assert (is_Some (rx_conns (loop_of demo_io 15) !! 30)) as [x Hx]
    by (apply (bool_decide_unpack _); vm_compute; exact I).
  destruct (proj1 (cluster_refines_server _ _ _ Hw) demo_io (loop_of demo_io 15) 30 x
    (io_lookup 15 ltac:(lia)) Hx) as (c & conn & Hid & Hc & _ & Hst & Hm).
  pose proof (only_connection _ _ _ _ Hph Hc) as Hclosed.
  assert (connections_ (cl_server (demo_at 15)) !! "echo-1" = Some 0%nat) as Hname by (vm_compute; reflexivity).
  assert (cl_ids (demo_at 15) !! (demo_io, 30) = Some 0%nat) as H0 by (vm_compute; reflexivity).
  rewrite Hclosed in Hst.
  exact (ex_intro _ x (ex_intro _ 0%nat (conj Hx (conj Hst (conj H0 Hname))))).
Defined.

Lemma cluster_map_cleaned_witness :
  cluster_reachable TcpServerProps.demo_loop demo_channels (demo_at 15) ∧
  conn_phase <$> conns (cl_server (demo_at 15)) = [Closed] ∧
  rx_phase (loop_of 1 15) = AtPoll ∧ rx_pending (loop_of 1 15) = [OfServer] ∧
  ∃ w', for_each (base_turns 1 1 demo_peer 31) (run_cluster_event TcpServerProps.demo_loop)
      (demo_at 15) = Ok (tt, w') ∧
    connections_ (cl_server w') !! "echo-1" ≠ Some 0%nat ∧
    TcpServer.ConnectDestroyed 0 ∈ queue_of demo_io (cl_server w').
Proof.
  assert (cluster_reachable TcpServerProps.demo_loop demo_channels (demo_at 15)) as Hw
    by (apply demo_at_reachable; lia).
  assert ((λ conn, (conn_phase conn, conn_name conn, conn_loop conn)) <$>
    conns (cl_server (demo_at 15)) = [(Closed, "echo-1", demo_io)]) as Hconn by (vm_compute; reflexivity).
  assert (conn_phase <$> conns (cl_server (demo_at 15)) = [Closed]) as Hph by (vm_compute; reflexivity).
  assert (rx_phase (loop_of 1 15) = AtPoll) as Hat by (vm_compute; reflexivity).
  assert (rx_pending (loop_of 1 15) = [OfServer]) as Hpend by (vm_compute; reflexivity).
  assert (base (demo_at 15) = 1) as Hbase by (vm_compute; reflexivity).
  assert (io_loops (demo_at 15) = [demo_io]) as Hio by (vm_compute; reflexivity).
  assert (io_loops (demo_at 15) ≠ []) as Hne by (rewrite Hio; discriminate).
  assert (cl_loops (demo_at 15) !! base (demo_at 15) = Some (loop_of 1 15)) as Hb
    by (rewrite Hbase; apply base_lookup; lia).
  destruct (cluster_map_cleaned _ _ (demo_at 15) (loop_of 1 15) demo_peer 31 Hw Hne Hb Hat)
    as (w' & Hrun & _ & Hconns & Hall).
  rewrite Hpend, Hbase in Hrun. apply single_entry in Hconn as (conn & Hc & Hfields).
  rewrite <-Hconns in Hc. specialize (Hall 0%nat conn Hc).
  injection Hfields as Hphase Hname Hloop. rewrite Hphase, Hname, Hloop in Hall.
  exact (conj Hw (conj Hph (conj Hat (conj Hpend (ex_intro _ w' (conj Hrun Hall)))))).
Defined.

(** No functor waits, and the connection is destroyed. *)
Lemma cluster_no_leak_witness :
  cluster_reachable TcpServerProps.demo_loop demo_channels (demo_at 22) ∧
  (∀ l, queue_of l (cl_server (demo_at 22)) = []) ∧
  ∃ x, rx_conns (loop_of demo_io 22) !! 30 = Some x ∧
    destroyed (set_poller (rx_poller (loop_of demo_io 22)) x) ∧ 30 ∉ rx_mapped (loop_of demo_io 22).
Proof.
  assert (cluster_reachable TcpServerProps.demo_loop demo_channels (demo_at 22)) as Hw
    by (apply demo_at_reachable; lia).
  assert (∀ l, queue_of l (cl_server (demo_at 22)) = []) as Hq.
  { intros l. unfold queue_of. destruct (queues (cl_server (demo_at 22)) !! l) as [q|] eqn:E; [|reflexivity].
    assert (map_Forall (λ _ q, q = []) (queues (cl_server (demo_at 22)))) as Hall
      by (apply (bool_decide_unpack _); vm_compute; exact I).
    exact (Hall l q E). }
  split; [exact Hw|]. split; [exact Hq|].
  assert (is_Some (rx_conns (loop_of demo_io 22) !! 30)) as [x Hx]
    by (apply (bool_decide_unpack _); vm_compute; exact I).
  assert (bool_decide (30 ∈ rx_mapped (loop_of demo_io 22)) = false) as Hno by (vm_compute; reflexivity).
  assert (connections_ (cl_server (demo_at 22)) = ∅) as Hmap by (vm_compute; reflexivity).
  destruct (cluster_no_leak _ _ _ demo_io (loop_of demo_io 22) 30 x Hw Hq (io_lookup 22 ltac:(lia)) Hx)
    as [[_ (name & c & Hn & _)]|(Hd & Hm & _)].
  - exfalso. rewrite Hmap, lookup_empty in Hn. discriminate Hn.
  - exact (ex_intro _ x (conj Hx (conj Hd Hm))).
Defined.

Lemma demo_round_run n ev :
  demo_rounds !! n = Some ev →
  run_cluster_event TcpServerProps.demo_loop ev (demo_at n) = Ok (tt, demo_at (S n)).
Proof.
  intros Hev. assert (n < 22)%nat by (by apply lookup_lt_Some in Hev).
  unfold demo_at at 2. rewrite (take_S_r _ _ _ Hev), foldl_snoc. fold (demo_at n).
  destruct (cluster_reachable_both _ _ _ (demo_at_reachable n ltac:(lia))) as [Hinv [_ Hone]].
  pose proof (wp_run_cluster_event _ ev (demo_at n) Hinv Hone (demo_round_ok n ev Hev)) as Hwp.
  apply wp_run in Hwp as ([] & w' & Hrun & _). unfold cluster_exec. by rewrite Hrun.
Qed.

Lemma demo_rounds_steps n m :
  (n + m ≤ 22)%nat → rtc (cluster_step TcpServerProps.demo_loop) (demo_at n) (demo_at (n + m)).
Proof.
  induction m as [|m IH]; intros Hm; [by rewrite Nat.add_0_r|].
  eapply rtc_r; [apply IH; lia|]. rewrite Nat.add_succ_r.
  destruct (lookup_lt_is_Some_2 demo_rounds (n + m)) as [ev Hev]; [simpl; lia|].
  exists ev. split; [by apply demo_round_ok|by apply demo_round_run].
Qed.

(** Step [n + a] is the swap of the loop [l], which is done at [n + a + 1 + z]. *)
Lemma demo_turn l n a z :
  (n + a + 1 + z ≤ 22)%nat → l ∈ [1; demo_io] → rx_phase (loop_of l (n + a)) = Handling [] →
  (match demo_rounds !! (n + a)%nat with Some (LoopRound l' _ _ _) => l' = l | _ => False end) →
  functors_of (rx_phase (loop_of l (n + a + 1 + z))) = [] →
  turn TcpServerProps.demo_loop l (demo_at n) (demo_at (n + a + 1 + z)).
Proof.
  intros Hle Hl Hph Hev Hend.
  exists (demo_at (n + a)), (demo_at (n + a + 1)), (loop_of l (n + a + 1 + z)).
  split_and!; [apply demo_rounds_steps; lia| |by apply demo_rounds_steps|by apply loop_of_lookup|done].
  destruct (demo_rounds !! (n + a)%nat) as [[l' ew peer p| | | |]|] eqn:Hround; try done. subst l'.
  exists ew, peer, p, (loop_of l (n + a)). split_and!; [apply loop_of_lookup; [done|lia]|done| |].
  - by apply demo_round_ok.
  - rewrite Nat.add_1_r. by apply demo_round_run.
Qed.

(** The closed connection, one turn of the base loop and one of its own. *)
Lemma done_in_turn_witness :
  cluster_reachable TcpServerProps.demo_loop demo_channels (demo_at 15) ∧
  conn_phase <$> conns (cl_server (demo_at 15)) = [Closed] ∧
  turn TcpServerProps.demo_loop 1 (demo_at 15) (demo_at 19) ∧
  turn TcpServerProps.demo_loop demo_io (demo_at 19) (demo_at 22) ∧
  connections_ (cl_server (demo_at 19)) !! "echo-1" ≠ Some 0%nat ∧
  ∃ conn, conns (cl_server (demo_at 22)) !! 0%nat = Some conn ∧ conn_phase conn = Destroyed.
Proof.
  assert (cluster_reachable TcpServerProps.demo_loop demo_channels (demo_at 15)) as Hw
    by (apply demo_at_reachable; lia).
  assert ((λ conn, (conn_phase conn, conn_name conn, conn_loop conn)) <$>
    conns (cl_server (demo_at 15)) = [(Closed, "echo-1", demo_io)]) as Hconn by (vm_compute; reflexivity).
  assert (conn_phase <$> conns (cl_server (demo_at 15)) = [Closed]) as Hph by (vm_compute; reflexivity).
  assert (base (demo_at 15) = 1) as Hbase by (vm_compute; reflexivity).
  assert (functors_of (rx_phase (loop_of 1 19)) = []) as Hend1 by (vm_compute; reflexivity).
  assert (functors_of (rx_phase (loop_of demo_io 22)) = []) as Hend2 by (vm_compute; reflexivity).
  assert (turn TcpServerProps.demo_loop 1 (demo_at 15) (demo_at 19)) as Hturn1.
  { apply (demo_turn 1 15 2 1); [simpl; lia|apply list_elem_of_here| |reflexivity|exact Hend1].
    apply (demo_round_phase 17 1). reflexivity. }
  assert (turn TcpServerProps.demo_loop demo_io (demo_at 19) (demo_at 22)) as Hturn2.
  { apply (demo_turn demo_io 19 0 2);
      [simpl; lia|apply list_elem_of_further, list_elem_of_here| |reflexivity|exact Hend2].
    apply (demo_round_phase 19 demo_io). reflexivity. }
  apply single_entry in Hconn as (conn & Hc & Hfields). injection Hfields as Hphase Hname Hloop.
  destruct (proj2 (done_in_turn _ _ _ 0%nat conn Hw Hc) Hphase (demo_at 19)) as [Hout Hnext].
  { rewrite Hbase. exact Hturn1. }
  rewrite Hname in Hout. rewrite Hloop in Hnext.
  exact (conj Hw (conj Hph (conj Hturn1 (conj Hturn2 (conj Hout (proj1 (Hnext (demo_at 22) Hturn2))))))).
Defined.
