(* ===== verification/Tests.v ===== *)
(** * The unit tests (tests/)

    Test programs of the repository on the model, with their assertions: what
    they check of the library holds of the definitions. The tests of one
    component each are here (test_buffer.cc, test_socket_wrappers.cc,
    test_timestamp.cc, test_timer_queue.cc, test_event_loop_thread_pool.cc) and
    the message callback that the tests of the connection and the server share
    (test_tcp_connection.cc, test_tcp_server.cc,
    test_echo_server_integration.cc). Lines that are only logged are left out,
    and so are the threads and the waiting. *)
From S2P Require Import Prelude Posix Channel Decimal.
From S2P Require Buffer Logger Timestamp FormattedTime Basic InetAddress Sockets.
From S2P Require Timer TimerQueue EventLoopThreadPool.
From S2P Require EPollPoller TcpConnection TcpConnectionSpec TcpConnectionProps Echo.
From Stdlib Require Import Floats.SpecFloat.
Open Scope string_scope.
Open Scope list_scope.
Open Scope Z_scope.

(** [assert(b)] on what the test can see. *)
Definition check {W} (b : W → bool) : M W unit := v ← gets b; require AbortAssert v.

Definition bytes_of (s : string) : bytes := String.list_byte_of_string s.

(** ** test_buffer.cc *)
Module TestBuffer.
Import Buffer.

Definition message : bytes := bytes_of "hello buffer readFd".

(** [written] is what [write] returns for [message], and [readv] reads from
    the pipe. *)
Definition test_buffer (written : Z) (readv : Z → io_result bytes) : M Buffer Z :=
  check (λ b, readableBytes b =? 0) ;;
  check (λ b, writableBytes b =? 1024) ;;
  check (λ b, prependableBytes b =? 8) ;;
  append (bytes_of "hello") ;;
  check (λ b, readableBytes b =? 5) ;;
  first ← retrieveAsString 2;
  require AbortAssert (bool_decide (first = bytes_of "he")) ;;
  check (λ b, readableBytes b =? 3) ;;
  rest ← retrieveAllAsString;
  require AbortAssert (bool_decide (rest = bytes_of "llo")) ;;
  append (replicate 2000 "x"%byte) ;;
  check (λ b, readableBytes b =? 2000) ;;
  retrieveAll ;;
  check (λ b, readableBytes b =? 0) ;;
  check (λ b, prependableBytes b =? 8) ;;
  require AbortAssert (written =? zlen message) ;;
  '(n, savedErrno) ← readFd readv;
  require AbortAssert (n =? zlen message) ;;
  require AbortAssert (bool_decide (savedErrno = None)) ;;
  all ← retrieveAllAsString;
  require AbortAssert (bool_decide (all = message)) ;;
  mret 0.

Definition exit_code {A} (m : M Buffer A) : outcome A :=
  b ← new_Buffer kInitialSize; '(a, _) ← m b; mret a.

(** The test passes on a pipe that delivers what was written, whatever the
    capacity [readFd] offers it. *)
Theorem test_buffer_passes : exit_code (test_buffer 19 (readv_stream message)) = Ok 0.
Proof. vm_compute. reflexivity. Qed.

(** It notices a short write, a short read and a failing one. *)
Theorem test_buffer_notices :
  exit_code (test_buffer 18 (readv_stream message)) = Fault AbortAssert ∧
  exit_code (test_buffer 19 (readv_stream (take 18 message))) = Fault AbortAssert ∧
  exit_code (test_buffer 19 (λ _, IoErr EAGAIN)) = Fault AbortAssert.
Proof. split_and!; vm_compute; reflexivity. Qed.
End TestBuffer.

(** ** test_socket_wrappers.cc *)
Module TestSocketWrappers.
Import InetAddress Sockets.

(** A [Socket] is its descriptor, so the assertion on [socket.fd()] holds by
    construction; the two static assertions are about the C++ type. The last
    call is the destructor of the socket. *)
Definition test_socket_wrappers `{!InetLib, !Os} : M SockWorld Z :=
  let anyAddress := new_InetAddress 9000 false in
  require AbortAssert (bool_decide (toIp anyAddress = "0.0.0.0")) ;;
  require AbortAssert (bool_decide (toIpPort anyAddress = "0.0.0.0:9000")) ;;
  let loopbackAddress := new_InetAddress 9001 true in
  require AbortAssert (bool_decide (toIp loopbackAddress = "127.0.0.1")) ;;
  require AbortAssert (bool_decide (toIpPort loopbackAddress = "127.0.0.1:9001")) ;;
  explicitAddress ← lift_outcome (new_InetAddress_ip "127.0.0.1" 9002);
  require AbortAssert (bool_decide (toIp explicitAddress = "127.0.0.1")) ;;
  require AbortAssert (bool_decide (toIpPort explicitAddress = "127.0.0.1:9002")) ;;
  fd ← createBlockingOrDie;
  socket_destroy fd ;;
  mret 0.

Section passes.
Context `{!InetLib, !InetLibSpec, !Os}.

(** Writing an address of four bytes. *)
Lemma text_of a port :
  0 ≤ a < 2 ^ 32 →
  let i := MkInetAddress (MkSockaddr AF_INET (htons port) a) in
  toIp i = dotted a ∧ toIpPort i = dotted a +:+ ":" +:+ pretty (ntohs (htons port)).
Proof. intros Ha i. unfold toIpPort, toIp, i. cbn [addr_ s_addr]. by rewrite inet_ntop_dotted. Qed.

Definition socket_call : syscall := SysSocket AF_INET SOCK_STREAM IPPROTO_TCP.

(** With any [inet_ntop] that prints dotted addresses, an [inet_pton] that
    reads 127.0.0.1, and a kernel that has a socket, the test passes: the texts
    are right, and the socket is created blocking and closed at the end. *)
Theorem test_socket_wrappers_passes fd w :
  inet_pton "127.0.0.1" = Some 0x0100007f →
  (∀ tr, result tr socket_call = IoOk fd) →
  wp test_socket_wrappers
    (λ code w', code = 0 ∧ trace w' = trace w ++ [socket_call; SysClose fd]) w.
Proof.
  intros Hpton Hsock. unfold test_socket_wrappers, new_InetAddress, new_InetAddress_ip.
  rewrite Hpton.
  destruct (text_of (htonl INADDR_ANY) 9000 ltac:(by vm_compute)) as [Ha Hap].
  destruct (text_of (htonl INADDR_LOOPBACK) 9001 ltac:(by vm_compute)) as [Hl Hlp].
  destruct (text_of 0x0100007f 9002 ltac:(by vm_compute)) as [He Hep].
  rewrite Ha, Hap, Hl, Hlp. unfold createBlockingOrDie, createSocketOrDie, do_call,
    socket_destroy, sockets_close, or_log, log_error.
  wp_steps; rewrite ?He, ?Hep; try (by apply bool_decide_eq_true_2; vm_compute).
  change (SysSocket AF_INET (Z.lor SOCK_STREAM 0) IPPROTO_TCP) with socket_call.
  rewrite Hsock. unfold do_call. wp_steps; destruct (result _ _); wp_steps;
    cbn [trace errors]; by rewrite <-app_assoc.
Qed.
End passes.
End TestSocketWrappers.

(** ** test_timestamp.cc *)
Module TestTimestamp.
Import Logger Timestamp FormattedTime Basic.

Definition test_timestamp `{!LocalTime} (file : string) (tv_sec tv_usec : Z) : M Console Z :=
  log INFO file 8 "test_timestamp start" ;;
  t ← lift_outcome (now tv_sec tv_usec);
  modify (print_line ("microSecondsSinceEpoch: " +:+ pretty (microSecondsSinceEpoch t))) ;;
  modify (print_line ("secondsSinceEpoch: " +:+ pretty (secondsSinceEpoch t))) ;;
  modify (print_line ("toString: " +:+ toString t)) ;;
  formatted ← lift_outcome (toFormattedString t);
  modify (print_line ("toFormattedString: " +:+ formatted)) ;;
  log INFO file 16 "test_timestamp end" ;;
  mret 0.

#[local] Instance utc : LocalTime := {|
  localtime_r seconds := if seconds =? 1700000000 then Some (MkTm 123 10 14 22 13 20) else None;
|}.

Example test_timestamp_prints :
  test_timestamp "t.cc" 1700000000 42 (MkConsole [] []) =
  Ok (0, MkConsole
    ["[INFO] t.cc:8 test_timestamp start";
     "microSecondsSinceEpoch: 1700000000000042";
     "secondsSinceEpoch: 1700000000";
     "toString: 1700000000.000042";
     "toFormattedString: 2023-11-14 22:13:20";
     "[INFO] t.cc:16 test_timestamp end"] []).
Proof. vm_compute. reflexivity. Qed.
End TestTimestamp.

(** ** test_event_loop_thread_pool.cc *)
Module TestPool.
Import EventLoopThreadPool.

Section test.
Context (startLoop : nat → ptr).

(** [for (int i = 0; i < n; ++i)]: [None] when a null pointer is returned. *)
Fixpoint collect (n : nat) (loops : list ptr) : M Pool (option (list ptr)) :=
  match n with
  | O => mret (Some loops)
  | S n' =>
      loop ← getNextLoop true;
      if loop =? 0 then mret None else collect n' (loops ++ [loop])
  end.

(** The tasks that the test hands to the loops only log. *)
Definition test_event_loop_thread_pool (baseLoop : ptr) : M Pool Z :=
  setThreadNum 3 ;;
  start startLoop true false ;;
  collected ← collect 6 [];
  match collected with
  | None => mret 1
  | Some loops =>
      let allBaseLoop := forallb (λ loop, loop =? baseLoop) loops in
      if (allBaseLoop : bool) then mret 1
      else if negb (bool_decide (loops !! 0%nat = loops !! 3%nat))
           || negb (bool_decide (loops !! 1%nat = loops !! 4%nat))
           || negb (bool_decide (loops !! 2%nat = loops !! 5%nat))
      then mret 1
      else mret 0
  end.

(** What the loop has collected: the loops in turn, from the k-th on. *)
Lemma wp_collect n k acc p :
  pool_ok startLoop p → loops_ p ≠ [] → next_ p = Z.of_nat k `mod` zlen (loops_ p) →
  let ls := round_robin (loops_ p) (baseLoop_ p) <$> seq k n in
  wp (collect n acc) (λ r _, r = if decide (0 ∈ ls) then None else Some (acc ++ ls)) p.
Proof.
  revert k acc p. induction n as [|n IH]; intros k acc p Hok Hne Hk ls; unfold ls;
    cbn [collect seq fmap list_fmap].
  { wp_steps. rewrite decide_False by apply not_elem_of_nil. by rewrite app_nil_r. }
  wp_step. wp_apply (wp_getNextLoop startLoop true eq_refl p Hok).
  intros loop p' (Hok' & Hl & Hb & _ & _ & Hnext). destruct (Hnext Hne) as [Hloop Hn'].
  assert (0 < zlen (loops_ p)) by (destruct (loops_ p); [done|simpl; lia]).
  assert (loop = round_robin (loops_ p) (baseLoop_ p) k) as <-.
  { unfold round_robin. rewrite Hk, <-Nat2Z.inj_mod, Nat2Z.id in Hloop by done.
    symmetry. by apply nth_lookup_Some. }
  destruct (Z.eqb_spec loop 0) as [Hz|Hz].
  { wp_step. by rewrite decide_True by (rewrite Hz; left). }
  wp_apply (IH (S k) (acc ++ [loop]) p'); [done|by rewrite Hl| |].
  { rewrite Hn', Hl, Hk, Zplus_mod_idemp_l. f_equal. lia. }
  intros r p'' ->. rewrite Hl, Hb, <-app_assoc. do 2 case_decide; try done; exfalso; set_solver.
Qed.

(** The test succeeds exactly when the three threads have a loop each, and
    these are not all the loop of the main thread. *)
Theorem test_pool_passes baseLoop (threads := startLoop <$> seq 0 3) :
  wp (test_event_loop_thread_pool baseLoop)
    (λ code _, code = if decide (0 ∈ threads ∨ Forall (λ l, l = baseLoop) threads) then 1 else 0)
    (new_Pool baseLoop "testPool").
Proof.
  unfold test_event_loop_thread_pool. wp_step.
  wp_apply (wp_setThreadNum startLoop 3); [apply new_Pool_ok|done|]. intros [] p1 [Hok1 ->]. wp_step.
  wp_apply (wp_pool_start startLoop true eq_refl false); [done|done|].
  intros [] p2 (Hok2 & _ & Hbase & Hloops & Hnext & _). cbn in Hbase, Hloops, Hnext. wp_step.
  wp_apply (wp_collect 6 0 [] p2); [done|by rewrite Hloops|by rewrite Hnext|].
  intros r p3 ->. rewrite Hloops, Hbase. unfold threads. clear.
  change (startLoop <$> seq 0 3) with [startLoop 0%nat; startLoop 1%nat; startLoop 2%nat].
  change (round_robin _ _ <$> seq 0 6) with
    [startLoop 0%nat; startLoop 1%nat; startLoop 2%nat;
     startLoop 0%nat; startLoop 1%nat; startLoop 2%nat].
  generalize (startLoop 0%nat) (startLoop 1%nat) (startLoop 2%nat). intros a b c. clear.
  case_decide as Hz; [rewrite decide_True by set_solver; by wp_step|].
  assert (0 ∉ [a; b; c]) as Hz' by set_solver.
  cbn [app forallb lookup list_lookup]. rewrite !bool_decide_eq_true_2 by done. cbn [negb orb].
  rewrite (decide_ext _ (Forall (λ l, l = baseLoop) [a; b; c])) by tauto.
  destruct (Z.eqb_spec a baseLoop) as [Ha|Ha], (Z.eqb_spec b baseLoop) as [Hb|Hb],
    (Z.eqb_spec c baseLoop) as [Hc|Hc]; cbn [andb]; wp_step; case_decide as Hd; try done; exfalso;
    rewrite !Forall_cons in Hd; intuition.
Qed.
End test.
End TestPool.

(** ** test_timer_queue.cc *)
Module TestTimerQueue.
Import Timestamp Timer TimerQueue.

(** The callbacks: the one of [runAfter] only logs. *)
Inductive test_callback : Type := RunAfterExecuted | RunEveryTick.

(** [0.2] and [0.1], as the compiler rounds them. *)
Definition double_0_2 : double := S754_finite false 7205759403792794 (-55).
Definition double_0_1 : double := S754_finite false 7205759403792794 (-56).

(** [count]: how often the timer that runs, the last one recorded, has run. *)
Definition runs_of (r : ActiveTimer) (w : TQ test_callback) : nat :=
  length (filter (eq r) (tq_runs w)).

(** [everyId] is the identity of the timer that is running. *)
Definition test_behaviour (cb : test_callback) (w : TQ test_callback)
    : list (command test_callback) :=
  match cb, last (tq_runs w) with
  | RunEveryTick, Some everyId =>
      if bool_decide (3 ≤ runs_of everyId w)%nat
      then [CmdCancel (MkTimerId everyId.1 everyId.2)] else []
  | _, _ => []
  end.

(** Microseconds of the n-th reading of the clock, counted from the start. *)
Definition timer_env (reading : nat → Z) : TimerEnv test_callback := {|
  clock n := MkTimestamp (1700000000000000 + reading n);
  alloc h := if decide (h !! 1 = None) then 1 else 2;
  capacity := 2;
  timerfd_settime _ := IoOk tt;
  timerfd_read _ := IoOk 1;
  behaviour := test_behaviour;
|}.

Section run.
Context `{!TimerEnv test_callback}.

(** [loop.loop()]: the timerfd is readable while it is armed; the third tick
    has called [quit]. The result tells how many rounds the loop has made. *)
Fixpoint loop_rounds (fuel rounds : nat) (everyId : TimerId) : M (TQ test_callback) (option nat) :=
  match fuel with
  | O => mret None
  | S fuel' =>
      armed ← gets tq_armed;
      match armed with
      | None => mret None
      | Some _ =>
          handleRead ;;
          count ← gets (runs_of (timer_ everyId, id_sequence_ everyId));
          if (3 <=? count)%nat then mret (Some (S rounds)) else loop_rounds fuel' (S rounds) everyId
      end
  end.

(** [main]; the exit code is 0 when [count] has reached 3. *)
Definition test_timer_queue (fuel : nat) : M (TQ test_callback) (option (Z * nat)) :=
  runAfter double_0_2 RunAfterExecuted ;;
  everyId ← runEvery double_0_1 RunEveryTick;
  rounds ← loop_rounds fuel 0 everyId;
  count ← gets (runs_of (timer_ everyId, id_sequence_ everyId));
  mret ((λ n, (if (3 <=? count)%nat then 0 else 1, n)) <$> rounds).
End run.

(** What the test shows when the clock advances by [step] microseconds from one
    reading to the next: the exit code with the rounds of the loop, which timers
    have run, in which order, and what is left in the queue. *)
Definition timer_test_result (step : Z) (fuel : nat) :=
  match @test_timer_queue (timer_env (λ n, step * Z.of_nat n)) fuel (empty_queue _ true) with
  | Ok (r, w) => Some (r, (λ run, run.2) <$> tq_runs w, (timers_ w, map_to_list (tq_heap w)))
  | Fault _ => None
  end.

(** With a tenth of a second between the readings the one-shot timer (number
    1) and then three ticks (number 2) run; with a fiftieth, in which the loop
    makes rounds that find nothing expired, the first tick comes before the
    one-shot timer. In both cases the exit code is 0, the cancelled timer is
    gone and nothing is left in the queue. *)
Example test_timer_queue_passes :
  timer_test_result 100000 10 = Some (Some (0, 3%nat), [1; 2; 2; 2], ([], [])) ∧
  timer_test_result 20000 20 = Some (Some (0, 9%nat), [2; 1; 2; 2], ([], [])).
Proof. split; vm_compute; reflexivity. Qed.
End TestTimerQueue.

(** ** The message callback of the tests of the connection and the server *)
Module TestMessage.
Import Buffer TcpConnection TcpConnectionSpec TcpConnectionProps Echo EPollPoller.

(** Everything received is sent back, and the sending direction shut down. *)
Definition test_message (q : bytes) : list user_call := [Retrieve (zlen q); Send q; Shutdown].

Lemma test_message_ok q : Forall call_ok (test_message q) ∧ calls_cost (test_message q) ≤ zlen q.
Proof. split; [|simpl; lia]. repeat constructor. simpl. lia. Qed.

Section any_kernel.
Context {P CB : Type} `{!Poller P CB, !PollerSpec P CB, !Bound handler CB, !BoundSpec handler CB,
  !SockKernel, !SockKernelSpec}.
#[local] Instance test_env : ConnEnv P := application test_message P.
#[local] Instance test_env_spec : ConnEnvSpec P := application_spec _ P test_message_ok.

(** The callback meets what the connection asks of user code, so with any
    poller and kernel the answer is whole when the client sees the end of the
    stream: a shutdown that has been carried out comes after everything that the
    connection has accepted. *)
Theorem answer_before_shutdown (w : ConnW P) :
  conn_reachable w → SockShutdown ∈ socket_events w → state_ w ≠ kDisconnected →
  wire (socket_events w) = accepted w ∧ out w = [].
Proof.
  intros Hinv%conn_reachable_inv Hin Hst.
  destruct (co_shut _ (ci_core _ Hinv) Hin) as [?|[_ Hnil]]; [done|].
  split; [|done]. by rewrite <-(co_stream _ (ci_core _ Hinv)), Hnil, app_nil_r.
Qed.
End any_kernel.

(** The exchange of test_tcp_connection.cc over the kernel of Echo.v, which
    delivers "hello" and takes four bytes per write. *)
Definition exchange : list conn_event :=
  [RunFunctor; Dispatch EPOLLIN; Dispatch EPOLLOUT; Dispatch EPOLLIN].
Definition after_exchange (n : nat) : World :=
  foldl (app_exec test_message) app_conn (take n exchange).

Example exchange_ok : app_events_okb test_message exchange app_conn = true.
Proof. vm_compute. reflexivity. Qed.

(** The client gets its message back in two pieces, then the end of the stream;
    when it closes, the connection is closed and the close callback (which
    quits the loop) is called. *)
Example exchange_answers :
  socket_events (after_exchange 2) = [SockRead hello; SockWrite (take 4 hello)] ∧
  state_ (after_exchange 2) = kDisconnecting ∧
  socket_events (after_exchange 3) =
    [SockRead hello; SockWrite (take 4 hello); SockWrite (drop 4 hello); SockShutdown] ∧
  state_ (after_exchange 4) = kDisconnected ∧
  last (upcalls (after_exchange 4)) = Some CloseCallback.
Proof. split_and!; vm_compute; reflexivity. Qed.
End TestMessage.
